(* ===== verification/_CoqProject ===== *)
-Q . S2P
Prelude.v
Exceptions.v
Trail.v
Identity.v
Entities.v
World.v
Queries.v
Scope.v
Memory.v
Operations.v
Outbox.v
Counter.v
Calls.v
Pulse.v
Cadence.v
Routing.v
Directives.v
Branches.v
Continuity.v
Gateway.v
Convergence.v
Throttle.v
Restrictions.v
Authorization.v
Reactions.v
Contracts.v
Schedules.v
Mappings.v
Connectors.v
Records.v
Streams.v
Halting.v
Procedures.v
Tools.v
Configuration.v
Realtime.v
Atomicity.v
Chronicles.v
Replies.v
Passwords.v
Tokens.v
Grants.v
Octets.v
Inputs.v
Serving.v
Announcements.v
