(* ===== verification/Prelude.v ===== *)
(** * Toa: a verification library of the runtime

    Toa is a framework of distributed applications. An application is a set of components; a
    component is a state of entities in a storage and operations over it; operations call each
    other over bindings, and what they change is told to others as events. Around the core stand
    extensions: calls put off or repeated (cadence), an HTTP gateway (exposition), and more.

    This library models the parts that decide something, from [src/runtime/core/source] (the core)
    and [src/extensions/*/source], and proves what they promise. Definitions keep the names of the
    code and follow it branch by branch; names that are keywords or taken end with an underscore.

    ** Files

    - [Prelude]: results and exceptions in flow ([result]), values of the language, template strings,
      [split] and [join], objects as their properties in order ([own], [assign]), sets in the order
      they are added to, and the stable sort of the language ([stable_sort]).
    - [Exceptions] ([exceptions.ts]): codes, what is raised, and what is [permanent].
    - [Trail] ([trail.ts]): the chain of hops a call carries, its guard [extend], and ordinals.
    - [Identity] ([entities/newid.ts]): ids derived of parts, [name] and [derive].
    - [Entities] ([entities/]): [Entity], [EntitySet], [Changeset] and their [Factory].
    - [World]: the state operations run in: a storage, the clock, random numbers and the ids made of
      them, and the rows handed over to be published; the monad [M] of state and exceptions.
    - [Queries] ([query.ts], [query/]): [criteria], [options], [projection], and the cache of [parse].
    - [Scope] ([state.ts]): what an operation acquires and commits, against a storage and an outbox
      given as records of operations.
    - [Memory]: a storage of records, rows and calls in one transaction, after the operations of
      [connectors/storages.mongodb/src/storage.js] the core relies on.
    - [Operations] ([operation.ts], [transition.ts], [observation.ts], [assignment.ts], [effect.ts],
      [unmanaged.ts]): the stages of an operation, retries, [once], and the restriction of replies.
    - [Outbox] ([outbox.ts] and [outbox.js] of the storage): the publisher of a process, and replicas
      of it over one storage as a step relation with crashes.
    - [Counter]: a component of one entity that counts, at which theorems of [Operations] and [Scope]
      are instantiated.
    - [Calls] ([call.ts], [component.ts], [instance.ts], [safety.ts]): how a call is made, refused,
      identified, sent and received.
    - [Pulse] ([extensions/cadence/source/Pulse.ts], [Schedule.ts]): modules [Cycle], [Pulse] and
      [Schedule].
    - [Cadence] ([Dispatcher.ts], [row.ts], [settle.js] of the metronome): delayed calls, the book a
      replica keeps of them, and its steps.
    - [Routing] ([extensions/exposition/source/RTD/]: [segment.ts], [Route.ts], [Node.ts], [Tree.ts]):
      the tree of routes, matching, merging of branches, and their expiration.
    - [Directives] ([Directive.ts]): families of directives, the sets of a method, the stages of a
      request.
    - [Branches] ([RTD/factory.ts]): declarations of routes built into nodes of [Routing] with methods
      guarded by sets of [Directives].
    - [Continuity] ([extensions/continuity/]): runs of an operation, the steps kept of them in the
      journal, and attempts at one run, alone and among others, as step relations.
    - [Gateway] ([Gateway.ts], [Branch.ts]): branches announced, merged, refreshed and superseded over
      the tree of [Routing], built by [Branches].
    - [Convergence] ([extensions/convergence/source/], [regional.ts], [converge] of [storage.js]): what
      regions tell each other and which of two writes stays, over the writes of [Memory].
    - [Throttle] ([directives/io/lib/throttle/]): quotas of requests by key, and how the processes
      reconcile what they let through.
    - [Restrictions] ([directives/io/], [Introspection.ts]): what of a message goes in and out of a
      method, and what it is described to take and answer.
    - [Authorization] ([directives/auth/]): the directives that grant access, who a request is taken
      for, tokens, and the family of [Directives] they make.
    - [Reactions] ([event.ts], [emission.ts], [rendering.ts], [receiver.ts], [transmission.ts],
      [connectors/bindings.loop], [connectors/bindings.amqp]): changes rendered into messages, messages
      into requests, and what becomes of deliveries and of calls while a component is replaced.
    - [Contracts] ([contract/], [runtime/norm] of operations): what is stated of a component in the map,
      and the schemas of requests and replies.
    - [Schedules] ([extensions/cadence/source/Aspect.ts], [Scheduler.ts], [cadence.metronome]): what is
      handed over to be called later, over the rows of [Cadence].
    - [Mappings] ([Query.ts], [Mapping.ts], [Endpoint.ts] of the gateway): a request to a resource made
      the request of an operation.
    - [Connectors] ([connector.ts], [gate.ts], [deliveries.ts], [abandon.ts]): how a process is brought
      up and taken down.
    - [Records] and [Streams] ([connectors/storages.mongodb/src/]): how records are written, filters
      translated and matched, and a collection streamed to a reader that keeps a copy of it.
    - [Halting] ([extensions/introspection/source/Halt.ts], [boot/src/workload.js]): the processes of a
      deployment that go quiet together, and how they come back.
    - [Procedures] and [Tools] ([extensions/exposition/source/RPC/], [MCP/]): the routes of a tree as
      procedures that are called, and as tools a model is told of.
    - [Configuration] ([extensions/configuration/]): what components are configured with, asked for and
      told of.
    - [Realtime] ([directives/realtime/], [realtime/]): streams of events and their readers.
    - [Atomicity] ([connectors/atomicity/src/]): slots of replicas, debts of groups, locks and keys.
    - [Chronicles] ([extensions/chronicles/source/]): what is written in the log, and its views.
    - [Replies] ([HTTP/], [directives/cache/]): how requests are let in and replies written, what may be
      stored of them, and how streams are framed.
    - [Passwords], [Tokens] and [Grants] ([extensions/exposition/components/identity.*]): one-time codes;
      roles, keys and tokens; clients, and the codes and tokens users let them have.
    - [Octets] ([directives/octets/], [exposition.octets], [extensions/storages/source/Scanner.ts],
      [Storage.ts] and the file system of [providers/]): bodies that are scanned and stored, and the
      workflows run for them.
    - [Inputs] ([directives/map/], [directives/require/]): what of a request, its route and its client
      is put in the input of an operation.
    - [Serving] ([Gateway.ts], [exceptions.ts], [Interception.ts]): a request from where it comes in to
      what answers it, through the stages of [Directives] over the tree of [Routing].
    - [Announcements] ([Tenant.ts], [Announcements.ts], discovery of [Gateway.ts]): when tenants announce
      the branches of [Gateway], and when a gateway that starts has heard of them.

    ** How state and operations correspond to the code

    An object with fields is a record, and a method that writes them a function that returns the
    record. What awaits a storage or throws is in the monad [M] of [World], so that what was written
    before an exception stays written. Interleavings are step relations, a step being what the code
    does between two awaits: [Outbox.step] (replicas of publishers, crashes included),
    [Cadence.step] (timers, scans and answers of one dispatcher), [Continuity.act] (attempts at one
    run), [Throttle.step] (the traffic of one key), the regions of [Convergence], [Connectors.act]
    (tasks of the graph), [Streams.reading] (a collection and its reader), [Halting.act] (processes and
    signals), [Configuration.reached] (a client and what it is served), and [Realtime.act],
    [Atomicity.act], [Chronicles.act], [Replies.act], [Passwords.act], [Grants.act], [Octets.act] and
    [Announcements.act], which are functions: events happen one after another where they may, and a run of them ([run]) is what the
    theorems speak of. A task or a request that takes no further step is one whose process stopped. [Routing] threads the arrays its
    routines push onto, and tells nodes apart by ids, since branches keep references to them.

    ** What the theorems show

    - Calls: a chain let through is bounded in depth and repeats ([Trail]); a readonly request reaches
      safe operations alone at any depth, calls of an invocation have distinct identities that repeat
      when it is served again, and are refused exactly where their making contradicts what they call
      ([Calls]); identities are injective in their parts ([Identity]).
    - State: written states are versioned and stamped, tombstones revive, refusals write nothing, an
      operation declared [once] applies once and its duplicate is answered the same, and what is
      published is what was stored ([Entities], [Operations], [Scope]); queries read through the
      cache as without it ([Queries]).
    - Events: no row is settled for a destination that did not confirm it, whatever crashes and
      interleaves; nothing is in flight twice in a process, and a slow destination holds nobody back
      ([Outbox]).
    - Time: a pulse calls each interval at most once and its boundaries are exact; a schedule misses
      no occurrence it is woken for; a delayed call is settled for a reason only, held once, and made
      again when it failed on the way ([Pulse], [Cadence]).
    - Routes: matching with shared arrays is the first of all a tree offers; a merged branch is served
      until its time is out; mandatory families guard every method, in order, and the refusal of the
      first ends the request; methods are guarded by what their place declares ([Routing],
      [Directives], [Branches]).
    - Gateway: once a branch is exposed, announcements of an earlier tenant are turned down
      ([Gateway]); no answer carries a token of a banned identity, a method that declares no
      authorization refuses everybody, a credential that names resources is good there alone, and a
      method nobody is told of refuses ([Authorization]); replies are confined to what is declared,
      and a method is described as it is enforced ([Restrictions]); a process lets through no more
      than declared, and what it tells a refused client to wait is enough ([Throttle]).
    - Repetition: a run that finished is finished alike by all later attempts, and concurrent ones
      agree on every step they kept ([Continuity]); regions that exchange what they commit end with the
      same records where every write says its region ([Convergence]).
    - Messages: a receiver reacts to a message once, cascades of receivers that do not feed one another
      end, and what becomes of a delivery follows from what it failed with ([Reactions]); what is stated
      of a component is restored as it was declared ([Contracts]); schedules are kept as they were handed
      over ([Schedules]).
    - Requests: what a client sends narrows what a route declares, and a query is of the types declared
      ([Mappings]); a procedure reaches the route it names, an envelope is answered call by call
      ([Procedures]), and tools are listed to those who may call them ([Tools]).
    - Storage: records are read as they were written, a filter finds what it selects ([Records]), and a
      reader's copy is the collection ([Streams]).
    - Processes: nothing is left up whatever order connectors come and go in ([Connectors]); deployments
      that are still have stopped, and come back ([Halting]); a client of configuration asks until it is
      told, is told what it asked for, ends with what the service holds, and secrets stay hidden
      ([Configuration]); replicas share slots out without overlap, and a group its debt ([Atomicity]).
    - Streams of events: a reader is given all events of its key since it came, once and in order
      ([Realtime]); of what is written in the log nothing is undeclared ([Chronicles]).
    - Replies: every request is answered, whatever fails; what answers an identified request is not
      shared; a stream is framed whatever order its parts and its end come in ([Replies]).
    - Credentials: a one-time code is spent once and guessed at no more often than configured
      ([Passwords]); a token is read as it was made and authenticates for a reason, and delegation of
      roles escalates nothing ([Tokens]); a code of a client is redeemed once, for what its user
      allowed ([Grants]).
    - Serving: an endpoint is called at most once for a request, after the directives of the method that
      serves it let it through ([Serving]); a branch stays exposed though every other announcement of it
      is lost, and a gateway starts in bounded time ([Announcements]).
    - Bodies: a body is what it begins with, however it arrives, and a file is deleted only after all of
      its workflow ([Octets]); what is mapped into an input is not the body's to say ([Inputs]).

    These theorems are about behaviour the code does not mean to have: [Cadence.scan_under_way_arms],
    [Routing.short_path_is_served], [Routing.branch_hides_root], [Continuity.asks_collide],
    [Convergence.assigned_apart], [Convergence.revived_alone], [Throttle.keys_collide],
    [Authorization.rules_refused], [Schedules.overdue_is_kept], [Mappings.client_escapes],
    [Mappings.alternative_outlives_client], [Mappings.defaults_are_dropped],
    [Mappings.open_sort_ends_empty], [Mappings.closed_sort_is_extended], those of [Connectors.Late],
    [Records.criterion_on_id_is_dropped], [Records.path_through_list_is_not_read],
    [Streams.changes_are_not_projected], [Halting.bounded_halts_have_no_signals],
    [Tools.Tearoom.unpublished_is_reached], [Tools.Tearoom.expired_mount_shadows],
    [Tools.failed_description_is_kept], [Tools.any_offer_is_served],
    [Configuration.Greetings.created_meanwhile_is_lost], [Configuration.closed_client_asks_on],
    [Configuration.Greetings.undeclared_is_substituted], [Realtime.Room.missed_for_good],
    [Realtime.Room.token_goes_back], [Realtime.Room.prefix_of_a_variable_is_taken],
    [Atomicity.Replicas.loss_is_not_told], [Chronicles.Shop.accepted_and_never_published],
    [Chronicles.Shop.refused_definition_loses_the_view], [Chronicles.Shop.connection_is_left],
    [Replies.Shop.refusal_is_kept_as_the_reply], [Replies.Shop.address_is_looked_up_as_spelt],
    [Replies.Shop.public_is_not_private], [Replies.Shop.capitals_are_not_counted],
    [Replies.Shop.held_does_not_vary], [Passwords.Bakery.attempts_is_a_password] (a name is signed in
    as without a code), [Passwords.Bakery.count_is_left], [Tokens.Shop.legacy_custom_is_reissued],
    [Tokens.Shop.refused_issue_leaves_key], [Tokens.Shop.keys_past_the_limit_stay],
    [Grants.Shop.earlier_token_outlives_grant], [Grants.Shop.code_outlives_grant],
    [Grants.Shop.redirect_may_be_left_out], [Grants.Shop.registered_redirect_is_refused],
    [Octets.Gallery.limit_is_asked_of_the_beginning] (a limit holds for a body in one piece alone),
    [Octets.Gallery.refused_put_spoils_file], [Octets.Gallery.any_tag_is_held], [Octets.Gallery.ids],
    [Inputs.Shop.absent_claim_is_said] and [Serving.Kiosk.forwarded_is_decoded_twice].

    ** Fuel and bounds

    [Outbox.pages] counts down the rows there are, and [pages_complete] shows that as many pages as
    rows are enough. [Operations.retry] counts the attempts of the code ([RETRIES]).
    [Routing.decode_uri] counts the characters left, of which each step takes one at least, and so does
    [Replies.found]. [Connectors.halt] and [Connectors.restore] take one step more than there are
    connectors, which a walk that visits each once is through with; [Atomicity.from_slot] one per slot,
    and [Atomicity.meter] one per batch. [Reactions.ordinary] counts attempts. [Serving.destination]
    takes a character a step, and [Announcements.polling] waits no more often than its time allows,
    which [settles] shows to be enough. Numbers
    are integers of unbounded width: those of the code are milliseconds, versions and counters, far
    below what a number of the language holds exactly.

    ** What is not modelled

    Bridges to algorithms, validators of schemas, the parser of queries, cron expressions, addresses,
    hashes, encryption and random bytes are arguments of the definitions that use them, as the platform
    or a library has them. Brokers, drivers, logs, traces and measurements are left out: they do what
    other programs promise. Of the gateway, the connections of its servers and their drain, the formats of
    bodies, the pages and the families that decorate requests (flow, help, oauth, cors, censor, dev) are
    not modelled; nor are credentials of passwords, providers and passkeys, which are calls of
    libraries for the most part. Storages of objects, fetching, the stash and telemetry wrap clients of
    libraries; reading of manifests, booting, deployment, the command line and the interfaces in a
    browser keep no state the modelled parts read, and end where the modelled parts begin. *)
From stdpp Require Export base gmap strings list fin_maps pretty.
From Stdlib Require Export ZArith Lia Ascii.
From stdpp Require Import sorting.

Declare Scope toa_scope.
Delimit Scope toa_scope with toa.
Open Scope toa_scope.

(** ** Results: a value, or what was thrown *)

Inductive result (E A : Type) : Type :=
| Ok (a : A)
| Throw (e : E).
Arguments Ok {E A} a.
Arguments Throw {E A} e.

#[export] Instance result_ret {E} : MRet (result E) := fun A a => Ok a.

#[export] Instance result_bind {E} : MBind (result E) := fun A B f r =>
  match r with
  | Ok a => f a
  | Throw e => Throw e
  end.

#[export] Instance result_fmap {E} : FMap (result E) := fun A B f r =>
  match r with
  | Ok a => Ok (f a)
  | Throw e => Throw e
  end.

#[export] Instance result_eq_dec {E A} `{EqDecision E, EqDecision A} : EqDecision (result E A).
Proof. solve_decision. Defined.

Definition is_ok {E A} (r : result E A) : bool :=
  match r with Ok _ => true | Throw _ => false end.

Lemma bind_Ok {E A B} (r : result E A) (f : A -> result E B) b :
  r ≫= f = Ok b <-> exists a, r = Ok a /\ f a = Ok b.
Proof. destruct r as [a|e]; simpl; split; [eauto | by intros (? & [= ->] & ?) | done | by intros (? & ? & ?)]. Qed.

Lemma bind_Throw {E A B} (r : result E A) (f : A -> result E B) e :
  r ≫= f = Throw e <-> r = Throw e \/ exists a, r = Ok a /\ f a = Throw e.
Proof.
  destruct r as [a|e']; simpl; split.
  - intros Hf. right. by exists a.
  - intros [Hr | (x & Hr & Hf)]; congruence.
  - intros [= ->]. by left.
  - intros [Hr | (x & Hr & Hf)]; congruence.
Qed.

(** [if (condition) throw exception] *)
Definition refuse_when {E} (condition : bool) (exception : E) : result E unit :=
  if condition then Throw exception else Ok tt.

Lemma refuse_when_Ok {E} (c : bool) (e : E) u : refuse_when c e = Ok u <-> c = false.
Proof. destruct c, u; simpl; unfold refuse_when; split; congruence. Qed.

(** one check and then the rest *)
Lemma then_Ok {E A} (r : result E unit) (k : result E A) a :
  r ≫= (fun _ => k) = Ok a <-> r = Ok tt /\ k = Ok a.
Proof. destruct r as [[]|e]; simpl; split; [done | by intros [_ ?] | done | by intros [? _]]. Qed.

(** ** Values of the language: what arrives off the wire, or is read of a manifest

    A number is an integer, as every number the modelled code computes with is: milliseconds,
    counts, ranks and versions. An object holds its own enumerable properties in their order. *)
Inductive value : Type :=
| VUndefined
| VNull
| VBool (b : bool)
| VNumber (n : Z)
(** [m * 10 ^ e], a number that is not an integer *)
| VDecimal (m e : Z)
| VString (s : string)
| VArray (vs : list value)
| VObject (fields : list (string * value)).

#[export] Instance value_eq_dec : EqDecision value.
Proof.
  refine (fix go (v w : value) : Decision (v = w) :=
    let _ : EqDecision value := @go in
    match v, w with
    | VUndefined, VUndefined | VNull, VNull => left _
    | VBool a, VBool b => cast_if (decide (a = b))
    | VNumber a, VNumber b => cast_if (decide (a = b))
    | VDecimal a k, VDecimal b l => cast_if (decide ((a, k) = (b, l)))
    | VString a, VString b => cast_if (decide (a = b))
    | VArray vs, VArray ws => cast_if (decide (vs = ws))
    | VObject vs, VObject ws => cast_if (decide (vs = ws))
    | _, _ => right _
    end); congruence.
Defined.

(** ** Template strings *)

(** what [String(n)] reads for an integer *)
Definition show (n : Z) : string := pretty n.

(** what quotes a name in a message *)
Definition quoted (s : string) : string := "'" +:+ s +:+ "'".

(** ** Counting: a loop that counts the elements equal to one *)

Definition count {A} `{EqDecision A} (x : A) (l : list A) : nat :=
  length (filter (fun y => y = x) l).

Section count.
Context {A : Type} `{EqDecision A}.
Implicit Types (x y : A) (l k : list A).

Lemma count_nil x : count x [] = 0.
Proof. done. Qed.

Lemma count_app x l k : count x (l ++ k) = count x l + count x k.
Proof. unfold count. rewrite filter_app, length_app. lia. Qed.

Lemma count_single x : count x [x] = 1.
Proof. unfold count. rewrite filter_cons_True; done. Qed.

Lemma count_other x y : x <> y -> count x [y] = 0.
Proof. intros ?. unfold count. rewrite filter_cons_False; [done | congruence]. Qed.

Lemma count_le_length x l : count x l <= length l.
Proof. unfold count. apply length_filter. Qed.

Lemma count_take_le x n l : count x (take n l) <= count x l.
Proof. rewrite <- (take_drop n l) at 2. rewrite count_app. lia. Qed.

Lemma count_zero x l : count x l = 0 <-> x ∉ l.
Proof.
  unfold count. rewrite length_zero_iff_nil. split.
  - intros Hf Hx. by apply (filter_nil_not_elem_of _ _ x Hf).
  - intros Hx. induction l as [|y l IH]; [done|].
    apply not_elem_of_cons in Hx as [Hne Hx].
    rewrite filter_cons_False by congruence. by apply IH.
Qed.
End count.

(** ** Lists *)

(** two lists read as one are split at their first separator in one way *)
Lemma app_separator_inj {A} (x : A) (l l' k k' : list A) :
  x ∉ l -> x ∉ l' -> l ++ x :: k = l' ++ x :: k' -> l = l' /\ k = k'.
Proof.
  revert l'. induction l as [|y l IH]; intros [|z l']; simpl; intros Hl Hl' Heq.
  - by injection Heq.
  - injection Heq as -> _. set_solver.
  - injection Heq as -> _. set_solver.
  - injection Heq as -> Heq. apply not_elem_of_cons in Hl as [_ Hl].
    apply not_elem_of_cons in Hl' as [_ Hl']. by destruct (IH _ Hl Hl' Heq) as [-> ->].
Qed.

Lemma list_filter_id {A} (P : A -> Prop) `{forall x, Decision (P x)} (l : list A) :
  (forall x, x ∈ l -> P x) -> filter P l = l.
Proof.
  induction l as [|x l IH]; intros Hl; [done|].
  rewrite filter_cons_True by (apply Hl; set_solver). rewrite IH; [done | set_solver].
Qed.

Lemma list_filter_none {A} (P : A -> Prop) `{forall x, Decision (P x)} (l : list A) :
  (forall x, x ∈ l -> ~ P x) -> filter P l = [].
Proof.
  induction l as [|x l IH]; intros Hl; [done|].
  rewrite filter_cons_False by (apply Hl; set_solver). apply IH. set_solver.
Qed.

Lemma NoDup_keys_inj {A B} (l : list (A * B)) k v v' :
  NoDup (fst <$> l) -> (k, v) ∈ l -> (k, v') ∈ l -> v = v'.
Proof.
  induction l as [|[k0 v0] l IH]; [by intros _ ?%elem_of_nil|].
  rewrite fmap_cons. intros [Hk Hl]%NoDup_cons Hv Hv'. cbn [fst] in Hk.
  assert (forall w, (k, w) ∈ l -> k ∈ l.*1) as Hin by (intros w; apply (list_elem_of_fmap_2 fst)).
  apply elem_of_cons in Hv as [Hv|Hv]; apply elem_of_cons in Hv' as [Hv'|Hv'];
    [congruence | naive_solver | naive_solver | by apply IH].
Qed.

(** *** Sets in the order they were added to: [set.add] *)

Definition add (x : string) (s : list string) : list string :=
  if decide (x ∈ s) then s else s ++ [x].

Lemma elem_of_add (x y : string) s : y ∈ add x s <-> y = x \/ y ∈ s.
Proof. unfold add. case_decide; set_solver. Qed.

Lemma NoDup_add (x : string) s : NoDup s -> NoDup (add x s).
Proof.
  intros Hs. unfold add. case_decide as Hx; [done|].
  apply NoDup_app. split; [done|]. split; [set_solver | apply NoDup_singleton].
Qed.

(** ** Runs: events that happen one after another, each where it may *)

Section run.
Context {E W : Type} (act : E -> W -> option W).

Fixpoint run (es : list E) (w : W) : option W :=
  match es with [] => Some w | e :: es => act e w ≫= run es end.

Lemma run_app es es' w : run (es ++ es') w = run es w ≫= run es'.
Proof. revert w. induction es as [|e es IH]; intros w; cbn [app run]; [done|]. destruct (act e w); cbn; [apply IH | done]. Qed.

(** what holds at the start and is kept by an event, knowing what happened before it, holds after a run *)
Lemma run_ind (w0 : W) (P : list E -> W -> Prop) : P [] w0 ->
  (forall es e w w', run es w0 = Some w -> P es w -> act e w = Some w' -> P (es ++ [e]) w') ->
  forall es w, run es w0 = Some w -> P es w.
Proof.
  intros H0 Hs es. induction es as [|e es IH] using rev_ind; intros w H; [by injection H as <-|].
  rewrite run_app in H. destruct (run es w0) as [w1|] eqn:R; [|done]. cbn in H. destruct (act e w1) as [w2|] eqn:A; [|done].
  injection H as <-. by apply (Hs es e w1 w2 R (IH w1 eq_refl)).
Qed.
End run.

(** ** Lists whose neighbours are related *)

Definition consecutive {A} (R : A -> A -> Prop) (l : list A) : Prop :=
  forall i a b, l !! i = Some a -> l !! S i = Some b -> R a b.

Lemma consecutive_snoc {A} (R : A -> A -> Prop) l x :
  consecutive R l -> (forall a, last l = Some a -> R a x) -> consecutive R (l ++ [x]).
Proof.
  intros Hs Hl i a b Ha Hb. destruct (decide (S i < length l)%nat) as [Hi|Hi].
  - rewrite lookup_app_l in Ha, Hb by lia. by eapply Hs.
  - assert (S i < length (l ++ [x]))%nat as Hlt by by eapply lookup_lt_Some. rewrite length_app in Hlt. cbn in Hlt.
    assert (S i = length l) as He by lia. rewrite He, list_lookup_middle in Hb by done. injection Hb as <-.
    rewrite lookup_app_l in Ha by lia. apply Hl. by rewrite last_lookup, <- He.
Qed.

(** how many of a list *)
Definition tally {A} (f : A -> bool) (l : list A) : nat := length (List.filter f l).
Arguments tally {A} f l : simpl never.

Lemma tally_app {A} (f : A -> bool) l k : tally f (l ++ k) = (tally f l + tally f k)%nat.
Proof. unfold tally. by rewrite List.filter_app, length_app. Qed.

Lemma tally_one {A} (f : A -> bool) x : tally f [x] = Nat.b2n (f x).
Proof. unfold tally. cbn. by destruct (f x). Qed.

Lemma tally_insert {A} (f : A -> bool) l i x y : l !! i = Some y -> (tally f (<[i := x]> l) + Nat.b2n (f y) = tally f l + Nat.b2n (f x))%nat.
Proof.
  intros H. rewrite (insert_take_drop l i x) by (by eapply lookup_lt_Some).
  rewrite <- (take_drop_middle l i y H) at 3. change (x :: drop (S i) l) with ([x] ++ drop (S i) l). change (y :: drop (S i) l) with ([y] ++ drop (S i) l).
  rewrite !tally_app, !tally_one. lia.
Qed.

Lemma tally_zero {A} (f : A -> bool) l i x : tally f l = 0%nat -> l !! i = Some x -> f x = false.
Proof. intros H Hi. pose proof (tally_insert f l i x x Hi). destruct (f x) eqn:E; [|done]. rewrite <- (take_drop_middle l i x Hi) in H.
  change (x :: drop (S i) l) with ([x] ++ drop (S i) l) in H. rewrite !tally_app, tally_one, E in H. cbn in H. lia. Qed.

Lemma tally_more {A} (f g : A -> bool) l : (forall x, f x = true -> g x = true) -> (tally f l <= tally g l)%nat.
Proof. intros H. induction l as [|x l IH]; [done|]. change (x :: l) with ([x] ++ l). rewrite !tally_app, !tally_one. specialize (H x). destruct (f x), (g x); cbn; try lia; naive_solver. Qed.

(** ** Strings *)

Fixpoint chars (s : string) : list Ascii.ascii :=
  match s with
  | EmptyString => []
  | String c s => c :: chars s
  end.

Lemma chars_app s t : chars (s +:+ t) = chars s ++ chars t.
Proof. induction s as [|c s IH]; simpl; [done | by rewrite IH]. Qed.

Lemma chars_inj s t : chars s = chars t -> s = t.
Proof.
  revert t. induction s as [|c s IH]; intros [|d t]; simpl; try done.
  intros [= -> Ht]. by rewrite (IH _ Ht).
Qed.

Lemma length_chars s : length (chars s) = String.length s.
Proof. induction s; simpl; congruence. Qed.

Lemma string_app_assoc (s t u : string) : (s +:+ t) +:+ u = s +:+ (t +:+ u).
Proof. apply chars_inj. rewrite !chars_app. by rewrite app_assoc. Qed.

Lemma string_app_nil_r (s : string) : s +:+ "" = s.
Proof. apply chars_inj. rewrite chars_app. simpl. by rewrite app_nil_r. Qed.

Lemma string_app_inj_l (s t u : string) : s +:+ t = s +:+ u -> t = u.
Proof.
  intros Heq. apply chars_inj. apply (f_equal chars) in Heq.
  rewrite !chars_app in Heq. by apply app_inv_head in Heq.
Qed.

Lemma string_app_inj_length (s s' t t' : string) :
  String.length s = String.length s' -> s +:+ t = s' +:+ t' -> s = s' /\ t = t'.
Proof.
  intros Hl Heq. apply (f_equal chars) in Heq. rewrite !chars_app in Heq.
  rewrite <- !length_chars in Hl.
  apply app_inj_1 in Heq as [?%chars_inj ?%chars_inj]; done.
Qed.

(** a decimal numeral holds no separator *)
Definition separator : Ascii.ascii := ":"%char.

Lemma pretty_N_char_separator n : pretty_N_char n <> separator.
Proof.
  unfold pretty_N_char, separator.
  destruct n as [|p]; [done|].
  do 4 (destruct p as [p|p|]; try discriminate).
Qed.

Lemma pretty_N_go_separator n s :
  separator ∉ chars s -> separator ∉ chars (pretty_N_go n s).
Proof.
  revert s. induction (N.lt_wf_0 n) as [n _ IH]. intros s Hs.
  destruct (decide (n = 0%N)) as [->|Hn].
  - by rewrite pretty_N_go_0.
  - rewrite pretty_N_go_step by lia. apply IH.
    + apply N.div_lt; lia.
    + simpl. rewrite not_elem_of_cons. split; [|done].
      intros Heq. by apply (pretty_N_char_separator (n `mod` 10)).
Qed.

Lemma pretty_nat_separator (n : nat) : separator ∉ chars (pretty n).
Proof.
  unfold pretty, pretty_nat, pretty, pretty_N.
  case_decide; simpl; [by rewrite list_elem_of_singleton|].
  apply pretty_N_go_separator. simpl. set_solver.
Qed.

(** [s.split(separator)] *)
Fixpoint split_chars (sep : ascii) (acc : list ascii) (s : list ascii) : list (list ascii) :=
  match s with
  | [] => [reverse acc]
  | c :: s => if decide (c = sep) then reverse acc :: split_chars sep [] s
              else split_chars sep (c :: acc) s
  end.

Fixpoint of_chars (cs : list ascii) : string :=
  match cs with [] => EmptyString | c :: cs => String c (of_chars cs) end.

Lemma of_chars_chars s : of_chars (chars s) = s.
Proof. induction s; simpl; congruence. Qed.

Lemma chars_of_chars cs : chars (of_chars cs) = cs.
Proof. induction cs; simpl; congruence. Qed.

Definition split (sep : ascii) (s : string) : list string :=
  of_chars <$> split_chars sep [] (chars s).

(** [parts.join(separator)] *)
Fixpoint join (sep : string) (parts : list string) : string :=
  match parts with
  | [] => ""
  | [p] => p
  | p :: parts => p +:+ sep +:+ join sep parts
  end.

Lemma split_chars_none sep acc s :
  sep ∉ s -> split_chars sep acc s = [reverse acc ++ s].
Proof.
  revert acc. induction s as [|c s IH]; intros acc Hs; simpl.
  - by rewrite app_nil_r.
  - apply not_elem_of_cons in Hs as [Hc Hs].
    rewrite decide_False by congruence. rewrite IH by done.
    by rewrite reverse_cons, <- app_assoc.
Qed.

Lemma split_chars_sep sep acc l s :
  sep ∉ l -> split_chars sep acc (l ++ sep :: s) = (reverse acc ++ l) :: split_chars sep [] s.
Proof.
  revert acc. induction l as [|c l IH]; intros acc Hs; simpl.
  - rewrite decide_True by done. by rewrite app_nil_r.
  - apply not_elem_of_cons in Hs as [Hc Hs].
    rewrite decide_False by congruence. rewrite IH by done.
    by rewrite reverse_cons, <- app_assoc.
Qed.

(** what was joined is what is read back, where no part holds the separator *)
Lemma split_join sep parts :
  parts <> [] -> Forall (fun p => sep ∉ chars p) parts ->
  split sep (join (String sep "") parts) = parts.
Proof.
  intros Hne Hall. unfold split. induction Hall as [|p parts Hp Hall IH]; [done|].
  destruct parts as [|q parts].
  - simpl. rewrite split_chars_none by done. rewrite reverse_nil. cbn. by rewrite of_chars_chars.
  - specialize (IH ltac:(done)).
    change (join (String sep "") (p :: q :: parts))
      with (p +:+ (String sep "" +:+ join (String sep "") (q :: parts))).
    rewrite chars_app. change (chars (String sep "" +:+ ?t)) with (sep :: chars t).
    rewrite split_chars_sep by done. rewrite reverse_nil, fmap_cons. cbn [app].
    rewrite of_chars_chars.
    f_equal. exact IH.
Qed.

Lemma split_chars_app sep acc s t :
  split_chars sep acc (s ++ sep :: t) = split_chars sep acc s ++ split_chars sep [] t.
Proof.
  revert acc. induction s as [|c s IH]; intros acc; cbn [app split_chars].
  - by rewrite decide_True.
  - case_decide; [by rewrite IH | apply IH].
Qed.

Lemma split_chars_nonempty sep acc s : split_chars sep acc s <> [].
Proof. revert acc. induction s; intros acc; cbn [split_chars]; [done|]. case_decide; [done | auto]. Qed.

Lemma join_split sep s : join (String sep "") (split sep s) = s.
Proof.
  apply chars_inj. unfold split.
  assert (forall acc cs, chars (join (String sep "") (of_chars <$> split_chars sep acc cs)) = reverse acc ++ cs) as H.
  { intros acc cs. revert acc. induction cs as [|c cs IH]; intros acc; cbn [split_chars].
    - cbn. by rewrite chars_of_chars, app_nil_r.
    - case_decide as Hc.
      + destruct (split_chars sep [] cs) as [|p ps] eqn:Hs; [by apply split_chars_nonempty in Hs|].
        rewrite fmap_cons. specialize (IH []). rewrite Hs in IH. rewrite fmap_cons in IH |- *.
        change (join (String sep "") (of_chars (reverse acc) :: of_chars p :: (of_chars <$> ps))) with
          (of_chars (reverse acc) +:+ (String sep "" +:+ join (String sep "") (of_chars p :: (of_chars <$> ps)))).
        rewrite !chars_app, IH, chars_of_chars. cbn. by rewrite Hc.
      + by rewrite IH, reverse_cons, <- app_assoc. }
  rewrite H. by rewrite reverse_nil.
Qed.

Lemma string_join_app sep a b : a <> [] -> b <> [] -> join sep (a ++ b) = join sep a +:+ sep +:+ join sep b.
Proof.
  intros Ha Hb. induction a as [|x a IH]; [done|]. destruct a as [|y a].
  - cbn. by destruct b.
  - change (join sep ((x :: y :: a) ++ b)) with (x +:+ sep +:+ join sep ((y :: a) ++ b)).
    rewrite IH by done. cbn [join]. by rewrite !string_app_assoc.
Qed.

(** ** Objects: own properties by their names, in their order *)

Fixpoint own {A} (fields : list (string * A)) (key : string) : option A :=
  match fields with
  | [] => None
  | (k, v) :: fields => if decide (k = key) then Some v else own fields key
  end.

(** [empty(object)] of [libraries/generic] *)
Definition empty {A} (fields : list (string * A)) : bool :=
  match fields with [] => true | _ => false end.

Lemma own_Some {A} (fields : list (string * A)) key v :
  own fields key = Some v -> (key, v) ∈ fields.
Proof.
  induction fields as [|[k w] fields IH]; simpl; [done|].
  case_decide as Hk; [intros [= ->]; subst; set_solver | intros ?; set_solver].
Qed.

Lemma own_None {A} (fields : list (string * A)) key :
  own fields key = None <-> key ∉ fst <$> fields.
Proof.
  induction fields as [|[k w] fields IH]; simpl; [set_solver|].
  case_decide as Hk; [subst; set_solver | rewrite IH; set_solver].
Qed.

(** [object[key] = value] *)
Fixpoint assign {A} (key : string) (v : A) (fields : list (string * A)) : list (string * A) :=
  match fields with
  | [] => [(key, v)]
  | (k, w) :: fields => if decide (k = key) then (k, v) :: fields else (k, w) :: assign key v fields
  end.

(** [for (const [key, value] of Object.entries(given)) object[key] = value] *)
Definition assign_all {A} (fields given : list (string * A)) : list (string * A) :=
  foldl (fun fields '(k, v) => assign k v fields) fields given.

Lemma own_assign {A} (fields : list (string * A)) key v key' :
  own (assign key v fields) key' = if decide (key = key') then Some v else own fields key'.
Proof.
  induction fields as [|[k w] fields IH]; simpl; [done|].
  destruct (decide (k = key)) as [->|Hk]; simpl; [by case_decide|].
  rewrite IH. by repeat case_decide; subst.
Qed.

Lemma own_assign_ne {A} (l : list (string * A)) k k' v : k <> k' -> own (assign k v l) k' = own l k'.
Proof. intros H. rewrite own_assign. case_decide; [congruence | done]. Qed.

Lemma own_assign_eq {A} (l : list (string * A)) k v : own (assign k v l) k = Some v.
Proof. rewrite own_assign. by rewrite decide_True. Qed.

Lemma assign_keys {A} (fields : list (string * A)) key v :
  fst <$> assign key v fields =
  if decide (key ∈ fst <$> fields) then fst <$> fields else (fst <$> fields) ++ [key].
Proof.
  induction fields as [|[k w] fields IH]; cbn [assign].
  - by rewrite decide_False by apply not_elem_of_nil.
  - destruct (decide (k = key)) as [->|Hk].
    + change (key :: fields.*1 = if decide (key ∈ key :: fields.*1)
        then key :: fields.*1 else (key :: fields.*1) ++ [key]). by rewrite decide_True by (by left).
    + change (k :: (assign key v fields).*1 = if decide (key ∈ k :: fields.*1)
        then k :: fields.*1 else (k :: fields.*1) ++ [key]). rewrite IH.
      destruct (decide (key ∈ fields.*1)).
      * by rewrite decide_True by (by right).
      * by rewrite decide_False by (by apply not_elem_of_cons).
Qed.

Lemma own_map {A B} (f : A -> B) (fields : list (string * A)) key :
  own ((fun '(k, v) => (k, f v)) <$> fields) key = f <$> own fields key.
Proof. induction fields as [|[k v] fields IH]; cbn; [done|]. by case_decide. Qed.

Lemma own_filter {A} (P : string * A -> Prop) `{forall x, Decision (P x)} (fields : list (string * A)) key :
  NoDup (fst <$> fields) ->
  own (filter P fields) key = match own fields key with Some v => if decide (P (key, v)) then Some v else None | None => None end.
Proof.
  induction fields as [|[k v] fields IH]; [done|]. rewrite fmap_cons, NoDup_cons. intros [Hk Hn].
  rewrite filter_cons. cbn [own fst] in *. destruct (decide (k = key)) as [->|Hne].
  - destruct (decide (P (key, v))); cbn [own]; [by rewrite decide_True|].
    rewrite IH by done. by apply own_None in Hk as ->.
  - case_decide; cbn [own]; [rewrite decide_False by done|]; by apply IH.
Qed.

Lemma own_assign_all_or {A} (fields given : list (string * A)) key :
  NoDup (fst <$> given) ->
  own (assign_all fields given) key = match own given key with Some v => Some v | None => own fields key end.
Proof.
  unfold assign_all. revert fields. induction given as [|[k v] given IH]; intros fields; [done|].
  rewrite fmap_cons, NoDup_cons. intros [Hk Hn]. cbn [foldl own fst] in *. rewrite IH by done.
  destruct (decide (k = key)) as [->|Hne].
  - apply own_None in Hk as ->. rewrite own_assign. by rewrite decide_True.
  - destruct (own given key); [done|]. rewrite own_assign. by rewrite decide_False.
Qed.

Lemma filter_names {A} (P : string * A -> Prop) `{forall x, Decision (P x)} (fields : list (string * A)) :
  NoDup (fst <$> fields) -> NoDup (fst <$> filter P fields).
Proof. intros H0. eapply sublist_NoDup; [exact H0|]. apply fmap_sublist, sublist_filter. Qed.

Lemma assign_names {A} (fields : list (string * A)) key v : NoDup (fst <$> fields) -> NoDup (fst <$> assign key v fields).
Proof.
  intros Hd. rewrite assign_keys. case_decide; [done|].
  apply NoDup_app. split_and!; [done | intros x Hx ->%list_elem_of_singleton; done | apply NoDup_singleton].
Qed.

Lemma assign_all_names {A} (fields given : list (string * A)) :
  NoDup (fst <$> fields) -> NoDup (fst <$> assign_all fields given).
Proof.
  unfold assign_all. revert fields. induction given as [|[k v] given IH]; intros fields Hd; [done|].
  cbn [foldl]. by apply IH, assign_names.
Qed.

(** ** Objects in the order of their names *)

(** names in the order [sort] puts them *)
Definition named_before {A} (a b : string * A) : Prop := String.le (fst a) (fst b).

#[export] Instance named_before_dec {A} : RelDecision (@named_before A).
Proof. intros a b. unfold named_before. apply _. Defined.

Lemma named_before_sorted {A} (l : list (string * A)) : StronglySorted named_before (merge_sort named_before l).
Proof.
  apply StronglySorted_merge_sort.
  - intros a b c. unfold named_before. by etrans.
  - intros a b. apply String.le_total.
Qed.

Lemma sorted_by_names {A} (l k : list (string * A)) :
  NoDup l.*1 -> l ≡ₚ k -> merge_sort named_before l = merge_sort named_before k.
Proof.
  intros Hd Hp. apply (StronglySorted_unique_strong named_before).
  - intros [x a] [y b] Hx Hy Hxy Hyx. rewrite !merge_sort_Permutation in Hx, Hy. rewrite <- Hp in Hy.
    assert (x = y) as -> by (apply (anti_symm String.le); [exact Hxy | exact Hyx]).
    f_equal. by apply (NoDup_keys_inj l y).
  - apply named_before_sorted.
  - apply named_before_sorted.
  - by rewrite !merge_sort_Permutation.
Qed.

(** the same value with the members of its objects in another order, at any depth *)
Inductive rearranged : value -> value -> Prop :=
| rearranged_same v : rearranged v v
| rearranged_order fields fields' : NoDup fields.*1 -> fields ≡ₚ fields' -> rearranged (VObject fields) (VObject fields')
| rearranged_item before v w after : rearranged v w -> rearranged (VArray (before ++ v :: after)) (VArray (before ++ w :: after))
| rearranged_member before k v w after :
    rearranged v w -> rearranged (VObject (before ++ (k, v) :: after)) (VObject (before ++ (k, w) :: after))
| rearranged_again u v w : rearranged u v -> rearranged v w -> rearranged u w.

(** ** [array.sort(compare)]: stable, [le x y] being [compare(x, y) <= 0] *)

Section stable_sort.
Context {A : Type} (le : A -> A -> bool).

Fixpoint insert_sorted (x : A) (l : list A) : list A :=
  match l with
  | [] => [x]
  | y :: k => if le x y then x :: l else y :: insert_sorted x k
  end.

Definition stable_sort (l : list A) : list A := foldr insert_sorted [] l.

Lemma insert_sorted_perm x l : insert_sorted x l ≡ₚ x :: l.
Proof.
  induction l as [|y l IH]; cbn [insert_sorted]; [done|].
  destruct (le x y); [done|]. rewrite IH. apply Permutation_swap.
Qed.

Lemma stable_sort_perm l : stable_sort l ≡ₚ l.
Proof. induction l as [|x l IH]; [done|]. cbn. by rewrite insert_sorted_perm, IH. Qed.
End stable_sort.

(** Sorting by a rank that is bounded is gathering the ranks, one after another. *)
Section rank.
Context {A : Type} (rank : A -> nat).

Definition by_rank (x y : A) : bool := (rank x <=? rank y)%nat.

Definition ranks (from n : nat) (l : list A) : list A :=
  mjoin ((fun k => filter (fun x => rank x = k) l) <$> seq from n).

Lemma ranks_none from n l : (forall x, x ∈ l -> rank x < from)%nat -> ranks from n l = [].
Proof.
  intros Hl. unfold ranks. revert from Hl. induction n as [|n IH]; intros from Hl; [done|]. cbn.
  rewrite list_filter_none by (intros x Hx ?; specialize (Hl x Hx); lia). apply IH.
  intros x Hx. specialize (Hl x Hx). lia.
Qed.

Lemma insert_sorted_skip x l k :
  (forall y, y ∈ l -> rank y < rank x)%nat ->
  insert_sorted by_rank x (l ++ k) = l ++ insert_sorted by_rank x k.
Proof.
  induction l as [|y l IH]; intros Hl; [done|]. cbn [app insert_sorted]. unfold by_rank at 1.
  rewrite (proj2 (Nat.leb_gt _ _)) by (apply Hl; by left). f_equal. apply IH. set_solver.
Qed.

Lemma insert_sorted_front x l :
  (forall y, y ∈ l -> rank x <= rank y)%nat -> insert_sorted by_rank x l = x :: l.
Proof.
  destruct l as [|y l]; intros Hl; [done|]. cbn [insert_sorted]. unfold by_rank.
  by rewrite (proj2 (Nat.leb_le _ _)) by (apply Hl; by left).
Qed.

Lemma elem_of_ranks from n l y : y ∈ ranks from n l -> y ∈ l /\ (from <= rank y < from + n)%nat.
Proof.
  unfold ranks. intros (k & Hy & Hk)%list_elem_of_join.
  apply list_elem_of_fmap in Hk as (r & -> & Hr%elem_of_seq).
  apply list_elem_of_filter in Hy as [<- Hy]. split; [done | lia].
Qed.

Lemma insert_ranks x from n l :
  (from <= rank x < from + n)%nat ->
  insert_sorted by_rank x (ranks from n l) = ranks from n (x :: l).
Proof.
  revert from. induction n as [|n IH]; intros from Hx; [lia|]. unfold ranks in *. cbn [seq fmap list_fmap mjoin list_join].
  change (list_fmap ?f ?g ?l) with (g <$> l). change (list_join ?l) with (mjoin l).
  destruct (decide (rank x = from)) as [Hr|Hr].
  - rewrite filter_cons_True by done. cbn [app]. rewrite insert_sorted_front.
    + do 2 f_equal. apply (f_equal mjoin). apply list_fmap_ext. intros i k Hk.
      apply lookup_seq in Hk as [-> _]. rewrite filter_cons_False by lia. done.
    + intros y [Hy|Hy]%elem_of_app; [apply list_elem_of_filter in Hy as [<- _]; lia|].
      apply (elem_of_ranks (S from) n l y) in Hy. lia.
  - rewrite filter_cons_False by done. rewrite insert_sorted_skip.
    + f_equal. apply IH. lia.
    + intros y [Hy _]%list_elem_of_filter. lia.
Qed.

Lemma stable_sort_ranks n l :
  (forall x, x ∈ l -> rank x < n)%nat -> stable_sort by_rank l = ranks 0 n l.
Proof.
  induction l as [|x l IH]; intros Hl.
  - unfold ranks. cbn. induction (seq 0 n); [done | by cbn].
  - cbn [stable_sort foldr]. fold (stable_sort by_rank l). rewrite IH by set_solver.
    apply insert_ranks. specialize (Hl x ltac:(by left)). lia.
Qed.
End rank.

(** *** Positions of names: where each is, or past the end *)

Fixpoint rank_of (names : list string) (name : string) : nat :=
  match names with
  | [] => 0
  | n :: names => if decide (n = name) then 0 else S (rank_of names name)
  end.

Lemma rank_of_lookup names name :
  (rank_of names name < length names)%nat -> names !! rank_of names name = Some name.
Proof.
  induction names as [|n names IH]; cbn [rank_of length]; [lia|].
  case_decide as Hn; [by subst|]. intros ?. apply IH. lia.
Qed.

Lemma rank_of_absent names name : rank_of names name = length names <-> name ∉ names.
Proof.
  induction names as [|n names IH]; cbn [rank_of length].
  - split; [intros _; apply not_elem_of_nil | done].
  - rewrite not_elem_of_cons. case_decide; [naive_solver lia|].
    rewrite <- Nat.succ_inj_wd in IH. naive_solver.
Qed.

Lemma rank_of_bound names name : (rank_of names name <= length names)%nat.
Proof. induction names as [|n names IH]; simpl; [lia|]. case_decide; lia. Qed.

Lemma rank_of_here pre x post : x ∉ pre -> rank_of (pre ++ x :: post) x = length pre.
Proof.
  induction pre as [|y pre IH]; simpl; [by case_decide|].
  rewrite not_elem_of_cons. intros [Hy Hx]. case_decide; [congruence | by rewrite IH].
Qed.

Lemma filter_unique {A} (P : A -> Prop) `{forall x, Decision (P x)} l x :
  NoDup l -> x ∈ l -> P x -> (forall y, P y -> y = x) -> filter P l = [x].
Proof.
  intros Hd Hx HP Hu. induction Hd as [|y l Hy Hd IH]; [by apply elem_of_nil in Hx|].
  destruct (decide (P y)) as [Hp|Hp].
  - apply Hu in Hp as ->. rewrite filter_cons_True by done. f_equal. apply list_filter_none.
    intros z Hz Hpz. apply Hu in Hpz as ->. done.
  - rewrite filter_cons_False by done. apply IH. apply elem_of_cons in Hx as [->|]; [done|done].
Qed.

(** Names ranked by a list that is among them come as that list, and then the rest in their order. *)
Lemma ranks_names required names :
  NoDup required -> NoDup names -> required ⊆ names ->
  ranks (rank_of required) 0 (S (length required)) names =
  required ++ filter (fun n => n ∉ required) names.
Proof.
  intros Hr Hn Hsub. unfold ranks. rewrite seq_S, fmap_app. cbn [Nat.add].
  assert (forall pre rest, required = pre ++ rest ->
    mjoin ((fun k => filter (fun x => rank_of required x = k) names) <$> seq (length pre) (length rest)) = rest) as Hj.
  { intros pre rest. revert pre. induction rest as [|x rest IH]; intros pre Heq; [done|].
    cbn [length seq]. rewrite fmap_cons. specialize (IH (pre ++ [x])).
    rewrite length_app, Nat.add_1_r, <- app_assoc in IH. specialize (IH Heq).
    assert (filter (fun y => rank_of required y = length pre) names = [x]) as Hf.
    { assert (x ∉ pre) as Hx.
      { rewrite Heq in Hr. apply NoDup_app in Hr as (_ & Hd & _). intros Hx. by apply (Hd x Hx); left. }
      apply filter_unique; [done | apply Hsub; rewrite Heq; set_solver | |].
      - rewrite Heq. by apply rank_of_here.
      - intros y Hy. assert (required !! rank_of required y = Some y) as Hl.
        { apply rank_of_lookup. rewrite Hy, Heq, length_app. simpl. lia. }
        rewrite Hy, Heq, list_lookup_middle in Hl by done. congruence. }
    change (filter (fun y => rank_of required y = length pre) names ++
      mjoin ((fun k => filter (fun y => rank_of required y = k) names) <$> seq (S (length pre)) (length rest)) = x :: rest).
    by rewrite Hf, IH. }
  change (seq 0 (length required)) with (seq (length (@nil string)) (length required)).
  rewrite join_app, (Hj [] required) by done. f_equal. cbn. rewrite app_nil_r.
  apply list_filter_iff. intros x. apply rank_of_absent.
Qed.
