(* ===== verification/Exceptions.v ===== *)
(** * Exceptions

    [runtime/core/source/exceptions.ts]: the codes the core raises with, what each of them means
    on a later attempt, and [permanent], which every consumer of a failure asks. *)
From S2P Require Import Prelude.

Open Scope Z_scope.

Inductive name :=
| System
| Contract | RequestSyntax | RequestContract | RequestConflict | ResponseContract
| EntityContract | EntityGuard | QuerySyntax
| State | StateNotFound | StatePrecondition | StateConcurrency | StateInitialization
| Duplicate | DuplicateCall | StateHistory
| Communication | Transmission | Endpoint | Addressee | Abandoned | Disposed | Safety
| Unreachable | Unserved
| Loop
| Misuse | Irresumable | Unstated | Unrecordable | Unrepeatable.

#[export] Instance name_eq_dec : EqDecision name.
Proof. solve_decision. Defined.

Definition codes (n : name) : Z :=
  match n with
  | System => 0
  | Contract => 200 | RequestSyntax => 201 | RequestContract => 202 | RequestConflict => 203
  | ResponseContract => 211 | EntityContract => 212 | EntityGuard => 213 | QuerySyntax => 221
  | State => 300 | StateNotFound => 302 | StatePrecondition => 303 | StateConcurrency => 304
  | StateInitialization => 305 | Duplicate => 306 | DuplicateCall => 307 | StateHistory => 308
  | Communication => 400 | Transmission => 401 | Endpoint => 402 | Addressee => 403
  | Abandoned => 404 | Disposed => 405 | Safety => 406 | Unreachable => 407 | Unserved => 408
  | Loop => 500
  | Misuse => 600 | Irresumable => 601 | Unstated => 602 | Unrecordable => 603
  | Unrepeatable => 604
  end.

(** the keys of [codes], as they are spelled and in their order *)
Definition entries : list (name * string) :=
  [(System, "System"); (Contract, "Contract"); (RequestSyntax, "RequestSyntax");
   (RequestContract, "RequestContract"); (RequestConflict, "RequestConflict");
   (ResponseContract, "ResponseContract"); (EntityContract, "EntityContract");
   (EntityGuard, "EntityGuard"); (QuerySyntax, "QuerySyntax"); (State, "State");
   (StateNotFound, "StateNotFound"); (StatePrecondition, "StatePrecondition");
   (StateConcurrency, "StateConcurrency"); (StateInitialization, "StateInitialization");
   (Duplicate, "Duplicate"); (DuplicateCall, "DuplicateCall"); (StateHistory, "StateHistory");
   (Communication, "Communication"); (Transmission, "Transmission"); (Endpoint, "Endpoint");
   (Addressee, "Addressee"); (Abandoned, "Abandoned"); (Disposed, "Disposed");
   (Safety, "Safety"); (Unreachable, "Unreachable"); (Unserved, "Unserved"); (Loop, "Loop");
   (Misuse, "Misuse"); (Irresumable, "Irresumable"); (Unstated, "Unstated");
   (Unrecordable, "Unrecordable"); (Unrepeatable, "Unrepeatable")].

Definition spelling (n : name) : string :=
  default "" (snd <$> list_find (fun e => fst e = n) entries ≫= fun e => Some (snd e, snd (snd e))).

(** [names = swap(codes)]: the name a code is reported under *)
Definition names (code : Z) : option string :=
  match list_find (fun e => codes (fst e) = code) entries with
  | Some (_, (_, s)) => Some s
  | None => None
  end.

(** ** What is thrown *)

(** An exception the core raised: [cause] is what it was raised over, and [trail] what a
    [LoopException] carries. *)
Record Exception := mkException {
  code : Z;
  message : string;
  cause : option value;
  trail : list string
}.

(** What a [catch] is handed: an [Exception], or an error of the language, which holds a code
    only where a driver gave it one. *)
Inductive thrown :=
| Raised (e : Exception)
| Error (message : string) (code : option Z).

Definition exception (c : Z) (m : string) : Exception := mkException c m None [].

Definition SystemException (m : string) : Exception := exception (codes System) m.

Definition LoopException (m : string) (trail : list string) : Exception :=
  mkException (codes Loop) m None trail.

Definition ContractException (n : name) (error : string) (cause : option value) : Exception :=
  mkException (codes n) error cause [].

Definition RequestContractException (m : string) : thrown :=
  Raised (ContractException RequestContract m None).

Definition ResponseContractException (m : string) : thrown :=
  Raised (ContractException ResponseContract m None).

Definition EntityContractException (m : string) : thrown :=
  Raised (ContractException EntityContract m None).

Definition EntityGuardException (m : string) : thrown :=
  Raised (ContractException EntityGuard m None).

(** the classes named after their codes: [new QuerySyntaxException(message)] *)
Definition derive (n : name) (m : option string) : thrown :=
  let classname := spelling n +:+ "Exception" in
  Raised (exception (codes n)
    match m with
    | None => classname
    | Some m => classname +:+ ": " +:+ m
    end).

(** [(error as { code?: number })?.code] *)
Definition code_of (t : thrown) : option Z :=
  match t with
  | Raised e => Some (code e)
  | Error _ c => c
  end.

(** ** Whether a failure means the same thing on a later attempt *)

Inductive outcome := permanently | transiently.

#[export] Instance outcome_eq_dec : EqDecision outcome.
Proof. solve_decision. Defined.

Definition OUTCOME (n : name) : outcome :=
  match n with
  | System => transiently
  | Contract | RequestSyntax | RequestContract | RequestConflict | ResponseContract
  | EntityContract | EntityGuard | QuerySyntax => permanently
  | State => permanently
  | StateNotFound => transiently
  | StatePrecondition => permanently
  | StateConcurrency => transiently
  | StateInitialization | Duplicate | DuplicateCall | StateHistory => permanently
  | Communication | Transmission => transiently
  | Endpoint => permanently
  | Addressee | Abandoned => transiently
  | Disposed | Safety => permanently
  | Unreachable | Unserved => transiently
  | Loop | Misuse | Irresumable | Unstated | Unrecordable | Unrepeatable => permanently
  end.

Definition PERMANENT : list Z :=
  codes <$> filter (fun n => OUTCOME n = permanently) (fst <$> entries).

(** by the [code] of what was caught, absent where it carries none *)
Definition permanent (code : option Z) : bool :=
  match code with
  | None => false
  | Some c => bool_decide (c ∈ PERMANENT)
  end.

(** ** Lemmas *)

Lemma entries_complete n : n ∈ fst <$> entries.
Proof.
  apply (bool_decide_eq_true_1 _). destruct n; vm_compute; reflexivity.
Qed.

Lemma codes_inj n m : codes n = codes m -> n = m.
Proof. destruct n, m; simpl; intros; try reflexivity; discriminate. Qed.

Lemma names_codes n : names (codes n) = Some (spelling n).
Proof. destruct n; reflexivity. Qed.

Lemma permanent_codes n :
  permanent (Some (codes n)) = bool_decide (OUTCOME n = permanently).
Proof. destruct n; vm_compute; reflexivity. Qed.

Lemma permanent_inv c :
  permanent c = true -> exists n, c = Some (codes n) /\ OUTCOME n = permanently.
Proof.
  destruct c as [c|]; [|done]. unfold permanent. rewrite bool_decide_eq_true.
  unfold PERMANENT. intros (n & -> & Hn)%list_elem_of_fmap.
  apply list_elem_of_filter in Hn as [Ho _]. eauto.
Qed.

Lemma permanent_Raised n m : code_of (derive n m) = Some (codes n).
Proof. done. Qed.

(** what the core did not raise is worth another attempt *)
Lemma permanent_unknown c : (forall n, codes n <> c) -> permanent (Some c) = false.
Proof.
  intros Hc. destruct (permanent (Some c)) eqn:Hp; [|done].
  apply permanent_inv in Hp as (n & [= ->] & _). by destruct (Hc n).
Qed.

Create HintDb toa.
#[export] Hint Resolve names_codes permanent_codes permanent_unknown : toa.
#[export] Hint Rewrite permanent_codes names_codes : toa.

(** ** Properties *)

(** A failure is permanent exactly where the code it carries is one of the core's and is declared
    so, whatever was caught; and a code is reported under the name it was raised by. *)
Theorem permanent_iff c :
  (permanent c = true <-> exists n, c = Some (codes n) /\ OUTCOME n = permanently) /\
  (forall n m, names (codes n) = names (codes m) -> n = m).
Proof.
  split.
  - split; [apply permanent_inv|]. intros (n & -> & Hn). rewrite permanent_codes.
    by apply bool_decide_eq_true.
  - intros n m. rewrite !names_codes. destruct n, m; vm_compute; intros; (reflexivity || discriminate).
Qed.
