(* ===== verification/Trail.v ===== *)
(** * Trail

    [runtime/core/source/trail.ts]: what an invocation came by. [extend] makes the chain a hop
    adds to, or refuses it; [ordinal] counts the calls an invocation makes to one endpoint, which
    is what tells two of them apart.

    A chain is reachable when every hop of it was let through by [extend], which is how
    [Component.invoke] makes one; the invariant of such a chain is what bounds it. *)
From S2P Require Import Prelude Exceptions.

Open Scope Z_scope.

(** ** State *)

(** what one invocation carries for the calls it makes *)
Record Invocation := mkInvocation {
  hops : list string;
  id : option string;
  readonly : bool;
  retried : bool;
  (** made where the first call is made, which an absent key of the map says as well *)
  calls : gmap string nat
}.

Record Limits := mkLimits {
  repeats : Z;
  depth : Z
}.

(** ** Operations *)

(** [Number(environment.get(variable))], [None] where that is [NaN] *)
Definition number (environment : string -> option Z) (variable : string) (fallback : Z) : Z :=
  match environment variable with
  | None => fallback
  | Some declared => if declared <? 0 then fallback else declared
  end.

Definition limits (environment : string -> option Z) : Limits :=
  mkLimits (number environment "TOA_TRAIL_REPEATS" 3) (number environment "TOA_TRAIL_DEPTH" 32).

(** the ordinal of the call about to be made, and the invocation having counted it *)
Definition ordinal (invocation : Invocation) (endpoint : string) : nat * Invocation :=
  let made := default 0%nat (calls invocation !! endpoint) in
  (made,
   {| hops := hops invocation;
      id := id invocation;
      readonly := readonly invocation;
      retried := retried invocation;
      calls := <[endpoint := S made]> (calls invocation) |}).

(** how an event is named in a chain *)
Definition event (destination : string) : string := "~" +:+ destination.

(** what came off the wire, as a chain and nothing else *)
Definition received (v : value) : list string :=
  match v with
  | VArray vs => omap (fun hop => match hop with VString s => Some s | _ => None end) vs
  | _ => []
  end.

Definition clip (hops : list string) (depth : Z) : list string :=
  if depth <? Z.of_nat (length hops) then take (Z.to_nat depth) hops else hops.

(** the chain this hop makes, or a raise where it is one hop too many *)
Definition extend (inbound : value) (hop : string) (limits : Limits) : result thrown (list string) :=
  let hops := clip (received inbound) (depth limits) in
  let trail := hops ++ [hop] in
  if repeats limits =? 0 then Ok trail
  else if depth limits <? Z.of_nat (length trail) then
    Throw (Raised (LoopException
      ("Call chain is " +:+ show (Z.of_nat (length trail)) +:+ " hops deep") trail))
  else
    let seen := Z.of_nat (count hop hops) in
    if repeats limits <=? seen + 1 then
      Throw (Raised (LoopException
        (quoted hop +:+ " is hop " +:+ show (seen + 1) +:+ " of this chain") trail))
    else Ok trail.

(** ** Chains a call tree makes *)

(** as a chain goes onto the wire, and comes off it *)
Definition wire (chain : list string) : value := VArray (VString <$> chain).

Inductive reachable (l : Limits) : list string -> Prop :=
| reachable_start : reachable l []
| reachable_hop chain hop chain' :
    reachable l chain ->
    extend (wire chain) hop l = Ok chain' ->
    reachable l chain'.

(** a path down the call tree, hop by hop, where every hop was let through *)
Fixpoint descend (l : Limits) (chain : list string) (path : list string) : result thrown (list string) :=
  match path with
  | [] => Ok chain
  | hop :: path => extend (wire chain) hop l ≫= fun chain => descend l chain path
  end.

Definition well_formed (l : Limits) : Prop := 0 <= repeats l /\ 0 <= depth l.

(** ** Lemmas *)

Lemma limits_well_formed env : well_formed (limits env).
Proof.
  unfold well_formed, limits, number; simpl.
  split; repeat case_match; try lia.
Qed.

Lemma received_wire chain : received (wire chain) = chain.
Proof.
  unfold wire, received. induction chain as [|h t IH]; [done|].
  cbn. f_equal. exact IH.
Qed.

Lemma clip_length hops d : 0 <= d -> Z.of_nat (length (clip hops d)) <= d.
Proof.
  intros ?. unfold clip. case_match; [|lia]. rewrite length_take. lia.
Qed.

Lemma clip_id hops d : Z.of_nat (length hops) <= d -> clip hops d = hops.
Proof. intros ?. unfold clip. case_match; [lia | done]. Qed.

Lemma clip_prefix hops d : exists k, clip hops d = take k hops.
Proof.
  unfold clip. case_match; [eauto|]. exists (length hops). symmetry. apply take_ge. lia.
Qed.

(** what [extend] answers, whatever arrived *)
Lemma extend_Ok inbound hop l t :
  extend inbound hop l = Ok t ->
  t = clip (received inbound) (depth l) ++ [hop] /\
  (repeats l <> 0 ->
   Z.of_nat (length t) <= depth l /\ Z.of_nat (count hop t) < repeats l).
Proof.
  unfold extend. destruct (Z.eqb_spec (repeats l) 0) as [Hr|Hr].
  { intros [= <-]. done. }
  case_match eqn:Hd; [done|]. case_match eqn:Hs; [done|]. intros [= <-].
  split; [done|]. intros _. rewrite count_app, count_single. lia.
Qed.

Lemma extend_Throw inbound hop l e :
  extend inbound hop l = Throw e ->
  code_of e = Some (codes Loop) /\ repeats l <> 0.
Proof.
  unfold extend. destruct (Z.eqb_spec (repeats l) 0) as [Hr|Hr]; [done|].
  repeat case_match; intros [= <-]; done.
Qed.

Lemma extend_total inbound hop l :
  0 < repeats l ->
  Z.of_nat (length (received inbound)) < depth l ->
  Z.of_nat (count hop (received inbound)) + 1 < repeats l ->
  extend inbound hop l = Ok (received inbound ++ [hop]).
Proof.
  intros Hr Hd Hs. unfold extend. rewrite clip_id by lia.
  rewrite length_app. simpl.
  destruct (Z.eqb_spec (repeats l) 0); [lia|].
  destruct (Z.ltb_spec (depth l) (Z.of_nat (length (received inbound) + 1))); [lia|].
  destruct (Z.leb_spec (repeats l) (Z.of_nat (count hop (received inbound)) + 1)); [lia|done].
Qed.

(** the invariant of a chain every hop of which was let through *)
Definition bounded (l : Limits) (chain : list string) : Prop :=
  Z.of_nat (length chain) <= depth l /\
  forall hop, Z.of_nat (count hop chain) <= repeats l - 1.

Lemma extend_bounded l chain hop chain' :
  0 < repeats l ->
  bounded l chain ->
  extend (wire chain) hop l = Ok chain' ->
  bounded l chain' /\ chain' = chain ++ [hop].
Proof.
  intros Hr [Hlen Hcount] Hx. apply extend_Ok in Hx as [-> Hb].
  rewrite received_wire, clip_id in * by done.
  split; [|done]. destruct Hb as [Hl Hc]; [lia|]. split; [done|].
  intros h. destruct (decide (h = hop)) as [->|Hne]; [lia|].
  rewrite count_app, count_other by done. specialize (Hcount h). lia.
Qed.

Lemma reachable_bounded l chain :
  well_formed l -> 0 < repeats l -> reachable l chain -> bounded l chain.
Proof.
  intros [_ Hd] Hr Hreach. induction Hreach as [|chain hop chain' _ IH Hx].
  - split; [simpl; lia|]. intros h. rewrite count_nil. lia.
  - by destruct (extend_bounded l chain hop chain' Hr IH Hx).
Qed.

Lemma descend_app l chain path chain' :
  0 < repeats l -> bounded l chain ->
  descend l chain path = Ok chain' -> chain' = chain ++ path /\ bounded l chain'.
Proof.
  intros Hr. revert chain. induction path as [|hop path IH]; intros chain Hb; simpl.
  - intros [= <-]. by rewrite app_nil_r.
  - intros (c & Hx & Hd)%bind_Ok.
    apply extend_bounded in Hx as [Hb' ->]; [|done..].
    apply IH in Hd as [-> ?]; [|done]. split; [by rewrite <- app_assoc | done].
Qed.

Lemma ordinal_fst inv e : fst (ordinal inv e) = default 0%nat (calls inv !! e).
Proof. done. Qed.

(** the ordinals of [n] calls to one endpoint, one after another *)
Fixpoint ordinals (inv : Invocation) (endpoint : string) (n : nat) : list nat * Invocation :=
  match n with
  | O => ([], inv)
  | S n =>
      let '(o, inv) := ordinal inv endpoint in
      let '(os, inv) := ordinals inv endpoint n in
      (o :: os, inv)
  end.

Lemma ordinals_seq inv e n :
  fst (ordinals inv e n) = seq (fst (ordinal inv e)) n.
Proof.
  revert inv. induction n as [|n IH]; intros inv; [done|].
  cbn [ordinals]. destruct (ordinal inv e) as [o inv'] eqn:Ho.
  destruct (ordinals inv' e n) as [os inv''] eqn:Hos.
  specialize (IH inv'). rewrite Hos in IH. cbn [fst] in *. rewrite IH.
  unfold ordinal in Ho. injection Ho as <- <-. simpl. by rewrite lookup_insert_eq.
Qed.

Lemma ordinal_other inv e e' :
  e <> e' -> fst (ordinal (snd (ordinal inv e)) e') = fst (ordinal inv e').
Proof. intros ?. simpl. by rewrite lookup_insert_ne. Qed.

#[export] Hint Resolve limits_well_formed reachable_bounded : toa.
#[export] Hint Rewrite received_wire : toa.

(** ** Properties *)

(** A call chain is bounded whatever the calls are: every chain the runtime lets through is
    at most [depth] hops long, and no hop is in it [repeats] times, for any limits the
    environment states other than the off switch. *)
Theorem reachable_chain_bounded env chain :
  repeats (limits env) <> 0 ->
  reachable (limits env) chain ->
  Z.of_nat (length chain) <= depth (limits env) /\
  forall hop, Z.of_nat (count hop chain) < repeats (limits env).
Proof.
  intros Hr Hc. destruct (limits_well_formed env) as [Hw Hd].
  apply reachable_bounded in Hc as [Hl Hcount]; [|done|lia].
  split; [done|]. intros hop. specialize (Hcount hop). lia.
Qed.

Definition no_environment : string -> option Z := fun _ => None.

Lemma reachable_chain_bounded_witness :
  let chain := ["a.b.c"; "a.b.d"; "a.b.c"] in
  (repeats (limits no_environment) <> 0 /\ reachable (limits no_environment) chain) /\
  Z.of_nat (length chain) <= depth (limits no_environment) /\
  forall hop, Z.of_nat (count hop chain) < repeats (limits no_environment).
Proof.
  assert (reachable (limits no_environment) ["a.b.c"; "a.b.d"; "a.b.c"]) as Hc.
  { apply (reachable_hop _ ["a.b.c"; "a.b.d"] "a.b.c"); [|reflexivity].
    apply (reachable_hop _ ["a.b.c"] "a.b.d"); [|reflexivity].
    apply (reachable_hop _ [] "a.b.c"); [|reflexivity]. constructor. }
  split; [split; [discriminate | exact Hc] |].
  apply (reachable_chain_bounded no_environment); [discriminate | exact Hc].
Defined.

(** What [extend] refuses it refuses for good, and never where the guard is off: the refusal is
    a [LoopException], which no consumer attempts again, and with [repeats] of zero every hop is
    let through, whatever came off the wire. *)
Theorem extend_refusal inbound hop l :
  (forall e, extend inbound hop l = Throw e -> permanent (code_of e) = true) /\
  (repeats l = 0 -> exists chain, extend inbound hop l = Ok (chain ++ [hop])).
Proof.
  split.
  - intros e He. apply extend_Throw in He as [-> _]. reflexivity.
  - intros Hr. unfold extend. rewrite Hr. simpl. by eexists.
Qed.

(** The calls an invocation makes to one endpoint are numbered from zero, one after another and
    whatever it calls between them, which is what tells two of them apart. *)
Theorem ordinals_count inv e e' n :
  calls inv !! e = None -> e <> e' ->
  fst (ordinals inv e n) = seq 0 n /\
  fst (ordinals (snd (ordinal inv e')) e n) = seq 0 n.
Proof.
  intros He Hne. rewrite !ordinals_seq. rewrite ordinal_other by done.
  rewrite ordinal_fst, He. done.
Qed.

Lemma ordinals_count_witness :
  fst (ordinals (mkInvocation [] None false false ∅) "a.b.c" 3) = [0; 1; 2]%nat.
Proof.
  apply (ordinals_count (mkInvocation [] None false false ∅) "a.b.c" "a.b.d" 3);
    [reflexivity | discriminate].
Defined.
