(* ===== verification/Identity.v ===== *)
(** * Identity

    [runtime/core/source/entities/newid.ts]: an id that is a function of what it is made of.
    [name] joins the parts, and [derive] is a name-based uuid over what it joined. *)
From S2P Require Import Prelude.

Open Scope Z_scope.

(** what an id is made of: [string | number] *)
Inductive part := Text (s : string) | Number (n : Z).

Definition to_string (p : part) : string :=
  match p with Text s => s | Number n => show n end.

(** each part behind its own length *)
Fixpoint name (parts : list part) : string :=
  match parts with
  | [] => ""
  | p :: parts =>
      let value := to_string p in
      (pretty (String.length value) +:+ ":" +:+ value) +:+ name parts
  end.

(** A character as the bytes it is hashed as: a string of the model holds the first 256 characters
    of the language's, and those past the first 128 take two bytes. *)
Definition utf8_char (c : ascii) : list Z :=
  let n := Z.of_nat (nat_of_ascii c) in
  if n <? 128 then [n] else [Z.lor 0xc0 (Z.shiftr n 6); Z.lor 0x80 (Z.land n 0x3f)].

Definition utf8 (s : string) : list Z := chars s ≫= utf8_char.

(** [26bd9bc6-675c-4465-9b42-9e008b20befe] *)
Definition NAMESPACE : list Z :=
  [0x26; 0xbd; 0x9b; 0xc6; 0x67; 0x5c; 0x44; 0x65;
   0x9b; 0x42; 0x9e; 0x00; 0x8b; 0x20; 0xbe; 0xfe].

Definition hex_digit (n : Z) : ascii :=
  default "0"%char
    (list_lookup (Z.to_nat n)
       (chars "0123456789abcdef")).

Definition hex_byte (b : Z) : list ascii :=
  [hex_digit (Z.shiftr b 4); hex_digit (Z.land b 15)].

(** [buffer.toString('hex', 0, end)] *)
Definition hex (bytes : list Z) (until : nat) : string :=
  of_chars (mbind hex_byte (take until bytes)).

(** [hash[i] = f(hash[i])] *)
Definition patch (i : nat) (f : Z -> Z) (hash : list Z) : list Z := alter f i hash.

Section derive.
(** [createHash('sha1')], of the platform *)
Context (sha1 : list Z -> list Z).

Definition derive (parts : list part) : string :=
  let hash := sha1 (NAMESPACE ++ utf8 (name parts)) in
  let hash := patch 6 (fun b => Z.lor (Z.land b 0x0f) 0x50) hash in
  let hash := patch 8 (fun b => Z.lor (Z.land b 0x3f) 0x80) hash in
  hex hash 16.
End derive.

(** ** Lemmas *)

Lemma name_cons_inj p q ps qs :
  name (p :: ps) = name (q :: qs) -> to_string p = to_string q /\ name ps = name qs.
Proof.
  cbn [name]. rewrite !string_app_assoc. intros Heq.
  apply (f_equal chars) in Heq. rewrite !chars_app in Heq.
  assert (pretty (String.length (to_string p)) = pretty (String.length (to_string q))) as Hl.
  { apply chars_inj.
    refine (proj1 (app_separator_inj separator _ _ _ _ _ _ Heq));
      apply pretty_nat_separator. }
  apply (inj pretty) in Hl.
  rewrite Hl in Heq. apply app_inv_head in Heq. simpl in Heq. injection Heq as Heq.
  rewrite <- !chars_app in Heq. apply chars_inj in Heq.
  by apply string_app_inj_length.
Qed.

Lemma name_ext ps qs : to_string <$> ps = to_string <$> qs -> name ps = name qs.
Proof.
  revert qs. induction ps as [|p ps IH]; intros [|q qs]; try done.
  rewrite !fmap_cons. intros [= Hp Hs]. cbn [name]. by rewrite Hp, (IH qs).
Qed.

(** *** The shape of what is derived *)

Lemma patch_length i f hash : length (patch i f hash) = length hash.
Proof. apply length_alter. Qed.

Lemma hex_digits bytes n :
  (n <= length bytes)%nat -> String.length (hex bytes n) = (2 * n)%nat.
Proof.
  intros Hn. unfold hex. rewrite <- length_chars, chars_of_chars.
  assert (length (mbind hex_byte (take n bytes)) = 2 * length (take n bytes))%nat as ->.
  { induction (take n bytes) as [|b bs IH]; [done|]. cbn [mbind list_bind]. rewrite length_app.
    cbn [mbind] in IH. rewrite IH. simpl. lia. }
  rewrite length_take. lia.
Qed.

(** the byte at [i] is what two digits of the text say *)
Lemma hex_lookup bytes n i b :
  (i < n)%nat -> bytes !! i = Some b ->
  chars (hex bytes n) !! (2 * i)%nat = Some (hex_digit (Z.shiftr b 4)).
Proof.
  intros Hi Hb. unfold hex. rewrite chars_of_chars.
  revert n i Hi Hb. induction bytes as [|c bs IH]; intros n i Hi Hb; [done|].
  destruct n as [|n]; [lia|]. destruct i as [|i].
  - by injection Hb as ->.
  - replace (2 * S i)%nat with (S (S (2 * i))) by lia. cbn. apply IH; [lia | done].
Qed.

(** the nibble that states the version, and the two bits that state the variant *)
Lemma version_nibble b : Z.shiftr (Z.lor (Z.land b 0x0f) 0x50) 4 = 5.
Proof.
  rewrite Z.shiftr_lor, Z.shiftr_land. change (Z.shiftr 0x0f 4) with 0. by rewrite Z.land_0_r.
Qed.

Lemma variant_nibble b : exists v, 0 <= v <= 3 /\ Z.shiftr (Z.lor (Z.land b 0x3f) 0x80) 4 = 8 + v.
Proof.
  rewrite Z.shiftr_lor, Z.shiftr_land.
  change (Z.shiftr 0x3f 4) with (Z.ones 2). change (Z.shiftr 0x80 4) with 8.
  rewrite Z.land_ones by lia. set (v := Z.shiftr b 4 mod 2 ^ 2).
  assert (0 <= v < 4) as Hv by (apply Z.mod_pos_bound; lia).
  exists v. split; [lia|]. clearbody v.
  assert (v = 0 \/ v = 1 \/ v = 2 \/ v = 3) as [-> | [-> | [-> | ->]]] by lia; reflexivity.
Qed.

(** ** Properties *)

(** C22: Two lists of parts are joined to one text only where they are the same parts, read as
    strings: no part can run into the next, whatever separators it holds. *)
Theorem name_injective ps qs :
  name ps = name qs <-> to_string <$> ps = to_string <$> qs.
Proof.
  split.
  - revert qs. induction ps as [|p ps IH]; intros [|q qs]; [done| | |].
    + cbn [name]. intros Heq. apply (f_equal chars) in Heq. rewrite !chars_app in Heq.
      symmetry in Heq. apply app_nil in Heq as [Heq _]. apply app_nil in Heq as [_ Heq]. done.
    + cbn [name]. intros Heq. apply (f_equal chars) in Heq. rewrite !chars_app in Heq.
      apply app_nil in Heq as [Heq _]. apply app_nil in Heq as [_ Heq]. done.
    + intros [Hp Hs]%name_cons_inj. rewrite !fmap_cons, Hp. by rewrite (IH qs).
  - apply name_ext.
Qed.

(** What is derived is a uuid of version 5, less its dashes: 32 hexadecimal digits, of which the
    13th says the version and the 17th the variant, and it is a function of the parts alone. *)
Theorem derive_shape sha1 parts :
  (forall bytes, length (sha1 bytes) = 20%nat) ->
  String.length (derive sha1 parts) = 32%nat /\
  chars (derive sha1 parts) !! 12%nat = Some "5"%char /\
  (exists c, chars (derive sha1 parts) !! 16%nat = Some c /\ c ∈ ["8"; "9"; "a"; "b"]%char) /\
  (forall parts', to_string <$> parts = to_string <$> parts' ->
    derive sha1 parts' = derive sha1 parts).
Proof.
  intros Hlen. unfold derive. set (hash := sha1 _).
  assert (length hash = 20%nat) as Hh by apply Hlen.
  destruct (lookup_lt_is_Some_2 hash 6) as [b6 H6]; [lia|].
  destruct (lookup_lt_is_Some_2 hash 8) as [b8 H8]; [lia|].
  split; [|split; [|split]].
  - rewrite hex_digits; [done|]. rewrite !patch_length. lia.
  - rewrite (hex_lookup _ 16 6 (Z.lor (Z.land b6 0x0f) 0x50)); [by rewrite version_nibble|lia|].
    unfold patch. rewrite list_lookup_alter_ne by done. rewrite list_lookup_alter_eq, H6. done.
  - destruct (variant_nibble b8) as (v & Hv & Hs). exists (hex_digit (8 + v)). split.
    + rewrite (hex_lookup _ 16 8 (Z.lor (Z.land b8 0x3f) 0x80)); [by rewrite Hs|lia|].
      unfold patch. rewrite list_lookup_alter_eq, list_lookup_alter_ne, H8 by done. done.
    + assert (v = 0 \/ v = 1 \/ v = 2 \/ v = 3) as [-> | [-> | [-> | ->]]] by lia;
        apply (bool_decide_unpack _); vm_compute; exact I.
  - intros parts' Heq. unfold hash. by rewrite (name_ext parts' parts).
Qed.

Definition no_hash : list Z -> list Z := fun _ => replicate 20 255.

Lemma derive_shape_witness :
  String.length (derive no_hash [Text "a"; Number 1]) = 32%nat.
Proof. apply (derive_shape no_hash [Text "a"; Number 1]). intros bytes. apply length_replicate. Defined.
