(* ===== verification/Entities.v ===== *)
(** * Entities

    [runtime/core/source/entities/]: the record an operation works on and what a commit makes of
    it. [Module Entity] is [entity.ts], [Module EntitySet] is [set.ts], [Module Changeset] is
    [changeset.ts] and [Module Factory] is [factory.ts].

    A record's system properties are fields of their own and everything else it holds is a map.
    A record is handed to an algorithm by reference and handed back: the model passes what it was
    and what the algorithm left of it, since the entity reads nothing of it in between. The origin
    of an entity is never that object, because [#acquire] copies the record it keeps. *)
From S2P Require Import Prelude Exceptions.

Open Scope Z_scope.

(** ** Data *)

(** What a storage stores. [None] is a property that is absent; of [DELETED] it is [null] as
    well, since nothing here tells the two apart. *)
Record record := mkRecord {
  id : string;
  VERSION : option Z;
  CREATED : option Z;
  UPDATED : option Z;
  DELETED : option Z;
  REGION : option Z;
  TRAILERS : option value;
  DISCARD : option bool;
  properties : gmap string value
}.

(** What is spread over a record, or sets some properties of one: every property may be absent. *)
Record patch := mkPatch {
  p_id : option string;
  p_VERSION : option Z;
  p_CREATED : option Z;
  p_UPDATED : option Z;
  p_DELETED : option (option Z);
  p_REGION : option Z;
  p_properties : gmap string value
}.

(** [Object.assign(record, values)], and [{ ...record, ...values }] *)
Definition assign (r : record) (p : patch) : record :=
  {| id := default (id r) (p_id p);
     VERSION := option_union_with (fun _ v => Some v) (VERSION r) (p_VERSION p);
     CREATED := option_union_with (fun _ v => Some v) (CREATED r) (p_CREATED p);
     UPDATED := option_union_with (fun _ v => Some v) (UPDATED r) (p_UPDATED p);
     DELETED := default (DELETED r) (p_DELETED p);
     REGION := option_union_with (fun _ v => Some v) (REGION r) (p_REGION p);
     TRAILERS := TRAILERS r;
     DISCARD := DISCARD r;
     properties := p_properties p ∪ properties r |}.

(** [structuredClone(record)]: own enumerable properties, which the two the runtime defines on a
    record are not *)
Definition clone (r : record) : record :=
  {| id := id r; VERSION := VERSION r; CREATED := CREATED r; UPDATED := UPDATED r;
     DELETED := DELETED r; REGION := REGION r; TRAILERS := None; DISCARD := None;
     properties := properties r |}.

(** the images of one state change *)
Record Event := mkEvent {
  e_origin : option record;
  e_state : option record;
  e_trailers : option value;
  e_input : value
}.

(** a guard, by its name *)
Record Guard := mkGuard {
  g_name : string;
  g_fit : record -> option record -> bool
}.

(** The validator of a schema: what is wrong with the value, or the value as validation left it,
    since it coerces the types of what it validates. *)
Abbreviation Schema A := (A -> result string A).

Module Entity.

Record t := mk {
  deleted : bool;
  origin : option record;
  state : option record;
  mutable : bool
}.

(** what a record is made of *)
Inductive argument :=
| Acquired (r : record)
| Named (id : string).

Section Entity.
Context (schema : Schema record).
Context (blank : gmap string value).
Context (guards : option (list Guard)).
(** the rank of the region this deployment is *)
Context (region : Z).

Definition compose (id : string) : record :=
  {| id := id; VERSION := Some 0; CREATED := None; UPDATED := None; DELETED := None;
     REGION := Some region; TRAILERS := None; DISCARD := None; properties := blank |}.

(** what a record may have been answered without, filled in *)
Definition fill (now : Z) (v : record) : record :=
  let created := default now (CREATED v) in
  {| id := id v;
     VERSION := Some (default 0 (VERSION v));
     CREATED := Some created;
     UPDATED := Some (default created (UPDATED v));
     DELETED := DELETED v;
     REGION := Some (default region (REGION v));
     TRAILERS := Some (default (VObject []) (TRAILERS v));
     DISCARD := Some (default false (DISCARD v));
     properties := properties v |}.

(** what a write changes besides what it writes *)
Definition stamp (now : Z) (v : record) : record :=
  {| id := id v;
     VERSION := (fun n => n + 1) <$> VERSION v;
     CREATED := CREATED v;
     UPDATED := Some now;
     DELETED := DELETED v;
     REGION := Some region;
     TRAILERS := TRAILERS v;
     DISCARD := DISCARD v;
     properties := properties v |}.

Definition write (now : Z) (e : t) (v : record) : t :=
  let v := fill now v in
  {| deleted := bool_decide (is_Some (DELETED v)) || deleted e;
     origin := origin e;
     state := Some (match state e with None => v | Some _ => stamp now v end);
     mutable := mutable e |}.

Definition empty : t := mk false None None true.

Definition acquire (now : Z) (r : record) (mutable : bool) : t :=
  if mutable then
    let e := write now (mk false None None true) (clone r) in
    {| deleted := deleted e; origin := Some r; state := state e; mutable := true |}
  else write now (mk false None None false) r.

(** the constructor; an identity it was not given is minted *)
Definition make (now : Z) (newid : string) (arg : option argument) (mutable : bool) : t :=
  match arg with
  | Some (Acquired r) => acquire now r mutable
  | Some (Named id) => write now empty (compose id)
  | None => write now empty (compose newid)
  end.

(** [#state], which is there from construction on *)
Definition get (e : t) : record := default (compose "") (state e).

Fixpoint guard_all (gs : list Guard) (v : record) (o : option record) : result thrown unit :=
  match gs with
  | [] => Ok tt
  | g :: gs =>
      if g_fit g v o then guard_all gs v o
      else Throw (EntityGuardException (g_name g))
  end.

Definition guard (e : t) (v : record) : result thrown unit :=
  match guards with
  | None => Ok tt
  | Some gs => guard_all gs v (origin e)
  end.

(** whether the value is committed over the tombstone the entity was read as, untouched *)
Definition revives (e : t) (v : record) : bool :=
  match origin e ≫= DELETED with
  | None => false
  | Some at_ => bool_decide (DELETED v = Some at_)
  end.

Definition revive (e : t) (v : record) : t * record :=
  if revives e v then
    ({| deleted := false; origin := origin e; state := state e; mutable := mutable e |},
     {| id := id v; VERSION := VERSION v; CREATED := CREATED v; UPDATED := UPDATED v;
        DELETED := None; REGION := REGION v; TRAILERS := TRAILERS v; DISCARD := DISCARD v;
        properties := properties v |})
  else (e, v).

Definition set (now : Z) (e : t) (v : record) : result thrown t :=
  if negb (mutable e) then
    Throw (Error "Entity acquired by a read-only operation cannot be modified" None)
  else
    guard e v ≫= fun _ =>
    match schema v with
    | Throw error => Throw (EntityContractException error)
    | Ok v =>
        let '(e, v) := revive e v in
        Ok (write now e v)
    end.

Definition event (e : t) (input : value) : Event :=
  {| e_origin := origin e;
     e_state := state e;
     e_trailers := TRAILERS (get e);
     e_input := input |}.

(** *** Lemmas *)

(** what every record an entity holds has of the runtime's properties *)
Definition complete (r : record) : Prop :=
  is_Some (VERSION r) /\ is_Some (CREATED r) /\ is_Some (UPDATED r) /\ is_Some (REGION r) /\
  is_Some (TRAILERS r) /\ is_Some (DISCARD r).

Definition invariant (e : t) : Prop :=
  exists r, state e = Some r /\ complete r /\ (is_Some (DELETED r) -> deleted e = true).

Lemma fill_complete now v : complete (fill now v).
Proof. unfold complete, fill; simpl; repeat split; eauto. Qed.

Lemma fill_id now v : complete v -> fill now v = v.
Proof.
  destruct v as [i V C U D R T X p]. intros ([? HV] & [? HC] & [? HU] & [? HR] & [? HT] & [? HX]).
  simpl in *. subst. reflexivity.
Qed.

Lemma stamp_complete now v : complete v -> complete (stamp now v).
Proof.
  destruct v. intros ([? HV] & [? HC] & [? HU] & [? HR] & [? HT] & [? HX]); simpl in *; subst.
  repeat split; simpl; eauto.
Qed.

Lemma write_invariant now e v : invariant (write now e v).
Proof.
  unfold invariant, write; simpl. destruct (state e) as [r|].
  - exists (stamp now (fill now v)). split; [done|]. split.
    + apply stamp_complete, fill_complete.
    + simpl. intros ?. by rewrite bool_decide_eq_true_2.
  - exists (fill now v). split; [done|]. split; [apply fill_complete|].
    simpl. intros ?. by rewrite bool_decide_eq_true_2.
Qed.

Lemma make_invariant now newid arg m : invariant (make now newid arg m).
Proof.
  unfold make, acquire. destruct arg as [[r|i]|]; [|apply write_invariant..].
  destruct m; [|apply write_invariant].
  destruct (write_invariant now (mk false None None true) (clone r)) as (r' & ? & ? & ?).
  exists r'. done.
Qed.

Lemma set_invariant now e v e' : set now e v = Ok e' -> invariant e'.
Proof.
  unfold set. destruct (negb (mutable e)); [done|]. intros (u & _ & Hs)%bind_Ok.
  destruct (schema v) as [w|]; [|done]. destruct (revive e w) as [e1 w1].
  injection Hs as <-. apply write_invariant.
Qed.

Lemma guard_all_Ok gs v o u :
  guard_all gs v o = Ok u <-> Forall (fun g => g_fit g v o = true) gs.
Proof.
  destruct u. induction gs as [|g gs IH]; simpl; [by split; constructor|].
  rewrite Forall_cons. destruct (g_fit g v o); [rewrite IH; naive_solver | naive_solver].
Qed.

(** what [set] answers where it answers *)
Lemma set_Ok now e v e' :
  set now e v = Ok e' ->
  mutable e = true /\
  exists w, schema v = Ok w /\
    e' = write now (fst (revive e w)) (snd (revive e w)).
Proof.
  unfold set. destruct (mutable e); [|done]. intros (u & Hg & Hs)%bind_Ok.
  destruct (schema v) as [w|]; [|done]. split; [done|]. exists w. split; [done|].
  destruct (revive e w). by injection Hs as <-.
Qed.

Lemma revive_state e w : state (fst (revive e w)) = state e.
Proof. unfold revive. by destruct (revives e w). Qed.

Lemma revive_origin e w : origin (fst (revive e w)) = origin e.
Proof. unfold revive. by destruct (revives e w). Qed.

Lemma revive_fields e w :
  let v := snd (revive e w) in
  id v = id w /\ VERSION v = VERSION w /\ CREATED v = CREATED w /\ REGION v = REGION w /\
  properties v = properties w /\
  DELETED v = (if revives e w then None else DELETED w).
Proof. unfold revive. destruct (revives e w); repeat split. Qed.

(** a write over an entity that holds a state *)
Lemma write_held now e v r :
  state e = Some r -> state (write now e v) = Some (stamp now (fill now v)).
Proof. intros He. unfold write; simpl. by rewrite He. Qed.

Lemma set_state now e v e' :
  invariant e -> set now e v = Ok e' ->
  exists w r', schema v = Ok w /\ state e' = Some r' /\
    VERSION r' = Some (default 0 (VERSION w) + 1) /\
    UPDATED r' = Some now /\
    REGION r' = Some region /\
    CREATED r' = Some (default now (CREATED w)) /\
    id r' = id w /\ properties r' = properties w /\
    DELETED r' = (if revives e w then None else DELETED w) /\
    origin e' = origin e.
Proof.
  intros (r & Hr & _) Hset. apply set_Ok in Hset as (_ & w & Hw & ->).
  exists w, (stamp now (fill now (snd (revive e w)))).
  destruct (revive_fields e w) as (Hi & HV & HC & HR & Hp & HD).
  split; [done|]. split.
  { apply (write_held _ _ _ r). by rewrite revive_state. }
  cbn. rewrite HV, HC, Hi, Hp, HD. repeat split; try done. apply revive_origin.
Qed.
End Entity.
End Entity.

Module EntitySet.
Section EntitySet.
Context (schema : Schema record).
Context (guards : option (list Guard)).
Context (blank : gmap string value).
Context (region : Z).

Definition get (set : list Entity.t) : list record := Entity.get blank region <$> set.

(** each entity with its value, as one pass over the set *)
Fixpoint set_each (now : Z) (set : list Entity.t) (values : list record)
    : result thrown (list Entity.t) :=
  match set, values with
  | e :: set, v :: values =>
      if decide (DISCARD v = Some true) then set_each now set values
      else
        Entity.set schema guards region now e v ≫= fun e =>
        set_each now set values ≫= fun rest => Ok (e :: rest)
  | _, _ => Ok []
  end.

Definition set (now : Z) (set : list Entity.t) (values : list record)
    : result thrown (list Entity.t) :=
  if negb (length values =? length set)%nat then
    Throw (Raised (SystemException "Objects array must not be modified"))
  else set_each now set values.

Definition events (set : list Entity.t) (input : value) : list Event :=
  (fun e => Entity.event blank region e input) <$> set.
End EntitySet.
End EntitySet.

Module Changeset.

Record t (Query : Type) := mk {
  query : Query;
  state : patch
}.
Arguments mk {Query} _ _.
Arguments query {Query} _.
Arguments state {Query} _.

Definition no_changes : patch := mkPatch None None None None None None ∅.

Section Changeset.
Context {Query : Type}.
Context (schema : Schema patch).

Definition make (q : Query) : t Query := mk q no_changes.

Definition get (c : t Query) : patch := state c.

Definition set (now : Z) (c : t Query) (value : patch) : result thrown (t Query) :=
  match schema value with
  | Throw error => Throw (EntityContractException error)
  | Ok v =>
      Ok (mk (query c)
        {| p_id := p_id v; p_VERSION := None; p_CREATED := p_CREATED v;
           p_UPDATED := Some now; p_DELETED := p_DELETED v; p_REGION := p_REGION v;
           p_properties := p_properties v |})
  end.

Definition export (c : t Query) : patch := state c.
End Changeset.
End Changeset.

Module Factory.

(** the two schemas a component's records are held to, and what a new one starts as *)
Record t := mk {
  entity : Schema record;
  changeset : Schema patch;
  blank : gmap string value;
  guards : option (list Guard);
  region : Z
}.

Section Factory.
Context (f : t).

Definition init (now : Z) (newid : string) (id : option string) : Entity.t :=
  Entity.make (blank f) (region f) now newid (Entity.Named <$> id) true.

(** [schema.validate], which raises an error of the language *)
Definition fit (now : Z) (newid : string) (values : patch) : result thrown unit :=
  let r := Entity.get (blank f) (region f) (init now newid None) in
  match entity f (assign (clone r) values) with
  | Throw error => Throw (Error ("Entity: " +:+ error) None)
  | Ok _ => Ok tt
  end.

Definition object (now : Z) (r : record) (mutable : bool) : Entity.t :=
  Entity.make (blank f) (region f) now "" (Some (Entity.Acquired r)) mutable.

(** each identity is put in front of what is there *)
Definition objects (now : Z) (recordset : list record) (ids : option (list string))
    (mutable : bool) : list Entity.t :=
  let set := (fun r => object now r mutable) <$> recordset in
  foldl (fun set i => init now "" (Some i) :: set) set (default [] ids).

Definition changes {Query} (q : Query) : Changeset.t Query := Changeset.make q.
End Factory.
End Factory.

(** ** Lemmas on sets *)

Lemma objects_app f now rs ids m :
  Factory.objects f now rs (Some ids) m =
    reverse ((fun i => Factory.init f now "" (Some i)) <$> ids) ++
    ((fun r => Factory.object f now r m) <$> rs).
Proof.
  unfold Factory.objects; simpl.
  generalize ((fun r => Factory.object f now r m) <$> rs). intros set. revert set.
  induction ids as [|i ids IH]; intros set; [done|].
  rewrite fmap_cons, reverse_cons, <- app_assoc. cbn [foldl]. by rewrite IH.
Qed.

Lemma set_each_Ok schema guards region now set values set' :
  length values = length set ->
  EntitySet.set_each schema guards region now set values = Ok set' ->
  Forall2 (fun ev e' => Entity.set schema guards region now (fst ev) (snd ev) = Ok e')
    (filter (fun ev => DISCARD (snd ev) <> Some true) (zip set values)) set'.
Proof.
  revert values set'. induction set as [|e set IH]; intros [|v values] set'; try done; simpl.
  { intros _ [= <-]. constructor. }
  intros [= Hlen] Hs. case_decide as Hd.
  - rewrite filter_cons_False by (simpl; tauto). by apply IH.
  - apply bind_Ok in Hs as (e' & He & Hs). apply bind_Ok in Hs as (rest & Hr & [= <-]).
    rewrite filter_cons_True by done. constructor; [done | by apply IH].
Qed.

(** ** Properties *)

(** A state an algorithm set is one version on and no other property of the runtime's is its own
    to choose: it is stamped with the moment and the region of the write, keeps when it was
    created, and holds what validation left of the value; the origin it is compared with stays. *)
Theorem set_versions schema guards blank region now made newid arg v e' :
  let e := Entity.make blank region made newid arg true in
  Entity.set schema guards region now e v = Ok e' ->
  exists w r, schema v = Ok w /\ Entity.state e' = Some r /\
    VERSION r = Some (default 0 (VERSION w) + 1) /\ UPDATED r = Some now /\
    REGION r = Some region /\ CREATED r = Some (default now (CREATED w)) /\
    id r = id w /\ properties r = properties w /\ Entity.origin e' = Entity.origin e.
Proof.
  intros e Hs. apply Entity.set_state in Hs as (w & r & H).
  - exists w, r. naive_solver.
  - apply Entity.make_invariant.
Qed.

(** A value is set exactly where the entity was acquired to be modified, every guard holds for it
    against the origin and its schema accepts it; what refuses it is the first of these. *)
Theorem set_refuses schema gs region now e v :
  Entity.set schema (Some gs) region now e v =
    if Entity.mutable e then
      match list_find (fun g => g_fit g v (Entity.origin e) = false) gs with
      | Some (_, g) => Throw (EntityGuardException (g_name g))
      | None =>
          match schema v with
          | Throw error => Throw (EntityContractException error)
          | Ok w => Ok (Entity.write region now (fst (Entity.revive e w)) (snd (Entity.revive e w)))
          end
      end
    else Throw (Error "Entity acquired by a read-only operation cannot be modified" None).
Proof.
  unfold Entity.set. destruct (Entity.mutable e); [|done]. cbn [negb].
  assert (Entity.guard (Some gs) e v =
    match list_find (fun g => g_fit g v (Entity.origin e) = false) gs with
    | Some (_, g) => Throw (EntityGuardException (g_name g))
    | None => Ok tt
    end) as ->.
  { simpl. induction gs as [|g gs IH]; [done|]. cbn [Entity.guard_all list_find].
    destruct (g_fit g v (Entity.origin e)) eqn:Hg; [|by rewrite decide_True].
    rewrite decide_False by done. rewrite IH. by destruct (list_find _ gs) as [[i g']|]. }
  destruct (list_find _ gs) as [[i g]|]; [done|]. simpl.
  destruct (schema v) as [w|]; [|done]. by destruct (Entity.revive e w).
Qed.

(** Committing over a tombstone revives it, where the tombstone was left as it was read; a value
    that holds a deletion of its own deletes. *)
Theorem set_revives schema guards region now e v w e' at_ :
  Entity.origin e ≫= DELETED = Some at_ -> schema v = Ok w ->
  Entity.set schema guards region now e v = Ok e' ->
  (DELETED w = Some at_ -> Entity.deleted e' = false /\
    exists r, Entity.state e' = Some r /\ DELETED r = None) /\
  (forall other, DELETED w = Some other -> other <> at_ -> Entity.deleted e' = true /\
    exists r, Entity.state e' = Some r /\ DELETED r = Some other).
Proof.
  intros Ho Hw Hs. apply Entity.set_Ok in Hs as (_ & w' & Hw' & ->).
  rewrite Hw in Hw'. injection Hw' as <-.
  unfold Entity.revive, Entity.revives. rewrite Ho. split.
  - intros Hd. rewrite Hd, bool_decide_eq_true_2 by done. split; [done|].
    unfold Entity.write; simpl. eexists. split; [done|]. by destruct (Entity.state e).
  - intros other Hd Hne. rewrite bool_decide_eq_false_2 by congruence. simpl. rewrite Hd. split; [done|].
    unfold Entity.write; simpl. eexists. split; [done|]. destruct (Entity.state e); exact Hd.
Qed.

(** a record as it was stored deleted *)
Definition tombstone : record :=
  mkRecord "1" (Some 3) (Some 10) (Some 20) (Some 20) (Some 2) None None ∅.

Definition accepts {A} : Schema A := fun v => Ok v.

Lemma set_versions_witness :
  let e := Entity.make ∅ 1 30 "" (Some (Entity.Acquired tombstone)) true in
  is_ok (Entity.set accepts None 1 40 e tombstone) = true /\
  forall e', Entity.set accepts None 1 40 e tombstone = Ok e' ->
    exists r, Entity.state e' = Some r /\ VERSION r = Some 4 /\ REGION r = Some 1.
Proof.
  split; [reflexivity|]. intros e' He.
  destruct (set_versions accepts None ∅ 1 40 30 "" (Some (Entity.Acquired tombstone)) tombstone e' He)
    as (w & r & Hw & Hr & Hv & _ & Hreg & _).
  exists r. injection Hw as <-. auto.
Defined.

Lemma set_revives_witness :
  let e := Entity.make ∅ 1 30 "" (Some (Entity.Acquired tombstone)) true in
  let e' := Entity.write 1 40 (fst (Entity.revive e tombstone)) (snd (Entity.revive e tombstone)) in
  Entity.deleted e = true /\ Entity.deleted e' = false.
Proof.
  split; [reflexivity|].
  refine (proj1 (proj1 (set_revives accepts None 1 40
    (Entity.make ∅ 1 30 "" (Some (Entity.Acquired tombstone)) true) tombstone tombstone _ 20
    eq_refl eq_refl eq_refl) eq_refl)).
Defined.
