(* ===== verification/World.v ===== *)
(** * World

    What an operation runs against: the state of its storage, the clock, the identities it mints,
    the numbers it draws, and the rows it has handed to the outbox. [M] is a computation over it
    that may throw, and [Storage] is the interface of [runtime/core/source/types/storages.ts] with
    [types/inbox.ts] and [types/outbox.ts]: what core requires of a storage, and the laws their
    comments state. *)
From S2P Require Import Prelude Exceptions Entities.

Open Scope Z_scope.

(** ** Data *)

(** what an operation is looked up by, as [Query.parse] writes it *)
Inductive Node :=
| Logic (operator : string) (left right : Node)
| Comparison (operator : string) (selector : string) (v : value).

Record Options := mkOptions {
  omit : option Z;
  limit : option Z;
  sort : option (list (string * string));
  projection : option (list string);
  sample : option Z;
  deleted : option bool;
  token : option string;
  stop : option bool
}.

Record Query := mkQuery {
  q_id : option string;
  q_ids : option (list string);
  q_version : option Z;
  q_criteria : option Node;
  q_search : option string;
  q_options : option Options
}.

(** the intent to publish, committed with the state change it belongs to *)
Record Row := mkRow {
  row_id : string;
  lane : Z;
  published : bool;
  pending : Z;
  outstanding : list string;
  row_trail : option (list string);
  time : option Z;
  event : Event
}.

(** what travels of an error an algorithm returned *)
Record refusal := mkRefusal {
  r_code : string;
  r_cause : option value
}.

(** What an operation answers with: a value, or a stream of what it yields, which is of bytes
    where it is not in object mode. *)
Inductive chunk :=
| Plain (v : value)
(** an entry, a removal or a token, marked by the storage that made it *)
| Entry (fields : list (string * value))
| Removed (id : string)
| Token (token : option string).

Inductive output :=
| Value (v : value)
| Stream (objectMode : bool) (chunks : list chunk).

Record Reply := mkReply {
  r_output : option output;
  r_error : option refusal
}.

(** what a call was, kept so that the same call arriving again is refused *)
Record Call := mkCall {
  call_id : string;
  call_reply : Reply;
  retention : option Z
}.

(** ** Computations *)

(** what the platform answers, reading by reading: identities, the clock, and draws *)
Record platform := mkPlatform {
  ids : nat -> string;
  readings : nat -> Z;
  draws : nat -> Z
}.

Record world (DB : Type) := mkWorld {
  db : DB;
  minted : nat;
  read : nat;
  drawn : nat;
  handed : list Row
}.
Arguments mkWorld {DB} _ _ _ _ _.
Arguments db {DB} _.
Arguments minted {DB} _.
Arguments read {DB} _.
Arguments drawn {DB} _.
Arguments handed {DB} _.

Definition M (DB A : Type) : Type := world DB -> world DB * result thrown A.

#[export] Instance M_ret {DB} : MRet (M DB) := fun A a w => (w, Ok a).

#[export] Instance M_bind {DB} : MBind (M DB) := fun A B f m w =>
  match m w with
  | (w, Ok a) => f a w
  | (w, Throw e) => (w, Throw e)
  end.

Definition throw {DB A} (e : thrown) : M DB A := fun w => (w, Throw e).

Definition lift {DB A} (r : result thrown A) : M DB A := fun w => (w, r).

Definition catch {DB A} (m : M DB A) (handler : thrown -> M DB A) : M DB A := fun w =>
  match m w with
  | (w, Ok a) => (w, Ok a)
  | (w, Throw e) => handler e w
  end.

(** a computation of the storage alone *)
Definition stored {DB A} (op : DB -> DB * result thrown A) : M DB A := fun w =>
  let '(d, r) := op (db w) in
  (mkWorld d (minted w) (read w) (drawn w) (handed w), r).

Section platform.
Context {DB : Type} (p : platform).

Definition newid : M DB string := fun w =>
  (mkWorld (db w) (S (minted w)) (read w) (drawn w) (handed w), Ok (ids p (minted w))).

Definition now : M DB Z := fun w =>
  (mkWorld (db w) (minted w) (S (read w)) (drawn w) (handed w), Ok (readings p (read w))).

(** [Math.floor(Math.random() * n)] *)
Definition random (n : Z) : M DB Z := fun w =>
  (mkWorld (db w) (minted w) (read w) (S (drawn w)) (handed w), Ok (draws p (drawn w) mod n)).
End platform.

Definition hand {DB} (row : Row) : M DB unit := fun w =>
  (mkWorld (db w) (minted w) (read w) (drawn w) (handed w ++ [row]), Ok tt).

(** ** The storage interface *)

Class Storage (DB : Type) := {
  s_get : Query -> DB -> DB * result thrown (option record);
  s_find : Query -> DB -> DB * result thrown (list record);
  (** a transition's commit; [false] is a lost compare-and-swap *)
  s_store : record -> option Row -> option Call -> DB -> DB * result thrown bool;
  s_massStore : list record -> option (list Row) -> DB -> DB * result thrown bool;
  (** an assignment: the post-image, and the row with what the storage filled in of it *)
  s_upsert : Query -> patch -> option Row -> option Call ->
    DB -> DB * result thrown (option (record * option Row));
  s_ensure : option Query -> patch -> record -> option Row -> option Call ->
    DB -> DB * result thrown record;
  s_stream : Query -> DB -> DB * result thrown (list chunk);
  (** what the call under an identity answered; absent where the storage holds no inbox *)
  s_recall : option (string -> DB -> DB * result thrown (option Reply))
}.

(** What the comments of [types/storages.ts] promise of a storage that keeps an inbox. [recorded]
    is what it holds under an identity. *)
Class LawfulInbox (DB : Type) `{Storage DB} := {
  recorded : DB -> string -> option Reply;
  recall_is : exists f, s_recall = Some f /\ forall i d, f i d = (d, Ok (recorded d i));
  (** a swap that was lost, and a write that raised, wrote nothing *)
  store_lost : forall r row call d d', s_store r row call d = (d', Ok false) -> d' = d;
  store_threw : forall r row call d d' e, s_store r row call d = (d', Throw e) -> d' = d;
  (** a write that was made recorded its call, and no other *)
  store_made : forall r row call d d', s_store r row (Some call) d = (d', Ok true) ->
    recorded d (call_id call) = None /\
    recorded d' (call_id call) = Some (call_reply call) /\
    forall i, i <> call_id call -> recorded d' i = recorded d i;
  (** an identity already recorded raises [DuplicateCall] instead *)
  store_duplicate : forall r row call d reply, recorded d (call_id call) = Some reply ->
    exists e, s_store r row (Some call) d = (d, Throw e) /\
      code_of e = Some (codes DuplicateCall)
}.

(** What reads a storage writes nothing of it. *)
Class LawfulReads (DB : Type) `{Storage DB} := {
  get_reads : forall q d, fst (s_get q d) = d;
  find_reads : forall q d, fst (s_find q d) = d;
  stream_reads : forall q d, fst (s_stream q d) = d;
  recall_reads : forall f i d, s_recall = Some f -> fst (f i d) = d
}.

(** ** Lemmas *)

Lemma bind_M {DB A B} (m : M DB A) (f : A -> M DB B) w :
  (m ≫= f) w =
    match m w with (w, Ok a) => f a w | (w, Throw e) => (w, Throw e) end.
Proof. done. Qed.

Lemma bind_M_Ok {DB A B} (m : M DB A) (f : A -> M DB B) w w' b :
  (m ≫= f) w = (w', Ok b) ->
  exists w1 a, m w = (w1, Ok a) /\ f a w1 = (w', Ok b).
Proof. rewrite bind_M. destruct (m w) as [w1 [a|e]]; [eauto | done]. Qed.

Lemma bind_M_assoc {DB A B C} (m : M DB A) (f : A -> M DB B) (g : B -> M DB C) w :
  ((m ≫= f) ≫= g) w = (m ≫= (fun a => f a ≫= g)) w.
Proof. rewrite !bind_M. by destruct (m w) as [w1 [a|e]]. Qed.

Lemma stored_db {DB A} (op : DB -> DB * result thrown A) w d r :
  op (db w) = (d, r) ->
  stored op w = (mkWorld d (minted w) (read w) (drawn w) (handed w), r).
Proof. intros Hop. unfold stored. by rewrite Hop. Qed.

(** a computation that leaves the storage as it was, and hands nothing over *)
Definition quiet {DB A} (m : M DB A) : Prop :=
  forall w, db (fst (m w)) = db w /\ handed (fst (m w)) = handed w.

Lemma quiet_bind {DB A B} (m : M DB A) (f : A -> M DB B) :
  quiet m -> (forall a, quiet (f a)) -> quiet (m ≫= f).
Proof.
  intros Hm Hf w. rewrite bind_M. specialize (Hm w). destruct (m w) as [w1 [a|e]]; [|done].
  destruct (Hf a w1) as [-> ->]. done.
Qed.

Lemma quiet_ret {DB A} (a : A) : quiet (DB:=DB) (mret a).
Proof. done. Qed.

Lemma quiet_newid {DB} p : quiet (newid (DB:=DB) p).
Proof. done. Qed.

Lemma quiet_now {DB} p : quiet (now (DB:=DB) p).
Proof. done. Qed.

Lemma quiet_random {DB} p n : quiet (random (DB:=DB) p n).
Proof. done. Qed.

Lemma quiet_throw {DB A} e : quiet (DB:=DB) (A:=A) (throw e).
Proof. done. Qed.

Lemma quiet_stored {DB A} (op : DB -> DB * result thrown A) :
  (forall d, fst (op d) = d) -> quiet (stored op).
Proof.
  intros Hop w. unfold stored. specialize (Hop (db w)). destruct (op (db w)); simpl in *. by subst.
Qed.

Lemma quiet_lift {DB A} (r : result thrown A) : quiet (DB:=DB) (lift r).
Proof. done. Qed.

#[export] Hint Resolve quiet_ret quiet_newid quiet_now quiet_random quiet_throw quiet_lift : toa.

(** a computation that is one step after another, each of them quiet *)
Ltac quiet :=
  repeat first
    [ solve [eauto with toa typeclass_instances]
    | apply quiet_bind; [|intros]
    | match goal with |- quiet (match ?x with _ => _ end) => destruct x end
    | match goal with |- quiet (if ?x then _ else _) => destruct x end ].

(** runs the steps of a computation that are known, and reads what their equations say *)
Ltac run_steps := cbv [mret M_ret hand throw lift] in *; simplify_eq/=.
