(* ===== verification/Queries.v ===== *)
(** * Queries

    [runtime/core/source/query.ts] and [runtime/core/source/query/]: what a request asks a storage
    for. [property] finds what an entity declares for a name a query uses; [read] makes a literal
    of a criteria what that property holds; [options] does the same for [sort] and [projection];
    [parse] puts the query together, keeping the criteria it has parsed before. *)
From S2P Require Import Prelude Exceptions Entities World.

Open Scope Z_scope.

(** ** What a component declares *)

Inductive Property : Type := mkProperty {
  type : option string;
  members : option (list (string * Property));
  items : option Property
}.

Abbreviation Properties := (list (string * Property)).

(** what an array is read as: what it holds *)
Fixpoint held (property : Property) : Property :=
  match property with
  | mkProperty t _ (Some items) =>
      if decide (t = Some "array") then held items else property
  | _ => property
  end.

(** the walk along a path: [declared] is what the next name is looked up in *)
Fixpoint walk (declared : option Properties) (found : option Property) (path : list string)
    : option Property :=
  match path with
  | [] => found
  | name :: path =>
      match declared with
      | None => None
      | Some declared =>
          match own declared name with
          | None => None
          | Some p =>
              let p := held p in
              walk (if decide (type p = Some "object") then members p else None) (Some p) path
          end
      end
  end.

Definition dot : ascii := "."%char.

Definition property (properties : Properties) (path : string) : option Property :=
  match own properties path with
  | Some p => Some (held p)
  | None =>
      if decide (dot ∈ chars path) then walk (Some properties) None (split dot path)
      else None
  end.

(** ** Numbers as text

    [Number(text)] of the language: an optional sign, digits, a fraction and an exponent, or a
    hexadecimal, octal or binary integer. The value is [mantissa * 10 ^ exponent], exactly, where
    the language rounds it to a double; [None] is [NaN] or an infinity, which [Number.isFinite]
    refuses alike. *)

Definition digit (c : ascii) : option Z :=
  let n := Z.of_nat (nat_of_ascii c) - 48 in
  if bool_decide (0 <= n <= 9) then Some n else None.

(** the digits a numeral begins with, folded into what was read: the value, how many, the rest *)
Fixpoint digits (acc : Z) (n : nat) (cs : list ascii) : Z * nat * list ascii :=
  match cs with
  | [] => (acc, n, [])
  | c :: rest =>
      match digit c with
      | Some d => digits (10 * acc + d) (S n) rest
      | None => (acc, n, cs)
      end
  end.

Definition sign (cs : list ascii) : Z * list ascii :=
  match cs with
  | "-"%char :: cs => (-1, cs)
  | "+"%char :: cs => (1, cs)
  | _ => (1, cs)
  end.

Definition exponent (cs : list ascii) : option (Z * list ascii) :=
  match cs with
  | c :: cs =>
      if bool_decide (c = "e"%char \/ c = "E"%char) then
        let '(s, cs) := sign cs in
        let '(v, n, cs) := digits 0 0 cs in
        match n with O => None | _ => Some (s * v, cs) end
      else Some (0, c :: cs)
  | [] => Some (0, [])
  end.

Definition white (c : ascii) : bool := bool_decide (nat_of_ascii c ∈ [9; 10; 11; 12; 13; 32]%nat).

Fixpoint trim_start (cs : list ascii) : list ascii :=
  match cs with
  | c :: rest => if white c then trim_start rest else cs
  | [] => []
  end.

Definition trim (cs : list ascii) : list ascii := reverse (trim_start (reverse (trim_start cs))).

(** a digit of a radix past ten *)
Definition hexadecimal (c : ascii) : option Z :=
  let n := Z.of_nat (nat_of_ascii c) in
  if bool_decide (97 <= n <= 102) then Some (n - 87)
  else if bool_decide (65 <= n <= 70) then Some (n - 55)
  else digit c.

Fixpoint in_radix (radix acc : Z) (cs : list ascii) : option Z :=
  match cs with
  | [] => Some acc
  | c :: cs =>
      match hexadecimal c with
      | Some d => if d <? radix then in_radix radix (radix * acc + d) cs else None
      | None => None
      end
  end.

(** the radix a prefix states, and the digits after it *)
Definition prefixed (cs : list ascii) : option (Z * list ascii) :=
  match cs with
  | "0"%char :: c :: (_ :: _) as rest =>
      let digits := tail (tail cs) in
      if bool_decide (c = "x"%char \/ c = "X"%char) then Some (16, digits)
      else if bool_decide (c = "o"%char \/ c = "O"%char) then Some (8, digits)
      else if bool_decide (c = "b"%char \/ c = "B"%char) then Some (2, digits)
      else None
  | _ => None
  end.

Definition decimal (cs : list ascii) : option (Z * Z) :=
  let '(s, cs) := sign cs in
  let '(whole, n, cs) := digits 0 0 cs in
  let '(mantissa, m, cs) :=
    match cs with
    | "."%char :: cs => digits whole 0 cs
    | _ => (whole, 0%nat, cs)
    end in
  if bool_decide ((n + m)%nat = 0%nat) then None
  else
    match exponent cs with
    | Some (e, []) => Some (s * mantissa, e - Z.of_nat m)
    | _ => None
    end.

Definition number (text : string) : option (Z * Z) :=
  let cs := trim (chars text) in
  match prefixed cs with
  | Some (radix, digits) => (fun n => (n, 0)) <$> in_radix radix 0 digits
  | None => decimal cs
  end.

(** a number as a value: an integer where it is one *)
Definition numeral (n : Z * Z) : value :=
  let '(m, e) := n in
  if 0 <=? e then VNumber (m * 10 ^ e)
  else if m mod 10 ^ (- e) =? 0 then VNumber (m / 10 ^ (- e))
  else VDecimal m e.

(** ** Criteria *)

Record Literal := mkLiteral {
  text : string;
  is_quoted : bool;
  selector : string;
  operator : string
}.

Definition QuerySyntaxException (m : string) : thrown := derive QuerySyntax (Some m).

Definition EQUALITY : list string := ["=="; "!="; "=in="; "=out="].

Definition refuse {A} (selector expected value : string) : result thrown A :=
  Throw (QuerySyntaxException
    ("Criteria selector " +:+ quoted selector +:+ " takes " +:+ expected +:+ ", and " +:+
     quoted value +:+ " is not one")).

Definition finite (value selector expected : string) : result thrown Prelude.value :=
  match (if decide (trim (chars value) = []) then None else number value) with
  | None => refuse selector expected value
  | Some n => Ok (numeral n)
  end.

(** what cannot be read as the property's type is refused rather than passed on *)
Definition CAST (type : string) : option (string -> string -> result thrown value) :=
  match type with
  | "number" => Some (fun value selector => finite value selector "a number")
  | "integer" => Some (fun value selector =>
      n ← finite value selector "an integer";
      match n with
      | VNumber _ => Ok n
      | _ => refuse selector "an integer" value
      end)
  | "boolean" => Some (fun value selector =>
      if decide (value = "true") then Ok (VBool true)
      else if decide (value = "false") then Ok (VBool false)
      else refuse selector "a boolean" value)
  | _ => None
  end%string.

(** what a value of a criteria is, as the property it is compared with holds it *)
Definition read (l : Literal) (properties : option Properties) : result thrown value :=
  let found : option Property := properties ≫= fun ps => property ps (selector l) in
  match properties, found with
  | Some _, None =>
      Throw (QuerySyntaxException
        ("Criteria selector " +:+ quoted (selector l) +:+ " is not defined"))
  | _, _ =>
      if negb (is_quoted l) && bool_decide (text l ∈ ["null"; "undefined"]) then
        if bool_decide (operator l ∈ EQUALITY) then Ok VNull
        else Throw (QuerySyntaxException
          ("Criteria selector " +:+ quoted (selector l) +:+ " compares no value with " +:+
           quoted (operator l)))
      else
        match (found ≫= type) ≫= CAST with
        | None => Ok (VString (text l))
        | Some cast => cast (text l) (selector l)
        end
  end.

(** What the expression parser of [@toa.io/rsql] answers: the tree, or what it raised. It is
    handed what reads a literal. *)
Inductive parsed :=
| Tree (n : Node)
| SyntaxError (message : string)
| Failed (e : thrown).

(** what is kept of the criteria parsed so far, by their expression *)
Abbreviation asts := (gmap string Node).

Section parser.
Context (rsql : string -> (Literal -> result thrown value) -> parsed).

Definition criteria (expression : string) (properties : option Properties) : result thrown Node :=
  match rsql expression (fun literal => read literal properties) with
  | Tree n => Ok n
  | SyntaxError m => Throw (QuerySyntaxException m)
  | Failed e => Throw e
  end.

(** ** Options *)

(** the query of a request, which is what the caller sent *)
Record Requested := mkRequested {
  id : option string;
  ids : option (list string);
  version : option Z;
  expression : option string;
  search : option string;
  asked_omit : option Z;
  asked_limit : option Z;
  asked_sort : option (list string);
  asked_projection : option (list string);
  asked_sample : option Z;
  asked_deleted : option bool;
  asked_token : option string;
  asked_stop : option bool
}.

Definition colon : ascii := ":"%char.

(** [const [property, direction] = sorting.split(':')] *)
Definition sorting (s : string) : string * option string :=
  match split colon s with
  | property :: direction :: _ => (property, Some direction)
  | [property] => (property, None)
  | [] => ("", None)
  end.

Fixpoint sort (given : list string) (properties : Properties)
    : result thrown (list (string * string)) :=
  match given with
  | [] => Ok []
  | s :: given =>
      let '(name, direction) := sorting s in
      match property properties name with
      | None => Throw (QuerySyntaxException ("Sort property " +:+ quoted name +:+ " is not defined"))
      | Some _ =>
          rest ← sort given properties;
          Ok ((name, default "asc" direction) :: rest)
      end
  end.

Definition SYSTEM : list string := ["VERSION"; "CREATED"; "UPDATED"; "DELETED"; "REGION"].

Fixpoint declared_all (declared : list string) (properties : Properties) : result thrown unit :=
  match declared with
  | [] => Ok tt
  | name :: declared =>
      match property properties name with
      | None =>
          Throw (QuerySyntaxException ("Projection property " +:+ quoted name +:+ " is not defined"))
      | Some _ => declared_all declared properties
      end
  end.

Definition include (projection : list string) (name : string) : list string :=
  if decide (name ∈ projection) then projection else projection ++ [name].

Definition projection (declared : list string) (properties : Properties)
    : result thrown (list string) :=
  _ ← declared_all declared properties;
  Ok (foldl include declared SYSTEM).

(** [options(given)] over what the query carries besides its selectors *)
Definition options (q : Requested) (properties : Properties) : result thrown Options :=
  sorted ← (match asked_sort q with
            | None => Ok None
            | Some s => s ← sort s properties; Ok (Some s)
            end);
  projected ← (match asked_projection q with
               | None => Ok None
               | Some p => p ← projection p properties; Ok (Some p)
               end);
  Ok (mkOptions (asked_omit q) (asked_limit q) sorted projected (asked_sample q)
        (asked_deleted q) (asked_token q) (asked_stop q)).

(** whether anything is left of the query once its selectors are taken out of it *)
Definition no_options (q : Requested) : bool :=
  match asked_omit q, asked_limit q, asked_sort q, asked_projection q, asked_sample q,
        asked_deleted q, asked_token q, asked_stop q with
  | None, None, None, None, None, None, None, None => true
  | _, _, _, _, _, _, _, _ => false
  end.

(** ** The translator *)

Definition LIMIT : nat := 1024.

Definition parse_criteria (properties : Properties) (known : asts) (expression : string)
    : asts * result thrown Node :=
  match known !! expression with
  | Some ast => (known, Ok ast)
  | None =>
      match criteria expression (Some properties) with
      | Throw e => (known, Throw e)
      | Ok ast =>
          let known := if decide (LIMIT <= size known)%nat then ∅ else known in
          (<[expression := ast]> known, Ok ast)
      end
  end.

Definition parse_options (properties : Properties) (q : Requested) : result thrown (option Options) :=
  if no_options q then Ok None
  else o ← options q properties; Ok (Some o).

Definition parse (properties : Properties) (known : asts) (q : Requested)
    : asts * result thrown Query :=
  match parse_options properties q with
  | Throw e => (known, Throw e)
  | Ok opts =>
      let '(known, ast) :=
        match expression q with
        | None => (known, Ok None)
        | Some e =>
            let '(known, r) := parse_criteria properties known e in
            (known, n ← r; Ok (Some n))
        end in
      (known,
       n ← ast;
       Ok (mkQuery (id q) (ids q) (version q) n (search q) opts))
  end.

(** what a translator that keeps nothing answers *)
Definition parse_fresh (properties : Properties) (q : Requested) : result thrown Query :=
  opts ← parse_options properties q;
  n ← (match expression q with
       | None => Ok None
       | Some e => n ← criteria e (Some properties); Ok (Some n)
       end);
  Ok (mkQuery (id q) (ids q) (version q) n (search q) opts).

(** ** Lemmas *)

(** what is kept is what parsing would answer, and there is only so much of it *)
Definition coherent (properties : Properties) (known : asts) : Prop :=
  (forall e ast, known !! e = Some ast -> criteria e (Some properties) = Ok ast) /\
  (size known <= LIMIT)%nat.

Lemma coherent_empty properties : coherent properties ∅.
Proof. split; [by intros e ast Hf | rewrite map_size_empty; lia]. Qed.

Lemma parse_criteria_spec properties known e :
  coherent properties known ->
  snd (parse_criteria properties known e) = criteria e (Some properties) /\
  coherent properties (fst (parse_criteria properties known e)).
Proof.
  intros [Hk Hs]. unfold parse_criteria.
  destruct (known !! e) as [ast|] eqn:He; simpl.
  { split; [symmetry; by apply Hk | done]. }
  destruct (criteria e (Some properties)) as [ast|ex] eqn:Hc; simpl; [|done].
  split; [done|]. case_decide as Hd.
  - split.
    + intros e' ast' [[-> ->] | [_ Hf]]%lookup_insert_Some; [done|]. by rewrite lookup_empty in Hf.
    + rewrite map_size_insert_None by apply lookup_empty. rewrite map_size_empty. unfold LIMIT. lia.
  - split.
    + intros e' ast' [[-> ->] | [_ Hf]]%lookup_insert_Some; [done | by apply Hk].
    + rewrite map_size_insert_None by done. lia.
Qed.

Lemma parse_spec properties known q :
  coherent properties known ->
  snd (parse properties known q) = parse_fresh properties q /\
  coherent properties (fst (parse properties known q)).
Proof.
  intros Hk. unfold parse, parse_fresh.
  destruct (parse_options properties q) as [opts|e]; simpl; [|done].
  destruct (expression q) as [e|]; simpl; [|done].
  pose proof (parse_criteria_spec properties known e Hk) as [Hs Hc].
  destruct (parse_criteria properties known e) as [known' r]. simpl in *. subst r.
  split; [by destruct (criteria e (Some properties)) | done].
Qed.

End parser.

Lemma held_not_array p : type (held p) = Some "array" -> items (held p) = None.
Proof.
  revert p. fix IH 1. intros [t m [q|]]; simpl; [|done].
  case_decide as Ht; [apply IH | simpl; congruence].
Qed.

Lemma include_elem projection name : name ∈ include projection name.
Proof. unfold include. case_decide; set_solver. Qed.

Lemma include_mono projection name n : n ∈ projection -> n ∈ include projection name.
Proof. unfold include. case_decide; set_solver. Qed.

Lemma include_prefix projection name : projection `prefix_of` include projection name.
Proof. unfold include. case_decide; [done | by eexists]. Qed.

Lemma foldl_include_spec projection names :
  projection `prefix_of` foldl include projection names /\
  Forall (fun n => n ∈ foldl include projection names) names /\
  (NoDup projection -> NoDup (foldl include projection names)) /\
  (forall n, n ∈ foldl include projection names -> n ∈ projection \/ n ∈ names).
Proof.
  revert projection. induction names as [|name names IH]; intros ps; simpl.
  { split; [done|]. split; [constructor|]. split; [done|]. by left. }
  destruct (IH (include ps name)) as (Hp & Hf & Hn & Hin).
  split; [|split; [|split]].
  - etrans; [apply include_prefix | done].
  - constructor; [|done]. eapply elem_of_prefix; [apply include_elem | done].
  - intros Hnd. apply Hn. unfold include. case_decide as Hd; [done|].
    apply NoDup_app. split; [done|]. split; [set_solver | apply NoDup_singleton].
  - intros n Hx. destruct (Hin n Hx) as [Hi|Hi]; [|set_solver].
    unfold include in Hi. case_decide; set_solver.
Qed.

Lemma declared_all_Ok declared properties u :
  declared_all declared properties = Ok u ->
  Forall (fun name => is_Some (property properties name)) declared.
Proof.
  induction declared as [|name declared IH]; simpl; [constructor|].
  destruct (property properties name) as [p|] eqn:Hp; [|done].
  intros ?. constructor; [by rewrite Hp | by apply IH].
Qed.

Lemma projection_Ok declared properties ps :
  projection declared properties = Ok ps ->
  Forall (fun name => is_Some (property properties name)) declared /\
  ps = foldl include declared SYSTEM.
Proof.
  unfold projection. intros (u & Hd & [= <-])%bind_Ok. split; [by eapply declared_all_Ok | done].
Qed.

Lemma sort_Ok given properties pairs :
  sort given properties = Ok pairs ->
  Forall2 (fun s pair =>
    fst pair = fst (sorting s) /\ snd pair = default "asc" (snd (sorting s)) /\
    is_Some (property properties (fst pair))) given pairs.
Proof.
  revert pairs. induction given as [|s given IH]; intros pairs; simpl.
  { intros [= <-]. constructor. }
  destruct (sorting s) as [name direction] eqn:Hs.
  destruct (property properties name) as [p|] eqn:Hp; [|done].
  intros (rest & Hr & [= <-])%bind_Ok. constructor; [|by apply IH].
  simpl. rewrite Hs. simpl. split; [done|]. split; [done | by rewrite Hp].
Qed.

(** ** Properties *)

Section properties.
Context (rsql : string -> (Literal -> result thrown value) -> parsed).

(** the queries of one translator, one after another *)
Fixpoint parse_all (properties : Properties) (known : asts) (qs : list Requested)
    : asts * list (result thrown Query) :=
  match qs with
  | [] => (known, [])
  | q :: qs =>
      let '(known, r) := parse rsql properties known q in
      let '(known, rs) := parse_all properties known qs in
      (known, r :: rs)
  end.

Lemma parse_all_spec properties known qs :
  coherent rsql properties known ->
  snd (parse_all properties known qs) = parse_fresh rsql properties <$> qs /\
  coherent rsql properties (fst (parse_all properties known qs)).
Proof.
  revert known. induction qs as [|q qs IH]; intros known Hk; [done|].
  cbn [parse_all]. pose proof (parse_spec rsql properties known q Hk) as [Hs Hc].
  destruct (parse rsql properties known q) as [known' r]. cbn [fst snd] in *.
  destruct (IH known' Hc) as [Hs' Hc']. destruct (parse_all properties known' qs) as [known'' rs].
  cbn [fst snd] in *. rewrite fmap_cons. by subst.
Qed.

(** What a translator keeps of the criteria it has parsed is never seen: whatever queries it is
    given, in whatever order, each is answered as by one that keeps nothing, a refusal included,
    and it never keeps more than its limit. *)
Theorem parse_is_fresh properties qs :
  snd (parse_all properties ∅ qs) = parse_fresh rsql properties <$> qs /\
  (size (fst (parse_all properties ∅ qs)) <= LIMIT)%nat.
Proof.
  destruct (parse_all_spec properties ∅ qs (coherent_empty rsql properties)) as [Hs [_ Hl]]. done.
Qed.
End properties.

(** A projection names declared properties alone, and reads the system ones whatever it names:
    what is asked for comes first and in its order, each of the rest once. *)
Theorem projection_reads declared properties ps :
  projection declared properties = Ok ps ->
  Forall (fun name => is_Some (property properties name)) declared /\
  declared `prefix_of` ps /\ Forall (fun name => name ∈ ps) SYSTEM /\
  (forall name, name ∈ ps -> name ∈ declared \/ name ∈ SYSTEM) /\
  (NoDup declared -> NoDup ps).
Proof.
  intros (Hd & ->)%projection_Ok. split; [done|].
  destruct (foldl_include_spec declared SYSTEM) as (Hp & Hf & Hn & Hin). done.
Qed.

Definition titled : Properties := [("title", mkProperty (Some "string") None None)].

Lemma projection_reads_witness :
  projection ["title"] titled =
    Ok ["title"; "VERSION"; "CREATED"; "UPDATED"; "DELETED"; "REGION"] /\
  Forall (fun name => name ∈ ["title"; "VERSION"; "CREATED"; "UPDATED"; "DELETED"; "REGION"]) SYSTEM.
Proof.
  split; [reflexivity|].
  by apply (projection_reads ["title"] titled
    ["title"; "VERSION"; "CREATED"; "UPDATED"; "DELETED"; "REGION"]).
Defined.
