(* ===== verification/Scope.v ===== *)
(** * Scope

    [runtime/core/source/state.ts]: what an operation acquires and commits, over any storage and
    any outbox. A row is built before the write, so that the storage commits it with the record,
    and is handed over once the write has answered. *)
From S2P Require Import Prelude Exceptions Entities World.

Open Scope Z_scope.

(** what an operation acquires of its scope *)
Inductive Scoped :=
| Object (e : Entity.t)
| Set_ (set : list Entity.t)
| Changes (c : Changeset.t Query)
| Streamed (chunks : list chunk)
| Nothing.

(** the outbox, as [State] uses one *)
Class Outbox (DB : Type) := {
  o_row : Event -> M DB Row;
  o_publish : Row -> M DB unit
}.

(** What [State] relies on of an outbox whose storage is durable: a row is of the event it was
    made for, is made without a write, and is handed over at once. *)
Class LawfulOutbox {DB : Type} (o : Outbox DB) := {
  row_quiet : forall e, quiet (o_row e);
  row_event : forall e w w' row, o_row e w = (w', Ok row) -> event row = e;
  publish_hands : forall row w, o_publish row w = hand row w
}.

Section State.
Context {DB : Type} `{Storage DB}.
Context (p : platform).
Context (entities : Factory.t).
Context (outbox : option (Outbox DB)).
(** whether an entity exists by virtue of the identity it is looked up by *)
Context (associated : bool).

Definition init (id : option string) : M DB Entity.t :=
  at_ ← now p;
  fresh ← (match id with None => newid p | Some _ => mret "" end);
  mret (Factory.init entities at_ fresh id).

Definition fit (values : patch) : M DB unit :=
  at_ ← now p;
  fresh ← newid p;
  lift (Factory.fit entities at_ fresh values).

(** scope [entry] *)
Definition entry (query : Query) (mutable : bool) : M DB (option Entity.t) :=
  found ← stored (s_get query);
  match found with
  | Some r => at_ ← now p; mret (Some (Factory.object entities at_ r mutable))
  | None =>
      match associated, q_id query, q_criteria query, q_version query with
      | true, Some i, None, None => e ← init (Some i); mret (Some e)
      | _, _, _, Some _ => throw (derive StatePrecondition None)
      | _, _, _, None => mret None
      end
  end.

(** which of the identities asked for came back without a record *)
Definition missing (query : Query) (recordset : list record) : option (list string) :=
  match associated, q_ids query with
  | true, Some ids =>
      if (length recordset <? length ids)%nat then
        Some (filter (fun i => i ∉ (Entities.id <$> recordset)) ids)
      else None
  | _, _ => None
  end.

(** scope [entries] *)
Definition entries (query : Query) (mutable : bool) : M DB (list Entity.t) :=
  recordset ← stored (s_find query);
  at_ ← now p;
  mret (Factory.objects entities at_ recordset (missing query recordset) mutable).

(** scope [stream] *)
Definition stream (query : Query) : M DB (list chunk) := stored (s_stream query).

(** scope [changeset] *)
Definition changeset (query : Query) : Changeset.t Query := Factory.changes query.

(** what the call under this identity answered, or nothing where it was never made *)
Definition recall (id : string) : M DB (option Reply) :=
  match s_recall with
  | None => mret None
  | Some f => stored (f id)
  end.

Definition build (e : Event) : M DB (option Row) :=
  match outbox with
  | None => mret None
  | Some o => row ← o_row e; mret (Some row)
  end.

(** [#publish] *)
Definition publish (row : option Row) : M DB unit :=
  match row, outbox with
  | Some row, Some o => o_publish row
  | _, _ => mret tt
  end.

Definition image (e : Entity.t) : record :=
  Entity.get (Factory.blank entities) (Factory.region entities) e.

Definition images (e : Entity.t) (input : value) : Event :=
  Entity.event (Factory.blank entities) (Factory.region entities) e input.

(** get-or-create, in one indivisible step *)
Definition ensure (query : option Query) (properties : patch) (input : value)
    (call : option Call) : M DB Entity.t :=
  object ← init None;
  at_ ← now p;
  let blank := assign (image object) properties in
  object ← lift (Entity.set (Factory.entity entities) (Factory.guards entities)
                   (Factory.region entities) at_ object blank);
  row ← build (images object input);
  r ← stored (s_ensure query properties (image object) row call);
  if decide (Entities.id r = Entities.id (image object)) then
    _ ← publish row;
    mret object
  else
    at_ ← now p;
    mret (Factory.object entities at_ r false).

Definition commit_one (e : Entity.t) (input : value) (call : option Call) : M DB bool :=
  row ← build (images e input);
  ok ← stored (s_store (image e) row call);
  if (ok : bool) then _ ← publish row; mret true else mret false.

Fixpoint build_all (o : Outbox DB) (es : list Event) : M DB (list Row) :=
  match es with
  | [] => mret []
  | e :: es => row ← o_row e; rows ← build_all o es; mret (row :: rows)
  end.

Fixpoint publish_all (rows : list Row) : M DB unit :=
  match rows with
  | [] => mret tt
  | row :: rows => _ ← publish (Some row); publish_all rows
  end.

Definition massCommit (set : list Entity.t) (input : value) : M DB bool :=
  match set with
  (* every entity discarded: a commit of nothing, which nothing can lose *)
  | [] => mret true
  | _ =>
      rows ← (match outbox with
              | None => mret None
              | Some o =>
                  rows ← build_all o ((fun e => images e input) <$> set);
                  mret (Some rows)
              end);
      ok ← stored (s_massStore (image <$> set) rows);
      match (ok : bool), rows with
      | true, Some rows => _ ← publish_all rows; mret true
      | ok, _ => mret ok
      end
  end.

Definition commit (state : Scoped) (input : value) (call : option Call) : M DB bool :=
  match state with
  | Object e => commit_one e input call
  | Set_ set => massCommit set input
  | _ => mret true
  end.

(** the images of a row its storage left without them *)
Definition filled (row : Row) (r : record) : Row :=
  {| row_id := row_id row; lane := lane row; published := published row;
     pending := pending row; outstanding := outstanding row; row_trail := row_trail row;
     time := time row;
     event := {| e_origin := e_origin (event row);
                 e_state := Some (default r (e_state (event row)));
                 e_trailers := e_trailers (event row);
                 e_input := e_input (event row) |} |}.

Definition apply (state : Changeset.t Query) (input : value) (call : option Call) : M DB record :=
  row ← build {| e_origin := None; e_state := None; e_trailers := None; e_input := input |};
  written ← stored (s_upsert (Changeset.query state) (Changeset.export state) row call);
  match written with
  | None =>
      match q_version (Changeset.query state) with
      | None => throw (derive StateNotFound None)
      | Some _ => throw (derive StatePrecondition None)
      end
  | Some (r, row) =>
      _ ← publish ((fun row => filled row r) <$> row);
      mret r
  end.

(** ** Lemmas *)

Lemma quiet_init i : quiet (init i).
Proof. unfold init. quiet. Qed.

Lemma quiet_fit values : quiet (fit values).
Proof. unfold fit. quiet. Qed.

Section reads.
Context `{!LawfulReads DB}.

Lemma quiet_recall i : quiet (recall i).
Proof.
  unfold recall. destruct s_recall as [f|] eqn:Hf; [|apply quiet_ret].
  apply quiet_stored. intros d. by apply recall_reads.
Qed.

Lemma quiet_entry q m : quiet (entry q m).
Proof.
  unfold entry. apply quiet_bind; [apply quiet_stored, get_reads | intros found].
  destruct found as [r|]; [quiet|].
  destruct associated, (q_id q), (q_criteria q), (q_version q);
    first [apply quiet_throw | apply quiet_ret |
           apply quiet_bind; [apply quiet_init | intros; apply quiet_ret]].
Qed.

Lemma quiet_entries q m : quiet (entries q m).
Proof.
  unfold entries. apply quiet_bind; [apply quiet_stored, find_reads | intros]. quiet.
Qed.

Lemma quiet_stream q : quiet (stream q).
Proof. apply quiet_stored, stream_reads. Qed.
End reads.

Lemma recall_recorded `{!LawfulInbox DB} i w : recall i w = (w, Ok (recorded (db w) i)).
Proof.
  unfold recall. destruct recall_is as (f & -> & Hf).
  unfold stored. rewrite Hf. by destruct w.
Qed.

Lemma commit_one_stored e input call w w' ok :
  forall o, outbox = Some o -> LawfulOutbox o ->
  commit_one e input call w = (w', Ok ok) ->
  exists row, event row = images e input /\
    s_store (image e) (Some row) call (db w) = (db w', Ok ok) /\
    handed w' = handed w ++ (if ok then [row] else []).
Proof.
  intros o Ho Hlaw. unfold commit_one, build. rewrite Ho.
  intros (w1 & row & Hrow & Hc)%bind_M_Ok.
  apply bind_M_Ok in Hrow as (w0 & r & Hr & [= -> <-]).
  assert (db w1 = db w /\ handed w1 = handed w) as [Hdb Hh].
  { specialize (row_quiet (images e input) w). by rewrite Hr. }
  exists r. split; [by eapply row_event|].
  apply bind_M_Ok in Hc as (w2 & ok' & Hs & Hc).
  unfold stored in Hs. rewrite Hdb in Hs.
  destruct (s_store (image e) (Some r) call (db w)) as [d res] eqn:Hst.
  injection Hs as <- ->. destruct ok'.
  - apply bind_M_Ok in Hc as (w3 & u & Hp & [= <- <-]).
    unfold publish in Hp. rewrite Ho, publish_hands in Hp. injection Hp as <- _.
    simpl. by rewrite Hh.
  - injection Hc as <- <-. simpl. by rewrite Hh, app_nil_r.
Qed.

(** whatever the outbox is, a commit stores once and answers what the storage answered *)
Lemma commit_one_store e input call w w' r :
  (forall o, outbox = Some o -> LawfulOutbox o) ->
  commit_one e input call w = (w', r) ->
  exists row, s_store (image e) row call (db w) = (db w', r) \/
    (db w' = db w /\ exists t, r = Throw t).
Proof.
  intros Hlaw Hc. unfold commit_one, build in Hc.
  destruct outbox as [o|] eqn:Ho.
  - specialize (Hlaw o eq_refl). rewrite !bind_M in Hc.
    pose proof (row_quiet (images e input) w) as [Hdb _].
    destruct (o_row (images e input) w) as [w1 [row|t]] eqn:Hr; simpl in *.
    + rewrite bind_M in Hc. unfold stored in Hc. rewrite Hdb in Hc.
      exists (Some row). left.
      destruct (s_store (image e) (Some row) call (db w)) as [d [[]|t]] eqn:Hs; simpl in *.
      * rewrite bind_M in Hc. unfold publish in Hc. rewrite Ho, publish_hands in Hc.
        by run_steps.
      * by run_steps.
      * by run_steps.
    + injection Hc as <- <-. exists None. right. eauto.
  - rewrite bind_M in Hc. simpl in Hc. rewrite bind_M in Hc. unfold stored in Hc.
    exists None. left.
    destruct (s_store (image e) None call (db w)) as [d [[]|t]] eqn:Hs; simpl in *.
    + rewrite bind_M in Hc. simpl in Hc. by run_steps.
    + by run_steps.
    + by run_steps.
Qed.
End State.

#[export] Hint Resolve quiet_init quiet_fit quiet_recall quiet_entry quiet_entries quiet_stream : toa.

(** ** Properties *)

Section handover.
Context {DB : Type} `{Storage DB}.
Context (entities : Factory.t) (o : Outbox DB) `{!LawfulOutbox o}.

(** C10: What is published is what was committed: a commit hands over the very row it stored with the
    record, of the images the record's entity holds, exactly where the storage made the write,
    and nothing where the write was lost. *)
Theorem commit_hands_stored e input call w w' ok :
  commit entities (Some o) (Object e) input call w = (w', Ok ok) ->
  exists row, event row = images entities e input /\
    s_store (image entities e) (Some row) call (db w) = (db w', Ok ok) /\
    handed w' = handed w ++ (if ok then [row] else []).
Proof. intros Hc. by apply (commit_one_stored entities (Some o) e input call w w' ok o). Qed.
End handover.
