(* ===== verification/Memory.v ===== *)
(** * Memory

    [connectors/storages.mongodb/src/storage.js] with [outbox.js] and [inbox.js], over collections
    held as maps: the storage the runtime is deployed with, and the instance the interface of
    [World] is shown to have. A transaction is one step here, which is what the driver promises
    of one. What the driver itself decides is a parameter: [matches] is its query language and
    [arrange] what it does with the options of a query. *)
From S2P Require Import Prelude Exceptions Entities World.

Open Scope Z_scope.

Record collections := mkCollections {
  records : gmap string record;
  calls : gmap string Reply;
  rows : list Row
}.

Section Memory.
Context (matches : Node -> record -> bool).
Context (arrange : option Options -> list record -> list record).

(** what [translate] makes of a query, as a predicate *)
Definition selects (q : Query) (r : record) : bool :=
  match q_criteria q with None => true | Some n => matches n r end &&
  match q_ids q, q_id q with
  | Some ids, _ => bool_decide (id r ∈ ids)
  | None, Some i => bool_decide (id r = i)
  | None, None => true
  end &&
  match q_version q with None => true | Some v => bool_decide (VERSION r = Some v) end.

Definition asks_deleted (q : Query) : bool :=
  bool_decide (q_options q ≫= deleted = Some true).

Definition live (r : record) : bool := bool_decide (DELETED r = None).

Definition all (d : collections) : list record := snd <$> map_to_list (records d).

(** identity lookups return deleted records *)
Definition get (q : Query) (d : collections) : collections * result thrown (option record) :=
  let shown r := asks_deleted q || live r || bool_decide (is_Some (q_id q)) in
  (d, Ok (head (arrange (q_options q) (filter (fun r => selects q r && shown r) (all d))))).

Definition find (q : Query) (d : collections) : collections * result thrown (list record) :=
  (d, Ok (arrange (q_options q)
            (filter (fun r => selects q r && (asks_deleted q || live r)) (all d)))).

(** the fields of a record, as a part carries them *)
Context (fields : record -> list (string * value)).

(** what the query selects, and a token last: none, where the storage keeps no history *)
Definition stream (q : Query) (d : collections) : collections * result thrown (list chunk) :=
  (d, Ok (((fun r => Entry (fields r)) <$>
           arrange (q_options q)
             (filter (fun r => selects q r && (asks_deleted q || live r)) (all d)))
          ++ [Token None])).

Definition recall (i : string) (d : collections) : collections * result thrown (option Reply) :=
  (d, Ok (calls d !! i)).

(** the first version is inserted, and a later one replaces the one before it *)
Definition swap (r : record) (rs : gmap string record) : option (gmap string record) :=
  if decide (VERSION r = Some 1) then
    match rs !! id r with
    | Some _ => None
    | None => Some (<[id r := r]> rs)
    end
  else
    match rs !! id r with
    | Some old =>
        if decide (Some (default 0 (VERSION r) - 1) = VERSION old)
        then Some (<[id r := r]> rs) else None
    | None => None
    end.

Definition DuplicateCallException (i : string) : thrown := derive DuplicateCall (Some i).

Definition store (r : record) (row : option Row) (call : option Call) (d : collections)
    : collections * result thrown bool :=
  match call ≫= (fun c => calls d !! call_id c) with
  | Some _ => (d, Throw (DuplicateCallException (default "" (call_id <$> call))))
  | None =>
      match swap r (records d) with
      | None => (d, Ok false)
      | Some rs =>
          (mkCollections rs
             (match call with
              | None => calls d
              | Some c => <[call_id c := call_reply c]> (calls d)
              end)
             (rows d ++ option_list row), Ok true)
      end
  end.

(** one record of a set: inserted where absent, revived where deleted, replaced otherwise *)
Definition swap_one (r : record) (rs : gmap string record) : option (gmap string record) :=
  if decide (VERSION r = Some 1) then
    match rs !! id r with
    | None => Some (<[id r := r]> rs)
    | Some old =>
        if live old then None
        else Some (<[id r := assign r
               (mkPatch None ((fun n => n + 1) <$> VERSION old) None None (Some None) None ∅)]> rs)
    end
  else swap r rs.

Fixpoint swap_all (set : list record) (rs : gmap string record) : option (gmap string record) :=
  match set with
  | [] => Some rs
  | r :: set => rs ← swap_one r rs; swap_all set rs
  end.

Definition massStore (set : list record) (added : option (list Row)) (d : collections)
    : collections * result thrown bool :=
  match set with
  | [] => (d, Ok true)
  | _ =>
      match swap_all set (records d) with
      | None => (d, Ok false)
      | Some rs => (mkCollections rs (calls d) (rows d ++ default [] added), Ok true)
      end
  end.

(** an assignment's row, with the images that are the write's own *)
Definition imaged (row : Row) (origin state : record) : Row :=
  {| row_id := row_id row; lane := lane row; published := published row; pending := pending row;
     outstanding := outstanding row; row_trail := row_trail row; time := time row;
     event := {| e_origin := Some origin; e_state := Some state;
                 e_trailers := e_trailers (event row); e_input := e_input (event row) |} |}.

Context (output_of : record -> output).

Definition upsert (q : Query) (changes : patch) (row : option Row) (call : option Call)
    (d : collections) : collections * result thrown (option (record * option Row)) :=
  match head (filter (fun r => selects q r) (all d)) with
  | None => (d, Ok None)
  | Some origin =>
      let changes :=
        mkPatch (p_id changes) (p_VERSION changes) (p_CREATED changes) (p_UPDATED changes)
          (Some (default None (p_DELETED changes))) (p_REGION changes) (p_properties changes) in
      let state := assign (assign origin changes)
        (mkPatch None (Some (default 0 (VERSION origin) + 1)) None None None None ∅) in
      let row := (fun row => imaged row origin state) <$> row in
      match call ≫= (fun c => calls d !! call_id c) with
      | Some _ => (d, Throw (DuplicateCallException (default "" (call_id <$> call))))
      | None =>
          let reply (r : Reply) :=
            match r_output r with
            | None => mkReply (Some (output_of state)) (r_error r)
            | Some _ => r
            end in
          (mkCollections (<[id origin := state]> (records d))
             (match call with
              | None => calls d
              | Some c => <[call_id c := reply (call_reply c)]> (calls d)
              end)
             (rows d ++ option_list row), Ok (Some (state, row)))
      end
  end.

(** every property asked for is what the record holds *)
Definition holds (properties_ : gmap string value) (same : value -> value -> bool) (r : record) : bool :=
  forallb (fun kv => match properties r !! fst kv with
                     | Some v => same (snd kv) v
                     | None => false
                     end) (map_to_list properties_).

Context (same : value -> value -> bool).

Definition ensure (q : option Query) (given : patch) (r : record) (row : option Row)
    (call : option Call) (d : collections) : collections * result thrown record :=
  let selected r' :=
    match q with
    | None => holds (p_properties given) same r' && live r'
    | Some q => selects q r' && (asks_deleted q || live r')
    end in
  match head (filter (fun r' => selected r') (all d)) with
  | Some found => (d, Ok found)
  | None =>
      match records d !! id r with
      | Some _ => (d, Throw (derive Duplicate None))
      | None =>
          (mkCollections (<[id r := r]> (records d)) (calls d) (rows d ++ option_list row), Ok r)
      end
  end.

#[export] Instance Memory : Storage collections := {
  s_get := get;
  s_find := find;
  s_store := store;
  s_massStore := massStore;
  s_upsert := upsert;
  s_ensure := ensure;
  s_stream := stream;
  s_recall := Some recall
}.

#[export] Instance Memory_reads : LawfulReads collections.
Proof. split; [done..|]. by intros f i d [= <-]. Qed.

#[export] Program Instance Memory_inbox : LawfulInbox collections := {
  recorded := fun d i => calls d !! i
}.
Next Obligation. by exists recall. Qed.
Next Obligation.
  intros r row call d d'. simpl. unfold store. repeat case_match; congruence.
Qed.
Next Obligation.
  intros r row call d d' e. simpl. unfold store. repeat case_match; congruence.
Qed.
Next Obligation.
  intros r row call d d'. simpl. unfold store. simpl.
  destruct (calls d !! call_id call) eqn:Hc; [done|].
  destruct (swap r (records d)); [|done]. intros [= <-]. simpl.
  split; [done|]. split; [apply lookup_insert_eq|].
  intros i Hi. by apply lookup_insert_ne.
Qed.
Next Obligation.
  intros r row call d reply. simpl. unfold store. simpl. intros ->. eexists. done.
Qed.
End Memory.
