(* ===== verification/Operations.v ===== *)
(** * Operations

    [runtime/core/source/operation.ts] and what extends it: [transition.ts], [assignment.ts],
    [observation.ts], [effect.ts] and [unmanaged.ts]. One invocation acquires, runs its algorithm
    and commits; [invoke] puts what a request must be held to in front of it, and answers what was
    raised rather than raising it.

    The classes differ in what they override, so an operation is a [kind] and each overridden
    method is a definition by cases on it. The algorithm is what the component brings: it is
    handed the input and the state, and answers a reply and what it left of the state. *)
From S2P Require Import Prelude Exceptions Entities World Queries Scope.

Open Scope Z_scope.

(** ** Data *)

Inductive kind := transition | observation | assignment | computation | effect | unmanaged.

#[export] Instance kind_eq_dec : EqDecision kind.
Proof. solve_decision. Defined.

Inductive scope := entry | entries | changeset | stream | none.

#[export] Instance scope_eq_dec : EqDecision scope.
Proof. solve_decision. Defined.

(** [once?: boolean | number] *)
Inductive once_declared := Never | Once | Remembered (seconds : Z).

Record Definition_ := mkDefinition {
  d_kind : kind;
  d_scope : scope;
  concurrency : option string;
  d_once : once_declared
}.

(** the origin of a call *)
Inductive Source :=
| FromOperation (namespace component operation : string)
| FromEvent (namespace component event : string)
| FromService (service : string).

(** what a caller asks for, and the envelope an operation receives it in *)
Record Request := mkRequest {
  input : option value;
  query : option Requested;
  entity : option patch;
  task : bool;
  instance : option string;
  request_id : option string;
  source : option Source;
  request_trail : option value;
  wanted : option (list string);
  encoded : option bool;
  readonly : bool;
  authentic : bool;
  telemetry : option string
}.

(** what an algorithm is handed, and hands back *)
Inductive state :=
| OfObject (r : record)
| OfSet (rs : list record)
| OfChanges (changes : patch)
| OfStream (chunks : list chunk)
| OfNull
| OfDriver.

(** what an algorithm returns as its error: an error of the language, or the plain object *)
Inductive returned :=
| Instance (message : string) (cause : option value)
| Plain_ (error : refusal).

Inductive reply :=
| NoReply
| Bare (objectMode : bool) (chunks : list chunk)
| Answer (r : Reply)
| Excepted (e : Exception).

(** a reply as the algorithm makes it *)
Inductive made :=
| MadeNone
| MadeStream (objectMode : bool) (chunks : list chunk)
| Made (out : option output) (error : option returned).

(** ** What a caller receives of the output it asked for *)

(** the entity's own keys, in the order it holds them *)
Definition fit (entity : list (string * value)) (allowed : list string) : list (string * value) :=
  filter (fun field => fst field ∈ allowed) entity.

Definition fitted_value (v : value) (allowed : list string) : value :=
  match v with
  | VObject fields => VObject (fit fields allowed)
  (* an array that is one of the values is an object of its indices *)
  | VArray vs => VObject (fit (imap (fun i v => (show (Z.of_nat i), v)) vs) allowed)
  | v => v
  end.

Definition fitted (c : chunk) (allowed : list string) : chunk :=
  match c with
  | Entry fields => Plain (VObject [("entry", VObject (fit fields allowed))])
  | Plain v => Plain (fitted_value v allowed)
  | c => c
  end.

Definition restrict_output (o : output) (allowed : list string) : output :=
  match o with
  | Stream true chunks => Stream true ((fun c => fitted c allowed) <$> chunks)
  | Stream false chunks => Stream false chunks
  | Value (VArray vs) => Value (VArray ((fun v => fitted_value v allowed) <$> vs))
  | Value (VObject fields) => Value (VObject (fit fields allowed))
  | Value v => Value v
  end.

Definition is_nullish (o : output) : bool :=
  match o with Value VUndefined | Value VNull => true | _ => false end.

Definition restrict_reply (r : Reply) (wanted : list string) : Reply :=
  match r_output r with
  | None => r
  | Some o =>
      if is_nullish o then r
      else match wanted with
      | [] => mkReply None (r_error r)
      | _ => mkReply (Some (restrict_output o wanted)) (r_error r)
      end
  end.

Definition restrict (r : reply) (wanted : option (list string)) : reply :=
  match wanted, r with
  | None, r => r
  | Some _, NoReply => NoReply
  | Some wanted, Bare mode chunks =>
      match r_output (restrict_reply (mkReply (Some (Stream mode chunks)) None) wanted) with
      | Some (Stream mode chunks) => Bare mode chunks
      | _ => Answer (mkReply None None)
      end
  | Some wanted, Answer r => Answer (restrict_reply r wanted)
  | Some _, Excepted e => Excepted e
  end.

(** ** Errors *)

(** what travels of an error an algorithm returned: its message as the code, and its cause *)
Definition refused (e : returned) : result thrown refusal :=
  match e with
  | Plain_ r => Ok r
  | Instance m cause =>
      if decide (m = "") then
        Throw (ResponseContractException "an error is returned with its code as the message")
      else Ok (mkRefusal m cause)
  end.

Definition answered (m : made) : result thrown reply :=
  match m with
  | MadeNone => Ok NoReply
  | MadeStream mode chunks => Ok (Bare mode chunks)
  | Made out None => Ok (Answer (mkReply out None))
  | Made out (Some e) => r ← refused e; Ok (Answer (mkReply out (Some r)))
  end.

(** [e instanceof Error ? new SystemException(e) : e] *)
Definition exception_of (t : thrown) : Exception :=
  match t with
  | Raised e => e
  | Error m _ => SystemException m
  end.

(** a record, as the output it is *)
Definition record_value (r : record) : value :=
  let number (k : string) (n : option Z) : list (string * value) :=
    match n with None => [] | Some n => [(k, VNumber n)] end in
  VObject ([("id", VString (Entities.id r))] ++ number "VERSION" (VERSION r) ++
    number "CREATED" (CREATED r) ++ number "UPDATED" (UPDATED r) ++
    [("DELETED", match DELETED r with None => VNull | Some n => VNumber n end)] ++
    number "REGION" (REGION r) ++ map_to_list (properties r)).

Section Operation.
Context {DB : Type} `{Storage DB}.
Context (p : platform).
Context (entities_ : Factory.t).
Context (outbox : option (Outbox DB)).
Context (associated : bool).
Context (rsql : string -> (Literal -> result thrown value) -> parsed).
Context (declared : Properties).

(** [Cascade.run]: the last of the algorithms, over the input and the state *)
Context (run_algorithm : option value -> state -> M DB (state * made)).
(** the contracts of the request and of the reply *)
Context (request_fit : Request -> result thrown Request).
Context (reply_fit : reply -> result thrown unit).
(** whether a reply is validated, which it is on a local environment alone *)
Context (local : bool).
Context (definition : Definition_).

Definition mutable : bool := bool_decide (d_kind definition = transition).

(** whether a query may name the properties its storage reads *)
Definition projects : bool := bool_decide (d_kind definition = observation).

Definition retries_lost : bool := bool_decide (concurrency definition = Some "retry").

Definition is_once : bool :=
  match d_once definition with Never => false | _ => true end.

Definition seconds : option Z :=
  match d_once definition with Remembered n => Some n | _ => None end.

(** ** Acquisition *)

(** the scope the operation declares, by its name *)
Definition acquire_scope (q : Query) : M DB Scoped :=
  match d_scope definition with
  | entry =>
      e ← Scope.entry p entities_ associated q mutable;
      mret (match e with None => Nothing | Some e => Object e end)
  | entries => set ← Scope.entries p entities_ associated q mutable; mret (Set_ set)
  | changeset => mret (Changes (Scope.changeset q))
  | stream => chunks ← Scope.stream q; mret (Streamed chunks)
  | none => mret Nothing
  end.

Definition query_scope (q : option Query) : M DB Scoped :=
  match q with
  | None => throw (RequestContractException "Request query is required")
  | Some q => acquire_scope q
  end.

Definition image := Scope.image entities_.

(** [(scope as Entity).get()], or the scope itself where it is raw *)
Definition state_of (s : Scoped) : state :=
  match s with
  | Object e => OfObject (image e)
  | Set_ set => OfSet (image <$> set)
  | Changes c => OfChanges (Changeset.get c)
  | Streamed chunks => OfStream chunks
  | Nothing => OfNull
  end.

Definition acquire_default (q : option Query) : M DB (Scoped * state) :=
  match d_scope definition with
  | none => mret (Nothing, OfNull)
  | _ => s ← query_scope q; mret (s, state_of s)
  end.

(** [request.query?.options?.deleted === true] *)
Definition asks_deleted (q : option Query) : bool :=
  bool_decide ((q ≫= q_options) ≫= deleted = Some true).

(** whether the scope is an entity that was deleted *)
Definition scope_deleted (s : Scoped) : bool :=
  match s with Object e => Entity.deleted e | _ => false end.

Definition acquire_transition (q : option Query) : M DB (Scoped * state) :=
  s ← (match q with
       | None => e ← Scope.init p entities_ None; mret (Object e)
       | Some q => acquire_scope q
       end);
  match s with
  | Nothing => throw (derive StateNotFound None)
  | s =>
      if scope_deleted s && negb (asks_deleted q) then throw (derive StateNotFound None)
      else mret (s, state_of s)
  end.

Definition acquire_assignment (q : option Query) : M DB (Scoped * state) :=
  let c := Scope.changeset (default (mkQuery None None None None None None) q) in
  mret (Changes c, OfChanges (Changeset.get c)).

Definition acquire_effect (request : Request) (q : option Query) : M DB (Scoped * state) :=
  match entity request with
  | None => acquire_default q
  | Some values =>
      e ← Scope.ensure p entities_ outbox q values (default VUndefined (input request)) None;
      mret (Object e, OfObject (image e))
  end.

Definition acquire (request : Request) (q : option Query) : M DB (Scoped * state) :=
  match d_kind definition with
  | transition => acquire_transition q
  | assignment => acquire_assignment q
  | effect => acquire_effect request q
  | unmanaged => mret (Nothing, OfDriver)
  | observation | computation => acquire_default q
  end.

(** ** Running the algorithm *)

Definition run_default (request : Request) (s : state) : M DB (state * reply) :=
  '(s, m) ← run_algorithm (input request) s;
  r ← lift (answered m);
  _ ← lift (match r with
            | Bare _ _ => Ok tt
            | r => if local then reply_fit r else Ok tt
            end);
  mret (s, r).

(** whether an observation has nothing to observe: no scope, or one that was deleted *)
Definition unobservable (q : option Query) (s : Scoped) : bool :=
  match s, d_scope definition with
  | Nothing, none => false
  | Nothing, _ => true
  | s, _ => scope_deleted s && negb (asks_deleted q)
  end.

Definition run (request : Request) (q : option Query) (scope : Scoped) (s : state)
    : M DB (state * reply) :=
  match d_kind definition with
  | observation | effect =>
      if unobservable q scope then mret (s, NoReply) else run_default request s
  | _ => run_default request s
  end.

(** ** Committing *)

(** what is recorded with the write *)
Definition call_of (request : Request) (r : Reply) : option Call :=
  if is_once then Some (mkCall (default "" (request_id request)) r seconds) else None.

Definition discarded (s : state) : bool :=
  match s with OfObject r => bool_decide (DISCARD r = Some true) | _ => false end.

(** [entity.set(state)], of an entity or of a set of them *)
Definition set_scope (scope : Scoped) (s : state) : M DB Scoped :=
  at_ ← now p;
  match scope, s with
  | Object e, OfObject r =>
      e ← lift (Entity.set (Factory.entity entities_) (Factory.guards entities_)
                  (Factory.region entities_) at_ e r);
      mret (Object e)
  | Set_ set, OfSet rs =>
      set ← lift (EntitySet.set (Factory.entity entities_) (Factory.guards entities_)
                    (Factory.region entities_) at_ set rs);
      mret (Set_ set)
  | scope, _ => throw (Error "scope.set is not a function" None)
  end.

(** the write of what the algorithm left, and whether it was lost and is to be made again *)
Definition write_scope (request : Request) (scope : Scoped) (s : state) (recorded : Reply)
    : M DB bool :=
  scope ← set_scope scope s;
  ok ← Scope.commit entities_ outbox scope (default VUndefined (input request))
         (call_of request recorded);
  if (ok : bool) then mret false
  else if retries_lost then mret true
  else throw (derive StateConcurrency None).

(** what a transition commits: nothing where it refused, or discarded the state *)
Definition commit_transition (request : Request) (scope : Scoped) (s : state) (r : reply)
    : M DB bool :=
  match r with
  | Answer a =>
      match r_error a with
      | Some _ => mret false
      | None => if discarded s then mret false else write_scope request scope s a
      end
  | Bare _ _ => if discarded s then mret false else write_scope request scope s (mkReply None None)
  | NoReply | Excepted _ => throw (Error "Cannot read properties of null (reading 'error')" None)
  end.

Definition commit_assignment (request : Request) (scope : Scoped) (s : state) (r : reply)
    : M DB reply :=
  match r, scope, s with
  | Answer a, Changes c, OfChanges changes =>
      match r_error a with
      | Some _ => mret r
      | None =>
          at_ ← now p;
          c ← lift (Changeset.set (Factory.changeset entities_) at_ c changes);
          output ← Scope.apply outbox c (default VUndefined (input request)) (call_of request a);
          mret (match r_output a with
                | None => Answer (mkReply (Some (Value (record_value output))) None)
                | Some _ => r
                end)
      end
  | Bare _ _, Changes c, OfChanges changes =>
      at_ ← now p;
      c ← lift (Changeset.set (Factory.changeset entities_) at_ c changes);
      _ ← Scope.apply outbox c (default VUndefined (input request))
            (call_of request (mkReply None None));
      mret r
  | _, _, _ => throw (Error "Cannot read properties of null (reading 'error')" None)
  end.

(** the three steps, and whether a lost write asks for them again *)
Definition steps (request : Request) (q : option Query) : M DB (reply * bool) :=
  '(scope, s) ← acquire request q;
  '(s, r) ← run request q scope s;
  match d_kind definition with
  | transition => again ← commit_transition request scope s r; mret (r, again)
  | assignment => r ← commit_assignment request scope s r; mret (r, false)
  | _ => mret (r, false)
  end.

Definition RETRIES : nat := 32.

(** [retry] of [libraries/generic], less the waiting: the steps run again for as long as they
    ask, and raise once they asked for the last time *)
Fixpoint retry (request : Request) (q : option Query) (attempts : nat) : M DB reply :=
  '(r, again) ← steps request q;
  if (again : bool) then
    match attempts with
    | O => throw (Error ("Retry failed after " +:+ show (Z.of_nat RETRIES) +:+ " attempts") None)
    | S attempts => retry request q attempts
    end
  else mret r.

Definition process (request : Request) (q : option Query) : M DB reply :=
  match d_kind definition with
  | transition => retry request q RETRIES
  | _ => '(r, _) ← steps request q; mret r
  end.

(** ** The call, once *)

Definition once (request : Request) (q : option Query) : M DB reply :=
  match request_id request with
  | None =>
      throw (RequestContractException "a request to an operation declared `once` carries no id")
  | Some id =>
      recalled ← Scope.recall id;
      match recalled with
      | Some r => mret (Answer r)
      | None =>
          catch (process request q) (fun exception =>
            if decide (code_of exception = Some (codes DuplicateCall)) then
              recalled ← Scope.recall id;
              mret (match recalled with
                    | Some r => Answer r
                    | None => Excepted (exception_of exception)
                    end)
            else throw exception)
      end
  end.

(** ** Invocation *)

(** what the request is held to, and its query as the storage is given it *)
Definition admission (known : asts) (request : Request) : asts * M DB (Request * option Query) :=
  let projected :=
    bool_decide (is_Some (query request ≫= asked_projection)) && negb projects in
  if projected then
    (known, throw (RequestContractException "`projection` is read by an observation alone"))
  else
    match (if authentic request then Ok request else request_fit request) with
    | Throw e => (known, throw e)
    | Ok request =>
        let '(known, q) :=
          match query request with
          | None => (known, Ok None)
          | Some q => let '(known, q) := parse rsql declared known q in (known, Some <$> q)
          end in
        (known,
         q ← lift q;
         _ ← (match entity request with
              | None => mret tt
              | Some values => Scope.fit p entities_ values
              end);
         mret (request, q))
    end.

Definition serve (request : Request) (q : option Query) : M DB reply :=
  if is_once then once request q else process request q.

Definition invoke (known : asts) (request : Request) (w : world DB) : asts * world DB * reply :=
  let '(known, admitted) := admission known request in
  let '(w, r) :=
    ('(request, q) ← admitted;
     r ← serve request q;
     mret (restrict r (wanted request))) w in
  (known, w, match r with Ok r => r | Throw e => Excepted (exception_of e) end).
(** ** Lemmas *)

(** the reply, as it is recorded *)
Definition body (r : reply) : Reply :=
  match r with Answer a => a | _ => mkReply None None end.

(** the operation works on one entity, which is what one declared [once] has to *)
Definition of_one : Prop := d_kind definition = transition /\ d_scope definition = entry.

Section once.
Context `{!LawfulReads DB, !LawfulInbox DB}.
Context (Houtbox : forall o, outbox = Some o -> LawfulOutbox o).

(** a computation that leaves what is recorded under an identity as it was *)
Definition keeps (i : string) {A} (m : M DB A) : Prop :=
  forall w, recorded (db (fst (m w))) i = recorded (db w) i.

Lemma keeps_quiet i {A} (m : M DB A) : quiet m -> keeps i m.
Proof. intros Hq w. by destruct (Hq w) as [-> _]. Qed.

Lemma keeps_run i {A} (m : M DB A) w w' r :
  keeps i m -> m w = (w', r) -> recorded (db w') i = recorded (db w) i.
Proof. intros Hk Hm. specialize (Hk w). by rewrite Hm in Hk. Qed.

Lemma acquire_quiet q : of_one -> quiet (acquire_transition q).
Proof.
  intros [_ Hs]. unfold acquire_transition. apply quiet_bind.
  - destruct q as [q|]; [|quiet]. unfold acquire_scope. rewrite Hs. quiet.
  - intros [e|set|c|chunks|]; quiet.
Qed.

Lemma acquire_object q w w' scope s :
  of_one -> acquire_transition q w = (w', Ok (scope, s)) -> exists e, scope = Object e.
Proof.
  intros [_ Hs]. unfold acquire_transition. intros (w1 & sc & Ha & Hc)%bind_M_Ok.
  assert (exists e, sc = Object e \/ sc = Nothing) as (e & He).
  { destruct q as [q|].
    - unfold acquire_scope in Ha. rewrite Hs in Ha.
      apply bind_M_Ok in Ha as (w2 & x & _ & Ha). destruct x as [e|]; run_steps.
      exists e. by left.
    - apply bind_M_Ok in Ha as (w2 & e & _ & Ha). run_steps. exists e. by left. }
  destruct He as [-> | ->]; [|done].
  destruct (scope_deleted (Object e) && negb (asks_deleted q)); [done|]. run_steps. eauto.
Qed.

Lemma set_scope_object e s w w' scope :
  set_scope (Object e) s w = (w', Ok scope) ->
  db w' = db w /\ handed w' = handed w /\ exists e', scope = Object e'.
Proof.
  unfold set_scope. intros (w1 & t & Ht & Hc)%bind_M_Ok.
  unfold now in Ht. injection Ht as <- <-. destruct s; try done.
  apply bind_M_Ok in Hc as (w2 & e' & He & Hc). unfold lift in He. injection He as <- He.
  run_steps. eauto.
Qed.

Lemma write_scope_recorded i request e s a w w' again :
  is_once = true -> request_id request = Some i ->
  write_scope request (Object e) s a w = (w', Ok again) ->
  recorded (db w') i = recorded (db w) i \/
  again = false /\ recorded (db w) i = None /\ recorded (db w') i = Some a.
Proof.
  intros Honce Hid (w1 & sc & Hset & Hc)%bind_M_Ok.
  apply set_scope_object in Hset as (Hdb & _ & e' & ->).
  apply bind_M_Ok in Hc as (w2 & ok & Hcommit & Hc). simpl in Hcommit.
  assert (w2 = w' /\ (ok = true -> again = false)) as [-> Hagain].
  { destruct ok; [by run_steps|]. destruct retries_lost; by run_steps. }
  apply commit_one_store in Hcommit as (row & [Hs | [_ (t & ?)]]); [|done|done].
  unfold call_of in Hs. rewrite Honce, Hid, Hdb in Hs. simpl in Hs. destruct ok.
  - apply store_made in Hs as (Hn & Hr & _). right. auto.
  - apply store_lost in Hs as ->. by left.
Qed.

Lemma commit_transition_recorded i request e s r w w' again :
  is_once = true -> request_id request = Some i ->
  commit_transition request (Object e) s r w = (w', Ok again) ->
  recorded (db w') i = recorded (db w) i \/
  again = false /\ recorded (db w) i = None /\ recorded (db w') i = Some (body r).
Proof.
  intros Honce Hid. unfold commit_transition.
  destruct r as [|mode chunks|a|x]; [done| | |done].
  - destruct (discarded s); [intros [= <- <-]; by left | by apply write_scope_recorded].
  - destruct (r_error a); [intros [= <- <-]; by left|].
    destruct (discarded s); [intros [= <- <-]; by left | by apply write_scope_recorded].
Qed.

(** the algorithm records nothing under the identity of the call it runs for *)
Definition innocent (i : string) : Prop := forall input s, keeps i (run_algorithm input s).

Lemma run_keeps i request q scope s : innocent i -> keeps i (run request q scope s).
Proof.
  intros Hi.
  assert (keeps i (run_default request s)) as Hd.
  { intros w. unfold run_default. rewrite bind_M. specialize (Hi (input request) s w).
    destruct (run_algorithm (input request) s w) as [w1 [[s' m]|t]]; [|done].
    simpl in Hi. rewrite bind_M. unfold lift. destruct (answered m) as [r|t]; [|done].
    rewrite bind_M. by repeat case_match; simplify_eq. }
  unfold run. destruct (d_kind definition); try done; by destruct (unobservable q scope).
Qed.

Lemma steps_recorded i request q w w' r again :
  of_one -> innocent i -> is_once = true -> request_id request = Some i ->
  steps request q w = (w', Ok (r, again)) ->
  recorded (db w') i = recorded (db w) i \/
  again = false /\ recorded (db w) i = None /\ recorded (db w') i = Some (body r).
Proof.
  intros Hone Hi Honce Hid. pose proof Hone as [Hk _]. unfold steps, acquire. rewrite Hk.
  intros (w1 & [scope s] & Ha & Hc)%bind_M_Ok.
  apply bind_M_Ok in Hc as (w2 & [s' r'] & Hr & Hc).
  apply bind_M_Ok in Hc as (w3 & a & Hcommit & Hc). run_steps.
  destruct (acquire_object q w w1 scope s Hone Ha) as (e & ->).
  apply (keeps_run i _ _ _ _ (keeps_quiet i _ (acquire_quiet q Hone))) in Ha.
  apply (keeps_run i _ _ _ _ (run_keeps i request q (Object e) s Hi)) in Hr.
  rewrite <- Ha, <- Hr. by eapply commit_transition_recorded.
Qed.

Lemma retry_recorded i request q n w w' r :
  of_one -> innocent i -> is_once = true -> request_id request = Some i ->
  retry request q n w = (w', Ok r) ->
  recorded (db w') i = recorded (db w) i \/
  recorded (db w) i = None /\ recorded (db w') i = Some (body r).
Proof.
  intros Hone Hi Honce Hid. revert w. induction n as [|n IH]; intros w; cbn [retry];
    intros (w1 & [r1 again] & Hs & Hc)%bind_M_Ok;
    pose proof (steps_recorded i _ _ _ _ _ _ Hone Hi Honce Hid Hs) as Hrec;
    destruct again; try (run_steps; destruct Hrec as [?|(_ & ? & ?)]; auto; fail);
    destruct Hrec as [Hsame | [? _]]; try done.
  rewrite <- Hsame. by apply IH.
Qed.

Lemma once_recalled i request q w r :
  request_id request = Some i -> recorded (db w) i = Some r ->
  once request q w = (w, Ok (Answer r)).
Proof.
  intros Hid Hr. unfold once. rewrite Hid, bind_M, recall_recorded, Hr. done.
Qed.

Lemma once_missed i request q w :
  request_id request = Some i -> recorded (db w) i = None ->
  once request q w =
    catch (process request q) (fun exception =>
      if decide (code_of exception = Some (codes DuplicateCall)) then
        recalled ← Scope.recall i;
        mret (match recalled with
              | Some r => Answer r
              | None => Excepted (exception_of exception)
              end)
      else throw exception) w.
Proof.
  intros Hid Hr. unfold once. rewrite Hid, bind_M, recall_recorded, Hr. done.
Qed.

(** C2: A transition declared [once] changes state once: whatever it answered the first time, if the
    call left a record then that record is what was answered, and any later arrival of the
    same identity changes nothing at all and is answered with it, the algorithm not run. *)
Theorem once_applies_once i request q w w1 r :
  of_one -> innocent i -> is_once = true ->
  request_id request = Some i ->
  recorded (db w) i = None ->
  process request q w = (w1, Ok r) ->
  serve request q w = (w1, Ok r) /\
  (recorded (db w1) i = None \/
   recorded (db w1) i = Some (body r) /\
   forall again q', request_id again = Some i ->
     serve again q' w1 = (w1, Ok (Answer (body r)))).
Proof.
  intros Hone Hi Honce Hid Hn Hp. unfold serve. rewrite Honce. split.
  - rewrite (once_missed i) by done. unfold catch. by rewrite Hp.
  - unfold process in Hp. destruct Hone as [Hk Hs]. rewrite Hk in Hp.
    apply (retry_recorded i) in Hp as [Hsame | [_ Hr]]; [|right|done..].
    + left. by rewrite Hsame.
    + split; [done|]. intros again q' Hid'. by apply (once_recalled i).
Qed.

(** A duplicate that arrived while the first was still running, and lost the write, is
    answered with what the other one answered; a failure that is no duplicate is raised. *)
Theorem once_race i request q w w1 e :
  is_once = true -> request_id request = Some i -> recorded (db w) i = None ->
  process request q w = (w1, Throw e) ->
  serve request q w =
    (w1, if decide (code_of e = Some (codes DuplicateCall)) then
           Ok (match recorded (db w1) i with
               | Some r => Answer r
               | None => Excepted (exception_of e)
               end)
         else Throw e).
Proof.
  intros Honce Hid Hn Hp. unfold serve. rewrite Honce, (once_missed i) by done.
  unfold catch. rewrite Hp. case_decide; [|done].
  by rewrite bind_M, recall_recorded.
Qed.

(** *** What is not committed *)

(** the world a computation left is the one it began in, as far as a caller can tell *)
Definition untouched (w w' : world DB) : Prop := db w' = db w /\ handed w' = handed w.

Lemma untouched_trans w1 w2 w3 : untouched w1 w2 -> untouched w2 w3 -> untouched w1 w3.
Proof. unfold untouched. naive_solver congruence. Qed.

Lemma quiet_untouched {A} (m : M DB A) w w' r : quiet m -> m w = (w', r) -> untouched w w'.
Proof. intros Hq Hm. specialize (Hq w). rewrite Hm in Hq. exact Hq. Qed.

Lemma commit_one_untouched e input call w w' r :
  Scope.commit_one entities_ outbox e input call w = (w', r) -> r = Ok true \/ untouched w w'.
Proof.
  unfold Scope.commit_one. rewrite bind_M.
  assert (quiet (Scope.build outbox (Scope.images entities_ e input))) as Hb.
  { unfold Scope.build. destruct outbox as [o|] eqn:Ho; [|quiet].
    apply quiet_bind; [|quiet]. specialize (Houtbox o eq_refl). apply row_quiet. }
  specialize (Hb w). destruct (Scope.build _ _ w) as [w1 [row|t]]; cbn [fst] in Hb.
  2: { intros [= <- <-]. by right. }
  rewrite bind_M. unfold stored.
  destruct (s_store (Scope.image entities_ e) row call (db w1)) as [d [ok|t]] eqn:Hs.
  - destruct ok; cbn.
    + rewrite bind_M. unfold Scope.publish. destruct row as [row|], outbox as [o|] eqn:Ho; try (intros [= <- <-]; by left).
      specialize (Houtbox o eq_refl). rewrite publish_hands. intros [= <- <-]. by left.
    + intros [= <- <-]. right. apply store_lost in Hs as ->. exact Hb.
  - intros [= <- <-]. right. apply store_threw in Hs as ->. exact Hb.
Qed.

Lemma quiet_set_scope scope s : quiet (set_scope scope s).
Proof. unfold set_scope. quiet. Qed.

Lemma write_scope_untouched request e s a w w' r :
  write_scope request (Object e) s a w = (w', r) -> r = Ok false \/ untouched w w'.
Proof.
  unfold write_scope. rewrite bind_M. pose proof (quiet_set_scope (Object e) s w) as Hq.
  destruct (set_scope (Object e) s w) as [w1 [scope|t]] eqn:Hset; cbn [fst] in Hq.
  2: { intros [= <- <-]. by right. }
  apply set_scope_object in Hset as (_ & _ & e' & ->). rewrite bind_M. cbn [Scope.commit].
  destruct (Scope.commit_one _ _ _ _ _ w1) as [w2 [ok|t]] eqn:Hc;
    apply commit_one_untouched in Hc as [Hc | Hu]; try discriminate Hc.
  - injection Hc as ->. intros [= <- <-]. by left.
  - destruct ok; [intros [= <- <-]; by left|].
    destruct retries_lost; intros [= <- <-]; right; by eapply untouched_trans.
  - intros [= <- <-]. right. by eapply untouched_trans.
Qed.

(** what was answered of a write that was made *)
Definition succeeded (s : state) (r : reply) : bool :=
  negb (discarded s) &&
  match r with
  | Answer a => match r_error a with None => true | Some _ => false end
  | Bare _ _ => true
  | _ => false
  end.

Lemma commit_transition_untouched request e s a w w' r :
  commit_transition request (Object e) s a w = (w', r) ->
  r = Ok false /\ succeeded s a = true \/ untouched w w'.
Proof.
  unfold commit_transition, succeeded. destruct a as [|mode chunks|a|x].
  - intros [= <- <-]. by right.
  - destruct (discarded s); [intros [= <- <-]; by right|].
    intros [-> | ?]%write_scope_untouched; [by left | by right].
  - destruct (r_error a); [intros [= <- <-]; by right|].
    destruct (discarded s); [intros [= <- <-]; by right|].
    intros [-> | ?]%write_scope_untouched; [by left | by right].
  - intros [= <- <-]. by right.
Qed.

Definition algorithm_quiet : Prop := forall input s, quiet (run_algorithm input s).

Lemma quiet_run request q scope s : algorithm_quiet -> quiet (run request q scope s).
Proof.
  intros Ha. assert (quiet (run_default request s)) as Hd.
  { unfold run_default. apply quiet_bind; [apply Ha|]. intros [s' m]. quiet. }
  unfold run. destruct (d_kind definition); try done; by destruct (unobservable q scope); [quiet|].
Qed.

Lemma quiet_query_scope q : quiet (query_scope q).
Proof.
  destruct q as [q|]; [|quiet]. unfold query_scope, acquire_scope. destruct (d_scope definition).
  - apply quiet_bind; [apply Scope.quiet_entry; apply _ | intros; quiet].
  - apply quiet_bind; [apply Scope.quiet_entries; apply _ | intros; quiet].
  - quiet.
  - apply quiet_bind; [apply Scope.quiet_stream; apply _ | intros; quiet].
  - quiet.
Qed.

Lemma quiet_acquire_default q : quiet (acquire_default q).
Proof.
  unfold acquire_default. pose proof (quiet_query_scope q). destruct (d_scope definition); quiet.
Qed.

(** an answer that says its write was made *)
Definition answered_ok (r : reply) : bool :=
  match r with
  | Answer a => match r_error a with None => true | Some _ => false end
  | Bare _ _ => true
  | _ => false
  end.

Lemma succeeded_ok s r : succeeded s r = true -> answered_ok r = true.
Proof. unfold succeeded. by intros [_ ?]%andb_true_iff. Qed.

Lemma steps_untouched request q w w' r :
  of_one -> algorithm_quiet -> steps request q w = (w', r) ->
  (exists a, r = Ok (a, false) /\ answered_ok a = true) \/ untouched w w'.
Proof.
  intros Hone Ha. pose proof Hone as [Hk _]. unfold steps, acquire. rewrite Hk, bind_M.
  pose proof (acquire_quiet q Hone w) as Hq.
  destruct (acquire_transition q w) as [w1 [[scope s]|t]] eqn:Hacq; cbn [fst] in Hq.
  2: { intros [= <- <-]. by right. }
  destruct (acquire_object q w w1 scope s Hone Hacq) as (e & ->). rewrite bind_M.
  pose proof (quiet_run request q (Object e) s Ha w1) as Hr.
  destruct (run request q (Object e) s w1) as [w2 [[s' a]|t]]; cbn [fst] in Hr.
  2: { intros [= <- <-]. right. by eapply untouched_trans. }
  rewrite bind_M.
  destruct (commit_transition request (Object e) s' a w2) as [w3 [again|t]] eqn:Hc;
    apply commit_transition_untouched in Hc as [[Hc Hs] | Hu]; try discriminate Hc.
  - injection Hc as ->. intros [= <- <-]. left. exists a. split; [done | by eapply succeeded_ok].
  - intros [= <- <-]. right. eapply untouched_trans; [|done]. by eapply untouched_trans.
  - intros [= <- <-]. right. eapply untouched_trans; [|done]. by eapply untouched_trans.
Qed.

Lemma retry_untouched request q n w w' r :
  of_one -> algorithm_quiet -> retry request q n w = (w', r) ->
  (exists a, r = Ok a /\ answered_ok a = true) \/ untouched w w'.
Proof.
  intros Hone Ha. revert w. induction n as [|n IH]; intros w; cbn [retry]; rewrite bind_M;
    destruct (steps request q w) as [w1 [[a again]|t]] eqn:Hs;
    pose proof (steps_untouched _ _ _ _ _ Hone Ha Hs) as [(a' & Heq & Hok) | Hu];
    try discriminate Heq; try (injection Heq as -> ->).
  - intros [= <- <-]. eauto.
  - destruct again; intros [= <- <-]; by right.
  - intros [= <- <-]. by right.
  - intros [= <- <-]. eauto.
  - destruct again; [|intros [= <- <-]; by right].
    intros [?|?]%IH; [by left|]. right. by eapply untouched_trans.
  - intros [= <- <-]. by right.
Qed.


(** What only reads writes nothing: an observation or a computation whose algorithm writes
    nothing leaves the storage as it was and hands no event over, whatever its scope is and
    whether it answers or raises. *)
Theorem reading_writes_nothing request q :
  d_kind definition = observation \/ d_kind definition = computation ->
  algorithm_quiet -> quiet (process request q).
Proof.
  intros Hk Ha. assert (quiet (steps request q)) as Hs.
  { unfold steps. apply quiet_bind.
    - unfold acquire. destruct Hk as [-> | ->]; apply quiet_acquire_default.
    - intros [scope s]. apply quiet_bind; [by apply quiet_run|]. intros [s' r].
      destruct Hk as [-> | ->]; quiet. }
  unfold process. destruct Hk as [-> | ->]; (apply quiet_bind; [done|]); intros [r again]; quiet.
Qed.
End once.
End Operation.

(** A caller receives of an object just what it asked for: each property it named that the object
    holds, with its value and in the object's order, and no other; an empty list receives none,
    and what is not an object is answered as it is. *)
Theorem restrict_object fields allowed e :
  (allowed <> [] -> exists kept,
    restrict (Answer (mkReply (Some (Value (VObject fields))) e)) (Some allowed) =
      Answer (mkReply (Some (Value (VObject kept))) e) /\
    kept `sublist_of` fields /\
    forall k, own kept k = if decide (k ∈ allowed) then own fields k else None) /\
  restrict (Answer (mkReply (Some (Value (VObject fields))) e)) (Some []) = Answer (mkReply None e) /\
  (forall s, restrict (Answer (mkReply (Some (Value (VString s))) e)) (Some ("id" :: allowed)) =
    Answer (mkReply (Some (Value (VString s))) e)).
Proof.
  split; [|done]. intros Hne. destruct allowed as [|a allowed]; [done|].
  exists (fit fields (a :: allowed)). split; [done|]. split; [apply sublist_filter|].
  intros k. generalize (a :: allowed). intros names. unfold fit.
  induction fields as [|[k' v] fields IH]; [simpl; by case_decide|].
  rewrite filter_cons. cbn [fst]. destruct (decide (k' ∈ names)) as [Hk|Hk]; cbn [own].
  - destruct (decide (k' = k)) as [->|Hne']; [by rewrite decide_True | exact IH].
  - rewrite IH. destruct (decide (k' = k)) as [->|Hne']; [by rewrite !decide_False | done].
Qed.
