(* ===== verification/Outbox.v ===== *)
(** * Outbox

    [runtime/core/source/outbox.ts] over what [connectors/storages.mongodb/src/outbox.js] keeps:
    the intent to publish, and the pump that recovers what was not published. [process] is what
    one replica holds in memory, a definition per method says what a call of it changes, and
    [step] interleaves the replicas of a component with what its broker and its storage do, a
    crash included. What is awaited is a step of its own: an emission is in flight from the step
    that starts it to the one it settles in. *)
From stdpp Require Import sorting.
From S2P Require Import Prelude Exceptions Entities World Scope.

Open Scope Z_scope.

(** ** Constants *)

Definition LANES : Z := 128.
Definition UNASSIGNED : Z := 10.
Definition INTERVAL : Z := 5000.
Definition K : Z := 3.
Definition BATCH : Z := 200.
Definition INFLIGHT : nat := Z.to_nat 1000.
Definition PUBLISHED : nat := Z.to_nat 10000.
#[global] Opaque INFLIGHT PUBLISHED.

(** the option, or the variable, where it is a positive number: [None] is [NaN] *)
Definition number (declared : option Z) (variable : option Z) (fallback : Z) : Z :=
  match declared, variable with
  | Some declared, _ => declared
  | None, Some value => if value <=? 0 then fallback else value
  | None, None => fallback
  end.

Definition gap (declared : option Z) (interval : Z) : Z := default (interval * K) declared.

(** ** State *)

(** [set.delete], of a set in the order it was added to *)
Definition delete (x : string) (s : list string) : list string := filter (fun y => y <> x) s.

(** what a process holds of one destination; a publication in flight is told by its number *)
Record Sending := mkSending {
  sent : list string;
  inflight : list (nat * Row);
  publishing : list string
}.

(** rows sharing the destinations that completed for them *)
Definition group : Type := list string * list string.

(** where [#pump] is: reading the page after an id, waiting for what a page started (and whether
    that page was full, the id it ended with), or marking what is left of the groups *)
Inductive phase :=
| Idle
| Reading (after : option string)
| Awaiting (full : bool) (after : option string)
| Marking (left_ : list group).

Record process := mkProcess {
  destinations : list string;
  sending : gmap string Sending;
  promises : nat;
  pump : phase;
  unassigned : Z;
  closing : bool;
  (** what closing has left to mark *)
  closing_groups : list group
}.

Definition with_sending (p : process) (f : gmap string Sending -> gmap string Sending) : process :=
  mkProcess (destinations p) (f (sending p)) (promises p) (pump p) (unassigned p) (closing p)
    (closing_groups p).

Definition with_pump (p : process) (ph : phase) : process :=
  mkProcess (destinations p) (sending p) (promises p) ph (unassigned p) (closing p)
    (closing_groups p).

(** the constructor *)
Definition start (names : list string) : process :=
  mkProcess names (list_to_map ((fun name => (name, mkSending [] [] [])) <$> names))
    0 Idle 0 false [].

(** ** The row *)

Section row.
Context {DB : Type} (p : platform).
(** [atom.slots(LANES)]: [None] where nothing was assigned yet *)
Context (slots : option (list Z)).
(** [trail.current()?.hops] *)
Context (hops : option (list string)).
Context (names : list string).
Context (interval_gap : Z).

(** [#lane]: one this replica owns, or any at all *)
Definition choose_lane : M DB Z :=
  match slots with
  | None | Some [] => random p LANES
  | Some owned =>
      n ← random p (Z.of_nat (length owned));
      mret (default 0 (owned !! Z.to_nat n))
  end.

Definition row (event : Event) : M DB Row :=
  id ← newid p;
  lane ← choose_lane;
  pending ← now p;
  time ← now p;
  mret (mkRow id lane false (pending + interval_gap) names hops (Some time) event).
End row.

(** ** Publication *)

(** [#due] *)
Definition due (p : process) (r : Row) (destination : string) : bool :=
  bool_decide (destination ∈ outstanding r) &&
  match sending p !! destination with
  | None => false
  | Some s => bool_decide (row_id r ∉ sent s) && bool_decide (row_id r ∉ publishing s)
  end.

(** [#send], up to what it awaits *)
Definition send (r : Row) (p : process) (destination : string) : process :=
  match sending p !! destination with
  | None => p
  | Some s =>
      if ((INFLIGHT <=? length (inflight s)) || (PUBLISHED <=? length (sent s)))%nat then p
      else
        let s := mkSending (sent s) (inflight s ++ [(promises p, r)]) (add (row_id r) (publishing s)) in
        mkProcess (destinations p) (<[destination := s]> (sending p)) (S (promises p)) (pump p)
          (unassigned p) (closing p) (closing_groups p)
  end.

(** [#publish] *)
Definition publish_due (p : process) (r : Row) : process :=
  foldl (fun p name => if due p r name then send r p name else p) p (destinations p).

(** [publish], of an outbox that is durable *)
Definition publish (defer : bool) (p : process) (r : Row) : process :=
  if closing p || defer then p else publish_due p r.

(** how one emission settled *)
Definition settle_one (landed : bool) (n : nat) (r : Row) (s : Sending) : Sending :=
  mkSending (if landed then add (row_id r) (sent s) else sent s)
    (filter (fun sending => fst sending <> n) (inflight s))
    (delete (row_id r) (publishing s)).

(** the rest of [#send]: what it awaited was answered, or failed *)
Definition emitted (landed : bool) (destination : string) (n : nat) (p : process) : process :=
  match sending p !! destination with
  | None => p
  | Some s =>
      match list_find (fun sending => fst sending = n) (inflight s) with
      | None => p
      | Some (_, (_, r)) => with_sending p (insert destination (settle_one landed n r s))
      end
  end.

(** [#inline]: without a durable outbox the caller waits for every destination, and is thrown
    what was the first to fail; [emissions] are in the order they settled *)
Definition inline (names : list string) (r : Row)
    (emissions : list (string * result thrown unit)) : result thrown unit :=
  let attempted := filter (fun name => name ∈ outstanding r) names in
  foldr (fun emission rest =>
    if decide (fst emission ∈ attempted) then snd emission ≫= fun _ => rest else rest)
    (Ok tt) emissions.

(** ** Marking *)

(** the destinations in the order they are held *)
Definition held (p : process) : list string :=
  foldl (fun names name => add name names) [] (destinations p).

Definition sent_to (p : process) (name : string) : list string :=
  match sending p !! name with None => [] | Some s => sent s end.

(** the entries of a map, which a key put in again keeps its place in *)
Fixpoint upsert {V} (key : string) (absent : V) (present : V -> V) (entries : list (string * V))
    : list (string * V) :=
  match entries with
  | [] => [(key, absent)]
  | (k, v) :: entries =>
      if decide (k = key) then (k, present v) :: entries
      else (k, v) :: upsert key absent present entries
  end.

(** one more destination of an id *)
Definition complete (name : string) (entries : list (string * list string)) (id : string)
    : list (string * list string) :=
  upsert id [name] (fun names => names ++ [name]) entries.

(** the destinations that completed for an id *)
Definition completed (p : process) : list (string * list string) :=
  foldl (fun entries name => foldl (complete name) entries (sent_to p name)) [] (held p).

Definition NUL : string := String (Ascii.ascii_of_nat 0) "".

Definition grouped (entries : list (string * list string)) : list (string * group) :=
  foldl (fun (groups : list (string * group)) (entry : string * list string) =>
    upsert (join NUL (snd entry)) (snd entry, [fst entry])
      (fun g => (fst g, snd g ++ [fst entry])) groups)
    [] entries.

(** [#groups] *)
Definition groups (p : process) : list group := snd <$> grouped (completed p).

(** [for (const id of ids) published.delete(id)] *)
Definition forget (ids : list string) (s : Sending) : Sending :=
  mkSending (foldl (fun sent id => delete id sent) (sent s) ids) (inflight s) (publishing s).

(** the rest of [#settle], where the storage answered *)
Definition settled (g : group) (p : process) : process :=
  with_sending p (fun sending =>
    foldl (fun sending name => alter (forget (snd g)) name sending) sending (fst g)).

(** ** The cycle *)

(** [#assignment] *)
Definition assignment (slots : option (list Z)) (p : process) : process :=
  let unassigned :=
    match slots with Some (_ :: _) => 0 | _ => unassigned p + 1 end in
  mkProcess (destinations p) (sending p) (promises p) (pump p) unassigned (closing p)
    (closing_groups p).

(** whether a cycle says that nothing is assigned *)
Definition warns (p : process) : bool := (0 <? unassigned p) && (unassigned p mod UNASSIGNED =? 0).

(** [#tick], and [#pump] up to its first read *)
Definition tick (slots : option (list Z)) (p : process) : process :=
  match pump p with
  | Idle => with_pump (assignment slots p) (Reading None)
  | _ => p
  end.

(** a turn of the loop of [#pump], once its page was read *)
Definition paged (batch : nat) (page : list Row) (p : process) : process :=
  match last page with
  | None => with_pump p (Marking (groups p))
  | Some r =>
      let rows := filter (fun r => existsb (due p r) (destinations p)) page in
      with_pump (foldl publish_due p rows)
        (Awaiting (length page =? batch)%nat (Some (row_id r)))
  end.

(** what the page started was waited for, as long as a cycle waits *)
Definition awaited (p : process) : process :=
  match pump p with
  | Awaiting true after => with_pump p (Reading after)
  | Awaiting false _ => with_pump p (Marking (groups p))
  | _ => p
  end.

(** what is left to mark *)
Definition marking (gs : list group) : phase :=
  match gs with [] => Idle | gs => Marking gs end.

(** a turn of the loop of [#mark], once the storage answered, or failed to *)
Definition marked (answered : bool) (p : process) : process :=
  match pump p with
  | Marking [] => with_pump p Idle
  | Marking (g :: gs) => with_pump (if answered then settled g p else p) (marking gs)
  | _ => p
  end.

(** [close], up to the drain, and past it *)
Definition close (p : process) : process :=
  mkProcess (destinations p) (sending p) (promises p) (pump p) (unassigned p) true (closing_groups p).

Definition drained (p : process) : process :=
  mkProcess (destinations p) (sending p) (promises p) (pump p) (unassigned p) (closing p) (groups p).

Definition closed (answered : bool) (p : process) : process :=
  match closing_groups p with
  | [] => p
  | g :: gs =>
      let p := if answered then settled g p else p in
      mkProcess (destinations p) (sending p) (promises p) (pump p) (unassigned p) (closing p) gs
  end.

(** ** The rows of a component, as its storage keeps them *)

Module Stored.

(** rows by their ids, which is the order they were written in *)
Definition precedes (a b : string * Row) : Prop := String.le (fst a) (fst b).

#[export] Instance precedes_dec : RelDecision precedes.
Proof. intros a b. unfold precedes. apply _. Defined.

Definition in_order (rows : gmap string Row) : list (string * Row) :=
  merge_sort precedes (map_to_list rows).

(** the rows of these lanes that are due, in their order *)
Definition outstanding_rows (lanes : list Z) (now : Z) (rows : gmap string Row)
    : list (string * Row) :=
  filter (fun entry => let r := snd entry in
    lane r ∈ lanes /\ World.published r = false /\ (World.pending r <= now)%Z) (in_order rows).

Definition after_id (after : option string) (entry : string * Row) : bool :=
  match after with
  | None => true
  | Some after => bool_decide (String.le after (fst entry)) && bool_decide (fst entry <> after)
  end.

(** [pending]: a limit of none is no limit, to the driver *)
Definition pending (lanes : list Z) (now : Z) (limit : nat) (after : option string)
    (rows : gmap string Row) : list (string * Row) :=
  let found := filter (fun entry => after_id after entry) (outstanding_rows lanes now rows) in
  match limit with O => found | limit => take limit found end.

(** what is left outstanding of a row once these destinations are taken out of it *)
Definition take_out (names : list string) (r : Row) : Row :=
  let left_ := filter (fun name => name ∉ names) (outstanding r) in
  mkRow (row_id r) (lane r) (bool_decide (left_ = [])) (World.pending r) left_ (row_trail r) (time r)
    (event r).

Definition settle (ids names : list string) (rows : gmap string Row) : gmap string Row :=
  map_imap (fun id r => Some (if decide (id ∈ ids) then take_out names r else r)) rows.
End Stored.

(** the loop of [#pump] over rows nobody else settles meanwhile: the pages it reads *)
Fixpoint pages (fuel : nat) (lanes : list Z) (now : Z) (batch : nat) (after : option string)
    (rows : gmap string Row) : list (list (string * Row)) :=
  match fuel with
  | O => []
  | S fuel =>
      let page := Stored.pending lanes now batch after rows in
      match last page with
      | None => []
      | Some r =>
          page :: (if (length page =? batch)%nat then pages fuel lanes now batch (Some (fst r)) rows
                   else [])
      end
  end.

(** ** The replicas of a component, interleaved *)

Record system := mkSystem {
  replicas : gmap nat process;
  rows : gmap string Row;
  (** what each row was written for *)
  written : gmap string (list string);
  (** the destinations that confirmed an id *)
  delivered : list (string * string)
}.

Definition put (i : nat) (p : process) (s : system) : system :=
  mkSystem (<[i := p]> (replicas s)) (rows s) (written s) (delivered s).

(** what a storage makes of a settle: it may write, and what it wrote may go unanswered *)
Inductive settling := Answered | Unanswered | Lost.

Definition answers (how : settling) : bool :=
  match how with Answered => true | _ => false end.

Definition settle_rows (how : settling) (g : option group) (s : system) : system :=
  match how, g with
  | Lost, _ | _, None => s
  | _, Some g => mkSystem (replicas s) (Stored.settle (snd g) (fst g) (rows s)) (written s) (delivered s)
  end.

Definition current_group (p : process) : option group :=
  match pump p with Marking (g :: _) => Some g | _ => None end.

(** what no name of a destination holds *)
Definition named (name : string) : Prop := Ascii.ascii_of_nat 0 ∉ chars name.

Inductive step (batch : nat) : system -> system -> Prop :=
(** a replica begins, whatever it held before being gone *)
| step_start s i names :
    Forall named names ->
    step batch s (put i (start names) s)
(** a commit writes a row, for the destinations the replica has *)
| step_commit s i p r :
    replicas s !! i = Some p -> rows s !! row_id r = None -> written s !! row_id r = None ->
    outstanding r = destinations p -> World.published r = false ->
    step batch s (mkSystem (replicas s) (<[row_id r := r]> (rows s))
                    (<[row_id r := outstanding r]> (written s)) (delivered s))
(** and the row it built is handed over, as it was built *)
| step_publish s i p r defer :
    replicas s !! i = Some p -> written s !! row_id r = Some (outstanding r) ->
    step batch s (put i (publish defer p r) s)
| step_tick s i p slots :
    replicas s !! i = Some p -> step batch s (put i (tick slots p) s)
(** a page was read of the lanes a replica holds, or could not be *)
| step_paged s i p lanes now after :
    replicas s !! i = Some p -> pump p = Reading after ->
    step batch s (put i (paged batch (snd <$> Stored.pending lanes now batch after (rows s)) p) s)
| step_unread s i p after :
    replicas s !! i = Some p -> pump p = Reading after ->
    step batch s (put i (paged batch [] p) s)
| step_awaited s i p :
    replicas s !! i = Some p -> step batch s (put i (awaited p) s)
(** a destination confirmed what was in flight *)
| step_landed s i p destination sends n r :
    replicas s !! i = Some p -> sending p !! destination = Some sends ->
    (n, r) ∈ inflight sends ->
    step batch s (mkSystem (<[i := emitted true destination n p]> (replicas s)) (rows s) (written s)
                    ((destination, row_id r) :: delivered s))
(** or it failed, whether or not it was delivered *)
| step_failed s i p destination n :
    replicas s !! i = Some p ->
    step batch s (put i (emitted false destination n p) s)
| step_marked s i p how :
    replicas s !! i = Some p ->
    step batch s (put i (marked (answers how) p) (settle_rows how (current_group p) s))
| step_close s i p :
    replicas s !! i = Some p -> step batch s (put i (close p) s)
| step_drained s i p :
    replicas s !! i = Some p -> closing p = true -> step batch s (put i (drained p) s)
| step_closed s i p how :
    replicas s !! i = Some p ->
    step batch s (put i (closed (answers how) p) (settle_rows how (head (closing_groups p)) s)).

Definition initial (s : system) : Prop :=
  replicas s = ∅ /\ rows s = ∅ /\ written s = ∅ /\ delivered s = [].

Inductive reachable (batch : nat) : system -> Prop :=
| reachable_initial s : initial s -> reachable batch s
| reachable_step s s' : reachable batch s -> step batch s s' -> reachable batch s'.

(** ** Lemmas *)

(** *** Sets and maps of the language *)

Lemma foldl_delete ids s :
  foldl (fun s id => delete id s) s ids = filter (fun y => y ∉ ids) s.
Proof.
  revert s. induction ids as [|id ids IH]; intros s; simpl.
  - symmetry. apply list_filter_id. set_solver.
  - rewrite IH. unfold delete. rewrite list_filter_filter. apply list_filter_iff. set_solver.
Qed.

Lemma upsert_own {V} key a (f : V -> V) entries k :
  own (upsert key a f entries) k =
    if decide (k = key) then Some (match own entries key with Some v => f v | None => a end)
    else own entries k.
Proof.
  induction entries as [|[k' v] entries IH]; simpl.
  - repeat case_decide; congruence.
  - repeat (case_decide; simpl; subst); try congruence; rewrite IH; case_decide; congruence.
Qed.

Lemma upsert_keys {V} key a (f : V -> V) entries :
  fst <$> upsert key a f entries = add key (fst <$> entries).
Proof.
  induction entries as [|[k v] entries IH]; cbn [upsert].
  { done. }
  destruct (decide (k = key)) as [->|Hk]; rewrite !fmap_cons; cbn [fst]; unfold add in *.
  - by rewrite decide_True by set_solver.
  - rewrite IH. destruct (decide (key ∈ entries.*1)) as [Hd|Hd].
    + by rewrite decide_True by set_solver.
    + by rewrite decide_False by set_solver.
Qed.

Lemma own_elem {V} (entries : list (string * V)) k v :
  NoDup (fst <$> entries) -> (k, v) ∈ entries <-> own entries k = Some v.
Proof.
  intros Hnd. split; [|apply own_Some].
  induction entries as [|[k' v'] entries IH]; [set_solver|]. simpl in Hnd.
  apply NoDup_cons in Hnd as [Hk' Hnd]. intros [Heq | Hin]%elem_of_cons.
  - injection Heq as <- <-. simpl. by rewrite decide_True.
  - simpl. rewrite decide_False; [by apply IH|].
    intros ->. apply Hk'. apply list_elem_of_fmap. by exists (k, v).
Qed.

(** *** Groups *)

Lemma held_spec p : NoDup (held p) /\ forall name, name ∈ held p <-> name ∈ destinations p.
Proof.
  unfold held. set (names := []). assert (NoDup names) as Hnd by constructor.
  assert (forall name, name ∈ foldl (fun names name => add name names) names (destinations p) <->
    name ∈ names \/ name ∈ destinations p) as Hin.
  { generalize names. induction (destinations p) as [|d ds IH]; intros l name; simpl; [set_solver|].
    rewrite IH, elem_of_add. set_solver. }
  split; [|intros name; rewrite Hin; set_solver].
  clear Hin. revert Hnd. generalize names.
  induction (destinations p) as [|d ds IH]; intros l Hl; simpl; [done|].
  apply IH. by apply NoDup_add.
Qed.

(** the destinations that completed for an id, in the order they are held *)
Definition completing (p : process) (names : list string) (id : string) : list string :=
  filter (fun name => id ∈ sent_to p name) names.

Definition present {V} (l : list V) : option (list V) :=
  match l with [] => None | l => Some l end.

Lemma present_app {V} (l : list V) x : present (l ++ [x]) = Some (l ++ [x]).
Proof. by destruct l. Qed.

Lemma completed_inner name ids entries id :
  NoDup ids ->
  own (foldl (complete name) entries ids) id =
    if decide (id ∈ ids) then Some (default [] (own entries id) ++ [name]) else own entries id.
Proof.
  revert entries. induction ids as [|i ids IH]; intros entries Hnd; simpl; [done|].
  apply NoDup_cons in Hnd as [Hi Hnd]. rewrite IH by done. unfold complete. rewrite upsert_own.
  destruct (decide (id = i)) as [->|Hne].
  - rewrite (decide_False (P := i ∈ ids)) by done. rewrite decide_True by set_solver.
    by destruct (own entries i).
  - destruct (decide (id ∈ ids)) as [Hd|Hd].
    + by rewrite decide_True by set_solver.
    + by rewrite decide_False by set_solver.
Qed.

Lemma completed_inner_keys name ids (entries : list (string * list string)) :
  NoDup (fst <$> entries) ->
  NoDup (fst <$> foldl (complete name) entries ids).
Proof.
  revert entries. induction ids as [|i ids IH]; intros entries Hnd; simpl; [done|].
  apply IH. unfold complete. rewrite upsert_keys. by apply NoDup_add.
Qed.

Lemma completed_spec p :
  (forall name, NoDup (sent_to p name)) ->
  NoDup (fst <$> completed p) /\
  forall id, own (completed p) id = present (completing p (held p) id).
Proof.
  intros Hsent. unfold completed, completing.
  induction (held p) as [|name names IH] using rev_ind; [split; [constructor | done]|].
  rewrite foldl_app. simpl. destruct IH as [Hnd Hown]. split; [by apply completed_inner_keys|].
  intros id. rewrite completed_inner by done. rewrite filter_app, Hown. simpl.
  destruct (decide (id ∈ sent_to p name)) as [Hd|Hd].
  - rewrite (filter_cons_True _ name []), filter_nil, present_app by done.
    by destruct (filter _ names).
  - rewrite (filter_cons_False _ name []), filter_nil, app_nil_r by done. done.
Qed.

(** entries by what their destinations are joined to *)
Lemma grouped_spec entries :
  NoDup (fst <$> grouped entries) /\
  forall key, own (grouped entries) key =
    match filter (fun e => join NUL (snd e) = key) entries with
    | [] => None
    | e :: es => Some (snd e, fst <$> e :: es)
    end.
Proof.
  unfold grouped. induction entries as [|e entries IH] using rev_ind; [split; [constructor | done]|].
  rewrite foldl_app. simpl. destruct IH as [Hnd Hown]. split.
  { rewrite upsert_keys. by apply NoDup_add. }
  intros key. rewrite upsert_own, filter_app. simpl. rewrite filter_cons, filter_nil.
  destruct (decide (key = join NUL (snd e))) as [->|Hne].
  - rewrite decide_True, Hown by done.
    destruct (filter _ entries) as [|e' es]; [done|]. simpl. by rewrite fmap_app.
  - rewrite decide_False, Hown, app_nil_r by congruence. done.
Qed.

Lemma join_inj names names' :
  names <> [] -> names' <> [] -> Forall named names -> Forall named names' ->
  join NUL names = join NUL names' -> names = names'.
Proof.
  intros Hn Hn' Hf Hf' Heq.
  rewrite <- (split_join (Ascii.ascii_of_nat 0) names), <- (split_join (Ascii.ascii_of_nat 0) names')
    by done.
  unfold NUL in Heq. by rewrite Heq.
Qed.

Lemma completed_elem p id names :
  (forall name, NoDup (sent_to p name)) ->
  (id, names) ∈ completed p <-> names = completing p (held p) id /\ names <> [].
Proof.
  intros Hsent. destruct (completed_spec p Hsent) as [Hnd Hown].
  rewrite own_elem, Hown by done. unfold present.
  destruct (completing p (held p) id); split; [done | naive_solver | naive_solver | naive_solver].
Qed.

Lemma completing_named p id :
  Forall named (destinations p) -> Forall named (completing p (held p) id).
Proof.
  rewrite !Forall_forall. intros Hn name [_ Hin]%list_elem_of_filter.
  apply Hn. by apply held_spec.
Qed.

(** a group is every id that completed for just these destinations *)
Lemma groups_elem p g :
  (forall name, NoDup (sent_to p name)) -> Forall named (destinations p) ->
  g ∈ groups p ->
  fst g <> [] /\ NoDup (snd g) /\
  (forall id, id ∈ snd g <-> completing p (held p) id = fst g) /\
  own (grouped (completed p)) (join NUL (fst g)) = Some g.
Proof.
  intros Hsent Hn. unfold groups. intros ([key g'] & -> & Hin)%list_elem_of_fmap. simpl.
  destruct (grouped_spec (completed p)) as [Hnd Hown].
  apply own_elem in Hin; [|done]. pose proof Hin as Hkey. rewrite Hown in Hin.
  destruct (filter _ (completed p)) as [|[i names] es] eqn:Hf; [done|].
  assert (g' = (names, ((i, names) :: es).*1)) as -> by (by injection Hin). cbn [fst snd].
  assert (NoDup (((i, names) :: es).*1)) as Hids.
  { rewrite <- Hf. destruct (completed_spec p Hsent) as [Hnd' _].
    eapply sublist_NoDup; [exact Hnd'|]. apply fmap_sublist, sublist_filter. }
  assert (forall i' ns', (i', ns') ∈ (i, names) :: es <->
    join NUL ns' = key /\ (i', ns') ∈ completed p) as Hes.
  { intros i' ns'. rewrite <- Hf. by rewrite list_elem_of_filter. }
  assert (join NUL names = key /\ (i, names) ∈ completed p) as [Hj Hc] by (apply Hes; set_solver).
  pose proof Hc as [Hnames Hne]%completed_elem; [|done].
  split; [done|]. split; [|split].
  - exact Hids.
  - intros i'. rewrite list_elem_of_fmap. split.
    + intros ([i'' ns'] & -> & [Hj' Hc']%Hes). simpl.
      apply completed_elem in Hc' as [-> Hne']; [|done].
      apply join_inj; [done..| | |congruence].
      * by apply completing_named.
      * rewrite Hnames. by apply completing_named.
    + intros Hi'. exists (i', names). split; [done|]. apply Hes. split; [done|].
      apply completed_elem; [done|]. by rewrite Hi'.
  - by rewrite Hj.
Qed.

Lemma groups_cover p id :
  (forall name, NoDup (sent_to p name)) -> completing p (held p) id <> [] ->
  exists g, g ∈ groups p /\ id ∈ snd g.
Proof.
  intros Hsent Hne. destruct (grouped_spec (completed p)) as [Hnd Hown].
  assert ((id, completing p (held p) id) ∈ completed p) as Hc by by apply completed_elem.
  specialize (Hown (join NUL (completing p (held p) id))).
  assert ((id, completing p (held p) id) ∈
    filter (fun e => join NUL (snd e) = join NUL (completing p (held p) id)) (completed p)) as Hf.
  { apply list_elem_of_filter. by split. }
  destruct (filter _ (completed p)) as [|e es]; [by apply not_elem_of_nil in Hf|].
  apply own_Some in Hown. exists (snd e, fst <$> e :: es). split.
  - unfold groups. apply (list_elem_of_fmap_2 snd _ _ Hown).
  - apply (list_elem_of_fmap_2 fst _ _ Hf).
Qed.

(** *** What a process holds *)

Definition ids_of (flights : list (nat * Row)) : list string := (fun f => row_id (snd f)) <$> flights.

Definition sane (made : nat) (s : Sending) : Prop :=
  publishing s = ids_of (inflight s) /\
  NoDup (sent s ++ publishing s) /\
  NoDup (fst <$> inflight s) /\
  Forall (fun f => (fst f < made)%nat) (inflight s) /\
  (length (inflight s) <= INFLIGHT)%nat /\
  (length (sent s) + length (inflight s) < PUBLISHED + INFLIGHT)%nat.

Definition well (p : process) : Prop :=
  map_Forall (fun _ s => sane (promises p) s) (sending p).

Lemma INFLIGHT_positive : (0 < INFLIGHT)%nat.
Proof. apply Nat.ltb_lt. vm_compute. reflexivity. Qed.

Lemma sane_start n : sane n (mkSending [] [] []).
Proof.
  pose proof INFLIGHT_positive. unfold sane; simpl. split_and!; try constructor; lia.
Qed.

Lemma sane_le n m s : (n <= m)%nat -> sane n s -> sane m s.
Proof.
  intros Hle (H1 & H2 & H3 & H4 & H5 & H6). repeat split; try done.
  eapply Forall_impl; [exact H4|]. simpl. lia.
Qed.

Lemma due_Some p r d :
  due p r d = true -> exists s, sending p !! d = Some s /\
    d ∈ outstanding r /\ row_id r ∉ sent s /\ row_id r ∉ publishing s.
Proof.
  unfold due. rewrite andb_true_iff, bool_decide_eq_true. intros [Ho Hd].
  destruct (sending p !! d) as [s|]; [|done].
  rewrite andb_true_iff, !bool_decide_eq_true in Hd. naive_solver.
Qed.

Lemma sane_send n r s :
  sane n s -> row_id r ∉ sent s -> row_id r ∉ publishing s ->
  (length (inflight s) < INFLIGHT)%nat -> (length (sent s) < PUBLISHED)%nat ->
  sane (S n) (mkSending (sent s) (inflight s ++ [(n, r)]) (add (row_id r) (publishing s))).
Proof.
  intros (Hp & Hnd & Hf & Hlt & Hi & Hs) Hrs Hrp Hci Hcs. unfold sane; cbn [sent inflight publishing].
  unfold add. rewrite decide_False by done. repeat split.
  - unfold ids_of. rewrite fmap_app. by rewrite Hp.
  - rewrite app_assoc. apply NoDup_app. split; [done|]. split; [|apply NoDup_singleton]. set_solver.
  - rewrite fmap_app. apply NoDup_app. split; [done|]. split; [|apply NoDup_singleton].
    intros m (f & -> & Hfi)%list_elem_of_fmap. simpl. rewrite list_elem_of_singleton.
    rewrite Forall_forall in Hlt. specialize (Hlt f Hfi). lia.
  - apply Forall_app. split; [|by repeat constructor; simpl; lia].
    eapply Forall_impl; [exact Hlt|]. simpl. lia.
  - rewrite length_app. cbn [length]. lia.
  - rewrite length_app. cbn [length]. lia.
Qed.

Lemma send_well r p d : well p -> due p r d = true -> well (send r p d).
Proof.
  intros Hw (s & Hs & _ & Hrs & Hrp)%due_Some. unfold send. rewrite Hs.
  destruct (INFLIGHT <=? _)%nat eqn:Hi; [done|]. destruct (PUBLISHED <=? _)%nat eqn:Hc; [done|].
  apply Nat.leb_gt in Hi, Hc. simpl. unfold well; simpl. apply map_Forall_insert_2.
  - apply sane_send; auto. by apply (Hw d).
  - intros d' s' Hs'. eapply sane_le; [|by apply (Hw d')]. lia.
Qed.

(** what a publication keeps of a process *)
Definition publishes (p p' : process) : Prop :=
  destinations p' = destinations p /\ pump p' = pump p /\ closing_groups p' = closing_groups p /\
  closing p' = closing p /\ (forall d, sent_to p' d = sent_to p d) /\ (well p -> well p').

Lemma publishes_refl p : publishes p p.
Proof. unfold publishes; split_and!; auto. Qed.

Lemma publishes_trans p q s : publishes p q -> publishes q s -> publishes p s.
Proof.
  intros (? & ? & ? & ? & Hd & ?) (? & ? & ? & ? & Hd' & ?). unfold publishes; split_and!; try congruence; auto.
Qed.

Lemma send_publishes r p d : due p r d = true -> publishes p (send r p d).
Proof.
  intros Hd. assert (well p -> well (send r p d)) as Hw by (intros; by apply send_well).
  unfold send in *. destruct (sending p !! d) as [s|] eqn:Hs; [|apply publishes_refl].
  destruct (_ || _); [apply publishes_refl|]. unfold publishes; split_and!; auto.
  intros d'. unfold sent_to; simpl. destruct (decide (d = d')) as [<-|Hne].
  - by rewrite lookup_insert_eq, Hs.
  - by rewrite lookup_insert_ne.
Qed.

Lemma publish_due_publishes p r : publishes p (publish_due p r).
Proof.
  unfold publish_due. generalize (destinations p). intros ds. revert p.
  induction ds as [|d ds IH]; intros p; simpl; [apply publishes_refl|].
  eapply publishes_trans; [|apply IH]. destruct (due p r d) eqn:Hd; [by apply send_publishes|].
  apply publishes_refl.
Qed.

Lemma publish_publishes defer p r : publishes p (publish defer p r).
Proof.
  unfold publish. destruct (_ || _); [apply publishes_refl | apply publish_due_publishes].
Qed.

Lemma publish_rows_publishes rs p : publishes p (foldl publish_due p rs).
Proof.
  revert p. induction rs as [|r rs IH]; intros p; simpl; [apply publishes_refl|].
  eapply publishes_trans; [apply publish_due_publishes | apply IH].
Qed.

(** removing one publication from those in flight *)
Lemma ids_of_filter n r flights :
  NoDup (fst <$> flights) -> NoDup (ids_of flights) -> (n, r) ∈ flights ->
  ids_of (filter (fun f => fst f <> n) flights) = delete (row_id r) (ids_of flights).
Proof.
  unfold delete. induction flights as [|[m q] fs IH]; [by intros _ _ ?%elem_of_nil|].
  unfold ids_of in *. rewrite !fmap_cons. cbn [fst snd].
  intros [Hm Hfs]%NoDup_cons [Hq Hids]%NoDup_cons [Heq | Hin]%elem_of_cons.
  - injection Heq as <- <-. rewrite filter_cons_False by (simpl; tauto).
    rewrite filter_cons_False by tauto.
    rewrite !list_filter_id; [done| |].
    + intros i Hi ->. done.
    + intros f Hf Heq. apply Hm. rewrite <- Heq. by apply list_elem_of_fmap_2.
  - rewrite filter_cons_True.
    2: { simpl. intros ->. apply Hm. by apply (list_elem_of_fmap_2 fst) in Hin. }
    rewrite filter_cons_True.
    2: { intros Heq. apply Hq. rewrite Heq.
         by apply (list_elem_of_fmap_2 (fun f => row_id (snd f))) in Hin. }
    rewrite fmap_cons. cbn [snd]. by rewrite IH.
Qed.

Lemma sane_settle_one n s landed m r :
  sane n s -> (m, r) ∈ inflight s -> sane n (settle_one landed m r s).
Proof.
  intros (Hp & Hnd & Hf & Hlt & Hi & Hs) Hin.
  pose proof Hnd as (Hsent & Hdis & Hpub)%NoDup_app.
  assert (row_id r ∈ publishing s) as Hrp.
  { rewrite Hp. by apply (list_elem_of_fmap_2 (fun f => row_id (snd f))) in Hin. }
  assert (row_id r ∉ sent s) as Hrs by set_solver.
  assert (S (length (filter (fun f => fst f <> m) (inflight s))) <= length (inflight s))%nat as Hlen.
  { apply list_elem_of_split in Hin as (l & k & ->). rewrite filter_app, !length_app.
    rewrite filter_cons_False by (simpl; tauto). cbn [length].
    pose proof (length_filter (fun f => fst f <> m) l).
    pose proof (length_filter (fun f => fst f <> m) k). lia. }
  unfold sane, settle_one; cbn [sent inflight publishing]. split_and!.
  - rewrite Hp in Hpub |- *. by rewrite (ids_of_filter m r).
  - apply NoDup_app. split_and!.
    + destruct landed; [by apply NoDup_add | done].
    + intros i Hi' [Hne Hip]%list_elem_of_filter.
      destruct landed; [apply elem_of_add in Hi' as [|]; [done|]|]; set_solver.
    + by apply NoDup_filter.
  - eapply sublist_NoDup; [exact Hf|]. apply fmap_sublist, sublist_filter.
  - apply Forall_forall. intros f [_ Hfi]%list_elem_of_filter. by apply (proj1 (Forall_forall _ _) Hlt).
  - lia.
  - unfold add. destruct landed; [|lia]. rewrite decide_False by done.
    rewrite length_app. cbn [length]. lia.
Qed.

Lemma well_sending p f :
  (forall d s, f (sending p) !! d = Some s -> sane (promises p) s) -> well (with_sending p f).
Proof. intros Hf d s Hs. by apply (Hf d). Qed.

Lemma emitted_well landed d n p : well p -> well (emitted landed d n p).
Proof.
  intros Hw. unfold emitted. destruct (sending p !! d) as [s|] eqn:Hs; [|done].
  destruct (list_find _ _) as [[k [m r]]|] eqn:Hf; [|done].
  apply list_find_Some in Hf as (Hk & Hm & _). simpl in Hm. subst m.
  apply well_sending. intros d' s' [[<- <-] | [_ Hs']]%lookup_insert_Some; [|by apply (Hw d')].
  apply sane_settle_one; [by apply (Hw d)|]. by eapply list_elem_of_lookup_2.
Qed.

(** what was confirmed is what was in flight *)
Lemma emitted_sent_to landed d n p d' i :
  i ∈ sent_to (emitted landed d n p) d' ->
  i ∈ sent_to p d' \/
  landed = true /\ d' = d /\ exists s r, sending p !! d = Some s /\ (n, r) ∈ inflight s /\ i = row_id r.
Proof.
  unfold emitted, sent_to. destruct (sending p !! d) as [s|] eqn:Hs; [|by left].
  destruct (list_find _ _) as [[k [m r]]|] eqn:Hf; [|by left].
  apply list_find_Some in Hf as (Hk & Hm & _). simpl in Hm. subst m. simpl.
  destruct (decide (d = d')) as [<-|Hne]; [|rewrite lookup_insert_ne by done; by left].
  rewrite lookup_insert_eq, Hs. unfold settle_one; simpl. destruct landed; [|by left].
  intros [-> | ?]%elem_of_add; [|by left]. right. split_and!; [done..|].
  exists s, r. split_and!; [done| |done]. by eapply list_elem_of_lookup_2.
Qed.

Lemma forget_idemp ids s : forget ids (forget ids s) = forget ids s.
Proof.
  unfold forget; simpl. f_equal. rewrite !foldl_delete. apply list_filter_id.
  intros i [? _]%list_elem_of_filter. done.
Qed.

Lemma forget_sane n ids s : sane n s -> sane n (forget ids s).
Proof.
  intros (Hp & Hnd & Hf & Hlt & Hi & Hs). unfold sane, forget; cbn [sent inflight publishing].
  rewrite foldl_delete. split_and!; try done.
  - eapply sublist_NoDup; [exact Hnd|]. by apply sublist_app; [apply sublist_filter|].
  - pose proof (length_filter (fun y => y ∉ ids) (sent s)). lia.
Qed.

Lemma settled_sending g p d :
  sending (settled g p) !! d =
    (if decide (d ∈ fst g) then forget (snd g) else fun s => s) <$> sending p !! d.
Proof.
  unfold settled; simpl. generalize (sending p). destruct g as [names ids]; simpl.
  induction names as [|name names IH]; intros m; simpl.
  { symmetry. by destruct (m !! d). }
  rewrite IH. destruct (decide (d = name)) as [->|Hne].
  - rewrite lookup_alter_eq. destruct (decide (name ∈ name :: names)) as [_|Hn]; [|set_solver].
    destruct (m !! name) as [s|]; simpl; [|done]. case_decide; [|done]. by rewrite forget_idemp.
  - rewrite lookup_alter_ne by done.
    destruct (decide (d ∈ names)), (decide (d ∈ name :: names)); set_solver.
Qed.

Lemma settled_well g p : well p -> well (settled g p).
Proof.
  intros Hw d s Hs. rewrite settled_sending in Hs.
  destruct (sending p !! d) as [s'|] eqn:Hs'; [|done]. injection Hs as <-.
  specialize (Hw d s' Hs'). case_decide; [by apply forget_sane | done].
Qed.

Lemma settled_sent_to g p d i :
  i ∈ sent_to (settled g p) d <-> i ∈ sent_to p d /\ ~ (d ∈ fst g /\ i ∈ snd g).
Proof.
  unfold sent_to. rewrite settled_sending. destruct (sending p !! d) as [s|]; simpl; [|set_solver].
  case_decide; simpl; [rewrite foldl_delete, list_elem_of_filter|]; set_solver.
Qed.

(** *** What a process knows was delivered *)

Section honest.
Context (delivered : list (string * string)).

Definition confirmed (g : group) : Prop :=
  forall d i, d ∈ fst g -> i ∈ snd g -> (d, i) ∈ delivered.

Definition left_to_mark (p : process) : list group :=
  (match pump p with Marking gs => gs | _ => [] end) ++ closing_groups p.

Definition honest (p : process) : Prop :=
  Forall named (destinations p) /\ well p /\
  (forall d i, i ∈ sent_to p d -> (d, i) ∈ delivered) /\
  Forall confirmed (left_to_mark p).

Lemma well_sent_NoDup p : well p -> forall name, NoDup (sent_to p name).
Proof.
  intros Hw name. unfold sent_to. destruct (sending p !! name) as [s|] eqn:Hs; [|constructor].
  destruct (Hw name s Hs) as (_ & Hnd & _). by apply NoDup_app in Hnd as [? _].
Qed.

Lemma groups_confirmed p : honest p -> Forall confirmed (groups p).
Proof.
  intros (Hn & Hw & Hd & _). apply Forall_forall. intros g Hg d i Hdg Hig.
  apply groups_elem in Hg as (_ & _ & Hids & _); [|by apply well_sent_NoDup|done].
  apply Hids in Hig. rewrite <- Hig in Hdg.
  apply list_elem_of_filter in Hdg as [Hs _]. by apply Hd.
Qed.

Lemma honest_publishes p p' : publishes p p' -> honest p -> honest p'.
Proof.
  intros (Hds & Hp & Hc & _ & Hs & Hw) (? & ? & Hd & Hg). unfold honest, left_to_mark in *.
  rewrite Hds, Hp, Hc. split_and!; auto. intros d i. rewrite Hs. apply Hd.
Qed.

(** the pump moved to a phase that marks only what is confirmed *)
Lemma honest_pump p ph :
  (forall gs, ph = Marking gs -> Forall confirmed gs) -> honest p -> honest (with_pump p ph).
Proof.
  intros Hph (? & ? & ? & Hg). unfold honest, left_to_mark in *. split_and!; try done.
  apply Forall_app in Hg as [_ Hc]. apply Forall_app. split; [|done]. simpl.
  destruct ph; try constructor. by apply Hph.
Qed.

Lemma honest_tick slots p : honest p -> honest (tick slots p).
Proof.
  intros Hp. unfold tick. destruct (pump p); try done. by apply honest_pump.
Qed.

Lemma honest_awaited p : honest p -> honest (awaited p).
Proof.
  intros Hp. unfold awaited. destruct (pump p) as [| |[]|]; try done; apply honest_pump; try done.
  intros gs [= <-]. by apply groups_confirmed.
Qed.

Lemma honest_paged batch page p : honest p -> honest (paged batch page p).
Proof.
  intros Hp. unfold paged. destruct (last page) as [r|]; apply honest_pump; try done.
  - eapply honest_publishes; [apply publish_rows_publishes | done].
  - intros gs [= <-]. by apply groups_confirmed.
Qed.

Lemma honest_settled g p : honest p -> honest (settled g p).
Proof.
  intros (? & ? & Hd & ?). unfold honest. split_and!; try done; [by apply settled_well|].
  intros d i [Hi _]%settled_sent_to. by apply Hd.
Qed.

Lemma honest_marked answered p : honest p -> honest (marked answered p).
Proof.
  intros Hp. unfold marked. pose proof Hp as (_ & _ & _ & Hg). unfold left_to_mark in Hg.
  destruct (pump p) as [| | |[|g gs]]; try done; apply honest_pump; try done.
  - intros gs' Hgs. apply Forall_app in Hg as [Hg _]. inversion Hg; subst.
    destruct gs; [done|]. by injection Hgs as <-.
  - destruct answered; [by apply honest_settled | done].
Qed.

Lemma honest_drained p : honest p -> honest (drained p).
Proof.
  intros Hp. pose proof (groups_confirmed p Hp) as Hgs. destruct Hp as (? & ? & ? & Hg).
  unfold honest, left_to_mark in *. split_and!; try done. simpl.
  apply Forall_app in Hg as [Hg _]. by apply Forall_app.
Qed.

Lemma honest_closed answered p : honest p -> honest (closed answered p).
Proof.
  intros Hp. unfold closed. destruct (closing_groups p) as [|g gs] eqn:Hc; [done|].
  assert (honest (if answered then settled g p else p)) as (? & ? & ? & Hg).
  { destruct answered; [by apply honest_settled | done]. }
  assert (closing_groups (if answered then settled g p else p) = g :: gs) as Hc'.
  { by destruct answered. }
  unfold honest, left_to_mark in *. rewrite Hc' in Hg. split_and!; try done. simpl.
  apply Forall_app in Hg as [Hg Hcg]. inversion Hcg; subst. by apply Forall_app.
Qed.

Lemma honest_start names : Forall named names -> honest (start names).
Proof.
  intros Hn.
  assert (forall d s, sending (start names) !! d = Some s -> s = mkSending [] [] []) as Hs.
  { intros d s Hs%elem_of_list_to_map_2. by apply list_elem_of_fmap in Hs as (name & [= _ ->] & _). }
  unfold honest. split_and!; try done.
  - intros d s ->%Hs. apply sane_start.
  - intros d i. unfold sent_to. destruct (sending (start names) !! d) as [s|] eqn:Hd.
    + apply Hs in Hd as ->. by intros ?%elem_of_nil.
    + by intros ?%elem_of_nil.
Qed.
End honest.

(** *** The replicas together *)

Lemma honest_mono (l l' : list (string * string)) p : (forall x, x ∈ l -> x ∈ l') -> honest l p -> honest l' p.
Proof.
  intros Hl (? & ? & Hd & Hg). unfold honest. split_and!; auto.
  eapply Forall_impl; [exact Hg|]. intros g Hc d i ? ?. auto.
Qed.

Lemma honest_emitted l (landed : bool) d n p s r :
  sending p !! d = Some s -> (n, r) ∈ inflight s ->
  honest l p -> honest (if landed then (d, row_id r) :: l else l) (emitted landed d n p).
Proof.
  intros Hs Hin (Hn & Hw & Hd & Hg).
  assert (destinations (emitted landed d n p) = destinations p /\
    left_to_mark (emitted landed d n p) = left_to_mark p) as [Hds Hl].
  { unfold emitted. destruct (sending p !! d) as [x|]; [|done].
    by destruct (list_find _ _) as [[? [? ?]]|]. }
  unfold honest. rewrite Hds, Hl. split_and!; [done|by apply emitted_well| |].
  - intros d' i [Hi | (-> & -> & s' & r' & Hs' & Hin' & ->)]%emitted_sent_to.
    + destruct landed; [apply elem_of_cons; right|]; by apply Hd.
    + rewrite Hs in Hs'. injection Hs' as <-.
      destruct (Hw d s Hs) as (_ & _ & Hf & _).
      assert (r' = r) as -> by by eapply NoDup_keys_inj. set_solver.
  - eapply Forall_impl; [exact Hg|]. intros g Hc d' i ? ?.
    destruct landed; [apply elem_of_cons; right|]; by apply Hc.
Qed.

Lemma honest_failed l d n p : honest l p -> honest l (emitted false d n p).
Proof.
  intros Hp. unfold emitted. destruct (sending p !! d) as [s|] eqn:Hs; [|done].
  destruct (list_find _ _) as [[k [m r]]|] eqn:Hf; [|done].
  pose proof Hf as (Hk & Hm & _)%list_find_Some. simpl in Hm. subst m.
  pose proof (honest_emitted l false d n p s r Hs (list_elem_of_lookup_2 _ _ _ Hk) Hp) as He.
  unfold emitted in He. by rewrite Hs, Hf in He.
Qed.

(** a row as it is stored: what it was written for is still outstanding, or was delivered *)
Definition kept (written : gmap string (list string)) (delivered : list (string * string))
    (id : string) (r : Row) : Prop :=
  row_id r = id /\
  exists ds, written !! id = Some ds /\
    (forall d, d ∈ ds -> d ∈ outstanding r \/ (d, id) ∈ delivered) /\
    (World.published r = true -> outstanding r = []).

Definition invariant (s : system) : Prop :=
  (forall i p, replicas s !! i = Some p -> honest (delivered s) p) /\
  map_Forall (kept (written s) (delivered s)) (rows s).

Lemma kept_mono w l l' id r : (forall x, x ∈ l -> x ∈ l') -> kept w l id r -> kept w l' id r.
Proof.
  intros Hl (? & ds & ? & Hd & ?). split; [done|]. exists ds. split_and!; [done| |done].
  intros d Hx. destruct (Hd d Hx); auto.
Qed.

Lemma take_out_kept w l id r (names ids : list string) :
  (forall d i, d ∈ names -> i ∈ ids -> (d, i) ∈ l) -> id ∈ ids ->
  kept w l id r -> kept w l id (Stored.take_out names r).
Proof.
  intros Hl Hid (? & ds & ? & Hd & ?). split; [done|]. exists ds. split_and!; [done| |].
  - intros d Hx. destruct (decide (d ∈ names)) as [Hn|Hn]; [right; by apply Hl|].
    destruct (Hd d Hx) as [Ho|]; [left; by apply list_elem_of_filter | by right].
  - simpl. by intros ?%bool_decide_eq_true.
Qed.

Lemma invariant_put i p s : honest (delivered s) p -> invariant s -> invariant (put i p s).
Proof.
  intros Hp [Hr Hk]. split; [|done]. simpl.
  intros j q [[<- <-] | [_ Hq]]%lookup_insert_Some; [done | by apply (Hr j)].
Qed.

Lemma invariant_settle how g s :
  (forall g', g = Some g' -> confirmed (delivered s) g') ->
  invariant s -> invariant (settle_rows how g s).
Proof.
  intros Hg Hi. destruct how, g as [[names ids]|]; try done.
  all: destruct Hi as [Hr Hk]; split; [done|]; simpl.
  all: intros id r Hs; unfold Stored.settle in Hs.
  all: rewrite map_lookup_imap in Hs; destruct (rows s !! id) as [q|] eqn:Hq; [|done].
  all: injection Hs as <-; case_decide; [|by apply Hk].
  all: apply (take_out_kept _ _ _ _ _ ids); [by apply (Hg (names, ids))|done|by apply Hk].
Qed.

Lemma settle_rows_same how g s :
  replicas (settle_rows how g s) = replicas s /\ delivered (settle_rows how g s) = delivered s.
Proof. by destruct how, g. Qed.

Lemma step_invariant batch s s' : invariant s -> step batch s s' -> invariant s'.
Proof.
  intros Hi Hstep. pose proof Hi as [Hr Hk].
  destruct Hstep as [s i names Hn | s i p r Hp Hnone Hw Ho Hpub | s i p r defer Hp Hw
    | s i p slots Hp | s i p lanes now after Hp _ | s i p after Hp _ | s i p Hp
    | s i p d sends n r Hp Hs Hin | s i p d n Hp | s i p how Hp | s i p Hp | s i p Hp _ | s i p how Hp];
    try specialize (Hr i p Hp).
  - apply invariant_put; [by apply honest_start | done].
  - split; [exact (proj1 Hi)|]. simpl. apply map_Forall_insert_2.
    + split; [done|]. exists (outstanding r). rewrite lookup_insert_eq. split_and!; [done| |].
      * intros d ?. by left.
      * by rewrite Hpub.
    + intros id q Hq. destruct (Hk id q Hq) as (Hid & ds & Hds & ? & ?). split; [done|].
      exists ds. rewrite lookup_insert_ne; [done|]. intros Heq. rewrite Heq in *. congruence.
  - apply invariant_put; [|done]. eapply honest_publishes; [apply publish_publishes | done].
  - apply invariant_put; [by apply honest_tick | done].
  - apply invariant_put; [by apply honest_paged | done].
  - apply invariant_put; [by apply honest_paged | done].
  - apply invariant_put; [by apply honest_awaited | done].
  - assert (forall x, x ∈ delivered s -> x ∈ (d, row_id r) :: delivered s) as Hl by set_solver.
    split; simpl.
    + intros j q [[<- <-] | [_ Hq]]%lookup_insert_Some.
      * by apply (honest_emitted _ true _ _ _ sends).
      * eapply honest_mono; [exact Hl|]. by destruct Hi as [Hall _]; apply (Hall j).
    + intros id q Hq. eapply kept_mono; [exact Hl | by apply Hk].
  - apply invariant_put; [by apply honest_failed | done].
  - destruct (settle_rows_same how (current_group p) s) as [_ Hd].
    apply invariant_put.
    + rewrite Hd. by apply honest_marked.
    + apply invariant_settle; [|done]. intros g Hg. destruct Hr as (_ & _ & _ & Hl).
      unfold current_group, left_to_mark in *. destruct (pump p) as [| | |[|g' gs]]; try done.
      injection Hg as ->. by inversion Hl; subst.
  - apply invariant_put; [|done]. done.
  - apply invariant_put; [by apply honest_drained | done].
  - destruct (settle_rows_same how (head (closing_groups p)) s) as [_ Hd].
    apply invariant_put.
    + rewrite Hd. by apply honest_closed.
    + apply invariant_settle; [|done]. intros g Hg. destruct Hr as (_ & _ & _ & Hl).
      unfold left_to_mark in Hl. apply Forall_app in Hl as [_ Hl].
      destruct (closing_groups p) as [|g' gs]; [done|]. injection Hg as ->. by inversion Hl; subst.
Qed.

Lemma reachable_invariant batch s : reachable batch s -> invariant s.
Proof.
  induction 1 as [s (Hr & Hrows & _ & _)|s s' _ IH Hs].
  - split; [by rewrite Hr|]. rewrite Hrows. apply map_Forall_empty.
  - by eapply step_invariant.
Qed.

(** *** Pages *)

Definition strictly (a b : string * Row) : Prop := String.le (fst a) (fst b) /\ fst a <> fst b.

Lemma strictly_sorted l :
  NoDup (fst <$> l) -> StronglySorted Stored.precedes l -> StronglySorted strictly l.
Proof.
  induction l as [|a l IH]; intros Hnd Hs; [constructor|].
  rewrite fmap_cons in Hnd. apply NoDup_cons in Hnd as [Ha Hnd].
  apply StronglySorted_cons in Hs as [Hf Hs]. apply StronglySorted_cons. split; [|by apply IH].
  rewrite Forall_forall in *. intros b Hb. split; [by apply Hf|].
  intros Heq. apply Ha. rewrite Heq. by apply list_elem_of_fmap_2.
Qed.

Lemma StronglySorted_filter {A} (R : relation A) (P : A -> Prop) `{forall x, Decision (P x)} l :
  StronglySorted R l -> StronglySorted R (filter P l).
Proof.
  induction 1 as [|a l Hs IH Hf]; [constructor|]. rewrite filter_cons. case_decide; [|done].
  apply StronglySorted_cons. split; [|done]. rewrite Forall_forall in *.
  intros b [_ Hb]%list_elem_of_filter. by apply Hf.
Qed.

Lemma outstanding_sorted lanes now rows :
  StronglySorted strictly (Stored.outstanding_rows lanes now rows).
Proof.
  apply StronglySorted_filter, strictly_sorted.
  - unfold Stored.in_order. rewrite merge_sort_Permutation. apply NoDup_fst_map_to_list.
  - unfold Stored.in_order. apply StronglySorted_merge_sort.
    + intros a b c. unfold Stored.precedes. by etrans.
    + intros a b. apply String.le_total.
Qed.

Lemma after_suffix l x k :
  StronglySorted strictly (l ++ x :: k) ->
  filter (fun e => Stored.after_id (Some (fst x)) e) (l ++ x :: k) = k.
Proof.
  intros (Hlt & _ & [Hx _]%StronglySorted_cons)%StronglySorted_app.
  assert (forall e, Stored.after_id (Some (fst x)) e <-> strictly x e) as Haf.
  { intros e. simpl. unfold strictly. rewrite andb_True, !bool_decide_spec. naive_solver. }
  rewrite filter_app, filter_cons_False.
  2: { rewrite Haf. intros [_ ?]. done. }
  rewrite (list_filter_id _ k).
  2: { intros e He. apply Haf. rewrite Forall_forall in Hx. by apply Hx. }
  assert (filter (fun e => Stored.after_id (Some (fst x)) e) l = []) as ->; [|done].
  apply list_filter_none. intros e He Hxe%Haf.
  destruct (Hlt e x He) as [Hle Hne]; [set_solver|]. destruct Hxe as [Hle' _].
  apply Hne. by apply (anti_symm String.le).
Qed.

Lemma pages_suffix fuel lanes now batch after rows pre k :
  (0 < batch)%nat ->
  Stored.outstanding_rows lanes now rows = pre ++ k ->
  filter (fun e => Stored.after_id after e) (Stored.outstanding_rows lanes now rows) = k ->
  (length k < fuel)%nat ->
  mjoin (pages fuel lanes now batch after rows) = k.
Proof.
  intros Hb. revert after pre k. induction fuel as [|fuel IH]; intros after pre k Hl Hf Hlen; [lia|].
  cbn [pages]. unfold Stored.pending. rewrite Hf. destruct batch as [|b]; [lia|].
  set (page := take (S b) k) in *.
  destruct (last page) as [x|] eqn:Hlast.
  - apply last_Some in Hlast as (page' & Hpage). fold page.
    match goal with |- mjoin (?a :: ?l) = _ => change (a ++ mjoin l = k) end.
    assert (k = page ++ drop (S b) k) as Hk by (unfold page; by rewrite take_drop).
    destruct (Nat.eqb_spec (length page) (S b)) as [Hfull|Hshort].
    + rewrite (IH (Some (fst x)) (pre ++ page) (drop (S b) k)); [done| | |].
      * rewrite <- app_assoc. by rewrite <- Hk.
      * rewrite Hl, Hk at 1. rewrite Hpage. rewrite <- app_assoc, app_assoc. simpl.
        apply after_suffix. rewrite <- app_assoc. simpl.
        pose proof (outstanding_sorted lanes now rows) as Hs.
        rewrite Hl, Hk, Hpage, <- app_assoc in Hs. exact Hs.
      * rewrite length_drop. unfold page in Hfull. rewrite length_take in Hfull. lia.
    + unfold page in *. rewrite length_take in Hshort. rewrite app_nil_r. apply take_ge. lia.
  - apply last_None in Hlast. unfold page in Hlast. by destruct k.
Qed.

(** *** The outbox, as [State] uses one *)

Section outbox.
Context {DB : Type} (p : platform).
Context (slots : option (list Z)) (hops : option (list string)) (names : list string) (g : Z).

#[export] Instance outbox : Scope.Outbox DB := {
  o_row := row p slots hops names g;
  (* a process that is not closing hands the row to [#publish], and answers at once *)
  o_publish := hand
}.

Lemma quiet_choose_lane : quiet (DB:=DB) (choose_lane p slots).
Proof. unfold choose_lane. destruct slots as [[|n ns]|]; quiet. Qed.

Lemma row_fields e w w' r :
  row (DB:=DB) p slots hops names g e w = (w', Ok r) ->
  row_id r = ids p (minted w) /\ World.published r = false /\ outstanding r = names /\
  row_trail r = hops /\ World.event r = e /\ World.pending r = readings p (read w) + g.
Proof.
  unfold row, choose_lane. destruct slots as [[|n ns]|]; cbn; by intros [= _ <-].
Qed.

#[export] Instance outbox_lawful : LawfulOutbox outbox.
Proof.
  split.
  - intros e. simpl. unfold row. pose proof quiet_choose_lane. quiet.
  - intros e w w' r Hr. by apply row_fields in Hr as (_ & _ & _ & _ & ? & _).
  - done.
Qed.

(** a lane the replica owns, where it owns one, and one of all the lanes otherwise *)
Lemma choose_lane_spec (w w' : world DB) n :
  choose_lane p slots w = (w', Ok n) ->
  match slots with
  | None | Some [] => 0 <= n < LANES
  | Some owned => n ∈ owned
  end.
Proof.
  unfold choose_lane. destruct slots as [[|l ls]|].
  1, 3: cbn; unfold LANES; intros [= _ <-]; by apply Z.mod_pos_bound.
  intros (w1 & i & Hi & Hn)%bind_M_Ok. unfold random in Hi. injection Hi as _ Hi.
  injection Hn as _ <-.
  assert (0 <= i < Z.of_nat (length (l :: ls)))%Z.
  { rewrite <- Hi. apply Z.mod_pos_bound. simpl. lia. }
  destruct (lookup_lt_is_Some_2 (l :: ls) (Z.to_nat i)) as [x Hx]; [lia|].
  rewrite Hx. eapply list_elem_of_lookup_2, Hx.
Qed.
End outbox.

(** *** One destination and the others *)

Lemma send_other r p d d' : d <> d' -> sending (send r p d') !! d = sending p !! d.
Proof.
  intros Hne. unfold send. destruct (sending p !! d') as [s|]; [|done].
  destruct (_ || _); [done|]. simpl. by rewrite lookup_insert_ne.
Qed.

Lemma send_started r p d s :
  sending p !! d = Some s ->
  (length (inflight s) < INFLIGHT)%nat -> (length (sent s) < PUBLISHED)%nat ->
  sending (send r p d) !! d =
    Some (mkSending (sent s) (inflight s ++ [(promises p, r)]) (add (row_id r) (publishing s))).
Proof.
  intros Hs Hi Hc. unfold send. rewrite Hs.
  rewrite (proj2 (Nat.leb_gt _ _) Hi), (proj2 (Nat.leb_gt _ _) Hc). simpl. apply lookup_insert_eq.
Qed.

(** the sends of a row to some of the destinations *)
Definition sends (r : Row) (names : list string) (p : process) : process :=
  foldl (fun p name => if due p r name then send r p name else p) p names.

Lemma sends_keep r names p d s :
  sending p !! d = Some s -> row_id r ∈ publishing s ->
  sending (sends r names p) !! d = Some s.
Proof.
  intros Hs Hr. revert p Hs. induction names as [|name names IH]; intros p Hs; simpl; [done|].
  apply IH. destruct (due p r name) eqn:Hd; [|done].
  destruct (decide (d = name)) as [<-|Hne]; [|by rewrite send_other].
  apply due_Some in Hd as (s' & Hs' & _ & _ & Hn). naive_solver.
Qed.

Lemma sends_start r names p d s :
  due p r d = true -> sending p !! d = Some s -> d ∈ names ->
  (length (inflight s) < INFLIGHT)%nat -> (length (sent s) < PUBLISHED)%nat ->
  exists n, sending (sends r names p) !! d =
    Some (mkSending (sent s) (inflight s ++ [(n, r)]) (add (row_id r) (publishing s))).
Proof.
  intros Hd Hs Hin Hi Hc. revert p Hd Hs. induction names as [|name names IH]; intros p Hd Hs;
    [by apply elem_of_nil in Hin|].
  simpl. destruct (decide (d = name)) as [<-|Hne].
  - rewrite Hd. exists (promises p). apply sends_keep; [by apply send_started|].
    apply elem_of_add. by left.
  - apply IH; [set_solver| |].
    + destruct (due p r name); [|done]. unfold due. rewrite send_other by done. exact Hd.
    + destruct (due p r name); [by rewrite send_other | done].
Qed.

(** ** Properties *)

(** C1: No committed change is lost, and none is settled before its time: whatever the replicas of a
    component do, crash or restart, each destination a row was written for is either still
    outstanding for it or has confirmed it, and a row marked published was confirmed by all. *)
Theorem published_was_confirmed batch s id r ds :
  reachable batch s -> rows s !! id = Some r -> written s !! id = Some ds ->
  (forall d, d ∈ ds -> d ∈ outstanding r \/ (d, id) ∈ delivered s) /\
  (World.published r = true -> forall d, d ∈ ds -> (d, id) ∈ delivered s).
Proof.
  intros Hs Hr Hw. apply reachable_invariant in Hs as [_ Hk].
  destruct (Hk id r Hr) as (_ & ds' & Hds & Hd & Hp). rewrite Hw in Hds. injection Hds as <-.
  split; [done|]. intros Hpub d Hin. destruct (Hd d Hin) as [Ho|]; [|done].
  rewrite (Hp Hpub) in Ho. by apply elem_of_nil in Ho.
Qed.

(** C16: A process never has two publications of one row to one destination in flight, nor one of a
    row it holds as sent, and neither what is in flight nor what is held grows past its cap. *)
Theorem in_flight_once batch s i p d sends :
  reachable batch s -> replicas s !! i = Some p -> sending p !! d = Some sends ->
  NoDup (sent sends ++ ids_of (inflight sends)) /\
  (length (inflight sends) <= INFLIGHT)%nat /\
  (length (sent sends) < PUBLISHED + INFLIGHT)%nat.
Proof.
  intros Hs Hp Hd. apply reachable_invariant in Hs as [Hr _].
  destruct (Hr i p Hp) as (_ & Hw & _).
  destruct (Hw d sends Hd) as (Hpub & Hnd & _ & _ & Hi & Hc). rewrite Hpub in Hnd.
  split; [done|]. split; [done | lia].
Qed.

(** Marking settles each row once, for just the destinations it was sent to: every id a process
    holds as sent is in one group and no other, whose destinations are those it was sent to. *)
Theorem groups_partition batch s i p id name :
  reachable batch s -> replicas s !! i = Some p ->
  name ∈ destinations p -> id ∈ sent_to p name ->
  exists g, g ∈ groups p /\ id ∈ snd g /\
    (forall d, d ∈ fst g <-> d ∈ destinations p /\ id ∈ sent_to p d) /\
    (forall g', g' ∈ groups p -> id ∈ snd g' -> g' = g).
Proof.
  intros Hs Hp Hname Hid. apply reachable_invariant in Hs as [Hr _].
  destruct (Hr i p Hp) as (Hn & Hw & _). pose proof (well_sent_NoDup p Hw) as Hsent.
  assert (forall d, d ∈ completing p (held p) id <-> d ∈ destinations p /\ id ∈ sent_to p d) as Hc.
  { intros d. unfold completing. rewrite list_elem_of_filter. rewrite (proj2 (held_spec p)). tauto. }
  destruct (groups_cover p id Hsent) as (g & Hg & Hin).
  { intros Hnil. apply (elem_of_nil name). rewrite <- Hnil. by apply Hc. }
  exists g. split; [done|]. split; [done|].
  destruct (groups_elem p g Hsent Hn Hg) as (_ & _ & Hids & Hown).
  pose proof (proj1 (Hids id) Hin) as Hfst. split; [by rewrite <- Hfst|].
  intros g' Hg' Hin'. destruct (groups_elem p g' Hsent Hn Hg') as (_ & _ & Hids' & Hown').
  rewrite <- (proj1 (Hids' id) Hin'), Hfst, Hown in Hown'. by injection Hown'.
Qed.

(** C21: A cycle leaves no due row unread: the pages it reads, one after the other and each once, are
    every row of its lanes that is due, in the order they were written, and then it ends. *)
Theorem pages_complete lanes now batch rows :
  (0 < batch)%nat ->
  let due := Stored.outstanding_rows lanes now rows in
  mjoin (pages (S (length due)) lanes now batch None rows) = due /\
  NoDup (fst <$> due) /\
  (forall id r, (id, r) ∈ due <->
    rows !! id = Some r /\ lane r ∈ lanes /\ World.published r = false /\ World.pending r <= now).
Proof.
  intros Hb due. split; [|split].
  - apply (pages_suffix _ _ _ _ _ _ []); [done|done| |lia]. apply list_filter_id. done.
  - eapply sublist_NoDup; [|apply fmap_sublist, sublist_filter].
    unfold Stored.in_order. rewrite merge_sort_Permutation. apply NoDup_fst_map_to_list.
  - intros id r. unfold due, Stored.outstanding_rows. rewrite list_elem_of_filter. simpl.
    unfold Stored.in_order. rewrite merge_sort_Permutation, elem_of_map_to_list. tauto.
Qed.

(** A destination delays nothing but itself: a row that is due at one whose caps are not reached
    is put in flight there by a publication, whatever the other destinations hold. *)
Theorem publish_isolated p r d s :
  d ∈ destinations p -> due p r d = true -> sending p !! d = Some s ->
  (length (inflight s) < INFLIGHT)%nat -> (length (sent s) < PUBLISHED)%nat ->
  exists n, sending (publish_due p r) !! d =
    Some (mkSending (sent s) (inflight s ++ [(n, r)]) (publishing s ++ [row_id r])).
Proof.
  intros Hin Hd Hs Hi Hc. pose proof Hd as (s' & Hs' & _ & _ & Hn)%due_Some.
  rewrite Hs in Hs'. injection Hs' as <-.
  destruct (sends_start r (destinations p) p d s) as (n & Hsend); [done..|].
  exists n. unfold publish_due. unfold sends, add in Hsend. by rewrite decide_False in Hsend.
Qed.

(** ** A component with one replica and two destinations *)

Module Example_.
Definition change : Event := mkEvent None None None VUndefined.
Definition first : Row := mkRow "1" 0 false 10 ["events"; "index"] None None change.

Definition p1 : process := start ["events"; "index"].
Definition p2 : process := publish false p1 first.
Definition p3 : process := emitted true "events" 0 p2.
Definition p4 : process := emitted true "index" 1 p3.
Definition p5 : process := tick (Some [0]) p4.
Definition p6 : process := paged 2 [] p5.
Definition p7 : process := marked true p6.

Definition none : system := mkSystem ∅ ∅ ∅ [].
Definition s1 : system := put 0 p1 none.
Definition s2 : system :=
  mkSystem (replicas s1) (<["1" := first]> (rows s1)) (<["1" := outstanding first]> (written s1)) [].
Definition s3 : system := put 0 p2 s2.
Definition s4 : system := mkSystem (<[0%nat := p3]> (replicas s3)) (rows s3) (written s3) [("events", "1")].
Definition s5 : system :=
  mkSystem (<[0%nat := p4]> (replicas s4)) (rows s4) (written s4) [("index", "1"); ("events", "1")].
Definition s6 : system := put 0 p5 s5.
Definition s7 : system := put 0 p6 s6.
Definition s8 : system := put 0 p7 (settle_rows Answered (current_group p6) s7).

Lemma named_events : Forall named ["events"; "index"].
Proof. repeat constructor; unfold named; apply (bool_decide_unpack _); vm_compute; exact I. Qed.

Lemma reached_sent : reachable 2 s5.
Proof.
  apply (reachable_step 2 s4).
  2: { apply (step_landed 2 s4 0 p3 "index" (mkSending [] [(1%nat, first)] ["1"]) 1 first);
       [vm_compute; reflexivity..|]. by apply list_elem_of_singleton. }
  apply (reachable_step 2 s3).
  2: { apply (step_landed 2 s3 0 p2 "events" (mkSending [] [(0%nat, first)] ["1"]) 0 first);
       [vm_compute; reflexivity..|]. by apply list_elem_of_singleton. }
  apply (reachable_step 2 s2).
  2: { apply (step_publish 2 s2 0 p1 first false); vm_compute; reflexivity. }
  apply (reachable_step 2 s1).
  2: { apply (step_commit 2 s1 0 p1 first); vm_compute; reflexivity. }
  apply (reachable_step 2 none); [by apply reachable_initial|].
  apply step_start, named_events.
Qed.

Lemma reached_settled : reachable 2 s8.
Proof.
  apply (reachable_step 2 s7).
  2: { apply (step_marked 2 s7 0 p6 Answered). vm_compute. reflexivity. }
  apply (reachable_step 2 s6).
  2: { apply (step_unread 2 s6 0 p5 None); vm_compute; reflexivity. }
  apply (reachable_step 2 s5); [exact reached_sent|].
  apply (step_tick 2 s5 0 p4 (Some [0])). vm_compute. reflexivity.
Qed.

(** the row, as it is stored in the end *)
Definition done_ : Row := mkRow "1" 0 true 10 [] None None change.

Lemma published_was_confirmed_witness :
  World.published done_ = true /\ forall d, d ∈ ["events"; "index"] -> (d, "1") ∈ delivered s8.
Proof.
  split; [reflexivity|].
  apply (published_was_confirmed 2 s8 "1" done_ ["events"; "index"]);
    [exact reached_settled | vm_compute; reflexivity..].
Defined.

Lemma in_flight_once_witness :
  let sends := mkSending ["1"] [] [] in
  sending p4 !! "index" = Some sends /\ NoDup (sent sends ++ ids_of (inflight sends)).
Proof.
  split; [vm_compute; reflexivity|].
  apply (in_flight_once 2 s5 0 p4 "index" (mkSending ["1"] [] []));
    [exact reached_sent | vm_compute; reflexivity..].
Defined.

Lemma groups_partition_witness :
  exists g : group, g ∈ groups p4 /\ row_id first ∈ snd g /\
    (forall d, d ∈ fst g <-> d ∈ destinations p4 /\ row_id first ∈ sent_to p4 d) /\
    (forall g' : group, g' ∈ groups p4 -> row_id first ∈ snd g' -> g' = g).
Proof.
  apply (groups_partition 2 s5 0 p4 "1" "events");
    [exact reached_sent | vm_compute; reflexivity | |];
    apply (bool_decide_unpack _); vm_compute; exact I.
Defined.

Lemma pages_complete_witness :
  (0 < 1)%nat /\ mjoin (pages 2 [0] 20 1 None (<["1" := first]> ∅)) = [("1", first)].
Proof.
  split; [lia|].
  destruct (pages_complete [0] 20 1 (<["1" := first]> ∅) ltac:(lia)) as [Hpages _].
  assert (Stored.outstanding_rows [0] 20 (<["1" := first]> ∅) = [("1", first)]) as Hrows.
  { vm_compute. reflexivity. }
  rewrite Hrows in Hpages. exact Hpages.
Defined.

Lemma publish_isolated_witness :
  exists n, sending (publish_due p1 first) !! "index" =
    Some (mkSending [] [(n, first)] ["1"]).
Proof.
  apply (publish_isolated p1 first "index" (mkSending [] [] []));
    [apply (bool_decide_unpack _); vm_compute; exact I | vm_compute; reflexivity..
    | apply Nat.ltb_lt; vm_compute; reflexivity | apply Nat.ltb_lt; vm_compute; reflexivity].
Defined.
End Example_.
