(* ===== verification/Counter.v ===== *)
(** * Counter

    A component of one transition, which counts, over the storage of [Memory] and the outbox of
    [Outbox]: what the theorems on operations say of it, call by call. *)
From S2P Require Import Prelude Exceptions Entities World Queries Scope Memory Operations Outbox.

Open Scope Z_scope.

(** ** The component *)

Definition clockwork : platform := mkPlatform (fun n => pretty n) Z.of_nat (fun _ => 0).

Definition schemas : Factory.t := Factory.mk accepts accepts ∅ None 1.

#[export] Instance storage : Storage collections :=
  Memory (fun _ _ => true) (fun _ rs => rs) (fun _ => []) (fun _ => Value VNull) (fun _ _ => false).

#[export] Instance storage_reads : LawfulReads collections := Memory_reads _ _ _ _ _.
#[export] Instance storage_inbox : LawfulInbox collections := Memory_inbox _ _ _ _ _.

Definition events : Scope.Outbox collections :=
  outbox clockwork (Some [3]) (Some ["default.counter.count"]) ["events"] 15000.

#[export] Instance events_lawful : LawfulOutbox events := outbox_lawful _ _ _ _ _.

Lemma only_events o : Some events = Some o -> LawfulOutbox o.
Proof. intros [= <-]. apply _. Qed.

Definition counted (r : record) : record :=
  assign r (mkPatch None None None None None None
    {["count" := match properties r !! "count" with
                 | Some (VNumber n) => VNumber (n + 1)
                 | _ => VNumber 1
                 end]}).

(** counts, and refuses the input that says to *)
Definition count_ (input : option value) (s : state) : M collections (state * made) :=
  match input, s with
  | Some (VString code), s => mret (s, Made None (Some (Plain_ (mkRefusal code None))))
  | _, OfObject r => mret (OfObject (counted r), Made (Some (Value (VBool true))) None)
  | _, s => mret (s, MadeNone)
  end.

Definition declaration : Definition_ := mkDefinition transition entry (Some "retry") Once.

Definition call_ (i : string) (input : option value) : Operations.Request :=
  mkRequest input None None false None (Some i) None None None None false true None.

Definition fresh : world collections := mkWorld (mkCollections ∅ ∅ []) 0 0 0 [].

Definition processed (request : Operations.Request) :=
  Operations.process clockwork schemas (Some events) false count_ (fun _ => Ok tt) false declaration
    request None fresh.

Definition after_first : world collections := fst (processed (call_ "call" None)).

Lemma count_quiet : algorithm_quiet count_.
Proof. intros input s. unfold count_. destruct input as [[]|], s; quiet. Qed.

Lemma count_innocent i : innocent count_ i.
Proof. intros input s. apply keeps_quiet, count_quiet. Qed.

Lemma one : of_one declaration.
Proof. done. Qed.

(** ** What the theorems say of it *)

Lemma first_made :
  processed (call_ "call" None) =
    (after_first, Ok (Answer (mkReply (Some (Value (VBool true))) None))).
Proof. vm_compute. reflexivity. Qed.

(** made once, and answered alike ever after *)
Lemma once_applies_once_witness :
  recorded (db after_first) "call" <> None /\
  forall input, serve clockwork schemas (Some events) false count_ (fun _ => Ok tt) false declaration
    (call_ "call" input) None after_first =
    (after_first, Ok (Answer (mkReply (Some (Value (VBool true))) None))).
Proof.
  split; [vm_compute; discriminate|]. intros input.
  destruct (once_applies_once clockwork schemas (Some events) false count_ (fun _ => Ok tt) false
    declaration only_events "call" (call_ "call" None) None fresh after_first
    (Answer (mkReply (Some (Value (VBool true))) None))
    one (count_innocent "call") eq_refl eq_refl eq_refl first_made) as [_ [Hn | [_ Hagain]]].
  - vm_compute in Hn. discriminate Hn.
  - apply (Hagain (call_ "call" input) None). reflexivity.
Defined.

(** the call another replica makes while the algorithm runs *)
Definition other_reply : Reply := mkReply (Some (Value (VNumber 7))) None.

Definition raced (input : option value) (s : state) : M collections (state * made) :=
  fun w => count_ input s
    (mkWorld (mkCollections (records (db w)) (<["call" := other_reply]> (calls (db w))) (Memory.rows (db w)))
       (minted w) (World.read w) (drawn w) (handed w)).

Definition race : world collections * result thrown reply :=
  Operations.process clockwork schemas (Some events) false raced (fun _ => Ok tt) false declaration
    (call_ "call" None) None fresh.

Lemma once_race_witness :
  serve clockwork schemas (Some events) false raced (fun _ => Ok tt) false declaration
    (call_ "call" None) None fresh = (fst race, Ok (Answer other_reply)).
Proof.
  rewrite (once_race clockwork schemas (Some events) false raced (fun _ => Ok tt) false declaration
    "call" (call_ "call" None) None fresh (fst race) (derive DuplicateCall (Some "call")));
    [reflexivity | reflexivity | reflexivity | reflexivity |].
  vm_compute. reflexivity.
Defined.

Definition refused_ : world collections := fst (processed (call_ "call" (Some (VString "NO")))).


Lemma reading_writes_nothing_witness :
  quiet (Operations.process clockwork schemas (Some events) false count_ (fun _ => Ok tt) false
    (mkDefinition observation entry None Never) (call_ "call" None)
    (Some (mkQuery (Some "1") None None None None None))).
Proof.
  apply (reading_writes_nothing clockwork schemas (Some events) false count_ (fun _ => Ok tt) false
    (mkDefinition observation entry None Never)); [by left | exact count_quiet].
Defined.

(** a new record, as its first write left it *)
Definition entity_ : Entity.t :=
  let e := Factory.init schemas 0 "1" None in
  Entity.write 1 5 e (Scope.image schemas e).

Lemma commit_hands_stored_witness :
  let w' := fst (Scope.commit schemas (Some events) (Object entity_) VUndefined None fresh) in
  exists row, handed w' = [row] /\ Memory.rows (db w') = [row].
Proof.
  destruct (commit_hands_stored schemas events entity_ VUndefined None fresh
    (fst (Scope.commit schemas (Some events) (Object entity_) VUndefined None fresh)) true)
    as (row & He & Hs & Hh); [vm_compute; reflexivity|].
  exists row. split; [exact Hh|]. vm_compute in Hs |- *. congruence.
Defined.
