(* ===== verification/Calls.v ===== *)
(** * Calls

    [runtime/core/source/call.ts] and [runtime/core/source/component.ts], with [safety.ts] and the
    names of [instance.ts]: what a caller sends, and what a component makes of what it receives.
    [invoke] builds the envelope of a call, or refuses to make it; [enter] says how a component
    takes a request up — refused, answered with an exception, or served in the scope of an
    invocation, which is what the calls made while serving it are held to. *)
From S2P Require Import Prelude Identity Trail Exceptions Entities World Queries Scope Operations.

Open Scope Z_scope.

(** ** Safety *)

(** whether an operation of this type is incapable of changing the State *)
Definition SAFE (k : kind) : bool :=
  match k with
  | transition => false
  | observation => true
  | assignment => false
  | computation => true
  | effect => false
  | unmanaged => false
  end.

Definition kind_of (type : string) : option kind :=
  match type with
  | "transition" => Some transition
  | "observation" => Some observation
  | "assignment" => Some assignment
  | "computation" => Some computation
  | "effect" => Some effect
  | "unmanaged" => Some unmanaged
  | _ => None
  end%string.

Definition safe (type : string) : bool :=
  match kind_of type with None => false | Some k => SAFE k end.

(** ** What is called *)

Record Callee := mkCallee {
  target : string;
  c_source : option Source;
  stateful : bool;
  c_safe : bool;
  streamed : option string;
  c_once : bool
}.

(** how a caller waits: [Some None] is a number that is not finite *)
Record Waiting := mkWaiting {
  timeout : option (option Z);
  signal : bool
}.

Section call.
(** [value instanceof Readable] *)
Context (is_stream : value -> bool).

(** an object's own member *)
Definition member (v : value) (property : string) : option value :=
  match v with
  | VObject fields => own fields property
  | VArray vs => own (imap (fun i v => (show (Z.of_nat i), v)) vs) property
  | _ => None
  end.

(** whether the input carries a stream where the operation takes one *)
Definition carries (input : option value) (property : string) : bool :=
  match input ≫= fun v => member v property with
  | None => false
  | Some carried =>
      is_stream carried ||
      match member carried "stream" with
      | None => false
      | Some v => is_stream v
      end
  end.

Definition refusal_of (c : Callee) (rest : string) : thrown :=
  RequestContractException (quoted (target c) +:+ rest).

(** [#refuse]: a call whose making contradicts what it calls *)
Definition refuse (c : Callee) (r : Request) (o : Waiting) (readonly : bool) : result thrown unit :=
  let waits := bool_decide (is_Some (timeout o)) || signal o in
  _ ← refuse_when (readonly && negb (c_safe c))
        (derive Safety (Some (quoted (target c) +:+ " may change state, and this call may only read")));
  _ ← refuse_when (stateful c && negb (bool_decide (is_Some (instance r))))
        (refusal_of c " is stateful, and a call to it names `instance`");
  _ ← refuse_when (negb (stateful c) && bool_decide (is_Some (instance r)))
        (refusal_of c " is stateless, and a call to it names no `instance`");
  _ ← refuse_when (stateful c && task r)
        (refusal_of c " is stateful, and a call to it is no task");
  _ ← refuse_when (task r && waits)
        (RequestContractException "A task names no `timeout` and no `signal`");
  _ ← refuse_when (negb (stateful c) && waits)
        (refusal_of c " is stateless, and a call to it names no `timeout` and no `signal`");
  _ ← (match streamed c with
       | None => Ok tt
       | Some property =>
           _ ← refuse_when (task r) (refusal_of c " takes a stream, and a task carries none");
           refuse_when (negb (carries (input r) property))
             (refusal_of c (" takes a stream at " +:+ quoted property +:+
                            ", which this call carries none of"))
       end);
  refuse_when (match timeout o with None => false | Some None => true | Some (Some n) => n <=? 0 end)
    (RequestContractException "`timeout` is a positive number of milliseconds").

(** where a service calls from no invocation, the chain starts under its own name *)
Definition service (source : option Source) : option (list string) :=
  match source with Some (FromService s) => Some [s] | _ => None end.

(** what the identity of a call made while serving another is made of *)
Definition parts_of (id : string) (c : Callee) (ordinal : nat) : list part :=
  [Text id; Text (target c); Number (Z.of_nat ordinal)].

(** [crypto]'s hash, and the identities the platform mints *)
Context (sha1 : list Z -> list Z).

(** [#identity], and the invocation having counted the call *)
Definition identity (minted : string) (c : Callee) (inv : option Invocation)
    : string * option Invocation :=
  match inv with
  | None => (minted, None)
  | Some inv =>
      match Trail.id inv with
      | None => (minted, Some inv)
      | Some id =>
          let '(n, inv) := ordinal inv (target c) in
          (Identity.derive sha1 (parts_of id c n), Some inv)
      end
  end.

Definition option_or {A} (x y : option A) : option A := match x with Some _ => x | None => y end.

(** whether the call may only read: said by it, or by the invocation it is made under *)
Definition only_reads (r : Request) (inv : option Invocation) : bool :=
  readonly r || match inv with None => false | Some inv => Trail.readonly inv end.

Definition made_once_under_retry (c : Callee) (inv : option Invocation) : bool :=
  c_once c && match inv with None => false | Some inv => retried inv end.

(** the envelope, around what the caller asked for *)
Definition envelope (c : Callee) (inv : option Invocation) (r : Request) (id : string) : Request :=
  {| input := Some (default VNull (input r));
     query := query r;
     entity := entity r;
     task := task r;
     instance := None;
     request_id := Some id;
     source := option_or (source r) (c_source c);
     request_trail := option_or (request_trail r)
       (wire <$> option_or (hops <$> inv) (service (c_source c)));
     wanted := wanted r;
     encoded := encoded r;
     readonly := only_reads r inv;
     authentic := true;
     telemetry := telemetry r |}.

(** the contract of what is called *)
Context (contract : Request -> result thrown unit).

(** [invoke], up to the transmission: what is sent, and the invocation having counted the call *)
Definition invoke (minted : string) (c : Callee) (inv : option Invocation) (r : Request) (o : Waiting)
    : option Invocation * result thrown Request :=
  if made_once_under_retry c inv then
    (inv, Throw (derive Unrepeatable (Some (quoted (target c) +:+
      " is made once, and a transition retried on a lost write would make it again"))))
  else
    match refuse c r o (only_reads r inv) with
    | Throw e => (inv, Throw e)
    | Ok _ =>
        let '(id, inv') :=
          match request_id r with
          | Some id => (id, inv)
          | None => identity minted c inv
          end in
        let e := envelope c inv r id in
        (inv', _ ← contract e; Ok e)
    end.
End call.

(** ** What a caller is given of a reply *)

Inductive given :=
| GivenNull
| GivenStream (mode : bool) (chunks : list chunk)
(** an error as a value: its code, and its cause where it has one *)
| GivenError (e : refusal)
| Given (o : option output).

Definition receive (r : reply) : result thrown given :=
  match r with
  | NoReply => Ok GivenNull
  | Bare mode chunks => Ok (GivenStream mode chunks)
  | Excepted e => Throw (Raised e)
  | Answer a =>
      match r_error a with
      | Some e => Ok (GivenError e)
      | None => Ok (Given (r_output a))
      end
  end.

(** ** Addressed calls *)

Definition TIMEOUT : Z := 5000.

(** what [TOA_ADDRESSED_TIMEOUT] states, where it is a positive integer *)
Definition default_timeout (variable : option Z) : Z :=
  match variable with
  | Some n => if 0 <? n then n else TIMEOUT
  | None => TIMEOUT
  end.

(** [#terms]: the process, and how long its answer is waited for *)
Definition terms (variable : option Z) (instance : option string) (timeout : option Z)
    : option (string * Z) :=
  match instance with
  | None => None
  | Some i => Some (i, default (default_timeout variable) timeout)
  end.

(** ** Components *)

(** what a component reads of an operation it has *)
Record Endpoint := mkEndpoint {
  unchained : bool;
  e_retried : bool;
  e_safe : bool
}.

Record Component := mkComponent {
  locator : string;
  endpoints : list (string * Endpoint);
  server : bool;
  disposed : bool
}.

(** what [in] finds of any object besides what it was given *)
Definition PROTOTYPE : list string :=
  ["constructor"; "__defineGetter__"; "__defineSetter__"; "hasOwnProperty"; "__lookupGetter__";
   "__lookupSetter__"; "isPrototypeOf"; "propertyIsEnumerable"; "toString"; "valueOf";
   "__proto__"; "toLocaleString"].

(** [endpoint in this.operations], and what is read of what is there *)
Definition provided (c : Component) (endpoint : string) : option Endpoint :=
  match own (endpoints c) endpoint with
  | Some e => Some e
  | None => if decide (endpoint ∈ PROTOTYPE) then Some (mkEndpoint false false false) else None
  end.

(** [this.#span(endpoint).name] *)
Definition hop (c : Component) (endpoint : string) : string := locator c +:+ "." +:+ endpoint.

(** an endpoint of the runtime's own *)
Definition internal (endpoint : string) : bool :=
  match endpoint with String "."%char _ => true | _ => false end.

(** how a request is taken up *)
Inductive taken :=
(** answered, rather than thrown, so that a refusal reaches the caller as any other does *)
| Refused (e : Exception)
(** served, in the scope of an invocation where the component is what serves it *)
| Served (scope : option Invocation).

Definition enter (limits : Limits) (c : Component) (endpoint : string) (r : option Request)
    : result thrown taken :=
  if disposed c && server c then
    Throw (derive Disposed (Some (quoted (locator c) +:+ " has been taken down, and what reached it " +:+
      "here was started by something that outlived it")))
  else
    match provided c endpoint with
    | None =>
        Throw (derive Exceptions.Endpoint
          (Some (quoted endpoint +:+ " is not provided by " +:+ quoted (locator c))))
    | Some e =>
        if server c && negb (internal endpoint) then
          let inbound :=
            if unchained e then VUndefined else default VUndefined (r ≫= request_trail) in
          match extend inbound (hop c endpoint) limits with
          | Throw e => Ok (Refused (exception_of e))
          | Ok hops =>
              Ok (Served (Some
                {| Trail.hops := hops;
                   Trail.id := r ≫= request_id;
                   Trail.readonly :=
                     match r with None => false | Some r => readonly r end || e_safe e;
                   retried := e_retried e;
                   calls := ∅ |}))
          end
        else Ok (Served None)
    end.

(** ** Lemmas *)

Lemma implb_false (a b : bool) : a && b = false <-> (a = true -> b = false).
Proof. destruct a, b; naive_solver. Qed.

Section lemmas.
Context (is_stream : value -> bool) (sha1 : list Z -> list Z) (contract : Request -> result thrown unit).

Lemma invoke_Ok minted c inv r o inv' e :
  invoke is_stream sha1 contract minted c inv r o = (inv', Ok e) ->
  made_once_under_retry c inv = false /\
  refuse is_stream c r o (only_reads r inv) = Ok tt /\
  exists id, e = envelope c inv r id /\
    (request_id r = None -> (id, inv') = identity sha1 minted c inv).
Proof.
  unfold invoke. destruct (made_once_under_retry c inv); [done|].
  destruct (refuse _ _ _ _ _) as [[]|]; [|done].
  destruct (request_id r) as [i|].
  - intros [= <- Hc]. apply bind_Ok in Hc as (u & _ & [= <-]). split_and!; try done. by eexists.
  - destruct (identity sha1 minted c inv) as [i inv1].
    intros [= <- Hc]. apply bind_Ok in Hc as (u & _ & [= <-]). split_and!; try done. by exists i.
Qed.

(** a call that may only read reaches what only reads, and says so of what it sends *)
Lemma invoke_readonly minted c inv r o inv' e :
  invoke is_stream sha1 contract minted c inv r o = (inv', Ok e) ->
  only_reads r inv = true -> c_safe c = true /\ readonly e = true.
Proof.
  intros (_ & Hr & i & -> & _)%invoke_Ok Ho. split; [|done].
  unfold refuse in Hr. apply then_Ok in Hr as [Hs%refuse_when_Ok _]. rewrite Ho in Hs.
  by destruct (c_safe c).
Qed.

Lemma enter_readonly limits c endpoint r inv :
  enter limits c endpoint (Some r) = Ok (Served (Some inv)) -> readonly r = true ->
  Trail.readonly inv = true.
Proof.
  unfold enter. intros He Hr. destruct (disposed c && server c); [done|].
  destruct (provided c endpoint) as [e|]; [|done].
  destruct (server c && negb (internal endpoint)); [|by injection He].
  destruct (extend _ _ _); [|done]. injection He as <-. simpl. by rewrite Hr.
Qed.

Lemma enter_chain limits c endpoint r inv :
  enter limits c endpoint r = Ok (Served (Some inv)) ->
  exists e, provided c endpoint = Some e /\
    extend (if unchained e then VUndefined else default VUndefined (r ≫= request_trail))
      (hop c endpoint) limits = Ok (hops inv) /\
    Trail.id inv = r ≫= request_id /\ calls inv = ∅ /\
    (e_safe e = true -> Trail.readonly inv = true).
Proof.
  unfold enter. intros He. destruct (disposed c && server c); [done|].
  destruct (provided c endpoint) as [e|]; [|done]. exists e.
  destruct (server c && negb (internal endpoint)); [|by injection He].
  destruct (extend _ _ _); [|done]. injection He as <-. simpl. split_and!; try done.
  intros ->. apply orb_true_r.
Qed.

(** the calls made one under another, from an invocation down *)
Inductive descends (limits : Limits) : Invocation -> list Callee -> Prop :=
| descends_nil inv : descends limits inv []
| descends_call inv minted c r o inv1 e component endpoint inv' cs :
    invoke is_stream sha1 contract minted c (Some inv) r o = (inv1, Ok e) ->
    enter limits component endpoint (Some e) = Ok (Served (Some inv')) ->
    descends limits inv' cs ->
    descends limits inv (c :: cs).

Lemma descends_readonly limits inv cs :
  Trail.readonly inv = true -> descends limits inv cs -> Forall (fun c => c_safe c = true) cs.
Proof.
  intros Hr Hd. induction Hd as [|inv minted c r o inv1 e component endpoint inv' cs Hi He Hd IH];
    constructor.
  - eapply invoke_readonly in Hi as [? _]; [done|]. unfold only_reads. rewrite Hr. apply orb_true_r.
  - apply IH. eapply enter_readonly; [exact He|].
    eapply invoke_readonly in Hi as [_ ?]; [done|]. unfold only_reads. rewrite Hr. apply orb_true_r.
Qed.

(** *** Identities *)

(** what the identities of the calls of an invocation are made of, call by call *)
Fixpoint parts_made (i : string) (inv : Invocation) (cs : list Callee) : list (list part) :=
  match cs with
  | [] => []
  | c :: cs =>
      let '(n, inv) := ordinal inv (target c) in
      parts_of i c n :: parts_made i inv cs
  end.

Fixpoint identities (minted : string) (inv : option Invocation) (cs : list Callee) : list string :=
  match cs with
  | [] => []
  | c :: cs =>
      let '(i, inv) := identity sha1 minted c inv in
      i :: identities minted inv cs
  end.

Lemma identities_made minted i inv cs :
  Trail.id inv = Some i ->
  identities minted (Some inv) cs = Identity.derive sha1 <$> parts_made i inv cs.
Proof.
  revert inv. induction cs as [|c cs IH]; intros inv Hi; [done|].
  cbn [identities parts_made]. unfold identity. rewrite Hi.
  destruct (ordinal inv (target c)) as [n inv'] eqn:Ho. rewrite fmap_cons.
  rewrite IH; [done|]. injection Ho as _ <-. exact Hi.
Qed.

Lemma parts_made_calls i inv inv' cs :
  calls inv = calls inv' -> parts_made i inv cs = parts_made i inv' cs.
Proof.
  revert inv inv'. induction cs as [|c cs IH]; intros inv inv' Hc; [done|].
  cbn [parts_made]. unfold ordinal. rewrite Hc. f_equal. by apply IH.
Qed.

Lemma parts_made_later i inv cs ps :
  ps ∈ parts_made i inv cs ->
  exists c n, ps = parts_of i c n /\ (default 0%nat (calls inv !! target c) <= n)%nat.
Proof.
  revert inv. induction cs as [|c cs IH]; intros inv; [by intros ?%elem_of_nil|].
  cbn [parts_made]. unfold ordinal. intros [-> | Hps]%elem_of_cons; [by eexists _, _|].
  apply IH in Hps as (c' & n & -> & Hn). exists c', n. split; [done|]. simpl in Hn.
  destruct (decide (target c = target c')) as [Heq|Hne].
  - rewrite Heq, lookup_insert_eq in Hn. simpl in Hn. lia.
  - by rewrite lookup_insert_ne in Hn.
Qed.

Lemma parts_of_name i c n c' n' :
  Identity.name (parts_of i c n) = Identity.name (parts_of i c' n') -> target c = target c' /\ n = n'.
Proof.
  unfold parts_of. intros [_ H1]%name_cons_inj. apply name_cons_inj in H1 as [Ht H2].
  apply name_cons_inj in H2 as [Hn _]. split; [exact Ht|].
  apply Nat2Z.inj. simpl in Hn. unfold show in Hn. by apply (inj pretty) in Hn.
Qed.

Lemma parts_made_NoDup i inv cs : NoDup (Identity.name <$> parts_made i inv cs).
Proof.
  revert inv. induction cs as [|c cs IH]; intros inv; [constructor|].
  cbn [parts_made]. unfold ordinal. rewrite fmap_cons. apply NoDup_cons. split; [|apply IH].
  intros (ps & Heq & Hps)%list_elem_of_fmap.
  apply parts_made_later in Hps as (c' & n & -> & Hn). simpl in Hn.
  apply parts_of_name in Heq as [Ht Hn']. rewrite <- Ht, lookup_insert_eq in Hn. simpl in Hn. lia.
Qed.
End lemmas.

(** ** Properties *)

Section properties.
Context (is_stream : value -> bool) (sha1 : list Z -> list Z) (contract : Request -> result thrown unit).

(** C23: Reading is held to all the way down: a request that may only read, or an operation that is
    safe, begins an invocation under which every call made, at any depth and whatever the calls
    say of themselves, is made to a safe operation, or is refused before anything is sent. *)
Theorem readonly_reaches_safe limits component endpoint r inv cs :
  enter limits component endpoint (Some r) = Ok (Served (Some inv)) ->
  readonly r = true \/ (exists e, provided component endpoint = Some e /\ e_safe e = true) ->
  descends is_stream sha1 contract limits inv cs ->
  Forall (fun c => c_safe c = true) cs.
Proof.
  intros He Hor Hd. eapply descends_readonly; [|exact Hd].
  destruct Hor as [Hr | (e & Hp & Hs)]; [by eapply enter_readonly|].
  apply enter_chain in He as (e' & Hp' & _ & _ & _ & Hsafe).
  rewrite Hp in Hp'. injection Hp' as <-. auto.
Qed.

(** The calls an operation makes while serving one are identified by the call it serves: two of
    them never by the same name, and served again they are identified as they were, so that what
    they reach can tell a repetition from another call. *)
Theorem identities_repeat limits component endpoint r inv component' r' inv' i minted minted' cs :
  enter limits component endpoint (Some r) = Ok (Served (Some inv)) ->
  enter limits component' endpoint (Some r') = Ok (Served (Some inv')) ->
  request_id r = Some i -> request_id r' = Some i ->
  identities sha1 minted (Some inv) cs = identities sha1 minted' (Some inv') cs /\
  identities sha1 minted (Some inv) cs = Identity.derive sha1 <$> parts_made i inv cs /\
  NoDup (Identity.name <$> parts_made i inv cs).
Proof.
  intros He He' Hr Hr'. apply enter_chain in He as (_ & _ & _ & Hi & Hc & _).
  apply enter_chain in He' as (_ & _ & _ & Hi' & Hc' & _). simpl in *. rewrite Hr in Hi. rewrite Hr' in Hi'.
  rewrite (identities_made sha1 minted i inv cs Hi), (identities_made sha1 minted' i inv' cs Hi').
  split; [|split; [done | apply parts_made_NoDup]].
  f_equal. apply parts_made_calls. by rewrite Hc, Hc'.
Qed.

(** A chain follows the calls: what a call made under an invocation is served with is that
    invocation's chain and the one hop more, or begins at the hop where the operation is
    unchained, so that every chain grown by calls is one the guard let through hop by hop. *)
Theorem call_extends_chain limits inv minted c r o inv1 e component endpoint inv' :
  request_trail r = None ->
  invoke is_stream sha1 contract minted c (Some inv) r o = (inv1, Ok e) ->
  enter limits component endpoint (Some e) = Ok (Served (Some inv')) ->
  0 < repeats limits -> 0 <= depth limits ->
  Trail.reachable limits (hops inv) ->
  Trail.reachable limits (hops inv') /\
  (hops inv' = hops inv ++ [hop component endpoint] \/ hops inv' = [hop component endpoint]).
Proof.
  intros Hr Hi He Hrep Hdepth Hreach. apply invoke_Ok in Hi as (_ & _ & id & -> & _).
  apply enter_chain in He as (p & _ & Hx & _). simpl in Hx. rewrite Hr in Hx. simpl in Hx.
  pose proof (reachable_bounded limits (hops inv) (conj (Z.lt_le_incl _ _ Hrep) Hdepth) Hrep Hreach) as Hb.
  destruct (unchained p).
  - change VUndefined with VUndefined in Hx.
    assert (extend (wire []) (hop component endpoint) limits = Ok (hops inv')) as Hx' by exact Hx.
    split; [apply (reachable_hop _ [] (hop component endpoint)); [constructor | done]|].
    right. apply extend_bounded in Hx' as [_ ->]; [done..|]. split; [done|].
    intros h. rewrite count_nil. lia.
  - split; [by apply (reachable_hop _ (hops inv) (hop component endpoint))|].
    left. by apply extend_bounded in Hx as [_ ->].
Qed.

(** A call is refused before it is sent exactly where its making contradicts what it calls. *)
Theorem refuse_iff c r o only :
  refuse is_stream c r o only = Ok tt <->
  (only = true -> c_safe c = true) /\
  (stateful c = true <-> is_Some (instance r)) /\
  (task r = true -> stateful c = false /\ timeout o = None /\ signal o = false /\ streamed c = None) /\
  (stateful c = false -> timeout o = None /\ signal o = false) /\
  (forall property, streamed c = Some property -> carries is_stream (input r) property = true) /\
  (forall t, timeout o = Some t -> exists n, t = Some n /\ 0 < n).
Proof.
  unfold refuse. rewrite !then_Ok, !refuse_when_Ok.
  assert ((match streamed c with
      | None => Ok tt
      | Some property =>
          _ ← refuse_when (task r) (refusal_of c " takes a stream, and a task carries none");
          refuse_when (negb (carries is_stream (input r) property))
            (refusal_of c (" takes a stream at " +:+ quoted property +:+
                           ", which this call carries none of"))
      end = Ok tt) <-> forall property, streamed c = Some property ->
        task r = false /\ carries is_stream (input r) property = true) as ->.
  { destruct (streamed c) as [p|]; [|by split].
    rewrite then_Ok, !refuse_when_Ok, negb_false_iff. naive_solver. }
  assert (bool_decide (is_Some (timeout o)) || signal o = false <->
    timeout o = None /\ signal o = false) as HW.
  { rewrite orb_false_iff, bool_decide_eq_false. by rewrite <- eq_None_not_Some. }
  assert (match timeout o with None => false | Some None => true | Some (Some n) => n <=? 0 end = false <->
    (forall t, timeout o = Some t -> exists n, t = Some n /\ 0 < n)) as ->.
  { destruct (timeout o) as [[n|]|]; [rewrite Z.leb_gt| |]; naive_solver. }
  rewrite !implb_false, !HW, !negb_true_iff, !negb_false_iff, !bool_decide_eq_true, !bool_decide_eq_false.
  assert ((forall property, streamed c = Some property ->
      task r = false /\ carries is_stream (input r) property = true) <->
    (task r = true -> streamed c = None) /\
    (forall property, streamed c = Some property -> carries is_stream (input r) property = true)) as ->.
  { destruct (streamed c), (task r); naive_solver. }
  split.
  - intros (H1 & H2 & H3 & H4 & H5 & H6 & [H7 H8] & H9). split_and!; try done.
    + split; [done|]. intros Hi. destruct (stateful c); [done|]. by destruct H3.
    + intros Ht. destruct (H5 Ht). split_and!; auto. destruct (stateful c); [|done].
      by rewrite H4 in Ht.
  - intros (H1 & H2 & H3 & H4 & H5 & H6). split_and!; try done.
    + by intros ?%H2.
    + intros Hs Hi%H2. congruence.
    + intros Hs. destruct (task r); [|done]. destruct (H3 eq_refl). congruence.
    + intros Ht. by destruct (H3 Ht) as (_ & ? & ? & _).
    + intros Ht. by destruct (H3 Ht) as (_ & _ & _ & ?).
Qed.

(** An addressed call that is sent names the process it goes to and always waits for a set time,
    which is positive; an ordinary one is handed neither. *)
Theorem addressed_waits minted c inv r o inv' e variable :
  invoke is_stream sha1 contract minted c inv r o = (inv', Ok e) ->
  let given := match timeout o with Some (Some n) => Some n | _ => None end in
  if stateful c then
    exists i ms, instance r = Some i /\ terms variable (instance r) given = Some (i, ms) /\ 0 < ms
  else terms variable (instance r) given = None.
Proof.
  intros (_ & Hr & _)%invoke_Ok. unfold refuse in Hr.
  rewrite !then_Ok, !refuse_when_Ok in Hr. destruct Hr as (_ & Hst & Hls & _ & _ & _ & _ & Ht). simpl.
  destruct (stateful c); destruct (instance r) as [i|]; try done. simpl.
  exists i. eexists. split_and!; [done..|].
  assert (0 < default_timeout variable) as Hd.
  { unfold default_timeout, TIMEOUT. destruct variable as [n|]; [|lia].
    destruct (Z.ltb_spec 0 n); lia. }
  destruct (timeout o) as [[n|]|]; simpl; [apply Z.leb_gt in Ht|..]; done.
Qed.
End properties.

(** ** A safe operation that makes a call *)

Module Reader.
Definition streamless : value -> bool := fun _ => false.
Definition open_ : Request -> result thrown unit := fun _ => Ok tt.

Definition limits_ : Limits := mkLimits 3 32.

Definition asked (i : string) : Request :=
  mkRequest None None None false None (Some i) None None None None false false None.

Definition plain : Request :=
  mkRequest None None None false None None None None None None false false None.

Definition reader : Component := mkComponent "a.b" [("read", mkEndpoint false false true)] true false.
Definition store_ : Component := mkComponent "a.c" [("get", mkEndpoint false false true)] true false.
Definition getter : Callee := mkCallee "a.c.get" (Some (FromOperation "a" "b" "read")) false true None false.
Definition idle : Waiting := mkWaiting None false.

Definition served : Invocation := mkInvocation ["a.b.read"] (Some "1") true false ∅.

Lemma reader_serves i : enter limits_ reader "read" (Some (asked i)) =
  Ok (Served (Some (mkInvocation ["a.b.read"] (Some i) true false ∅))).
Proof. reflexivity. Qed.

Definition sent_ : option Invocation * result thrown Request :=
  invoke streamless no_hash open_ "m" getter (Some served) plain idle.

Definition sent_request : Request :=
  match snd sent_ with Ok e => e | Throw _ => plain end.

Definition below : Invocation :=
  mkInvocation ["a.b.read"; "a.c.get"] (request_id sent_request) true false ∅.

Lemma sent_is : sent_ = (fst sent_, Ok sent_request).
Proof. vm_compute. reflexivity. Qed.

Lemma below_is : enter limits_ store_ "get" (Some sent_request) = Ok (Served (Some below)).
Proof. vm_compute. reflexivity. Qed.

Lemma readonly_reaches_safe_witness :
  Forall (fun c => c_safe c = true) [getter].
Proof.
  apply (readonly_reaches_safe streamless no_hash open_ limits_ reader "read" (asked "1") served [getter]).
  - apply reader_serves.
  - right. by exists (mkEndpoint false false true).
  - apply (descends_call streamless no_hash open_ limits_ served "m" getter plain idle (fst sent_)
      sent_request store_ "get" below); [exact sent_is | exact below_is | constructor].
Defined.

Lemma identities_repeat_witness :
  identities no_hash "m" (Some served) [getter; getter] =
    identities no_hash "n" (Some served) [getter; getter] /\
  NoDup (Identity.name <$> parts_made "1" served [getter; getter]).
Proof.
  destruct (identities_repeat no_hash limits_ reader "read" (asked "1") served reader (asked "1")
    served "1" "m" "n" [getter; getter]) as (Heq & _ & Hnd);
    [apply reader_serves | apply reader_serves | reflexivity | reflexivity |].
  split; [exact Heq | exact Hnd].
Defined.

Lemma call_extends_chain_witness :
  Trail.reachable limits_ (hops below) /\
  (hops below = ["a.b.read"] ++ ["a.c.get"] \/ hops below = ["a.c.get"]).
Proof.
  apply (call_extends_chain streamless no_hash open_ limits_ served "m" getter plain idle (fst sent_)
    sent_request store_ "get" below).
  - reflexivity.
  - exact sent_is.
  - exact below_is.
  - reflexivity.
  - discriminate.
  - apply (reachable_hop _ [] "a.b.read"); [constructor | reflexivity].
Defined.

Lemma addressed_waits_witness :
  terms None (instance plain) None = None.
Proof.
  exact (addressed_waits streamless no_hash open_ "m" getter (Some served) plain idle (fst sent_)
    sent_request None sent_is).
Defined.
End Reader.
