(* ===== verification/Pulse.v ===== *)
(** * Pulse

    [extensions/cadence/source/Pulse.ts] and [Schedule.ts]: the calls a component makes to itself.
    [Module Cycle] is the arithmetic of the clock, [Module Pulse] what one process does as its
    timer wakes it, and [Module Schedule] the same of a schedule, which stores its occurrences
    rather than making them. What is awaited — a call, a write — is an event of its own. *)
From stdpp Require Import sorting.
From S2P Require Import Prelude Identity.

Open Scope Z_scope.

(** [setTimeout] fires at once past this *)
Definition MAX_DELAY : Z := 2 ^ 31 - 1.

Module Cycle.
Section Cycle.
(** milliseconds one whole cycle takes, and the intervals it is split into *)
Context (cycle n : Z).

(** how many intervals have passed since the epoch *)
Definition ordinal (now : Z) : Z := Z.quot (now * n) cycle.

(** which of the cycle's intervals it is *)
Definition index (now : Z) : Z := Z.rem (ordinal now) n.

(** when the interval gives way to the next one *)
Definition boundary (now : Z) : Z := Z.quot ((ordinal now + 1) * cycle + n - 1) n.

Definition wait (now : Z) : Z := Z.min (boundary now - now) MAX_DELAY.

Lemma ordinal_div now : 0 <= now -> 0 <= n -> 0 < cycle -> ordinal now = now * n / cycle.
Proof. intros. unfold ordinal. apply Z.quot_div_nonneg; nia. Qed.

Lemma ordinal_nonneg now : 0 <= now -> 0 <= n -> 0 < cycle -> 0 <= ordinal now.
Proof. intros. rewrite ordinal_div by done. apply Z.div_pos; nia. Qed.

Lemma boundary_div now :
  0 <= now -> 0 < n -> 0 < cycle -> boundary now = ((ordinal now + 1) * cycle + n - 1) / n.
Proof.
  intros. pose proof (ordinal_nonneg now). unfold boundary. apply Z.quot_div_nonneg; nia.
Qed.

Lemma ordinal_mono t u : 0 <= t -> t <= u -> 0 <= n -> 0 < cycle -> ordinal t <= ordinal u.
Proof. intros. rewrite !ordinal_div by lia. apply Z.div_le_mono; nia. Qed.

(** the boundary is the first moment of the next interval *)
Lemma boundary_spec now :
  0 <= now -> 0 < n -> 0 < cycle ->
  now < boundary now /\
  (forall t, now <= t < boundary now -> ordinal t = ordinal now) /\
  (n <= cycle -> ordinal (boundary now) = ordinal now + 1).
Proof.
  intros Hnow Hn Hc. pose proof (ordinal_nonneg now Hnow ltac:(lia) Hc) as Ho.
  pose proof (boundary_div now Hnow Hn Hc) as Hb.
  rewrite (ordinal_div now) in * by lia. set (o := now * n / cycle) in *.
  assert (o * cycle <= now * n < (o + 1) * cycle) as [Hlo Hhi].
  { pose proof (Z.div_mod (now * n) cycle ltac:(lia)).
    pose proof (Z.mod_pos_bound (now * n) cycle Hc). unfold o. nia. }
  assert ((o + 1) * cycle <= boundary now * n < (o + 1) * cycle + n) as [Hblo Hbhi].
  { pose proof (Z.div_mod ((o + 1) * cycle + n - 1) n ltac:(lia)).
    pose proof (Z.mod_pos_bound ((o + 1) * cycle + n - 1) n Hn). rewrite Hb. nia. }
  split; [nia|]. split.
  - intros t [Ht Htb]. rewrite ordinal_div by lia. symmetry. apply Z.div_unique_pos with (t * n - cycle * o); nia.
  - intros Hnc. rewrite ordinal_div by nia. symmetry.
    apply Z.div_unique_pos with (boundary now * n - cycle * (o + 1)); nia.
Qed.

Lemma index_range now : 0 <= now -> 0 < n -> 0 < cycle -> 0 <= index now < n.
Proof.
  intros. unfold index. apply Z.rem_bound_pos; [|done]. by apply ordinal_nonneg; lia.
Qed.
End Cycle.
End Cycle.

Module Pulse.

(** what one process holds of a pulse; [timer] is when it wakes *)
Record t := mk {
  fired : Z;
  timer : option Z;
  firing : bool;
  closing : bool;
  quiesced : bool
}.

Definition initial : t := mk 0 None false false false.

(** what became of an interval *)
Inductive made := Overlap | Unowned | Other | Called (i : Z).

Section Pulse.
Context (cycle n : Z).

Definition arm (now : Z) (p : t) : t :=
  mk (fired p) (Some (now + Cycle.wait cycle n now)) (firing p) (closing p) (quiesced p).

Definition open (now : Z) (p : t) : t :=
  arm now (mk (Cycle.ordinal cycle n now) (timer p) (firing p) (closing p) (quiesced p)).

Definition close (p : t) : t := mk (fired p) None (firing p) true (quiesced p).

Definition pause (p : t) : t := mk (fired p) None (firing p) (closing p) true.

Definition unpause (now : Z) (p : t) : t :=
  arm now (mk (Cycle.ordinal cycle n now) (timer p) (firing p) (closing p) false).

(** [atom.slots(n)] where there is an atom to ask: [Some None] owns nothing *)
Definition fire (i : Z) (atom : option (option (list Z))) (p : t) : t * made :=
  if firing p then (p, Overlap)
  else
    let called := (mk (fired p) (timer p) true (closing p) (quiesced p), Called i) in
    match atom with
    | None => called
    | Some None => (p, Unowned)
    | Some (Some owned) => if decide (i ∈ owned) then called else (p, Other)
    end.

Definition tick (now : Z) (atom : option (option (list Z))) (p : t) : t * option made :=
  if closing p || quiesced p then (p, None)
  else
    let ordinal := Cycle.ordinal cycle n now in
    if ordinal =? fired p then (arm now p, None)
    else
      let '(p, m) := fire (Z.rem ordinal n) atom
        (mk ordinal (timer p) (firing p) (closing p) (quiesced p)) in
      (arm now p, Some m).

(** the call in flight returned, whatever it answered *)
Definition returned (p : t) : t := mk (fired p) (timer p) false (closing p) (quiesced p).

(** what happens to a pulse, each at a reading of the clock *)
Inductive event := Wake (atom : option (option (list Z))) | Returned | Pause | Unpause | Close.

Definition handle (now : Z) (e : event) (p : t) : t * option made :=
  match e with
  | Wake atom => tick now atom p
  | Returned => (returned p, None)
  | Pause => (pause p, None)
  | Unpause => (unpause now p, None)
  | Close => (close p, None)
  end.

(** the intervals a run called, by their ordinals, each with what was owned *)
Fixpoint run (p : t) (events : list (Z * event)) : list (Z * Z * option (option (list Z))) :=
  match events with
  | [] => []
  | (now, e) :: events =>
      let '(p, m) := handle now e p in
      match m, e with
      | Some (Called i), Wake atom => (Cycle.ordinal cycle n now, i, atom) :: run p events
      | _, _ => run p events
      end
  end.

(** the clock is read forwards, from a moment on *)
Fixpoint forwards (now : Z) (events : list (Z * event)) : Prop :=
  match events with
  | [] => True
  | (t, _) :: events => now <= t /\ forwards t events
  end.

Lemma arm_fired now p : fired (arm now p) = fired p.
Proof. done. Qed.

Lemma fire_spec i atom p p' m :
  fire i atom p = (p', m) ->
  fired p' = fired p /\
  (forall j, m = Called j -> j = i /\ forall s, atom = Some s -> exists owned, s = Some owned /\ i ∈ owned).
Proof.
  unfold fire. destruct (firing p); [by intros [= <- <-]|].
  destruct atom as [[owned|]|]; [case_decide|..]; intros [= <- <-]; naive_solver.
Qed.

Context (Hn : 0 < n) (Hcycle : 0 < cycle).

Lemma handle_fired last now e p p' m :
  0 <= last -> last <= now -> fired p <= Cycle.ordinal cycle n last ->
  handle now e p = (p', m) ->
  fired p' <= Cycle.ordinal cycle n now /\ (e <> Unpause -> fired p <= fired p') /\
  fired p <= Cycle.ordinal cycle n now /\
  (forall i, m = Some (Called i) -> fired p < Cycle.ordinal cycle n now /\
    fired p' = Cycle.ordinal cycle n now /\ i = Cycle.index cycle n now /\
    forall s, (match e with Wake atom => atom | _ => None end) = Some s ->
      exists owned, s = Some owned /\ i ∈ owned).
Proof.
  intros H0 Hle Hf Hh.
  assert (fired p <= Cycle.ordinal cycle n now) as Hlt.
  { pose proof (Cycle.ordinal_mono cycle n last now H0 Hle). lia. }
  destruct e; simpl in Hh; try (injection Hh as <- <-; simpl; split_and!; (done || lia || naive_solver)).
  unfold tick in Hh. destruct (closing p || quiesced p).
  { injection Hh as <- <-. split_and!; done. }
  destruct (Z.eqb_spec (Cycle.ordinal cycle n now) (fired p)) as [Heq|Hne].
  { injection Hh as <- <-. simpl. split_and!; (done || lia). }
  destruct (fire _ _ _) as [q k] eqn:Hfire. apply fire_spec in Hfire as [Hq Hk]. simpl in Hq.
  injection Hh as <- <-. simpl. rewrite Hq. split_and!; [lia|lia|lia|].
  intros i [= ->]. destruct (Hk i eq_refl) as [-> Ho]. split_and!; (done || lia).
Qed.

(** what a run calls, from a state that has handled an interval *)
Lemma run_increasing last p events :
  0 <= last -> fired p <= Cycle.ordinal cycle n last -> forwards last events ->
  StronglySorted Z.lt ((fun c => fst (fst c)) <$> run p events) /\
  Forall (fun c => fired p < fst (fst c)) (run p events) /\
  Forall (fun c => 0 <= snd (fst c) < n /\
    forall s, snd c = Some s -> exists owned, s = Some owned /\ snd (fst c) ∈ owned) (run p events).
Proof.
  revert last p. induction events as [|[now e] events IH]; intros last p H0 Hf Hfw.
  { split_and!; constructor. }
  destruct Hfw as [Hle Hfw]. cbn [run]. destruct (handle now e p) as [p' m] eqn:Hh.
  destruct (handle_fired last now e p p' m H0 Hle Hf Hh) as (Hf' & Hmono & Hfn & Hcall).
  destruct (IH now p' ltac:(lia) Hf' Hfw) as (Hs & Hlt & Hown).
  assert (fired p <= fired p') as Hpp.
  { destruct e; try (by apply Hmono). simpl in Hh. injection Hh as <- <-. simpl. lia. }
  assert (Forall (fun c => fired p < fst (fst c)) (run p' events)) as Hlt'.
  { eapply Forall_impl; [exact Hlt|]. simpl. lia. }
  destruct m as [[| | |i]|]; try done. destruct e; try done.
  destruct (Hcall i eq_refl) as (Hlt1 & Heq & -> & Ho). split_and!.
  - rewrite fmap_cons. apply StronglySorted_cons. split; [|done].
    apply Forall_fmap. eapply Forall_impl; [exact Hlt|]. simpl. lia.
  - constructor; [done | done].
  - constructor; [|done]. split; [by apply Cycle.index_range; lia | exact Ho].
Qed.
End Pulse.
End Pulse.

Module Schedule.

(** What one process holds of a schedule. [retry] is the occurrence the last of its retries is set
    for, and [stale] those of retries set before that one and not yet gone off. *)
Record t := mk {
  at_ : option Z;
  timer : option Z;
  retry : option Z;
  stale : list Z;
  closing : bool;
  quiesced : bool
}.

Definition initial : t := mk None None None [] false false.

(** what an occurrences function promises: what comes first after a moment *)
Definition lawful (next : Z -> option Z) : Prop :=
  (forall u a, next u = Some a -> u < a /\ forall v, u <= v < a -> next v = Some a) /\
  (forall u v, next u = None -> u <= v -> next v = None).

Section Schedule.
(** [this.next] *)
Context (next : Z -> option Z).
(** milliseconds a call may be late, where the entry states it *)
Context (overdue : option Z).

(** [tick]: the occurrence handed over, where one is *)
Definition tick (now : Z) (s : t) : t * option Z :=
  if closing s || quiesced s then (s, None)
  else
    let waits (at_ : Z) := Some (now + Z.min (at_ - now) MAX_DELAY) in
    match at_ s with
    | Some a =>
        if now <? a then (mk (Some a) (waits a) (retry s) (stale s) (closing s) (quiesced s), None)
        else
          match next now with
          | None => (s, None)
          | Some b => (mk (Some b) (waits b) (retry s) (stale s) (closing s) (quiesced s), Some b)
          end
    | None =>
        match next now with
        | None => (s, None)
        | Some b => (mk (Some b) (waits b) (retry s) (stale s) (closing s) (quiesced s), Some b)
        end
    end.

Definition open (now : Z) (s : t) : t * option Z := tick now s.

Definition close (s : t) : t := mk (at_ s) None None (stale s) true (quiesced s).

Definition pause (s : t) : t := mk (at_ s) None None (stale s) (closing s) true.

Definition unpause (now : Z) (s : t) : t * option Z :=
  tick now (mk None (timer s) (retry s) (stale s) (closing s) false).

(** storing failed: it is tried again in a while *)
Definition failed (a : Z) (s : t) : t :=
  mk (at_ s) (timer s) (Some a) (option_list (retry s) ++ stale s) (closing s) (quiesced s).

(** for as long as it is the occurrence being waited for *)
Definition again (a : Z) (s : t) : option Z :=
  if closing s || quiesced s then None
  else if decide (at_ s = Some a) then Some a else None.

(** how late the call may be *)
Definition late (a : Z) : option Z :=
  match overdue with
  | Some ms => Some ms
  | None => (fun b => b - a) <$> next a
  end.

(** a schedule woken again and again: what it hands over, occurrence by occurrence *)
Fixpoint wakes (s : t) (readings : list Z) : list Z :=
  match readings with
  | [] => []
  | now :: readings =>
      let '(s, stored) := tick now s in
      option_list stored ++ wakes s readings
  end.

(** woken no later than the occurrence after the one awaited, and never backwards *)
Fixpoint in_time (s : t) (last : Z) (readings : list Z) : Prop :=
  match readings with
  | [] => True
  | now :: readings =>
      last <= now /\
      (forall a b, at_ s = Some a -> next a = Some b -> now < b) /\
      in_time (fst (tick now s)) now readings
  end.

(** each occurrence is followed by the one that comes next *)
Fixpoint consecutive (a : Z) (l : list Z) : Prop :=
  match l with
  | [] => True
  | b :: l => next a = Some b /\ consecutive b l
  end.

Definition working (s : t) : Prop := closing s = false /\ quiesced s = false.

Lemma tick_working now s : working s -> working (fst (tick now s)).
Proof.
  intros [Hc Hq]. unfold tick. rewrite Hc, Hq. simpl.
  destruct (at_ s) as [a|]; [destruct (now <? a)|]; try destruct (next now); done.
Qed.

Lemma wakes_consecutive s a last readings :
  lawful next -> working s -> at_ s = Some a -> in_time s last readings ->
  consecutive a (wakes s readings).
Proof.
  intros [Hn Hnone]. revert s a last. induction readings as [|now readings IH]; intros s a last Hw Ha Ht.
  { done. }
  destruct Ht as (Hle & Hb & Ht). cbn [wakes]. pose proof (tick_working now s Hw) as Hw'.
  destruct Hw as [Hc Hq]. unfold tick in *. rewrite Hc, Hq, Ha in *. simpl in *.
  destruct (Z.ltb_spec now a) as [Hlt|Hge]; simpl in *.
  { by eapply IH. }
  destruct (next now) as [b|] eqn:Hnow; simpl in *.
  - assert (next a = Some b) as Hab.
    { destruct (next a) as [b'|] eqn:Hna.
      - destruct (Hn a b' Hna) as [_ Hv]. specialize (Hb a b' eq_refl Hna).
        rewrite <- Hnow. symmetry. apply Hv. lia.
      - rewrite (Hnone a now Hna Hge) in Hnow. done. }
    split; [done|]. by eapply IH.
  - by eapply IH.
Qed.
End Schedule.

(** the id of the row an occurrence is stored as, before it is hashed *)
Definition id_parts (region : Z) (endpoint : string) (a : Z) : list part :=
  [Text "cadence"; Number region; Text endpoint; Number a].
End Schedule.

(** ** Properties *)

(** A boundary is the first moment of the next interval, exactly, however finely a cycle is cut:
    no moment before it belongs to the next interval, and it is the very next one. *)
Theorem boundary_exact cycle n now :
  0 <= now -> 0 < n <= cycle ->
  now < Cycle.boundary cycle n now /\
  (forall t, now <= t < Cycle.boundary cycle n now -> Cycle.ordinal cycle n t = Cycle.ordinal cycle n now) /\
  Cycle.ordinal cycle n (Cycle.boundary cycle n now) = Cycle.ordinal cycle n now + 1.
Proof.
  intros Hnow [Hn Hc]. destruct (Cycle.boundary_spec cycle n now Hnow Hn ltac:(lia)) as (? & ? & ?). auto.
Qed.

(** A timer never sleeps through a boundary, nor for longer than one can be set for. *)
Theorem wait_bounds cycle n now :
  0 <= now -> 0 < n <= cycle ->
  0 < Cycle.wait cycle n now <= MAX_DELAY /\ now + Cycle.wait cycle n now <= Cycle.boundary cycle n now.
Proof.
  intros Hnow [Hn Hc]. destruct (Cycle.boundary_spec cycle n now Hnow Hn ltac:(lia)) as (? & _).
  unfold Cycle.wait, MAX_DELAY. lia.
Qed.


(** A schedule that is woken in time misses no occurrence and repeats none: what it hands over
    are the occurrences one after another from the one it waited for. *)
Theorem occurrences_consecutive next now b readings :
  Schedule.lawful next -> next now = Some b ->
  let s := fst (Schedule.open next now Schedule.initial) in
  Schedule.in_time next s now readings ->
  snd (Schedule.open next now Schedule.initial) = Some b /\
  Schedule.consecutive next b (Schedule.wakes next s readings).
Proof.
  intros Hl Hb s Ht. unfold s in *. unfold Schedule.open, Schedule.tick in *. simpl in *.
  rewrite Hb in *. simpl in *. split; [done|].
  by apply (Schedule.wakes_consecutive next _ b now).
Qed.

(** An occurrence is owed until the next one is due and no longer, where no bound is stated, so
    that at most one is ever waiting. *)
Theorem late_until_next next a b :
  Schedule.lawful next -> next a = Some b ->
  Schedule.late next None a = Some (b - a) /\ 0 < b - a /\
  forall ms, Schedule.late next (Some ms) a = Some ms.
Proof.
  intros [Hn _] Hb. unfold Schedule.late. rewrite Hb. destruct (Hn a b Hb) as [? _].
  split; [done|]. split; [lia | done].
Qed.

(** An occurrence is stored under one id by every replica and every boot, and two occurrences
    never under one: the parts of the id are joined alike exactly where the region, the endpoint
    and the moment are the same. *)
Theorem occurrence_ids region endpoint a region' endpoint' a' :
  Identity.name (Schedule.id_parts region endpoint a) =
    Identity.name (Schedule.id_parts region' endpoint' a') <->
  region = region' /\ endpoint = endpoint' /\ a = a'.
Proof.
  unfold Schedule.id_parts. split; [|by intros (-> & -> & ->)].
  intros [_ H1]%name_cons_inj. apply name_cons_inj in H1 as [Hr H2].
  apply name_cons_inj in H2 as [He H3]. apply name_cons_inj in H3 as [Ha _].
  simpl in *. unfold show in *. apply (inj pretty) in Hr. apply (inj pretty) in Ha. done.
Qed.

(** ** A sweep in three intervals of ten seconds, and a schedule of every minute *)

Definition minutely : Z -> option Z := fun now => Some ((now / 60000 + 1) * 60000).

Lemma minutely_lawful : Schedule.lawful minutely.
Proof.
  split; [|done]. unfold minutely. intros u a [= <-].
  pose proof (Z.div_mod u 60000 ltac:(lia)). pose proof (Z.mod_pos_bound u 60000 ltac:(lia)).
  split; [nia|]. intros v Hv. do 2 f_equal. f_equal. symmetry.
  apply Z.div_unique_pos with (v - 60000 * (u / 60000)); nia.
Qed.

Lemma boundary_exact_witness :
  Cycle.boundary 10000 3 3333 = 3334 /\ Cycle.ordinal 10000 3 3334 = Cycle.ordinal 10000 3 3333 + 1.
Proof. split; [reflexivity|]. apply (boundary_exact 10000 3 3333); lia. Defined.

Lemma wait_bounds_witness : 0 < Cycle.wait 10000 3 3333 <= MAX_DELAY.
Proof. apply (wait_bounds 10000 3 3333); lia. Defined.

Definition sweep : list (Z * Pulse.event) :=
  [(3334, Pulse.Wake (Some (Some [1]))); (3400, Pulse.Returned); (6666, Pulse.Wake (Some (Some [1])));
   (13334, Pulse.Wake (Some (Some [1])))].


Lemma occurrences_consecutive_witness :
  Schedule.consecutive minutely 60000
    (Schedule.wakes minutely (fst (Schedule.open minutely 5 Schedule.initial)) [59999; 60000; 120001]).
Proof.
  apply (occurrences_consecutive minutely 5 60000); [exact minutely_lawful | reflexivity |].
  simpl. split_and!; try lia; intros a b [= <-] [= <-]; vm_compute; reflexivity.
Defined.

Lemma late_until_next_witness : Schedule.late minutely None 60000 = Some 60000.
Proof. apply (late_until_next minutely 60000 120000 minutely_lawful eq_refl). Defined.
