(* ===== verification/Cadence.v ===== *)
(** * Cadence

    [extensions/cadence/source/row.ts] and [Dispatcher.ts], with the [settle] operation of
    [cadence.metronome]: the calls a component puts off, and the replica that makes them. [stored]
    is a row; [Module Dispatcher] is what one replica holds of the rows in its hands, a definition
    per method, and its [step] interleaves what it does with what its broker and its store answer. *)
From S2P Require Import Prelude Identity Exceptions.

Open Scope Z_scope.

Definition LANES : Z := 128.
Definition DISCRETENESS : Z := 60.
Definition BATCH : nat := 200.
Definition STALLED : Z := 5.

(** [Number.MAX_SAFE_INTEGER], the end of representable time *)
Definition MAX_SAFE_INTEGER : Z := 2 ^ 53 - 1.

(** the variable, where it is a positive number: [None] is [NaN] *)
Definition number (variable : option Z) (fallback : Z) : Z :=
  match variable with
  | Some value => if value <=? 0 then fallback else value
  | None => fallback
  end.

(** ** Rows *)

Record stored := mkStored {
  id : string;
  lane : Z;
  due : Z;
  expires : Z;
  endpoint : string;
  request : option value;
  trail : option (list string);
  schedule : option (string * string);
  overdue : option Z;
  DELETED : option Z
}.

Section rows.
(** [Math.floor(Math.random() * LANES)] *)
Context (drawn : Z).

(** a call to make once: [late] is how late it may be, [None] for no bound *)
Definition row (id endpoint : string) (due : Z) (late : option Z) (request : option value)
    (trail : option (list string)) : stored :=
  mkStored id (drawn mod LANES) due
    (match late with None => MAX_SAFE_INTEGER | Some late => due + late end)
    endpoint request trail None None None.

(** a schedule: its expression and its zone *)
Definition recurring (id endpoint : string) (due : Z) (request : option value)
    (recurs : string * string) (overdue expires : option Z) : stored :=
  mkStored id (drawn mod LANES) due (default MAX_SAFE_INTEGER expires) endpoint request None
    (Some recurs) overdue None.
End rows.

Section recurrence.
(** [occurrences(schedule, zone)]: what comes first after a moment *)
Context (occurrences : string * string -> Z -> option Z).

Definition next (r : stored) (after : Z) : option Z :=
  schedule r ≫= fun recurs => occurrences recurs after.

(** the moment past which the occurrence a row waits for is no longer made *)
Definition bound (r : stored) : Z :=
  match overdue r with
  | Some late => due r + late
  | None => default MAX_SAFE_INTEGER (next r (due r))
  end.

(** the occurrence a row moves on to *)
Definition following (r : stored) (now : Z) : option Z :=
  match next r (Z.max now (due r)) with
  | None => None
  | Some at_ => if expires r <? at_ then None else Some at_
  end.

Definition with_due (r : stored) (at_ : Z) : stored :=
  mkStored (id r) (lane r) at_ (expires r) (endpoint r) (request r) (trail r) (schedule r) (overdue r)
    (DELETED r).

Definition tombstone (r : stored) (now : Z) : stored :=
  mkStored (id r) (lane r) (due r) (expires r) (endpoint r) (request r) (trail r) (schedule r)
    (overdue r) (Some now).

(** [settle], of one of the rows it was asked for: [made] says the occurrence each was at *)
Definition settle_row (now : Z) (made : gmap string Z) (ended : list string) (r : stored) : stored :=
  match schedule r with
  | None => tombstone r now
  | Some _ =>
      if decide (id r ∈ ended) then tombstone r now
      else if decide (made !! id r = Some (due r)) then
        match following r now with
        | None => tombstone r now
        | Some at_ => with_due r at_
        end
      else r
  end.

(** ** The dispatcher of a replica *)

(** a timer or a call of a row, told by the number it was set under *)
Record t := mk {
  (** timers that are set *)
  timers : list (nat * stored);
  (** rows in this replica's hands: the number of what holds each, and its lane *)
  armed : gmap string (nat * Z);
  (** calls on their way *)
  flying : list stored;
  (** ids called and not yet settled, with the occurrence each was at *)
  called : gmap string Z;
  (** recurring rows that are over *)
  ended : list string;
  set_ : nat;
  closing : bool;
  quiesced : bool
}.

Definition initial : t := mk [] ∅ [] ∅ [] 0 false false.

Definition hold (d : t) (i : string) (at_ : Z) : t :=
  mk (timers d) (armed d) (flying d) (<[i := at_]> (called d)) (ended d) (set_ d) (closing d) (quiesced d).

Definition end_ (d : t) (i : string) : t :=
  mk (timers d) (armed d) (flying d) (called d) (add i (ended d)) (set_ d) (closing d) (quiesced d).

(** [clearTimeout(timer); armed.delete(id)] of the rows that are to be given up *)
Definition drop (given_up : string -> nat * Z -> bool) (d : t) : t :=
  let dropped := filter (fun kv => given_up (fst kv) (snd kv)) (armed d) in
  let cleared := (fun kv => fst (snd kv)) <$> map_to_list dropped in
  mk (filter (fun timer => fst timer ∉ cleared) (timers d))
    (filter (fun kv => ~ given_up (fst kv) (snd kv)) (armed d))
    (flying d) (called d) (ended d) (set_ d) (closing d) (quiesced d).

(** what is armed for a lane this replica no longer holds *)
Definition disarm (lanes : list Z) (d : t) : t :=
  drop (fun _ armed => bool_decide (snd armed ∉ lanes)) d.

(** what the store no longer answers with *)
Definition forget (read : list string) (d : t) : t :=
  drop (fun i _ => bool_decide (i ∉ read /\ called d !! i = None)) d.

(** what [arm] makes of a row that is not in hand *)
Inductive decision :=
| Ended
| Lapsed
| Wait (delay : Z).

Definition decide_row (now : Z) (r : stored) : decision :=
  match schedule r with
  | Some _ =>
      if expires r <=? now then Ended
      else if bound r <=? now then Lapsed
      else Wait (Z.max (due r - now) 0)
  | None =>
      if expires r <=? now then Lapsed else Wait (Z.max (due r - now) 0)
  end.

Definition in_hand (d : t) (i : string) : bool :=
  bool_decide (is_Some (armed d !! i)) || bool_decide (is_Some (called d !! i)) ||
  bool_decide (i ∈ ended d).

Definition arm (now : Z) (d : t) (r : stored) : t :=
  if in_hand d (id r) then d
  else
    match decide_row now r with
    | Ended => end_ d (id r)
    | Lapsed => hold d (id r) (due r)
    | Wait _ =>
        mk (timers d ++ [(set_ d, r)]) (<[id r := (set_ d, lane r)]> (armed d)) (flying d) (called d)
          (ended d) (S (set_ d)) (closing d) (quiesced d)
    end.

(** [scan], past the settling: what it read, and what it no longer does *)
Definition scanned (now : Z) (rows : list stored) (d : t) : t :=
  let d := foldl (arm now) d rows in
  if (length rows =? BATCH)%nat then d else forget (id <$> rows) d.

(** until when a scan reads *)
Definition horizon (discreteness now : Z) : Z := now + 2 * discreteness.

Definition release (i : string) (d : t) : t :=
  mk (timers d) (base.delete i (armed d)) (flying d) (called d) (ended d) (set_ d) (closing d) (quiesced d).

(** a timer went off: [dispatch], up to the call *)
Definition dispatch (h : nat) (r : stored) (d : t) : t :=
  let rest := filter (fun timer => fst timer <> h) (timers d) in
  if closing d then
    release (id r) (mk rest (armed d) (flying d) (called d) (ended d) (set_ d) (closing d) (quiesced d))
  else mk rest (armed d) (flying d ++ [r]) (called d) (ended d) (set_ d) (closing d) (quiesced d).

(** how a call ended: taken, or refused, for good or not *)
Inductive outcome := Taken | Refused (permanently : bool).

(** [const [namespace, name] = endpoint.split('.')] *)
Definition component (endpoint : string) : string :=
  match split "."%char endpoint with
  | namespace :: name :: _ => namespace +:+ "." +:+ name
  | _ => endpoint
  end.

(** what a call of a row asks: its input and its identity *)
Definition identity_parts (r : stored) : string + list part :=
  match schedule r with
  | None => inl (id r)
  | Some _ => inr [Text (id r); Number (due r)]
  end.

Definition input_of (r : stored) : value :=
  let given :=
    match request r with
    | Some (VObject fields) => default VNull (own fields "input")
    | _ => VNull
    end in
  match schedule r with
  | None => given
  | Some _ =>
      VObject ((match given with
                | VObject fields => filter (fun f => fst f <> "at") fields
                | _ => []
                end) ++ [("at", VNumber (due r))])
  end.

(** the first of the calls that equals this one, out of those on their way *)
Fixpoint landed (i : string) (at_ : Z) (calls : list stored) : list stored :=
  match calls with
  | [] => []
  | r :: calls =>
      if decide (id r = i /\ due r = at_) then calls else r :: landed i at_ calls
  end.

(** the rest of [dispatch] *)
Definition finished (how : outcome) (r : stored) (d : t) : t :=
  let d := mk (timers d) (armed d) (landed (id r) (due r) (flying d)) (called d) (ended d) (set_ d)
             (closing d) (quiesced d) in
  let d :=
    match how with
    | Taken => hold d (id r) (due r)
    | Refused true =>
        match schedule r with None => hold d (id r) (due r) | Some _ => end_ d (id r) end
    | Refused false => d
    end in
  release (id r) d.

(** [settle], once its write came back: what it settled is held no longer *)
Definition settled (made : gmap string Z) (over : list string) (d : t) : t :=
  mk (timers d) (armed d) (flying d) (filter (fun kv => made !! fst kv = None) (called d))
    (filter (fun i => i ∉ over) (ended d)) (set_ d) (closing d) (quiesced d).

(** [close] and [pause], up to the settling *)
Definition stop (d : t) : t := mk [] ∅ (flying d) (called d) (ended d) (set_ d) (closing d) (quiesced d).

Definition close (d : t) : t :=
  let d := stop d in
  mk (timers d) (armed d) (flying d) (called d) (ended d) (set_ d) true (quiesced d).

Definition pause (d : t) : t :=
  let d := stop d in
  mk (timers d) (armed d) (flying d) (called d) (ended d) (set_ d) (closing d) true.

Definition unpause (d : t) : t :=
  mk (timers d) (armed d) (flying d) (called d) (ended d) (set_ d) (closing d) false.
End recurrence.

(** ** A replica, step by step *)

(** why a row is given up: its call was made, it was past its bound, it was refused for good, or
    the schedule it is was over *)
Inductive reason :=
| Made (r : stored)
| Late (r : stored) (now : Z)
| Refusal (r : stored)
| Over (r : stored) (now : Z).

Record replica := mkReplica { dispatcher : t; log : list reason }.

Section step.
Context (occurrences : string * string -> Z -> option Z).

(** what arming a row gives it up for *)
Definition armed_for (now : Z) (d : t) (r : stored) : list reason :=
  if in_hand d (id r) then []
  else
    match decide_row occurrences now r with
    | Ended => [Over r now]
    | Lapsed => [Late r now]
    | Wait _ => []
    end.

Definition finished_for (how : outcome) (r : stored) : list reason :=
  match how with
  | Taken => [Made r]
  | Refused true => [Refusal r]
  | Refused false => []
  end.

(** whether what is given up leaves alone the calls that are on their way *)
Definition spares (given_up : string -> nat * Z -> bool) (d : t) : Prop :=
  forall r held, r ∈ flying d -> armed d !! id r = Some held -> given_up (id r) held = false.

(** Whatever a replica does, one thing at a time. Where [spared] says so, it neither gives up a row
    whose call is on its way, nor goes quiet or down while one is. *)
Inductive step (spared : bool) : replica -> replica -> Prop :=
(** a scan arms a row that it read *)
| step_arm now r d l : step spared (mkReplica d l) (mkReplica (arm occurrences now d r) (armed_for now d r ++ l))
(** a timer goes off *)
| step_dispatch h r d l : (h, r) ∈ timers d -> step spared (mkReplica d l) (mkReplica (dispatch h r d) l)
(** a call ends *)
| step_finished how r d l :
    r ∈ flying d -> step spared (mkReplica d l) (mkReplica (finished how r d) (finished_for how r ++ l))
(** a settle that was sent comes back *)
| step_settled made over d l : step spared (mkReplica d l) (mkReplica (settled made over d) l)
(** a lane is lost, or a row is no longer read *)
| step_drop given_up d l :
    (spared = true -> spares given_up d) -> step spared (mkReplica d l) (mkReplica (drop given_up d) l)
(** the process goes quiet or down, and comes back *)
| step_pause d l : (spared = true -> flying d = []) -> step spared (mkReplica d l) (mkReplica (pause d) l)
| step_unpause d l : step spared (mkReplica d l) (mkReplica (unpause d) l)
| step_close d l : (spared = true -> flying d = []) -> step spared (mkReplica d l) (mkReplica (close d) l).

Inductive reachable (spared : bool) : replica -> Prop :=
| reachable_initial : reachable spared (mkReplica initial [])
| reachable_step s s' : reachable spared s -> step spared s s' -> reachable spared s'.

(** ** Lemmas *)

Definition ids_timed (d : t) : list string := (fun timer => id (snd timer)) <$> timers d.
Definition ids_flying (d : t) : list string := id <$> flying d.

Record well (d : t) : Prop := {
  well_once : NoDup (ids_timed d ++ ids_flying d);
  well_armed : forall i, is_Some (armed d !! i) <-> i ∈ ids_timed d ++ ids_flying d;
  well_timer : forall h r, (h, r) ∈ timers d -> armed d !! id r = Some (h, lane r);
  well_handle : forall i j h l l', armed d !! i = Some (h, l) -> armed d !! j = Some (h, l') -> i = j;
  well_set : forall i h l, armed d !! i = Some (h, l) -> (h < set_ d)%nat
}.

Lemma well_initial : well initial.
Proof.
  split; simpl; try done; [constructor | | by intros h r ?%elem_of_nil].
  intros i. split; [by intros [? ?] | by intros ?%elem_of_nil].
Qed.

(** a state that holds the same rows in the same hands *)
Lemma well_same d d' :
  timers d' = timers d -> armed d' = armed d -> flying d' = flying d -> set_ d' = set_ d ->
  well d -> well d'.
Proof.
  intros Ht Ha Hf Hs [W1 W2 W3 W4 W5].
  split; unfold ids_timed, ids_flying in *; rewrite ?Ht, ?Ha, ?Hf, ?Hs; done.
Qed.

Lemma well_arm now d r : well d -> well (arm occurrences now d r).
Proof.
  intros W. unfold arm. destruct (in_hand d (id r)) eqn:Hh; [done|].
  assert (armed d !! id r = None) as Hn.
  { unfold in_hand in Hh. apply orb_false_iff in Hh as [Hh _]. apply orb_false_iff in Hh as [Hh _].
    apply bool_decide_eq_false in Hh. by apply eq_None_not_Some. }
  destruct (decide_row occurrences now r); [by eapply well_same; [..|exact W]..|].
  destruct W as [W1 W2 W3 W4 W5]. unfold ids_timed, ids_flying in *.
  assert (id r ∉ ids_timed d ++ ids_flying d) as Hni.
  { intros Hi. apply W2 in Hi. rewrite Hn in Hi. by destruct Hi. }
  unfold ids_timed, ids_flying in Hni.
  split; simpl; unfold ids_timed, ids_flying; simpl.
  - rewrite fmap_app. rewrite <- app_assoc. simpl.
    rewrite <- Permutation_middle. by apply NoDup_cons.
  - intros i. rewrite fmap_app. destruct (decide (i = id r)) as [->|Hne].
    + rewrite lookup_insert_eq. split; [set_solver | by eexists].
    + rewrite lookup_insert_ne by congruence. rewrite W2. simpl. set_solver.
  - intros h q [Hq | Hq%list_elem_of_singleton]%elem_of_app.
    + rewrite lookup_insert_ne; [by apply W3|]. intros Heq. apply W3 in Hq. congruence.
    + injection Hq as -> ->. apply lookup_insert_eq.
  - intros i j h l l' [[<- [= <- <-]] | [Hi Hil]]%lookup_insert_Some
      [[<- [= <-]] | [Hj Hjl]]%lookup_insert_Some; try done.
    + apply W5 in Hjl. lia.
    + apply W5 in Hil. simplify_eq. lia.
    + by eapply W4.
  - intros i h l [[<- [= <- <-]] | [Hi Hil]]%lookup_insert_Some; [lia|]. apply W5 in Hil. lia.
Qed.

(** a timer, by its number *)
Lemma well_timers_filter d h r :
  well d -> (h, r) ∈ timers d ->
  exists l k, timers d = l ++ (h, r) :: k /\
    filter (fun timer => fst timer <> h) (timers d) = l ++ k.
Proof.
  intros [W1 W2 W3 W4 W5] Hin. apply list_elem_of_split in Hin as (l & k & Ht). exists l, k. split; [done|].
  rewrite Ht, filter_app, filter_cons_False by (simpl; tauto).
  assert (forall h' r', (h', r') ∈ l \/ (h', r') ∈ k -> h' <> h) as Hother.
  { intros h' r' Hin ->. assert ((h, r') ∈ timers d) as H1 by (rewrite Ht; set_solver).
    assert ((h, r) ∈ timers d) as H2 by (rewrite Ht; set_solver).
    apply W3 in H1, H2. pose proof (W4 _ _ _ _ _ H1 H2) as Heq.
    unfold ids_timed in W1. rewrite Ht, fmap_app in W1. simpl in W1.
    apply NoDup_app in W1 as [W1 _]. rewrite <- Permutation_middle in W1.
    apply NoDup_cons in W1 as [W1 _]. apply W1. rewrite <- Heq.
    apply elem_of_app. destruct Hin as [Hin|Hin]; [left|right];
      by apply (list_elem_of_fmap_2 (fun timer => id (snd timer))) in Hin. }
  rewrite !list_filter_id; [done| |]; intros [h' r'] Hin; simpl; apply (Hother h' r'); auto.
Qed.

Lemma well_dispatch h r d : well d -> (h, r) ∈ timers d -> well (dispatch h r d).
Proof.
  intros W Hin. destruct (well_timers_filter d h r W Hin) as (l & k & Ht & Hf).
  pose proof W as [W1 W2 W3 W4 W5]. unfold dispatch. rewrite Hf.
  assert (ids_timed d ≡ₚ id r :: ((fun timer => id (snd timer)) <$> l ++ k)) as Hids.
  { unfold ids_timed. rewrite Ht, !fmap_app, fmap_cons. by rewrite Permutation_middle. }
  assert (forall x, x ∈ l ++ k -> x ∈ timers d) as Hsub.
  { intros x. rewrite Ht. set_solver. }
  rewrite Hids in W1. simpl in W1. pose proof W1 as [Hr W1']%NoDup_cons.
  destruct (closing d).
  - split; unfold ids_timed, ids_flying, release; simpl.
    + exact W1'.
    + intros i. rewrite <- not_eq_None_Some, lookup_delete_None, <- eq_None_not_Some || idtac.
      destruct (decide (i = id r)) as [->|Hne].
      * rewrite lookup_delete_eq. split; [by intros [? ?] | done].
      * rewrite lookup_delete_ne by done. rewrite W2, Hids. simpl. set_solver.
    + intros h' r' Hin'. rewrite lookup_delete_ne; [apply W3; by apply Hsub|].
      intros Heq. apply Hr. rewrite Heq. apply elem_of_app. left.
      by apply (list_elem_of_fmap_2 (fun timer => id (snd timer))) in Hin'.
    + intros i j h' l1 l2 [_ H1]%lookup_delete_Some [_ H2]%lookup_delete_Some. by eapply W4.
    + intros i h' l1 [_ H1]%lookup_delete_Some. by eapply W5.
  - split; unfold ids_timed, ids_flying; simpl.
    + rewrite (fmap_app id (flying d) [r]), app_assoc. simpl. rewrite <- Permutation_cons_append.
      by apply NoDup_cons.
    + intros i. rewrite W2, Hids, (fmap_app id (flying d) [r]). unfold ids_flying. set_solver.
    + intros h' r' Hin'. apply W3. by apply Hsub.
    + exact W4.
    + exact W5.
Qed.

Lemma landed_split i at_ calls r :
  r ∈ calls -> id r = i -> due r = at_ ->
  exists q, id q = i /\ calls ≡ₚ q :: landed i at_ calls.
Proof.
  intros Hin Hi Ha. induction calls as [|c calls IH]; [by apply elem_of_nil in Hin|]. simpl.
  case_decide as Hc; [exists c; naive_solver|].
  apply elem_of_cons in Hin as [->|Hin]; [naive_solver|].
  destruct (IH Hin) as (q & Hq & Hp). exists q. split; [done|]. rewrite Hp at 1. apply perm_swap.
Qed.

Lemma well_finished how r d : well d -> r ∈ flying d -> well (finished how r d).
Proof.
  intros [W1 W2 W3 W4 W5] Hin.
  destruct (landed_split (id r) (due r) (flying d) r Hin eq_refl eq_refl) as (q & Hq & Hp).
  assert (ids_flying d ≡ₚ id r :: (id <$> landed (id r) (due r) (flying d))) as Hids.
  { unfold ids_flying. rewrite Hp at 1. simpl. by rewrite Hq. }
  rewrite Hids, <- Permutation_middle in W1. apply NoDup_cons in W1 as [Hr W1].
  apply (well_same (release (id r) (mk (timers d) (armed d) (landed (id r) (due r) (flying d))
           (called d) (ended d) (set_ d) (closing d) (quiesced d)))).
  1-4: unfold finished; destruct how as [|[|]]; try done; by destruct (schedule r).
  split; unfold ids_timed, ids_flying, release; simpl.
  - exact W1.
  - intros i. destruct (decide (i = id r)) as [->|Hne].
    + rewrite lookup_delete_eq. split; [by intros [? ?] | done].
    + rewrite lookup_delete_ne by done. rewrite W2, Hids. set_solver.
  - intros h' r' Hin'. rewrite lookup_delete_ne; [by apply W3|].
    intros Heq. apply Hr. rewrite Heq. apply elem_of_app. left.
    by apply (list_elem_of_fmap_2 (fun timer => id (snd timer))) in Hin'.
  - intros i j h' l1 l2 [_ H1]%lookup_delete_Some [_ H2]%lookup_delete_Some. by eapply W4.
  - intros i h' l1 [_ H1]%lookup_delete_Some. by eapply W5.
Qed.

Lemma well_drop given_up d : well d -> spares given_up d -> well (drop given_up d).
Proof.
  intros [W1 W2 W3 W4 W5] Hsp. unfold drop.
  set (gone := filter (fun kv => given_up (fst kv) (snd kv)) (armed d)).
  set (cleared := (fun kv => fst (snd kv)) <$> map_to_list gone).
  assert (forall i h l, armed d !! i = Some (h, l) -> h ∈ cleared <-> given_up i (h, l) = true) as Hcl.
  { intros i h l Hi. unfold cleared. rewrite list_elem_of_fmap. split.
    - intros ([j [h' l']] & -> & Hj). apply elem_of_map_to_list, map_lookup_filter_Some in Hj as [Hj Hg].
      simpl in *. pose proof (W4 _ _ _ _ _ Hi Hj) as ->. rewrite Hi in Hj. injection Hj as <-.
      by apply Is_true_true.
    - intros Hg. exists (i, (h, l)). split; [done|]. apply elem_of_map_to_list, map_lookup_filter_Some.
      split; [done|]. simpl. by apply Is_true_true. }
  assert (forall h r, (h, r) ∈ filter (fun timer => fst timer ∉ cleared) (timers d) ->
    filter (fun kv => ~ given_up (fst kv) (snd kv)) (armed d) !! id r = Some (h, lane r)) as Ht.
  { intros h r [Hh Hin]%list_elem_of_filter. simpl in Hh. pose proof (W3 _ _ Hin) as Ha.
    apply map_lookup_filter_Some. split; [done|]. simpl. intros Hg. apply Hh.
    apply (Hcl _ _ _ Ha). by apply Is_true_true. }
  split; unfold ids_timed, ids_flying; simpl.
  - eapply sublist_NoDup; [exact W1|]. apply sublist_app; [|done]. apply fmap_sublist, sublist_filter.
  - intros i. split.
    + intros [[h l] [Ha Hg]%map_lookup_filter_Some]. simpl in Hg.
      assert (is_Some (armed d !! i)) as Hs by (by eexists). apply W2, elem_of_app in Hs as [Hs|Hs].
      * apply list_elem_of_fmap in Hs as ([h' r] & -> & Hin). simpl in *. pose proof (W3 _ _ Hin) as Ha'.
        rewrite Ha in Ha'. injection Ha' as <- ->. apply elem_of_app. left.
        apply list_elem_of_fmap. exists (h, r). split; [done|]. apply list_elem_of_filter. split; [|done].
        simpl. rewrite (Hcl _ _ _ Ha). intros Heq. apply Hg. by apply Is_true_true.
      * apply elem_of_app. by right.
    + intros [Hs|Hs]%elem_of_app.
      * apply list_elem_of_fmap in Hs as ([h r] & -> & Hin). apply Ht in Hin. by eexists.
      * assert (is_Some (armed d !! i)) as [held Ha] by (apply W2, elem_of_app; by right).
        exists held. apply map_lookup_filter_Some. split; [done|].
        apply list_elem_of_fmap in Hs as (r & -> & Hin). simpl. rewrite (Hsp r held Hin Ha). by intros [].
  - exact Ht.
  - intros i j h l l' [H1 _]%map_lookup_filter_Some [H2 _]%map_lookup_filter_Some. by eapply W4.
  - intros i h l [H1 _]%map_lookup_filter_Some. by eapply W5.
Qed.

Lemma well_stop d : flying d = [] -> well (stop d).
Proof.
  intros Hf. split; unfold ids_timed, ids_flying; simpl; rewrite ?Hf; simpl.
  - constructor.
  - intros i. rewrite lookup_empty. split; [by intros [? ?] | by intros ?%elem_of_nil].
  - by intros h r ?%elem_of_nil.
  - intros i j h l l'. by rewrite lookup_empty.
  - intros i h l. by rewrite lookup_empty.
Qed.

Lemma reachable_well s : reachable true s -> well (dispatcher s).
Proof.
  induction 1 as [|s s' _ IH Hs]; [apply well_initial|].
  destruct Hs as [now r d l|h r d l Hin|how r d l Hin|made over d l|given_up d l Hsp|d l Hf|d l|d l Hf];
    simpl in *.
  - by apply well_arm.
  - by apply well_dispatch.
  - by apply well_finished.
  - by eapply well_same; [..|exact IH].
  - by apply well_drop; [|apply Hsp].
  - eapply well_same; [..|exact (well_stop d (Hf eq_refl))]; done.
  - by eapply well_same; [..|exact IH].
  - eapply well_same; [..|exact (well_stop d (Hf eq_refl))]; done.
Qed.
End step.

Section reasons.
Context (occurrences : string * string -> Z -> option Z).

(** what a log says was given up for, is so *)
Definition truthful (e : reason) : Prop :=
  match e with
  | Made _ | Refusal _ => True
  | Late r now =>
      expires r <= now \/ (is_Some (schedule r) /\ bound occurrences r <= now)
  | Over r now => is_Some (schedule r) /\ expires r <= now
  end.

(** a row called, at its occurrence, is one made, past its bound, or refused for good; and one that
    is over is a schedule that expired, or was refused for good *)
Definition called_for (l : list reason) (i : string) (at_ : Z) : Prop :=
  exists r, id r = i /\ due r = at_ /\
    (Made r ∈ l \/ (exists now, Late r now ∈ l) \/ (Refusal r ∈ l /\ schedule r = None)).

Definition ended_for (l : list reason) (i : string) : Prop :=
  exists r, id r = i /\ ((exists now, Over r now ∈ l) \/ (Refusal r ∈ l /\ is_Some (schedule r))).

Definition reasoned (s : replica) : Prop :=
  Forall truthful (log s) /\
  (forall i at_, called (dispatcher s) !! i = Some at_ -> called_for (log s) i at_) /\
  (forall i, i ∈ ended (dispatcher s) -> ended_for (log s) i).

Lemma called_for_mono l l' i at_ : (forall e, e ∈ l -> e ∈ l') -> called_for l i at_ -> called_for l' i at_.
Proof. intros Hl (r & ? & ? & Hr). exists r. naive_solver. Qed.

Lemma ended_for_mono l l' i : (forall e, e ∈ l -> e ∈ l') -> ended_for l i -> ended_for l' i.
Proof. intros Hl (r & ? & Hr). exists r. naive_solver. Qed.

(** a state that holds no more than another, for the reasons given so far *)
Lemma reasoned_less d d' l l' :
  (forall i at_, called d' !! i = Some at_ -> called d !! i = Some at_ \/ called_for l' i at_) ->
  (forall i, i ∈ ended d' -> i ∈ ended d \/ ended_for l' i) ->
  (forall e, e ∈ l -> e ∈ l') -> Forall truthful l' ->
  reasoned (mkReplica d l) -> reasoned (mkReplica d' l').
Proof.
  intros Hc He Hl Ht (_ & Hd & Hd'). split; [done|]. simpl in *. split.
  - intros i at_ Hi. destruct (Hc i at_ Hi) as [?|]; [|done]. eapply called_for_mono; [exact Hl | auto].
  - intros i Hi. destruct (He i Hi) as [?|]; [|done]. eapply ended_for_mono; [exact Hl | auto].
Qed.

Lemma reasoned_arm now d r l :
  reasoned (mkReplica d l) ->
  reasoned (mkReplica (arm occurrences now d r) (armed_for occurrences now d r ++ l)).
Proof.
  intros Hr. pose proof Hr as (Ht & _). simpl in Ht. unfold arm, armed_for.
  destruct (in_hand d (id r)); [done|]. unfold decide_row.
  destruct (schedule r) as [recurs|] eqn:Hs; destruct (Z.leb_spec (expires r) now) as [He|He].
  - eapply reasoned_less; [| | | |exact Hr]; simpl; [by left| |set_solver|].
    + intros i [->|?]%elem_of_add; [|by left]. right. exists r. split; [done|]. left. exists now. set_solver.
    + constructor; [|done]. simpl. by rewrite Hs.
  - destruct (Z.leb_spec (bound occurrences r) now) as [Hb|Hb]; [|done].
    eapply reasoned_less; [| | | |exact Hr]; simpl; [|by left|set_solver|].
    + intros i at_ [[<- <-] | [_ ?]]%lookup_insert_Some; [|by left]. right. exists r.
      split_and!; [done..|]. right. left. exists now. set_solver.
    + constructor; [|done]. simpl. right. by rewrite Hs.
  - eapply reasoned_less; [| | | |exact Hr]; simpl; [|by left|set_solver|].
    + intros i at_ [[<- <-] | [_ ?]]%lookup_insert_Some; [|by left]. right. exists r.
      split_and!; [done..|]. right. left. exists now. set_solver.
    + constructor; [|done]. simpl. by left.
  - done.
Qed.

Lemma reasoned_finished how d r l :
  reasoned (mkReplica d l) -> reasoned (mkReplica (finished how r d) (finished_for how r ++ l)).
Proof.
  intros Hr. pose proof Hr as (Ht & _). simpl in Ht. unfold finished, finished_for.
  destruct how as [|[|]]; simpl; [| |by eapply reasoned_less; [by left|by left|done|done|exact Hr]].
  - eapply reasoned_less; [| | | |exact Hr]; simpl; [|by left|set_solver|by constructor].
    intros i at_ [[<- <-] | [_ ?]]%lookup_insert_Some; [|by left]. right. exists r.
    split_and!; [done..|]. left. set_solver.
  - destruct (schedule r) as [recurs|] eqn:Hs.
    + eapply reasoned_less; [| | | |exact Hr]; simpl; [by left| |set_solver|by constructor].
      intros i [->|?]%elem_of_add; [|by left]. right. exists r. split; [done|]. right. set_solver.
    + eapply reasoned_less; [| | | |exact Hr]; simpl; [|by left|set_solver|by constructor].
      intros i at_ [[<- <-] | [_ ?]]%lookup_insert_Some; [|by left]. right. exists r.
      split_and!; [done..|]. right. right. set_solver.
Qed.

Lemma reachable_reasoned spared s : reachable occurrences spared s -> reasoned s.
Proof.
  induction 1 as [|s s' _ IH Hs].
  { split; [constructor|]. simpl. split; [intros i at_; by rewrite lookup_empty | by intros i ?%elem_of_nil]. }
  pose proof IH as (Ht & _).
  destruct Hs as [now r d l|h r d l Hin|how r d l Hin|made over d l|given_up d l Hsp|d l Hf|d l|d l Hf];
    simpl in Ht.
  - by apply reasoned_arm.
  - eapply reasoned_less; [| | | |exact IH]; try done; unfold dispatch, release; destruct (closing d); by left.
  - by apply reasoned_finished.
  - eapply reasoned_less; [| | | |exact IH]; try done; simpl.
    + intros i at_ [? _]%map_lookup_filter_Some. by left.
    + intros i [_ ?]%list_elem_of_filter. by left.
  - eapply reasoned_less; [| | | |exact IH]; try done; by left.
  - eapply reasoned_less; [| | | |exact IH]; try done; by left.
  - eapply reasoned_less; [| | | |exact IH]; try done; by left.
  - eapply reasoned_less; [| | | |exact IH]; try done; by left.
Qed.

Lemma following_Some r now at_ :
  following occurrences r now = Some at_ ->
  next occurrences r (Z.max now (due r)) = Some at_ /\ at_ <= expires r.
Proof.
  unfold following. destruct (next occurrences r _) as [b|]; [|done].
  destruct (Z.ltb_spec (expires r) b); [done|]. by intros [= <-].
Qed.

(** ** Properties *)


(** A replica holds a row once: while no row is given up with its call on its way, no two timers
    or calls of a replica are of one row, and the rows in its hands are just those it holds a
    timer or a call of. *)
Theorem held_once s :
  reachable occurrences true s ->
  let held := ids_timed (dispatcher s) ++ ids_flying (dispatcher s) in
  NoDup held /\ forall i, is_Some (armed (dispatcher s) !! i) <-> i ∈ held.
Proof. intros Hs. destruct (reachable_well occurrences s Hs). done. Qed.

(** A call that failed on the way is made again: the row is in nobody's hands once it did, and a
    scan that reads it before its bound sets a timer for it. *)
Theorem refused_made_again now r d :
  well d -> r ∈ flying d -> called d !! id r = None -> id r ∉ ended d ->
  now < expires r -> (is_Some (schedule r) -> now < bound occurrences r) ->
  let d := finished (Refused false) r d in
  in_hand d (id r) = false /\ exists h, (h, r) ∈ timers (arm occurrences now d r).
Proof.
  intros W Hin Hc He Hx Hb. simpl.
  assert (in_hand (finished (Refused false) r d) (id r) = false) as Hh.
  { unfold in_hand, finished, release; simpl. rewrite lookup_delete_eq, Hc.
    rewrite !bool_decide_eq_false_2; [done|done| |]; by intros [? ?]. }
  split; [done|]. exists (set_ d). unfold arm. rewrite Hh. unfold decide_row.
  destruct (schedule r) as [recurs|].
  - rewrite (proj2 (Z.leb_gt _ _) Hx), (proj2 (Z.leb_gt _ _) (Hb (ltac:(by eexists)))). simpl. set_solver.
  - rewrite (proj2 (Z.leb_gt _ _) Hx). simpl. set_solver.
Qed.

(** A settle moves a schedule on once: it goes to the next occurrence after now and after the one
    it was at, within its end, and the same settle made again, or one of a replica that called an
    occurrence the row is no longer at, leaves it where it is. *)
Theorem settle_moves_once now now' made ended r r' :
  (forall recurs u a, occurrences recurs u = Some a -> u < a) ->
  is_Some (schedule r) -> id r ∉ ended -> DELETED r = None ->
  settle_row occurrences now made ended r = r' -> DELETED r' = None ->
  (made !! id r = Some (due r) ->
     now < due r' <= expires r /\ due r < due r' /\ following occurrences r now = Some (due r')) /\
  settle_row occurrences now' made ended r' = r'.
Proof.
  intros Hlaw [recurs Hs] He Hd Hr' Hd'. unfold settle_row in Hr'. rewrite Hs in Hr'.
  rewrite decide_False in Hr' by done. destruct (decide (made !! id r = Some (due r))) as [Hm|Hm].
  - destruct (following occurrences r now) as [a|] eqn:Hf; [|by subst].
    apply following_Some in Hf as [Hn Hle]. unfold next in Hn. rewrite Hs in Hn. simpl in Hn.
    apply Hlaw in Hn. subst r'. simpl. split; [intros _; split_and!; (lia || done)|].
    unfold settle_row. simpl. rewrite Hs, decide_False by done.
    rewrite decide_False; [done|]. rewrite Hm. intros [= Heq]. lia.
  - subst r'. split; [done|]. unfold settle_row. by rewrite Hs, decide_False, decide_False.
Qed.
End reasons.

(** ** A scan that is under way

    [pause] and [adopt] clear what is armed, and a scan that is waiting for its rows arms what it
    read once they come: neither the quiescence nor the lanes of the replica are looked at again. *)

Section under_way.
Context (occurrences : string * string -> Z -> option Z).

Lemma scanned_one now r d delay :
  in_hand d (id r) = false -> decide_row occurrences now r = Wait delay ->
  (set_ d, r) ∈ timers (arm occurrences now d r) /\
  scanned occurrences now [r] d = forget [id r] (arm occurrences now d r).
Proof.
  intros Hh Hd. split; [|done]. unfold arm. rewrite Hh, Hd. simpl. set_solver.
Qed.

(** A scan takes no second look once its rows have come. The rows it
    read before the process went quiet are armed in a quiesced process, whose
    timers then make their calls; and a row read under lanes that were since
    given up is armed after [disarm] dropped them, so that the new owner of the
    lane and the old one both make the call. *)
Lemma scan_under_way_arms now r lanes delay :
  decide_row occurrences now r = Wait delay -> lane r ∉ lanes ->
  (let d := arm occurrences now (pause initial) r in
   quiesced d = true /\ (0%nat, r) ∈ timers d /\ flying (dispatch 0 r d) = [r]) /\
  (0%nat, r) ∈ timers (arm occurrences now (disarm lanes initial) r).
Proof.
  intros Hd Hl. unfold arm. rewrite Hd. simpl. split; [|set_solver].
  split; [done|]. split; [set_solver | done].
Qed.
End under_way.

(** ** A call put off, and a schedule of every minute *)

Module Metronome.
Definition minutes : string * string -> Z -> option Z := fun _ now => Some ((now / 60000 + 1) * 60000).

Definition once : stored := row 5 "1" "default.mailer.send" 1000 None None None.
Definition every : stored := recurring 7 "2" "default.mailer.sweep" 60000 None ("* * * * *", "UTC") None None.

Definition d1 : t := arm minutes 0 initial once.
Definition d2 : t := dispatch 0 once d1.
Definition d3 : t := finished Taken once d2.

Lemma reached spared : reachable minutes spared (mkReplica d2 []).
Proof.
  apply (reachable_step minutes spared (mkReplica d1 [])).
  - apply (reachable_step minutes spared (mkReplica initial [])); [constructor|].
    exact (step_arm minutes spared 0 once initial []).
  - apply (step_dispatch minutes spared 0 once d1 []). by apply list_elem_of_singleton.
Qed.

Lemma reached_called spared : reachable minutes spared (mkReplica d3 [Made once]).
Proof.
  apply (reachable_step minutes spared (mkReplica d2 [])); [apply reached|].
  apply (step_finished minutes spared Taken once d2 []). by apply list_elem_of_singleton.
Qed.


Lemma held_once_witness : NoDup (ids_timed d2 ++ ids_flying d2).
Proof. exact (proj1 (held_once minutes (mkReplica d2 []) (reached true))). Defined.

Lemma refused_made_again_witness :
  in_hand (finished (Refused false) once d2) "1" = false /\
  exists h, (h, once) ∈ timers (arm minutes 2000 (finished (Refused false) once d2) once).
Proof.
  apply (refused_made_again minutes 2000 once d2).
  - exact (reachable_well minutes _ (reached true)).
  - by apply list_elem_of_singleton.
  - vm_compute. reflexivity.
  - apply (bool_decide_unpack _). vm_compute. exact I.
  - vm_compute. reflexivity.
  - intros [x Hx]. vm_compute in Hx. discriminate Hx.
Defined.

Lemma settle_moves_once_witness :
  let moved := settle_row minutes 60005 {["2" := 60000]} [] every in
  due moved = 120000 /\ settle_row minutes 60010 {["2" := 60000]} [] moved = moved.
Proof.
  split; [vm_compute; reflexivity|].
  apply (settle_moves_once minutes 60005 60010 {["2" := 60000]} [] every
    (settle_row minutes 60005 {["2" := 60000]} [] every)).
  - intros recurs u a [= <-]. pose proof (Z.div_mod u 60000 ltac:(lia)).
    pose proof (Z.mod_pos_bound u 60000 ltac:(lia)). lia.
  - by eexists.
  - apply (bool_decide_unpack _). vm_compute. exact I.
  - reflexivity.
  - reflexivity.
  - vm_compute. reflexivity.
Defined.
Lemma scan_under_way_arms_witness :
  quiesced (arm minutes 0 (pause initial) once) = true /\
  (0%nat, once) ∈ timers (arm minutes 0 (disarm [] initial) once).
Proof.
  destruct (scan_under_way_arms minutes 0 once [] 1000) as [(Hq & _) Ht]; [reflexivity | | by split].
  apply not_elem_of_nil.
Defined.
End Metronome.
