(* ===== verification/Routing.v ===== *)
(** * Routing

    [extensions/exposition/source/RTD/{segment,Route,Node,Tree}.ts]: the tree of routes a gateway
    serves. A path is cut into fragments and matched against the routes of a node, in their order,
    by routines that push what they take onto shared arrays; branches of components are merged into
    the tree and kept in it by being announced again.

    Nodes are objects shared between the tree and those that extend its branches, and carry an
    [id] for it: a list of nodes is a list of ids. Expirations are milliseconds, none standing for
    [Infinity]; a match reads one clock. *)
From S2P Require Import Prelude.

Open Scope Z_scope.

(** ** Text: what a percent-encoded fragment says, by code points *)

Definition text := list Z.

Definition codes (s : string) : text := (fun c => Z.of_nat (nat_of_ascii c)) <$> chars s.

Definition hex_value (c : ascii) : option Z :=
  let n := Z.of_nat (nat_of_ascii c) in
  if (48 <=? n) && (n <=? 57) then Some (n - 48)
  else if (65 <=? n) && (n <=? 70) then Some (n - 55)
  else if (97 <=? n) && (n <=? 102) then Some (n - 87)
  else None.

(** [%XX] *)
Definition octet (cs : list ascii) : option (Z * list ascii) :=
  match cs with
  | "%"%char :: a :: b :: cs =>
      high ← hex_value a; low ← hex_value b; Some (16 * high + low, cs)
  | _ => None
  end.

(** the bytes that continue a character *)
Fixpoint continued (n : nat) (code : Z) (cs : list ascii) : option (Z * list ascii) :=
  match n with
  | O => Some (code, cs)
  | S n =>
      '(b, cs) ← octet cs;
      if Z.land b 0xc0 =? 0x80 then continued n (Z.lor (Z.shiftl code 6) (Z.land b 0x3f)) cs
      else None
  end.

(** a code point that takes as many bytes as it was written in, and no half of a pair *)
Definition valid_code (bytes : nat) (code : Z) : bool :=
  match bytes with
  | 2%nat => 0x80 <=? code
  | 3%nat => (0x800 <=? code) && negb ((0xd800 <=? code) && (code <=? 0xdfff))
  | _ => (0x10000 <=? code) && (code <=? 0x10ffff)
  end.

(** a character written as escapes *)
Definition escaped (cs : list ascii) : option (Z * list ascii) :=
  '(b, rest) ← octet cs;
  let wide (bytes : nat) (lead : Z) :=
    '(code, rest) ← continued (pred bytes) lead rest;
    if valid_code bytes code then Some (code, rest) else None in
  if b <? 0x80 then Some (b, rest)
  else if b <? 0xc0 then None
  else if b <? 0xe0 then wide 2%nat (Z.land b 0x1f)
  else if b <? 0xf0 then wide 3%nat (Z.land b 0x0f)
  else if b <? 0xf8 then wide 4%nat (Z.land b 0x07)
  else None.

(** [decodeURIComponent], of the language: a step takes a character at least *)
Fixpoint decode_uri (fuel : nat) (cs : list ascii) : option text :=
  match fuel, cs with
  | _, [] => Some []
  | O, _ => None
  | S fuel, c :: rest =>
      if decide (c = "%"%char) then
        '(code, rest) ← escaped cs; decoded ← decode_uri fuel rest; Some (code :: decoded)
      else decoded ← decode_uri fuel rest; Some (Z.of_nat (nat_of_ascii c) :: decoded)
  end.

Definition decodeURIComponent (s : string) : option text := decode_uri (length (chars s)) (chars s).

(** What is read past the end of an array is [undefined], which reads as its name. *)
Definition decode (fragment : option string) : text :=
  let s := default "undefined" fragment in
  default (codes s) (decodeURIComponent s).

(** [texts.join('/')] *)
Fixpoint joined (texts : list text) : text :=
  match texts with
  | [] => []
  | [t] => t
  | t :: texts => t ++ codes "/" ++ joined texts
  end.

(** ** Segments *)

Record segment := mkSegment {
  fragment : option string;
  placeholder : option string;
  wildcard : bool;
}.

#[export] Instance segment_eq_dec : EqDecision segment.
Proof. solve_decision. Defined.

Definition literal (s : string) : segment := mkSegment (Some s) None false.

Definition fragments (path : string) : list string :=
  let parts := split "/"%char path in
  let parts := match last parts with Some "" => removelast parts | _ => parts end in
  drop 1 parts.

Definition parse (s : string) : segment :=
  match s with
  | String ":" name => mkSegment None (Some name) false
  | "*" => mkSegment None None false
  | "**" => mkSegment None None true
  | _ => literal s
  end.

Definition segments (path : string) : list segment := parse <$> fragments path.

(** Parameters by name: describing has no values for them. *)
Definition parameter : Type := string * text.

Definition variables (segs : list segment) : list parameter :=
  s ← segs;
  match fragment s, placeholder s with
  | Some _, _ => []
  | None, name => if wildcard s then [("**", [])] else match name with Some n => [(n, [])] | None => [] end
  end.

Definition piece (s : segment) : string :=
  match fragment s, placeholder s with
  | Some f, _ => f
  | None, name => if wildcard s then "**" else match name with None => "*" | Some n => ":" +:+ n end
  end.

Definition template (segs : list segment) : string :=
  match segs with [] => "/" | _ => "/" +:+ join "/" (piece <$> segs) end.

(** ** Routes and nodes *)

Section tree.
Context {M : Type}.

Inductive node :=
| Node (id : nat) (intermediate : bool) (forward : option string) (expiration : option Z)
    (methods : list (string * M)) (protected : bool) (routes : list route)
with route :=
| Route (segs : list segment) (n : node).

Definition id (n : node) := let 'Node i _ _ _ _ _ _ := n in i.
Definition intermediate (n : node) := let 'Node _ i _ _ _ _ _ := n in i.
Definition forward (n : node) := let 'Node _ _ f _ _ _ _ := n in f.
Definition expiration (n : node) := let 'Node _ _ _ e _ _ _ := n in e.
Definition methods (n : node) := let 'Node _ _ _ _ m _ _ := n in m.
Definition protected (n : node) := let 'Node _ _ _ _ _ p _ := n in p.
Definition routes (n : node) := let 'Node _ _ _ _ _ _ r := n in r.

Definition segs_of (r : route) := let 'Route s _ := r in s.
Definition node_of (r : route) := let 'Route _ n := r in n.

(** what the constructor of a route reads of its segments *)
Definition root (r : route) : bool := match segs_of r with [] => true | _ => false end.
Definition variable (s : segment) : bool := match fragment s with None => true | Some _ => false end.
Definition variables_of (r : route) : nat := length (List.filter variable (segs_of r)).
Definition wild (r : route) : bool := existsb (fun s => variable s && wildcard s) (segs_of r).

Definition expired (now : Z) (n : node) : bool :=
  match expiration n with None => false | Some e => e <=? now end.

(** *** Order: stable, as the sort of the language is *)

Definition before (a b : route) : bool :=
  if (variables_of a =? variables_of b)%nat then (length (segs_of b) <=? length (segs_of a))%nat
  else (variables_of a <? variables_of b)%nat.

Definition sort (rs : list route) : list route := stable_sort before rs.

Definition make (i : nat) (rs : list route) (ms : list (string * M)) (protect : bool)
    (fwd : option string) (e : option Z) : node :=
  Node i (existsb root rs) fwd e ms protect (sort rs).

(** *** Matching *)

Record match_ := mkMatch { at_ : node; parameters : list parameter; route_ : string }.

(** What a routine that pushes onto [parameters] and [segments] leaves of them. *)
Definition pushing : Type := option match_ * list parameter * list segment.

(** The loop over the segments of a route; [rest] is where the remaining path begins for [**]. *)
Fixpoint take_segments (frs : list string) (rest : nat) (i : nat) (segs : list segment)
    (ps : list parameter) : bool * list parameter :=
  match segs with
  | [] => (true, ps)
  | s :: segs =>
      match fragment s with
      | Some f =>
          if decide (frs !! i = Some f) then take_segments frs rest (S i) segs ps else (false, ps)
      | None =>
          let ps := match placeholder s with Some n => ps ++ [(n, decode (frs !! i))] | None => ps end in
          let ps :=
            if wildcard s then ps ++ [("**", joined ((fun f => decode (Some f)) <$> drop rest frs))]
            else ps in
          take_segments frs rest (S i) segs ps
      end
  end.

Definition route_match (descend : node -> list string -> list parameter -> list segment -> pushing)
    (now : Z) (r : route) (frs : list string) (ps : list parameter) (ss : list segment) : pushing :=
  match r with
  | Route segs n =>
      if expired now n then (None, ps, ss) else
      let ss := ss ++ segs in
      let '(taken, ps) := take_segments frs (pred (length segs)) 0 segs ps in
      if negb taken then (None, ps, ss) else
      let exact := (length segs =? length frs)%nat in
      if (exact && negb (intermediate n)) || wild r then (Some (mkMatch n ps (template ss)), ps, ss)
      else descend n (drop (length segs) frs) ps ss
  end.

(** The loop over the routes of a node: what a route that failed has pushed is cut off. *)
Section loop.
Context (attempt : route -> list parameter -> list segment -> pushing).

Fixpoint first_match (mark pieces : nat) (rs : list route) (ps : list parameter) (ss : list segment)
  : pushing :=
  match rs with
  | [] => (None, ps, ss)
  | r :: rs =>
      match attempt r ps ss with
      | (Some m, ps, ss) => (Some m, ps, ss)
      | (None, ps, ss) => first_match mark pieces rs (take mark ps) (take pieces ss)
      end
  end.
End loop.

Fixpoint node_match (now : Z) (n : node) (frs : list string) (ps : list parameter)
    (ss : list segment) {struct n} : pushing :=
  match n with
  | Node _ _ _ _ _ _ rs =>
      first_match (fun r ps ss => route_match (node_match now) now r frs ps ss)
        (length ps) (length ss) rs ps ss
  end.

Definition tree_match (now : Z) (trunk : node) (path : string) : option match_ :=
  if decide (path = "/") then Some (mkMatch trunk [] "/")
  else (node_match now trunk (fragments path) [] []).1.1.

(** *** Everything a tree offers at a path, by trying each route on its own *)

Definition agrees (frs : list string) (i : nat) (s : segment) : bool :=
  match fragment s with Some f => bool_decide (frs !! i = Some f) | None => true end.

(** what a segment at [i] takes, of a route whose last segment is at [rest] *)
Definition takes (frs : list string) (rest i : nat) (s : segment) : list parameter :=
  match fragment s with
  | Some _ => []
  | None =>
      match placeholder s with Some n => [(n, decode (frs !! i))] | None => [] end ++
      (if wildcard s then [("**", joined ((fun f => decode (Some f)) <$> drop rest frs))] else [])
  end.

Definition captured (frs : list string) (segs : list segment) : option (list parameter) :=
  if forallb Datatypes.id (imap (agrees frs) segs)
  then Some (mjoin (imap (takes frs (pred (length segs))) segs)) else None.

Fixpoint offers (now : Z) (n : node) (frs : list string) (ps : list parameter)
    (ss : list segment) : list match_ :=
  match n with
  | Node _ _ _ _ _ _ rs =>
      flat_map (fun '(Route segs n as r) =>
        if expired now n then [] else
        match captured frs segs with
        | None => []
        | Some got =>
            if ((length segs =? length frs)%nat && negb (intermediate n)) || wild r
            then [mkMatch n (ps ++ got) (template (ss ++ segs))]
            else offers now n (drop (length segs) frs) (ps ++ got) (ss ++ segs)
        end) rs
  end.

(** *** Walking *)

Record mount := mkMount { mount_segments : list segment; verb : string; method : M; on : nat }.

Fixpoint node_walk (now : Z) (n : node) (prefix : list segment) (trunk : bool) : list mount :=
  match n with
  | Node i inter _ _ ms _ rs =>
      (if trunk || negb inter then (fun '(v, m) => mkMount prefix v m i) <$> ms else []) ++
      flat_map (fun '(Route segs n) =>
        if expired now n then [] else node_walk now n (prefix ++ segs) false) rs
  end.

Definition tree_walk (now : Z) (trunk : node) : list mount := node_walk now trunk [] true.

(** *** Merging *)

Definition equals (a b : list segment) : bool :=
  (length a =? length b)%nat &&
  forallb (fun '(s, t) => bool_decide (fragment s = fragment t)) (zip a b).

Fixpoint nodes (n : node) : list nat :=
  match n with
  | Node i _ _ _ _ _ rs => i :: flat_map (fun '(Route _ n) => nodes n) rs
  end.

(** A route of a branch merged into the first it equals, or pushed. *)
Fixpoint land (merge : node -> node * list nat) (segs : list segment) (n : node) (rs : list route)
  : list route * list nat :=
  match rs with
  | [] => ([Route segs n], nodes n)
  | Route segs' n' :: rs =>
      if equals segs segs' then let '(n', got) := merge n' in (Route segs' n' :: rs, got)
      else let '(rs, got) := land merge segs n rs in (Route segs' n' :: rs, got)
  end.

(** The candidates of a branch, one after another, each with the routine that merges into its node. *)
Section append.
Context (merge : node -> node -> node * list nat).

Fixpoint append (candidates : list route) (rs : list route) : list route * list nat :=
  match candidates with
  | [] => (rs, [])
  | Route segs c :: candidates =>
      let '(rs, got) := land (fun n => merge n c) segs c rs in
      let '(rs, more) := append candidates rs in
      (rs, got ++ more)
  end.
End append.

Definition replace (n b : node) : node :=
  Node (id n) (intermediate b) (forward b) (expiration b) (methods b) (protected n) (routes b).

Definition sorted (n : node) : node :=
  Node (id n) (intermediate n) (forward n) (expiration n) (methods n) (protected n) (sort (routes n)).

(** [merge]: the node, and those the branch has landed on *)
Fixpoint node_merge (n b : node) {struct b} : node * list nat :=
  match b with
  | Node _ inter _ _ ms _ candidates =>
      if protected n then
        let '(rs, got) := append (fun n c => node_merge n c) candidates (routes n) in
        (sorted (Node (id n) inter (forward n) (expiration n) (assign_all (methods n) ms) true rs), got)
      else (sorted (replace n b), nodes (replace n b))
  end.

Fixpoint node_touch (which : list nat) (e : Z) (n : node) : node :=
  match n with
  | Node i inter f e' ms p rs =>
      Node i inter f (if bool_decide (i ∈ which) && negb p then Some e else e') ms p
        (map (fun '(Route segs n) => Route segs (node_touch which e n)) rs)
  end.
End tree.
Arguments node : clear implicits.
Arguments route : clear implicits.
Arguments match_ : clear implicits.

(** [branchTTL], [BRANCH_TTL] of the definitions *)
Definition BRANCH_TTL : Z := 1800000.

Definition refresh {M} (now : Z) (which : list nat) (trunk : node M) : node M :=
  node_touch which (now + BRANCH_TTL) trunk.

(** ** Lemmas *)

Section lemmas.
Context {M : Type}.
Implicit Types (n b : node M) (r : route M) (rs : list (route M)).

Lemma node_ind_nested (P : node M -> Prop) :
  (forall i inter f e ms p rs, Forall (fun r => P (node_of r)) rs -> P (Node i inter f e ms p rs)) ->
  forall n, P n.
Proof.
  intros HP. fix IH 1. intros [i inter f e ms p rs]. apply HP.
  induction rs as [|[segs n] rs IHrs]; constructor; [apply IH | exact IHrs].
Qed.

(** *** Matching *)

Lemma imap_cons_shift {A B} (g : nat -> A -> B) i x (l : list A) :
  imap (fun j => g (i + j)%nat) (x :: l) = g i x :: imap (fun j => g (S i + j)%nat) l.
Proof.
  rewrite imap_cons, Nat.add_0_r. f_equal. apply imap_ext. intros j y _.
  unfold compose. by rewrite Nat.add_succ_r.
Qed.

Lemma take_segments_captured frs rest i segs ps :
  let fit := forallb Datatypes.id (imap (fun j => agrees frs (i + j)) segs) in
  exists junk, take_segments frs rest i segs ps = (fit, ps ++ junk) /\
    (fit = true -> junk = mjoin (imap (fun j => takes frs rest (i + j)) segs)).
Proof.
  revert i ps. induction segs as [|s segs IH]; intros i ps fit; subst fit.
  - exists []. by rewrite app_nil_r.
  - rewrite !imap_cons_shift. cbn [take_segments forallb Datatypes.id mjoin list_join].
    unfold agrees at 1 3, takes at 1.
    destruct (fragment s) as [f|].
    + case_decide as Hf.
      * rewrite bool_decide_true by done. apply IH.
      * rewrite bool_decide_false by done. exists []. by rewrite app_nil_r.
    + set (p1 := match placeholder s with Some n => ps ++ _ | None => ps end).
      destruct (IH (S i) (if wildcard s then p1 ++ [("**", joined ((fun f => decode (Some f)) <$> drop rest frs))] else p1))
        as (junk & Heq & Hjunk).
      rewrite Heq. subst p1.
      exists ((match placeholder s with Some n => [(n, decode (frs !! i))] | None => [] end ++
        (if wildcard s then [("**", joined ((fun f => decode (Some f)) <$> drop rest frs))] else [])) ++ junk).
      split; [f_equal; destruct (placeholder s), (wildcard s); by rewrite <- ?app_assoc, ?app_nil_r|].
      intros Hfit. f_equal. by apply Hjunk.
Qed.

Lemma head_app {A} (l k : list A) : head (l ++ k) = match head l with Some x => Some x | None => head k end.
Proof. by destruct l. Qed.

Lemma node_match_offers now n frs ps ss :
  exists ps' ss', node_match now n frs ps ss = (head (offers now n frs ps ss), ps ++ ps', ss ++ ss').
Proof.
  revert frs ps ss. induction n as [i inter f e ms p rs IH] using node_ind_nested. intros frs ps ss.
  cbn [node_match offers].
  assert (forall ps1 ss1, ps1 = ps -> ss1 = ss -> exists ps' ss',
    first_match (fun r ps ss => route_match (node_match now) now r frs ps ss) (length ps) (length ss) rs ps1 ss1 =
    (head (flat_map (fun '(Route segs n as r) =>
        if expired now n then [] else
        match captured frs segs with
        | None => []
        | Some got =>
            if ((length segs =? length frs)%nat && negb (intermediate n)) || wild r
            then [mkMatch n (ps ++ got) (template (ss ++ segs))]
            else offers now n (drop (length segs) frs) (ps ++ got) (ss ++ segs)
        end) rs), ps ++ ps', ss ++ ss')) as Hloop; [|by apply Hloop].
  induction IH as [|[segs n] rs IHn _ IHrs]; intros ps1 ss1 -> ->; cbn [first_match flat_map].
  - exists [], []. by rewrite !app_nil_r.
  - assert (exists ps' ss', route_match (node_match now) now (Route segs n) frs ps ss =
      (head (if expired now n then [] else
        match captured frs segs with
        | None => []
        | Some got =>
            if ((length segs =? length frs)%nat && negb (intermediate n)) || wild (Route segs n)
            then [mkMatch n (ps ++ got) (template (ss ++ segs))]
            else offers now n (drop (length segs) frs) (ps ++ got) (ss ++ segs)
        end), ps ++ ps', ss ++ ss')) as (ps' & ss' & Hr).
    { cbn [route_match]. destruct (expired now n); [exists [], []; by rewrite !app_nil_r|].
      destruct (take_segments_captured frs (pred (length segs)) 0 segs ps) as (junk & -> & Hjunk).
      unfold captured. cbn [Nat.add] in *.
      destruct (forallb _ _); cbn [negb]; [|by exists junk, segs].
      assert (mjoin (imap (takes frs (pred (length segs))) segs) = junk) as -> by (symmetry; by apply Hjunk).
      destruct (_ || _); [by exists junk, segs|].
      destruct (IHn (drop (length segs) frs) (ps ++ junk) (ss ++ segs)) as (ps2 & ss2 & Hn).
      cbn [node_of] in Hn. rewrite Hn. exists (junk ++ ps2), (segs ++ ss2). by rewrite !app_assoc. }
    rewrite Hr, head_app. destruct (head (if expired now n then _ else _)) as [m|]; [by exists ps', ss'|].
    by apply IHrs; rewrite take_app_length.
Qed.

(** *** Walking *)

Lemma offers_walked now n frs ps ss trunk m :
  m ∈ offers now n frs ps ss ->
  exists segs, route_ m = template (ss ++ segs) /\
    (intermediate (at_ m) = false -> forall v k, (v, k) ∈ methods (at_ m) ->
      mkMount (ss ++ segs) v k (id (at_ m)) ∈ node_walk now n ss trunk).
Proof.
  revert frs ps ss trunk. induction n as [i inter f e ms p rs IH] using node_ind_nested.
  intros frs ps ss trunk. cbn [offers node_walk].
  intros ([segs n] & Hr & Hm)%list_elem_of_In%in_flat_map.
  apply list_elem_of_In in Hr, Hm. pose proof (proj1 (Forall_forall _ _) IH _ Hr) as IHn. cbn in IHn.
  assert (forall x, x ∈ (if expired now n then [] else node_walk now n (ss ++ segs) false) ->
    x ∈ flat_map (fun '(Route segs n) => if expired now n then [] else node_walk now n (ss ++ segs) false) rs)
    as Hin.
  { intros x Hx. apply list_elem_of_In, in_flat_map. exists (Route segs n).
    split; by apply list_elem_of_In. }
  destruct (expired now n) eqn:He; [by apply elem_of_nil in Hm|].
  destruct (captured frs segs) as [got|]; [|by apply elem_of_nil in Hm].
  destruct (_ || _).
  - apply list_elem_of_singleton in Hm as ->. exists segs. split; [done|].
    cbn [at_]. intros Hi v k Hk. apply elem_of_app. right. apply Hin. destruct n as [j inter' f' e' ms' p' rs'].
    cbn [node_walk intermediate methods id] in *. subst inter'. rewrite elem_of_app. left.
    cbn [orb negb]. by apply (list_elem_of_fmap_2 (fun '(v, m) => mkMount (ss ++ segs) v m j) _ (v, k)).
  - destruct (IHn _ _ _ false Hm) as (segs' & -> & Hw). exists (segs ++ segs').
    rewrite app_assoc. split; [done|]. intros Hi v k Hk. apply elem_of_app. right. by apply Hin, Hw.
Qed.
End lemmas.

(** *** Paths *)

Lemma split_chars_parts sep acc cs part :
  sep ∉ acc -> part ∈ split_chars sep acc cs -> sep ∉ part.
Proof.
  revert acc. induction cs as [|c cs IH]; intros acc Hacc; simpl.
  - intros ->%list_elem_of_singleton. by rewrite elem_of_reverse.
  - case_decide as Hc.
    + intros [->|Hp]%elem_of_cons; [by rewrite elem_of_reverse|]. apply (IH []); [set_solver | done].
    + apply IH. set_solver.
Qed.

Lemma elem_of_removelast {A} (l : list A) x : x ∈ removelast l -> x ∈ l.
Proof.
  induction l as [|y [|z l] IH]; cbn [removelast]; [done | by intros ?%elem_of_nil|].
  intros [->|Hx]%elem_of_cons; [by left | right; by apply IH].
Qed.

Lemma fragments_no_slash path f : f ∈ fragments path -> "/"%char ∉ chars f.
Proof.
  unfold fragments. intros Hf. assert (f ∈ split "/"%char path) as Hin.
  { apply list_elem_of_lookup in Hf as (i & Hi). rewrite lookup_drop in Hi.
    apply list_elem_of_lookup_2 in Hi. destruct (last _) as [[|]|]; [by apply elem_of_removelast | done..]. }
  unfold split in Hin. apply list_elem_of_fmap in Hin as (cs & -> & Hcs).
  rewrite chars_of_chars. apply (split_chars_parts _ [] _ _) in Hcs; [done | apply not_elem_of_nil].
Qed.

Lemma fragments_joined frs :
  Forall (fun f => "/"%char ∉ chars f) frs -> "" ∉ frs ->
  fragments (match frs with [] => "/" | _ => "/" +:+ join "/" frs end) = frs.
Proof.
  intros Hf Hne. destruct frs as [|f frs]; [reflexivity|].
  assert ("/" +:+ join "/" (f :: frs) = join "/" ("" :: f :: frs)) as -> by done.
  unfold fragments. rewrite (split_join "/"%char); [|done|constructor; [set_solver | done]].
  destruct (last ("" :: f :: frs)) as [[|c s]|] eqn:Hl; [|done..].
  rewrite last_cons_cons in Hl. exfalso. apply Hne. by apply last_Some_elem_of in Hl.
Qed.

Lemma piece_parse f : piece (parse f) = f.
Proof.
  unfold parse. destruct f as [|c f]; [done|].
  repeat first [done | match goal with |- context [match ?x with _ => _ end] => is_var x; destruct x end].
Qed.

(** *** Merging *)

Section merging.
Context {M : Type}.
Implicit Types (n b c : node M) (r : route M) (rs : list (route M)).

(** what routes are told apart by when they are merged *)
Definition key (segs : list segment) : list (option string) := fragment <$> segs.

Lemma equals_key (s t : list segment) : equals s t = true <-> key s = key t.
Proof.
  unfold equals, key. revert t. induction s as [|x s IH]; intros [|y t]; try done.
  specialize (IH t). cbn [length zip zip_with forallb Nat.eqb]. rewrite !fmap_cons.
  rewrite andb_true_iff in *. rewrite andb_true_iff, bool_decide_eq_true. split.
  - intros (Hl & -> & Ha). f_equal. by apply IH.
  - intros [= Hx Ha]. apply IH in Ha as [? ?]. done.
Qed.

Lemma sort_perm rs : sort rs ≡ₚ rs.
Proof. apply stable_sort_perm. Qed.

(** A verb is served along a path of routes, every node on the way being live. *)
Fixpoint answers (live : node M -> Prop) (n : node M) (path : list (list segment)) (v : string) (k : M)
  : Prop :=
  live n /\
  match path with
  | [] => own (methods n) v = Some k
  | segs :: path =>
      exists segs' c, Route segs' c ∈ routes n /\ equals segs segs' = true /\ answers live c path v k
  end.

(** the routes of a declaration are keys of an object, and so are the verbs *)
Inductive distinct : node M -> Prop :=
| distinct_node n :
    NoDup (fst <$> methods n) -> NoDup ((key ∘ segs_of) <$> routes n) ->
    Forall (fun r => distinct (node_of r)) (routes n) -> distinct n.

(** what is protected never expires *)
Inductive lasting : node M -> Prop :=
| lasting_node n :
    (protected n = true -> expiration n = None) ->
    Forall (fun r => lasting (node_of r)) (routes n) -> lasting n.

Lemma answers_mono (live live' : node M -> Prop) n path v k :
  (forall m, live m -> live' m) -> answers live n path v k -> answers live' n path v k.
Proof.
  intros Hl. revert n. induction path as [|segs path IH]; intros n; simpl; [naive_solver|].
  intros (Hn & segs' & c & Hr & He & Ha). split; [by apply Hl|]. exists segs', c. eauto.
Qed.

Lemma nodes_route n r : r ∈ routes n -> nodes (node_of r) ⊆ nodes n.
Proof.
  destruct n as [i inter f e ms p rs]. cbn [routes nodes]. intros Hr x Hx. right.
  apply list_elem_of_In, in_flat_map. exists r. split; [by apply list_elem_of_In|].
  destruct r. by apply list_elem_of_In.
Qed.

Lemma nodes_id n : id n ∈ nodes n.
Proof. destruct n. by left. Qed.

Lemma answers_nodes n path v k ids :
  answers (fun _ => True) n path v k -> nodes n ⊆ ids -> answers (fun m => id m ∈ ids) n path v k.
Proof.
  revert n. induction path as [|segs path IH]; intros n; simpl.
  - intros [_ Hk] Hn. split; [apply Hn, nodes_id | done].
  - intros (_ & segs' & c & Hr & He & Ha) Hn. split; [apply Hn, nodes_id|].
    exists segs', c. split; [done|]. split; [done|]. apply IH; [done|].
    intros x Hx. by apply Hn, (nodes_route n _ Hr).
Qed.

Lemma own_assign_all (ms given : list (string * M)) v k :
  NoDup (fst <$> given) -> own given v = Some k -> own (assign_all ms given) v = Some k.
Proof.
  unfold assign_all. revert ms. induction given as [|[u m] given IH]; intros ms; [done|].
  rewrite fmap_cons. intros [Hu Hd]%NoDup_cons. cbn [own foldl fst] in *.
  case_decide as Huv; [|by apply IH]. intros [= ->]. subst u. clear IH Hd.
  assert (own (assign v k ms) v = Some k) as Hk by (rewrite own_assign; by case_decide).
  revert Hk. generalize (assign v k ms). clear ms.
  induction given as [|[u m] given IH]; intros ms Hk; [done|]. cbn [foldl].
  rewrite fmap_cons in Hu. apply not_elem_of_cons in Hu as [Hne Hu]. cbn [fst] in Hne.
  apply IH; [done|]. rewrite own_assign. by case_decide.
Qed.

Lemma land_lands (f : node M -> node M * list nat) segs c rs :
  let '(rs', got) := land f segs c rs in
  (exists segs' c', Route segs' c' ∈ rs' /\ equals segs segs' = true /\
    ((exists old, (c', got) = f old) \/ (c' = c /\ got = nodes c))) /\
  (forall r, r ∈ rs -> equals segs (segs_of r) = false -> r ∈ rs').
Proof.
  induction rs as [|[segs' c'] rs IH]; cbn [land].
  - split; [|by intros r ?%elem_of_nil]. exists segs, c. split; [by left|].
    split; [by apply equals_key | by right].
  - destruct (equals segs segs') eqn:He.
    + destruct (f c') as [c1 got] eqn:Hf. split.
      * exists segs', c1. split; [by left|]. split; [done|]. left. by exists c'.
      * intros r [->|Hr]%elem_of_cons Hn; [cbn in Hn; congruence | by right].
    + destruct (land f segs c rs) as [rs' got]. destruct IH as [(s & d & Hd & Hs & Hf) Hk]. split.
      * exists s, d. split; [by right | done].
      * intros r [->|Hr]%elem_of_cons Hn; [by left | right; by apply Hk].
Qed.

Lemma append_keeps f candidates rs r :
  r ∈ rs -> key (segs_of r) ∉ (key ∘ segs_of) <$> candidates -> r ∈ (@append M f candidates rs).1.
Proof.
  revert rs. induction candidates as [|[segs c] cs IH]; intros rs Hr Hk; [done|].
  rewrite fmap_cons in Hk. apply not_elem_of_cons in Hk as [Hne Hk]. cbn [append].
  pose proof (land_lands (fun n => f n c) segs c rs) as Hl.
  destruct (land _ _ _ _) as [rs' got]. destruct Hl as [_ Hl].
  specialize (IH rs'). destruct (append f cs rs') as [rs2 more]. cbn [fst] in *. apply IH; [|done].
  apply Hl; [done|]. apply not_true_iff_false. rewrite equals_key. intros Hkk. apply Hne. exact (eq_sym Hkk).
Qed.

Lemma append_lands f candidates rs segs c :
  NoDup ((key ∘ segs_of) <$> candidates) -> Route segs c ∈ candidates ->
  let '(rs', got) := @append M f candidates rs in
  exists segs' c' some, Route segs' c' ∈ rs' /\ equals segs segs' = true /\ some ⊆ got /\
    ((exists old, (c', some) = f old c) \/ (c' = c /\ some = nodes c)).
Proof.
  revert rs. induction candidates as [|[s d] cs IH]; intros rs; [by intros _ ?%elem_of_nil|].
  rewrite fmap_cons. intros [Hk Hd]%NoDup_cons Hc. cbn [append].
  pose proof (land_lands (fun n => f n d) s d rs) as Hl.
  destruct (land _ _ _ _) as [rs' got] eqn:Hland. destruct Hl as [(s' & d' & Hin & He & Hf) _].
  apply elem_of_cons in Hc as [[= -> ->]|Hc].
  - pose proof (append_keeps f cs rs' (Route s' d') Hin) as Hkeep.
    destruct (append f cs rs') as [rs2 more]. exists s', d', got. split.
    + apply Hkeep. cbn [segs_of]. apply equals_key in He. rewrite <- He. exact Hk.
    + split; [done|]. split; [set_solver | done].
  - specialize (IH rs' Hd Hc). destruct (append f cs rs') as [rs2 more].
    destruct IH as (s2 & d2 & some & ? & ? & ? & ?). exists s2, d2, some. set_solver.
Qed.

Lemma merge_lands n b path v k :
  distinct b -> answers (fun _ => True) b path v k ->
  let '(n', got) := node_merge n b in
  answers (fun m => protected m = true \/ id m ∈ got) n' path v k.
Proof.
  revert n path. induction b as [i inter f e ms p cs IH] using node_ind_nested. intros n path Hd Ha.
  inversion_clear Hd as [? Hms Hkeys Hcs]. cbn [methods routes] in *. cbn [node_merge].
  destruct (protected n) eqn:Hp.
  - destruct path as [|segs path]; simpl in Ha; destruct Ha as [_ Ha].
    + destruct (append _ _ _) as [rs' got]. simpl. split; [by left | by apply own_assign_all].
    + destruct Ha as (segs1 & c & Hc & He & Ha).
      pose proof (append_lands (fun n c => node_merge n c) cs (routes n) segs1 c Hkeys Hc) as Hl.
      destruct (append _ _ _) as [rs' got].
      destruct Hl as (s & c' & some & Hin & Hs & Hgot & Hf). simpl. split; [by left|].
      exists s, c'. split; [by rewrite sort_perm|].
      split; [rewrite equals_key in He, Hs |- *; by rewrite He|].
      destruct Hf as [(old & Hf) | [-> ->]].
      * pose proof (proj1 (Forall_forall _ _) IH _ Hc old path) as IHc. cbn [node_of] in IHc.
        rewrite <- Hf in IHc. eapply answers_mono; [|apply IHc; [|done]].
        -- intros m [?|?]; [by left | right; set_solver].
        -- by apply (proj1 (Forall_forall _ _) Hcs (Route segs1 c)).
      * eapply answers_mono; [|apply (answers_nodes c path v k got)]; [by right | done | done].
  - apply (answers_mono (fun m => id m ∈ nodes (replace n (Node i inter f e ms p cs)))); [by right|].
    set (got := nodes _). destruct path as [|segs path]; simpl in Ha |- *; destruct Ha as [_ Ha].
    + split; [by left | done].
    + split; [by left|]. destruct Ha as (s & c & Hc & He & Ha). exists s, c.
      split; [by rewrite sort_perm|]. split; [done|]. apply answers_nodes; [done|].
      apply (nodes_route (replace n (Node i inter f e ms p cs)) (Route s c)). exact Hc.
Qed.

Lemma land_lasting (f : node M -> node M * list nat) segs c rs :
  (forall n, lasting n -> lasting (f n).1) -> lasting c ->
  Forall (fun r => lasting (node_of r)) rs ->
  Forall (fun r => lasting (node_of r)) (land f segs c rs).1.
Proof.
  intros Hf Hc. induction 1 as [|[s d] rs Hd Hrs IH]; cbn [land fst];
    [by apply Forall_singleton|].
  destruct (equals segs s).
  - specialize (Hf d Hd). destruct (f d) as [d' got]. by constructor.
  - destruct (land f segs c rs) as [rs' got]. by constructor.
Qed.

Lemma merge_lasting n b : lasting n -> lasting b -> lasting (node_merge n b).1.
Proof.
  revert n. induction b as [i inter f e ms p cs IH] using node_ind_nested. intros n Hn Hb.
  inversion_clear Hb as [? Hp Hcs]. inversion_clear Hn as [? Hnp Hrs]. cbn [routes] in Hcs.
  cbn [node_merge]. destruct (protected n) eqn:Hprot.
  - assert (Forall (fun r => lasting (node_of r)) (append (fun n c => node_merge n c) cs (routes n)).1) as Hall.
    { clear Hp. revert Hcs Hrs. generalize (routes n). induction IH as [|[s c] cs IHc _ IHcs]; intros rs Hcs Hrs; [done|].
      inversion_clear Hcs as [|? ? Hc Hcs']. cbn [append].
      pose proof (land_lasting (fun n => node_merge n c) s c rs
        (fun n Hn => IHc n Hn Hc) Hc Hrs) as Hl.
      destruct (land _ _ _ _) as [rs' got]. specialize (IHcs rs' Hcs' Hl).
      by destruct (append _ cs rs') as [rs2 more]. }
    destruct (append _ _ _) as [rs' got]. constructor; cbn [sorted protected expiration routes fst]; [auto|]. by rewrite sort_perm.
  - constructor; cbn [sorted replace protected expiration routes fst]; [by rewrite Hprot|]. by rewrite sort_perm.
Qed.

Lemma touch_answers which e (live live' : node M -> Prop) n path v k :
  (forall m, live m -> live' (node_touch which e m)) -> answers live n path v k ->
  answers live' (node_touch which e n) path v k.
Proof.
  intros Hl. revert n. induction path as [|segs path IH]; intros [i inter f e' ms p rs]; simpl.
  - intros [Hn Hk]. split; [by apply (Hl (Node i inter f e' ms p rs)) | done].
  - intros (Hn & s & c & Hc & He & Ha). split; [by apply (Hl (Node i inter f e' ms p rs))|].
    exists s, (node_touch which e c). split; [|split; [done | by apply IH]].
    by apply (list_elem_of_fmap_2 (fun '(Route segs n) => Route segs (node_touch which e n)) _ (Route s c)).
Qed.

Lemma answers_and (live : node M -> Prop) (ok : node M -> Prop) n path v k :
  (forall m r, ok m -> r ∈ routes m -> ok (node_of r)) -> ok n ->
  answers live n path v k -> answers (fun m => live m /\ ok m) n path v k.
Proof.
  intros Hr. revert n. induction path as [|segs path IH]; intros n Hn; simpl; [naive_solver|].
  intros (Hl & s & c & Hc & He & Ha). split; [done|]. exists s, c.
  split; [done|]. split; [done|]. apply IH; [by apply (Hr n (Route s c)) | done].
Qed.

Lemma lasting_route m r : lasting m -> r ∈ routes m -> lasting (node_of r).
Proof. intros Hm Hr. inversion_clear Hm as [? _ Hrs]. by apply (proj1 (Forall_forall _ _) Hrs). Qed.
End merging.

(** *** One segment *)

Lemma split_one a : "/"%char ∉ chars a -> a <> "" -> fragments ("/" +:+ a) = [a].
Proof.
  intros Hs Ha. apply (fragments_joined [a]); [by constructor|].
  by rewrite list_elem_of_singleton.
Qed.

Lemma decode_past_end : decode None = codes "undefined".
Proof. reflexivity. Qed.

Definition placeholders (names : list string) : list segment :=
  (fun n => mkSegment None (Some n) false) <$> names.

Lemma placeholders_wild {M} names s (n : node M) :
  wild (Route (literal s :: placeholders names) n) = false.
Proof.
  unfold wild. cbn [segs_of existsb variable fragment literal andb orb].
  induction names as [|m names IH]; [done|]. cbn. exact IH.
Qed.

Lemma placeholders_captured a names :
  captured [a] (literal a :: placeholders names) =
  Some ((fun n => (n, codes "undefined")) <$> names).
Proof.
  unfold captured. rewrite imap_cons. cbn [forallb Datatypes.id agrees literal fragment].
  change ([a] !! 0%nat) with (Some a). rewrite bool_decide_true by done. cbn [andb].
  generalize (pred (length (literal a :: placeholders names))). intros rest.
  assert (forallb Datatypes.id (imap (agrees [a] ∘ S) (placeholders names)) = true) as ->.
  { unfold placeholders. rewrite imap_fmap. generalize 0%nat as k. intros _.
    apply forallb_forall. intros b Hb. apply list_elem_of_In in Hb.
    apply elem_of_lookup_imap in Hb as (i & m & -> & _). done. }
  f_equal. transitivity (mjoin (imap (takes [a] rest ∘ S) (placeholders names))); [reflexivity|].
  unfold placeholders. rewrite imap_fmap.
  transitivity (mjoin ((fun m => [(m, codes "undefined")]) <$> names)).
  { f_equal. rewrite <- imap_const. apply imap_ext. intros i m _. reflexivity. }
  induction names as [|m names IH]; [done|]. rewrite !fmap_cons. exact (f_equal (cons _) IH).
Qed.

(** routes that begin with a literal the path does not *)
Definition elsewhere {M} (frs : list string) (rs : list (route M)) : Prop :=
  Forall (fun r => exists f ss, segs_of r = literal f :: ss /\ head frs <> Some f) rs.

Lemma elsewhere_captured frs f ss : head frs <> Some f -> captured frs (literal f :: ss) = None.
Proof.
  intros Hf. unfold captured. rewrite imap_cons. cbn [forallb Datatypes.id agrees literal fragment].
  rewrite bool_decide_false; [done|]. by destruct frs.
Qed.

Lemma elsewhere_offers {M} now i inter fwd e ms p frs ps ss (ahead rs : list (route M)) :
  elsewhere frs ahead ->
  offers now (Node i inter fwd e ms p (ahead ++ rs)) frs ps ss =
  offers now (Node i inter fwd e ms p rs) frs ps ss.
Proof.
  intros Ha. cbn [offers]. rewrite flat_map_app.
  induction Ha as [|[segs n] ahead (f & ss' & Hs & Hf) Ha IH]; [done|]. cbn [segs_of] in Hs. subst segs.
  cbn [flat_map]. rewrite elsewhere_captured by done. by destruct (expired now n).
Qed.

(** ** Properties *)

(** C15: A match is the first of what the tree offers, every route tried on its own: the arrays that
    routes push onto carry nothing over from one that failed into what another answers. *)
Theorem match_first_offer {M} now (trunk : node M) path :
  tree_match now trunk path =
  if decide (path = "/") then Some (mkMatch trunk [] "/")
  else head (offers now trunk (fragments path) [] []).
Proof.
  unfold tree_match. case_decide; [done|].
  by destruct (node_match_offers now trunk (fragments path) [] []) as (ps & ss & ->).
Qed.

(** What a path is matched to is measured by the template of a place of the tree, and the methods
    found there are among those the tree names of itself, at that template; save for an intermediate
    node, which only a tail or the trunk's own path stops at. *)
Theorem match_is_walked {M} now (trunk : node M) path m :
  tree_match now trunk path = Some m ->
  exists segs, route_ m = template segs /\
    (intermediate (at_ m) = false -> forall v k, (v, k) ∈ methods (at_ m) ->
      mkMount segs v k (id (at_ m)) ∈ tree_walk now trunk).
Proof.
  unfold tree_match. case_decide as Hp.
  - intros [= <-]. exists []. split; [done|]. cbn [at_]. intros _ v k Hk.
    destruct trunk as [i inter f e ms p rs]. cbn [methods id] in *. unfold tree_walk.
    cbn [node_walk orb]. apply elem_of_app. left.
    by apply (list_elem_of_fmap_2 (fun '(v, m) => mkMount [] v m i) _ (v, k)).
  - destruct (node_match_offers now trunk (fragments path) [] []) as (ps & ss & ->). cbn [fst].
    intros Hm. apply (offers_walked now trunk (fragments path) [] [] true m).
    destruct (offers _ _ _ _ _) as [|m' l]; [done|]. injection Hm as ->. by left.
Qed.

(** A branch that was merged, or announced again, loses none of its methods: until its time is out
    each is served along its own path, no node on the way having expired, whatever of it has landed
    on nodes the tree had before. *)
Theorem merged_served {M} now (trunk b : node M) path v k :
  distinct b -> lasting trunk -> lasting b -> answers (fun _ => True) b path v k ->
  let '(trunk', got) := node_merge trunk b in
  answers (fun m => forall later, later < now + BRANCH_TTL -> expired later m = false)
    (refresh now got trunk') path v k.
Proof.
  intros Hd Ht Hb Ha. pose proof (merge_lands trunk b path v k Hd Ha) as Hl.
  pose proof (merge_lasting trunk b Ht Hb) as Hlast.
  destruct (node_merge trunk b) as [trunk' got]. cbn [fst] in Hlast.
  eapply touch_answers; [|apply (answers_and _ lasting _ _ _ _ lasting_route Hlast Hl)].
  intros [i inter f e ms p rs] [Hl' Hm] later Hlater. cbn [protected id] in Hl'.
  cbn [node_touch]. unfold expired. cbn [expiration].
  inversion_clear Hm as [? He _]. cbn [protected expiration] in He. destruct p.
  - rewrite andb_false_r. by rewrite He.
  - destruct Hl' as [?|Hi]; [done|]. rewrite bool_decide_true by done. cbn [andb negb].
    apply Z.leb_gt. lia.
Qed.

(** A path too short for a route is served by it where the route's node has a route of its own
    root: what is missing is read past the end of the path, and the operation is called with the
    text [undefined] in place of every variable the caller did not name. *)
Theorem short_path_is_served {M} now (trunk child leaf : node M) a names ahead more before rest :
  "/"%char ∉ chars a -> a <> "" -> names <> [] ->
  elsewhere [a] ahead -> routes trunk = ahead ++ Route (literal a :: placeholders names) child :: more ->
  elsewhere [] before -> expired now child = false -> routes child = before ++ Route [] leaf :: rest ->
  expired now leaf = false -> intermediate leaf = false ->
  tree_match now trunk ("/" +:+ a) =
  Some (mkMatch leaf ((fun n => (n, codes "undefined")) <$> names)
    (template (literal a :: placeholders names))).
Proof.
  intros Hs Ha Hn Hah Hr Hbe He Hc Hle Hli. unfold tree_match.
  rewrite decide_False by (intros [= ?]; done). rewrite split_one by done.
  destruct (node_match_offers now trunk [a] [] []) as (ps & ss & ->). cbn [fst].
  destruct trunk as [i inter f e ms p rs]. cbn [routes] in Hr. subst rs.
  rewrite elsewhere_offers by done. cbn [offers flat_map]. rewrite He, placeholders_captured, placeholders_wild, head_app.
  destruct names as [|n names]; [done|].
  assert (length (literal a :: placeholders (n :: names)) =? length [a] = false)%nat as -> by reflexivity.
  cbn [andb orb]. rewrite drop_ge by (simpl; lia).
  destruct child as [i' inter' f' e' ms' p' rs']. cbn [routes] in Hc. subst rs'.
  rewrite elsewhere_offers by done. cbn [offers flat_map]. rewrite Hle. cbn. rewrite Hli. cbn. by rewrite !app_nil_r.
Qed.

(** A branch appended to a node the gateway's own tree declared says of it whether its root is
    answered by a route: one with no root route takes the node's own out of service, though it is
    still there, and the path is answered by the methods beside it. *)
Theorem branch_hides_root {M} now (trunk n leaf b c : node M) a before rest :
  "/"%char ∉ chars a -> a <> "" ->
  protected trunk = true -> routes trunk = [Route [literal a] n] ->
  protected n = true -> expiration n = None -> intermediate n = true ->
  elsewhere [] before -> routes n = before ++ Route [] leaf :: rest ->
  expired now leaf = false -> intermediate leaf = false ->
  routes b = [Route [literal a] c] -> intermediate c = false ->
  [] ∉ (key ∘ segs_of) <$> routes c ->
  tree_match now trunk ("/" +:+ a) = Some (mkMatch leaf [] ("/" +:+ a)) /\
  exists n', Route [] leaf ∈ routes n' /\ methods n' = assign_all (methods n) (methods c) /\
    tree_match now (node_merge trunk b).1 ("/" +:+ a) = Some (mkMatch n' [] ("/" +:+ a)).
Proof.
  intros Hs Ha Ht Htr Hp He Hi Hbe Hnr Hle Hli Hbr Hci Hcr. unfold tree_match.
  rewrite decide_False by (intros [= ?]; done). rewrite split_one by done.
  assert (captured [a] [literal a] = Some []) as Hcap by apply (placeholders_captured a []).
  assert (forall m : node M, wild (Route [literal a] m) = false) as Hw by done.
  split.
  - destruct (node_match_offers now trunk [a] [] []) as (ps & ss & ->). cbn [fst].
    destruct trunk as [? ? ? ? ? ? rs]. cbn [routes] in Htr. subst rs. cbn [offers flat_map].
    unfold expired at 1. rewrite He, Hcap, Hw, Hi. cbn [length Nat.eqb andb negb orb].
    destruct n as [? ? ? ? ? ? rs']. cbn [routes] in Hnr. subst rs'.
    cbn [drop length]. rewrite elsewhere_offers by done. cbn [offers flat_map]. rewrite Hle. cbn. by rewrite Hli.
  - destruct b as [? ? ? ? ? ? brs]. cbn [routes] in Hbr. subst brs.
    cbn [node_merge]. rewrite Ht, Htr. cbn [append land].
    assert (equals [literal a] [literal a] = true) as -> by (by apply equals_key).
    destruct c as [? cinter ? ? cms ? crs]. cbn [intermediate] in Hci. subst cinter.
    cbn [node_merge]. rewrite Hp. cbn [routes] in *.
    pose proof (append_keeps (fun n c => node_merge n c) crs (routes n) (Route [] leaf)) as Hk.
    destruct (append _ crs (routes n)) as [rs got]. cbn [fst] in *.
    exists (sorted (Node (id n) false (forward n) (expiration n) (assign_all (methods n) cms) true rs)).
    split; [cbn [sorted routes]; rewrite sort_perm; apply Hk; [rewrite Hnr; set_solver | exact Hcr]|].
    split; [done|].
    rewrite decide_False by (intros [= ?]; done).
    match goal with |- fst (fst (node_match now ?t _ _ _)) = _ =>
      destruct (node_match_offers now t [a] [] []) as (ps & ss & ->) end.
    cbn [fst sorted routes sort stable_sort foldr insert_sorted offers flat_map]. unfold expired.
    cbn [sorted expiration]. rewrite He, Hcap, Hw. reflexivity.
Qed.

(** The template of a path is that path again: read as a path, it has the segments it was written of. *)
Theorem template_reads path :
  "" ∉ fragments path -> segments (template (segments path)) = segments path.
Proof.
  intros Hne. unfold segments. f_equal.
  assert (template (parse <$> fragments path) =
    match fragments path with [] => "/" | _ => "/" +:+ join "/" (fragments path) end) as ->.
  { unfold template. destruct (fragments path) as [|f frs] eqn:Hf; [done|].
    rewrite fmap_cons. do 2 f_equal. rewrite <- fmap_cons, <- list_fmap_compose.
    rewrite <- (list_fmap_id (f :: frs)) at 2. apply list_fmap_ext. intros i x _. apply piece_parse. }
  apply fragments_joined; [|done]. apply Forall_forall. intros f Hf. by apply fragments_no_slash in Hf.
Qed.

(** ** A menu, and a branch of it *)

Module Menu.
Definition leaf : node string := make 3 [] [("GET", "pot")] true None None.
Definition pot : node string := make 2 [Route [] leaf; Route [literal "lid"] (make 4 [] [("PUT", "lid")] true None None)] [] true None None.
Definition pots : node string := make 1 [Route (segments "/pots/:id") pot] [("GET", "root")] true None None.

Definition found : match_ string :=
  mkMatch leaf [("id", codes "a b")] "/pots/:id".

Example matched : tree_match 0 pots "/pots/a%20b/" = Some found.
Proof. reflexivity. Qed.

Example decoded : decode (Some "caf%C3%A9%21") = codes "caf" ++ [0xe9; 0x21].
Proof. reflexivity. Qed.

Example not_decoded : decode (Some "%C0%80") = codes "%C0%80" /\ decode (Some "50%") = codes "50%".
Proof. split; reflexivity. Qed.

Example tail : (tree_match 0 (make 0 [Route (segments "/files/**") leaf] [] true None None) "/files/a/b") =
  Some (mkMatch leaf [("**", codes "a/b")] "/files/**").
Proof. reflexivity. Qed.

Lemma match_is_walked_witness :
  exists segs, route_ found = template segs /\ mkMount segs "GET" "pot" 3 ∈ tree_walk 0 pots.
Proof.
  destruct (match_is_walked 0 pots "/pots/a%20b/" found eq_refl) as (segs & Hr & Hw).
  exists segs. split; [exact Hr|]. apply Hw; [reflexivity | by apply list_elem_of_singleton].
Defined.

Definition branch : node string :=
  make 5 [Route (segments "/pots/:id") (make 6 [] [("PATCH", "mend")] false None (Some 1000))] [] false None (Some 1000).

Lemma merged_served_witness :
  let '(trunk, got) := node_merge pots branch in
  answers (fun m => forall later, later < 0 + BRANCH_TTL -> expired later m = false)
    (refresh 0 got trunk) [segments "/pots/:id"] "PATCH" "mend".
Proof.
  apply merged_served.
  - repeat (constructor; try set_solver).
  - repeat constructor.
  - repeat (constructor; try discriminate).
  - split; [exact I|]. eexists _, _. split; [by left|]. split; [reflexivity|]. split; [exact I | reflexivity].
Defined.

Lemma short_path_is_served_witness :
  tree_match 0 pots "/pots" = Some (mkMatch leaf [("id", codes "undefined")] "/pots/:id").
Proof.
  apply (short_path_is_served 0 pots pot leaf "pots" ["id"] [] []
    [Route [literal "lid"] (make 4 [] [("PUT", "lid")] true None None)] []);
    try reflexivity; try discriminate.
  - apply (bool_decide_unpack _). vm_compute. exact I.
  - constructor.
  - apply Forall_singleton. by exists "lid", [].
Defined.

Definition shelf : node string := make 1 [Route [] leaf] [] true None None.
Definition hall : node string := make 0 [Route [literal "shelf"] shelf] [] true None None.
Definition offered : node string := make 5 [Route [literal "shelf"] (make 6 [] [] false None (Some 1000))] [] false None (Some 1000).

Lemma branch_hides_root_witness :
  tree_match 0 hall "/shelf" = Some (mkMatch leaf [] "/shelf") /\
  exists n, methods n = [] /\ tree_match 0 (node_merge hall offered).1 "/shelf" = Some (mkMatch n [] "/shelf").
Proof.
  destruct (branch_hides_root 0 hall shelf leaf offered (make 6 [] [] false None (Some 1000)) "shelf" [] [])
    as (Hb & n & _ & Hm & Ha); try reflexivity; try discriminate.
  - apply (bool_decide_unpack _). vm_compute. exact I.
  - constructor.
  - apply not_elem_of_nil.
  - split; [exact Hb|]. exists n. split; [exact Hm | exact Ha].
Defined.

Lemma template_reads_witness : segments (template (segments "/pots/:id/**/")) = segments "/pots/:id/**/".
Proof. apply template_reads. apply (bool_decide_unpack _). vm_compute. exact I. Defined.
End Menu.
