(* ===== verification/Directives.v ===== *)
(** * Directives

    [extensions/exposition/source/Directive.ts]: what a route declares, as the families that handle
    it. A family is a value of the interface [RTD.DirectiveFamily]: the name it is registered under,
    whether it is mandatory, and what it does at each stage. A stage reads and writes what a request
    carries, the state [S], and answers or throws. *)
From S2P Require Import Prelude.

(** [syntax.Directive] *)
Record declaration := mkDeclaration { family_name : string; directive_name : string; stated : value }.

Section directives.
(** a directive, what a request carries, the parameters of a route, an output of a stage, what a
    method says of itself, and what is thrown, which an [Error] is *)
Context {D S P O I E : Type} (error : string -> E).

Record family := mkFamily {
  fname : string;
  mandatory : bool;
  inherited : option bool;
  make : string -> value -> string -> result E D;
  arrange : option (list D -> list D);
  on_precall : option (list D -> P -> S -> result E (option O) * S);
  on_admits : option (list D -> S -> result E bool * S);
  on_explain : option (list D -> I -> option I);
  on_settle : option (list D -> O -> S -> result E unit * S);
  on_preflight : option (option (list D) -> S -> result E unit * S);
  on_depart : option (O -> S -> result E unit * S);
}.

(** [RTD.DirectiveSet] *)
Record set_ := mkSet { family_ : family; directives : list D }.

(** ** [DirectivesFactory] *)

Record factory := mkFactory {
  families : list (string * family);
  required : list string;
  stages : list family;
}.

Definition register (F : factory) (f : family) : factory :=
  mkFactory (assign (fname f) f (families F))
    (if mandatory f then required F ++ [fname f] else required F) (stages F ++ [f]).

Definition factory_of (fs : list family) : factory := foldl register (mkFactory [] [] []) fs.

(** [groups[family.name] ??= []; groups[family.name].push(directive)] *)
Definition push (name : string) (d : D) (groups : list (string * list D)) : list (string * list D) :=
  assign name (default [] (own groups name) ++ [d]) groups.

(** The declarations by their families, and the mandatory ones none of them is of. *)
Fixpoint gather (F : factory) (route : string) (ds : list declaration)
    (groups : list (string * list D)) (missing : list string)
    : result E (list (string * list D) * list string) :=
  match ds with
  | [] => Ok (groups, missing)
  | d :: ds =>
      match own (families F) (family_name d) with
      | None => Throw (error ("Directive family " +:+ quoted (family_name d) +:+ " is not found"))
      | Some f =>
          made ← make f (directive_name d) (stated d) route;
          gather F route ds (push (fname f) made groups) (filter (fun n => n <> fname f) missing)
      end
  end.

(** [this.families[name]], of names that are registered *)
Definition sets_of (F : factory) (groups : list (string * list D)) : list set_ :=
  omap (fun '(name, ds) => (fun f => mkSet f ds) <$> own (families F) name) groups.

Definition rank (F : factory) (s : set_) : nat := rank_of (required F) (fname (family_ s)).

Definition arranged (f : family) (ds : list D) : list D :=
  match arrange f with Some g => g ds | None => ds end.

Definition create (F : factory) (ds : list declaration) (route : string) : result E (list set_) :=
  '(groups, missing) ← gather F route ds [] (required F);
  let sets := sets_of F ((fun n => (n, [])) <$> missing) ++ sets_of F groups in
  let sets := stable_sort (by_rank (rank F)) sets in
  Ok ((fun s => mkSet (family_ s) (arranged (family_ s) (directives s))) <$> sets).

Definition inheritable (F : factory) (d : declaration) : bool :=
  match own (families F) (family_name d) with
  | Some f => negb (bool_decide (inherited f = Some false))
  | None => true
  end.

(** ** [Directives] *)

Definition declared (sets : list set_) (name : string) : option (list D) :=
  directives <$> List.find (fun s => bool_decide (fname (family_ s) = name)) sets.

Fixpoint precall (sets : list set_) (ps : P) (output : option O) (s : S) : result E (option O) * S :=
  match sets with
  | [] => (Ok output, s)
  | set :: sets =>
      match on_precall (family_ set) with
      | None => precall sets ps output s
      | Some f =>
          match f (directives set) ps s with
          | (Throw e, s) => (Throw e, s)
          | (Ok None, s) => precall sets ps output s
          | (Ok out, s) =>
              match output with
              | Some _ => (Throw (error "Multiple precall directives responded"), s)
              | None => precall sets ps out s
              end
          end
      end
  end.

Fixpoint admits (sets : list set_) (s : S) : result E bool * S :=
  match sets with
  | [] => (Ok true, s)
  | set :: sets =>
      match on_admits (family_ set) with
      | None => admits sets s
      | Some f =>
          match f (directives set) s with
          | (Throw e, s) => (Throw e, s)
          | (Ok false, s) => (Ok false, s)
          | (Ok true, s) => admits sets s
          end
      end
  end.

Fixpoint describe (sets : list set_) (described : I) : option I :=
  match sets with
  | [] => Some described
  | set :: sets =>
      match on_explain (family_ set) with
      | None => describe sets described
      | Some f => next ← f (directives set) described; describe sets next
      end
  end.

Fixpoint settle (sets : list set_) (response : O) (s : S) : result E unit * S :=
  match sets with
  | [] => (Ok tt, s)
  | set :: sets =>
      match on_settle (family_ set) with
      | None => settle sets response s
      | Some f =>
          match f (directives set) response s with
          | (Throw e, s) => (Throw e, s)
          | (Ok _, s) => settle sets response s
          end
      end
  end.

(** ** The stages of a request *)

Fixpoint preflight (families : list family) (method : option (list set_)) (s : S) : result E unit * S :=
  match families with
  | [] => (Ok tt, s)
  | f :: families =>
      match on_preflight f with
      | None => preflight families method s
      | Some g =>
          match g (sets ← method; declared sets (fname f)) s with
          | (Throw e, s) => (Throw e, s)
          | (Ok _, s) => preflight families method s
          end
      end
  end.

Fixpoint depart (families : list family) (response : O) (s : S) : result E unit * S :=
  match families with
  | [] => (Ok tt, s)
  | f :: families =>
      match on_depart f with
      | None => depart families response s
      | Some g =>
          match g response s with
          | (Throw e, s) => (Throw e, s)
          | (Ok _, s) => depart families response s
          end
      end
  end.

(** ** What a method is made of, said directly *)

Definition firsts (names : list string) : list string :=
  foldl (fun seen n => add n seen) [] names.

(** the directives of one family, in the order they are declared in *)
Definition made (f : family) (ds : list declaration) (route : string) : result E (list D) :=
  mapM (fun d => make f (directive_name d) (stated d) route)
    (filter (fun d => family_name d = fname f) ds).
End directives.
Arguments family : clear implicits.
Arguments set_ : clear implicits.
Arguments factory : clear implicits.

(** ** Lemmas *)

Section lemmas.
Context {D S P O I E : Type}.
Implicit Types (f : family D S P O I E) (F : factory D S P O I E) (ds : list declaration).

(** every family of a factory under its own name *)
Definition named F : Prop := forall n f, own (families F) n = Some f -> fname f = n.

Lemma register_all fs F :
  NoDup (fname <$> fs) -> (forall n, n ∈ fname <$> fs -> own (families F) n = None) -> named F ->
  named (foldl register F fs) /\
  (forall n f, own (families (foldl register F fs)) n = Some f ->
    own (families F) n = Some f \/ f ∈ fs) /\
  required (foldl register F fs) = required F ++ (fname <$> filter (fun f => mandatory f = true) fs) /\
  (forall f, f ∈ fs -> own (families (foldl register F fs)) (fname f) = Some f) /\
  (forall n, n ∉ fname <$> fs -> own (families (foldl register F fs)) n = own (families F) n).
Proof.
  revert F. induction fs as [|f fs IH]; intros F Hd Hn HF.
  - cbn [foldl]. rewrite app_nil_r. split_and!; try done; [by left | by intros ? ?%elem_of_nil].
  - rewrite fmap_cons in Hd, Hn. apply NoDup_cons in Hd as [Hf Hd]. cbn [foldl].
    destruct (IH (register F f)) as (H1 & H2 & H3 & H4 & H5).
    + done.
    + intros n Hin. cbn [register families]. rewrite own_assign, decide_False by set_solver.
      apply Hn. by right.
    + intros n g. cbn [register families]. rewrite own_assign. case_decide; [naive_solver | apply HF].
    + assert (own (families (register F f)) (fname f) = Some f) as Hown
        by (cbn [register families]; rewrite own_assign; by case_decide).
      split_and!; [done | | | |].
      * intros n g Hg. destruct (H2 n g Hg) as [Hr | ?]; [|right; by right]. revert Hr.
        cbn [register families]. rewrite own_assign. case_decide; [|by left].
        intros [= ->]. right. by left.
      * rewrite H3. cbn [register required]. destruct (mandatory f) eqn:Hm.
        -- by rewrite filter_cons_True, fmap_cons, <- app_assoc by done.
        -- by rewrite filter_cons_False by congruence.
      * intros g [->|Hg]%elem_of_cons; [|by apply H4]. by rewrite H5.
      * intros n Hnf. rewrite fmap_cons in Hnf. apply not_elem_of_cons in Hnf as [Hnf ?].
        rewrite H5 by done. cbn [register families]. rewrite own_assign. by case_decide.
Qed.

Lemma factory_of_spec (fs : list (family D S P O I E)) :
  NoDup (fname <$> fs) ->
  let F := factory_of fs in
  named F /\ (forall n f, own (families F) n = Some f -> f ∈ fs) /\
  required F = fname <$> filter (fun f => mandatory f = true) fs /\
  (forall f, f ∈ fs -> own (families F) (fname f) = Some f).
Proof.
  intros Hd F. destruct (register_all fs (mkFactory [] [] [])) as (H1 & H2 & H3 & H4 & _); [done..|].
  split_and!; try done. intros n f Hf. by destruct (H2 n f Hf).
Qed.

Lemma push_keys name (d : D) groups :
  fst <$> push name d groups = if decide (name ∈ fst <$> groups) then fst <$> groups else (fst <$> groups) ++ [name].
Proof. apply assign_keys. Qed.

Lemma gather_spec (error : string -> E) F route ds groups missing groups' missing' :
  named F -> gather error F route ds groups missing = Ok (groups', missing') ->
  fst <$> groups' = foldl (fun seen n => add n seen)
    (fst <$> groups) (family_name <$> ds) /\
  missing' = filter (fun n => n ∉ family_name <$> ds) missing /\
  Forall (fun n => is_Some (own (families F) n)) (family_name <$> ds) /\
  (forall f, own (families F) (fname f) = Some f -> exists made',
    made f ds route = Ok made' /\
    default [] (own groups' (fname f)) = default [] (own groups (fname f)) ++ made').
Proof.
  intros HF. revert groups missing. induction ds as [|d ds IH]; intros groups missing; cbn [gather].
  - intros [= <- <-]. split_and!; [done | | done |].
    + symmetry. apply list_filter_id. intros x _. apply not_elem_of_nil.
    + intros f _. exists []. by rewrite app_nil_r.
  - destruct (own (families F) (family_name d)) as [f|] eqn:Hf; [|done].
    intros (x & Hx & Hg)%bind_Ok. apply IH in Hg as (Hk & Hm & Hr & Hs).
    pose proof (HF _ _ Hf) as Hn. rewrite fmap_cons. cbn [foldl]. split_and!.
    + by rewrite Hk, push_keys, Hn.
    + rewrite Hm, list_filter_filter. apply list_filter_iff. intros n. rewrite not_elem_of_cons, Hn. naive_solver.
    + constructor; [by eexists | done].
    + intros g Hg. destruct (Hs g Hg) as (made' & Hmade & Hown). unfold push in Hown.
      rewrite own_assign in Hown. unfold made.
      destruct (decide (fname g = family_name d)) as [He|He].
      * rewrite filter_cons_True by done. assert (g = f) as -> by congruence.
        exists (x :: made'). cbn [mapM]. unfold made in Hmade. rewrite Hx. cbn. rewrite Hmade. cbn.
        split; [done|]. rewrite Hown. rewrite decide_True by done. cbn. by rewrite <- app_assoc.
      * rewrite filter_cons_False by done. exists made'. split; [done|]. rewrite Hown.
        rewrite decide_False; [done | congruence].
Qed.

Lemma sets_of_names F (groups : list (string * list D)) :
  named F -> Forall (fun n => is_Some (own (families F) n)) (fst <$> groups) ->
  (fun s => fname (family_ s)) <$> sets_of F groups = fst <$> groups.
Proof.
  intros HF. induction groups as [|[n ds] groups IH]; [done|]. rewrite fmap_cons.
  intros [[f Hf] Hr]%Forall_cons. unfold sets_of. cbn [omap list_omap]. cbn [fst] in Hf. rewrite Hf. cbn.
  rewrite (HF n f Hf). f_equal. by apply IH.
Qed.

Lemma elem_of_sets F (groups : list (string * list D)) s :
  s ∈ sets_of F groups -> exists n, (n, directives s) ∈ groups /\ own (families F) n = Some (family_ s).
Proof.
  unfold sets_of. intros ([n ds] & Hin & Hs)%list_elem_of_omap.
  destruct (own (families F) n) as [f|] eqn:Hf; [|done]. injection Hs as <-. by exists n.
Qed.

Lemma own_NoDup {A} (l : list (string * A)) k v : NoDup l.*1 -> (k, v) ∈ l -> own l k = Some v.
Proof.
  intros Hd Hin. destruct (own l k) as [w|] eqn:Ho.
  - f_equal. apply (NoDup_keys_inj l k w v Hd); [by apply own_Some | done].
  - exfalso. apply own_None in Ho. apply Ho. by apply (list_elem_of_fmap_2 fst _ (k, v)).
Qed.

Lemma firsts_spec (ns seen : list string) :
  let all := foldl (fun seen n => add n seen) seen ns in
  (NoDup seen -> NoDup all) /\ (forall n, n ∈ all <-> n ∈ seen \/ n ∈ ns).
Proof.
  revert seen. induction ns as [|n ns IH]; intros seen; cbn [foldl].
  - split; [done|]. intros n. rewrite elem_of_nil. naive_solver.
  - destruct (IH (if decide (n ∈ seen) then seen else seen ++ [n])) as [H1 H2]. split.
    + intros Hd. apply H1. case_decide; [done|]. apply NoDup_app. split; [done|].
      split; [set_solver | apply NoDup_singleton].
    + intros m. rewrite H2. case_decide; set_solver.
Qed.

Lemma filter_fmap_rank {A B} (g : A -> B) (r : B -> nat) k (l : list A) :
  g <$> filter (fun x => r (g x) = k) l = filter (fun y => r y = k) (g <$> l).
Proof.
  induction l as [|x l IH]; [done|]. rewrite fmap_cons. destruct (decide (r (g x) = k)).
  - by rewrite !filter_cons_True, fmap_cons, IH.
  - by rewrite !filter_cons_False, IH.
Qed.

Lemma ranks_fmap {A B} (g : A -> B) (r : B -> nat) from n (l : list A) :
  g <$> ranks (fun x => r (g x)) from n l = ranks r from n (g <$> l).
Proof.
  unfold ranks. induction (seq from n) as [|k ks IH]; [done|]. cbn in IH |- *.
  rewrite fmap_app, filter_fmap_rank. by f_equal.
Qed.
End lemmas.

(** ** Properties *)

Section create.
Context {D S P O I E : Type} (error : string -> E).
Context (fs : list (family D S P O I E)) (distinct : NoDup (fname <$> fs)).
Context (ds : list declaration) (route : string).

Definition obligatory : list string := fname <$> filter (fun f => mandatory f = true) fs.

Definition name_of (s : set_ D S P O I E) : string := fname (family_ s).

(** what is sorted when a method is made *)
Lemma create_sets sets :
  create error (factory_of fs) ds route = Ok sets ->
  exists unsorted,
    name_of <$> unsorted = filter (fun n => n ∉ family_name <$> ds) obligatory ++ firsts (family_name <$> ds) /\
    sets = (fun s => mkSet (family_ s) (arranged (family_ s) (directives s))) <$>
      stable_sort (by_rank (rank (factory_of fs))) unsorted /\
    forall s, s ∈ unsorted -> family_ s ∈ fs /\ made (family_ s) ds route = Ok (directives s).
Proof.
  destruct (factory_of_spec fs distinct) as (Hnamed & Hin & Hreq & Hown).
  unfold create. intros ([groups missing] & Hg & Hs)%bind_Ok. injection Hs as <-.
  apply (gather_spec error _ _ _ _ _ _ _ Hnamed) in Hg as (Hk & Hm & Hr & Hmade).
  set (F := factory_of fs) in *. fold (firsts (family_name <$> ds)) in Hk. rewrite Hreq in Hm.
  destruct (firsts_spec (family_name <$> ds) []) as [Hfd Hfe]. cbv zeta in Hfd, Hfe.
  assert (fst <$> groups = firsts (family_name <$> ds)) as Hkeys by exact Hk.
  eexists. split; [|split; [reflexivity|]].
  - rewrite fmap_app. unfold name_of. rewrite !sets_of_names; [| done | | done |].
    + rewrite Hkeys, <- list_fmap_compose, Hm. f_equal. apply list_fmap_id.
    + rewrite Hkeys. apply Forall_forall. intros n [?%elem_of_nil|Hn]%Hfe; [done|].
      by apply (proj1 (Forall_forall _ _) Hr).
    + rewrite <- list_fmap_compose, Hm. apply Forall_forall. intros n Hn.
      apply list_elem_of_fmap in Hn as (n' & -> & Hn). apply list_elem_of_filter in Hn as [_ Hn].
      apply list_elem_of_fmap in Hn as (f & -> & Hf). apply list_elem_of_filter in Hf as [_ Hf].
      cbn. rewrite Hown by done. by eexists.
  - intros s [Hs|Hs]%elem_of_app; apply elem_of_sets in Hs as (n & Hn & Hf).
    + split; [by apply (Hin n)|]. apply list_elem_of_fmap in Hn as (n' & [= -> Hd] & Hn'). rewrite Hd.
      rewrite Hm in Hn'. apply list_elem_of_filter in Hn' as [Hn' _].
      unfold made. rewrite list_filter_none; [done|]. intros d Hd' Hfn. apply Hn'.
      rewrite <- (Hnamed _ _ Hf), <- Hfn. by apply (list_elem_of_fmap_2 family_name).
    + split; [by apply (Hin n)|]. pose proof (Hnamed _ _ Hf) as Hfn. subst n.
      destruct (Hmade _ Hf) as (made' & Hmk & Ho). rewrite Hmk. f_equal.
      rewrite (own_NoDup groups (fname (family_ s)) (directives s)) in Ho; [by symmetry | | done].
      rewrite Hkeys. apply Hfd. constructor.
Qed.

Lemma obligatory_NoDup : NoDup obligatory.
Proof.
  unfold obligatory. eapply sublist_NoDup; [exact distinct|].
  apply fmap_sublist, sublist_filter.
Qed.

Lemma created_names sets :
  create error (factory_of fs) ds route = Ok sets ->
  name_of <$> sets = obligatory ++ filter (fun n => n ∉ obligatory) (firsts (family_name <$> ds)).
Proof.
  intros Hc. destruct (create_sets sets Hc) as (unsorted & Hn & -> & _).
  destruct (factory_of_spec fs distinct) as (_ & _ & Hreq & _).
  destruct (firsts_spec (family_name <$> ds) []) as [Hfd Hfe]. cbv zeta in Hfd, Hfe.
  pose proof obligatory_NoDup as Hod.
  rewrite <- list_fmap_compose. change (name_of <$> stable_sort (by_rank (rank (factory_of fs))) unsorted =
    obligatory ++ filter (fun n => n ∉ obligatory) (firsts (family_name <$> ds))).
  rewrite (stable_sort_ranks _ (Datatypes.S (length obligatory))).
  - unfold rank. rewrite Hreq. fold obligatory.
    rewrite (ranks_fmap name_of (rank_of obligatory)), Hn, ranks_names; [| done | |].
    + rewrite filter_app, (list_filter_none _ (filter _ obligatory)); [done|].
      intros n [_ ?]%list_elem_of_filter. by intros [].
    + apply NoDup_app. split; [by apply NoDup_filter|]. split; [|by apply Hfd; constructor].
      intros n [Hn' _]%list_elem_of_filter [?%elem_of_nil|?]%Hfe; done.
    + intros n Hn'. apply elem_of_app. destruct (decide (n ∈ family_name <$> ds)) as [Hd|Hd].
      * right. apply Hfe. by right.
      * left. by apply list_elem_of_filter.
  - intros s _. unfold rank. rewrite Hreq. fold obligatory.
    pose proof (rank_of_bound obligatory (fname (family_ s))). lia.
Qed.

Lemma created_given sets s :
  create error (factory_of fs) ds route = Ok sets -> s ∈ sets ->
  family_ s ∈ fs /\
  exists given, made (family_ s) ds route = Ok given /\ directives s = arranged (family_ s) given.
Proof.
  intros Hc Hs. destruct (create_sets sets Hc) as (unsorted & _ & -> & Hall).
  apply list_elem_of_fmap in Hs as (s' & -> & Hs'). rewrite stable_sort_perm in Hs'.
  destruct (Hall s' Hs') as [? ?]. split; [done|]. by exists (directives s').
Qed.

Lemma same_family f g : f ∈ fs -> g ∈ fs -> fname f = fname g -> f = g.
Proof.
  intros Hf Hg Hn. clear ds route. induction fs as [|x l IH]; [by apply elem_of_nil in Hf|].
  rewrite fmap_cons in distinct. apply NoDup_cons in distinct as [Hx Hl].
  assert (forall h, h ∈ l -> fname h ∈ fname <$> l) as Hin by (intros; by apply list_elem_of_fmap_2).
  apply elem_of_cons in Hf as [->|Hf]; apply elem_of_cons in Hg as [->|Hg]; [done | | | by apply IH].
  - exfalso. apply Hx. rewrite Hn. by apply Hin.
  - exfalso. apply Hx. rewrite <- Hn. by apply Hin.
Qed.

(** Every method is guarded by every mandatory family, declared on it or not, each once and in the
    order they are registered in; what else it declares comes after, in the order of its declaration;
    and each family is given the directives declared of it, in their order. *)
Theorem created_in_order sets :
  create error (factory_of fs) ds route = Ok sets ->
  name_of <$> sets = obligatory ++ filter (fun n => n ∉ obligatory) (firsts (family_name <$> ds)) /\
  forall s, s ∈ sets -> family_ s ∈ fs /\
    exists given, made (family_ s) ds route = Ok given /\ directives s = arranged (family_ s) given.
Proof. intros Hc. split; [by apply created_names | intros s; by apply created_given]. Qed.

(** Nothing of a method runs where the family registered first refuses the request, whatever else
    is declared and in whatever order: [precall] throws what it threw, and leaves what the request
    carries as that family left it. *)
Theorem first_refusal_ends first rest guard sets given ps s e s' :
  fs = first :: rest -> mandatory first = true -> on_precall first = Some guard ->
  create error (factory_of fs) ds route = Ok sets ->
  made first ds route = Ok given -> guard (arranged first given) ps s = (Throw e, s') ->
  precall error sets ps None s = (Throw e, s').
Proof.
  intros Hfs Hm Hg Hc Hmade Hthrow. pose proof (created_names sets Hc) as Hn.
  assert (obligatory = fname first :: (fname <$> filter (fun f => mandatory f = true) rest)) as Ho
    by (unfold obligatory; by rewrite Hfs, filter_cons_True).
  rewrite Ho in Hn. destruct sets as [|s0 sets]; [done|]. injection Hn as Hn _.
  destruct (created_given _ s0 Hc ltac:(by left)) as (Hin & given' & Hg' & Hd).
  assert (family_ s0 = first) as Hf by (apply same_family; [done | rewrite Hfs; by left | done]).
  cbn [precall]. rewrite Hd, Hf, Hg in *. rewrite Hmade in Hg'. injection Hg' as ->. by rewrite Hthrow.
Qed.
End create.

(** ** A route nobody may call *)

Module Closed.
Definition keep (name : string) (_ : value) (_ : string) : result string string := Ok name.

(** a family that says it ran *)
Definition speaks (name : string) (must : bool) : family string (list string) unit string unit string :=
  mkFamily name must None keep None (Some (fun ds _ s => (Ok None, s ++ [name]))) None None None None None.

Definition guard (ds : list string) (_ : unit) (s : list string) : result string (option string) * list string :=
  if decide ("anonymous" ∈ ds) then (Ok None, s ++ ["auth"]) else (Throw "Forbidden", s ++ ["auth"]).

Definition auth : family string (list string) unit string unit string :=
  mkFamily "auth" true None keep None (Some guard) None None None None None.

Definition all : list (family string (list string) unit string unit string) :=
  [auth; speaks "io" true; speaks "cache" true; speaks "dev" false; speaks "map" false].

Definition stated_ : list declaration :=
  [mkDeclaration "map" "headers" VNull; mkDeclaration "cache" "control" VNull; mkDeclaration "auth" "role" VNull].

Definition sets : list (set_ string (list string) unit string unit string) :=
  match create Datatypes.id (factory_of all) stated_ "/pots/" with Ok sets => sets | _ => [] end.

Lemma all_distinct : NoDup (fname <$> all).
Proof. apply (bool_decide_unpack _). vm_compute. exact I. Qed.

Example names : name_of <$> sets = ["auth"; "io"; "cache"; "map"].
Proof. reflexivity. Qed.

Lemma created_in_order_witness : name_of <$> sets = ["auth"; "io"; "cache"; "map"].
Proof. exact (proj1 (created_in_order Datatypes.id all all_distinct stated_ "/pots/" sets eq_refl)). Defined.

Lemma first_refusal_ends_witness :
  precall Datatypes.id sets tt None [] = (Throw "Forbidden", ["auth"]).
Proof.
  apply (first_refusal_ends Datatypes.id all all_distinct stated_ "/pots/" auth
    [speaks "io" true; speaks "cache" true; speaks "dev" false; speaks "map" false] guard sets ["role"]); reflexivity.
Defined.
End Closed.
