(* ===== verification/Branches.v ===== *)
(** * Branches

    [extensions/exposition/source/RTD/factory.ts] and [Tree.ts]: a declaration of routes built into
    nodes. The directives of a node are carried into its methods and down to the nodes below it, on
    a stack the context holds and each route restores. *)
From S2P Require Import Prelude Routing Directives.

Open Scope Z_scope.

(** ** What is declared: [syntax.Node] *)

Section branches.
(** what a method maps to, and an endpoint made of it *)
Context {Mapping Endpoint D S P O I E : Type}.
Context (error : string -> E) (endpoint : Mapping -> string -> result E Endpoint).
Context (F : factory D S P O I E).

Record stated_method := mkMethod { sverb : string; mapping : option Mapping; sdirectives : list declaration }.

Inductive stated_node :=
| SNode (sprotected : option bool) (isolated : bool) (sforward : option string)
    (sroutes : list stated_route) (smethods : list stated_method) (stated : list declaration)
with stated_route :=
| SRoute (path : string) (n : stated_node).

(** [RTD.Method] *)
Record built := mkBuilt { reaches : option Endpoint; guards : list (set_ D S P O I E) }.

(** ** Building *)

Fixpoint squeeze (cs : list ascii) : list ascii :=
  match cs with
  | "/"%char :: (("/"%char :: _) as cs) => squeeze cs
  | c :: cs => c :: squeeze cs
  | [] => []
  end.

(** [(base + path).replace(/\/+/g, '/').replace(/(.)\/$/, '$1')] *)
Definition join_path (base path : string) : string :=
  let cs := squeeze (chars (base +:+ path)) in
  match last cs with
  | Some "/"%char => if (1 <? length cs)%nat then of_chars (removelast cs) else of_chars cs
  | _ => of_chars cs
  end.

Definition create_method (m : stated_method) (stack : list declaration) (path : string) : result E built :=
  sets ← create error F (sdirectives m ++ stack) path;
  match mapping m with
  | None => Ok (mkBuilt None sets)
  | Some e => made ← endpoint e path; Ok (mkBuilt (Some made) sets)
  end.

(** [for (const method of node.methods) methods[method.verb] = createMethod(method, context)] *)
Fixpoint create_methods (ms : list stated_method) (stack : list declaration) (path : string)
    (done : list (string * built)) : result E (list (string * built)) :=
  match ms with
  | [] => Ok done
  | m :: ms =>
      made ← create_method m stack path;
      create_methods ms stack path (assign (sverb m) made done)
  end.

(** A resource is what it is described beside. *)
Definition described (ds : list declaration) (ms : list stated_method) (rs : list stated_route)
    (path : string) : result E unit :=
  let help := existsb (fun d => bool_decide (family_name d = "help" /\ directive_name d = "node")) ds in
  let rooted := existsb (fun '(SRoute p _) => bool_decide (p = "/")) rs in
  refuse_when (help && match ms with [] => true | _ => false end && negb rooted)
    (error ("Directive help:node: " +:+ quoted ("/" +:+ join "/" (fragments path)) +:+ " serves no methods")).

(** what a node below a route carries of the stack *)
Definition below (path : string) (stack : list declaration) : list declaration :=
  if decide (path = "/") then stack else filter (fun d => inheritable F d = true) stack.

Definition stack_of (isolated : bool) (ds stack : list declaration) : list declaration :=
  if isolated then ds else ds ++ stack.

(** [node.routes.map(createRoute)], ids being handed out in the order nodes are made *)
Section each.
Context (build : stated_route -> nat -> result E (route built * nat)).

Fixpoint create_routes (rs : list stated_route) (i : nat) : result E (list (route built) * nat) :=
  match rs with
  | [] => Ok ([], i)
  | r :: rs =>
      '(made, i) ← build r i;
      '(more, i) ← create_routes rs i;
      Ok (made :: more, i)
  end.
End each.

Fixpoint createNode (now : Z) (protect : bool) (n : stated_node) (stack : list declaration)
    (path : string) (i : nat) : result E (node built * nat) :=
  match n with
  | SNode sprotected isolated sforward rs ms ds =>
      let stack := stack_of isolated ds stack in
      described ds ms rs path ≫= fun _ =>
      '(routes, next) ← create_routes (fun r i =>
        match r with
        | SRoute p n =>
            '(made, i) ← createNode now protect n (below p stack) (join_path path p) i;
            Ok (Route (segments p) made, i)
        end) rs (Datatypes.S i);
      methods ← create_methods ms stack path [];
      let protect := default protect sprotected in
      Ok (Routing.make i routes methods protect sforward
            (if protect then None else Some (now + BRANCH_TTL)), next)
  end.

(** ** What is declared of a method, said directly: its own directives, its node's, and those of the
    nodes above that are carried this far *)

Fixpoint declares (stack : list declaration) (n : stated_node) (path : list string) (v : string)
  : option (list declaration) :=
  match n with
  | SNode _ isolated _ rs ms ds =>
      let carried := if isolated then ds else ds ++ stack in
      match path with
      | [] =>
          m ← List.find (fun m => bool_decide (sverb m = v)) (reverse ms);
          Some (sdirectives m ++ carried)
      | p :: path =>
          '(SRoute _ n) ← List.find (fun '(SRoute p' _) => bool_decide (p' = p)) rs;
          let passed := filter (fun d => p = "/" \/ inheritable F d = true) carried in
          declares passed n path v
      end
  end.
End branches.

(** ** Lemmas *)

Section lemmas.
Context {Mapping Endpoint D S P O I E : Type}.
Context (error : string -> E) (endpoint : Mapping -> string -> result E Endpoint).
Context (F : factory D S P O I E).

Lemma stated_ind (Q : stated_node (Mapping := Mapping) -> Prop) :
  (forall p iso fwd rs ms ds, Forall (fun '(SRoute _ n) => Q n) rs -> Q (SNode p iso fwd rs ms ds)) ->
  forall n, Q n.
Proof.
  intros HQ. fix IH 1. intros [p iso fwd rs ms ds]. apply HQ.
  induction rs as [|[path n] rs IHrs]; constructor; [apply IH | exact IHrs].
Qed.

Lemma create_methods_other (ms : list stated_method) stack path given table v :
  create_methods error endpoint F ms stack path given = Ok table ->
  Forall (fun m => sverb m <> v) ms -> own table v = own given v.
Proof.
  revert given. induction ms as [|m ms IH]; intros given; cbn [create_methods].
  - by intros [= <-].
  - intros (b & _ & Hb)%bind_Ok [Hm Hms]%Forall_cons. rewrite (IH _ Hb Hms), own_assign.
    by case_decide.
Qed.

Lemma find_reverse {A} (p : A -> bool) x l :
  List.find p (reverse (x :: l)) =
  match List.find p (reverse l) with Some y => Some y | None => if p x then Some x else None end.
Proof.
  rewrite reverse_cons. induction (reverse l) as [|y k IH]; simpl; [done|].
  by destruct (p y).
Qed.

Lemma create_methods_last (ms : list stated_method) stack path given table v m :
  create_methods error endpoint F ms stack path given = Ok table ->
  List.find (fun m => bool_decide (sverb m = v)) (reverse ms) = Some m ->
  exists b, own table v = Some b /\ create_method error endpoint F m stack path = Ok b.
Proof.
  revert given. induction ms as [|m' ms IH]; intros given; [done|].
  cbn [create_methods]. rewrite find_reverse. intros (b & Hb & Ht)%bind_Ok.
  destruct (List.find _ (reverse ms)) as [m''|] eqn:Hf.
  - intros [= <-]. by apply (IH (assign (sverb m') b given)).
  - case_bool_decide as Hv; [|done]. intros [= <-]. exists b. split; [|done].
    rewrite (create_methods_other _ _ _ _ _ v Ht).
    + rewrite own_assign. by case_decide.
    + apply Forall_forall. intros x Hx Hxv. eapply List.find_none in Hf; [|apply list_elem_of_In, elem_of_reverse, Hx].
      by apply bool_decide_eq_false in Hf.
Qed.

Lemma create_method_guards m stack path b :
  create_method error endpoint F m stack path = Ok b ->
  create error F (sdirectives m ++ stack) path = Ok (guards b).
Proof.
  unfold create_method. intros (sets & Hs & Hb)%bind_Ok. rewrite Hs.
  destruct (mapping m) as [e|]; [|by injection Hb as <-].
  apply bind_Ok in Hb as (? & _ & Hb). by injection Hb as <-.
Qed.

Lemma create_routes_in (build : stated_route (Mapping := Mapping) -> nat ->
    result E (Routing.route (built (Endpoint := Endpoint) (D := D) (S := S) (P := P) (O := O) (I := I) (E := E)) * nat))
    rs i made next :
  create_routes build rs i = Ok (made, next) ->
  (forall r, r ∈ rs -> exists i made' i', build r i = Ok (made', i') /\ made' ∈ made) /\
  (forall r', r' ∈ made -> exists r i i', r ∈ rs /\ build r i = Ok (r', i')).
Proof.
  revert i made next. induction rs as [|r rs IH]; intros i made next; cbn [create_routes].
  - intros [= <- <-]. split; by intros ? ?%elem_of_nil.
  - intros ([r' i1] & Hb & Hm)%bind_Ok. apply bind_Ok in Hm as ([more i2] & Hr & Hm).
    injection Hm as <- <-. destruct (IH _ _ _ Hr) as [H1 H2]. split.
    + intros x [->|Hx]%elem_of_cons; [exists i, r', i1; split; [done | by left]|].
      destruct (H1 x Hx) as (j & m & j' & ? & ?). exists j, m, j'. split; [done | by right].
    + intros x [->|Hx]%elem_of_cons; [exists r, i, i1; split; [by left | done]|].
      destruct (H2 x Hx) as (y & j & j' & ? & ?). exists y, j, j'. split; [by right | done].
Qed.

Lemma lasting_make {M} i (rs : list (Routing.route M)) ms protect fwd e :
  (protect = true -> e = None) -> Forall (fun r => lasting (node_of r)) rs ->
  lasting (Routing.make i rs ms protect fwd e).
Proof. intros He Hrs. constructor; [exact He|]. cbn [Routing.make routes]. by rewrite sort_perm. Qed.

Lemma createNode_lasting now protect n stack path i n' next :
  createNode error endpoint F now protect n stack path i = Ok (n', next) -> lasting n'.
Proof.
  revert stack path i n' next. induction n as [p iso fwd rs ms ds IH] using stated_ind.
  intros stack path i n' next. cbn [createNode].
  intros (_ & _ & Hn)%bind_Ok. apply bind_Ok in Hn as ([routes next'] & Hr & Hn).
  apply bind_Ok in Hn as (methods & _ & Hn). injection Hn as <- <-.
  apply lasting_make; [by destruct (default protect p)|].
  apply Forall_forall. intros r' Hin. apply create_routes_in in Hr as [_ Hr].
  destruct (Hr r' Hin) as ([q c] & j & j' & Hq & Hb).
  apply bind_Ok in Hb as ([c' k] & Hc & Hb). injection Hb as <- _. cbn [node_of].
  by apply (proj1 (Forall_forall _ _) IH _ Hq) in Hc.
Qed.

Lemma find_path rs p path n :
  List.find (fun '(SRoute p' _) => bool_decide (p' = p)) rs = Some (@SRoute Mapping path n) ->
  path = p /\ SRoute path n ∈ rs.
Proof.
  intros Hf. apply List.find_some in Hf as [Hin Hp]. apply bool_decide_eq_true in Hp.
  by apply list_elem_of_In in Hin.
Qed.

Lemma passed_below p stack :
  filter (fun d => p = "/" \/ inheritable F d = true) stack = below F p stack.
Proof.
  unfold below. case_decide as Hp; [apply list_filter_id; by left | apply list_filter_iff; naive_solver].
Qed.

(** ** Properties *)

(** A method is built where it is declared, and guarded by exactly the directives its place says:
    its own, then its node's, then what the nodes above carry down to it, an isolated node carrying
    nothing of those above it and a description nothing below its own root. *)
Theorem built_as_declared now protect n stack path i n' next ps v ds :
  createNode error endpoint F now protect n stack path i = Ok (n', next) ->
  declares F stack n ps v = Some ds ->
  exists m route, answers (fun _ => True) n' (segments <$> ps) v m /\
    create error F ds route = Ok (guards m).
Proof.
  revert n stack path i n' next. induction ps as [|p ps IH]; intros [pr iso fwd rs ms nds] stack path i n' next;
    cbn [createNode declares]; intros (_ & _ & Hn)%bind_Ok;
    apply bind_Ok in Hn as ([routes next'] & Hr & Hn); apply bind_Ok in Hn as (methods & Hm & Hn);
    injection Hn as <- <-.
  - intros Hf. apply bind_Some in Hf as (m & Hf & [= <-]).
    destruct (create_methods_last _ _ _ _ _ _ _ Hm Hf) as (b & Ho & Hb).
    exists b, path. split; [done|]. by apply create_method_guards.
  - intros Hf. apply bind_Some in Hf as ([q c] & Hf & Hd). apply find_path in Hf as [-> Hq].
    apply create_routes_in in Hr as [Hr _]. destruct (Hr _ Hq) as (j & made' & j' & Hb & Hin).
    apply bind_Ok in Hb as ([c' k] & Hc & Hb). injection Hb as <- _.
    rewrite passed_below in Hd. destruct (IH c _ _ _ _ _ Hc Hd) as (m & route & Ha & Hg). exists m, route. split; [|done].
    rewrite fmap_cons. cbn [answers]. split; [done|]. exists (segments p), c'.
    split; [cbn [Routing.make Routing.routes]; by rewrite sort_perm|]. split; [by apply equals_key | done].
Qed.
End lemmas.

(** ** A site, and a page of it *)

Module Site.
Definition closed : factory string (list string) unit string unit string := factory_of Closed.all.
Definition endpoint (m : string) (_ : string) : result string string := Ok m.

Definition get : stated_method (Mapping := string) :=
  mkMethod "GET" (Some "read") [mkDeclaration "cache" "control" VNull].

Definition site : stated_node (Mapping := string) :=
  SNode None false None
    [SRoute "/pots/:id" (SNode None false None [] [get] [mkDeclaration "map" "headers" VNull])]
    [] [mkDeclaration "auth" "role" VNull].

Definition built_site : result string (node built * nat) :=
  createNode (D := string) (S := list string) (P := unit) (O := string) (I := unit)
    Datatypes.id endpoint closed 0 true site [] "" 0.

Definition ds : list declaration :=
  [mkDeclaration "cache" "control" VNull; mkDeclaration "map" "headers" VNull; mkDeclaration "auth" "role" VNull].

Definition root_ : node built :=
  match built_site with Ok (n, _) => n | Throw _ => Routing.make 0 [] [] true None None end.

Lemma built_as_declared_witness :
  exists m route, answers (fun _ => True) root_ (segments <$> ["/pots/:id"]) "GET" m /\
    create Datatypes.id closed ds route = Ok (guards m).
Proof.
  apply (built_as_declared Datatypes.id endpoint closed 0 true site [] "" 0 root_ 2); reflexivity.
Defined.
End Site.
