(* ===== verification/Continuity.v ===== *)
(** * Continuity

    [extensions/continuity/source/{Run,answers,fingerprint,Journal}.ts] and the operations of
    [continuity.journal]: a durable run. What an operation asks of its context is kept in a journal
    under a key of what was asked, and given back to every attempt of the run after.

    An operation is a tree of what it asks and what it does with the answers; an attempt is a state
    whose steps are what happens between two awaits. The journal here is that of one run: keys are
    derived of the run's id first, so that runs share none. *)
From stdpp Require Import sorting relations.
From S2P Require Import Prelude Exceptions Identity.

Open Scope Z_scope.

(** ** What is asked: [fingerprint] *)

(** An argument by what is read of it: a primitive as [typeof] names it and [String] writes it. *)
Inductive arg :=
| Primitive (type text : string)
| Bytes (bytes : list Z)
| Date (iso : string)
| Url (href : string)
| Items (items : list arg)
| Fields (fields : list (string * arg))
| Other (constructor : string).

(** [JSON.stringify(key)] *)
Definition json_char (c : ascii) : list ascii :=
  let n := Z.of_nat (nat_of_ascii c) in
  if n =? 34 then chars "\" ++ [c]
  else if n =? 92 then chars "\\"
  else if n =? 8 then chars "\b"
  else if n =? 9 then chars "\t"
  else if n =? 10 then chars "\n"
  else if n =? 12 then chars "\f"
  else if n =? 13 then chars "\r"
  else if n <? 32 then chars "\u00" ++ hex_byte n
  else [c].

Definition json_string (s : string) : string :=
  of_chars ([ascii_of_nat 34] ++ mbind json_char (chars s) ++ [ascii_of_nat 34]).

Definition undefined (a : arg) : bool :=
  match a with Primitive type _ => bool_decide (type = "undefined") | _ => false end.

(** what is fed to the hash, a cycle of objects having no end here *)
Fixpoint write (a : arg) : list Z :=
  match a with
  | Primitive type text => utf8 (type +:+ ":" +:+ text +:+ ";")
  | Bytes bytes => utf8 "bytes:" ++ bytes ++ utf8 ";"
  | Date iso => utf8 ("date:" +:+ iso +:+ ";")
  | Url href => utf8 ("url:" +:+ href +:+ ";")
  | Items items => utf8 "[" ++ flat_map write items ++ utf8 "]"
  | Fields fields =>
      let written := map (fun '(key, item) =>
        (key, if undefined item then [] else utf8 (json_string key +:+ "=") ++ write item)) fields in
      utf8 "{" ++ flat_map snd (merge_sort named_before written) ++ utf8 "}"
  | Other constructor => utf8 ("<" +:+ constructor +:+ ">;")
  end.

(** ** What is kept of an answer *)

Inductive answer :=
| Undefined
| Plain (v : value)
| Buffer (bytes : list Z)
(** an error, as its own properties *)
| Failed (properties : list (string * value))
| Response (status : Z) (statusText : string) (headers : list (string * string)) (body : option (list Z))
(** read once: it pipes, reads or iterates *)
| Stream.

(** [Kept], bytes being kept as the text base64 writes them *)
Inductive kept :=
| KValue (v : value)
| KNone
| KBytes (bytes : list Z)
| KError (properties : list (string * value))
| KResponse (status : Z) (statusText : string) (headers : list (string * string)) (body : option (list Z)).

Definition UnrecordableException : thrown :=
  Raised (exception (codes Unrecordable)
    "a step answered with a stream, which is read once and cannot be given back").

Definition encode (a : answer) : result thrown kept :=
  match a with
  | Undefined => Ok KNone
  | Response status text headers body => Ok (KResponse status text headers body)
  | Stream => Throw UnrecordableException
  | Buffer bytes => Ok (KBytes bytes)
  | Failed properties => Ok (KError properties)
  | Plain v => Ok (KValue v)
  end.

Definition decode (k : kept) : answer :=
  match k with
  | KNone => Undefined
  | KBytes bytes => Buffer bytes
  | KError properties => Failed properties
  | KResponse status text headers body => Response status text headers body
  | KValue v => Plain v
  end.

(** ** The journal *)

Record entry := mkEntry { kept_ : kept; reaped_at : Z }.

(** the operation [record]: what is kept first stays *)
Definition record (key : string) (k : kept) (expires : Z) (journal : gmap string entry)
    : gmap string entry * kept :=
  match journal !! key with
  | Some e => (journal, kept_ e)
  | None => (<[key := mkEntry k expires]> journal, k)
  end.

Definition PAGE : nat := Z.to_nat 1000.

(** [Journal.recall]: page after page of the records sorted by their ids, until a short one; what
    [omit] is past is empty, so as many pages as there are records are enough *)
Fixpoint recalled (fuel : nat) (page omit : nat) (rows : list (string * entry))
    (steps : gmap string kept) (expires : option Z) : gmap string kept * option Z :=
  match fuel with
  | O => (steps, expires)
  | S fuel =>
      let read := take page (drop omit rows) in
      let '(steps, expires) :=
        foldl (fun '(steps, _) '(id, e) => (<[id := kept_ e]> steps, Some (reaped_at e)))
          (steps, expires) read in
      if (length read <? page)%nat then (steps, expires)
      else recalled fuel page (omit + page) rows steps expires
  end.

Definition recall (journal : gmap string entry) : gmap string kept * option Z :=
  let rows := merge_sort named_before (map_to_list journal) in
  recalled (S (length rows)) PAGE 0 rows ∅ None.

(** ** Operations and attempts *)

(** An operation by what it does next: it answers or throws, makes a step that answers later, or takes
    a value that answers at once. *)
Inductive op :=
| Finished (r : result thrown answer)
| Asks (member : string) (args : list arg) (k : result thrown answer -> op)
| Takes (member : string) (k : answer -> op).

Section run.
Context (sha1 : list Z -> list Z) (run : string) (window : Z).

Record attempt := mkAttempt {
  todo : op;
  steps : gmap string kept;
  expires : option Z;
  asked : gmap string nat;
  writing : list (string * kept);
  (** a write that failed is among those waited for, and fails whoever waits *)
  broken : bool;
}.

Definition begin (journal : gmap string entry) (o : op) : attempt :=
  let '(steps, expires) := recall journal in mkAttempt o steps expires ∅ [] false.

Definition fingerprint (args : list arg) : string := hex (sha1 (write (Items args))) 20.

(** the key of what is asked, and how often it was *)
Definition key_of (asked : gmap string nat) (member : string) (args : list arg)
    : string * gmap string nat :=
  let it := member +:+ ":" +:+ fingerprint args in
  let count := default 0%nat (asked !! it) in
  (derive sha1 [Text run; Text it; Number (Z.of_nat count)], <[it := S count]> asked).

Definition expiry (now : Z) (a : attempt) : Z := default (now + window * 1000) (expires a).

Definition next (a : attempt) (o : op) (asked : gmap string nat) : attempt :=
  mkAttempt o (steps a) (expires a) asked (writing a) (broken a).

Definition keep (key : string) (k : kept) (now : Z) (a : attempt) : attempt :=
  mkAttempt (todo a) (<[key := k]> (steps a)) (Some (expiry now a)) (asked a) (writing a) (broken a).

(** what happened: nothing was made, a step was made or failed, a value was taken *)
Inductive happened := Given | Made (key : string) | Took (key : string) | Wrote | Lost.

Inductive act : gmap string entry -> attempt -> gmap string entry -> attempt -> happened -> Prop :=
(** [step], of what was kept *)
| act_kept J a member args k key asked' it :
    todo a = Asks member args k -> key_of (asked a) member args = (key, asked') ->
    steps a !! key = Some it ->
    act J a J (next a (k (Ok (decode it))) asked') Given
(** [step]: what is being written is waited for, the step is made, kept, and given as it is kept *)
| act_made J a member args k key asked' now answer it J' stored :
    todo a = Asks member args k -> key_of (asked a) member args = (key, asked') ->
    steps a !! key = None -> writing a = [] -> broken a = false ->
    encode answer = Ok it -> record key it (expiry now a) J = (J', stored) ->
    act J a J' (next (keep key stored now a) (k (Ok (decode stored))) asked') (Made key)
(** [step], where a write failed, the step was refused or threw, or could not be kept *)
| act_failed J a member args k key asked' e now reaped :
    todo a = Asks member args k -> key_of (asked a) member args = (key, asked') ->
    steps a !! key = None -> reaped = expires a \/ reaped = Some (expiry now a) ->
    act J a J (mkAttempt (k (Throw e)) (steps a) reaped asked' (writing a) (broken a)) Lost
(** [value], of what was kept *)
| act_value J a member k key asked' it :
    todo a = Takes member k -> key_of (asked a) member [] = (key, asked') ->
    steps a !! key = Some it ->
    act J a J (next a (k (decode it)) asked') Given
(** [value]: taken, given, and written without waiting *)
| act_took J a member k key asked' now v :
    todo a = Takes member k -> key_of (asked a) member [] = (key, asked') ->
    steps a !! key = None ->
    act J a J
      (let a' := next (keep key (KValue v) now a) (k (Plain v)) asked' in
       mkAttempt (todo a') (steps a') (expires a') (asked a') (writing a' ++ [(key, KValue v)]) (broken a'))
      (Took key)
(** a write lands *)
| act_wrote J a before key it after J' stored now :
    writing a = before ++ (key, it) :: after ->
    record key it (expiry now a) J = (J', stored) ->
    act J a J' (mkAttempt (todo a) (steps a) (expires a) (asked a) (before ++ after) (broken a)) Wrote
(** or fails *)
| act_broke J a before key it after :
    writing a = before ++ (key, it) :: after ->
    act J a J (mkAttempt (todo a) (steps a) (expires a) (asked a) (before ++ after) true) Lost.

(** An attempt nobody else's attempt runs beside, and nothing of which failed. *)
Inductive alone : gmap string entry -> attempt -> gmap string entry -> attempt -> Prop :=
| alone_refl J a : alone J a J a
| alone_act J a J' a' J'' a'' what :
    alone J a J' a' -> act J' a' J'' a'' what -> what <> Lost -> alone J a J'' a''.

(** An attempt among others, which may keep what they will in the journal between its steps. *)
Inductive among : gmap string entry -> attempt -> gmap string entry -> attempt -> list happened -> Prop :=
| among_refl J a : among J a J a []
| among_others J a J' a' J'' log :
    among J a J' a' log -> J' ⊆ J'' -> among J a J'' a' log
| among_act J a J' a' J'' a'' what log :
    among J a J' a' log -> act J' a' J'' a'' what -> among J a J'' a'' (log ++ [what]).

(** what an operation asks of what is kept, and is given *)
Inductive move (kept : gmap string kept) : relation (gmap string nat * op) :=
| move_step asked member args k key asked' it :
    key_of asked member args = (key, asked') -> kept !! key = Some it ->
    move kept (asked, Asks member args k) (asked', k (Ok (decode it)))
| move_value asked member k key asked' it :
    key_of asked member [] = (key, asked') -> kept !! key = Some it ->
    move kept (asked, Takes member k) (asked', k (decode it)).

(** ** Lemmas *)

Lemma encode_decode answer it : encode answer = Ok it -> decode it = answer.
Proof. by destruct answer; intros [= <-]. Qed.

Lemma record_spec key it e J J' stored :
  record key it e J = (J', stored) ->
  J ⊆ J' /\ (exists x, J' !! key = Some x /\ kept_ x = stored) /\
  (forall k x, J' !! k = Some x -> J !! k = Some x \/ k = key /\ J !! key = None /\ kept_ x = it /\ stored = it).
Proof.
  unfold record. destruct (J !! key) as [x|] eqn:Hx; intros [= <- <-].
  - split; [done|]. split; [by exists x | by left].
  - split; [by apply insert_subseteq|]. split; [exists (mkEntry it e); by rewrite lookup_insert_eq|].
    intros k y. rewrite lookup_insert_Some. intros [[<- <-]|[_ ?]]; [by right | by left].
Qed.

Lemma recalled_spec fuel page omit rows steps expires :
  (0 < page)%nat -> (length rows < fuel + omit)%nat ->
  (recalled fuel page omit rows steps expires).1 =
  foldl (fun (steps : gmap string kept) '(id, e) => <[id := kept_ e]> steps) steps (drop omit rows).
Proof.
  intros Hp. revert omit steps expires. induction fuel as [|fuel IH]; intros omit steps expires Hf; cbn [recalled].
  - by rewrite drop_ge by lia.
  - assert (forall (rows : list (string * entry)) (s : gmap string kept) (x : option Z), exists x',
      foldl (fun '(steps, _) '(id, e) => (<[id := kept_ e]> steps, Some (reaped_at e))) (s, x) rows =
      (foldl (fun steps '(id, e) => <[id := kept_ e]> steps) s rows, x')) as Hfold.
    { clear. induction rows as [|[id e] rows IH]; intros s x; cbn [foldl]; [by exists x | apply IH]. }
    destruct (Hfold (take page (drop omit rows)) steps expires) as [x' ->].
    destruct (Nat.ltb_spec (length (take page (drop omit rows))) page) as [Hl|Hl]; cbn [fst].
    + rewrite length_take in Hl. rewrite take_ge by lia. done.
    + rewrite IH by (rewrite length_take, length_drop in Hl; lia).
      rewrite <- foldl_app. by rewrite <- drop_drop, take_drop.
Qed.

Lemma recall_kept J : (recall J).1 = kept_ <$> J.
Proof.
  unfold recall. rewrite recalled_spec by (unfold PAGE; lia). rewrite drop_0.
  set (rows := merge_sort named_before (map_to_list J)).
  assert (rows ≡ₚ map_to_list J) as Hp by apply merge_sort_Permutation.
  assert (NoDup rows.*1) as Hd by (rewrite Hp; apply NoDup_fst_map_to_list).
  apply map_eq. intros k. rewrite lookup_fmap.
  assert (forall (l : list (string * entry)) (s : gmap string kept), NoDup l.*1 ->
    foldl (fun steps '(id, e) => <[id := kept_ e]> steps) s l !! k =
    match (list_to_map l : gmap string entry) !! k with Some e => Some (kept_ e) | None => s !! k end) as Hl.
  { induction l as [|[i e] l IH]; intros s Hn.
    { change (list_to_map [] : gmap string entry) with (∅ : gmap string entry). by rewrite lookup_empty. }
    rewrite fmap_cons in Hn. apply NoDup_cons in Hn as [Hi Hn]. cbn [foldl]. rewrite IH by done.
    rewrite list_to_map_cons. destruct (decide (i = k)) as [->|Hik].
    - rewrite lookup_insert_eq. rewrite (not_elem_of_list_to_map_1 l k Hi). by rewrite lookup_insert_eq.
    - by rewrite !lookup_insert_ne by done. }
  rewrite Hl by done. rewrite lookup_empty.
  rewrite (list_to_map_proper rows (map_to_list J)) by done. rewrite list_to_map_to_list.
  by destruct (J !! k).
Qed.

(** *** What an attempt holds is what is kept *)

Lemma begin_steps J o : steps (begin J o) = kept_ <$> J.
Proof. unfold begin. rewrite <- recall_kept. by destruct (recall J). Qed.

Lemma begin_fields J o :
  todo (begin J o) = o /\ asked (begin J o) = ∅ /\ writing (begin J o) = [] /\ broken (begin J o) = false.
Proof. unfold begin. by destruct (recall J). Qed.

Lemma move_mono kept kept' s t : kept ⊆ kept' -> move kept s t -> move kept' s t.
Proof. intros Hk Hm. destruct Hm; econstructor; eauto using lookup_weaken. Qed.

Lemma moves_mono kept kept' s t : kept ⊆ kept' -> rtc (move kept) s t -> rtc (move kept') s t.
Proof. intros Hk. induction 1; econstructor; eauto using move_mono. Qed.

Lemma move_fun kept s t t' : move kept s t -> move kept s t' -> t = t'.
Proof. intros Hm Hm'. inversion Hm; subst; inversion Hm'; subst; simplify_eq; congruence. Qed.

(** [o] is the operation the attempt is of *)
Record holds (o : op) (J : gmap string entry) (a : attempt) : Prop := {
  journal_held : forall k e, J !! k = Some e -> steps a !! k = Some (kept_ e);
  held_kept : forall k it, steps a !! k = Some it -> (exists e, J !! k = Some e /\ kept_ e = it) \/ (k, it) ∈ writing a;
  writing_held : forall k it, (k, it) ∈ writing a -> steps a !! k = Some it;
  followed : rtc (move (steps a)) (∅, o) (asked a, todo a);
}.

Lemma holds_begin o J : holds o J (begin J o).
Proof.
  destruct (begin_fields J o) as (Ht & Ha & Hw & _).
  split; rewrite ?begin_steps, ?Hw, ?Ha, ?Ht; [| | by intros ? ? ?%elem_of_nil | done].
  - intros k e He. by rewrite lookup_fmap, He.
  - intros k it. rewrite lookup_fmap, fmap_Some. intros (e & He & ->). left. by exists e.
Qed.

Lemma holds_act o J a J' a' what :
  holds o J a -> act J a J' a' what -> what <> Lost -> holds o J' a'.
Proof.
  intros [Hj Hh Hw Hf] Hact Hl.
  destruct Hact as [J a member args k key asked' it Ht Hk Hs
    |J a member args k key asked' now answer it J' stored Ht Hk Hs Hwr Hb He Hr
    | |J a member k key asked' it Ht Hk Hs|J a member k key asked' now v Ht Hk Hs
    |J a before key it after J' stored now Hwr Hr|]; try done.
  - split; cbn; try done. rewrite Ht in Hf. eapply rtc_r; [exact Hf|]. by econstructor.
  - apply record_spec in Hr as (Hsub & (x & Hx & Hst) & Hnew). rewrite Hwr in *.
    assert (steps a ⊆ <[key := stored]> (steps a)) as Hins by by apply insert_subseteq.
    split; cbn [next keep steps writing asked todo]; rewrite ?Hwr.
    + intros k' e He'. destruct (decide (k' = key)) as [->|Hne].
      * rewrite lookup_insert_eq. congruence.
      * rewrite lookup_insert_ne by done. destruct (Hnew k' e He') as [?|[? _]]; [by apply Hj | done].
    + intros k' it'. rewrite lookup_insert_Some. intros [[<- <-]|[Hne Hst']].
      * left. by exists x.
      * destruct (Hh k' it' Hst') as [(e & He' & ?)|?]; [|by right]. left. exists e.
        split; [by eapply lookup_weaken | done].
    + by intros ? ? ?%elem_of_nil.
    + rewrite Ht in Hf. eapply rtc_r; [by apply (moves_mono (steps a)); [exact Hins|exact Hf]|].
      econstructor; [done|]. by rewrite lookup_insert_eq.
  - split; cbn; try done. rewrite Ht in Hf. eapply rtc_r; [exact Hf|]. by econstructor.
  - assert (steps a ⊆ <[key := KValue v]> (steps a)) as Hins by by apply insert_subseteq.
    split; cbn [next keep steps writing asked todo].
    + intros k' e He'. rewrite lookup_insert_ne; [by apply Hj|]. intros <-. apply Hj in He'. congruence.
    + intros k' it'. rewrite lookup_insert_Some, elem_of_app, list_elem_of_singleton.
      intros [[<- <-]|[Hne Hst']]; [by right; right|]. destruct (Hh k' it' Hst'); [by left | by right; left].
    + intros k' it'. rewrite elem_of_app, list_elem_of_singleton. intros [Hin|[= -> ->]]; [|by rewrite lookup_insert_eq].
      rewrite lookup_insert_ne; [by apply Hw|]. intros <-. apply Hw in Hin. congruence.
    + rewrite Ht in Hf. eapply rtc_r; [by apply (moves_mono (steps a)); [exact Hins|exact Hf]|].
      change (Plain v) with (decode (KValue v)). econstructor; [done|]. by rewrite lookup_insert_eq.
  - apply record_spec in Hr as (Hsub & (x & Hx & Hst) & Hnew).
    assert (steps a !! key = Some it) as Hkey by (apply Hw; rewrite Hwr; set_solver).
    assert (stored = it) as ->.
    { destruct (Hnew key x Hx) as [Hold|(_ & _ & _ & ?)]; [|done]. apply Hj in Hold. congruence. }
    split; cbn; [| | | done].
    + intros k' e He'. destruct (Hnew k' e He') as [?|(-> & _ & <- & _)]; [by apply Hj | done].
    + intros k' it' Hst'. destruct (Hh k' it' Hst') as [(e & He' & ?)|Hin].
      * left. exists e. split; [by eapply lookup_weaken | done].
      * rewrite Hwr in Hin. apply elem_of_app in Hin as [?|[[= -> ->]|?]%elem_of_cons];
          [right; set_solver | left; by exists x | right; set_solver].
    + intros k' it' Hin. apply Hw. rewrite Hwr. apply elem_of_app in Hin as [?|?]; set_solver.
Qed.

Lemma alone_holds o J J' a : alone J (begin J o) J' a -> holds o J' a.
Proof.
  remember (begin J o) as b eqn:Hb. induction 1 as [J b|J b J' a' J'' a'' what Ha IH Hact Hl].
  - subst. apply holds_begin.
  - eapply holds_act; [by apply IH | done | done].
Qed.

(** *** Replaying *)

Lemma moves_from kept s t : rtc (move kept) s t -> s = t \/ exists u, move kept s u /\ rtc (move kept) u t.
Proof. intros Hr. inversion Hr; subst; [by left | right; eauto]. Qed.

(** what is asked has one key *)
Ltac same_key :=
  match goal with
  | H : key_of ?n ?m ?g = _, H' : key_of ?n ?m ?g = _ |- _ => rewrite H in H'; injection H' as ? ?; subst
  end.

(** an attempt every answer of which is kept, on its way to [r] *)
Definition replays (S : gmap string kept) (r : result thrown answer) (a : attempt) : Prop :=
  S ⊆ steps a /\ writing a = [] /\ exists n, rtc (move S) (asked a, todo a) (n, Finished r).

Lemma replays_next S r a o asked' u :
  replays S r a -> move S (asked a, todo a) u -> u = (asked', o) -> replays S r (next a o asked').
Proof.
  intros (Hs & Hw & n & Hf) Hm ->. split_and!; [done..|]. exists n. cbn.
  destruct (moves_from _ _ _ Hf) as [Heq|(u & Hu & Hf')].
  - rewrite Heq in Hm. inversion Hm.
  - by rewrite (move_fun _ _ _ _ Hm Hu).
Qed.

Lemma replays_act S r J a J' a' what :
  replays S r a -> act J a J' a' what -> what = Given /\ replays S r a'.
Proof.
  intros Hrep Hact. pose proof Hrep as (Hs & Hw & n & Hf).
  assert (forall member args k key asked', todo a = Asks member args k ->
    key_of (asked a) member args = (key, asked') -> exists it, S !! key = Some it /\ steps a !! key = Some it /\
      move S (asked a, todo a) (asked', k (Ok (decode it)))) as Hasks.
  { intros member args k key asked' Ht Hk. rewrite Ht in Hf |- *. destruct (moves_from _ _ _ Hf) as [?|(u & Hu & _)]; [congruence|].
    inversion Hu; subst. same_key. exists it. split_and!; [done | by eapply lookup_weaken | done]. }
  assert (forall member k key asked', todo a = Takes member k ->
    key_of (asked a) member [] = (key, asked') -> exists it, S !! key = Some it /\ steps a !! key = Some it /\
      move S (asked a, todo a) (asked', k (decode it))) as Htakes.
  { intros member k key asked' Ht Hk. rewrite Ht in Hf |- *. destruct (moves_from _ _ _ Hf) as [?|(u & Hu & _)]; [congruence|].
    inversion Hu; subst. same_key. exists it. split_and!; [done | by eapply lookup_weaken | done]. }
  destruct Hact as [J a member args k key asked' it Ht Hk Hst
    |J a member args k key asked' now answer it J' stored Ht Hk Hst
    |J a member args k key asked' e now reaped Ht Hk Hst|J a member k key asked' it Ht Hk Hst
    |J a member k key asked' now v Ht Hk Hst
    |J a before key it after J' stored now Hwr Hr|J a before key it after Hwr].
  - split; [done|]. destruct (Hasks _ _ _ _ _ Ht Hk) as (it' & _ & Hit & Hm). simplify_eq.
    by eapply replays_next.
  - destruct (Hasks _ _ _ _ _ Ht Hk) as (it' & _ & Hit & _). congruence.
  - destruct (Hasks _ _ _ _ _ Ht Hk) as (it' & _ & Hit & _). congruence.
  - split; [done|]. destruct (Htakes _ _ _ _ Ht Hk) as (it' & _ & Hit & Hm). simplify_eq.
    by eapply replays_next.
  - destruct (Htakes _ _ _ _ Ht Hk) as (it' & _ & Hit & _). congruence.
  - rewrite Hw in Hwr. by destruct before.
  - rewrite Hw in Hwr. by destruct before.
Qed.

Lemma replays_among S r J a J' a' log :
  replays S r a -> among J a J' a' log -> Forall (eq Given) log /\ replays S r a'.
Proof.
  intros Hr. induction 1 as [| |J a J' a' J'' a'' what log Ha IH Hact]; [done | auto |].
  destruct (IH Hr) as [Hl Hr']. destruct (replays_act _ _ _ _ _ _ _ Hr' Hact) as [-> ?].
  split; [|done]. apply Forall_app. by split; [|constructor].
Qed.

Lemma replays_to S r J a0 a log :
  among J a0 J a log -> replays S r a -> exists a' log', among J a0 J a' log' /\ todo a' = Finished r.
Proof.
  intros Ham (Hs & Hw & n & Hf).
  remember (asked a, todo a) as s eqn:Hsa. remember (n, Finished r) as t eqn:Ht.
  revert a log Ham Hs Hw Hsa. induction Hf as [s|s u t Hm Hf IH]; intros a log Ham Hs Hw Hsa.
  - exists a, log. split; [done|]. congruence.
  - destruct Hm as [asked' member args k key asked'' it Hk Hit|asked' member k key asked'' it Hk Hit];
      injection Hsa as -> Htodo.
    + eapply (IH Ht (next a (k (Ok (decode it))) asked'')); [eapply among_act; [exact Ham|] | done | done | done].
      eapply act_kept; [by symmetry | done | by eapply lookup_weaken].
    + eapply (IH Ht (next a (k (decode it)) asked'')); [eapply among_act; [exact Ham|] | done | done | done].
      eapply act_value; [by symmetry | done | by eapply lookup_weaken].
Qed.

(** *** Copies *)

(** What an attempt holds is in the journal, but for what it took itself. *)
Definition sound (J : gmap string entry) (log : list happened) (a : attempt) : Prop :=
  (forall k it, steps a !! k = Some it -> (exists e, J !! k = Some e /\ kept_ e = it) \/ Took k ∈ log).

Lemma sound_among J0 o J a log : among J0 (begin J0 o) J a log -> sound J log a.
Proof.
  remember (begin J0 o) as b eqn:Hb. induction 1 as [J b|J b J' a' J'' log Ha IH Hsub|J b J' a' J'' a'' what log Ha IH Hact]; subst.
  - intros k it Hk. left. rewrite begin_steps, lookup_fmap, fmap_Some in Hk. destruct Hk as (e & ? & ->). by exists e.
  - intros k it Hk. destruct (IH eq_refl k it Hk) as [(e & He & ?)|?]; [|by right]. left. exists e.
    split; [by eapply lookup_weaken | done].
  - specialize (IH eq_refl).
    assert (forall k, Took k ∈ log -> Took k ∈ log ++ [what]) as Happ by (intros; set_solver).
    destruct Hact as [| ? a ? ? ? key ? ? ? ? J' stored ? ? ? ? ? ? Hr | | | |? a ? ? ? ? J' ? ? ? Hr| ];
      try (intros k' it' Hk'; cbn in Hk'; destruct (IH k' it' Hk'); auto; fail).
    + apply record_spec in Hr as (Hsub & (x & Hx & Hst) & _). intros k' it'. cbn.
      rewrite lookup_insert_Some. intros [[<- <-]|[_ Hk']]; [left; by exists x|].
      destruct (IH k' it' Hk') as [(e & ? & ?)|?]; [left; exists e; split; [by eapply lookup_weaken | done] | auto].
    + intros k' it'. cbn. rewrite lookup_insert_Some. intros [[<- <-]|[_ Hk']]; [right; set_solver|].
      destruct (IH k' it' Hk'); auto.
    + apply record_spec in Hr as (Hsub & _ & _). intros k' it' Hk'. cbn in Hk'.
      destruct (IH k' it' Hk') as [(e & ? & ?)|?]; [left; exists e; split; [by eapply lookup_weaken | done] | auto].
Qed.
End run.

(** ** The digest of what is asked *)

(** the order the properties of an object were written in is no part of what is asked *)
Lemma written_in_any_order fields fields' :
  NoDup fields.*1 -> fields ≡ₚ fields' -> write (Fields fields) = write (Fields fields').
Proof.
  intros Hd Hp. cbn [write]. do 2 f_equal. f_equal.
  set (f := fun '(key, item) => (key, if undefined item then [] else utf8 (json_string key +:+ "=") ++ write item)).
  apply sorted_by_names.
  - change (NoDup (f <$> fields).*1). rewrite <- list_fmap_compose.
    erewrite list_fmap_ext; [exact Hd|]. by intros i [x a] _.
  - change (f <$> fields ≡ₚ f <$> fields'). by rewrite Hp.
Qed.

Lemma utf8_app s t : utf8 (s +:+ t) = utf8 s ++ utf8 t.
Proof. unfold utf8. by rewrite chars_app, bind_app. Qed.

(** ** Properties *)

Section properties.
Context (sha1 : list Z -> list Z) (run : string) (window : Z).

(** A run that was finished is finished the same way for good. Where an attempt came to its end with
    nothing failed and nothing beside it, and what it took is written, every later attempt, with
    whatever else beside it, makes no step and takes no value, is given what the first was given,
    can end only with what it ended with, and has a way to that end. *)
Theorem finished_for_good o J J' a r J'' :
  alone sha1 run window J (begin J o) J' a -> todo a = Finished r -> writing a = [] -> J' ⊆ J'' ->
  (forall J3 a' log, among sha1 run window J'' (begin J'' o) J3 a' log ->
    Forall (eq Given) log /\ forall r', todo a' = Finished r' -> r' = r) /\
  exists a' log, among sha1 run window J'' (begin J'' o) J'' a' log /\ todo a' = Finished r.
Proof.
  intros Ha Ht Hw Hsub. apply alone_holds in Ha. destruct Ha as [_ Hh _ Hf]. rewrite Ht in Hf.
  destruct (begin_fields J'' o) as (Hbt & Hba & Hbw & _).
  assert (replays sha1 run (steps a) r (begin J'' o)) as Hr.
  { split; [|split; [done|]].
    - rewrite begin_steps. apply map_subseteq_spec. intros k it Hk. rewrite lookup_fmap, fmap_Some.
      destruct (Hh k it Hk) as [(e & He & <-)|Hin]; [|rewrite Hw in Hin; by apply elem_of_nil in Hin].
      exists e. split; [by eapply lookup_weaken | done].
    - exists (asked a). by rewrite Hba, Hbt. }
  split.
  - intros J3 a' log Ham. destruct (replays_among _ _ _ _ _ _ _ _ _ _ Hr Ham) as [Hl (_ & _ & n & Hf')].
    split; [done|]. intros r' Hr'. rewrite Hr' in Hf'.
    destruct (moves_from _ _ _ _ _ Hf') as [Heq|(u & Hu & _)]; [congruence | inversion Hu].
  - apply (replays_to sha1 run window (steps a) r J'' (begin J'' o) (begin J'' o) []); [constructor | done].
Qed.

(** Copies of a run that run at once agree on every step: what one of them is given for a step is
    what any other is given for it, then or later, whichever kept it first; a value taken without
    waiting excepted, which is each copy's own until it is written. *)
Theorem copies_agree o o' J1 J1' a1 log1 J2 J2' a2 log2 k x y :
  among sha1 run window J1 (begin J1 o) J1' a1 log1 ->
  among sha1 run window J2 (begin J2 o') J2' a2 log2 -> J1' ⊆ J2' ->
  Took k ∉ log1 -> Took k ∉ log2 ->
  steps a1 !! k = Some x -> steps a2 !! k = Some y -> x = y.
Proof.
  intros H1 H2 Hsub Ht1 Ht2 Hx Hy.
  destruct (sound_among _ _ _ _ _ _ _ _ H1 k x Hx) as [(e & He & <-)|?]; [|done].
  destruct (sound_among _ _ _ _ _ _ _ _ H2 k y Hy) as [(e' & He' & <-)|?]; [|done].
  apply (lookup_weaken _ _ _ _ He) in Hsub. congruence.
Qed.

(** What is asked is not always told from what else is: nothing bounds a text where it is fed to the
    digest, so that one string is digested as two, and a step is given what was kept of another. *)
Theorem asks_collide J a member s t k key asked' it :
  todo a = Asks member [Primitive "string" (s +:+ ";string:" +:+ t)] k ->
  key_of sha1 run (asked a) member [Primitive "string" s; Primitive "string" t] = (key, asked') ->
  steps a !! key = Some it ->
  act sha1 run window J a J (next a (k (Ok (decode it))) asked') Given.
Proof.
  intros Ht Hk Hs. eapply act_kept; [exact Ht | | exact Hs]. rewrite <- Hk. unfold key_of, fingerprint.
  assert (write (Items [Primitive "string" (s +:+ ";string:" +:+ t)]) =
    write (Items [Primitive "string" s; Primitive "string" t])) as ->; [|done].
  cbn [write flat_map]. rewrite !utf8_app, !app_nil_r, <- !app_assoc.
  change (utf8 ";string:") with (utf8 ";" ++ utf8 "string" ++ utf8 ":"). by rewrite <- !app_assoc.
Qed.
End properties.

(** ** An operation that pays and says when *)

Module Payment.
Definition hash (bytes : list Z) : list Z := reverse bytes.

Definition paid (r : result thrown answer) : op :=
  Takes "now" (fun at_ => Finished (match r with Ok _ => Ok at_ | Throw e => Throw e end)).

Definition pay : op := Asks "call:bank.accounts.debit" [Primitive "number" "5"] paid.

Definition start : attempt := begin ∅ pay.
Definition debit : string := (key_of hash "task" ∅ "call:bank.accounts.debit" [Primitive "number" "5"]).1.
Definition asked1 : gmap string nat := (key_of hash "task" ∅ "call:bank.accounts.debit" [Primitive "number" "5"]).2.
Definition J1 : gmap string entry := (record debit (KValue (VBool true)) 60000 ∅).1.
Definition a1 : attempt := next (keep 60 debit (KValue (VBool true)) 0 start) (paid (Ok (Plain (VBool true)))) asked1.
Definition clock : string := (key_of hash "task" asked1 "now" []).1.
Definition asked2 : gmap string nat := (key_of hash "task" asked1 "now" []).2.
Definition a2 : attempt :=
  let a := next (keep 60 clock (KValue (VNumber 7)) 7 a1) (Finished (Ok (Plain (VNumber 7)))) asked2 in
  mkAttempt (todo a) (steps a) (expires a) (asked a) [(clock, KValue (VNumber 7))] (broken a).
Definition J2 : gmap string entry := (record clock (KValue (VNumber 7)) 60000 J1).1.
Definition a3 : attempt := mkAttempt (todo a2) (steps a2) (expires a2) (asked a2) [] (broken a2).

Lemma start_steps : steps start = ∅.
Proof. unfold start. by rewrite begin_steps, fmap_empty. Qed.

Lemma clock_is_new : steps a1 !! clock = None.
Proof.
  change (steps a1) with (<[debit := KValue (VBool true)]> (steps start)). rewrite start_steps.
  rewrite lookup_insert_ne; [apply lookup_empty|]. apply (bool_decide_unpack _). vm_compute. exact I.
Qed.

Lemma made : act hash "task" 60 ∅ start J1 a1 (Made debit).
Proof.
  eapply act_made with (answer := Plain (VBool true)); reflexivity.
Qed.

Lemma took : act hash "task" 60 J1 a1 J1 a2 (Took clock).
Proof.
  eapply (act_took hash "task" 60 J1 a1 "now" (fun at_ => Finished (Ok at_)) clock asked2 7 (VNumber 7));
    [reflexivity | apply surjective_pairing | exact clock_is_new].
Qed.

Lemma wrote : act hash "task" 60 J1 a2 J2 a3 Wrote.
Proof.
  apply (act_wrote hash "task" 60 J1 a2 [] clock (KValue (VNumber 7)) [] J2 (KValue (VNumber 7)) 7); [reflexivity|].
  unfold J2, record. assert (J1 !! clock = None) as ->; [|reflexivity].
  unfold J1, record. rewrite lookup_empty. cbn [fst]. rewrite lookup_insert_ne; [apply lookup_empty|].
  apply (bool_decide_unpack _). vm_compute. exact I.
Qed.

Lemma ran : alone hash "task" 60 ∅ start J2 a3.
Proof.
  eapply alone_act; [|exact wrote | done]. eapply alone_act; [|exact took | done].
  eapply alone_act; [constructor | exact made | done].
Qed.

Lemma finished_for_good_witness :
  exists a' log, among hash "task" 60 J2 (begin J2 pay) J2 a' log /\ todo a' = Finished (Ok (Plain (VNumber 7))).
Proof.
  apply (finished_for_good hash "task" 60 pay ∅ J2 a3 (Ok (Plain (VNumber 7))) J2);
    [exact ran | reflexivity | reflexivity | done].
Defined.

Lemma copies_agree_witness : KValue (VBool true) = KValue (VBool true).
Proof.
  assert (among hash "task" 60 ∅ (begin ∅ pay) J1 a1 [Made debit]) as Ha.
  { apply (among_act hash "task" 60 ∅ start ∅ start J1 a1 (Made debit) []); [constructor|].
    exact made. }
  apply (copies_agree hash "task" 60 pay pay ∅ J1 a1 [Made debit] ∅ J1 a1 [Made debit] debit); try done.
  - by intros ?%list_elem_of_singleton.
  - by intros ?%list_elem_of_singleton.
Defined.

Definition mail (s : list arg) : op := Asks "call:default.mailer.send" s Finished.
Definition two : string := (key_of hash "task" ∅ "call:default.mailer.send" [Primitive "string" "a"; Primitive "string" "b"]).1.
Definition sent : attempt := begin (<[two := mkEntry (KValue (VBool true)) 60000]> ∅) (mail [Primitive "string" "a;string:b"]).

Lemma asks_collide_witness : exists a, act hash "task" 60 ∅ sent ∅ a Given /\ todo a = Finished (Ok (Plain (VBool true))).
Proof.
  exists (next sent (Finished (Ok (Plain (VBool true))))
    (key_of hash "task" ∅ "call:default.mailer.send" [Primitive "string" "a"; Primitive "string" "b"]).2).
  split; [|reflexivity]. apply (asks_collide hash "task" 60 ∅ sent "call:default.mailer.send" "a" "b" Finished two
    (key_of hash "task" ∅ "call:default.mailer.send" [Primitive "string" "a"; Primitive "string" "b"]).2 (KValue (VBool true)));
    [reflexivity | apply surjective_pairing |].
  unfold sent. rewrite begin_steps, lookup_fmap, lookup_insert_eq. reflexivity.
Defined.
End Payment.
