(* ===== verification/Gateway.v ===== *)
(** * Gateway

    [extensions/exposition/source/Branch.ts] and what [Gateway.ts] does of an announcement: a tenant
    announces the routes of its component over and over, and a gateway merges them, extends them, or
    turns them down where a tenant that started later is still served. *)
From S2P Require Import Prelude Routing Directives Branches.

Open Scope Z_scope.

Section gateway.
Context {Mapping Endpoint D S P O I E : Type}.
Context (error : string -> E) (endpoint : Mapping -> string -> result E Endpoint).
Context (F : factory D S P O I E).

Notation built := (built (Endpoint := Endpoint) (D := D) (S := S) (P := P) (O := O) (I := I) (E := E)).
Notation stated_node := (stated_node (Mapping := Mapping)).

Record Branch := mkBranch {
  namespace : string;
  component : string;
  node_ : stated_node;
  version : string;
  routes_ : string;
  timestamp : Z;
}.

(** a branch that was merged: the nodes are those it has landed on *)
Record Exposed := mkExposed {
  exposed_version : string;
  exposed_routes : string;
  exposed_timestamp : Z;
  landed : list nat;
}.

(** The tree, and the trees and the branches there were before: a node that was cut out of the tree is
    still held by those who extend it. *)
Record gateway := mkGateway {
  trunk : node built;
  past : list (node built);
  next_id : nat;
  root_directives : list declaration;
  branches : gmap string Exposed;
  lastMerge : Z;
  widestGap : Z;
}.

(** a node and all under it *)
Fixpoint subs (n : node built) : list (node built) :=
  match n with
  | Node _ _ _ _ _ _ rs => n :: flat_map (fun '(Route _ n) => subs n) rs
  end.

Definition find_node (i : nat) (n : node built) : option (node built) :=
  List.find (fun m => bool_decide (id m = i)) (subs n).

(** [node.expiration] of a node that is held: as it is in the tree, or was last *)
Definition expiration_of (g : gateway) (i : nat) : option Z :=
  foldr (fun n found => match find_node i n with Some m => expiration m | None => found end)
    None (trunk g :: past g).

Inductive decision := Merge | Refresh | Superseded.

Definition gone (now : Z) (g : gateway) (x : Exposed) : bool :=
  (0 <? length (landed x))%nat &&
  forallb (fun i => match expiration_of g i with Some e => e <=? now | None => false end) (landed x).

Definition decide_ (now : Z) (g : gateway) (x : Exposed) (b : Branch) : decision :=
  if bool_decide (exposed_version x = version b /\ exposed_routes x = routes_ b) then Refresh
  else if (timestamp b <? exposed_timestamp x) && negb (gone now g x) then Superseded
  else Merge.

Definition label (b : Branch) : string := namespace b +:+ "." +:+ component b.

(** [tree.refresh(nodes)] *)
Definition refresh_ (now : Z) (which : list nat) (g : gateway) : gateway :=
  mkGateway (refresh now which (trunk g)) (refresh now which <$> past g) (next_id g)
    (root_directives g) (branches g) (lastMerge g) (widestGap g).

(** [tree.merge(branch.node, branch)], and what the gateway keeps of it; where the branch cannot be
    built it is as it was *)
Definition merge_ (now : Z) (b : Branch) (g : gateway) : gateway :=
  match createNode error endpoint F now false (node_ b) (root_directives g) (label b) (next_id g) with
  | Throw _ => g
  | Ok (branch, next) =>
      let '(trunk', nodes) := node_merge (trunk g) branch in
      mkGateway trunk' (trunk g :: branch :: past g) next (root_directives g)
        (<[label b := mkExposed (version b) (routes_ b) (timestamp b) nodes]> (branches g))
        now
        (if lastMerge g =? 0 then widestGap g else Z.max (widestGap g) (now - lastMerge g))
  end.

Definition expose (now : Z) (b : Branch) (g : gateway) : gateway :=
  match branches g !! label b with
  | None => merge_ now b g
  | Some x =>
      match decide_ now g x b with
      | Refresh => refresh_ now (landed x) g
      | Superseded => g
      | Merge => merge_ now b g
      end
  end.

Definition SETTLE_QUIET_MIN : Z := 500.
Definition SETTLE_QUIET_MAX : Z := 10000.
Definition SETTLE_QUIET_FACTOR : Z := 2.

Definition quiet (g : gateway) : Z :=
  Z.min (Z.max (widestGap g * SETTLE_QUIET_FACTOR) SETTLE_QUIET_MIN) SETTLE_QUIET_MAX.

(** a gateway as it starts, with the tree the annotation states: what is merged into it inherits the
    directives of its root *)
Definition start (now : Z) (root : stated_node) : result E gateway :=
  '(trunk, next) ← createNode error endpoint F now true root [] "" 0;
  let 'SNode _ _ _ _ _ directives := root in
  Ok (mkGateway trunk [] next directives ∅ 0 0).

(** announcements, as they come *)
Definition announced (evs : list (Z * Branch)) (g : gateway) : gateway :=
  foldl (fun g '(now, b) => expose now b g) g evs.

(** ** Lemmas *)

Implicit Types (n m : node built) (rs cs : list (route built)).

Definition under (rs : list (route built)) : list (node built) := flat_map (fun '(Route _ n) => subs n) rs.

Lemma subs_eq n : subs n = n :: under (routes n).
Proof. by destruct n. Qed.

Lemma nodes_subs n : nodes n = id <$> subs n.
Proof.
  induction n as [i inter f e ms p rs IH] using node_ind_nested. cbn [nodes subs]. rewrite fmap_cons.
  cbn [id]. f_equal. induction IH as [|[segs c] rs Hc _ IHrs]; [done|]. cbn [flat_map].
  rewrite fmap_app, <- IHrs. f_equal. exact Hc.
Qed.

Lemma under_nodes rs : flat_map (fun '(Route _ n) => nodes n) rs = id <$> under rs.
Proof.
  induction rs as [|[segs c] rs IH]; [done|]. unfold under in *. cbn [flat_map].
  by rewrite fmap_app, <- IH, nodes_subs.
Qed.

Lemma elem_of_under m rs : m ∈ under rs <-> exists r, r ∈ rs /\ m ∈ subs (node_of r).
Proof.
  unfold under. rewrite list_elem_of_In, in_flat_map. split.
  - intros ([segs c] & Hr & Hm). exists (Route segs c). by rewrite <- !list_elem_of_In in *.
  - intros ([segs c] & Hr & Hm). exists (Route segs c). by rewrite <- !list_elem_of_In.
Qed.

Lemma under_perm rs rs' : rs ≡ₚ rs' -> under rs ≡ₚ under rs'.
Proof.
  induction 1 as [|[s c] rs rs' _ IH|[s c] [s' c'] rs|]; unfold under in *; cbn [flat_map].
  - done.
  - by rewrite IH.
  - rewrite !app_assoc. by rewrite (Permutation_app_comm (subs c')).
  - by etrans.
Qed.

Lemma find_node_Some i n m : find_node i n = Some m -> m ∈ subs n /\ id m = i.
Proof.
  intros Hf. apply List.find_some in Hf as [Hin Hi]. apply bool_decide_eq_true in Hi.
  by apply list_elem_of_In in Hin.
Qed.

Lemma find_node_None i n : find_node i n = None -> i ∉ nodes n.
Proof.
  intros Hf Hi. rewrite nodes_subs in Hi. apply list_elem_of_fmap in Hi as (m & -> & Hm).
  apply list_elem_of_In in Hm. pose proof (List.find_none _ _ Hf m Hm) as Hn.
  by apply bool_decide_eq_false in Hn.
Qed.

Lemma find_node_unique n m : NoDup (nodes n) -> m ∈ subs n -> find_node (id m) n = Some m.
Proof.
  intros Hd Hm. destruct (find_node (id m) n) as [m'|] eqn:Hf.
  - apply find_node_Some in Hf as [Hm' Hi]. f_equal. rewrite nodes_subs in Hd.
    apply list_elem_of_lookup in Hm as (x & Hx), Hm' as (y & Hy).
    assert (x = y) as ->; [|congruence].
    apply (NoDup_lookup (id <$> subs n) x y (id m)); [done | by rewrite list_lookup_fmap, Hx |].
    by rewrite list_lookup_fmap, Hy, <- Hi.
  - apply find_node_None in Hf. exfalso. apply Hf. rewrite nodes_subs. by apply list_elem_of_fmap_2.
Qed.

(** *** What merging makes of the nodes *)

Lemma sorted_subs n : subs (sorted n) ≡ₚ sorted n :: under (routes n).
Proof. rewrite subs_eq. cbn [sorted routes]. apply Permutation_skip, under_perm, sort_perm. Qed.

Definition from (second : list (node built)) (m : node built) : Prop :=
  exists m1, m1 ∈ second /\ expiration m = expiration m1.

(** the nodes of the first, with expirations of their own or of the second, and nodes of the second *)
Definition blend (first second result_ : list (node built)) : Prop :=
  forall m, m ∈ result_ ->
    (exists m0, m0 ∈ first /\ id m0 = id m /\ (expiration m = expiration m0 \/ from second m)) \/
    (id m ∈ id <$> second /\ from second m).

(** what a merge does not cut: a node, and under a protected one its nodes *)
Fixpoint spine (n : node built) : list (node built) :=
  match n with
  | Node _ _ _ _ _ p rs => n :: (if p then flat_map (fun '(Route _ n) => spine n) rs else [])
  end.

Definition spines (rs : list (route built)) : list (node built) := flat_map (fun '(Route _ n) => spine n) rs.

(** [first] and [second] merged: all the nodes and the spine before, and after *)
Record merges (first spine_ second result_ spine' : list (node built)) (got : list nat) : Prop := {
  blended : blend first second result_;
  no_more : (id <$> result_) ⊆+ (id <$> first) ++ (id <$> second);
  spared : forall m0, m0 ∈ spine_ -> exists m, m ∈ spine' /\ id m = id m0 /\ (expiration m = expiration m0 \/ from second m);
  landing : forall i, i ∈ got -> i ∈ id <$> second \/ exists m, m ∈ spine' /\ id m = i /\ from second m;
}.

Lemma from_mono c c' m : c ⊆ c' -> from c m -> from c' m.
Proof. intros Hc (m1 & H1 & He). exists m1. split; [by apply Hc | done]. Qed.

Lemma blend_mono a a' c c' l : a ⊆ a' -> c ⊆ c' -> blend a c l -> blend a' c' l.
Proof.
  intros Ha Hc Hb m Hm. assert ((id <$> c) ⊆ (id <$> c')) as Hid by (intros x; set_solver).
  destruct (Hb m Hm) as [(m0 & H0 & Hi & He)|[Hi Hf]].
  - left. exists m0. split; [by apply Ha|]. split; [done|]. destruct He; [by left | right; by apply (from_mono c)].
  - right. split; [by apply Hid | by apply (from_mono c)].
Qed.

Lemma blend_same a c l : l ⊆ a -> blend a c l.
Proof. intros Hl m Hm. left. exists m. split; [by apply Hl|]. split; [done | by left]. Qed.

Lemma blend_second a c l : l ⊆ c -> blend a c l.
Proof.
  intros Hl m Hm. right. split; [by apply list_elem_of_fmap_2, Hl|]. exists m. split; [by apply Hl | done].
Qed.

Lemma blend_app a c l k : blend a c l -> blend a c k -> blend a c (l ++ k).
Proof. intros Hl Hk m [?|?]%elem_of_app; [by apply Hl | by apply Hk]. Qed.

(** a merge beside nodes it does not touch *)
Lemma merges_beside a sa c l sl got u su :
  merges a sa c l sl got -> merges (a ++ u) (sa ++ su) c (l ++ u) (sl ++ su) got.
Proof.
  intros [Hb Hn Hs Hl]. split.
  - apply blend_app; [apply (blend_mono a _ c _); [set_solver | done | done] | apply blend_same; set_solver].
  - rewrite !fmap_app. etrans; [apply submseteq_skips_r, Hn|].
    rewrite <- !app_assoc. apply submseteq_skips_l, Permutation_submseteq, Permutation_app_comm.
  - intros m0 [H0|H0]%elem_of_app; [|exists m0; split; [set_solver | by split; [|left]]].
    destruct (Hs m0 H0) as (m & ? & ? & ?). exists m. split; [set_solver | done].
  - intros i Hi. destruct (Hl i Hi) as [?|(m & ? & ? & ?)]; [by left|]. right. exists m. split; [set_solver | done].
Qed.

Lemma merges_before a sa c l sl got u su :
  merges a sa c l sl got -> merges (u ++ a) (su ++ sa) c (u ++ l) (su ++ sl) got.
Proof.
  intros [Hb Hn Hs Hl]. split.
  - apply blend_app; [apply blend_same; set_solver | apply (blend_mono a _ c _); [set_solver | done | done]].
  - rewrite !fmap_app, <- app_assoc. by apply submseteq_skips_l.
  - intros m0 [H0|H0]%elem_of_app; [exists m0; split; [set_solver | by split; [|left]]|].
    destruct (Hs m0 H0) as (m & ? & ? & ?). exists m. split; [set_solver | done].
  - intros i Hi. destruct (Hl i Hi) as [?|(m & ? & ? & ?)]; [by left|]. right. exists m. split; [set_solver | done].
Qed.

(** one merge after another *)
Lemma merges_then a sa c l sl got c' l' sl' got' :
  merges a sa c l sl got -> merges l sl c' l' sl' got' -> merges a sa (c ++ c') l' sl' (got ++ got').
Proof.
  intros [Hb Hn Hs Hl] [Hb' Hn' Hs' Hl'].
  assert (forall m, from c m -> from (c ++ c') m) as Hf by (intros m; apply from_mono; set_solver).
  assert (forall m, from c' m -> from (c ++ c') m) as Hf' by (intros m; apply from_mono; set_solver).
  assert (forall m m0, expiration m = expiration m0 -> from c m0 -> from c m) as Heq
    by (intros m m0 He (m1 & ? & ?); exists m1; split; [done | congruence]).
  split.
  - intros m Hm. destruct (Hb' m Hm) as [(m0 & H0 & Hi & He)|[Hi Hfm]].
    + destruct (Hb m0 H0) as [(m1 & H1 & Hi1 & He1)|[Hi1 Hfm1]].
      * left. exists m1. split; [done|]. split; [congruence|]. destruct He as [He|?]; [|auto].
        destruct He1 as [He1|?]; [left; congruence | right; apply Hf; by apply (Heq m m0)].
      * right. rewrite fmap_app, <- Hi. split; [set_solver|]. destruct He as [He|?]; [|auto].
        apply Hf. by apply (Heq m m0).
    + right. rewrite fmap_app. split; [set_solver | auto].
  - rewrite fmap_app, app_assoc. etrans; [exact Hn'|]. by apply submseteq_skips_r.
  - intros m0 H0. destruct (Hs m0 H0) as (m1 & H1 & Hi1 & He1). destruct (Hs' m1 H1) as (m & Hm & Hi & He).
    exists m. split; [done|]. split; [congruence|]. destruct He as [He|?]; [|auto].
    destruct He1 as [He1|?]; [left; congruence | right; apply Hf; by apply (Heq m m1)].
  - rewrite fmap_app. intros i [Hi|Hi]%elem_of_app.
    + destruct (Hl i Hi) as [?|(m1 & H1 & Hi1 & Hf1)]; [left; set_solver|].
      destruct (Hs' m1 H1) as (m & Hm & Him & He). right. exists m. split; [done|]. split; [congruence|].
      destruct He as [He|?]; [apply Hf; by apply (Heq m m1) | auto].
    + destruct (Hl' i Hi) as [?|(m & ? & ? & ?)]; [left; set_solver|]. right. exists m. auto.
Qed.

Lemma spine_subs n : spine n ⊆ subs n.
Proof.
  induction n as [i inter f e ms p rs IH] using node_ind_nested. cbn [spine subs]. intros m [->|Hm]%elem_of_cons; [by left|].
  right. destruct p; [|by apply elem_of_nil in Hm]. induction IH as [|[segs c] rs Hc _ IHrs]; [done|].
  cbn [flat_map] in *. apply elem_of_app in Hm as [Hm|Hm]; apply elem_of_app; [left; by apply Hc | right; by apply IHrs].
Qed.

Lemma land_merges (f : node built -> node built * list nat) segs c rs :
  (forall n, merges (subs n) (spine n) (subs c) (subs (f n).1) (spine (f n).1) (f n).2) ->
  merges (under rs) (spines rs) (subs c) (under (land f segs c rs).1) (spines (land f segs c rs).1) (land f segs c rs).2.
Proof.
  intros Hf. induction rs as [|[s d] rs IH]; cbn [land].
  - cbn. rewrite !app_nil_r. split; [by apply blend_second | done | by intros ? ?%elem_of_nil |].
    intros i Hi. rewrite nodes_subs in Hi. by left.
  - destruct (equals segs s).
    + specialize (Hf d). destruct (f d) as [d' got]. exact (merges_beside _ _ _ _ _ _ (under rs) (spines rs) Hf).
    + destruct (land f segs c rs) as [rs' got]. exact (merges_before _ _ _ _ _ _ (subs d) (spine d) IH).
Qed.

Lemma append_merges (f : node built -> node built -> node built * list nat) cs rs :
  Forall (fun r => forall n,
    merges (subs n) (spine n) (subs (node_of r)) (subs (f n (node_of r)).1) (spine (f n (node_of r)).1) (f n (node_of r)).2) cs ->
  merges (under rs) (spines rs) (under cs) (under (append f cs rs).1) (spines (append f cs rs).1) (append f cs rs).2.
Proof.
  intros Hall. revert rs. induction Hall as [|[segs c] cs Hc _ IH]; intros rs; cbn [append].
  - split; [by apply blend_same | cbn; by rewrite app_nil_r | | by intros ? ?%elem_of_nil].
    intros m0 H0. exists m0. split; [done|]. by split; [|left].
  - pose proof (land_merges (fun n => f n c) segs c rs Hc) as Hl.
    destruct (land _ segs c rs) as [rs' got]. specialize (IH rs'). destruct (append f cs rs') as [rs2 more].
    exact (merges_then _ _ _ _ _ _ _ _ _ _ Hl IH).
Qed.

Lemma spines_perm rs rs' : rs ≡ₚ rs' -> spines rs ≡ₚ spines rs'.
Proof.
  induction 1 as [|[s c] rs rs' _ IH|[s c] [s' c'] rs|]; unfold spines in *; cbn [flat_map].
  - done.
  - by rewrite IH.
  - rewrite !app_assoc. by rewrite (Permutation_app_comm (spine c')).
  - by etrans.
Qed.

Lemma node_merges n (b : node built) :
  merges (subs n) (spine n) (subs b) (subs (node_merge n b).1) (spine (node_merge n b).1) (node_merge n b).2.
Proof.
  revert n. induction b as [i inter f e ms p cs IH] using node_ind_nested. intros [j inter' f' e' ms' p' rs].
  cbn [node_merge protected]. destruct p'; cbn [routes id forward expiration methods].
  - pose proof (append_merges (fun n c => node_merge n c) cs rs IH) as [Hb Hn Hs Hl].
    destruct (append _ cs rs) as [rs' got]. cbn [fst snd] in *.
    set (n := Node j inter' f' e' ms' true rs). set (n' := sorted _).
    assert (subs n' ≡ₚ n' :: under rs') as Hsub by apply sorted_subs.
    assert (spine n' ≡ₚ n' :: spines rs') as Hspine
      by (unfold n'; cbn [sorted spine]; apply Permutation_skip, spines_perm, sort_perm).
    assert (subs n = n :: under rs) as -> by done. assert (spine n = n :: spines rs) as -> by done.
    cbn [subs]. fold (under cs). set (b := Node i inter f e ms p cs).
    split.
    + intros m. rewrite Hsub. intros [->|Hm]%elem_of_cons; [left; exists n; split; [by left | by split; [|left]]|].
      revert m Hm. apply (blend_mono (under rs) _ (under cs) _); [set_solver | set_solver | exact Hb].
    + rewrite Hsub, !fmap_cons. cbn [app]. apply submseteq_skip. etrans; [exact Hn|].
      apply submseteq_skips_l, submseteq_cons. done.
    + intros m0. setoid_rewrite Hspine. intros [->|H0]%elem_of_cons; [exists n'; split; [by left | by split; [|left]]|].
      destruct (Hs m0 H0) as (m & ? & ? & He). exists m. split; [by right|]. split; [done|].
      destruct He; [by left | right; eapply from_mono; [|done]; set_solver].
    + intros x Hx. setoid_rewrite Hspine. destruct (Hl x Hx) as [?|(m & ? & ? & ?)]; [left; set_solver|].
      right. exists m. split; [by right|]. split; [done|]. eapply from_mono; [|done]. set_solver.
  - set (n := Node j inter' f' e' ms' false rs). set (b := Node i inter f e ms p cs). set (n' := sorted (replace n b)).
    assert (subs n' ≡ₚ n' :: under cs) as Hsub by apply sorted_subs.
    assert (subs b = b :: under cs) as Hbs by done.
    assert (from (subs b) n') as Hfrom by (exists b; split; [by left | done]).
    cbn [fst snd]. split.
    + intros m. rewrite Hsub. intros [->|Hm]%elem_of_cons.
      * left. exists n. split; [by left|]. split; [done | by right].
      * right. split; [rewrite Hbs; set_solver|]. exists m. split; [rewrite Hbs; by right | done].
    + rewrite Hsub, Hbs, !fmap_cons. change (id <$> subs n) with (j :: (id <$> under rs)).
      apply submseteq_skip. apply submseteq_inserts_l, submseteq_cons. done.
    + intros m0 Hm0. apply list_elem_of_singleton in Hm0 as ->. exists n'. split; [by left|]. split; [done | by right].
    + intros x. rewrite nodes_subs. change (subs (replace n b)) with (replace n b :: under cs). rewrite fmap_cons.
      intros [->|Hx]%elem_of_cons; [right; exists n'; split; [by left | done]|].
      left. rewrite Hbs, fmap_cons. by right.
Qed.

(** *** What is built *)

Definition timed (now : Z) (m : node built) : Prop :=
  expiration m = None \/ expiration m = Some (now + BRANCH_TTL).

(** nodes with ids of a range, each its own, that expire at one time or never *)
Record fresh (now : Z) (i next : nat) (l : list (node built)) : Prop := {
  ordered : (i <= next)%nat;
  ranged : forall m, m ∈ l -> (i <= id m < next)%nat;
  single : NoDup (id <$> l);
  all_timed : forall m, m ∈ l -> timed now m;
}.

Lemma fresh_app now i j k l l' : fresh now i j l -> fresh now j k l' -> fresh now i k (l ++ l').
Proof.
  intros [Ho Hr Hd Ht] [Ho' Hr' Hd' Ht']. split; [lia | | |].
  - intros m [Hm|Hm]%elem_of_app; [apply Hr in Hm | apply Hr' in Hm]; lia.
  - rewrite fmap_app. apply NoDup_app. split; [done|]. split; [|done].
    intros x (m & -> & Hm)%list_elem_of_fmap (m' & He & Hm')%list_elem_of_fmap.
    apply Hr in Hm. apply Hr' in Hm'. lia.
  - intros m [Hm|Hm]%elem_of_app; auto.
Qed.

Lemma fresh_perm now i j l l' : l ≡ₚ l' -> fresh now i j l -> fresh now i j l'.
Proof.
  intros Hp [Ho Hr Hd Ht]. split; [done | | |].
  - intros m. rewrite <- Hp. apply Hr.
  - by rewrite <- Hp.
  - intros m. rewrite <- Hp. apply Ht.
Qed.

Lemma createNode_fresh now protect (n : stated_node) stack path i n' next :
  createNode error endpoint F now protect n stack path i = Ok (n', next) -> fresh now i next (subs n').
Proof.
  revert stack path i n' next. induction n as [p iso fwd rs ms ds IH] using stated_ind.
  intros stack path i n' next. cbn [createNode].
  intros (_ & _ & Hn)%bind_Ok. apply bind_Ok in Hn as ([routes next'] & Hr & Hn).
  apply bind_Ok in Hn as (methods & _ & Hn). injection Hn as <- <-.
  assert (fresh now (Datatypes.S i) next' (under routes)) as Hu.
  { clear methods. revert Hr. generalize (Datatypes.S i). revert routes next'.
    induction IH as [|[q c] rs Hc _ IHrs]; intros routes next' j; cbn [create_routes].
    - intros [= <- <-]. split; [done | by intros ? ?%elem_of_nil | constructor | by intros ? ?%elem_of_nil].
    - intros ([r j1] & Hb & Hr)%bind_Ok. apply bind_Ok in Hb as ([c' j2] & Hb & Heq). injection Heq as <- <-.
      apply bind_Ok in Hr as ([more j3] & Hm & Hr). injection Hr as <- <-.
      unfold under. cbn [flat_map]. eapply fresh_app; [by apply (Hc _ _ _ _ _ Hb) | by apply IHrs]. }
  destruct Hu as [Ho Hrg Hd Ht].
  set (e := if default protect p then None else Some (now + BRANCH_TTL)).
  assert (fresh now i next' (Routing.make i routes methods (default protect p) fwd e :: under routes)) as Hf.
  { split; [lia | | |].
    - intros m [->|Hm]%elem_of_cons; [cbn; lia | apply Hrg in Hm; lia].
    - rewrite fmap_cons. apply NoDup_cons. split; [|done].
      intros (m & He & Hm)%list_elem_of_fmap. apply Hrg in Hm. cbn in He. lia.
    - intros m [->|Hm]%elem_of_cons; [|by apply Ht]. unfold timed. cbn. unfold e.
      destruct (default protect p); auto. }
  eapply fresh_perm; [|exact Hf]. rewrite subs_eq. apply Permutation_skip. symmetry.
  apply under_perm. cbn [Routing.make Routing.routes]. apply sort_perm.
Qed.

(** *** What is extended *)

Lemma touch_id which e n : id (node_touch which e n) = id n.
Proof. by destruct n. Qed.

Lemma touch_subs which e n : subs (node_touch which e n) = node_touch which e <$> subs n.
Proof.
  induction n as [i inter f e' ms p rs IH] using node_ind_nested. cbn [node_touch subs]. rewrite fmap_cons.
  f_equal. induction IH as [|[segs c] rs Hc _ IHrs]; [done|]. cbn [flat_map map].
  rewrite fmap_app, <- IHrs. f_equal. exact Hc.
Qed.

Lemma touch_find which e i n : find_node i (node_touch which e n) = node_touch which e <$> find_node i n.
Proof.
  unfold find_node. rewrite touch_subs. induction (subs n) as [|m l IH]; [done|].
  rewrite fmap_cons. cbn [List.find]. rewrite touch_id. by case_bool_decide.
Qed.

Lemma touch_expiration which e n :
  expiration (node_touch which e n) =
  if bool_decide (id n ∈ which) && negb (protected n) then Some e else expiration n.
Proof. by destruct n. Qed.

Lemma touch_lasting which e n : lasting n -> lasting (node_touch which e n).
Proof.
  induction n as [i inter f e' ms p rs IH] using node_ind_nested. intros Hn. inversion_clear Hn as [? Hp Hrs].
  cbn [routes protected expiration] in *. constructor; cbn [node_touch routes protected expiration].
  - intros ->. rewrite andb_false_r. by apply Hp.
  - induction IH as [|[segs c] rs Hc _ IHrs]; [constructor|]. apply Forall_cons in Hrs as [Hc' Hrs].
    constructor; [by apply Hc | by apply IHrs].
Qed.

Lemma lasting_subs n m : lasting n -> m ∈ subs n -> lasting m.
Proof.
  revert m. induction n as [i inter f e ms p rs IH] using node_ind_nested. intros m Hn.
  rewrite subs_eq. intros [->|Hm]%elem_of_cons; [done|]. apply elem_of_under in Hm as (r & Hr & Hm).
  apply (proj1 (Forall_forall _ _) IH r Hr); [by apply (lasting_route _ _ Hn) | done].
Qed.

(** *** The gateway *)

(** at a node's expiration, or never *)
Definition not_before (g : gateway) (t : Z) (i : nat) : Prop :=
  match expiration_of g i with None => True | Some e => t <= e end.

Record sound (g : gateway) : Prop := {
  ids_single : NoDup (nodes (trunk g));
  ids_given : forall i, i ∈ nodes (trunk g) -> (i < next_id g)%nat;
  past_given : forall n i, n ∈ past g -> i ∈ nodes n -> (i < next_id g)%nat;
  trunk_lasting : lasting (trunk g);
  past_lasting : Forall lasting (past g);
  landed_given : forall l x i, branches g !! l = Some x -> i ∈ landed x -> (i < next_id g)%nat;
}.

Lemma expiration_of_found (ns : list (node built)) i :
  foldr (fun n found => match find_node i n with Some m => Some m | None => found end) None ns = None ->
  foldr (fun n found => match find_node i n with Some m => expiration m | None => found end) None ns = None.
Proof. induction ns as [|n ns IH]; [done|]. cbn. by destruct (find_node i n). Qed.

Lemma refresh_not_before now which g t i :
  sound g -> t <= now + BRANCH_TTL -> not_before g t i \/ i ∈ which ->
  not_before (refresh_ now which g) t i.
Proof.
  intros [_ _ _ Hl Hpl _] Ht Hi. unfold not_before, expiration_of in *.
  assert (Forall lasting (trunk g :: past g)) as Hall by by constructor.
  cbn [refresh_ trunk past]. change (refresh now which (trunk g) :: (refresh now which <$> past g))
    with (refresh now which <$> (trunk g :: past g)).
  revert Hall Hi. generalize (trunk g :: past g). intros ns. induction 1 as [|n ns Hn _ IH]; [done|].
  rewrite fmap_cons. cbn [foldr]. unfold refresh at 1. rewrite touch_find.
  destruct (find_node i n) as [m|] eqn:Hf; cbn [fmap option_fmap option_map]; [|exact IH].
  apply find_node_Some in Hf as [Hm Hid]. pose proof (lasting_subs _ _ Hn Hm) as Hlm. inversion_clear Hlm as [? Hp _].
  rewrite touch_expiration, Hid. intros Hi. case_bool_decide as Hw; cbn [andb].
  - destruct (protected m) eqn:Hprot; cbn [negb]; [by rewrite Hp | done].
  - by destruct Hi.
Qed.

Lemma NoDup_submseteq_inv {A} (l k : list A) : l ⊆+ k -> NoDup k -> NoDup l.
Proof. intros (k' & Hk)%submseteq_Permutation Hd. rewrite Hk in Hd. by apply NoDup_app in Hd as [? _]. Qed.

(** what a branch built and merged makes of the ids *)
Lemma merge_ids now g branch next :
  sound g -> fresh now (next_id g) next (subs branch) ->
  let n' := (node_merge (trunk g) branch).1 in
  NoDup (nodes n') /\ (forall i, i ∈ nodes n' -> (i < next)%nat).
Proof.
  intros Hg [Ho Hr Hd Ht] n'. destruct (node_merges (trunk g) branch) as [_ Hn _ _].
  rewrite <- !nodes_subs in Hn. fold n' in Hn. split.
  - apply (NoDup_submseteq_inv _ _ Hn), NoDup_app. split; [by apply ids_single|]. rewrite (nodes_subs branch). split; [|done].
    intros i Hi (m & -> & Hm)%list_elem_of_fmap. apply (ids_given g Hg) in Hi. apply Hr in Hm. lia.
  - intros i Hi. apply (elem_of_submseteq _ _ _ Hi) in Hn. apply elem_of_app in Hn as [Hn|Hn].
    + apply (ids_given g Hg) in Hn. lia.
    + rewrite nodes_subs in Hn. apply list_elem_of_fmap in Hn as (m & -> & Hm). apply Hr in Hm. lia.
Qed.

Lemma merge_not_before now g branch next t i bs lm wg :
  sound g -> fresh now (next_id g) next (subs branch) -> t <= now + BRANCH_TTL ->
  let '(n', got) := node_merge (trunk g) branch in
  (i < next_id g)%nat /\ not_before g t i \/ i ∈ got ->
  not_before (mkGateway n' (trunk g :: branch :: past g) next (root_directives g) bs lm wg) t i.
Proof.
  intros Hg Hfr Ht. pose proof (merge_ids now g branch next Hg Hfr) as [Hd Hlt].
  destruct (node_merges (trunk g) branch) as [Hb _ _ Hl].
  destruct (node_merge (trunk g) branch) as [n' got]. cbn [fst snd] in *. destruct Hfr as [Ho Hr Hsd Hti].
  assert (forall m, from (subs branch) m -> match expiration m with None => True | Some e => t <= e end) as Hfrom.
  { intros m (m1 & H1 & ->). destruct (Hti m1 H1) as [-> | ->]; [done | lia]. }
  assert (forall m, m ∈ subs branch -> match expiration m with None => True | Some e => t <= e end) as Hsub
    by (intros m Hm; apply Hfrom; by exists m).
  unfold not_before, expiration_of. cbn [trunk past foldr].
  destruct (find_node i n') as [m|] eqn:Hf.
  - apply find_node_Some in Hf as [Hm Hid]. intros Hi.
    destruct (Hb m Hm) as [(m0 & H0 & Hi0 & [He|?])|[Hin ?]]; [| by apply Hfrom | by apply Hfrom].
    destruct Hi as [[Hlt' Hnb]|Hgot].
    + rewrite <- Hid, <- Hi0, (find_node_unique (trunk g) m0) in Hnb by (done || by apply ids_single). by rewrite He.
    + destruct (Hl i Hgot) as [Hi|(m2 & H2 & Hi2 & Hfr2)].
      * exfalso. apply list_elem_of_fmap in Hi as (mb & Hib & Hmb). apply Hr in Hmb.
        assert (i ∈ nodes (trunk g)) as Hit by (rewrite nodes_subs, <- Hid, <- Hi0; by apply list_elem_of_fmap_2).
        apply (ids_given g Hg) in Hit. lia.
      * apply spine_subs in H2. pose proof (find_node_unique n' m2 Hd H2) as Hu2.
        pose proof (find_node_unique n' m Hd Hm) as Hu. rewrite Hi2 in Hu2. rewrite Hid in Hu.
        assert (m = m2) as -> by congruence. by apply Hfrom.
  - intros Hi. apply find_node_None in Hf. destruct Hi as [[Hlt' Hnb]|Hgot].
    + destruct (find_node i (trunk g)) as [m|]; [done|]. destruct (find_node i branch) as [m|] eqn:Hfb; [|done].
      apply find_node_Some in Hfb as [Hm _]. by apply Hsub.
    + destruct (Hl i Hgot) as [Hi|(m2 & H2 & Hi2 & _)].
      * destruct (find_node i (trunk g)) as [m|] eqn:Hft.
        { exfalso. apply find_node_Some in Hft as [Hm Hid].
          apply list_elem_of_fmap in Hi as (mb & Hib & Hmb). apply Hr in Hmb.
          assert (i ∈ nodes (trunk g)) as Hit by (rewrite nodes_subs, <- Hid; by apply list_elem_of_fmap_2).
          apply (ids_given g Hg) in Hit. lia. }
        destruct (find_node i branch) as [m|] eqn:Hfb.
        -- apply find_node_Some in Hfb as [Hm _]. by apply Hsub.
        -- apply find_node_None in Hfb. exfalso. apply Hfb. by rewrite nodes_subs.
      * exfalso. apply Hf. rewrite nodes_subs, <- Hi2. apply list_elem_of_fmap_2. by apply spine_subs.
Qed.

Lemma refresh_sound now which g : sound g -> sound (refresh_ now which g).
Proof.
  intros [H1 H2 H3 H4 H5 H6].
  assert (forall n : node built, nodes (refresh now which n) = nodes n) as Hn.
  { intros n. unfold refresh. rewrite !nodes_subs, touch_subs, <- list_fmap_compose.
    apply list_fmap_ext. intros j m _. apply touch_id. }
  split; cbn [refresh_ trunk past next_id branches]; rewrite ?Hn; try done.
  - intros n i (n0 & -> & Hin)%list_elem_of_fmap. rewrite Hn. by apply H3.
  - by apply touch_lasting.
  - apply Forall_fmap. eapply Forall_impl; [exact H5|]. intros n. by apply touch_lasting.
Qed.

Lemma merge_sound now b g : sound g -> sound (merge_ now b g).
Proof.
  intros Hg. unfold merge_. destruct (createNode _ _ _ _ _ _ _ _ _) as [[branch next]|] eqn:Hc; [|done].
  pose proof (createNode_fresh _ _ _ _ _ _ _ _ Hc) as Hfr.
  pose proof (createNode_lasting error endpoint F _ _ _ _ _ _ _ _ Hc) as Hbl.
  pose proof (merge_ids now g branch next Hg Hfr) as [Hd Hlt]. pose proof (merge_lasting _ _ (trunk_lasting g Hg) Hbl) as Hml.
  destruct (node_merges (trunk g) branch) as [_ _ _ Hl].
  destruct (node_merge (trunk g) branch) as [n' got]. cbn [fst snd] in *. destruct Hfr as [Ho Hr Hsd Hti].
  destruct Hg as [H1 H2 H3 H4 H5 H6].
  assert (forall i, i ∈ id <$> subs branch -> (i < next)%nat) as Hbr
    by (intros i (m & -> & Hm)%list_elem_of_fmap; apply Hr in Hm; lia).
  split; cbn [trunk past next_id branches]; try done.
  - intros n i [->|[->|Hn]%elem_of_cons]%elem_of_cons Hi.
    + apply H2 in Hi. lia.
    + rewrite nodes_subs in Hi. by apply Hbr.
    + specialize (H3 n i Hn Hi). lia.
  - by apply Forall_cons; split; [|apply Forall_cons].
  - intros l x i. rewrite lookup_insert_Some. intros [[<- <-]|[_ Hx]] Hi.
    + cbn [landed] in Hi. destruct (Hl i Hi) as [?|(m & Hm & <- & _)]; [by apply Hbr|].
      apply Hlt. rewrite nodes_subs. by apply list_elem_of_fmap_2, spine_subs.
    + specialize (H6 l x i Hx Hi). lia.
Qed.

Lemma expose_sound now b g : sound g -> sound (expose now b g).
Proof.
  intros Hg. unfold expose. destruct (branches g !! label b) as [x|]; [|by apply merge_sound].
  destruct (decide_ now g x b); [by apply merge_sound | by apply refresh_sound | done].
Qed.

Lemma announced_sound evs g : sound g -> sound (announced evs g).
Proof.
  unfold announced. revert g. induction evs as [|[now b] evs IH]; intros g Hg; [done|].
  cbn [foldl]. by apply IH, expose_sound.
Qed.

Lemma start_sound now root g : start now root = Ok g -> sound g.
Proof.
  unfold start. intros ([n next] & Hc & Hg)%bind_Ok. destruct root. injection Hg as <-.
  destruct (createNode_fresh _ _ _ _ _ _ _ _ Hc) as [Ho Hr Hd Ht].
  split; cbn [trunk past next_id branches]; try done.
  - by rewrite nodes_subs.
  - intros i. rewrite nodes_subs. intros (m & -> & Hm)%list_elem_of_fmap. apply Hr in Hm. lia.
  - by intros n' i ?%elem_of_nil.
  - by apply (createNode_lasting error endpoint F _ _ _ _ _ _ _ _ Hc).
Qed.

(** the nodes of a branch that is exposed keep until a moment *)
Definition kept (g : gateway) (x : Exposed) (t : Z) : Prop := forall i, i ∈ landed x -> not_before g t i.

Lemma merge_branches now b g :
  merge_ now b g = g \/ exists x, branches (merge_ now b g) = <[label b := x]> (branches g) /\
    exposed_version x = version b /\ exposed_routes x = routes_ b /\ exposed_timestamp x = timestamp b /\
    (sound g -> kept (merge_ now b g) x (now + BRANCH_TTL)).
Proof.
  unfold merge_. destruct (createNode _ _ _ _ _ _ _ _ _) as [[branch next]|] eqn:Hc; [|by left]. right.
  pose proof (createNode_fresh _ _ _ _ _ _ _ _ Hc) as Hfr.
  pose proof (fun Hg i bs lm wg => merge_not_before now g branch next (now + BRANCH_TTL) i bs lm wg Hg Hfr (Z.le_refl _)) as Hk.
  destruct (node_merge (trunk g) branch) as [n' got]. eexists. split; [reflexivity|].
  split_and!; [done..|]. intros Hg i Hi. apply Hk; [done | by right].
Qed.

Lemma expose_other now b g l x t :
  sound g -> label b <> l -> branches g !! l = Some x -> t <= now + BRANCH_TTL -> kept g x t ->
  branches (expose now b g) !! l = Some x /\ kept (expose now b g) x t.
Proof.
  intros Hg Hl Hx Ht Hk.
  assert (branches (merge_ now b g) !! l = Some x /\ kept (merge_ now b g) x t) as Hm.
  { unfold merge_. destruct (createNode _ _ _ _ _ _ _ _ _) as [[branch next]|] eqn:Hc; [|done].
    pose proof (createNode_fresh _ _ _ _ _ _ _ _ Hc) as Hfr.
    pose proof (fun i bs lm wg => merge_not_before now g branch next t i bs lm wg Hg Hfr Ht) as Hn.
    destruct (node_merge (trunk g) branch) as [n' got]. cbn [branches]. rewrite lookup_insert_ne by done.
    split; [done|]. intros i Hi. apply Hn. left. split; [by apply (landed_given g Hg l x) | by apply Hk]. }
  unfold expose. destruct (branches g !! label b) as [y|]; [|done].
  destruct (decide_ now g y b); [done | | done]. split; [done|].
  intros i Hi. apply refresh_not_before; [done | done | left; by apply Hk].
Qed.

Lemma kept_not_gone g x now t : kept g x t -> now < t -> gone now g x = false.
Proof.
  intros Hk Hn. unfold gone. destruct (landed x) as [|i l] eqn:Hl; [done|]. cbn [length forallb].
  assert (not_before g t i) as Hi by (apply Hk; rewrite Hl; by left). unfold not_before in Hi.
  destruct (expiration_of g i) as [e|]; [|by rewrite andb_false_r].
  assert (e <=? now = false) as -> by lia. by rewrite andb_false_r.
Qed.

(** Announcements after a moment: of other components, of what is exposed, which extends it, and of a
    tenant of the component that started before, while what is exposed is not out of its time. *)
Fixpoint timely (l : string) (x : Exposed) (last : Z) (evs : list (Z * Branch)) : Prop :=
  match evs with
  | [] => True
  | (now, b) :: evs =>
      last <= now /\
      if decide (label b = l) then
        if decide (exposed_version x = version b /\ exposed_routes x = routes_ b) then timely l x now evs
        else timestamp b < exposed_timestamp x /\ now < last + BRANCH_TTL /\ timely l x last evs
      else timely l x last evs
  end.

(** the last time what is exposed was announced *)
Fixpoint latest (l : string) (x : Exposed) (last : Z) (evs : list (Z * Branch)) : Z :=
  match evs with
  | [] => last
  | (now, b) :: evs =>
      latest l x (if decide (label b = l /\ exposed_version x = version b /\ exposed_routes x = routes_ b) then now else last) evs
  end.

Lemma timely_kept l x last evs g :
  sound g -> branches g !! l = Some x -> kept g x (last + BRANCH_TTL) -> timely l x last evs ->
  branches (announced evs g) !! l = Some x /\ kept (announced evs g) x (latest l x last evs + BRANCH_TTL).
Proof.
  revert last g. induction evs as [|[now b] evs IH]; intros last g Hg Hx Hk; [done|].
  cbn [timely latest announced foldl]. intros [Hle Ht]. fold (announced evs (expose now b g)).
  pose proof (expose_sound now b g Hg) as Hg'.
  destruct (decide (label b = l)) as [Hl|Hl].
  - assert (expose now b g = match decide_ now g x b with
      | Refresh => refresh_ now (landed x) g | Superseded => g | Merge => merge_ now b g end) as He
      by (unfold expose; by rewrite Hl, Hx).
    unfold decide_ in He. destruct (decide (exposed_version x = version b /\ exposed_routes x = routes_ b)) as [Hv|Hv].
    + rewrite decide_True by done. rewrite bool_decide_true in He by done. apply (IH now); [done | by rewrite He | | done].
      rewrite He. intros i Hi. apply refresh_not_before; [done | done | by right].
    + rewrite decide_False by naive_solver. rewrite bool_decide_false in He by done. destruct Ht as (Hts & Hn & Ht).
      rewrite (kept_not_gone g x now _ Hk Hn) in He. assert (timestamp b <? exposed_timestamp x = true) as Hlt by lia.
      rewrite Hlt in He. cbn [andb negb] in He. rewrite He in *. by apply (IH last).
  - rewrite decide_False by naive_solver. destruct (expose_other now b g l x (last + BRANCH_TTL) Hg Hl Hx ltac:(lia) Hk) as [Hx' Hk'].
    by apply (IH last).
Qed.

(** what is exposed, once it is, keeps for as long as it is announced again in time *)
Lemma exposed_kept now0 root g0 before t0 b x :
  start now0 root = Ok g0 ->
  let g := expose t0 b (announced before g0) in
  branches g !! label b = Some x -> exposed_version x = version b -> exposed_routes x = routes_ b ->
  sound g /\ kept g x (t0 + BRANCH_TTL).
Proof.
  intros Hs g Hx Hv Hr. pose proof (announced_sound before g0 (start_sound _ _ _ Hs)) as Hg.
  set (h := announced before g0) in *. split; [by apply expose_sound|].
  assert (forall y, branches h !! label b = Some y -> x = y -> decide_ t0 h y b = Refresh) as Hre.
  { intros y _ <-. unfold decide_. by rewrite bool_decide_true. }
  unfold g, expose in *. destruct (branches h !! label b) as [y|] eqn:Hy.
  - destruct (decide_ t0 h y b) eqn:Hd.
    + destruct (merge_branches t0 b h) as [Heq|(z & Hz & _ & _ & _ & Hk)].
      * rewrite Heq, Hy in Hx. injection Hx as ->. by rewrite (Hre x) in Hd.
      * rewrite Hz, lookup_insert_eq in Hx. injection Hx as ->. by apply Hk.
    + cbn [refresh_ branches] in Hx. rewrite Hy in Hx. injection Hx as ->.
      intros i Hi. apply refresh_not_before; [done | done | by right].
    + rewrite Hy in Hx. injection Hx as ->. by rewrite (Hre x) in Hd.
  - destruct (merge_branches t0 b h) as [Heq|(z & Hz & _ & _ & _ & Hk)].
    + rewrite Heq, Hy in Hx. done.
    + rewrite Hz, lookup_insert_eq in Hx. injection Hx as ->. by apply Hk.
Qed.

(** ** Properties *)

(** C26: No way back. Once a branch is exposed, announcements of a tenant of its component that started
    before are turned down, in whatever order they arrive among those of other components and of its
    own, for as long as it is announced again before its time is out: what is exposed stays exposed. *)
Theorem no_way_back now0 root g0 before t0 b x evs :
  start now0 root = Ok g0 ->
  let g := expose t0 b (announced before g0) in
  branches g !! label b = Some x -> exposed_version x = version b -> exposed_routes x = routes_ b ->
  timely (label b) x t0 evs ->
  branches (announced evs g) !! label b = Some x.
Proof.
  intros Hs g Hx Hv Hr Ht. destruct (exposed_kept _ _ _ _ _ _ _ Hs Hx Hv Hr) as [Hg Hk].
  by destruct (timely_kept _ _ _ _ _ Hg Hx Hk Ht).
Qed.
End gateway.

(** ** A deployment rolled out *)

Module Rollout.
Definition tenant (v : string) (started : Z) : Branch (Mapping := string) :=
  mkBranch "default" "pots" (SNode None false None
    [SRoute "/pots" (SNode None false None [] [mkMethod "GET" (Some "enumerate") []] [])] [] []) v v started.

Definition closed := Site.closed.

Definition g0 : gateway :=
  match start Datatypes.id Site.endpoint closed 0 (SNode None false None [] [] []) with
  | Ok g => g
  | Throw _ => mkGateway (Routing.make 0 [] [] true None None) [] 0 [] ∅ 0 0
  end.

Definition rolled : gateway :=
  expose Datatypes.id Site.endpoint closed 2000 (tenant "2" 1500)
    (announced Datatypes.id Site.endpoint closed [(1000, tenant "1" 500)] g0).

Definition exposed : Exposed := mkExposed "2" "2" 1500 [2%nat].

Lemma no_way_back_witness :
  branches (announced Datatypes.id Site.endpoint closed
    [(3000, tenant "1" 500); (1500000, tenant "2" 1500); (3000000, tenant "1" 500)] rolled) !! "default.pots" = Some exposed.
Proof.
  apply (no_way_back Datatypes.id Site.endpoint closed 0 (SNode None false None [] [] []) g0 [(1000, tenant "1" 500)]
    2000 (tenant "2" 1500) exposed); try reflexivity.
  vm_compute. repeat match goal with |- _ /\ _ => split end; first [discriminate | reflexivity | exact I].
Defined.
End Rollout.
