(* ===== verification/Convergence.v ===== *)
(** * Convergence

    [extensions/convergence/source/], [converge] of [connectors/storages.mongodb/src/storage.js] and
    [runtime/core/source/regional.ts]: regions that keep a database each and end with the same
    records. A record committed in a region is sent to the others as it stands, and one that arrives
    is written where it wins over what is there.

    Regions are a step relation over the storage of [Memory]: the writes of operations, whose rows
    say what is sent, and deliveries of what was, in any order and any number of times. *)
From stdpp Require Import relations.
From S2P Require Import Prelude Exceptions Entities World Memory.

Open Scope Z_scope.

(** ** The storage *)

Definition FIRST : Z := 0.

(** how BSON orders a number and what is absent *)
Definition less (a b : option Z) : bool :=
  match a, b with
  | Some a, Some b => a <? b
  | None, Some _ => true
  | _, None => false
  end.

Definition equal (a b : option Z) : bool :=
  match a, b with Some a, Some b => a =? b | _, _ => false end.

Definition supersedes (stored document : record) : bool :=
  less (Some (default 0 (VERSION stored))) (VERSION document)
  || (equal (VERSION stored) (VERSION document)
      && less (REGION document) (Some (default FIRST (REGION stored)))).

(** what the filter makes of a record never seen *)
Definition base (id : string) : record := mkRecord id None None None None None None None ∅.

(** A record is upserted or replaced, or stays. One that is replaced is modified: what supersedes it
    has another version, or another region. *)
Definition converge (document : record) (c : collections) : collections * result thrown bool :=
  let found := records c !! id document in
  let stored := default (base (id document)) found in
  let replaced := supersedes stored document in
  (mkCollections (<[id document := if replaced then document else stored]> (records c)) (calls c) (rows c),
   Ok (match found with None => true | Some _ => replaced end)).

(** ** Regional destinations *)

(** what a destination would write, and its writing of what another region's would have *)
Record Regional := mkRegional {
  r_name : string;
  r_export : Row -> result thrown (option value);
  r_import : value -> result thrown unit
}.

(** one that fails takes out its own part *)
Definition export (destinations : list Regional) (row : Row) : option (list (string * value)) :=
  match omap (fun d => match r_export d row with
                       | Ok (Some part) => Some (r_name d, part)
                       | _ => None
                       end) destinations with
  | [] => None
  | parts => Some parts
  end.

Definition destination_of (destinations : list Regional) (name : string) : option Regional :=
  list_find (fun d => r_name d = name) destinations ≫= fun '(_, d) => Some d.

(** what each part is imported with, and the first that failed once all were *)
Definition import_one (destinations : list Regional) (part : string * value) : option (result thrown unit) :=
  (fun d => r_import d (snd part)) <$> destination_of destinations (fst part).

Definition rejected (r : result thrown unit) : option thrown :=
  match r with Throw e => Some e | Ok _ => None end.

Definition import (destinations : list Regional) (carried : list (string * value)) : result thrown unit :=
  match head (omap rejected (omap (import_one destinations) carried)) with
  | Some reason => Throw reason
  | None => Ok tt
  end.

(** the parts that reach a destination *)
Definition handed_over (destinations : list Regional) (carried : list (string * value)) : list (string * value) :=
  filter (fun part => is_Some (destination_of destinations (fst part))) carried.

(** ** What goes out and what comes in *)

Record Message := mkMessage {
  m_record : option record;
  m_trace : option string;
  m_carried : option (list (string * value))
}.

Record Destination := mkDestination {
  d_label : string;
  d_regional : option (list Regional);
  disabled : bool
}.

(** what is sent, under which label: the enumerable properties of what was committed *)
Definition emit (trace : option string) (d : Destination) (row : Row) : option (string * Message) :=
  if disabled d then None
  else Some (d_label d,
    mkMessage (clone <$> e_state (event row)) trace
      (d_regional d ≫= fun destinations => export destinations row)).

Record acceptance := mkAcceptance {
  (** the record carries this region's own rank, which is reported *)
  misranked : bool;
  applied : bool;
  imported : list (string * value)
}.

Definition accept (REGION_ : Z) (regional : option (list Regional)) (document : record)
    (carried : option (list (string * value))) (c : collections)
    : collections * acceptance * result thrown unit :=
  let mine := bool_decide (REGION document = Some REGION_) in
  match converge document c with
  | (c, Throw e) => (c, mkAcceptance mine false [], Throw e)
  | (c, Ok ok) =>
      match carried, regional with
      | Some parts, Some destinations =>
          (c, mkAcceptance mine ok (handed_over destinations parts), import destinations parts)
      | _, _ => (c, mkAcceptance mine ok [], Ok tt)
      end
  end.

(** ** The factory *)

(** What was given to components and is waited for by their storages: an object by its number, since
    the outbox holds the same destination that a storage stands down. *)
Record factory := mkFactory {
  destinations : gmap string nat;
  made : list Destination
}.

Definition destination (converging entity : bool) (component : string) (f : factory) : factory * option nat :=
  if negb converging || negb entity then (f, None)
  else
    let i := length (made f) in
    (mkFactory (<[component := i]> (destinations f)) (made f ++ [mkDestination component None false]), Some i).

Definition disable (d : Destination) : Destination := mkDestination (d_label d) (d_regional d) true.

(** a storage, decorated or as it is; and whether it was said that its component does not converge *)
Inductive storage_of := Decorated (d : nat) | Untouched (warned : bool).

Definition storage (converging converges : bool) (component : string) (f : factory) : factory * storage_of :=
  let given := destinations f !! component in
  let f' := mkFactory (delete component (destinations f)) (made f) in
  match given with
  | None => (f', Untouched false)
  | Some d =>
      if negb converging then (f', Untouched false)
      else if negb converges then
        (mkFactory (destinations f') (alter disable d (made f')), Untouched true)
      else (f', Decorated d)
  end.

(** ** The order *)

Definition ver (r : record) : Z := default 0 (VERSION r).
Definition rank_ (r : record) : Z := default FIRST (REGION r).

(** [b] is what [a] is superseded by, or as good *)
Definition precedes (a b : record) : Prop := ver a < ver b \/ ver a = ver b /\ rank_ b <= rank_ a.

#[export] Instance precedes_preorder : PreOrder precedes.
Proof. split; [intros a; right; lia | intros a b c; unfold precedes; lia]. Qed.

Lemma precedes_total a b : precedes a b \/ precedes b a.
Proof. unfold precedes. lia. Qed.

Lemma precedes_clone a b : precedes a (clone b) <-> precedes a b.
Proof. done. Qed.

(** what the rule says of records that say their version, and a document its region *)
Lemma supersedes_spec stored document v w :
  VERSION stored = Some v -> VERSION document = Some w -> is_Some (REGION document) ->
  supersedes stored document = true <-> ~ precedes document stored.
Proof.
  intros Hv Hw [x Hx]. unfold supersedes, precedes, ver, rank_, less, equal. rewrite Hv, Hw, Hx. cbn [default].
  rewrite orb_true_iff, andb_true_iff, !Z.ltb_lt, Z.eqb_eq. cbn. lia.
Qed.

Lemma supersedes_base i document w :
  VERSION document = Some w -> 1 <= w -> supersedes (base i) document = true.
Proof. intros Hw ?. unfold supersedes, less. rewrite Hw. cbn. apply orb_true_iff. left. apply Z.ltb_lt. lia. Qed.

(** what is held after a document came *)
Definition wins (document : record) (found : option record) : record :=
  match found with
  | None => document
  | Some stored => if supersedes stored document then document else stored
  end.

Lemma converge_at document c w :
  VERSION document = Some w -> 1 <= w ->
  converge document c =
    (mkCollections (<[id document := wins document (records c !! id document)]> (records c)) (calls c) (rows c),
     Ok (match records c !! id document with None => true | Some stored => supersedes stored document end)).
Proof.
  intros Hw Hp. unfold converge, wins. destruct (records c !! id document); cbn [from_option Datatypes.id]; [done|].
  by rewrite (supersedes_base _ _ w Hw Hp).
Qed.

(** a stale document changes nothing *)
Lemma converge_stale document c stored v w :
  records c !! id document = Some stored -> VERSION stored = Some v -> VERSION document = Some w ->
  is_Some (REGION document) -> precedes document stored -> converge document c = (c, Ok false).
Proof.
  intros Hs Hv Hw Hr Hp. unfold converge. rewrite Hs. cbn [from_option Datatypes.id].
  destruct (supersedes stored document) eqn:H; [by apply (supersedes_spec _ _ v w) in H|].
  rewrite insert_id by done. by destruct c.
Qed.

(** ** Regions *)

Section regions.
Context (matches : Node -> record -> bool) (output_of : record -> output) (same : value -> value -> bool).

(** what an entity of the region writes is stamped with the region and a version; see [Entity.stamp] *)
Definition stated (w : Z) (r : record) : Prop := REGION r = Some w /\ exists v, VERSION r = Some v /\ 1 <= v.

(** A write of a region that committed, by the operation of the storage that made it. It is as it says
    where the record held after it is the one its row says, stamped with the region; an assignment
    stamps none, and a tombstone revived in a set is held at another version than its row has. *)
Inductive writes (w : Z) (c c' : collections) : bool -> Prop :=
| stored r row call :
    store r (Some row) call c = (c', Ok true) -> stated w r -> e_state (event row) = Some r ->
    writes w c c' true
| set_stored set added :
    massStore set (Some added) c = (c', Ok true) -> Forall (stated w) set ->
    (fun row => e_state (event row)) <$> added = Some <$> set -> NoDup (id <$> set) ->
    writes w c c' (forallb (fun r => bool_decide (VERSION r = Some 1 -> records c !! id r = None)) set)
| ensured q given r row call found :
    ensure matches same q given r (Some row) call c = (c', Ok found) -> stated w r -> e_state (event row) = Some r ->
    writes w c c' true
| assigned q changes row call state row' :
    upsert matches output_of q changes (Some row) call c = (c', Ok (Some (state, row'))) ->
    p_id changes = None ->
    writes w c c' (bool_decide (REGION state = Some w)).

Record deployment := mkDeployment {
  regions : gmap Z collections;
  (** what was delivered, and where *)
  heard : list (Z * record)
}.

(** what a region committed, as it is sent: rows are committed with what they say, and published at
    least once *)
Definition says (c : collections) : list record := omap (fun row => clone <$> e_state (event row)) (rows c).

Definition told (s : deployment) (w : Z) (d : record) : Prop := exists c, regions s !! w = Some c /\ d ∈ says c.

(** A region writes, or is delivered what another committed. A careful step is one whose write is as
    it says. *)
Inductive step (careful : bool) : deployment -> deployment -> Prop :=
| step_write s w c c' ok :
    regions s !! w = Some c -> writes w c c' ok -> (careful = true -> ok = true) ->
    step careful s (mkDeployment (<[w := c']> (regions s)) (heard s))
| step_deliver s w r d c :
    w <> r -> told s w d -> regions s !! r = Some c ->
    step careful s (mkDeployment (<[r := fst (converge d c)]> (regions s)) ((r, d) :: heard s)).

(** Regions start from copies of one database. *)
Definition copies (seed : gmap string record) (s : deployment) : Prop :=
  heard s = [] /\ (forall w c, regions s !! w = Some c -> records c = seed /\ rows c = []) /\
  (forall i x, seed !! i = Some x -> id x = i /\ exists v, VERSION x = Some v /\ 0 <= v).

(** everything committed was delivered everywhere else *)
Definition settled (s : deployment) : Prop :=
  forall w d r, told s w d -> r <> w -> is_Some (regions s !! r) -> (r, d) ∈ heard s.

(** *** What a write does *)

Definition versioned (c : collections) : Prop :=
  forall i x, records c !! i = Some x -> id x = i /\ exists v, VERSION x = Some v /\ 0 <= v.

(** the records a write made: said by its rows, stamped, newer than what was there, and held *)
Record wrote (w : Z) (c c' : collections) (new : list record) : Prop := {
  wrote_says : says c' = says c ++ (clone <$> new);
  wrote_unique : NoDup (id <$> new);
  wrote_stated d : d ∈ new -> stated w d;
  wrote_newer d x : d ∈ new -> records c !! id d = Some x -> ver x < ver d;
  wrote_held d : d ∈ new -> records c' !! id d = Some d;
  wrote_else i : i ∉ id <$> new -> records c' !! i = records c !! i
}.

Lemma says_app c rs cs added : says (mkCollections rs cs (rows c ++ added)) =
  says c ++ omap (fun row => clone <$> e_state (event row)) added.
Proof. unfold says. cbn. by rewrite omap_app. Qed.

Lemma swap_spec r rs rs' v :
  VERSION r = Some v -> swap r rs = Some rs' ->
  rs' = <[id r := r]> rs /\ forall x, rs !! id r = Some x -> ver x < v.
Proof.
  intros Hv. unfold swap. rewrite Hv. cbn [default]. case_decide as H1.
  - destruct (rs !! id r); [done|]. by intros [= <-].
  - destruct (rs !! id r) as [old|]; [|done]. case_decide as Ho; [|done]. intros [= <-]. split; [done|].
    intros x [= <-]. unfold ver. rewrite <- Ho. cbn. lia.
Qed.

Lemma swap_all_spec w set rs rs' :
  swap_all set rs = Some rs' -> Forall (stated w) set -> NoDup (id <$> set) ->
  (forall r, r ∈ set -> VERSION r = Some 1 -> rs !! id r = None) ->
  (forall r, r ∈ set -> rs' !! id r = Some r /\ forall x, rs !! id r = Some x -> ver x < ver r) /\
  (forall i, i ∉ id <$> set -> rs' !! i = rs !! i).
Proof.
  revert rs. induction set as [|r set IH]; intros rs Hs Hst Hd Hn; cbn [swap_all] in Hs.
  { simplify_eq. split; [intros ? []%elem_of_nil | done]. }
  apply bind_Some in Hs as (rs1 & Hr & Hs).
  apply Forall_cons in Hst as [(_ & v & Hv & Hp) Hst]. rewrite fmap_cons in Hd. apply NoDup_cons in Hd as [Hni Hd].
  assert (swap r rs = Some rs1) as Hsw.
  { unfold swap_one in Hr. case_decide as H1; [|done].
    rewrite (Hn r) in Hr by (set_solver || done). unfold swap. rewrite H1. cbn. rewrite decide_True by done.
    by rewrite (Hn r) by (set_solver || done). }
  apply (swap_spec _ _ _ v Hv) in Hsw as [-> Hlt].
  destruct (IH _ Hs Hst Hd) as [Hin Hout].
  { intros r' Hr' H1. rewrite lookup_insert_ne; [apply Hn; [set_solver | done]|].
    intros Heq. apply Hni. rewrite Heq. by apply list_elem_of_fmap_2. }
  split.
  - intros r' [->|Hr']%elem_of_cons.
    + split; [rewrite Hout by done; apply lookup_insert_eq|]. intros x Hx. specialize (Hlt x Hx).
      unfold ver at 2. by rewrite Hv.
    + destruct (Hin r' Hr') as [? Hl]. split; [done|]. intros x Hx. apply Hl. rewrite lookup_insert_ne; [done|].
      intros Heq. apply Hni. rewrite Heq. by apply list_elem_of_fmap_2.
  - intros i. rewrite fmap_cons, not_elem_of_cons. intros [? ?]. rewrite Hout by done. by rewrite lookup_insert_ne.
Qed.

Lemma wrote_one w c c' r row :
  stated w r -> e_state (event row) = Some r -> records c' = <[id r := r]> (records c) -> rows c' = rows c ++ [row] ->
  (forall x, records c !! id r = Some x -> ver x < ver r) -> wrote w c c' [r].
Proof.
  intros Hst Hrow Hrs Hrows Hlt. split.
  - unfold says. rewrite Hrows, omap_app. cbn. by rewrite Hrow.
  - apply NoDup_singleton.
  - by intros d ->%list_elem_of_singleton.
  - intros d x ->%list_elem_of_singleton. apply Hlt.
  - intros d ->%list_elem_of_singleton. rewrite Hrs. apply lookup_insert_eq.
  - intros i Hi. rewrite Hrs. apply lookup_insert_ne. set_solver.
Qed.

Lemma wrote_none w c : wrote w c c [].
Proof. split; try done; [by rewrite app_nil_r | constructor | by intros ? ?%elem_of_nil | by intros ? ? ?%elem_of_nil | by intros ? ?%elem_of_nil]. Qed.

Lemma upsert_spec q changes row call c c' state row' :
  upsert matches output_of q changes (Some row) call c = (c', Ok (Some (state, row'))) -> p_id changes = None ->
  exists origin, origin ∈ all c /\ id state = id origin /\ VERSION state = Some (ver origin + 1) /\
    (p_REGION changes = None -> REGION state = REGION origin) /\
    records c' = <[id origin := state]> (records c) /\ rows c' = rows c ++ [imaged row origin state].
Proof.
  unfold upsert. destruct (head _) as [origin|] eqn:Ho; [|done].
  apply head_Some_elem_of in Ho. apply list_elem_of_filter in Ho as [_ Ho].
  destruct (call ≫= _); [done|]. intros Heq Hid. injection Heq as <- <- <-.
  exists origin. cbn. rewrite Hid. cbn. destruct (VERSION origin) eqn:Hv; unfold ver; rewrite Hv; cbn.
  all: split_and!; try done; [by destruct (p_VERSION changes) | intros Hr; rewrite Hr; by destruct (REGION origin)].
Qed.

Lemma all_at c x : versioned c -> x ∈ all c -> records c !! id x = Some x.
Proof.
  intros Hc ([i y] & -> & Hi)%list_elem_of_fmap. apply elem_of_map_to_list in Hi. cbn.
  by destruct (Hc i y Hi) as [-> _].
Qed.

Lemma writes_wrote w c c' : versioned c -> writes w c c' true -> exists new, wrote w c c' new.
Proof.
  intros Hc H. remember true as ok eqn:Hok.
  destruct H as [r row call H Hst Hrow|set added H Hst Hrows Hd|q given r row call found H Hst Hrow
    |q changes row call state row' H Hid].
  - exists [r]. destruct Hst as [Hreg (v & Hv & Hp)]. unfold store in H. destruct (call ≫= _); [done|].
    destruct (swap r (records c)) as [rs|] eqn:Hs; [|done]. injection H as <-.
    apply (swap_spec _ _ _ v Hv) in Hs as [-> Hlt].
    apply (wrote_one w _ _ _ row); try done; [split; eauto|].
    intros x Hx. specialize (Hlt x Hx). unfold ver at 2. by rewrite Hv.
  - exists set. unfold massStore in H. destruct set as [|r0 set0] eqn:Hset.
    { injection H as <-. apply wrote_none. }
    rewrite <- Hset in *. clear Hset r0 set0.
    destruct (swap_all set (records c)) as [rs|] eqn:Hs; [|done]. injection H as <-. cbn [default].
    assert (forall r, r ∈ set -> VERSION r = Some 1 -> records c !! id r = None) as Hn.
    { intros r Hr. rewrite forallb_forall in Hok. specialize (Hok r (proj1 (list_elem_of_In _ _) Hr)).
      by apply bool_decide_eq_true_1 in Hok. }
    destruct (swap_all_spec w set (records c) rs Hs Hst Hd Hn) as [Hin Hout]. split.
    + rewrite says_app. f_equal. revert Hrows. clear. revert added.
      induction set as [|r set IH]; intros [|row added]; cbn; intros Heq; try done.
      injection Heq as Hr Heq. rewrite Hr. cbn. f_equal. by apply IH.
    + done.
    + intros d Hd'. by eapply Forall_forall in Hst.
    + intros d x Hd' Hx. by apply (Hin d Hd').
    + intros d Hd'. by apply Hin.
    + done.
  - unfold ensure in H. destruct (head _) as [r'|]; [injection H as <- <-; exists []; apply wrote_none|].
    destruct (records c !! id r) eqn:Hn; [done|]. injection H as <- <-. exists [r].
    apply (wrote_one w _ _ _ row); try done. intros x. by rewrite Hn.
  - apply bool_decide_eq_true_1 in Hok.
    destruct (upsert_spec _ _ _ _ _ _ _ _ H Hid) as (origin & Ho & Hi & Hv & _ & Hrs & Hrows).
    apply (all_at c origin Hc) in Ho. exists [state].
    destruct (Hc _ _ Ho) as [_ (v & Hov & Hp)].
    apply (wrote_one w _ _ _ (imaged row origin state)); try done.
    + split; [done|]. exists (ver origin + 1). split; [done|]. unfold ver. rewrite Hov. cbn. lia.
    + by rewrite Hi.
    + rewrite Hi, Ho. intros x [= <-]. unfold ver at 2. rewrite Hv. cbn. lia.
Qed.

(** *** The invariant *)

Definition grows (c c' : collections) : Prop :=
  forall i x, records c !! i = Some x -> exists y, records c' !! i = Some y /\ precedes x y.

Lemma wrote_grows w c c' new : wrote w c c' new -> grows c c'.
Proof.
  intros Hw i x Hx. destruct (decide (i ∈ id <$> new)) as [(d & -> & Hd)%list_elem_of_fmap|Hi].
  - exists d. split; [by eapply wrote_held | left; by eapply wrote_newer].
  - exists x. split; [by rewrite (wrote_else _ _ _ _ Hw) | done].
Qed.

Lemma wrote_versioned w c c' new : wrote w c c' new -> versioned c -> versioned c'.
Proof.
  intros Hw Hc i x Hx. destruct (decide (i ∈ id <$> new)) as [(d & -> & Hd)%list_elem_of_fmap|Hi].
  - rewrite (wrote_held _ _ _ _ Hw d Hd) in Hx. simplify_eq. split; [done|].
    destruct (wrote_stated _ _ _ _ Hw x Hd) as [_ (v & ? & ?)]. exists v. split; [done | lia].
  - rewrite (wrote_else _ _ _ _ Hw i Hi) in Hx. by apply Hc.
Qed.

Lemma converge_step w d c :
  versioned c -> stated w d ->
  versioned (converge d c).1 /\ grows c (converge d c).1 /\ says (converge d c).1 = says c /\
  (exists y, records (converge d c).1 !! id d = Some y /\ precedes d y) /\
  (forall i x, records (converge d c).1 !! i = Some x -> i = id d /\ x = d \/ records c !! i = Some x).
Proof.
  intros Hc [Hr (v & Hv & Hp)].
  assert (id (wins d (records c !! id d)) = id d /\
    (exists v, VERSION (wins d (records c !! id d)) = Some v /\ 0 <= v) /\
    precedes d (wins d (records c !! id d)) /\
    (forall x, records c !! id d = Some x -> precedes x (wins d (records c !! id d))) /\
    (wins d (records c !! id d) = d \/ records c !! id d = Some (wins d (records c !! id d)))) as (Hi & Hn & Hd & Hg & Hs).
  { unfold wins. destruct (records c !! id d) as [x|] eqn:Hx.
    - destruct (Hc _ _ Hx) as [Hid (u & Hu & Hu0)].
      pose proof (supersedes_spec x d u v Hu Hv ltac:(eauto)) as Hspec. destruct (supersedes x d).
      + split_and!; eauto; [exists v; split; [done | lia] | done|]. intros y [= <-].
        destruct (precedes_total x d); [done | by destruct (proj1 Hspec eq_refl)].
      + split_and!; eauto.
        * destruct (decide (precedes d x)) as [|Hnp]; [done|]. by apply Hspec in Hnp.
        * intros y [= <-]. done.
    - split_and!; eauto; [exists v; split; [done | lia] | done | done]. }
  rewrite (converge_at d c v Hv Hp). cbn [fst]. split_and!.
  - intros i x. cbn. rewrite lookup_insert_Some. intros [[<- <-]|[_ Hx]]; [by split | by apply Hc].
  - intros i x Hx. cbn. destruct (decide (i = id d)) as [->|Hne].
    + rewrite lookup_insert_eq. eexists. split; [done | by apply Hg].
    + rewrite lookup_insert_ne by done. by exists x.
  - done.
  - cbn. rewrite lookup_insert_eq. by eexists.
  - intros i x. cbn. rewrite lookup_insert_Some. intros [[<- <-]|[_ Hx]]; [|by right].
    destruct Hs as [->|?]; [by left | by right].
Qed.

Record invariant (seed : gmap string record) (s : deployment) : Prop := {
  i_versioned w c : regions s !! w = Some c -> versioned c;
  i_source w c i x : regions s !! w = Some c -> records c !! i = Some x ->
    seed !! i = Some x \/ exists w', told s w' (clone x);
  i_told w d : told s w d -> stated w d /\
    exists c x, regions s !! w = Some c /\ records c !! id d = Some x /\ precedes d x;
  i_once w d d' : told s w d -> told s w d' -> id d = id d' -> VERSION d = VERSION d' -> d = d';
  i_heard r d : (r, d) ∈ heard s ->
    exists c x, regions s !! r = Some c /\ records c !! id d = Some x /\ precedes d x;
  i_later w d x : told s w d -> seed !! id d = Some x -> ver x < ver d;
  i_seed w c i x : regions s !! w = Some c -> seed !! i = Some x ->
    exists y, records c !! i = Some y /\ precedes x y
}.

Lemma told_update s w c' h w' d :
  told (mkDeployment (<[w := c']> (regions s)) h) w' d <->
  (w' = w /\ d ∈ says c') \/ (w' <> w /\ told s w' d).
Proof.
  unfold told. cbn. split.
  - intros (c & [[<- <-]|[? Hc]]%lookup_insert_Some & Hd); [by left | right; split; [done|]; by exists c].
  - intros [[-> Hd]|[Hne (c & Hc & Hd)]]; [exists c'; by rewrite lookup_insert_eq|].
    exists c. by rewrite lookup_insert_ne.
Qed.

(** what was said stays said, and regions hold as much *)
Lemma told_more s w c c' h w' d :
  regions s !! w = Some c -> says c ⊆ says c' -> told s w' d ->
  told (mkDeployment (<[w := c']> (regions s)) h) w' d.
Proof.
  intros Hc Hsub Hd. rewrite told_update. destruct (decide (w' = w)) as [->|]; [|by right].
  left. split; [done|]. destruct Hd as (c0 & Hc0 & Hd). simplify_eq. by apply Hsub.
Qed.

Lemma held_more s w c c' h r i (x : record) :
  regions s !! w = Some c -> grows c c' ->
  (exists c0 y, regions s !! r = Some c0 /\ records c0 !! i = Some y /\ precedes x y) ->
  exists c0 y, regions (mkDeployment (<[w := c']> (regions s)) h) !! r = Some c0 /\
    records c0 !! i = Some y /\ precedes x y.
Proof.
  intros Hc Hg (c0 & y & Hc0 & Hy & Hp). cbn. destruct (decide (r = w)) as [->|Hne].
  - simplify_eq. destruct (Hg i y Hy) as (z & ? & ?). exists c', z. rewrite lookup_insert_eq. split_and!; [done..|by etrans].
  - exists c0, y. by rewrite lookup_insert_ne.
Qed.

Lemma invariant_write seed s w c c' new :
  invariant seed s -> regions s !! w = Some c -> wrote w c c' new ->
  invariant seed (mkDeployment (<[w := c']> (regions s)) (heard s)).
Proof.
  intros Hi Hc Hw. pose proof (wrote_grows _ _ _ _ Hw) as Hg.
  assert (says c ⊆ says c') as Hsub by (rewrite (wrote_says _ _ _ _ Hw); set_solver).
  assert (forall d, d ∈ says c' -> told s w d \/ exists d', d' ∈ new /\ d = clone d') as Hnew.
  { intros d. rewrite (wrote_says _ _ _ _ Hw), elem_of_app, list_elem_of_fmap.
    intros [?|(d' & ? & ?)]; [left; by exists c | right; eauto]. }
  assert (forall d d', told s w d -> d' ∈ new -> id d = id d' -> ver d < ver d') as Hlt.
  { intros d d' Hd Hd' Heq. destruct (i_told _ _ Hi w d Hd) as [_ (c0 & x & Hc0 & Hx & Hp)]. simplify_eq.
    rewrite Heq in Hx. pose proof (wrote_newer _ _ _ _ Hw d' x Hd' Hx). unfold precedes in Hp. lia. }
  split.
  - intros w' c0. cbn. intros [[<- <-]|[_ H]]%lookup_insert_Some; [|by eapply i_versioned].
    eapply wrote_versioned; [done | by eapply i_versioned].
  - intros w' c0 i x. cbn. intros Hc0 Hx.
    assert ((exists w c, regions s !! w = Some c /\ records c !! i = Some x) \/ w' = w /\ x ∈ new) as [(u & cu & Hu & Hxu)|[-> Hx']].
    { apply lookup_insert_Some in Hc0 as [[<- <-]|[_ Hc0]]; [|eauto].
      destruct (decide (i ∈ id <$> new)) as [(d & -> & Hd)%list_elem_of_fmap|Hn].
      - rewrite (wrote_held _ _ _ _ Hw d Hd) in Hx. simplify_eq. by right.
      - rewrite (wrote_else _ _ _ _ Hw i Hn) in Hx. eauto. }
    + destruct (i_source _ _ Hi u cu i x Hu Hxu) as [?|(w1 & ?)]; [by left|]. right. exists w1.
      by eapply told_more.
    + right. exists w. rewrite told_update. left. split; [done|]. rewrite (wrote_says _ _ _ _ Hw).
      apply elem_of_app. right. by apply list_elem_of_fmap_2.
  - intros w' d [[-> Hd]|[Hne Hd]]%told_update.
    + destruct (Hnew d Hd) as [Ht|(d' & Hd' & ->)].
      * destruct (i_told _ _ Hi w d Ht) as [? ?]. split; [done|]. by eapply held_more.
      * split; [exact (wrote_stated _ _ _ _ Hw d' Hd')|]. exists c', d'. cbn. rewrite lookup_insert_eq.
        split_and!; [done | exact (wrote_held _ _ _ _ Hw d' Hd') | right; split; [done | reflexivity]].
    + destruct (i_told _ _ Hi w' d Hd) as [? ?]. split; [done|]. by eapply held_more.
  - intros w' d e [[-> Hd]|[Hne Hd]]%told_update [[? He]|[? He]]%told_update Hid Hv; try done;
      [|by eapply i_once].
    destruct (Hnew d Hd) as [Ht|(d' & Hd' & ->)], (Hnew e He) as [Hu|(e' & He' & ->)].
    + by eapply i_once.
    + specialize (Hlt d e' Ht He' Hid). unfold ver in Hlt. change (VERSION d = VERSION e') in Hv. rewrite Hv in Hlt. lia.
    + specialize (Hlt e d' Hu Hd' (eq_sym Hid)). unfold ver in Hlt. change (VERSION d' = VERSION e) in Hv. rewrite Hv in Hlt. lia.
    + assert (Some d' = Some e') as [= ->]; [|done].
      rewrite <- (wrote_held _ _ _ _ Hw d' Hd'), <- (wrote_held _ _ _ _ Hw e' He'). by f_equal.
  - intros r d Hd. eapply held_more; [done..|]. by eapply i_heard.
  - intros w' d x [[-> Hd]|[Hne Hd]]%told_update Hx; [|by eapply i_later].
    destruct (Hnew d Hd) as [Ht|(d' & Hd' & ->)]; [by eapply i_later|].
    destruct (i_seed _ _ Hi w c _ x Hc Hx) as (y & Hy & Hp). 
    pose proof (wrote_newer _ _ _ _ Hw d' y Hd' Hy). unfold precedes in Hp. change (ver (clone d')) with (ver d'). lia.
  - intros w' c0 i x Hc0 Hx. 
    assert (exists c1 y, regions (mkDeployment (<[w := c']> (regions s)) (heard s)) !! w' = Some c1 /\
      records c1 !! i = Some y /\ precedes x y) as (c1 & y & Hc1 & ? & ?).
    { eapply held_more; [done..|]. cbn in Hc0.
      assert (is_Some (regions s !! w')) as [c1 Hc1].
      { apply lookup_insert_Some in Hc0 as [[<- <-]|[_ ?]]; eauto. }
      destruct (i_seed _ _ Hi w' c1 i x Hc1 Hx) as (y & ? & ?). by exists c1, y. }
    cbn in Hc0, Hc1. simplify_eq. by exists y.
Qed.

Lemma invariant_deliver seed s w r d c :
  invariant seed s -> told s w d -> regions s !! r = Some c ->
  invariant seed (mkDeployment (<[r := (converge d c).1]> (regions s)) ((r, d) :: heard s)).
Proof.
  intros Hi Hd Hc. destruct (i_told _ _ Hi w d Hd) as [Hst _].
  destruct (converge_step w d c (i_versioned _ _ Hi r c Hc) Hst) as (Hv & Hg & Hs & Hh & Hfrom).
  set (c' := (converge d c).1) in *. set (s' := mkDeployment _ _).
  assert (forall w' e, told s' w' e <-> told s w' e) as Ht.
  { intros w' e. unfold s'. rewrite told_update, Hs. split; [intros [[-> ?]|[_ ?]]; [by exists c | done]|].
    destruct (decide (w' = r)) as [->|]; [|by right]. intros (c0 & ? & ?). simplify_eq. by left. }
  assert (forall r i x, (exists c0 y, regions s !! r = Some c0 /\ records c0 !! i = Some y /\ precedes x y) ->
    exists c0 y, regions s' !! r = Some c0 /\ records c0 !! i = Some y /\ precedes x y) as Hm
    by (intros; by eapply held_more).
  split.
  - intros w' c0. cbn. intros [[<- <-]|[_ H]]%lookup_insert_Some; [done | by eapply i_versioned].
  - intros w' c0 i x. cbn. intros Hc0 Hx. setoid_rewrite Ht.
    apply lookup_insert_Some in Hc0 as [[<- <-]|[_ Hc0]]; [|by eapply i_source].
    destruct (Hfrom i x Hx) as [[-> ->]|?]; [|by eapply i_source].
    right. exists w. destruct Hd as (c0 & ? & Hin). exists c0. split; [done|].
    revert Hin. unfold says. rewrite list_elem_of_omap. intros (row & Hrow & He).
    apply list_elem_of_omap. exists row. split; [done|]. destruct (e_state (event row)); [|done].
    cbn in He. by injection He as <-.
  - intros w' e He%Ht. destruct (i_told _ _ Hi w' e He) as [? ?]. split; [done|]. by apply Hm.
  - intros w' e e' He%Ht He'%Ht. by eapply i_once.
  - intros r' e. cbn. intros [[= -> ->]|Hin]%elem_of_cons; [|by apply Hm, (i_heard _ _ Hi)].
    destruct Hh as (y & ? & ?). exists c', y. by rewrite lookup_insert_eq.
  - intros w' e x He%Ht. by eapply i_later.
  - intros w' c0 i x Hc0 Hx.
    change (<[r := c']> (regions s) !! w' = Some c0) in Hc0.
    assert (is_Some (regions s !! w')) as [c1 Hc1] by (apply lookup_insert_Some in Hc0 as [[<- <-]|[_ ?]]; eauto).
    destruct (i_seed _ _ Hi w' c1 i x Hc1 Hx) as (y & ? & ?).
    destruct (Hm w' i x) as (c2 & z & Hc2 & ? & ?); [by exists c1, y|]. cbn in Hc0, Hc2. simplify_eq. by exists z.
Qed.

Lemma invariant_copies seed s : copies seed s -> invariant seed s.
Proof.
  intros (Hh & Hc & Hs).
  assert (forall w d, ~ told s w d) as Hn.
  { intros w d (c & Hw & Hd). unfold says in Hd. rewrite (proj2 (Hc w c Hw)) in Hd. by apply elem_of_nil in Hd. }
  split; try (intros; exfalso; by eapply Hn).
  - intros w c Hw i x. rewrite (proj1 (Hc w c Hw)). apply Hs.
  - intros w c i x Hw. rewrite (proj1 (Hc w c Hw)). by left.
  - intros r d. rewrite Hh. by intros ?%elem_of_nil.
  - intros w c i x Hw Hx. exists x. by rewrite (proj1 (Hc w c Hw)).
Qed.

Lemma invariant_reached seed s s' : copies seed s -> rtc (step true) s s' -> invariant seed s'.
Proof.
  intros Hc%invariant_copies Hr. induction Hr as [|s s1 s2 Hst Hr IH]; [done|]. apply IH.
  destruct Hst as [s w c c' ok Hw Hwr Hok|s w r d c _ Hd Hcr].
  - rewrite (Hok eq_refl) in Hwr.
    destruct (writes_wrote w c c' (i_versioned _ _ Hc w c Hw) Hwr) as [new Hn].
    by apply (invariant_write seed s w c c' new).
  - by apply (invariant_deliver seed s w r d c).
Qed.

(** what a region has is in every other, or superseded there, once everything was delivered *)
Lemma settled_holds seed s r c i x r' c' :
  invariant seed s -> settled s -> regions s !! r = Some c -> records c !! i = Some x ->
  regions s !! r' = Some c' -> exists y, records c' !! i = Some y /\ precedes x y.
Proof.
  intros Hi Hse Hc Hx Hc'. destruct (i_source _ _ Hi r c i x Hc Hx) as [Hseed|[w Hw]].
  { by eapply i_seed. }
  assert (id x = i) as Hid by apply (i_versioned _ _ Hi r c Hc i x Hx).
  assert (exists c0 y, regions s !! r' = Some c0 /\ records c0 !! id x = Some y /\ precedes (clone x) y) as (c0 & y & Hc0 & Hy & Hp).
  { destruct (decide (r' = w)) as [->|Hne]; [by apply (i_told _ _ Hi) in Hw as [_ ?]|].
    apply (i_heard _ _ Hi r' (clone x)). apply (Hse w); eauto. }
  simplify_eq. by exists y.
Qed.

(** records as good as each other are one *)
Lemma same_record seed s r r' c c' i x y :
  invariant seed s -> regions s !! r = Some c -> regions s !! r' = Some c' ->
  records c !! i = Some x -> records c' !! i = Some y -> precedes x y -> precedes y x -> clone x = clone y.
Proof.
  intros Hi Hc Hc' Hx Hy Hxy Hyx. assert (ver x = ver y /\ rank_ x = rank_ y) as [Hv Hr] by (unfold precedes in *; lia).
  destruct (i_versioned _ _ Hi r c Hc i x Hx) as [Hidx (u & Hu & _)].
  destruct (i_versioned _ _ Hi r' c' Hc' i y Hy) as [Hidy (v & Hv' & _)].
  destruct (i_source _ _ Hi r c i x Hc Hx) as [Hsx|[w Hw]], (i_source _ _ Hi r' c' i y Hc' Hy) as [Hsy|[w' Hw']].
  - congruence.
  - pose proof (i_later _ _ Hi w' (clone y) x Hw') as Hl. change (seed !! id y = Some x -> ver x < ver y) in Hl.
    rewrite Hidy in Hl. specialize (Hl Hsx). lia.
  - pose proof (i_later _ _ Hi w (clone x) y Hw) as Hl. change (seed !! id x = Some y -> ver y < ver x) in Hl.
    rewrite Hidx in Hl. specialize (Hl Hsy). lia.
  - destruct (i_told _ _ Hi w _ Hw) as [[Hrx _] _], (i_told _ _ Hi w' _ Hw') as [[Hry _] _]. cbn in Hrx, Hry.
    unfold rank_ in Hr. rewrite Hrx, Hry in Hr. cbn in Hr. subst w'.
    apply (i_once _ _ Hi w); [done..| |]; cbn; [congruence|]. unfold ver in Hv. rewrite Hu, Hv' in *. cbn in Hv. congruence.
Qed.

(** ** Properties *)

(** C11: Regions that share nothing but copies of one database end with the same records. Whatever they
    write, and in whatever order and however often what they commit reaches the others, once
    everything has reached everybody no two of them differ in a record; provided that every write is
    as its row says, which an assignment to a record of another region's, and a revival in a set, are
    not. *)
Theorem regions_converge seed s s' :
  copies seed s -> rtc (step true) s s' -> settled s' ->
  forall r c r' c', regions s' !! r = Some c -> regions s' !! r' = Some c' ->
    clone <$> records c = clone <$> records c'.
Proof.
  intros Hc Hr Hse r c r' c' Hrc Hrc'. pose proof (invariant_reached _ _ _ Hc Hr) as Hi.
  assert (forall r c r' c' i x, regions s' !! r = Some c -> regions s' !! r' = Some c' -> records c !! i = Some x ->
    exists y, records c' !! i = Some y /\ clone x = clone y) as Hsame.
  { clear r c r' c' Hrc Hrc'. intros r c r' c' i x Hrc Hrc' Hx.
    destruct (settled_holds seed s' r c i x r' c') as (y & Hy & Hxy); [done..|].
    destruct (settled_holds seed s' r' c' i y r c) as (z & Hz & Hyz); [done..|]. simplify_eq.
    exists y. split; [done|]. by apply (same_record seed s' r r' c c' i). }
  apply map_eq. intros i. rewrite !lookup_fmap. destruct (records c !! i) as [x|] eqn:Hx.
  - destruct (Hsame r c r' c' i x) as (y & -> & Heq); [done..|]. cbn. by rewrite Heq.
  - destruct (records c' !! i) as [y|] eqn:Hy; [|done].
    destruct (Hsame r' c' r c i y) as (z & Hz & _); [done..|]. congruence.
Qed.

(** Assignments part regions. Two regions that hold a record as one assign to it at once: both come
    to the next version of it, and neither write says which region made it, so that each region turns
    the other's record down as stale, and they differ until somebody writes again. *)
Theorem assigned_apart qa qb ca cb pa pb ra rb ka kb ca' cb' xa xb ra' rb' :
  upsert matches output_of qa pa (Some ra) ka ca = (ca', Ok (Some (xa, ra'))) ->
  upsert matches output_of qb pb (Some rb) kb cb = (cb', Ok (Some (xb, rb'))) ->
  p_id pa = None -> p_REGION pa = None -> p_id pb = None -> p_REGION pb = None ->
  versioned ca -> versioned cb -> id xa = id xb -> records ca !! id xa = records cb !! id xa ->
  (exists x, records ca !! id xa = Some x /\ is_Some (REGION x)) ->
  clone xa ∈ says ca' /\ clone xb ∈ says cb' /\
  converge (clone xb) ca' = (ca', Ok false) /\ converge (clone xa) cb' = (cb', Ok false) /\
  records ca' !! id xa = Some xa /\ records cb' !! id xa = Some xb.
Proof.
  intros Ha Hb Hpa Hga Hpb Hgb Hva Hvb Hid Hsame (x & Hx & Hrx).
  destruct (upsert_spec _ _ _ _ _ _ _ _ Ha Hpa) as (oa & Hoa & Hia & Hna & Hra & Hrsa & Hrowsa).
  destruct (upsert_spec _ _ _ _ _ _ _ _ Hb Hpb) as (ob & Hob & Hib & Hnb & Hrb & Hrsb & Hrowsb).
  apply (all_at _ _ Hva) in Hoa. apply (all_at _ _ Hvb) in Hob.
  assert (oa = ob) as <- by (rewrite <- Hib, <- Hid in Hob; rewrite <- Hia in Hoa; congruence).
  assert (oa = x) as <- by (rewrite <- Hia in Hoa; congruence).
  specialize (Hra Hga). specialize (Hrb Hgb).
  assert (records ca' !! id xa = Some xa) as Hxa by (rewrite Hrsa, Hia; apply lookup_insert_eq).
  assert (records cb' !! id xa = Some xb) as Hxb by (rewrite Hrsb, Hia; apply lookup_insert_eq).
  assert (forall y z, VERSION y = VERSION z -> REGION y = REGION z -> precedes y z) as Hp.
  { intros y z Hv Hr. right. unfold ver, rank_. rewrite Hv, Hr. lia. }
  split_and!; try done.
  - unfold says. rewrite Hrowsa, omap_app. apply elem_of_app. right. by apply list_elem_of_singleton.
  - unfold says. rewrite Hrowsb, omap_app. apply elem_of_app. right. by apply list_elem_of_singleton.
  - eapply (converge_stale _ _ xa); [cbn; by rewrite <- Hid | done | done | cbn; by rewrite Hrb |].
    apply Hp; cbn; congruence.
  - eapply (converge_stale _ _ xb); [done | done | done | cbn; by rewrite Hra |]. apply Hp; cbn; congruence.
Qed.

(** A tombstone revived in a set is revived in its own region alone: it is held a version on from
    the tombstone, and what is sent of it is the first version, which every region that holds the
    tombstone turns down. *)
Theorem revived_alone r row c c' c2 old v :
  massStore [r] (Some [row]) c = (c', Ok true) -> VERSION r = Some 1 -> is_Some (REGION r) ->
  e_state (event row) = Some r -> records c !! id r = Some old -> VERSION old = Some v -> 1 < v ->
  records c2 !! id r = Some old ->
  clone r ∈ says c' /\ converge (clone r) c2 = (c2, Ok false) /\
  exists x, records c' !! id r = Some x /\ VERSION x = Some (v + 1) /\ DELETED x = None.
Proof.
  intros H Hv Hr Hrow Ho Hov Hlt Ho2. unfold massStore in H. cbn [swap_all] in H.
  unfold swap_one in H. rewrite decide_True in H by done. rewrite Ho in H.
  destruct (live old); [done|]. injection H as <-. split_and!.
  - unfold says. cbn [rows default]. rewrite omap_app. apply elem_of_app. right. cbn. rewrite Hrow.
    by apply list_elem_of_singleton.
  - eapply (converge_stale _ _ old); [done | done | done | done |]. left. unfold ver. cbn. rewrite Hv, Hov. done.
  - eexists. cbn. rewrite lookup_insert_eq. split; [done|]. cbn. rewrite Hov. cbn. by rewrite Hv.
Qed.
End regions.

(** what became of the record is no matter to what the change wrote beside it *)
Lemma accept_imported REGION_ destinations document carried c c' a r w :
  VERSION document = Some w -> 1 <= w ->
  accept REGION_ (Some destinations) document (Some carried) c = (c', a, r) ->
  imported a = handed_over destinations carried /\ r = import destinations carried.
Proof.
  intros Hw Hp. unfold accept. rewrite (converge_at _ _ w Hw Hp). by intros [= <- <- <-].
Qed.

Lemma import_fails destinations carried e :
  import destinations carried = Throw e <-> head (omap rejected (omap (import_one destinations) carried)) = Some e.
Proof. unfold import. destruct (head _); naive_solver. Qed.

(** A delivery that failed is made again to no effect on the record: it is stale by then, nothing is
    written, and every part is imported again, which is what fails or not once more. *)
Theorem redelivered_stale w REGION_ regional document carried c c' a r :
  versioned c -> stated w document ->
  accept REGION_ regional document carried c = (c', a, r) ->
  accept REGION_ regional document carried c' = (c', mkAcceptance (misranked a) false (imported a), r).
Proof.
  intros Hc Hst. destruct (converge_step w document c Hc Hst) as (Hv & _ & _ & (y & Hy & Hp) & _).
  destruct Hst as [Hr (v & Hver & Hpos)]. intros Ha. assert (c' = (converge document c).1) as ->.
  { revert Ha. unfold accept. destruct (converge document c) as [c1 [ok|e]]; [destruct carried, regional|]; by intros [= <- _ _]. }
  destruct (Hv _ _ Hy) as [_ (u & Hu & _)].
  pose proof (converge_stale document (converge document c).1 y u v Hy Hu Hver ltac:(eauto) Hp) as Hstale.
  unfold accept in *. rewrite Hstale. rewrite (converge_at _ _ v Hver Hpos) in Ha.
  destruct carried, regional; by injection Ha as <- <-.
Qed.

(** a destination whose storage stood down sends nothing, and no storage after is decorated for it *)
Lemma stood_down component trace row f :
  let '(f, d) := destination true true component f in
  let '(f, s) := storage true false component f in
  s = Untouched true /\ (d ≫= fun d => made f !! d ≫= fun d => emit trace d row) = None /\
  (storage true true component f).2 = Untouched false.
Proof.
  unfold destination, storage. cbn. rewrite lookup_insert_eq. cbn. split; [done|]. split.
  - by rewrite list_lookup_alter, decide_True, lookup_app_r, Nat.sub_diag by lia.
  - by rewrite delete_insert_eq, lookup_delete_eq.
Qed.

(** ** Two regions *)

Module Pair.
Definition matches (_ : Node) (_ : record) : bool := true.
Definition output_of (r : record) : output := Value (VString (id r)).
Definition same (_ _ : value) : bool := false.
Definition quiet : collections := mkCollections ∅ ∅ [].

Definition draft (region version : Z) (text : string) : record :=
  mkRecord "1" (Some version) (Some 1) (Some 2) None (Some region) None None {["text" := VString text]}.
Definition row_of (r : record) : Row := mkRow "row" 0 false 0 [] None None (mkEvent None (Some r) None (VObject [])).

Definition r1 : record := draft 1 1 "hello".
Definition c1 : collections := mkCollections (<["1" := r1]> ∅) ∅ [row_of r1].
Definition start : deployment := mkDeployment (<[0 := quiet]> (<[1 := quiet]> ∅)) [].
Definition sent : deployment := mkDeployment (<[1 := c1]> (regions start)) [].
Definition told_all : deployment := mkDeployment (<[0 := (converge r1 quiet).1]> (regions sent)) [(0, r1)].

Lemma start_copies : copies ∅ start.
Proof.
  split_and!; [done| |by intros].
  intros w c. unfold start. cbn. rewrite !lookup_insert_Some, lookup_empty. by intros [[_ <-]|[_ [[_ <-]|[_ ?]]]].
Qed.

Lemma sent_told : told sent 1 r1.
Proof. exists c1. split; [apply lookup_insert_eq | set_solver]. Qed.

Lemma wrote_first : writes matches output_of same 1 quiet c1 true.
Proof.
  apply (stored _ _ _ 1 quiet c1 r1 (row_of r1) None); [|split; [done | exists 1; done] | done].
  assert (swap r1 (records quiet) = Some (<["1" := r1]> ∅)) as Hs.
  { unfold swap, quiet. cbn [records]. by rewrite decide_True, lookup_empty by done. }
  unfold store. cbn [mbind option_bind]. by rewrite Hs.
Qed.

Lemma regions_ran : rtc (step matches output_of same true) start told_all.
Proof.
  apply (rtc_l _ _ sent).
  - apply (step_write _ _ _ true start 1 quiet c1 true); [reflexivity | exact wrote_first | done].
  - apply rtc_once. apply (step_deliver _ _ _ true sent 1 0 r1 quiet); [done | exact sent_told | reflexivity].
Qed.

Lemma told_all_settled : settled told_all.
Proof.
  intros w d r (c & Hc & Hd) Hne [c' Hc']. cbn in Hc, Hc'.
  rewrite !lookup_insert_Some, lookup_empty in Hc. rewrite !lookup_insert_Some, lookup_empty in Hc'.
  destruct Hc as [[<- <-]|[_ [[<- <-]|[_ [[<- <-]|[_ [[<- <-]|[_ ?]]]]]]]]; try done;
    try (by apply elem_of_nil in Hd); apply list_elem_of_singleton in Hd as ->;
    destruct Hc' as [[<- _]|[_ [[<- _]|[_ [[<- _]|[_ [[<- _]|[_ ?]]]]]]]]; try done; set_solver.
Qed.

Lemma regions_converge_witness : clone <$> records (converge r1 quiet).1 = clone <$> records c1.
Proof.
  apply (regions_converge matches output_of same ∅ start told_all start_copies regions_ran told_all_settled 0 _ 1 c1);
    [apply lookup_insert_eq | reflexivity].
Defined.

Definition held : collections := mkCollections (<["1" := draft 0 1 "hello"]> ∅) ∅ [].
Definition said (text : string) : patch := mkPatch None None None (Some 3) None None {["text" := VString text]}.
Definition any : Query := mkQuery None None None None None None.
Definition empty_row : Row := mkRow "row" 0 false 0 [] None None (mkEvent None None None (VObject [])).
Definition after (text : string) : record :=
  assign (assign (draft 0 1 "hello") (mkPatch None None None (Some 3) (Some None) None {["text" := VString text]}))
    (mkPatch None (Some 2) None None None None ∅).
Definition assigned_ (text : string) : collections :=
  mkCollections (<["1" := after text]> (records held)) ∅ [imaged empty_row (draft 0 1 "hello") (after text)].

Lemma held_versioned : versioned held.
Proof.
  intros i x. cbn. rewrite lookup_insert_Some, lookup_empty. intros [[<- <-]|[_ ?]]; [|done].
  split; [done | by exists 1].
Qed.

Lemma all_held : all held = [draft 0 1 "hello"].
Proof. unfold all. cbn. by rewrite insert_empty, map_to_list_singleton. Qed.

Lemma assigned_once text :
  upsert matches output_of any (said text) (Some empty_row) None held =
  (assigned_ text, Ok (Some (after text, Some (imaged empty_row (draft 0 1 "hello") (after text))))).
Proof. unfold upsert. rewrite all_held. reflexivity. Qed.

Lemma after_id text : id (after text) = "1".
Proof. reflexivity. Qed.

Lemma after_text text : properties (after text) !! "text" = Some (VString text).
Proof.
  unfold after, assign. cbn [properties p_properties]. rewrite (left_id_L ∅ (∪)).
  apply lookup_union_Some_l, lookup_singleton_eq.
Qed.

Lemma assigned_apart_witness :
  converge (clone (after "theirs")) (assigned_ "ours") = (assigned_ "ours", Ok false) /\
  converge (clone (after "ours")) (assigned_ "theirs") = (assigned_ "theirs", Ok false) /\
  properties (after "ours") !! "text" = Some (VString "ours") /\
  properties (after "theirs") !! "text" = Some (VString "theirs").
Proof.
  destruct (assigned_apart matches output_of any any held held (said "ours") (said "theirs") empty_row empty_row
    None None (assigned_ "ours") (assigned_ "theirs") (after "ours") (after "theirs") _ _
    (assigned_once "ours") (assigned_once "theirs") eq_refl eq_refl eq_refl eq_refl held_versioned held_versioned
    (eq_trans (after_id "ours") (eq_sym (after_id "theirs"))) eq_refl) as (_ & _ & H1 & H2 & _).
  - exists (draft 0 1 "hello"). rewrite after_id. split; [apply lookup_insert_eq | by exists 0].
  - exact (conj H1 (conj H2 (conj (after_text "ours") (after_text "theirs")))).
Defined.

Definition tombstone : record := mkRecord "1" (Some 2) (Some 1) (Some 2) (Some 2) (Some 0) None None ∅.
Definition buried : collections := mkCollections (<["1" := tombstone]> ∅) ∅ [].
Definition risen : record := draft 0 1 "again".

Lemma revived_alone_witness : converge (clone risen) buried = (buried, Ok false).
Proof.
  assert (exists c', massStore [risen] (Some [row_of risen]) buried = (c', Ok true)) as [c' Hc'].
  { eexists. unfold massStore. cbn [swap_all]. unfold swap_one. rewrite decide_True by reflexivity.
    unfold buried at 1. cbn [records]. rewrite (lookup_insert_eq _ "1"). cbn. reflexivity. }
  apply (revived_alone risen (row_of risen) buried c' buried tombstone 2 Hc');
    first [reflexivity | apply lookup_insert_eq | lia | by eexists].
Defined.

Lemma redelivered_stale_witness :
  accept 0 None r1 None (converge r1 quiet).1 = ((converge r1 quiet).1, mkAcceptance false false [], Ok tt).
Proof.
  apply (redelivered_stale 1 0 None r1 None quiet _ (mkAcceptance false true []) (Ok tt));
    [by intros i x; cbn; rewrite lookup_empty | split; [reflexivity | exists 1; done] | reflexivity].
Defined.
End Pair.
