(* ===== verification/Throttle.v ===== *)
(** * Throttle

    [extensions/exposition/source/directives/io/lib/throttle/] ([Configuration.ts], [Keys.ts],
    [components/], [conditions/], [Quotas.ts], [Sync.ts]): what requests of a key are admitted, by the
    moment the key would be out of debt, and how the processes of a group tell each other what they
    have admitted.

    Moments are whole milliseconds. What is divided by the number of requests is a rational here and a
    double in the code, which is the one thing rounded that is not rounded here. *)
From Stdlib Require Import QArith Qround Lqa.
From S2P Require Import Prelude.

Open Scope Z_scope.

(** ** Configuration *)

Definition mapKey (declaration : value) : list (string * option value) :=
  let entries := match declaration with VArray vs => vs | _ => [declaration] end in
  flat_map (fun entry =>
    match entry with
    | VString method => [(method, None)]
    | VObject fields => (fun '(method, options) => (method, Some options)) <$> fields
    | _ => []
    end) entries.

Definition fields_of (v : value) : list (string * value) := match v with VObject fields => fields | _ => [] end.

Definition mapCondition (declaration : option value) : option (list (string * value)) :=
  (fun declaration =>
    let conditions := match declaration with VArray vs => vs | _ => [declaration] end in
    foldl (fun acc condition => assign_all acc (fields_of condition)) [] conditions) <$> declaration.

Record Declaration := mkDeclaration {
  d_key : value;
  d_condition : option value;
  d_requests : Z;
  d_interval : Z
}.

Record Configuration := mkConfiguration {
  key : list (string * option value);
  condition : option (list (string * value));
  requests : Z;
  interval : Z
}.

Definition parse (d : Declaration) : Configuration :=
  mkConfiguration (mapKey (d_key d)) (mapCondition (d_condition d)) (d_requests d) (d_interval d * 1000).

(** ** Keys *)

(** what is read of a request: the same one at its check and its settling *)
Record Context := mkContext {
  request : nat;
  ip : option string;
  pathname : string;
  identity : option string
}.

Inductive component := Path | IP | Route (route : string) | Identity | Segment (name : string).

Definition component_get (c : component) (context : Context) (parameters : list (string * string)) : option string :=
  match c with
  | Path => Some (pathname context)
  | IP => ip context
  | Route route => Some route
  | Identity => Some (default "" (identity context))
  | Segment name => Some (default "" (own parameters name))
  end.

Definition component_of (route : string) (rule : string * option value) : result string component :=
  match rule with
  | ("ip", _) => Ok IP
  | ("path", _) => Ok Path
  | ("route", _) => Ok (Route route)
  | ("identity", _) => Ok Identity
  | ("segment", Some (VString name)) => Ok (Segment name)
  | ("segment", _) => Throw "Throttle segment must be a string"
  | _ => Throw "Components[rule.method] is not a constructor"
  end.

Definition condition_of (rule : string * value) : result string Z :=
  match rule with
  | ("status", VNumber status) => Ok status
  | ("status", _) => Throw "Status must be a number"
  | _ => Throw "Conditions[rule.method] is not a constructor"
  end.

Record Keys := mkKeys { components : list component; conditions : option (list Z) }.

Definition create_keys (componentRules : list (string * option value))
    (conditionRules : option (list (string * value))) (route : string) : result string Keys :=
  components ← mapM (component_of route) componentRules;
  match conditionRules with
  | None => Ok (mkKeys components None)
  | Some rules => conditions ← mapM condition_of rules; Ok (mkKeys components (Some conditions))
  end.

(** what is fed to the hash: the parts one after another, and nothing where a component has none *)
Fixpoint fed (cs : list component) (context : Context) (parameters : list (string * string)) : option string :=
  match cs with
  | [] => Some ""
  | c :: cs =>
      part ← component_get c context parameters;
      rest ← fed cs context parameters;
      Some (part +:+ rest)
  end.

(** the status an output is settled with, if there is one *)
Definition matches (keys : Keys) (status : option Z) : bool :=
  match conditions keys with
  | None => true
  | Some conditions => forallb (fun expected => bool_decide (status = Some expected)) conditions
  end.

(** ** Quotas *)

Record Entry := mkEntry { tat : Q; debt : Q }.

Record Quotas := mkQuotas {
  keys : Keys;
  emission : Q;
  capacity : Q;
  conditional : bool;
  prefix : string;
  period : Q;
  entries : gmap string Entry;
  (** [WeakMap]: the keys of the requests under way *)
  keyed : gmap nat string
}.

Definition MIN_PERIOD : Q := 250.
Definition MAX_PERIOD : Q := 2000.

Definition larger (a b : Q) : Q := if Qle_bool a b then b else a.
Definition smaller (a b : Q) : Q := if Qle_bool a b then a else b.

Definition period_of (interval : Z) : Q :=
  smaller (larger (inject_Z interval / 10) MIN_PERIOD) MAX_PERIOD.

Definition make (keys : Keys) (requests interval : Z) (conditional : bool) (name : option string) : Quotas :=
  mkQuotas keys (inject_Z interval / inject_Z requests) (inject_Z interval) conditional
    (match name with
     | None => "t:" +:+ show requests +:+ ":" +:+ show interval +:+ ":"
     | Some name => name +:+ ":"
     end) (period_of interval) ∅ ∅.

Definition create (configuration : Configuration) (route : string) : result string Quotas :=
  keys ← create_keys (key configuration) (condition configuration) route;
  Ok (make keys (requests configuration) (interval configuration) (bool_decide (is_Some (condition configuration))) None).

Definition with_entries (f : gmap string Entry -> gmap string Entry) (q : Quotas) : Quotas :=
  mkQuotas (keys q) (emission q) (capacity q) (conditional q) (prefix q) (period q) (f (entries q)) (keyed q).

Definition with_key (request : nat) (key : string) (q : Quotas) : Quotas :=
  mkQuotas (keys q) (emission q) (capacity q) (conditional q) (prefix q) (period q) (entries q) (<[request := key]> (keyed q)).

(** [Math.max(entry?.tat ?? now, now)] *)
Definition arrival (q : Quotas) (key : string) (now : Z) : Q :=
  larger (default (inject_Z now) (tat <$> entries q !! key)) (inject_Z now).

Definition charge (key : string) (at_ : Q) (q : Quotas) : Quotas :=
  with_entries (fun es =>
    match es !! key with
    | None => <[key := mkEntry (at_ + emission q) (emission q)]> es
    | Some entry => <[key := mkEntry (at_ + emission q) (debt entry + emission q)]> es
    end) q.

Section quotas.
Context (sha256 : string -> string).

Definition keys_get (keys : Keys) (context : Context) (parameters : list (string * string)) : option string :=
  sha256 <$> fed (components keys) context parameters.

(** the seconds to wait, zero where the request is admitted *)
Definition check (now : Z) (context : Context) (parameters : list (string * string)) (q : Quotas) : Quotas * Z :=
  match keys_get (keys q) context parameters with
  | None => (q, 0)
  | Some key =>
      let q := with_key (request context) key q in
      let tat := arrival q key now in
      let admit_ := (tat + emission q - capacity q)%Q in
      if negb (Qle_bool admit_ (inject_Z now)) then (q, Qceiling ((admit_ - inject_Z now) / 1000))
      else (if conditional q then q else charge key tat q, 0)
  end.

Definition use (now : Z) (context : Context) (status : option Z) (q : Quotas) : Quotas :=
  if negb (conditional q) || negb (matches (keys q) status) then q
  else
    match (match keyed q !! request context with Some key => Some key | None => keys_get (keys q) context [] end) with
    | None => q
    | Some key => charge key (arrival q key now) q
    end.

(** [Math.round] *)
Definition round (q : Q) : Z := Qfloor (q + (1 # 2)).

(** what is worth reporting, and what is left once what has gone quiet is dropped *)
Definition flush (now : Z) (q : Quotas) : list (string * Z) * Quotas :=
  (omap (fun '(key, entry) => if 0 <? round (debt entry) then Some (key, round (debt entry)) else None)
     (map_to_list (entries q)),
   with_entries (filter (fun '(_, entry) =>
     0 < round (debt entry) \/ Qle_bool (tat entry) (inject_Z now) = false)) q).

Definition settled (key : string) (delta : Z) (debt_ : Z) (now : Z) (q : Quotas) : Quotas :=
  with_entries (fun es =>
    match es !! key with
    | None => if 0 <? debt_ then <[key := mkEntry (inject_Z (now + debt_)) 0]> es else es
    | Some entry =>
        <[key := mkEntry (larger (tat entry) (inject_Z (now + debt_))) (debt entry - inject_Z delta)]> es
    end) q.

Definition name (q : Quotas) (key : string) : string := prefix q +:+ key.

(** ** Sync *)

Record Batch := mkBatch { quotas : nat; b_key : string; delta : Z }.

Record Sync := mkSync { all : list Quotas; pace : option Q; reconciling : bool }.

(** a timer is started again where the pace quickens *)
Definition register (q : Quotas) (s : Sync) : Sync :=
  mkSync (all s ++ [q])
    (match pace s with
     | Some p => Some (if Qle_bool p (period q) then p else period q)
     | None => Some (period q)
     end) (reconciling s).

Definition tick (now : Z) (s : Sync) : Sync * list Batch :=
  if reconciling s then (s, [])
  else
    let flushed := flush now <$> all s in
    let batch := concat (imap (fun i '(reported, _) => (fun '(k, d) => mkBatch i k d) <$> reported) flushed) in
    (mkSync (snd <$> flushed) (pace s) (match batch with [] => false | _ => true end), batch).

(** what the group is told, under which names *)
Definition told (s : Sync) (batch : list Batch) : list (string * Z) :=
  omap (fun b => (fun q => (name q (b_key b), delta b)) <$> all s !! quotas b) batch.

(** what the group answers, in the order it was told; where it was not reached nothing is settled *)
Definition reconciled (now : Z) (batch : list Batch) (debts : option (list Z)) (s : Sync) : Sync :=
  mkSync
    (match debts with
     | None => all s
     | Some debts =>
         foldl (fun qs '(b, debt) => alter (settled (b_key b) (delta b) debt now) (quotas b) qs)
           (all s) (zip batch debts)
     end) (pace s) false.
End quotas.

(** ** Lemmas *)

Definition times (n : nat) (e : Q) : Q := inject_Z (Z.of_nat n) * e.

Lemma times_S n e : times (S n) e == times n e + e.
Proof. unfold times. rewrite Nat2Z.inj_succ, <- Z.add_1_r, inject_Z_plus. ring. Qed.

Lemma times_0 e : times 0 e == 0.
Proof. unfold times. cbn. ring. Qed.

Lemma larger_spec a b : (a <= larger a b /\ b <= larger a b /\ (larger a b == a \/ larger a b == b))%Q.
Proof.
  unfold larger. destruct (Qle_bool a b) eqn:H.
  - apply Qle_bool_iff in H. split; [done|]. split; [apply Qle_refl | by right].
  - assert (~ (a <= b)%Q) as Hn by (rewrite <- Qle_bool_iff; congruence). apply Qnot_le_lt in Hn.
    split; [apply Qle_refl|]. split; [by apply Qlt_le_weak | by left].
Qed.

(** bounds of what is the larger of two, and what is linear of them *)
Ltac larger :=
  repeat match goal with
  | |- context [larger ?a ?b] =>
      destruct (larger_spec a b) as (? & ? & ?); let x := fresh in generalize dependent (larger a b); intros x
  | _ : context [larger ?a ?b] |- _ =>
      destruct (larger_spec a b) as (? & ? & ?); let x := fresh in generalize dependent (larger a b); intros x
  end; intros; repeat match goal with H : (_ == _)%Q \/ (_ == _)%Q |- _ => destruct H end; lra.

Lemma Qle_bool_false a b : Qle_bool a b = false <-> (b < a)%Q.
Proof.
  split; intros H.
  - apply Qnot_le_lt. rewrite <- Qle_bool_iff. congruence.
  - destruct (Qle_bool a b) eqn:Hb; [|done]. apply Qle_bool_iff in Hb. lra.
Qed.

Lemma inject_le a b : a <= b -> (inject_Z a <= inject_Z b)%Q.
Proof. by rewrite <- Zle_Qle. Qed.

(** what a key's debt is measured by: never before now *)
Lemma arrival_now q key now : (inject_Z now <= arrival q key now)%Q.
Proof. apply larger_spec. Qed.

Lemma arrival_later q key now now' :
  now <= now' -> (arrival q key now' <= larger (arrival q key now) (inject_Z now'))%Q.
Proof. intros H%inject_le. unfold arrival. destruct (entries q !! key) as [e|]; cbn; larger. Qed.

Lemma arrival_mono q key now now' : now <= now' -> (arrival q key now <= arrival q key now')%Q.
Proof. intros H%inject_le. unfold arrival. destruct (entries q !! key) as [e|]; cbn; larger. Qed.

Lemma arrival_charge q key at_ now :
  arrival (charge key at_ q) key now = larger (at_ + emission q) (inject_Z now).
Proof. unfold arrival, charge. cbn. destruct (entries q !! key); cbn; by rewrite lookup_insert_eq. Qed.

Lemma arrival_charge_ne q key key' at_ now : key <> key' -> arrival (charge key at_ q) key' now = arrival q key' now.
Proof. intros H. unfold arrival, charge. cbn. destruct (entries q !! key); cbn; by rewrite lookup_insert_ne. Qed.

Lemma arrival_with_key q r k key now : arrival (with_key r k q) key now = arrival q key now.
Proof. done. Qed.

(** what is dropped says no more than what is absent *)
Lemma arrival_flush q key now : (arrival (snd (flush now q)) key now == arrival q key now)%Q.
Proof.
  unfold arrival, flush. cbn. rewrite map_lookup_filter. destruct (entries q !! key) as [e|]; [|reflexivity]. cbn.
  case_guard as Hg; cbn; [reflexivity|].
  destruct (Qle_bool (tat e) (inject_Z now)) eqn:Hb; [|naive_solver]. apply Qle_bool_iff in Hb.
  larger.
Qed.

Lemma arrival_settled q key key' delta debt_ now :
  (arrival q key now <= arrival (settled key' delta debt_ now q) key now)%Q.
Proof.
  unfold arrival, settled. cbn. destruct (decide (key' = key)) as [->|Hne].
  - destruct (entries q !! key) as [e|] eqn:He.
    + rewrite lookup_insert_eq. cbn. larger.
    + destruct (0 <? debt_) eqn:Hd; [|rewrite He; cbn; lra]. rewrite lookup_insert_eq. cbn. larger.
  - destruct (entries q !! key') as [e|] eqn:He; [rewrite lookup_insert_ne by done; lra|].
    destruct (0 <? debt_); [rewrite lookup_insert_ne by done|]; lra.
Qed.

(** ** What a quota is asked and told, as a step relation

    Of the requests of one key: what was charged, and how many were admitted and are not settled. *)
Section traffic.
Context (sha256 : string -> string) (key : string).

Record traffic := mkTraffic { quotas_ : Quotas; clock : Z; flight : nat; charged : nat }.

Inductive step : traffic -> traffic -> Prop :=
| step_time t now : clock t <= now -> step t (mkTraffic (quotas_ t) now (flight t) (charged t))
| step_admitted t context parameters q :
    keys_get sha256 (keys (quotas_ t)) context parameters = Some key ->
    check sha256 (clock t) context parameters (quotas_ t) = (q, 0) -> conditional q = false ->
    step t (mkTraffic q (clock t) (flight t) (S (charged t)))
| step_under_way t context parameters q :
    keys_get sha256 (keys (quotas_ t)) context parameters = Some key ->
    check sha256 (clock t) context parameters (quotas_ t) = (q, 0) -> conditional q = true ->
    step t (mkTraffic q (clock t) (S (flight t)) (charged t))
| step_refused t context parameters q retry :
    check sha256 (clock t) context parameters (quotas_ t) = (q, retry) -> retry <> 0 ->
    step t (mkTraffic q (clock t) (flight t) (charged t))
| step_other t context parameters q retry :
    keys_get sha256 (keys (quotas_ t)) context parameters <> Some key ->
    check sha256 (clock t) context parameters (quotas_ t) = (q, retry) ->
    step t (mkTraffic q (clock t) (flight t) (charged t))
| step_used t context status n :
    flight t = S n -> keyed (quotas_ t) !! request context = Some key ->
    conditional (quotas_ t) = true -> matches (keys (quotas_ t)) status = true ->
    step t (mkTraffic (use sha256 (clock t) context status (quotas_ t)) (clock t) n (S (charged t)))
| step_unused t n :
    flight t = S n -> step t (mkTraffic (quotas_ t) (clock t) n (charged t))
| step_used_other t context status other :
    keyed (quotas_ t) !! request context = Some other -> other <> key ->
    step t (mkTraffic (use sha256 (clock t) context status (quotas_ t)) (clock t) (flight t) (charged t))
| step_flush t : step t (mkTraffic (snd (flush (clock t) (quotas_ t))) (clock t) (flight t) (charged t))
| step_settled t key' delta debt_ :
    step t (mkTraffic (settled key' delta debt_ (clock t) (quotas_ t)) (clock t) (flight t) (charged t)).

(** with no more than [c] requests of the key under way at once *)
Inductive steps (c : nat) : traffic -> traffic -> Prop :=
| steps_refl t : (flight t <= c)%nat -> steps c t t
| steps_step t t' t'' : steps c t t' -> step t' t'' -> (flight t'' <= c)%nat -> steps c t t''.

Definition same_budget (q q' : Quotas) : Prop :=
  keys q = keys q' /\ emission q = emission q' /\ capacity q = capacity q' /\ conditional q = conditional q'.

Lemma check_budget now context parameters q : same_budget q (fst (check sha256 now context parameters q)).
Proof.
  unfold check. destruct (keys_get _ _ _ _); [|done]. cbn zeta. destruct (negb _); [done|]. cbn.
  by destruct (conditional q).
Qed.

Lemma use_budget now context status q : same_budget q (use sha256 now context status q).
Proof.
  unfold use. destruct (negb (conditional q) || _); [done|].
  destruct (match keyed q !! request context with Some _ => _ | None => _ end); done.
Qed.

Lemma step_budget t t' : step t t' -> same_budget (quotas_ t) (quotas_ t').
Proof.
  destruct 1 as [|t context parameters q _ Hc _|t context parameters q _ Hc _|t context parameters q retry Hc _
    |t context parameters q retry _ Hc|t context status n _ _ _ _| |t context status other _ _| |]; cbn; try done;
    first [apply use_budget | replace q with (fst (check sha256 (clock t) context parameters (quotas_ t))) by (by rewrite Hc); apply check_budget].
Qed.

Lemma step_clock t t' : step t t' -> clock t <= clock t'.
Proof. destruct 1; cbn; lia. Qed.

(** requests that may still be charged: none, where they are charged as they are admitted *)
Definition pending (t : traffic) : nat := if conditional (quotas_ t) then flight t else 0.

(** what was charged since [t0], measured by an arrival of its own: what is charged takes it further,
    what the group says does not *)
Record spent (c : nat) (t0 : Q) (n0 : nat) (t : traffic) (own_ : Q) : Prop := {
  spent_arrival : (own_ <= arrival (quotas_ t) key (clock t))%Q;
  spent_bound : (own_ + times (pending t) (emission (quotas_ t)) <=
    inject_Z (clock t) + capacity (quotas_ t) + times (pred c) (emission (quotas_ t)))%Q;
  spent_charged : exists n, charged t = (n0 + n)%nat /\ (t0 + times n (emission (quotas_ t)) <= own_)%Q
}.

Lemma times_le n m e : (n <= m)%nat -> (0 <= e)%Q -> (times n e <= times m e)%Q.
Proof. intros H He. unfold times. apply Qmult_le_compat_r; [|done]. apply inject_le. lia. Qed.

(** what a step leaves of what was spent, where it charges nothing *)
Lemma spent_more c t0 n0 t t' own_ :
  spent c t0 n0 t own_ -> same_budget (quotas_ t) (quotas_ t') -> clock t <= clock t' ->
  (arrival (quotas_ t) key (clock t) <= arrival (quotas_ t') key (clock t'))%Q ->
  (pending t' <= pending t)%nat -> charged t' = charged t -> (0 <= emission (quotas_ t))%Q ->
  spent c t0 n0 t' own_.
Proof.
  intros [Ha Hb (n & Hn & Ht)] (_ & He & Hc & _) Hk%inject_le Harr Hp Hch Hpos. split.
  - lra.
  - rewrite <- He, <- Hc. pose proof (times_le _ _ _ Hp Hpos). lra.
  - exists n. rewrite <- He, Hch. done.
Qed.

Lemma spent_charge c t0 n0 t t' own_ at_ :
  spent c t0 n0 t own_ -> same_budget (quotas_ t) (quotas_ t') -> clock t' = clock t ->
  at_ = arrival (quotas_ t) key (clock t) ->
  arrival (quotas_ t') key (clock t) = larger (at_ + emission (quotas_ t)) (inject_Z (clock t)) ->
  charged t' = S (charged t) ->
  (larger own_ (inject_Z (clock t)) + emission (quotas_ t) + times (pending t') (emission (quotas_ t)) <=
    inject_Z (clock t) + capacity (quotas_ t) + times (pred c) (emission (quotas_ t)))%Q ->
  exists own', spent c t0 n0 t' own'.
Proof.
  intros [Ha Hb (n & Hn & Ht)] (_ & He & Hc & _) Hk -> Harr Hch Hle.
  pose proof (arrival_now (quotas_ t) key (clock t)) as Hnow.
  exists (larger own_ (inject_Z (clock t)) + emission (quotas_ t))%Q. split.
  - rewrite Hk, Harr. larger.
  - by rewrite Hk, <- He, <- Hc.
  - exists (S n). split; [lia|]. rewrite <- He, times_S. larger.
Qed.

(** a check of the key *)
Lemma check_key now context parameters q q' retry :
  keys_get sha256 (keys q) context parameters = Some key -> check sha256 now context parameters q = (q', retry) ->
  let admit_ := (arrival q key now + emission q - capacity q)%Q in
  if Qle_bool admit_ (inject_Z now) then
    q' = (let q := with_key (request context) key q in
          if conditional q then q else charge key (arrival q key now) q) /\ retry = 0
  else q' = with_key (request context) key q /\ retry = Qceiling ((admit_ - inject_Z now) / 1000).
Proof.
  intros Hk. unfold check. rewrite Hk. cbn zeta. rewrite arrival_with_key.
  change (emission (with_key _ _ q)) with (emission q). change (capacity (with_key _ _ q)) with (capacity q).
  destruct (Qle_bool _ _); cbn [negb]; intros [= <- <-]; done.
Qed.

Lemma check_other now context parameters q q' retry :
  keys_get sha256 (keys q) context parameters <> Some key -> check sha256 now context parameters q = (q', retry) ->
  arrival q' key now = arrival q key now.
Proof.
  intros Hk. unfold check. destruct (keys_get _ _ _ _) as [k|]; [|by intros [= <- _]].
  cbn zeta. destruct (negb _); [by intros [= <- _]|]. intros [= <- _].
  destruct (conditional _); [done|]. rewrite arrival_charge_ne; [done | congruence].
Qed.

Lemma ceiling_positive q : (0 < q)%Q -> 0 < Qceiling q.
Proof. intros H. pose proof (Qle_ceiling q). rewrite Zlt_Qlt. change (inject_Z 0) with 0%Q. lra. Qed.

Lemma check_admitted now context parameters q q' :
  keys_get sha256 (keys q) context parameters = Some key -> check sha256 now context parameters q = (q', 0) ->
  (arrival q key now + emission q - capacity q <= inject_Z now)%Q /\
  q' = if conditional q then with_key (request context) key q
       else charge key (arrival q key now) (with_key (request context) key q).
Proof.
  intros Hk Hc. pose proof (check_key _ _ _ _ _ _ Hk Hc) as Hck. cbn zeta in Hck.
  destruct (Qle_bool _ _) eqn:Hle; [split; [by apply Qle_bool_iff | by destruct Hck]|].
  destruct Hck as [_ Hz]. apply Qle_bool_false in Hle.
  assert (0 < Qceiling ((arrival q key now + emission q - capacity q - inject_Z now) / 1000)); [|lia].
  apply ceiling_positive, Qlt_shift_div_l; lra.
Qed.

Lemma check_refused now context parameters q q' retry :
  check sha256 now context parameters q = (q', retry) -> retry <> 0 -> arrival q' key now = arrival q key now.
Proof.
  intros Hc Hr. destruct (decide (keys_get sha256 (keys q) context parameters = Some key)) as [Hk|Hk].
  - pose proof (check_key _ _ _ _ _ _ Hk Hc) as Hck. cbn zeta in Hck.
    destruct (Qle_bool _ _); by destruct Hck as [-> ?].
  - by apply (check_other now context parameters q q' retry).
Qed.

Lemma step_spent c t0 n0 t t' own_ :
  step t t' -> (flight t <= c)%nat -> (flight t' <= c)%nat -> (1 <= c)%nat ->
  (0 < emission (quotas_ t) <= capacity (quotas_ t))%Q ->
  spent c t0 n0 t own_ -> exists own', spent c t0 n0 t' own'.
Proof.
  intros Hs Hf Hf' Hc [He Hcap] Hsp. pose proof (step_budget _ _ Hs) as Hb. pose proof (step_clock _ _ Hs) as Hk.
  assert (0 <= emission (quotas_ t))%Q as He0 by lra. pose proof Hsp as [Ha Hb' (m & Hm' & Ht)].
  assert (pending t' = if conditional (quotas_ t) then flight t' else 0%nat) as Hp by (unfold pending; by destruct Hb as (_ & _ & _ & <-)).
  assert ((flight t' <= flight t)%nat -> (pending t' <= pending t)%nat) as Hpend
    by (rewrite Hp; unfold pending; case_match; lia).
  destruct Hs as [t now Hnow|t context parameters q Hkey Hcheck Hcond|t context parameters q Hkey Hcheck Hcond
    |t context parameters q retry Hcheck Hr|t context parameters q retry Hkey Hcheck|t context status n Hfl Hkd Hcond Hm
    |t n Hfl|t context status other Hkd Hne|t|t key' delta debt_]; cbn in *.
  2: { destruct (check_admitted _ _ _ _ _ Hkey Hcheck) as [Hle Hq].
    assert (conditional (quotas_ t) = false) as Hcf by (destruct Hb as (_ & _ & _ & ->); done).
    rewrite Hcf in Hq, Hp. eapply (spent_charge c t0 n0 t _ own_); [done..| | |].
    - cbn. rewrite Hq. exact (arrival_charge (with_key _ _ (quotas_ t)) _ _ _).
    - done.
    - rewrite Hp, times_0. pose proof (arrival_now (quotas_ t) key (clock t)).
      pose proof (times_le 0 (pred c) _ (Nat.le_0_l _) He0). rewrite times_0 in *. larger. }
  2: { destruct (check_admitted _ _ _ _ _ Hkey Hcheck) as [Hle Hq].
    assert (conditional (quotas_ t) = true) as Hct by (destruct Hb as (_ & _ & _ & ->); done).
    rewrite Hct in Hq, Hp. exists own_. subst q. split; cbn; [done | | by exists m].
    cbn in Hp. rewrite Hp, times_S. pose proof (times_le (flight t) (pred c) _ ltac:(lia) He0). lra. }
  4: { eapply (spent_charge c t0 n0 t _ own_); [done..| | |].
    - cbn. unfold use. rewrite Hcond, Hm, Hkd. cbn. apply arrival_charge.
    - done.
    - rewrite Hp. unfold pending in Hb'. rewrite Hcond, Hfl, times_S in *.
      pose proof (times_le n (pred c) _ ltac:(lia) He0). larger. }
  all: exists own_; apply (spent_more c t0 n0 t); try done; try (apply Hpend; cbn; lia); cbn.
  - by apply arrival_mono.
  - rewrite (check_refused _ _ _ _ _ _ Hcheck Hr). apply Qle_refl.
  - rewrite (check_other _ _ _ _ _ _ Hkey Hcheck). apply Qle_refl.
  - apply Qle_refl.
  - unfold use. rewrite Hkd. destruct (negb _ || _); [apply Qle_refl|]. rewrite arrival_charge_ne by done. apply Qle_refl.
  - apply Qle_lteq. right. symmetry. exact (arrival_flush (quotas_ t) key (clock t)).
  - apply arrival_settled.
Qed.

Lemma steps_spent c t t' :
  steps c t t' -> (1 <= c)%nat -> (0 < emission (quotas_ t) <= capacity (quotas_ t))%Q ->
  same_budget (quotas_ t) (quotas_ t') /\ (flight t' <= c)%nat /\
  exists own_, spent c (inject_Z (clock t)) (charged t) t' own_.
Proof.
  intros Hs Hc He. induction Hs as [t Hf|t t' t'' Hs IH Hst Hf''].
  - split; [done|]. split; [done|]. exists (inject_Z (clock t)). split.
    + apply arrival_now.
    + unfold pending. destruct (conditional _).
      * pose proof (times_le (flight t) c (emission (quotas_ t)) Hf ltac:(lra)). destruct c as [|c]; [lia|].
        cbn [pred]. rewrite times_S in *. lra.
      * rewrite times_0. pose proof (times_le 0 (pred c) (emission (quotas_ t)) ltac:(lia) ltac:(lra)).
        rewrite times_0 in *. lra.
    + exists 0%nat. split; [lia|]. rewrite times_0. lra.
  - destruct (IH He) as (Hb & Hf' & own_ & Hsp). destruct Hb as (Hb1 & Hb2 & Hb3 & Hb4).
    destruct (step_budget _ _ Hst) as (? & ? & ? & ?). split; [unfold same_budget; split_and!; congruence|].
    split; [done|]. apply (step_spent c _ _ t' t'' own_); try done. by rewrite <- Hb2, <- Hb3.
Qed.
End traffic.

(** ** Properties *)

Lemma make_budget ks requests interval conditional name :
  1 <= requests -> 0 < interval ->
  (0 < emission (make ks requests interval conditional name) <= capacity (make ks requests interval conditional name))%Q.
Proof.
  intros Hr Hi. cbn. assert (0 < inject_Z interval)%Q as Hi' by (change 0%Q with (inject_Z 0); by rewrite <- Zlt_Qlt).
  assert (1 <= inject_Z requests)%Q as Hr' by (change 1%Q with (inject_Z 1); by rewrite <- Zle_Qle).
  split.
  - apply Qlt_shift_div_l; lra.
  - apply Qle_shift_div_r; [lra|]. rewrite <- (Qmult_1_r (inject_Z interval)) at 1.
    rewrite !(Qmult_comm (inject_Z interval)). apply Qmult_le_compat_r; lra.
Qed.


(** A request that is refused is told how long, and no longer than it takes: it is charged nothing,
    the seconds it is answered are one at least, a request that comes when they are over is admitted
    where nothing else was charged, and one that comes a second earlier is not. *)
Theorem retry_is_exact sha256 now context parameters q q' retry :
  (emission q <= capacity q)%Q -> check sha256 now context parameters q = (q', retry) -> retry <> 0 ->
  entries q' = entries q /\ 1 <= retry /\
  snd (check sha256 (now + retry * 1000) context parameters q') = 0 /\
  (1 < retry -> snd (check sha256 (now + (retry - 1) * 1000) context parameters q') <> 0).
Proof.
  intros Hcap Hc Hr. destruct (keys_get sha256 (keys q) context parameters) as [key|] eqn:Hk.
  2: { unfold check in Hc. rewrite Hk in Hc. congruence. }
  pose proof (check_key sha256 key _ _ _ _ _ _ Hk Hc) as Hck. cbn zeta in Hck.
  destruct (Qle_bool _ _) eqn:Hle; [by destruct Hck as [_ ?]|]. destruct Hck as [-> Hretry].
  apply Qle_bool_false in Hle. set (d := (arrival q key now + emission q - capacity q - inject_Z now)%Q) in *.
  assert (0 < d)%Q as Hd by (unfold d; lra).
  pose proof (ceiling_positive (d / 1000) ltac:(apply Qlt_shift_div_l; lra)) as Hpos.
  assert (d == d / 1000 * 1000)%Q as Hdd by field.
  assert (d <= inject_Z (retry * 1000))%Q as Hup.
  { rewrite Hretry, inject_Z_mult. pose proof (Qle_ceiling (d / 1000)) as Hq.
    change (inject_Z 1000) with 1000%Q. clear - Hdd Hq. lra. }
  assert (inject_Z ((retry - 1) * 1000) < d)%Q as Hlow.
  { rewrite Hretry, inject_Z_mult. pose proof (Qceiling_lt (d / 1000)) as Hq.
    change (inject_Z 1000) with 1000%Q. clear - Hdd Hq. lra. }
  split; [done|]. split; [lia|]. unfold check. change (keys (with_key _ _ q)) with (keys q). rewrite Hk. cbn zeta.
  rewrite !arrival_with_key. change (emission (with_key _ _ (with_key _ _ q))) with (emission q).
  change (capacity (with_key _ _ (with_key _ _ q))) with (capacity q).
  assert (forall n : Z, inject_Z (now + n) == inject_Z now + inject_Z n)%Q as Hadd by (intros; by rewrite inject_Z_plus).
  assert (forall t, 0 <= t -> (arrival q key (now + t) == larger (arrival q key now) (inject_Z (now + t)))%Q) as Harr.
  { intros t Ht. pose proof (inject_le now (now + t) ltac:(lia)) as Ht'. unfold arrival.
    destruct (entries q !! key) as [e|]; cbn; larger. }
  split.
  - pose proof (Harr (retry * 1000) ltac:(lia)) as Ha. pose proof (Hadd (retry * 1000)) as Ht.
    destruct (Qle_bool _ (inject_Z (now + retry * 1000))) eqn:H; [done|]. apply Qle_bool_false in H.
    unfold d in *. larger.
  - intros Hr1. pose proof (Harr ((retry - 1) * 1000) ltac:(lia)) as Ha. pose proof (Hadd ((retry - 1) * 1000)) as Ht.
    destruct (Qle_bool _ (inject_Z (now + (retry - 1) * 1000))) eqn:H.
    + apply Qle_bool_iff in H. unfold d in *. exfalso. larger.
    + apply Qle_bool_false in H. cbn [negb snd].
      match goal with |- Qceiling ?x <> 0 => assert (0 < Qceiling x); [|lia] end.
      apply ceiling_positive, Qlt_shift_div_l; lra.
Qed.

(** A key of several components is not told from another whose parts run together to the same: what a
    request is metered by is digested of the parts with nothing between them, so that two clients whose
    values of two segments are split differently spend one budget. *)
Theorem keys_collide sha256 now context context' parameters parameters' a b q va vb wa wb :
  components (keys q) = [Segment a; Segment b] ->
  own parameters a = Some va -> own parameters b = Some vb ->
  own parameters' a = Some wa -> own parameters' b = Some wb -> va +:+ vb = wa +:+ wb ->
  snd (check sha256 now context parameters q) = snd (check sha256 now context' parameters' q) /\
  entries (fst (check sha256 now context parameters q)) = entries (fst (check sha256 now context' parameters' q)).
Proof.
  intros Hc Ha Hb Ha' Hb' Heq. unfold check.
  assert (keys_get sha256 (keys q) context parameters = keys_get sha256 (keys q) context' parameters') as ->.
  { unfold keys_get. rewrite Hc. cbn. rewrite Ha, Hb, Ha', Hb'. cbn. by rewrite !string_app_nil_r, Heq. }
  destruct (keys_get _ _ _ _); [|done]. cbn zeta. rewrite !arrival_with_key.
  change (emission (with_key _ _ q)) with (emission q). change (capacity (with_key _ _ q)) with (capacity q).
  destruct (negb _); [done|]. change (conditional (with_key _ _ q)) with (conditional q). by destruct (conditional q).
Qed.

(** ** Two requests at once, and one every five seconds *)

Module Burst.
Definition hash (s : string) : string := s.
Definition asked (n : nat) : Context := mkContext n (Some "10.0.0.1") "/a" None.
Definition fresh : Quotas := make (mkKeys [Path] None) 2 10000 false None.
Definition once : Quotas := fst (check hash 0 (asked 1) [] fresh).
Definition twice : Quotas := fst (check hash 0 (asked 2) [] once).
Definition thrice : Quotas := fst (check hash 0 (asked 3) [] twice).


Lemma retry_is_exact_witness :
  snd (check hash 0 (asked 3) [] twice) = 5 /\ snd (check hash 5000 (asked 3) [] thrice) = 0 /\
  snd (check hash 4000 (asked 3) [] thrice) <> 0.
Proof.
  assert (check hash 0 (asked 3) [] twice = (thrice, 5)) as Hc by (vm_compute; reflexivity).
  destruct (retry_is_exact hash 0 (asked 3) [] twice thrice 5) as (_ & _ & H1 & H2);
    [vm_compute; discriminate | exact Hc | discriminate |].
  split; [by rewrite Hc|]. split; [exact H1 | exact (H2 eq_refl)].
Defined.

Definition pair_ : Quotas := make (mkKeys [Segment "a"; Segment "b"] None) 2 10000 false None.

Lemma keys_collide_witness :
  entries (fst (check hash 0 (asked 1) [("a", "1"); ("b", "11")] pair_)) =
  entries (fst (check hash 0 (asked 2) [("a", "11"); ("b", "1")] pair_)).
Proof.
  exact (proj2 (keys_collide hash 0 (asked 1) (asked 2) [("a", "1"); ("b", "11")] [("a", "11"); ("b", "1")] "a" "b" pair_
    "1" "11" "11" "1" eq_refl eq_refl eq_refl eq_refl eq_refl eq_refl)).
Defined.
End Burst.
