(* ===== verification/Restrictions.v ===== *)
(** * Restrictions

    [extensions/exposition/source/directives/io/] ([IO.ts], [Input.ts], [Output.ts], [Status.ts],
    [Readonly.ts], [Throttle.ts]) and [Introspection.ts]: what a client may send and be sent, and what
    is said of it. Quotas are those of [Throttle]; what restricts a reply is [restrict_reply] of
    [Operations]. *)
From S2P Require Import Prelude World Operations Throttle.

Open Scope Z_scope.

(** ** [Introspection.ts], over objects by their fields *)

Abbreviation fields := (list (string * value)).

Definition without {A} (name : string) (object : list (string * A)) : list (string * A) :=
  filter (fun p => fst p <> name) object.

(** names of a [required], that pass *)
Definition names_that (keep : string -> bool) (required : value) : value :=
  match required with
  | VArray names => VArray (filter (fun n => match n with VString s => keep s | _ => true end = true) names)
  | v => v
  end.

Definition defined (v : option value) : option value :=
  match v with Some VUndefined => None | _ => v end.

(** the property taken out of what states an input, and its schema *)
Definition take (carrier : fields) (property : string) : fields * option value :=
  match defined (own carrier "input") with
  | Some (VObject input) =>
      match defined (own input "properties") with
      | Some (VObject properties) =>
          match own properties property with
          | None => (carrier, None)
          | Some schema =>
              let input := assign "properties" (VObject (without property properties)) input in
              let input := match defined (own input "required") with
                           | None => input
                           | Some required =>
                               assign "required" (names_that (fun n => negb (bool_decide (n = property))) required) input
                           end in
              (assign "input" (VObject input) carrier, Some schema)
          end
      | _ => (carrier, None)
      end
  | _ => (carrier, None)
  end.

Fixpoint restrict_schema (allowed : list string) (schema : value) : value :=
  match schema with
  | VObject shape =>
      match defined (own shape "items") with
      | Some _ =>
          VObject (map (fun '(k, v) => (k, if bool_decide (k = "items") then restrict_schema allowed v else v)) shape)
      | None =>
          match defined (own shape "properties") with
          | None => schema
          | Some properties =>
              let kept := match properties with
                          | VObject properties => filter (fun p => fst p ∈ allowed) properties
                          | _ => []
                          end in
              let shape := assign "properties" (VObject kept) shape in
              VObject (match defined (own shape "required") with
                       | None => shape
                       | Some required => assign "required" (names_that (fun n => bool_decide (n ∈ allowed)) required) shape
                       end)
          end
      end
  | _ => schema
  end.

Definition KEYS : list string :=
  ["title"; "description"; "anonymous"; "authenticated"; "private"; "protected"; "system"; "once"; "readonly"; "mcp";
   "route"; "query"; "selection"; "octets"; "input"; "output"; "errors"].

Definition order (introspection : fields) : fields :=
  omap (fun key => (fun v => (key, v)) <$> defined (own introspection key)) KEYS.

(** ** Directives *)

Inductive permissions := Whole (b : bool) | Listed (names : list string).

Inductive io :=
| Input (allowed : list string)
| Output (p : permissions)
| Status (property : string)
| Readonly (b : bool)
(** the quotas it was made with, among those registered *)
| Throttled (quotas : nat).

(** what a request carries, and the quotas of the process *)
Record Context := mkContext {
  output_ : option (list string);
  (** the checks of the body, the first to run first *)
  checks : list (list string);
  reads : bool;
  readonly : option bool;
  quotas_ : list Quotas
}.

Inductive refusal := BadRequest (message : string) | TooManyRequests (retry : Z) | Error (message : string).

Section io.
Context (sha256 : string -> string) (now : Z) (asking : Throttle.Context) (parameters : list (string * string)).

Definition output_precall (p : permissions) (c : Context) : Context :=
  match p with
  | Whole true => c
  | _ =>
      let allowed := match p with Listed names => names | Whole _ => [] end in
      mkContext (Some (match output_ c with None => allowed | Some wanted => filter (fun n => n ∈ allowed) wanted end))
        (checks c) (reads c) (readonly c) (quotas_ c)
  end.

Definition io_precall_one (d : io) (c : Context) : result refusal unit * Context :=
  match d with
  | Input allowed => (Ok tt, mkContext (output_ c) (allowed :: checks c) (reads c) (readonly c) (quotas_ c))
  | Output p => (Ok tt, output_precall p c)
  | Status _ => (Ok tt, mkContext (output_ c) (checks c) true (readonly c) (quotas_ c))
  | Readonly b => (Ok tt, mkContext (output_ c) (checks c) (reads c) (Some b) (quotas_ c))
  | Throttled i =>
      match quotas_ c !! i with
      | None => (Ok tt, c)
      | Some q =>
          let '(q, retry) := check sha256 now asking parameters q in
          let c := mkContext (output_ c) (checks c) (reads c) (readonly c) (<[i := q]> (quotas_ c)) in
          (if 0 <? retry then Throw (TooManyRequests retry) else Ok tt, c)
      end
  end.

Definition restricts (d : io) : bool := match d with Output _ => true | _ => false end.

Definition DENIAL : permissions := Listed [].

Fixpoint io_precall_all (ds : list io) (c : Context) : result refusal unit * Context :=
  match ds with
  | [] => (Ok tt, c)
  | d :: ds =>
      match io_precall_one d c with
      | (Throw e, c) => (Throw e, c)
      | (Ok _, c) => io_precall_all ds c
      end
  end.

Definition io_precall (ds : list io) (c : Context) : result refusal unit * Context :=
  match io_precall_all ds c with
  | (Throw e, c) => (Throw e, c)
  | (Ok _, c) => (Ok tt, if existsb restricts ds then c else output_precall DENIAL c)
  end.

(** *** The body *)

Definition is_object (v : value) : bool := match v with VObject _ => true | _ => false end.

(** an object, or an array of them *)
Definition message (body : value) : bool :=
  match body with
  | VObject _ => true
  | VArray items => forallb is_object items
  | _ => false
  end.

Definition violation (allowed : list string) (item : value) : option string :=
  match item with
  | VObject properties => fst <$> List.find (fun p => bool_decide (fst p ∉ allowed)) properties
  | _ => None
  end.

Definition violations (allowed : list string) (body : value) : option string :=
  match body with
  | VArray items => head (omap (violation allowed) items)
  | _ => violation allowed body
  end.

Definition check_body (allowed : list string) (body : value) : result refusal value :=
  match body with
  | VUndefined => Ok body
  | _ =>
      if negb (message body) then Throw (BadRequest "Invalid request body")
      else match violations allowed body with
           | Some property => Throw (BadRequest ("Unexpected input: " +:+ property))
           | None => Ok body
           end
  end.

(** the pipeline of the body, as far as it is of these directives *)
Fixpoint check_all (checks : list (list string)) (body : value) : result refusal value :=
  match checks with
  | [] => Ok body
  | allowed :: checks => body ← check_body allowed body; check_all checks body
  end.

(** *** The response *)

Record Response := mkResponse { status : option value; body : value }.

Definition as_integer (status : option value) : option Z := match status with Some (VNumber n) => Some n | _ => None end.

Definition status_settle (property : string) (r : Response) : result refusal Response :=
  match body r with
  | VObject properties =>
      match own properties property with
      | None => Ok r
      | Some (VNumber _ as n) | Some (VDecimal _ _ as n) =>
          Ok (mkResponse (Some n) (VObject (without property properties)))
      | Some _ => Throw (Error ("`io:status` expects " +:+ quoted property +:+ " to be a number"))
      end
  | _ => Ok r
  end.

Fixpoint io_settle (ds : list io) (r : Response) (c : Context) : result refusal Response * Context :=
  match ds with
  | [] => (Ok r, c)
  | Status property :: ds =>
      match status_settle property r with
      | Throw e => (Throw e, c)
      | Ok r => io_settle ds r c
      end
  | Throttled i :: ds =>
      io_settle ds r (mkContext (output_ c) (checks c) (reads c) (readonly c)
        (alter (use sha256 now asking (as_integer (status r))) i (quotas_ c)))
  | _ :: ds => io_settle ds r c
  end.
End io.

(** *** What is said of a method *)

Definition restrict_field (name : string) (allowed : list string) (introspection : fields) : fields :=
  match own introspection name with
  | None => assign name VUndefined introspection
  | Some schema => assign name (restrict_schema allowed schema) introspection
  end.

Definition io_explain_one (d : io) (introspection : fields) : fields :=
  match d with
  | Readonly b => assign "readonly" (VBool b) introspection
  | Input allowed => restrict_field "input" allowed introspection
  | Output (Whole true) => introspection
  | Output p => restrict_field "output" (match p with Listed names => names | Whole _ => [] end) introspection
  | _ => introspection
  end.

Definition io_explain (ds : list io) (introspection : fields) : fields :=
  let explained := foldl (fun i d => io_explain_one d i) introspection ds in
  if existsb restricts ds then explained else without "output" explained.

(** ** Lemmas *)

(** the lists of a whitelist of each kind *)
Definition inputs (ds : list io) : list (list string) := omap (fun d => match d with Input l => Some l | _ => None end) ds.

Definition outputs (ds : list io) : list (list string) :=
  omap (fun d => match d with
                 | Output (Whole true) => None
                 | Output (Whole false) => Some []
                 | Output (Listed l) => Some l
                 | _ => None
                 end) ds.

Definition in_all (k : string) (lists : list (list string)) : Prop := Forall (fun l => k ∈ l) lists.

Lemma in_all_reverse k lists : in_all k (reverse lists) <-> in_all k lists.
Proof. unfold in_all. rewrite !Forall_forall. by setoid_rewrite elem_of_reverse. Qed.

(** an object of properties, as a schema states it *)
Definition states (schema : option value) (properties : fields) : Prop :=
  exists shape, schema = Some (VObject shape) /\ defined (own shape "items") = None /\
    own shape "properties" = Some (VObject properties).

Lemma own_without {A} (l : list (string * A)) k k' : k <> k' -> own (without k l) k' = own l k'.
Proof.
  intros Hne. unfold without. induction l as [|[j x] l IH]; [done|]. rewrite filter_cons. cbn [fst].
  destruct (decide (j <> k)) as [Hj|Hj]; cbn [own].
  - by rewrite IH.
  - rewrite IH. rewrite decide_False; [done|]. intros ->. by apply Hj.
Qed.

Lemma restrict_states allowed schema properties :
  states (Some schema) properties ->
  states (Some (restrict_schema allowed schema)) (filter (fun p => fst p ∈ allowed) properties).
Proof.
  intros (shape & [= ->] & Hi & Hp). cbn [restrict_schema]. rewrite Hi, Hp. cbn [defined].
  set (shape' := assign "properties" _ shape).
  assert (own shape' "items" = own shape "items") as Hi' by (apply own_assign_ne; done).
  destruct (defined (own shape' "required")) as [required|].
  - eexists. split; [done|]. split; [by rewrite own_assign_ne, Hi' | rewrite own_assign_ne by done; apply own_assign_eq].
  - exists shape'. split; [done|]. split; [by rewrite Hi' | apply own_assign_eq].
Qed.

Definition kept_by (lists : list (list string)) (properties : fields) : fields :=
  foldl (fun ps l => filter (fun p => fst p ∈ l) ps) properties lists.

Lemma kept_by_names lists properties k :
  k ∈ fst <$> kept_by lists properties <-> k ∈ fst <$> properties /\ in_all k lists.
Proof.
  unfold in_all. revert properties. induction lists as [|l lists IH]; intros properties; cbn [kept_by foldl].
  - naive_solver.
  - unfold kept_by in IH. rewrite IH, Forall_cons.
    assert (k ∈ fst <$> filter (fun p => fst p ∈ l) properties <-> k ∈ fst <$> properties /\ k ∈ l) as ->.
    { rewrite !list_elem_of_fmap. split.
      - intros (p & -> & [Hl Hp]%list_elem_of_filter). split; [by exists p | done].
      - intros [(p & -> & Hp) Hl]. exists p. split; [done|]. by apply list_elem_of_filter. }
    naive_solver.
Qed.

Lemma explained_input ds i properties :
  states (own i "input") properties ->
  states (own (foldl (fun i d => io_explain_one d i) i ds) "input") (kept_by (inputs ds) properties).
Proof.
  revert i properties. induction ds as [|d ds IH]; intros i properties Hs; cbn [foldl]; [done|].
  destruct d as [allowed|p|property|b|n].
  - change (inputs (Input allowed :: ds)) with (allowed :: inputs ds). cbn [kept_by foldl]. apply IH.
    cbn [io_explain_one]. unfold restrict_field. destruct Hs as (shape & Hs & Hi & Hp). rewrite Hs, own_assign_eq.
    apply restrict_states. by exists shape.
  - apply (IH _ properties). destruct p as [[]|names]; cbn [io_explain_one]; [done| |];
      unfold restrict_field; destruct (own i "output"); by rewrite own_assign_ne.
  - by apply IH.
  - apply (IH _ properties). cbn [io_explain_one]. by rewrite own_assign_ne.
  - by apply IH.
Qed.

Lemma explained_output ds i properties :
  states (own i "output") properties ->
  states (own (foldl (fun i d => io_explain_one d i) i ds) "output") (kept_by (outputs ds) properties).
Proof.
  revert i properties. induction ds as [|d ds IH]; intros i properties Hs; cbn [foldl]; [done|].
  assert (forall allowed, states (own (restrict_field "output" allowed i) "output") (filter (fun p => fst p ∈ allowed) properties)) as Hr.
  { intros allowed. unfold restrict_field. destruct Hs as (shape & Hs & Hi & Hp). rewrite Hs, own_assign_eq.
    apply restrict_states. by exists shape. }
  destruct d as [allowed|[[]|names]|property|b|n].
  - apply (IH _ properties). cbn [io_explain_one]. unfold restrict_field.
    destruct (own i "input"); by rewrite own_assign_ne.
  - by apply IH.
  - change (outputs (Output (Whole false) :: ds)) with ([] :: outputs ds). cbn [kept_by foldl]. apply IH, Hr.
  - change (outputs (Output (Listed names) :: ds)) with (names :: outputs ds). cbn [kept_by foldl]. apply IH, Hr.
  - by apply IH.
  - apply (IH _ properties). cbn [io_explain_one]. by rewrite own_assign_ne.
  - by apply IH.
Qed.

Lemma check_one allowed k v : check_body allowed (VObject [(k, v)]) = Ok (VObject [(k, v)]) <-> k ∈ allowed.
Proof.
  cbn. destruct (bool_decide_reflect (k ∉ allowed)) as [Hk|Hk]; cbn; split; intros; try done. by apply dec_stable.
Qed.

Lemma check_all_one lists k v :
  is_ok (check_all lists (VObject [(k, v)])) = true <-> in_all k lists.
Proof.
  unfold in_all. induction lists as [|l lists IH]; cbn [check_all]; [by split|].
  rewrite Forall_cons. destruct (decide (k ∈ l)) as [Hk|Hk].
  - rewrite (proj2 (check_one l k v) Hk). cbn [mbind result_bind]. rewrite IH. naive_solver.
  - destruct (check_body l (VObject [(k, v)])) as [b|e] eqn:Hb; cbn; [|naive_solver].
    exfalso. apply Hk, (check_one l k v). rewrite Hb. revert Hb. cbn. by case_match; intros [= <-].
Qed.

Section precall.
Context (sha256 : string -> string) (now : Z) (asking : Throttle.Context) (parameters : list (string * string)).

(** what is wanted of an output, narrowed by lists *)
Definition narrowed (wanted : option (list string)) (lists : list (list string)) : option (list string) :=
  foldl (fun w l => Some (match w with None => l | Some w => filter (fun n => n ∈ l) w end)) wanted lists.

Lemma precall_all_spec ds c c' :
  io_precall_all sha256 now asking parameters ds c = (Ok tt, c') ->
  checks c' = reverse (inputs ds) ++ checks c /\ output_ c' = narrowed (output_ c) (outputs ds).
Proof.
  revert c. induction ds as [|d ds IH]; intros c; cbn [io_precall_all]; [by intros [= ->]|].
  destruct d as [allowed|[[]|names]|property|b|n]; cbn [io_precall_one output_precall];
    try (intros H; apply IH in H as [Hc Ho]; done).
  - intros H. apply IH in H as [Hc Ho]. cbn in Hc, Ho. split; [|exact Ho]. rewrite Hc.
    change (inputs (Input allowed :: ds)) with (allowed :: inputs ds). by rewrite reverse_cons, <- app_assoc.
  - destruct (quotas_ c !! n) as [q|]; [|intros H; by apply IH in H as [Hc Ho]].
    destruct (check sha256 now asking parameters q) as [q' retry]. destruct (0 <? retry); [done|].
    intros H. by apply IH in H as [Hc Ho].
Qed.

Lemma narrowed_Some w lists :
  exists w', narrowed (Some w) lists = Some w' /\ forall k, k ∈ w' <-> k ∈ w /\ in_all k lists.
Proof.
  revert w. induction lists as [|l lists IH]; intros w; cbn [narrowed foldl].
  - exists w. split; [done|]. unfold in_all. naive_solver.
  - destruct (IH (filter (fun n => n ∈ l) w)) as (w' & Hw & Hin). exists w'. split; [exact Hw|].
    intros k. rewrite Hin, list_elem_of_filter. unfold in_all. rewrite Forall_cons. naive_solver.
Qed.

Lemma narrowed_None lists :
  lists <> [] -> exists w, narrowed None lists = Some w /\ forall k, k ∈ w <-> in_all k lists.
Proof.
  destruct lists as [|l lists]; [done|]. intros _. cbn [narrowed foldl].
  destruct (narrowed_Some l lists) as (w & Hw & Hin). exists w. split; [exact Hw|].
  intros k. rewrite Hin. unfold in_all. by rewrite Forall_cons.
Qed.

(** what a request wants once the family ran: everything only where that is said, nothing where nothing is *)
Lemma precall_output ds c c' :
  output_ c = None -> io_precall sha256 now asking parameters ds c = (Ok tt, c') ->
  checks c' = reverse (inputs ds) ++ checks c /\
  match output_ c' with
  | None => existsb restricts ds = true /\ outputs ds = []
  | Some w => (existsb restricts ds = false /\ w = []) \/ (outputs ds <> [] /\ forall k, k ∈ w <-> in_all k (outputs ds))
  end.
Proof.
  intros Hn. unfold io_precall. destruct (io_precall_all _ _ _ _ ds c) as [[[]|e] c1] eqn:Ha; [|done].
  destruct (precall_all_spec _ _ _ Ha) as [Hc Ho]. rewrite Hn in Ho.
  destruct (existsb restricts ds) eqn:Hr; intros [= <-].
  - split; [done|]. rewrite Ho. destruct (outputs ds) as [|l ls] eqn:Hls; [done|].
    destruct (narrowed_None (l :: ls) ltac:(done)) as (w & -> & Hw). by right.
  - split; [by destruct c1|]. cbn [output_precall DENIAL output_].
    assert (outputs ds = []) as Hnil.
    { clear - Hr. induction ds as [|d ds IH]; [done|]. cbn in Hr. apply orb_false_iff in Hr as [Hd Hr]. by destruct d; try (apply IH). }
    rewrite Ho, Hnil. cbn. by left.
Qed.
End precall.

(** ** Properties *)

Section properties.
Context (sha256 : string -> string) (now : Z) (asking : Throttle.Context) (parameters : list (string * string)).

(** A reply carries nothing it was not let through by every list of the method: of an object only
    properties that each of them names, and none of it at all where the method has no list and does not
    say that the reply passes whole. *)
Theorem reply_confined ds c c' fields_ e :
  output_ c = None -> io_precall sha256 now asking parameters ds c = (Ok tt, c') ->
  exists o, restrict (Answer (mkReply (Some (Value (VObject fields_))) e)) (output_ c') = Answer (mkReply o e) /\
    (existsb restricts ds = false -> o = None) /\
    forall v, o = Some v -> exists kept, v = Value (VObject kept) /\
      forall k x, (k, x) ∈ kept -> (k, x) ∈ fields_ /\ in_all k (outputs ds).
Proof.
  intros Hn Hp. destruct (precall_output _ _ _ _ _ _ _ Hn Hp) as [_ Ho]. destruct (output_ c') as [w|].
  - destruct w as [|n w].
    + exists None. split; [done|]. split; [done|]. done.
    + destruct Ho as [[_ ?]|[Hl Hin]]; [done|].
      exists (Some (Value (VObject (fit fields_ (n :: w))))). split; [done|]. split.
      * intros Hr. exfalso. apply Hl. clear - Hr. induction ds as [|d ds IH]; [done|].
        cbn in Hr. apply orb_false_iff in Hr as [Hd Hr]. by destruct d; try (apply IH).
      * intros v [= <-]. eexists. split; [done|]. intros k x [Hk Hx]%list_elem_of_filter.
        split; [done|]. by apply Hin.
  - exists (Some (Value (VObject fields_))). split; [done|]. destruct Ho as [Hr Hl]. split; [by rewrite Hr|].
    intros v [= <-]. exists fields_. split; [done|]. intros k x Hx. rewrite Hl. split; [done | constructor].
Qed.

(** What is said of a method is what is done by it: of the properties its operation states, those a
    client is told it may send are those a body with it is let through with, and those it is told it is
    sent are those a reply keeps. *)
Theorem described_enforced ds c c' introspection input output :
  output_ c = None -> checks c = [] -> io_precall sha256 now asking parameters ds c = (Ok tt, c') ->
  states (own introspection "input") input -> states (own introspection "output") output ->
  (exists said, states (own (io_explain ds introspection) "input") said /\
    forall k, k ∈ fst <$> said <-> k ∈ fst <$> input /\
      forall v, is_ok (check_all (checks c') (VObject [(k, v)])) = true) /\
  match own (io_explain ds introspection) "output" with
  | None => output_ c' = Some []
  | Some schema => exists said, states (Some schema) said /\
      forall k, k ∈ fst <$> said <-> k ∈ fst <$> output /\
        forall v e, restrict (Answer (mkReply (Some (Value (VObject [(k, v)]))) e)) (output_ c') =
          Answer (mkReply (Some (Value (VObject [(k, v)]))) e)
  end.
Proof.
  intros Hn Hc Hp Hi Ho. destruct (precall_output _ _ _ _ _ _ _ Hn Hp) as [Hch Hw].
  rewrite Hc, app_nil_r in Hch. unfold io_explain. set (i := foldl _ introspection ds).
  pose proof (explained_input ds introspection input Hi) as Hsi. pose proof (explained_output ds introspection output Ho) as Hso.
  fold i in Hsi, Hso. split.
  - exists (kept_by (inputs ds) input). split.
    + destruct (existsb restricts ds); [done|]. by rewrite own_without.
    + intros k. rewrite kept_by_names. rewrite Hch. split.
      * intros [Hk Hl]. split; [done|]. intros v. by apply check_all_one, in_all_reverse.
      * intros [Hk Hl]. split; [done|]. specialize (Hl VNull). apply check_all_one in Hl. by apply in_all_reverse.
  - destruct (existsb restricts ds) eqn:Hr.
    + destruct Hso as (shape & Hs & Hso). rewrite Hs. exists (kept_by (outputs ds) output).
      split; [by exists shape|]. intros k. rewrite kept_by_names. destruct (output_ c') as [w|].
      * destruct Hw as [[? _]|[_ Hin]]; [done|]. rewrite <- Hin. destruct w as [|n w].
        -- split; [by intros [_ ?%elem_of_nil]|]. intros [_ H]. by specialize (H VNull None).
        -- split; intros [Hk Hx]; split; try done.
           ++ intros v e. unfold restrict, restrict_reply. cbn [r_output is_nullish restrict_output fit]. unfold fit.
              by rewrite filter_cons_True.
           ++ specialize (Hx VNull None). unfold restrict, restrict_reply in Hx.
              cbn [r_output is_nullish restrict_output fit] in Hx. unfold fit in Hx.
              destruct (decide (k ∈ n :: w)) as [|Hnk]; [done|]. by rewrite filter_cons_False in Hx.
      * destruct Hw as [_ Hl]. rewrite Hl. unfold in_all. split; intros [Hk _]; (split; [done|]); [done | constructor].
    + assert (own (without "output" i) "output" = None) as ->.
      { apply own_None. rewrite list_elem_of_fmap. intros ([k x] & -> & [H _]%list_elem_of_filter). done. }
      destruct (output_ c') as [w|]; [|by destruct Hw].
      destruct Hw as [[_ ->]|[Hl _]]; [done|]. exfalso. apply Hl. clear - Hr.
      induction ds as [|d ds IH]; [done|]. cbn in Hr. apply orb_false_iff in Hr as [Hd Hr]. by destruct d; try (apply IH).
Qed.
End properties.

(** ** A method of pots *)

Module Pots.
Definition ds : list io := [Input ["title"; "volume"]; Output (Listed ["id"; "title"]); Input ["title"]].
Definition c : Context := mkContext None [] false None [].
Definition asking : Throttle.Context := Throttle.mkContext 0 None "/pots/" None.
Definition after : Context := snd (io_precall Datatypes.id 0 asking [] ds c).
Definition object (names : list string) : value := VObject [("properties", VObject ((fun n => (n, VNull)) <$> names))].
Definition told : fields :=
  [("input", object ["title"; "volume"; "owner"]); ("output", object ["id"; "title"; "secret"])].

Lemma reply_confined_witness :
  exists o, restrict (Answer (mkReply (Some (Value (VObject [("id", VNull); ("secret", VNull)]))) None)) (output_ after) =
    Answer (mkReply o None) /\
  forall v, o = Some v -> exists kept, v = Value (VObject kept) /\
    forall k x, (k, x) ∈ kept -> (k, x) ∈ [("id", VNull); ("secret", VNull)] /\ in_all k [["id"; "title"]].
Proof.
  destruct (reply_confined Datatypes.id 0 asking [] ds c after [("id", VNull); ("secret", VNull)] None)
    as (o & H1 & _ & H2); [reflexivity..|]. exists o. split; [exact H1 | exact H2].
Defined.

Lemma described_enforced_witness :
  exists said, states (own (io_explain ds told) "input") said /\
    forall k, k ∈ fst <$> said <-> k ∈ ["title"; "volume"; "owner"] /\
      forall v, is_ok (check_all (checks after) (VObject [(k, v)])) = true.
Proof.
  destruct (described_enforced Datatypes.id 0 asking [] ds c after told
    [("title", VNull); ("volume", VNull); ("owner", VNull)] [("id", VNull); ("title", VNull); ("secret", VNull)])
    as [H _]; [reflexivity | reflexivity | reflexivity | | | exact H];
    eexists; (split; [reflexivity | split; reflexivity]).
Defined.
End Pots.
