(* ===== verification/Authorization.v ===== *)
(** * Authorization

    [extensions/exposition/source/directives/auth/]: the family of directives that says who a request
    is of and whether they may make it: authentication ([preflight]), the directives ([authorize]),
    what they say of a method without a request ([admits], [describe]), and the credential a reply
    carries ([depart]). What [extensions/exposition/components/identity.*] answer is an argument.

    An identity is an object a request carries and directives change. What [authorize] is handed is
    that object or nothing, so that it is told here by whether there was one. *)
From S2P Require Import Prelude Directives Throttle Restrictions.

Open Scope Z_scope.

(** ** Data *)

(** what is thrown: a refusal of the request, or an error *)
Inductive thrown :=
| Refused (status : Z) (body : option string)
| TooManyRequests (retry : Z)
| Error (message : string).

Definition Unauthorized : thrown := Refused 401 None.
Definition Forbidden : thrown := Refused 403 None.

Inductive claim := One (s : string) | Many (ss : list string).

Record Identity := mkIdentity {
  id : string;
  roles : option (list string);
  permissions : option (list (string * list string));
  aud : option (list string);
  scheme : option string;
  provider : option string;
  refresh : bool;
  claims : option (list (string * claim))
}.

Inductive matcher := Authority | Domain | Placeholder (name : string) | Literal (reference : string).

Inductive directive :=
| Anonymous (allow : bool)
| Anyone (allow : bool)
| Id (parameter : option string)
| Role (roles : list string)
| Rule (directives : list directive)
| Incept (property : option string)
| Assert (enabled : bool)
| Scheme (scheme : string)
| Echo
| Refresh
| Delegate (property : string)
| Federation (matchers : list (string * matcher))
(** properties, and what whoever sends one of them is authorized by *)
| Input (statements : list (list string * list directive))
| Transfer (property : string).

Notation parameters := (list (string * string)) (only parsing).

(** what is done to the body before the operation is called *)
Inductive pipe :=
| Checked (present : bool) (ps : parameters) (statements : list (list string * list directive))
| Embedded (property : string)
| Transferred (property credential : string).

(** what a request carries *)
Record Context := mkContext {
  request_ : nat;
  ip_ : option string;
  authorization : option string;
  method_ : string;
  hostname : string;
  pathname_ : string;
  authority : string;
  procedural : bool;
  exploratory : bool;
  reads : bool;
  identity_ : option Identity;
  rejection : option string;
  vetted : bool;
  pipelines : list pipe;
  (** the pipeline of the response sets it created *)
  created : bool;
  (** what the response was given: a credential, and not to be stored *)
  token : option string;
  no_store : bool;
  (** failed authentications per address, and identities minted: of the process *)
  meter : option Quotas;
  minted : nat
}.

(** what an output or a response is made of here: its status and its body *)
Record Response := mkResponse { status : option Z; body : option value }.

(** a stage of the family: what it answers or throws, and what it leaves *)
Definition M (A : Type) : Type := Context -> result thrown A * Context.

#[export] Instance M_ret : MRet M := fun A a c => (Ok a, c).

#[export] Instance M_bind : MBind M := fun A B f m c =>
  match m c with
  | (Ok a, c) => f a c
  | (Throw e, c) => (Throw e, c)
  end.

#[export] Instance M_fmap : FMap M := fun A B f m c =>
  match m c with
  | (Ok a, c) => (Ok (f a), c)
  | (Throw e, c) => (Throw e, c)
  end.

Definition throw {A} (e : thrown) : M A := fun c => (Throw e, c).
Definition lift {A} (r : result thrown A) : M A := fun c => (r, c).
Definition ask {A} (f : Context -> A) : M A := fun c => (Ok (f c), c).
Definition change (f : Context -> Context) : M unit := fun c => (Ok tt, f c).

Definition with_identity (i : option Identity) (c : Context) : Context :=
  mkContext (request_ c) (ip_ c) (authorization c) (method_ c) (hostname c) (pathname_ c) (authority c) (procedural c)
    (exploratory c) (reads c) i (rejection c) (vetted c) (pipelines c) (created c) (token c) (no_store c) (meter c) (minted c).

Definition with_rejection (code : option string) (c : Context) : Context :=
  mkContext (request_ c) (ip_ c) (authorization c) (method_ c) (hostname c) (pathname_ c) (authority c) (procedural c)
    (exploratory c) (reads c) (identity_ c) code (vetted c) (pipelines c) (created c) (token c) (no_store c) (meter c) (minted c).

Definition with_vetted (c : Context) : Context :=
  mkContext (request_ c) (ip_ c) (authorization c) (method_ c) (hostname c) (pathname_ c) (authority c) (procedural c)
    (exploratory c) (reads c) (identity_ c) (rejection c) true (pipelines c) (created c) (token c) (no_store c) (meter c) (minted c).

Definition push_pipe (p : pipe) (c : Context) : Context :=
  mkContext (request_ c) (ip_ c) (authorization c) (method_ c) (hostname c) (pathname_ c) (authority c) (procedural c)
    (exploratory c) (reads c) (identity_ c) (rejection c) (vetted c) (pipelines c ++ [p]) (created c) (token c)
    (no_store c) (meter c) (minted c).

Definition with_created (c : Context) : Context :=
  mkContext (request_ c) (ip_ c) (authorization c) (method_ c) (hostname c) (pathname_ c) (authority c) (procedural c)
    (exploratory c) (reads c) (identity_ c) (rejection c) (vetted c) (pipelines c) true (token c) (no_store c) (meter c) (minted c).

Definition with_reads (c : Context) : Context :=
  mkContext (request_ c) (ip_ c) (authorization c) (method_ c) (hostname c) (pathname_ c) (authority c) (procedural c)
    (exploratory c) true (identity_ c) (rejection c) (vetted c) (pipelines c) (created c) (token c) (no_store c) (meter c) (minted c).

Definition with_token (t : option string) (c : Context) : Context :=
  mkContext (request_ c) (ip_ c) (authorization c) (method_ c) (hostname c) (pathname_ c) (authority c) (procedural c)
    (exploratory c) (reads c) (identity_ c) (rejection c) (vetted c) (pipelines c) (created c)
    (match t with Some _ => t | None => token c end) true (meter c) (minted c).

Definition with_meter (m : option Quotas) (c : Context) : Context :=
  mkContext (request_ c) (ip_ c) (authorization c) (method_ c) (hostname c) (pathname_ c) (authority c) (procedural c)
    (exploratory c) (reads c) (identity_ c) (rejection c) (vetted c) (pipelines c) (created c) (token c) (no_store c) m (minted c).

Definition mint (c : Context) : result thrown nat * Context :=
  (Ok (minted c),
   mkContext (request_ c) (ip_ c) (authorization c) (method_ c) (hostname c) (pathname_ c) (authority c) (procedural c)
    (exploratory c) (reads c) (identity_ c) (rejection c) (vetted c) (pipelines c) (created c) (token c) (no_store c)
    (meter c) (S (minted c))).

(** the object the request's identity is, changed in place *)
Definition changed (f : Identity -> Identity) : M unit := change (fun c => with_identity (f <$> identity_ c) c).

Definition with_roles (rs : list string) (i : Identity) : Identity :=
  mkIdentity (id i) (Some rs) (permissions i) (aud i) (scheme i) (provider i) (refresh i) (claims i).

Definition with_refresh (b : bool) (i : Identity) : Identity :=
  mkIdentity (id i) (roles i) (permissions i) (aud i) (scheme i) (provider i) b (claims i).

Definition with_scheme (s : string) (i : Identity) : Identity :=
  mkIdentity (id i) (roles i) (permissions i) (aud i) (Some s) (provider i) (refresh i) (claims i).

(** what a provider answers credentials with *)
Inductive answer :=
| Authenticated (identity : Identity) (refresh : bool)
| Rejected (code : option string).

(** ** Schemes *)

Definition PROVIDERS : list (string * list string) :=
  [("basic", ["basic"]); ("token", ["tokens"]); ("bearer", ["tokens"; "federation"]); ("code", ["federation"]);
   ("otp", ["otp"])].
Definition INCEPTION : list string := ["basic"; "federation"].
Definition PRIMARY : string := "tokens".
Definition UNRECOGNIZED : string := "UNRECOGNIZED".
Definition UNKNOWN : string := "NOT_FOUND".
Definition UNREFRESHABLE : string := "UNREFRESHABLE".

Definition providers (scheme : string) : option (list string) := own PROVIDERS scheme.

Definition lower (c : ascii) : ascii :=
  let n := nat_of_ascii c in if ((65 <=? n) && (n <=? 90))%nat then ascii_of_nat (n + 32) else c.
Definition upper (c : ascii) : ascii :=
  let n := nat_of_ascii c in if ((97 <=? n) && (n <=? 122))%nat then ascii_of_nat (n - 32) else c.
Definition toLowerCase (s : string) : string := of_chars (lower <$> chars s).

(** the text before the first separator, and after it *)
Fixpoint cut (sep : ascii) (before s : list ascii) : option (list ascii * list ascii) :=
  match s with
  | [] => None
  | c :: s => if decide (c = sep) then Some (reverse before, s) else cut sep (c :: before) s
  end.

Definition split_ (authorization : string) : result thrown (string * string) :=
  match cut " "%char [] (chars authorization) with
  | None => Throw (Refused 401 (Some "Malformed authorization header"))
  | Some (scheme, credentials) => Ok (toLowerCase (of_chars scheme), of_chars credentials)
  end.

(** ** Scopes *)

Fixpoint startsWith (s prefix : string) : bool :=
  match prefix, s with
  | EmptyString, _ => true
  | String c prefix, String d s => bool_decide (c = d) && startsWith s prefix
  | String _ _, EmptyString => false
  end.

(** whether one of the roles an identity has covers one of those required *)
Definition match_roles (required held : list string) : bool :=
  existsb (fun role => existsb (fun expected =>
    bool_decide (expected = role) || startsWith expected (role +:+ ":")) required) held.

Definition word (c : ascii) : bool :=
  let n := nat_of_ascii c in
  ((48 <=? n) && (n <=? 57) || (65 <=? n) && (n <=? 90) || (97 <=? n) && (n <=? 122) || (n =? 95))%nat.

(** [role.replaceAll(/{(\w+)}/g, ...)]: the word after a brace that is open *)
Fixpoint replace (role : string) (ps : parameters) (open_ : option (list ascii)) (s : list ascii)
    : result thrown (list ascii) :=
  let pending := match open_ with None => [] | Some w => "{"%char :: reverse w end in
  match s with
  | [] => Ok pending
  | c :: s =>
      if decide (c = "{"%char) then rest ← replace role ps (Some []) s; Ok (pending ++ rest)
      else
        match open_ with
        | None => rest ← replace role ps None s; Ok (c :: rest)
        | Some w =>
            if word c then replace role ps (Some (c :: w)) s
            else if decide (c = "}"%char /\ w <> []) then
              let key := of_chars (reverse w) in
              match own ps key with
              | None => Throw (Error ("Role '" +:+ role +:+ "' requires '" +:+ key +:+ "' route parameter"))
              | Some value => rest ← replace role ps None s; Ok (chars value ++ rest)
              end
            else rest ← replace role ps None s; Ok (pending ++ c :: rest)
        end
  end.

Definition substitute (required : list string) (ps : parameters) : result thrown (list string) :=
  mapM (fun role => of_chars <$> replace role ps None (chars role)) required.

Definition dynamic (required : list string) : bool := existsb (fun role => bool_decide ("{"%char ∈ chars role)) required.

(** ** What is asked of others *)

Section authorization.
(** components of identities: the roles of one, whether it is banned, who credentials are of by a
    provider of a scheme, whether a token may be refreshed, an inception, and a token of an identity *)
Context (list_roles : string -> result thrown (list string)).
Context (observe_bans : string -> result thrown bool).
Context (authenticate : string -> string -> string -> string -> result thrown answer).
Context (force : string -> string -> result thrown answer).
Context (inception : string -> string -> string -> string -> string -> result thrown (option Identity)).
Context (encrypt : string -> Identity -> result thrown string).
(** [newid], [new URL] as a host and a path, [Minimatch], and the digest of a key *)
Context (newid : nat -> string) (url : string -> option (string * string)) (glob : string -> string -> bool).
Context (sha256 : string -> string).
Context (now : Z).

(** ** Directives *)

(** [identity.roles ??= await Role.get(identity)], of the request's identity *)
Definition own_roles (i : Identity) : M (list string) :=
  match roles i with
  | Some rs => mret rs
  | None => rs ← lift (list_roles (id i)); _ ← changed (with_roles rs); mret rs
  end.

Definition acceptable (c : Context) : bool :=
  bool_decide (authorization c = None) || bool_decide (rejection c = Some UNKNOWN).

(** [Incept.incept] *)
Definition incept (i : string) : M Identity :=
  header ← ask authorization;
  '(scheme, credentials) ← lift (split_ (default "" header));
  match providers scheme with
  | None => throw (Refused 400 (Some "Authentication scheme is not supported"))
  | Some candidates =>
      match List.find (fun p => bool_decide (p ∈ INCEPTION)) candidates with
      | None => throw Unauthorized
      | Some provider =>
          banned ← lift (observe_bans i);
          if banned : bool then throw Unauthorized
          else
            at_ ← ask authority;
            made ← lift (inception provider scheme at_ i credentials);
            match made with
            | None => throw (Refused 422 None)
            | Some identity => mret (with_scheme scheme identity)
            end
      end
  end.

(** [create]: an identity nobody holds *)
Definition transient (credentials : option string) : M Identity :=
  n ← mint;
  mret (mkIdentity (newid n) (Some []) None None
    ((fun s => match cut " "%char [] (chars s) with Some (w, _) => of_chars w | None => s end) <$> credentials)
    None false None).

Definition matches_claim (value : option claim) (reference : string) : bool :=
  match value with
  | Some (One s) => bool_decide (s = reference)
  | Some (Many ss) => bool_decide (reference ∈ ss)
  | None => false
  end.

(** [string.slice(-n)] *)
Definition slice_last (n : nat) (s : string) : string :=
  match n with
  | O => s
  | _ => of_chars (drop (String.length s - n) (chars s))
  end.

Definition codomain (iss : option string) (at_ : string) : result thrown bool :=
  match iss ≫= url with
  | None => Throw (Error "Invalid URL")
  | Some (host, _) =>
      let basename := match cut "."%char [] (chars host) with
                      | None => host
                      | Some (_, rest) => of_chars ("."%char :: rest)
                      end in
      Ok (bool_decide (slice_last (String.length basename) at_ = basename))
  end.

Fixpoint some_codomain (isses : list string) (at_ : string) : result thrown bool :=
  match isses with
  | [] => Ok false
  | iss :: isses => b ← codomain (Some iss) at_; if b : bool then Ok true else some_codomain isses at_
  end.

Definition run_matcher (m : matcher) (value : option claim) (at_ : string) (ps : parameters) : result thrown bool :=
  match m with
  | Authority => Ok (matches_claim value at_)
  | Domain =>
      match value with
      | Some (Many isses) => some_codomain isses at_
      | Some (One iss) => codomain (Some iss) at_
      | None => codomain None at_
      end
  | Placeholder name => Ok (existsb (fun '(n, v) => bool_decide (n = name) && matches_claim value v) ps)
  | Literal reference => Ok (matches_claim value reference)
  end.

Fixpoint run_matchers (ms : list (string * matcher)) (cs : list (string * claim)) (at_ : string) (ps : parameters)
    : result thrown bool :=
  match ms with
  | [] => Ok true
  | (key, m) :: ms =>
      b ← run_matcher m (own cs key) at_ ps;
      if b : bool then run_matchers ms cs at_ ps else Ok false
  end.

(** whether it admits the request; [present] is whether it was handed an identity *)
Fixpoint authorize (present : bool) (d : directive) (ps : parameters) : M bool :=
  c ← ask Datatypes.id;
  let handed := if present then identity_ c else None in
  match d with
  | Anonymous allow =>
      if procedural c || exploratory c then mret allow
      else mret (match authorization c with Some _ => false | None => allow end)
  | Anyone allow => mret (bool_decide (is_Some (identity_ c)) && allow)
  | Id parameter =>
      mret (match handed with
            | None => false
            | Some i => match parameter ≫= own ps with Some v => bool_decide (v = id i) | None => false end
            end)
  | Role required =>
      match handed with
      | None => mret false
      | Some i =>
          held ← own_roles i;
          required ← lift (if dynamic required then substitute required ps else Ok required);
          mret (match_roles required held)
      end
  | Rule ds =>
      (fix all (ds : list directive) : M bool :=
         match ds with
         | [] => mret true
         | d :: ds => ok ← authorize present d ps; if ok : bool then all ds else mret false
         end) ds
  | Incept _ => mret (bool_decide (handed = None) && acceptable c)
  | Assert enabled =>
      if negb enabled then mret false
      else
        match authorization c, handed with
        | None, _ => throw Unauthorized
        | Some _, Some _ => mret false
        | Some _, None =>
            if negb (acceptable c) then throw Unauthorized
            else
              n ← mint;
              i ← incept (newid n);
              _ ← change (fun c => with_created (with_identity (Some i) c));
              mret false
        end
  | Scheme name =>
      match authorization c with
      | None => mret false
      | Some header =>
          '(scheme, _) ← lift (split_ header);
          if decide (scheme <> toLowerCase name) then
            throw (Refused 403 (Some
              (of_chars (match chars name with [] => [] | c :: rest => upper c :: rest end) +:+
               " authentication scheme is required to access this resource")))
          else mret false
      end
  | Echo =>
      match handed, authorization c with
      | None, Some _ => mret false
      | _, _ =>
          match identity_ c with
          | Some _ => mret true
          | None => i ← transient None; _ ← change (with_identity (Some i)); mret true
          end
      end
  | Refresh =>
      match handed with
      | None => mret false
      | Some i =>
          if decide (provider i <> Some PRIMARY) then mret true
          else
            '(_, credentials) ← lift (split_ (default "" (authorization c)));
            answered ← lift (force (authority c) credentials);
            match answered with
            | Rejected code => if decide (code = Some UNREFRESHABLE) then mret false else throw Unauthorized
            | Authenticated _ _ => _ ← changed (with_refresh true); mret true
            end
      end
  | Delegate property =>
      match handed with
      | None => mret false
      | Some i => _ ← own_roles i; _ ← change (push_pipe (Embedded property)); mret true
      end
  | Federation ms =>
      match handed ≫= claims with
      | None => mret false
      | Some cs => lift (run_matchers ms cs (authority c) ps)
      end
  | Input statements => _ ← change (push_pipe (Checked present ps statements)); mret false
  | Transfer property =>
      if procedural c then mret false
      else
        match authorization c with
        | None => mret true
        | Some credential => _ ← change (push_pipe (Transferred property credential)); mret true
        end
  end.

(** Whether it admits an identity where that can be told without a request. *)
Fixpoint admits (present : bool) (d : directive) : M (option bool) :=
  c ← ask Datatypes.id;
  let handed := if present then identity_ c else None in
  let absent := match handed with None => true | Some _ => false end in
  match d with
  | Anonymous _ | Anyone _ => Some <$> authorize present d []
  | Id _ | Refresh | Federation _ => mret (if absent then Some false else None)
  | Role required =>
      if dynamic required then mret None
      else
        match handed with
        | None => mret (Some false)
        | Some i => held ← own_roles i; mret (Some (match_roles required held))
        end
  | Rule ds =>
      (fix all (ds : list directive) (untold : bool) : M (option bool) :=
         match ds with
         | [] => mret (if untold then None else Some true)
         | d :: ds =>
             it ← admits present d;
             match it with
             | None => all ds true
             | Some true => all ds untold
             | Some false => mret (Some false)
             end
         end) ds false
  | Incept _ => mret None
  | Assert _ | Scheme _ | Input _ => mret (Some false)
  | Echo => mret (Some (negb (absent && bool_decide (is_Some (authorization c)))))
  | Delegate _ => mret (Some (negb absent))
  | Transfer _ => mret (Some (negb (procedural c)))
  end.

(** ** The family *)

(** [Transfer] alone where there is one, and what checks input before what admits *)
Definition transfers (d : directive) : bool := match d with Transfer _ => true | _ => false end.
Definition incepts (d : directive) : bool := match d with Incept _ => true | _ => false end.
Definition priority (d : directive) : nat := match d with Input _ => 0 | _ => 1 end.

Definition arrange_ (ds : list directive) : list directive :=
  stable_sort (by_rank priority)
    (match List.find transfers ds with Some d => [d] | None => ds end).

(** [permits] *)
Definition permits (permissions : list (string * list string)) (method pathname : string) : bool :=
  existsb (fun '(pattern, methods) =>
    existsb (fun allowed => bool_decide (allowed = "*") || bool_decide (allowed = method)) methods &&
    glob pattern pathname) permissions.

Definition permitted (c : Context) : bool :=
  match identity_ c ≫= permissions with
  | None => true
  | Some p => permits p (method_ c) (pathname_ c)
  end.

(** without the slash it ends with *)
Definition stripped (declared : string) : string :=
  match reverse (chars declared) with
  | "/"%char :: rest => of_chars (reverse rest)
  | _ => declared
  end.

Definition prefixed (declared pathname : string) : bool :=
  let prefix := stripped declared in
  bool_decide (prefix = "") || bool_decide (pathname = prefix) || startsWith pathname (prefix +:+ "/").

Definition covers (value : string) (host pathname : string) : bool :=
  if startsWith value "/" then prefixed value pathname
  else
    match url value with
    | None => false
    | Some (host', path) => bool_decide (host' = host) && prefixed path pathname
    end.

Definition audience (audiences : list string) (host pathname : string) : bool :=
  existsb (fun value => covers value host pathname) audiences.

(** what a directive replies instead of the operation *)
Definition reply (as_value : Identity -> value) (d : directive) : M (option Response) :=
  c ← ask Datatypes.id;
  match d with
  | Incept None => i ← transient (authorization c); mret (Some (mkResponse None (Some (as_value i))))
  | Echo =>
      match identity_ c with
      | None => throw (Error "Cannot read properties of null (reading 'scheme')")
      | Some i => mret (Some (mkResponse (match scheme i with None => Some 201 | Some _ => None end) (Some (as_value i))))
      end
  | Refresh => mret (Some (mkResponse (Some 200) (as_value <$> identity_ c)))
  | _ => mret None
  end.

Fixpoint decide_ (as_value : Identity -> value) (ds : list directive) (ps : parameters) : M (option Response) :=
  match ds with
  | [] =>
      who ← ask identity_;
      match who with None => throw Unauthorized | Some _ => throw Forbidden end
  | d :: ds =>
      who ← ask identity_;
      allow ← authorize (bool_decide (is_Some who)) d ps;
      if allow : bool then
        ok ← ask permitted;
        if ok : bool then reply as_value d else throw Forbidden
      else decide_ as_value ds ps
  end.

Definition precall_ (as_value : Identity -> value) (ds : list directive) (ps : parameters) : M (option Response) :=
  _ ← (if existsb incepts ds then change with_reads else mret tt);
  decide_ as_value ds ps.

Fixpoint admits_any (ds : list directive) (untold : bool) : M bool :=
  match ds with
  | [] => mret untold
  | d :: ds =>
      who ← ask identity_;
      it ← admits (bool_decide (is_Some who)) d;
      match it with
      | None => admits_any ds true
      | Some true => mret true
      | Some false => admits_any ds untold
      end
  end.

(** *** Authentication *)

Definition banned (i : Identity) : M bool := lift (observe_bans (id i)).

Definition declined (a : answer) : bool :=
  match a with Rejected (Some code) => bool_decide (code = UNRECOGNIZED) | _ => false end.

(** the first provider that does not decline answers for the credentials *)
Fixpoint claim_ (candidates : list string) (scheme at_ credentials : string) : result thrown (option (string * answer)) :=
  match candidates with
  | [] => Ok None
  | candidate :: candidates =>
      answered ← authenticate candidate scheme at_ credentials;
      if declined answered then claim_ candidates scheme at_ credentials
      else Ok (Some (candidate, answered))
  end.

Definition metered (f : Quotas -> Quotas) : M unit := change (fun c => with_meter (f <$> meter c) c).

(** the seconds the address is to wait, of a request as the meter reads it *)
Definition as_metered (c : Context) : Throttle.Context := Throttle.mkContext (request_ c) (ip_ c) (pathname_ c) (id <$> identity_ c).

Definition wait : M Z :=
  c ← ask Datatypes.id;
  match meter c with
  | None => mret 0
  | Some q => let '(q, retry) := check sha256 now (as_metered c) [] q in _ ← change (with_meter (Some q)); mret retry
  end.

Definition failed (code : option string) : M (option Identity) :=
  _ ← (match code with None => mret tt | Some _ => change (with_rejection code) end);
  c ← ask Datatypes.id;
  _ ← metered (use sha256 now (as_metered c) None);
  mret None.

Definition resolve : M (option Identity) :=
  header ← ask authorization;
  match header with
  | None => mret None
  | Some header =>
      retry ← wait;
      if 0 <? retry then throw (TooManyRequests retry)
      else
        '(scheme, credentials) ← lift (split_ header);
        match providers scheme with
        | None => throw (Refused 401 (Some ("Unknown authentication scheme '" +:+ scheme +:+ "'")))
        | Some candidates =>
            at_ ← ask authority;
            claimed ← lift (claim_ candidates scheme at_ credentials);
            match claimed with
            | None => failed (Some UNRECOGNIZED)
            | Some (_, Rejected code) => failed code
            | Some (candidate, Authenticated i again) =>
                _ ← (if decide (candidate <> PRIMARY) then
                       out ← banned i;
                       if out : bool then throw Unauthorized else change with_vetted
                     else mret tt);
                mret (Some (mkIdentity (id i) (roles i) (permissions i) (aud i) (Some scheme) (Some candidate) again (claims i)))
            end
        end
  end.

Definition preflight_ (ds : option (list directive)) : M unit :=
  header ← ask authorization;
  match header with
  | None => change (with_identity None)
  | Some _ =>
      if existsb transfers (default [] ds) then change (with_identity None)
      else
        who ← resolve;
        _ ← change (with_identity who);
        c ← ask Datatypes.id;
        match who ≫= aud with
        | Some audiences => if audience audiences (hostname c) (pathname_ c) then mret tt else throw Unauthorized
        | None => mret tt
        end
  end.

(** *** What a response is given *)

Definition property_of (body : option value) (name : string) : option value :=
  match body with Some (VObject fields) => own fields name | _ => None end.

Definition settle_one (response : Response) (d : directive) : M unit :=
  match d with
  | Incept property =>
      match property_of (body response) (default "id" property) with
      | None | Some VUndefined => mret tt
      | Some (VString i) =>
          header ← ask authorization;
          match header with
          | Some _ => made ← incept i; change (with_identity (Some made))
          | None =>
              rs ← lift (list_roles i);
              change (with_identity (Some (mkIdentity i (Some rs) None None None None true None)))
          end
      | Some _ => throw (Error ("Response body property " +:+ quoted (default "null" property) +:+ " expected to be a string"))
      end
  | Transfer _ => change (with_token None)
  | _ => mret tt
  end.

Fixpoint settle_ (ds : list directive) (response : Response) : M unit :=
  match ds with
  | [] => mret tt
  | d :: ds => _ ← settle_one response d; settle_ ds response
  end.

Definition depart_ : M unit :=
  c ← ask Datatypes.id;
  match identity_ c with
  | None => mret tt
  | Some i =>
      if bool_decide (provider i = Some PRIMARY) && negb (refresh i) then mret tt
      else
        out ← (if vetted c then mret false else banned i);
        if out : bool then throw Unauthorized
        else
          _ ← (if decide (provider i = Some PRIMARY) then
                 rs ← lift (list_roles (id i)); changed (with_roles rs)
               else _ ← own_roles i; mret tt);
          who ← ask identity_;
          t ← lift (encrypt (authority c) (default i who));
          change (with_token (Some ("Token " +:+ t)))
  end.
(** *** Making directives of what is declared *)

(** [String(value)], of a property's name *)
Context (text : value -> string).

Definition truthy (v : value) : bool :=
  match v with
  | VUndefined | VNull | VBool false | VNumber 0 => false
  | VString s => negb (bool_decide (s = ""))
  | _ => true
  end.

Definition strings (vs : list value) : result thrown (list string) :=
  mapM (fun v => match v with VString s => Ok s | _ => Throw (Error "role.includes is not a function") end) vs.

Definition toMatcher (expression : string) : result thrown matcher :=
  match chars expression with
  | ":"%char :: key =>
      match of_chars key with
      | "authority" => Ok Authority
      | "domain" => Ok Domain
      | _ => Throw (Error ("Unknown `auth:claims` syntax: " +:+ expression))
      end
  | "/"%char :: ":"%char :: name => Ok (Placeholder (of_chars name))
  | _ => Ok (Literal expression)
  end.

Definition not_implemented (name : string) : thrown := Error ("Directive 'auth:" +:+ name +:+ "' is not implemented").

(** A list, where a rule is stated, is an object of its indices. *)
Fixpoint make_directive (name : string) (v : value) : result thrown directive :=
  if decide (name = "anonymous") then Ok (Anonymous (truthy v))
  else if decide (name = "anyone") then Ok (Anyone (truthy v))
  else if decide (name = "id") then Ok (Id (match v with VString s => Some s | _ => None end))
  else if decide (name = "role") then
    match v with
    | VString s => Ok (Role [s])
    | VArray vs => Role <$> strings vs
    | _ => Throw (Error "this.roles.some is not a function")
    end
  else if decide (name = "rule") then
    match v with
    | VObject fs =>
        Rule <$> (fix all (fs : list (string * value)) : result thrown (list directive) :=
          match fs with
          | [] => Ok []
          | (n, x) :: fs => d ← make_directive n x; ds ← all fs; Ok (d :: ds)
          end) fs
    | VArray vs =>
        Rule <$> (fix all (i : nat) (vs : list value) : result thrown (list directive) :=
          match vs with
          | [] => Ok []
          | x :: vs => d ← make_directive (show (Z.of_nat i)) x; ds ← all (S i) vs; Ok (d :: ds)
          end) 0%nat vs
    | VString s => if decide (s = "") then Ok (Rule []) else Throw (not_implemented "0")
    | VNull | VUndefined => Throw (Error "Cannot convert undefined or null to object")
    | _ => Ok (Rule [])
    end
  else if decide (name = "incept") then
    match v with
    | VNull => Ok (Incept None)
    | VString s => Ok (Incept (Some s))
    | _ => Throw (Error "`auth:incept` value must be a string or null")
    end
  else if decide (name = "assert") then
    match v with VBool b => Ok (Assert b) | _ => Throw (Error "`auth:assert` directive value must be a boolean") end
  else if decide (name = "scheme") then
    match v with VString s => Ok (Scheme s) | _ => Throw (Error "scheme.toLowerCase is not a function") end
  else if decide (name = "echo") then Ok Echo
  else if decide (name = "refresh") then Ok Refresh
  else if decide (name = "delegate") then Ok (Delegate (text v))
  else if decide (name = "claims") then
    match v with
    | VObject fs =>
        ms ← mapM (fun '(key, e) =>
          match e with
          | VString s => (fun m => (key, m)) <$> toMatcher s
          | _ => Throw (Error "expression.startsWith is not a function")
          end) fs;
        match ms with
        | [] => Throw (Error "`auth:claims` requires at least one property defined")
        | _ => Ok (Federation ms)
        end
    | _ => Throw (Error "`auth:claims` requires at least one property defined")
    end
  else if decide (name = "input") then
    match v with
    | VArray vs =>
        Input <$> (fix statements (vs : list value) : result thrown (list (list string * list directive)) :=
          match vs with
          | [] => Ok []
          | VObject fs :: vs =>
              ps ← match own fs "prop" with
                   | Some (VString s) => Ok [s]
                   | Some (VArray names) => strings names
                   | _ => Throw (Error "this.properties.some is not a function")
                   end;
              ds ← (fix all (fs : list (string * value)) : result thrown (list directive) :=
                match fs with
                | [] => Ok []
                | (n, x) :: fs =>
                    if decide (n = "prop") then all fs
                    else d ← make_directive n x; ds ← all fs; Ok (d :: ds)
                end) fs;
              rest ← statements vs;
              Ok ((ps, ds) :: rest)
          | _ :: _ => Throw (Error "this.properties.some is not a function")
          end) vs
    | _ => Throw (Error "declarations.map is not a function")
    end
  else if decide (name = "transfer") then
    match v with
    | VString s => if decide (s = "") then Throw (Error "Directive 'auth:transfer' names the property the credential is given to") else Ok (Transfer s)
    | _ => Throw (Error "Directive 'auth:transfer' names the property the credential is given to")
    end
  else Throw (not_implemented name).

(** *** What is said of a method *)

Definition SYSTEM : string := "system".

Fixpoint described (d : directive) (i : fields) : fields :=
  match d with
  | Anonymous allow => if allow then assign "anonymous" (VBool true) i else i
  | Anyone allow => if allow then assign "authenticated" (VBool true) i else i
  | Id _ => assign "private" (VBool true) i
  | Role required =>
      let i := assign "protected" (VBool true) i in
      if existsb (fun role => bool_decide (role = SYSTEM) || startsWith role (SYSTEM +:+ ":")) required
      then assign "system" (VBool true) i else i
  | Rule ds =>
      (fix all (ds : list directive) (i : fields) : fields :=
         match ds with
         | [] => i
         | d :: ds => all ds (described d i)
         end) ds i
  | Delegate property => assign "authenticated" (VBool true) (fst (take i property))
  | Federation _ => assign "authenticated" (VBool true) i
  | Transfer property => fst (take i property)
  | _ => i
  end.

Definition explain_ (ds : list directive) (i : fields) : fields := foldl (fun i d => described d i) i ds.

(** *** The body *)

(** what an identity is, written as a value *)
Context (as_value : Identity -> value).

(** an object the property is set of; nothing is one, where there is no body *)
Definition embed (null_too : bool) (property : string) (v body : value) : result thrown value :=
  match body with
  | VUndefined => Ok (VObject [(property, v)])
  | VNull => if null_too then Ok (VObject [(property, v)]) else Throw (Refused 400 (Some "Invalid request body"))
  | VObject fs => Ok (VObject (assign property v fs))
  | VArray _ => Ok body
  | _ => Throw (Refused 400 (Some "Invalid request body"))
  end.

(** of one statement, in turn: whoever sends one of its properties is to be authorized by each *)
Fixpoint authorized (present : bool) (ps : parameters) (ds : list directive) : M unit :=
  match ds with
  | [] => mret tt
  | d :: ds =>
      ok ← authorize present d ps;
      if ok : bool then authorized present ps ds else throw (Refused 403 (Some "Input property is not authorized"))
  end.

(** every statement is checked before the first that was refused is thrown *)
Fixpoint check_statements (present : bool) (ps : parameters) (statements : list (list string * list directive))
    (sent : list (string * value)) (refused : option thrown) : M unit :=
  match statements with
  | [] => match refused with None => mret tt | Some e => throw e end
  | (properties, ds) :: statements =>
      if existsb (fun p => bool_decide (is_Some (own sent p))) properties then
        fun c =>
          match authorized present ps ds c with
          | (Ok _, c) => check_statements present ps statements sent refused c
          | (Throw e, c) =>
              check_statements present ps statements sent (match refused with None => Some e | _ => refused end) c
          end
      else check_statements present ps statements sent refused
  end.

Definition run_pipe (p : pipe) (body : value) : M value :=
  match p with
  | Checked present ps statements =>
      match body with
      | VObject sent => _ ← check_statements present ps statements sent None; mret body
      | _ => mret body
      end
  | Embedded property =>
      who ← ask identity_;
      lift (embed false property (default VNull (as_value <$> who)) body)
  | Transferred property credential => lift (embed true property (VString credential) body)
  end.

(** ** The family *)

Definition auth : family directive Context parameters Response fields thrown :=
  mkFamily "auth" true None (fun name v _ => make_directive name v) (Some arrange_)
    (Some (precall_ as_value)) (Some (fun ds => admits_any ds false)) (Some (fun ds i => Some (explain_ ds i)))
    (Some settle_) (Some preflight_) (Some (fun _ => depart_)).
End authorization.

(** ** Lemmas *)

(** *** Scopes, by their segments *)

Lemma startsWith_spec s p : startsWith s p = true <-> exists t, s = p +:+ t.
Proof.
  revert p. induction s as [|d s IH]; intros [|c p]; cbn.
  - split; [by exists "" | done].
  - split; [done | by intros [t ?]].
  - split; [by eexists | done].
  - rewrite andb_true_iff, bool_decide_eq_true, IH. split.
    + intros [-> [t ->]]. by exists t.
    + intros [t [= -> ->]]. eauto.
Qed.

(** a value lies within a scope where the segments of the scope begin its own *)
Definition within (sep : ascii) (scope value : string) : Prop := split sep scope `prefix_of` split sep value.

Lemma within_spec sep scope value :
  within sep scope value <-> value = scope \/ startsWith value (scope +:+ String sep "") = true.
Proof.
  unfold within. rewrite startsWith_spec. split.
  - intros [rest Hr]. destruct rest as [|r rest].
    + left. rewrite app_nil_r in Hr. rewrite <- (join_split sep value), Hr. apply join_split.
    + right. exists (join (String sep "") (r :: rest)). rewrite <- (join_split sep value), Hr.
      rewrite string_join_app; [|intros H%(f_equal length); unfold split in H; rewrite length_fmap in H|done].
      * by rewrite join_split, string_app_assoc.
      * destruct (split_chars sep [] (chars scope)) eqn:Hs; [by apply split_chars_nonempty in Hs | done].
  - intros [->|[t ->]]; [done|]. exists (split sep t). unfold split.
    rewrite !chars_app. change (chars (String sep "")) with [sep]. rewrite <- app_assoc. cbn [app].
    by rewrite split_chars_app, fmap_app.
Qed.

Lemma match_roles_spec required held :
  match_roles required held = true <->
  exists role expected, role ∈ held /\ expected ∈ required /\ within ":" role expected.
Proof.
  unfold match_roles. rewrite existsb_exists. setoid_rewrite existsb_exists.
  setoid_rewrite orb_true_iff. setoid_rewrite bool_decide_eq_true. setoid_rewrite within_spec.
  setoid_rewrite <- list_elem_of_In. naive_solver.
Qed.

(** *** Computations *)

Lemma bind_run {A B} (m : M A) (f : A -> M B) c :
  (m ≫= f) c = match m c with (Ok a, c) => f a c | (Throw e, c) => (Throw e, c) end.
Proof. done. Qed.

Lemma change_run {A} f (k : M A) c : (change f ≫= (fun _ => k)) c = k (f c).
Proof. done. Qed.

Lemma changed_run {A} f (k : M A) c : (changed f ≫= (fun _ => k)) c = k (with_identity (f <$> identity_ c) c).
Proof. done. Qed.

Lemma ask_run {A B} (f : Context -> A) (k : A -> M B) c : (ask f ≫= k) c = k (f c) c.
Proof. done. Qed.

Lemma lift_run {A B} (r : result thrown A) (k : A -> M B) c :
  (lift r ≫= k) c = match r with Ok a => k a c | Throw e => (Throw e, c) end.
Proof. by destruct r. Qed.

(** what a computation leaves, whether it answers or throws *)
Definition keeps {A} (R : Context -> Context -> Prop) (m : M A) : Prop := forall c, R c (m c).2.

Section keeps.
Context (R : Context -> Context -> Prop) {HR : PreOrder R}.

Lemma keeps_ret {A} (a : A) : keeps R (mret a).
Proof. intros c. done. Qed.

Lemma keeps_throw {A} e : keeps R (throw (A := A) e).
Proof. intros c. done. Qed.

Lemma keeps_lift {A} (r : result thrown A) : keeps R (lift r).
Proof. intros c. done. Qed.

Lemma keeps_ask {A} (f : Context -> A) : keeps R (ask f).
Proof. intros c. done. Qed.

Lemma keeps_bind {A B} (m : M A) (f : A -> M B) : keeps R m -> (forall a, keeps R (f a)) -> keeps R (m ≫= f).
Proof.
  intros Hm Hf c. rewrite bind_run. specialize (Hm c). destruct (m c) as [[a|e] c']; [|done].
  etrans; [exact Hm | apply Hf].
Qed.
End keeps.

(** *** What a directive may change of a request *)

(** the same identity, as far as directives do not change one *)
Definition same_identity (i j : Identity) : Prop :=
  id i = id j /\ permissions i = permissions j /\ aud i = aud j /\ provider i = provider j /\ claims i = claims j.

(** what no directive changes *)
Record frame (c c' : Context) : Prop := {
  fr_vetted : vetted c' = vetted c;
  fr_authorization : authorization c' = authorization c;
  fr_token : token c' = token c;
  fr_flags : procedural c' = procedural c /\ exploratory c' = exploratory c;
  fr_where : method_ c' = method_ c /\ pathname_ c' = pathname_ c /\ authority c' = authority c
}.

(** nor an identity there is *)
Definition keeps_identity (c c' : Context) : Prop :=
  forall i, identity_ c = Some i -> exists j, identity_ c' = Some j /\ same_identity i j.

#[export] Instance frame_preorder : PreOrder frame.
Proof.
  split; [done|]. intros c c' c'' [H1 H2 H3 [H4 H4'] (H5 & H5' & H5'')] [K1 K2 K3 [K4 K4'] (K5 & K5' & K5'')].
  split; [congruence.. | split; congruence | split_and!; congruence].
Qed.

#[export] Instance keeps_identity_preorder : PreOrder keeps_identity.
Proof.
  split; [intros c i Hi; by exists i|]. intros c c' c'' H K i Hi.
  destruct (H i Hi) as (j & Hj & ? & ? & ? & ? & ?), (K j Hj) as (k & Hk & ? & ? & ? & ? & ?).
  exists k. split; [done|]. unfold same_identity. split_and!; congruence.
Qed.

(** induction on directives, rules being of directives *)
Definition directive_nested_ind (P : directive -> Prop)
  (HAnonymous : forall b, P (Anonymous b)) (HAnyone : forall b, P (Anyone b)) (HId : forall p, P (Id p))
  (HRole : forall rs, P (Role rs)) (HRule : forall ds, Forall P ds -> P (Rule ds))
  (HIncept : forall p, P (Incept p)) (HAssert : forall b, P (Assert b)) (HScheme : forall s, P (Scheme s))
  (HEcho : P Echo) (HRefresh : P Refresh) (HDelegate : forall p, P (Delegate p))
  (HFederation : forall ms, P (Federation ms)) (HInput : forall s, P (Input s)) (HTransfer : forall p, P (Transfer p)) :
  forall d, P d :=
  fix F (d : directive) : P d :=
    match d with
    | Anonymous b => HAnonymous b
    | Anyone b => HAnyone b
    | Id p => HId p
    | Role rs => HRole rs
    | Rule ds => HRule ds ((fix G (ds : list directive) : Forall P ds :=
        match ds with [] => Forall_nil_2 P | d :: ds => Forall_cons_2 P d ds (F d) (G ds) end) ds)
    | Incept p => HIncept p
    | Assert b => HAssert b
    | Scheme s => HScheme s
    | Echo => HEcho
    | Refresh => HRefresh
    | Delegate p => HDelegate p
    | Federation ms => HFederation ms
    | Input s => HInput s
    | Transfer p => HTransfer p
    end.

Lemma keeps_change R f : (forall c, R c (f c)) -> keeps R (change f).
Proof. intros H c. apply H. Qed.

Lemma identity_changed f : (forall i, same_identity i (f i)) -> keeps keeps_identity (changed f).
Proof.
  intros Hf. apply keeps_change. intros c i Hi. cbn. rewrite Hi. exists (f i). split; [done | apply Hf].
Qed.

Lemma frame_mint : keeps frame mint.
Proof. intros c. done. Qed.

(** what a computation keeps, by what it is made of *)
Create HintDb keeps.
#[export] Hint Resolve frame_mint : keeps.

Ltac keeps :=
  intros; match goal with
  | |- keeps _ (_ ≫= _) => apply keeps_bind; [apply _ | keeps | keeps]
  | |- keeps _ (mret _) => apply keeps_ret, _
  | |- keeps _ (throw _) => apply keeps_throw, _
  | |- keeps _ (lift _) => apply keeps_lift, _
  | |- keeps _ (ask _) => apply keeps_ask, _
  | |- keeps frame (change _) => apply keeps_change; intros ?; split; done
  | |- keeps frame (changed _) => unfold changed; keeps
  | |- keeps keeps_identity (changed _) => apply identity_changed; intros ?; done
  | |- keeps keeps_identity (change (push_pipe _)) => let j := fresh in apply keeps_change; intros ? j ?; by exists j
  | |- keeps _ (match ?x with _ => _ end) => destruct x; keeps
  | |- _ => solve [eauto with keeps]
  | |- _ => idtac
  end.

Section effects.
Context (list_roles : string -> result thrown (list string)).
Context (observe_bans : string -> result thrown bool).
Context (force : string -> string -> result thrown answer).
Context (inception : string -> string -> string -> string -> string -> result thrown (option Identity)).
Context (newid : nat -> string) (url : string -> option (string * string)).

Abbreviation authorize_ := (authorize list_roles observe_bans force inception newid url).
Abbreviation admits_ := (admits list_roles observe_bans force inception newid url).

Lemma frame_own_roles i : keeps frame (own_roles list_roles i).
Proof. unfold own_roles. keeps. Qed.

Lemma frame_incept i : keeps frame (incept observe_bans inception i).
Proof. unfold incept. keeps. Qed.

Lemma frame_transient s : keeps frame (transient newid s).
Proof. unfold transient. keeps. Qed.

#[local] Hint Resolve frame_own_roles frame_incept frame_transient : keeps.

Lemma authorize_frame present d ps : keeps frame (authorize_ present d ps).
Proof.
  induction d as [b|b|p|rs|ds IH|p|b|s| | |p|ms|s|p] using directive_nested_ind; cbn [authorize]; try (keeps; fail).
  apply keeps_bind; [apply _ | apply keeps_ask, _ | intros c].
  induction IH as [|d ds Hd Hds IHds]; [apply keeps_ret, _|].
  apply keeps_bind; [apply _ | exact Hd | intros [|]; [exact IHds | apply keeps_ret, _]].
Qed.

Lemma identity_own_roles i : keeps keeps_identity (own_roles list_roles i).
Proof. unfold own_roles. keeps. Qed.

#[local] Hint Resolve identity_own_roles : keeps.

Lemma authorize_identity d ps : keeps keeps_identity (authorize_ true d ps).
Proof.
  induction d as [b|b|p|rs|ds IH|p|b|s| | |p|ms|s|p] using directive_nested_ind; cbn [authorize]; try (keeps; fail).
  - apply keeps_bind; [apply _ | apply keeps_ask, _ | intros c].
    induction IH as [|d ds Hd Hds IHds]; [apply keeps_ret, _|].
    apply keeps_bind; [apply _ | exact Hd | intros [|]; [exact IHds | apply keeps_ret, _]].
  - intros c i Hi. rewrite bind_run. cbn [ask]. unfold Datatypes.id. rewrite Hi. cbn.
    destruct b, (authorization c); by exists i.
  - intros c i Hi. rewrite bind_run. cbn [ask]. unfold Datatypes.id. rewrite Hi. by exists i.
Qed.

(** *** A method nobody is told of is nobody's to call *)

(** a directive that gives a request an identity it came without *)
Fixpoint invents (d : directive) : bool :=
  match d with
  | Assert enabled => enabled
  | Echo => true
  | Rule ds => existsb invents ds
  | _ => false
  end.

(** two contexts alike: identities of the same id, whose roles are known or read to be the same *)
Definition reads_roles (i : Identity) : result thrown (list string) :=
  match roles i with Some rs => Ok rs | None => list_roles (id i) end.

Definition alike_identity (i j : option Identity) : Prop :=
  match i, j with
  | None, None => True
  | Some i, Some j => id i = id j /\ provider i = provider j /\ claims i = claims j /\ reads_roles i = reads_roles j
  | _, _ => False
  end.

Definition alike (c c' : Context) : Prop :=
  authorization c = authorization c' /\ procedural c = procedural c' /\ authority c = authority c' /\
  alike_identity (identity_ c) (identity_ c').

#[export] Instance alike_equivalence : Equivalence alike.
Proof.
  split.
  - intros c. unfold alike. split_and!; try done. unfold alike_identity. by destruct (identity_ c).
  - intros c c' (? & ? & ? & H). unfold alike. split_and!; try done. unfold alike_identity in *.
    destruct (identity_ c), (identity_ c'); try done. naive_solver.
  - intros c c' c'' (? & ? & ? & H) (? & ? & ? & K). unfold alike. split_and!; try congruence. unfold alike_identity in *.
    destruct (identity_ c), (identity_ c'), (identity_ c''); try done.
    destruct H as (? & ? & ? & ?), K as (? & ? & ? & ?). split_and!; congruence.
Qed.

(** what is left alike, where no directive invents an identity *)
Lemma alike_own_roles i c : identity_ c = Some i -> alike c (own_roles list_roles i c).2.
Proof.
  intros Hi. unfold own_roles. destruct (roles i) eqn:Hr; [reflexivity|]. rewrite lift_run.
  destruct (list_roles (id i)) as [rs|e] eqn:Hl; [|reflexivity]. rewrite changed_run, Hi.
  unfold alike. cbn. rewrite Hi. unfold alike_identity, reads_roles. cbn. by rewrite Hr, Hl.
Qed.

Lemma own_roles_alike i j c c' :
  identity_ c = Some i -> identity_ c' = Some j -> alike c c' ->
  (own_roles list_roles i c).1 = (own_roles list_roles j c').1.
Proof.
  intros Hi Hj (_ & _ & _ & H). unfold alike_identity in H. rewrite Hi, Hj in H. destruct H as (Hid & _ & _ & Hr).
  assert (forall i c, (own_roles list_roles i c).1 = reads_roles i) as Hown; [|by rewrite !Hown].
  clear. intros i c. unfold own_roles, reads_roles. destruct (roles i); [done|]. rewrite lift_run.
  by destruct (list_roles (id i)).
Qed.

(** the directives of a rule, in turn *)
Definition authorize_rule (present : bool) (ps : parameters) : list directive -> M bool :=
  fix all (ds : list directive) : M bool :=
    match ds with
    | [] => mret true
    | d :: ds => ok ← authorize_ present d ps; if ok : bool then all ds else mret false
    end.

Definition admits_rule (present : bool) : list directive -> bool -> M (option bool) :=
  fix all (ds : list directive) (untold : bool) : M (option bool) :=
    match ds with
    | [] => mret (if untold then None else Some true)
    | d :: ds =>
        it ← admits_ present d;
        match it with
        | None => all ds true
        | Some true => all ds untold
        | Some false => mret (Some false)
        end
    end.

Lemma authorize_Rule present ds ps c : authorize_ present (Rule ds) ps c = authorize_rule present ps ds c.
Proof. done. Qed.

Lemma admits_Rule present ds c : admits_ present (Rule ds) c = admits_rule present ds false c.
Proof. done. Qed.

Lemma alike_some c c' : alike c c' -> is_Some (identity_ c) -> is_Some (identity_ c').
Proof.
  intros (_ & _ & _ & H) [i Hi]. unfold alike_identity in H. rewrite Hi in H. by destruct (identity_ c').
Qed.

Lemma alike_flag c c' : alike c c' -> bool_decide (is_Some (identity_ c)) = bool_decide (is_Some (identity_ c')).
Proof. intros H. apply bool_decide_ext. split; apply alike_some; [done | by symmetry]. Qed.

Lemma alike_pure c c' :
  authorization c' = authorization c -> procedural c' = procedural c -> authority c' = authority c ->
  identity_ c' = identity_ c -> alike c c'.
Proof.
  intros ? ? ? Hi. unfold alike. split_and!; [congruence..|]. rewrite Hi. unfold alike_identity. by destruct (identity_ c).
Qed.

(** it has an identity to give none to, or no directive that gives one *)
Definition settled_ (present : bool) (d : directive) (c : Context) : Prop :=
  invents d = false \/ present = true /\ is_Some (identity_ c).

Lemma settled_each present ds c : settled_ present (Rule ds) c -> Forall (fun d => settled_ present d c) ds.
Proof.
  intros [Hn|Hs]; apply Forall_forall; [|by right]. intros d Hd. left. cbn [invents] in Hn.
  destruct (invents d) eqn:Hv; [|done]. rewrite <- Hn. symmetry. apply existsb_exists. exists d.
  by rewrite <- list_elem_of_In.
Qed.

Lemma settled_alike present d c c' : alike c c' -> settled_ present d c -> settled_ present d c'.
Proof. intros H [?|[? ?]]; [by left | right]. split; [done | by eapply alike_some]. Qed.

Lemma authorize_alike present d ps c : settled_ present d c -> alike c (authorize_ present d ps c).2.
Proof.
  revert c. induction d as [b|b|p|rs|ds IH|p|b|s| | |p|ms|s|p] using directive_nested_ind; intros c Hst;
    cbn [authorize]; rewrite ask_run; unfold Datatypes.id.
  - by destruct (procedural c || exploratory c).
  - done.
  - done.
  - destruct present; [|done]. destruct (identity_ c) as [i|] eqn:Hi; [|done]. rewrite bind_run.
    pose proof (alike_own_roles i c Hi) as Ha. destruct (own_roles list_roles i c) as [[held|e] c1]; [|done].
    rewrite lift_run. by destruct (if dynamic rs then _ else _).
  - apply settled_each in Hst. change (alike c (authorize_rule present ps ds c).2).
    revert c Hst. induction IH as [|d ds Hd Hds IHds]; intros c Hall; [done|].
    apply Forall_cons in Hall as [H1 Hall]. cbn [authorize_rule]. rewrite bind_run. specialize (Hd c H1).
    destruct (authorize_ present d ps c) as [[[|]|e] c1]; [|done|done]. cbn in Hd. etrans; [exact Hd|].
    apply IHds. eapply Forall_impl; [exact Hall|]. intros d'. by apply settled_alike.
  - done.
  - destruct b; [|done]. destruct Hst as [?|[-> [i ->]]]; [done|]. cbn. by destruct (authorization c).
  - destruct (authorization c); [|done]. rewrite lift_run. destruct (split_ s0) as [[? ?]|e]; [|done].
    by case_decide.
  - destruct Hst as [?|[-> [i Hi]]]; [done|]. by rewrite Hi.
  - destruct present; [|done]. destruct (identity_ c) as [i|] eqn:Hi; [|done]. case_decide; [done|].
    rewrite lift_run. destruct (split_ _) as [[? ?]|e]; [|done]. rewrite lift_run.
    destruct (force _ _) as [[|]|e]; [|by case_decide|done]. rewrite changed_run, Hi.
    unfold alike. cbn. rewrite Hi. done.
  - destruct present; [|done]. destruct (identity_ c) as [i|] eqn:Hi; [|done]. rewrite bind_run.
    pose proof (alike_own_roles i c Hi) as Ha. destruct (own_roles list_roles i c) as [[held|e] c1]; [|done].
    rewrite change_run. etrans; [exact Ha|]. by apply alike_pure.
  - by destruct (_ ≫= claims).
  - rewrite change_run. by apply alike_pure.
  - destruct (procedural c); [done|]. destruct (authorization c); [|done]. rewrite change_run. by apply alike_pure.
Qed.

Lemma admits_alike present d c : alike c (admits_ present d c).2 /\ exploratory (admits_ present d c).2 = exploratory c.
Proof.
  revert c. induction d as [b|b|p|rs|ds IH|p|b|s| | |p|ms|s|p] using directive_nested_ind; intros c;
    cbn [admits]; rewrite ask_run; unfold Datatypes.id; try done.
  - cbn [authorize]. unfold fmap, M_fmap. rewrite ask_run. unfold Datatypes.id.
    by destruct (procedural c || exploratory c).
  - destruct (dynamic rs); [done|]. destruct present; [|done]. destruct (identity_ c) as [i|] eqn:Hi; [|done].
    rewrite bind_run. pose proof (alike_own_roles i c Hi) as Ha. pose proof (frame_own_roles i c) as Hf.
    destruct (own_roles list_roles i c) as [[held|e] c1]; (split; [exact Ha | apply Hf]).
  - change (alike c (admits_rule present ds false c).2 /\ exploratory (admits_rule present ds false c).2 = exploratory c).
    generalize false. revert c. induction IH as [|d ds Hd Hds IHds]; intros c untold; [done|].
    cbn [admits_rule]. rewrite bind_run. specialize (Hd c). destruct (admits_ present d c) as [[it|e] c1]; [|exact Hd].
    cbn in Hd. destruct Hd as [Hd1 Hd2].
    destruct it as [[|]|]; [destruct (IHds c1 untold) as [H1 H2] | done | destruct (IHds c1 true) as [H1 H2]];
      (split; [etrans; [exact Hd1 | exact H1] | rewrite <- Hd2; exact H2]).
Qed.

Lemma admits_false_authorize present d ps c c1 c2 :
  admits_ present d c = (Ok (Some false), c1) -> exploratory c = true -> exploratory c2 = false -> alike c c2 ->
  settled_ present d c -> (authorize_ present d ps c2).1 <> Ok true.
Proof.
  revert c c1 c2. induction d as [b|b|p|rs|ds IH|p|b|s| | |p|ms|s|p] using directive_nested_ind;
    intros c c1 c2 Ha He He2 Hal Hst; cbn [admits authorize] in Ha |- *;
    try rewrite ask_run in Ha; rewrite ask_run; unfold Datatypes.id in Ha |- *;
    pose proof Hal as (Hau & Hpr & Hat & Hid); try done.
  - unfold fmap, M_fmap, mbind, M_bind, ask, Datatypes.id in Ha. rewrite He, orb_true_r in Ha.
    cbn in Ha. injection Ha as -> _. rewrite He2.
    destruct (procedural c2), (authorization c2); done.
  - cbn in Ha |- *. injection Ha as Hb _. rewrite <- (alike_flag c c2 Hal). by rewrite Hb.
  - cbn in Ha |- *. destruct present; [|done]. destruct (identity_ c); [done|]. by destruct (identity_ c2).
  - destruct (dynamic rs); [done|]. destruct present; [|done].
    destruct (identity_ c) as [i|] eqn:Hi, (identity_ c2) as [j|] eqn:Hj; try done.
    rewrite bind_run in Ha. rewrite bind_run. pose proof (own_roles_alike i j c c2 Hi Hj Hal) as Ho.
    destruct (own_roles list_roles i c) as [[held|e] c3], (own_roles list_roles j c2) as [[held'|e'] c4]; try done.
    injection Ho as <-. unfold mret, M_ret in Ha. injection Ha as Hm _. rewrite lift_run. cbn. by rewrite Hm.
  - apply settled_each in Hst. change (admits_rule present ds false c = (Ok (Some false), c1)) in Ha.
    change ((authorize_rule present ps ds c2).1 <> Ok true).
    clear Hau Hpr Hat Hid. revert Ha. generalize false at 1. revert c c1 c2 He He2 Hal Hst.
    induction IH as [|d ds Hd Hds IHds]; intros c c1 c2 He He2 Hal Hall untold; [by destruct untold|].
    apply Forall_cons in Hall as [H1 Hall]. cbn [admits_rule authorize_rule]. rewrite !bind_run.
    pose proof (admits_alike present d c) as [Had Hae].
    pose proof (authorize_alike present d ps c2 (settled_alike _ _ _ _ Hal H1)) as Hau.
    pose proof (authorize_frame present d ps c2) as Hfr.
    destruct (admits_ present d c) as [[it|e] c3] eqn:Hdc; [|done].
    destruct (authorize_ present d ps c2) as [[[|]|e] c4] eqn:Hd2; [|done|done]. cbn in *.
    assert (alike c3 c4) as Hal' by (transitivity c; [by symmetry|]; transitivity c2; done).
    assert (Forall (fun d => settled_ present d c3) ds) as Hall'
      by (eapply Forall_impl; [exact Hall|]; intros d'; by apply settled_alike).
    assert (exploratory c4 = false) as He4 by (destruct Hfr as [_ _ _ [_ ->] _]; done).
    assert (exploratory c3 = true) as He3 by congruence.
    destruct it as [[|]|]; [by apply IHds | | by apply IHds].
    intros _. exfalso. apply (Hd c c3 c2 Hdc He He2 Hal H1). by rewrite Hd2.
  - destruct b; [|done]. cbn. destruct (authorization c2); [|done]. destruct (if present then _ else _); [done|].
    destruct (negb (acceptable c2)); [done|]. rewrite bind_run. cbn. rewrite bind_run.
    by destruct (incept _ _ _ _) as [[?|?] ?].
  - cbn. destruct (authorization c2); [|done]. rewrite lift_run. destruct (split_ _) as [[? ?]|e]; [|done]. by case_decide.
  - cbn in Ha. injection Ha as Ha _. apply negb_false_iff, andb_true_iff in Ha as [Hn Hh].
    apply bool_decide_eq_true in Hh as [h Hh]. rewrite Hau in Hh. rewrite Hh.
    destruct present; [|done]. destruct (identity_ c); [done|]. by destruct (identity_ c2).
  - cbn in Ha. destruct present; [|done]. destruct (identity_ c); [done|]. by destruct (identity_ c2).
  - cbn in Ha. destruct present; [|done]. destruct (identity_ c); [done|]. by destruct (identity_ c2).
  - cbn in Ha. destruct present; [|done]. destruct (identity_ c); [done|]. by destruct (identity_ c2).
  - cbn in Ha. injection Ha as Ha _. rewrite <- Hpr. by destruct (procedural c).
Qed.
End effects.

(** *** Who a credential is given to *)

Section credentials.
Context (list_roles : string -> result thrown (list string)).
Context (observe_bans : string -> result thrown bool).
Context (authenticate : string -> string -> string -> string -> result thrown answer).
Context (force : string -> string -> result thrown answer).
Context (inception : string -> string -> string -> string -> string -> result thrown (option Identity)).
Context (encrypt : string -> Identity -> result thrown string).
Context (newid : nat -> string) (url : string -> option (string * string)) (glob : string -> string -> bool).
Context (sha256 : string -> string) (now : Z) (as_value : Identity -> value).

(** whoever is vetted is known not to be banned, and came with a credential; nothing was given yet *)
Definition vouched (c : Context) : Prop :=
  token c = None /\
  (vetted c = true -> is_Some (authorization c) /\ exists i, identity_ c = Some i /\ observe_bans (id i) = Ok false).

Lemma frame_wait : keeps frame (wait sha256 now).
Proof. unfold wait. keeps. Qed.

Lemma resolve_vouched c who c' :
  vetted c = false -> resolve observe_bans authenticate sha256 now c = (Ok who, c') ->
  token c' = token c /\ authorization c' = authorization c /\
  (vetted c' = true -> is_Some (authorization c) /\ exists i, who = Some i /\ observe_bans (id i) = Ok false).
Proof.
  intros Hv. unfold resolve. rewrite ask_run. destruct (authorization c) as [header|] eqn:Hh.
  2: { intros [= <- <-]. rewrite Hh. split_and!; try done. congruence. }
  rewrite bind_run. destruct (frame_wait c) as [Hv1 Ha1 Ht1 _ _].
  destruct (wait sha256 now c) as [[retry|e] c1]; [|done]. cbn [snd] in *.
  destruct (0 <? retry); [done|]. rewrite lift_run. destruct (split_ header) as [[scheme credentials]|e]; [|done].
  destruct (providers scheme) as [candidates|]; [|done]. rewrite ask_run, lift_run.
  destruct (claim_ authenticate candidates scheme (authority c1) credentials) as [claimed|e]; [|done].
  assert (forall code, failed sha256 now code c1 = (Ok who, c') ->
    vetted c' = vetted c1 /\ token c' = token c1 /\ authorization c' = authorization c1) as Hfail.
  { intros code. unfold failed. destruct code; by intros [= _ <-]. }
  destruct claimed as [[candidate [i again|code]]|]; cycle 1.
  1, 2: intros H; destruct (Hfail _ H) as (? & ? & ?); split_and!; congruence.
  rewrite bind_run. case_decide as Hp.
  - rewrite bind_run. unfold banned, lift. destruct (observe_bans (id i)) as [[|]|e] eqn:Hb; [done| |done].
    intros [= <- <-]. cbn. split_and!; [done | congruence|]. intros _. split; [by eexists|]. by eexists.
  - intros [= <- <-]. split_and!; congruence.
Qed.

Lemma preflight_vouched ds c c' :
  vetted c = false -> token c = None ->
  preflight_ observe_bans authenticate url sha256 now ds c = (Ok tt, c') -> vouched c'.
Proof.
  intros Hv Ht. unfold preflight_. rewrite ask_run. destruct (authorization c) as [header|] eqn:Hh.
  2: { intros [= <-]. split; [done|]. cbn. congruence. }
  destruct (existsb _ _); [intros [= <-]; split; [done | cbn; congruence]|].
  rewrite bind_run. destruct (resolve _ _ _ _ c) as [[who|e] c1] eqn:Hr; [|done].
  destruct (resolve_vouched c who c1 Hv Hr) as (Ht1 & Ha1 & Hv1).
  rewrite change_run, ask_run. intros H.
  assert (c' = with_identity who c1) as ->.
  { destruct (who ≫= aud); [|by injection H]. by destruct (audience _ _ _ _); [injection H|]. }
  split; [cbn; congruence|]. cbn. intros H1. rewrite Ha1. by apply Hv1.
Qed.

Lemma authorize_vouched d ps c :
  vouched c ->
  vouched (authorize list_roles observe_bans force inception newid url (bool_decide (is_Some (identity_ c))) d ps c).2.
Proof.
  intros [Ht Hv].
  destruct (authorize_frame list_roles observe_bans force inception newid url
    (bool_decide (is_Some (identity_ c))) d ps c) as [Hv' Ha' Ht' _ _].
  split; [congruence|]. rewrite Hv', Ha'. intros H. destruct (Hv H) as (Ha & i & Hi & Hb). split; [done|].
  rewrite bool_decide_true by (by eexists).
  destruct (authorize_identity list_roles observe_bans force inception newid url d ps c i Hi) as (j & Hj & Hid & _).
  exists j. split; [done|]. by rewrite <- Hid.
Qed.

Lemma reply_vouched d c : vouched c -> vouched (reply newid as_value d c).2.
Proof.
  intros H. unfold reply. rewrite ask_run. unfold Datatypes.id.
  destruct d as [| | | | |[]| | | | | | | |]; try done. by destruct (identity_ c).
Qed.

Lemma decide_vouched ds ps c :
  vouched c -> vouched (decide_ list_roles observe_bans force inception newid url glob as_value ds ps c).2.
Proof.
  revert c. induction ds as [|d ds IH]; intros c H; cbn [decide_]; rewrite ask_run.
  - by destruct (identity_ c).
  - rewrite bind_run. pose proof (authorize_vouched d ps c H) as Ha.
    destruct (authorize _ _ _ _ _ _ _ d ps c) as [[[|]|e] c1]; [| |done]; cbn in Ha; [|by apply IH].
    rewrite ask_run. destruct (permitted glob c1); [by apply reply_vouched | done].
Qed.

(** an inception makes an identity of the id it is of *)
Context (of_id : forall provider scheme at_ i credentials m,
  inception provider scheme at_ i credentials = Ok (Some m) -> id m = i).

Lemma incept_of i c m c' :
  incept observe_bans inception i c = (Ok m, c') -> c' = c /\ id m = i /\ observe_bans i = Ok false.
Proof.
  unfold incept. rewrite ask_run, lift_run. destruct (split_ _) as [[scheme credentials]|e]; [|done].
  destruct (providers scheme) as [candidates|]; [|done]. destruct (List.find _ candidates) as [p|]; [|done].
  rewrite lift_run. destruct (observe_bans i) as [[|]|e]; [done| |done]. rewrite ask_run, lift_run.
  destruct (inception p scheme (authority c) i credentials) as [[made|]|e] eqn:Hm; [|done|done].
  intros [= <- <-]. split_and!; [done | by apply of_id in Hm | done].
Qed.

Lemma settle_one_vouched response d c :
  vouched c -> vouched (settle_one list_roles observe_bans inception response d c).2.
Proof.
  intros H. unfold settle_one. destruct d; try done. destruct (property_of _ _) as [[]|]; try done.
  rewrite ask_run. destruct (authorization c) as [header|] eqn:Hh.
  - rewrite bind_run. pose proof (frame_incept observe_bans inception s c) as Hf.
    destruct (incept _ _ s c) as [[m|e] c1] eqn:Hi.
    + destruct (incept_of s c m c1 Hi) as (-> & Hm & Hb). destruct H as [Ht _]. split; [done|].
      cbn. intros _. rewrite Hh. split; [by eexists|]. exists m. by rewrite Hm.
    + cbn in *. assert (c1 = c) as ->; [|done]. clear Hf. revert Hi. unfold incept. rewrite ask_run, lift_run.
      destruct (split_ _) as [[? ?]|?]; [|by intros [= _ <-]].
      destruct (providers _); [|by intros [= _ <-]]. destruct (List.find _ _); [|by intros [= _ <-]].
      rewrite lift_run. destruct (observe_bans s) as [[|]|?]; [by intros [= _ <-] | | by intros [= _ <-]].
      rewrite ask_run, lift_run. by destruct (inception _ _ _ _ _) as [[?|]|?]; intros [= _ <-].
  - rewrite lift_run. destruct (list_roles s); [|done]. destruct H as [Ht Hv]. split; [done|].
    cbn. intros Hvt. destruct (Hv Hvt) as [[? ?] _]. congruence.
Qed.

Lemma settle_vouched ds response c : vouched c -> vouched (settle_ list_roles observe_bans inception ds response c).2.
Proof.
  revert c. induction ds as [|d ds IH]; intros c H; cbn [settle_]; [done|]. rewrite bind_run.
  pose proof (settle_one_vouched response d c H) as H1.
  destruct (settle_one _ _ _ response d c) as [[?|e] c1]; [by apply IH | done].
Qed.

(** a request, as far as this family is of it, its operation's response being given *)
Definition serve_ (ds : list directive) (ps : parameters) (response : Response) : M unit :=
  _ ← preflight_ observe_bans authenticate url sha256 now (Some ds);
  _ ← precall_ list_roles observe_bans force inception newid url glob as_value ds ps;
  _ ← settle_ list_roles observe_bans inception ds response;
  depart_ list_roles observe_bans encrypt.

Lemma departed c c' t :
  vouched c -> depart_ list_roles observe_bans encrypt c = (Ok tt, c') -> token c' = Some t ->
  exists i, identity_ c' = Some i /\ observe_bans (id i) = Ok false.
Proof.
  intros [Ht Hv]. unfold depart_. rewrite ask_run. unfold Datatypes.id.
  destruct (identity_ c) as [i|] eqn:Hi; [|intros [= <-]; congruence].
  destruct (_ && _); [intros [= <-]; congruence|]. rewrite bind_run.
  assert (forall out c1, (if vetted c then mret false else banned observe_bans i) c = (Ok out, c1) ->
    c1 = c /\ (out = false -> observe_bans (id i) = Ok false)) as Hout.
  { intros out c1. destruct (vetted c).
    - intros [= <- <-]. split; [done|]. intros _. destruct (Hv eq_refl) as (_ & j & Hj & Hb). congruence.
    - unfold banned, lift. intros [= Ho <-]. split; [done|]. by intros ->. }
  destruct ((if vetted c then mret false else banned observe_bans i) c) as [[out|e] c1] eqn:Hr; [|done].
  destruct (Hout out c1 eq_refl) as [-> Hb].
  destruct out; [done|]. specialize (Hb eq_refl). rewrite bind_run.
  match goal with |- match ?x c with _ => _ end = _ -> _ => set (m := x) end.
  assert (keeps keeps_identity m) as Hm.
  { unfold m. case_decide; [|pose proof (identity_own_roles list_roles i)]; keeps. }
  destruct (Hm c i Hi) as (j & Hj & Hid & _). destruct (m c) as [[?|e] c2]; [|done]. cbn in Hj.
  rewrite ask_run, Hj, lift_run. destruct (encrypt _ _); [|done]. intros [= <-] _. exists j. cbn.
  split; [done|]. by rewrite <- Hid.
Qed.

End credentials.

(** ** Properties *)

Section properties.
Context (list_roles : string -> result thrown (list string)).
Context (observe_bans : string -> result thrown bool).
Context (authenticate : string -> string -> string -> string -> result thrown answer).
Context (force : string -> string -> result thrown answer).
Context (inception : string -> string -> string -> string -> string -> result thrown (option Identity)).
Context (encrypt : string -> Identity -> result thrown string).
Context (newid : nat -> string) (url : string -> option (string * string)) (glob : string -> string -> bool).
Context (sha256 : string -> string) (now : Z) (text : value -> string) (as_value : Identity -> value).

(** A role grants what lies within its scope and nothing else: a directive that requires scopes admits
    an identity exactly where one of the roles it has begins, segment by segment, with one of them. *)
Theorem role_covers required ps c i held :
  identity_ c = Some i -> roles i = Some held -> dynamic required = false ->
  authorize list_roles observe_bans force inception newid url true (Role required) ps c =
    (Ok (match_roles required held), c) /\
  (match_roles required held = true <->
    exists role expected, role ∈ held /\ expected ∈ required /\ split ":" role `prefix_of` split ":" expected).
Proof.
  intros Hi Hr Hd. split; [|apply match_roles_spec]. cbn [authorize]. rewrite ask_run. unfold Datatypes.id.
  rewrite Hi. unfold own_roles. rewrite Hr, Hd. done.
Qed.

Lemma admits_any_untold ds c c' :
  admits_any list_roles observe_bans force inception newid url ds true c <> (Ok false, c').
Proof.
  revert c. induction ds as [|d ds IH]; intros c; cbn [admits_any]; [done|]. rewrite ask_run, bind_run.
  destruct (admits _ _ _ _ _ _ _ d c) as [[[[|]|]|e] c1]; done.
Qed.

Lemma undisclosed_refused ds ps c c' c2 r c3 :
  admits_any list_roles observe_bans force inception newid url ds false c = (Ok false, c') ->
  exploratory c = true -> exploratory c2 = false -> alike list_roles c c2 ->
  is_Some (identity_ c) \/ Forall (fun d => invents d = false) ds ->
  decide_ list_roles observe_bans force inception newid url glob as_value ds ps c2 <> (Ok r, c3).
Proof.
  revert c c2. induction ds as [|d ds IH]; intros c c2 Ha He He2 Hal Hst.
  { cbn [decide_]. rewrite ask_run. by destruct (identity_ c2). }
  cbn [admits_any decide_] in *. rewrite ask_run, bind_run in Ha. rewrite ask_run, bind_run.
  rewrite <- (alike_flag _ _ _ Hal). set (present := bool_decide (is_Some (identity_ c))) in *.
  assert (settled_ present d c) as Hd.
  { destruct Hst as [Hi|Hf]; [right; split; [by apply bool_decide_true | done] | left].
    by apply Forall_cons in Hf as [? _]. }
  pose proof (admits_alike list_roles observe_bans force inception newid url present d c) as [Ha1 He1].
  pose proof (authorize_alike list_roles observe_bans force inception newid url present d ps c2
    (settled_alike _ _ _ _ _ Hal Hd)) as Ha2.
  pose proof (authorize_frame list_roles observe_bans force inception newid url present d ps c2) as [_ _ _ [_ Hf2] _].
  destruct (admits _ _ _ _ _ _ present d c) as [[it|e] c1] eqn:Hadm; [|done].
  destruct it as [[|]|]; [done | | by apply admits_any_untold in Ha].
  pose proof (admits_false_authorize list_roles observe_bans force inception newid url present d ps c c1 c2 Hadm He He2 Hal Hd) as Hno.
  destruct (authorize _ _ _ _ _ _ present d ps c2) as [[[|]|e] c4]; [done| |done]. cbn in *.
  apply (IH c1); try done.
  - congruence.
  - congruence.
  - transitivity c; [by symmetry|]. by transitivity c2.
  - destruct Hst as [Hi|Hf]; [left; by eapply alike_some | right; by apply Forall_cons in Hf as [_ ?]].
Qed.

(** What a caller is not told of, it cannot call: a method no directive admits the caller to, and none
    is undecided about, when it is described, refuses each of the caller's requests for it. The caller
    has an identity, or the method has no directive that gives it one on the way ([assert], [echo]). *)
Theorem untold_is_refused ds ps c c' c2 :
  admits_any list_roles observe_bans force inception newid url ds false c = (Ok false, c') ->
  exploratory c = true -> exploratory c2 = false -> authorization c = authorization c2 ->
  procedural c = procedural c2 -> authority c = authority c2 -> identity_ c = identity_ c2 ->
  is_Some (identity_ c) \/ Forall (fun d => invents d = false) ds ->
  exists e c3, precall_ list_roles observe_bans force inception newid url glob as_value ds ps c2 = (Throw e, c3).
Proof.
  intros Ha He He2 Hau Hpr Hat Hid Hst. unfold precall_. rewrite bind_run.
  set (c4 := ((if existsb incepts ds then change with_reads else mret tt) c2).2).
  assert ((if existsb incepts ds then change with_reads else mret tt) c2 = (Ok tt, c4)) as ->
    by (unfold c4; by destruct (existsb incepts ds)).
  assert (alike list_roles c c4 /\ exploratory c4 = false) as [Hal He4].
  { split; [|unfold c4; by destruct (existsb incepts ds)].
    apply alike_pure; unfold c4; destruct (existsb incepts ds); cbn; congruence. }
  destruct (decide_ _ _ _ _ _ _ _ _ ds ps c4) as [[r|e] c3] eqn:Hd; [|by exists e, c3].
  exfalso. by apply (undisclosed_refused ds ps c c' c4 r c3 Ha He He4 Hal Hst).
Qed.

Abbreviation auth_ := (auth list_roles observe_bans authenticate force inception encrypt newid url glob sha256 now text as_value).

(** C28: What says nothing of authorization is nobody's: a method none of whose directives is of this
    family, declared or inherited, is refused to whoever asks for it - as unauthorized without an
    identity and as forbidden with one - and none of its other directives runs. *)
Theorem closed_by_default error rest ds route sets ps c :
  NoDup (fname <$> auth_ :: rest) -> Directives.create error (factory_of (auth_ :: rest)) ds route = Ok sets ->
  Forall (fun d => family_name d <> "auth") ds ->
  precall error sets ps None c =
    (Throw (match identity_ c with None => Unauthorized | Some _ => Forbidden end), c).
Proof.
  intros Hnd Hc Hf. pose proof (created_names error (auth_ :: rest) Hnd ds route sets Hc) as Hn.
  unfold obligatory in Hn. rewrite filter_cons_True in Hn by done. rewrite fmap_cons in Hn.
  destruct sets as [|s sets]; [done|]. injection Hn as Hn _.
  destruct (created_given error (auth_ :: rest) Hnd ds route _ s Hc ltac:(by left)) as (Hin & given & Hg & Hd).
  assert (family_ s = auth_) as Hs by (apply (same_family (auth_ :: rest) Hnd); [done | by left | done]).
  assert (given = []) as ->.
  { unfold made in Hg. rewrite list_filter_none in Hg; [by injection Hg|]. intros d Hd' Hname.
    eapply Forall_forall in Hf; [|exact Hd']. apply Hf. by rewrite Hname, Hs. }
  cbn [precall]. rewrite Hd, Hs. cbn. unfold precall_. rewrite bind_run. cbn. rewrite ask_run.
  by destruct (identity_ c).
Qed.

(** A list of rules is no rule: the documentation says that the value of the directive may be one,
    and a method that declares one is not made. *)
Theorem rules_refused v vs :
  make_directive text "rule" (VArray (v :: vs)) = Throw (Error "Directive 'auth:0' is not implemented").
Proof. destruct v; reflexivity. Qed.
End properties.

(** ** Where a credential is good *)

Section presented.
Context (observe_bans : string -> result thrown bool).
Context (authenticate : string -> string -> string -> string -> result thrown answer).
Context (url : string -> option (string * string)) (sha256 : string -> string) (now : Z).

Lemma prefixed_within declared pathname :
  prefixed declared pathname = true <-> stripped declared = "" \/ within "/" (stripped declared) pathname.
Proof. unfold prefixed. rewrite !orb_true_iff, !bool_decide_eq_true, within_spec. naive_solver. Qed.

(** A credential is good where it was issued for and nowhere else: where one that names its resources
    identifies a request, the request is to one of them - to the host of one that names a host, and at
    or under its path, segment by segment. *)
Theorem presented_where_issued ds c c' i audiences :
  preflight_ observe_bans authenticate url sha256 now ds c = (Ok tt, c') ->
  identity_ c' = Some i -> aud i = Some audiences ->
  exists value host path, value ∈ audiences /\
    (startsWith value "/" = true /\ path = value \/ url value = Some (host, path) /\ host = hostname c') /\
    (stripped path = "" \/ within "/" (stripped path) (pathname_ c')).
Proof.
  intros H Hi Ha. unfold preflight_ in H. rewrite ask_run in H. destruct (authorization c) as [header|].
  2: { injection H as <-. done. }
  destruct (existsb _ _); [injection H as <-; done|]. rewrite bind_run in H.
  destruct (resolve _ _ _ _ c) as [[who|e] c1]; [|done]. rewrite change_run, ask_run in H.
  destruct who as [j|]; [|injection H as <-; done]. cbn in H. unfold Datatypes.id in H.
  destruct (aud j) as [auds|] eqn:Haud; [|injection H as <-; cbn in Hi; congruence].
  destruct (audience url auds _ _) eqn:Hcov; [|done]. injection H as <-. cbn in Hi, Hcov |- *. simplify_eq.
  unfold audience in Hcov. apply existsb_exists in Hcov as (value & Hv & Hc). apply list_elem_of_In in Hv.
  unfold covers in Hc. destruct (startsWith value "/") eqn:Hs.
  - exists value, "", value. split; [done|]. split; [by left|]. by apply prefixed_within.
  - destruct (url value) as [[host path]|] eqn:Hu; [|done]. apply andb_true_iff in Hc as [Hh Hp].
    apply bool_decide_eq_true in Hh. exists value, host, path. split; [done|]. split; [by right|].
    by apply prefixed_within.
Qed.
End presented.

(** ** A garden and who may enter it *)

Module Garden.
Definition list_roles (i : string) : result thrown (list string) := Ok (if decide (i = "ann") then ["garden:rose"] else []).
Definition observe_bans (i : string) : result thrown bool := Ok (bool_decide (i = "bob")).
Definition person (i : string) (aud : option (list string)) : Identity := mkIdentity i None None aud None None false None.
Definition authenticate (provider scheme at_ credentials : string) : result thrown answer :=
  Ok (if decide (credentials = "key") then Authenticated (person "ann" (Some ["/garden/"])) false else Rejected None).
Definition force (at_ credentials : string) : result thrown answer := Ok (Rejected None).
Definition inception (p s a i k : string) : result thrown (option Identity) := Ok (Some (person i None)).
Definition encrypt (at_ : string) (i : Identity) : result thrown string := Ok (id i).
Definition newid (n : nat) : string := "new".
Definition url (s : string) : option (string * string) := None.
Definition glob (pattern path : string) : bool := bool_decide (pattern = path).
Definition hash (s : string) : string := s.
Definition text (v : value) : string := "".
Definition as_value (i : Identity) : value := VString (id i).

Definition coming (header : option string) : Context :=
  mkContext 0 None header "GET" "toa.io" "/garden/roses/" "toa.io" false false false None None false [] false None false None 0.
Definition known (exploring : bool) : Context :=
  mkContext 0 None (Some "basic key") "GET" "toa.io" "/garden/roses/" "toa.io" false exploring false
    (Some (with_roles ["garden:rose"] (person "ann" None))) None false [] false None false None 0.

Lemma role_covers_witness :
  authorize list_roles observe_bans force inception newid url true (Role ["garden:rose:red"]) [] (known false) =
    (Ok true, known false) /\
  exists role expected, role ∈ ["garden:rose"] /\ expected ∈ ["garden:rose:red"] /\
    split ":" role `prefix_of` split ":" expected.
Proof.
  destruct (role_covers list_roles observe_bans force inception newid url ["garden:rose:red"] [] (known false)
    (with_roles ["garden:rose"] (person "ann" None)) ["garden:rose"]) as [H1 H2]; [reflexivity..|].
  split; [rewrite H1; reflexivity | apply H2; reflexivity].
Defined.

Definition guards : list directive := [Role ["garden:tulip"]; Rule [Id (Some "user"); Role ["garden:tulip"]]].

Lemma untold_is_refused_witness :
  exists e c, precall_ list_roles observe_bans force inception newid url glob as_value guards [] (known false) = (Throw e, c).
Proof.
  apply (untold_is_refused list_roles observe_bans force inception newid url glob as_value guards []
    (known true) (known true) (known false)); [reflexivity..|left; by eexists].
Defined.

Definition auth_ : family directive Context (list (string * string)) Response fields thrown :=
  auth list_roles observe_bans authenticate force inception encrypt newid url glob hash 0 text as_value.

Definition bare : list declaration := [].
Definition sets := match Directives.create Error (factory_of [auth_]) bare "/garden/" with Ok s => s | _ => [] end.

Lemma closed_by_default_witness : precall Error sets [] None (known false) = (Throw Forbidden, known false).
Proof.
  apply (closed_by_default list_roles observe_bans authenticate force inception encrypt newid url glob hash 0 text as_value
    Error [] bare "/garden/" sets [] (known false)); [apply NoDup_singleton | reflexivity | constructor].
Defined.

Definition asked : result thrown unit * Context :=
  serve_ list_roles observe_bans authenticate force inception encrypt newid url glob hash 0 as_value
    [Anyone true] [] (mkResponse None None) (coming (Some "basic key")).

Lemma inception_of p s a i k m : inception p s a i k = Ok (Some m) -> id m = i.
Proof. by intros [= <-]. Qed.


Definition identified : Context :=
  snd (preflight_ observe_bans authenticate url hash 0 None (coming (Some "basic key"))).

Lemma presented_where_issued_witness :
  exists value host path, value ∈ ["/garden/"] /\
    (startsWith value "/" = true /\ path = value \/ url value = Some (host, path) /\ host = "toa.io") /\
    (stripped path = "" \/ within "/" (stripped path) "/garden/roses/").
Proof.
  apply (presented_where_issued observe_bans authenticate url hash 0 None (coming (Some "basic key")) identified
    (mkIdentity "ann" None None (Some ["/garden/"]) (Some "basic") (Some "basic") false None)); vm_compute; reflexivity.
Defined.
End Garden.
