(* ===== verification/Reactions.v ===== *)
(** * Reactions

    How a change of one component becomes a call of another: [event.ts], [emission.ts] and
    [rendering.ts] make messages of a row, [receiver.ts] makes a request of a message,
    [transmission.ts] hands a request to the first binding that takes it, and the bindings
    [bindings.loop] and [bindings.amqp] carry it: [verdict.js] says what becomes of a delivery that
    failed, [producer.js] and [consumer.js] who serves a call while a component is being replaced. *)
From S2P Require Import Prelude Identity Trail Exceptions Entities World Queries Scope Operations Outbox Calls Memory Counter.

Open Scope Z_scope.

(** ** Messages *)

Record Message := mkMessage {
  payload : value;
  m_id : option string;
  m_telemetry : option string;
  m_trail : option value;
  m_time : option Z
}.

(** ** Events *)

(** what a component declares of an event, and the bridge to its algorithm *)
Record EventBridge := mkEventBridge {
  e_condition : Event -> result thrown value;
  e_payload : Event -> result thrown value
}.

Record EventDefinition := mkEventDefinition {
  e_conditioned : option bool;
  subjective : option bool;
  e_label : string;
  e_bridge : option EventBridge
}.

Definition is_true (v : value) : bool := match v with VBool true => true | _ => false end.
Definition is_false (v : value) : bool := match v with VBool false => true | _ => false end.

(** [await this.#bridge?.method(argument)] *)
Definition bridged {B} (bridge : option B) (method : B -> result thrown value) : result thrown value :=
  match bridge with None => Ok VUndefined | Some b => method b end.

Section event.
(** a record as the object it is *)
Context (object_of : record -> value).
Context (sha1 : list Z -> list Z).

Definition render (d : EventDefinition) (r : Row) : result thrown (option value) :=
  let event := World.event r in
  holds ← (match e_conditioned d with
           | Some false => Ok true
           | _ => held ← bridged (e_bridge d) (fun b => e_condition b event); Ok (is_true held)
           end);
  if negb holds then Ok None
  else
    payload ← (if bool_decide (subjective d = Some true) then bridged (e_bridge d) (fun b => e_payload b event)
               else Ok (match e_state event with None => VUndefined | Some s => object_of s end));
    Ok (Some payload).

(** what the id of a message is made of *)
Definition message_parts (d : EventDefinition) (r : Row) : list part := [Text (row_id r); Text (e_label d)].

(** the message of the row, where its condition holds *)
Definition publication (telemetry : option string) (d : EventDefinition) (r : Row) : result thrown (option Message) :=
  raised ← render d r;
  Ok (match raised with
      | None => None
      | Some payload =>
          Some (mkMessage payload (Some (Identity.derive sha1 (message_parts d r))) telemetry
            (wire <$> row_trail r) (World.time r))
      end).

(** an [emitter] is absent where the event is rendered only *)
Definition emit (emitter : option (Message -> result thrown unit)) (telemetry : option string)
    (d : EventDefinition) (r : Row) : result thrown unit :=
  message ← publication telemetry d r;
  match message with
  | None => Ok tt
  | Some message =>
      match emitter with
      | None => Throw (Error ("Event " +:+ quoted (e_label d) +:+ " is not published") None)
      | Some send => send message
      end
  end.

(** [Rendering.render] *)
Definition rendered (events : list (string * EventDefinition)) (label : string) (r : Row)
    : result thrown (option value) :=
  match own events label with
  | None => Throw (Error ("Event " +:+ quoted label +:+ " is not rendered") None)
  | Some d => render d r
  end.
End event.

(** [Promise.all], of what has settled: any of those that failed may be the first *)
Definition all_settled (rs : list (result thrown unit)) (r : result thrown unit) : Prop :=
  match r with
  | Ok _ => Forall (eq (Ok tt)) rs
  | Throw e => Throw e ∈ rs
  end.

(** [Emission.emit]: every event of the component is emitted, whatever becomes of the others *)
Definition emission (object_of : record -> value) (sha1 : list Z -> list Z)
    (events : list (EventDefinition * option (Message -> result thrown unit))) (telemetry : option string)
    (r : Row) : result thrown unit -> Prop :=
  all_settled ((fun '(d, emitter) => emit object_of sha1 emitter telemetry d r) <$> events).


(** ** Receivers *)

Record ReceiverBridge := mkReceiverBridge {
  r_condition : value -> result thrown value;
  r_request : value -> list value -> result thrown Request
}.

Record Receiver := mkReceiver {
  r_conditioned : option bool;
  adaptive : option bool;
  endpoint : string;
  r_label : string;
  destination : string;
  arguments : option (list value);
  origin : option Source;
  r_bridge : option ReceiverBridge
}.

(** what a receiver is declared as, the label and the destination defaulting one to another *)
Definition make_receiver (conditioned adaptive : option bool) (operation : string) (label destination : option string)
    (arguments : option (list value)) (origin : option Source) (bridge : option ReceiverBridge) : Receiver :=
  let label := default operation label in
  mkReceiver conditioned adaptive operation label (default label destination) arguments origin bridge.

Definition requested_of (input : value) : Request :=
  mkRequest (Some input) None None false None None None None None None false false None.

(** [#request] *)
Definition request_of (d : Receiver) (payload : value) : result thrown Request :=
  if bool_decide (adaptive d = Some true) then
    match r_bridge d with
    | None => Throw (Error "Cannot read properties of undefined (reading 'request')" None)
    | Some b => r_request b payload (default [] (arguments d))
    end
  else Ok (requested_of payload).

(** the request, stamped with where it came from, what it is and what led to it; the moment of the
    change, which is added to it too, is read by no operation *)
Definition stamped (d : Receiver) (m : Message) (r : Request) : Request :=
  {| input := input r;
     query := query r;
     entity := entity r;
     task := task r;
     instance := instance r;
     request_id := option_or (m_id m) (request_id r);
     source := option_or (origin d) (source r);
     request_trail := Some (wire (received (default VUndefined (m_trail m)) ++ [Trail.event (destination d)]));
     wanted := wanted r;
     encoded := encoded r;
     readonly := readonly r;
     authentic := authentic r;
     telemetry := telemetry r |}.

(** [receive], up to the call it makes of its own component: nothing where the condition does not hold *)
Definition receive (d : Receiver) (m : Message) : result thrown (option Request) :=
  dropped ← (if bool_decide (r_conditioned d = Some true) then
               held ← bridged (r_bridge d) (fun b => r_condition b (payload m)); Ok (is_false held)
             else Ok false);
  if dropped : bool then Ok None
  else r ← request_of d (payload m); Ok (Some (stamped d m r)).

(** ** Transmission *)

(** how a call is carried: the process an addressed one goes to, and how long it is waited for *)
Definition Terms : Type := option (string * Z).

(** a binding answers, or carries no such endpoint; one that cannot enqueue offers no [task] *)
Record Binding := mkBinding {
  b_request : Request -> Terms -> result thrown (option reply);
  b_task : option (Request -> result thrown unit)
}.

Fixpoint offered (count : nat) (bindings : list Binding) (r : Request) (terms : Terms) : result thrown reply :=
  match bindings with
  | [] =>
      Throw (Exceptions.derive Exceptions.Transmission (Some ("All (" +:+ show (Z.of_nat count) +:+ ") bindings rejected.")))
  | binding :: bindings =>
      if task r then
        match b_task binding with
        | None => offered count bindings r terms
        | Some enqueue => _ ← enqueue r; Ok NoReply
        end
      else
        answered ← b_request binding r terms;
        match answered with
        | None => offered count bindings r terms
        | Some reply => Ok reply
        end
  end.

Definition transmit (bindings : list Binding) (r : Request) (terms : Terms) : result thrown reply :=
  offered (length bindings) bindings r terms.

(** ** The binding of a process ([bindings.loop]) *)

Module Loop.
(** the endpoints served here, by the component and its endpoint, and by which producer *)
Definition bindings : Type := gmap (string * string) nat.

Definition operation (locator : string) (producer : nat) (endpoint : string) (bs : bindings) : result thrown bindings :=
  match bs !! (locator, endpoint) with
  | Some _ => Throw (Error ("Loop binding endpoint " +:+ quoted endpoint +:+ " already exists") None)
  | None => Ok (<[(locator, endpoint) := producer]> bs)
  end.

(** the endpoints opened before one that failed stay *)
Fixpoint open_ (locator : string) (producer : nat) (endpoints : list string) (bs : bindings)
    : result thrown unit * bindings :=
  match endpoints with
  | [] => (Ok tt, bs)
  | endpoint :: endpoints =>
      match operation locator producer endpoint bs with
      | Throw e => (Throw e, bs)
      | Ok bs => open_ locator producer endpoints bs
      end
  end.

Definition close (locator : string) (endpoints : list string) (bs : bindings) : bindings :=
  foldr (fun endpoint bs => base.delete (locator, endpoint) bs) bs endpoints.

(** the producer that serves the call, unless it is for another process *)
Definition taken_by (bs : bindings) (here : string) (locator endpoint : string) (terms : Terms) : option nat :=
  match terms with
  | Some (addressee, _) => if decide (addressee <> here) then None else bs !! (locator, endpoint)
  | None => bs !! (locator, endpoint)
  end.

(** [invoke] of what serves it *)
Definition consumer (invoke : nat -> string -> Request -> result thrown reply) (bs : bindings)
    (here locator endpoint : string) : Binding :=
  mkBinding (fun r terms =>
    match taken_by bs here locator endpoint terms with
    | None => Ok None
    | Some producer => reply ← invoke producer endpoint r; Ok (Some reply)
    end) None.
End Loop.

(** ** The binding of a broker ([bindings.amqp]) *)

Module Amqp.
(** what becomes of a message that was handed over: it is done with, tried again, or kept apart with
    the reason *)
Inductive verdict := Acknowledged | Retried (e : thrown) | Parked (reason : string).

Definition message_of (e : thrown) : string := match e with Raised e => Exceptions.message e | Error m _ => m end.

Definition refuse (e : thrown) : verdict :=
  if permanent (code_of e) then
    let code := match code_of e with Some c => c | None => 0 end in
    Parked (match names code with Some n => n | None => "undefined" end +:+ ": " +:+ message_of e)
  else Retried e.

Definition unserved (endpoint : option string) : verdict :=
  Parked ("No operation " +:+ quoted (default "" endpoint) +:+ " takes tasks here").

(** [Receiver.#receive]: what no emitter sent is a payload whole *)
Definition incoming (framework : bool) (m : Message) (whole : value) : Message :=
  if framework then m else mkMessage whole None None None None.

Definition delivery (outcome : result thrown unit) : verdict :=
  match outcome with Ok _ => Acknowledged | Throw e => refuse e end.

Section producer.
Context (locator : string) (endpoints stateful : list string).
Context (invoke : string -> Request -> result thrown reply).

Definition shared : list string := filter (fun endpoint => endpoint ∉ stateful) endpoints.
Definition served : list string := filter (fun endpoint => internal endpoint = false) shared.

Definition requested (endpoint : option string) (r : Request) : result thrown reply :=
  match endpoint with
  | Some name => if decide (name ∈ shared) then invoke name r else
      Ok (Excepted (exception_of (Exceptions.derive Unserved
        (Some (quoted name +:+ " is not served by this process of " +:+ quoted locator)))))
  | None => Ok (Excepted (exception_of (Exceptions.derive Unserved
        (Some (quoted "" +:+ " is not served by this process of " +:+ quoted locator)))))
  end.

(** a task is a call with nobody waiting, so that its exception is what brings it back *)
Definition tasked (endpoint : option string) (r : Request) : verdict :=
  match endpoint with
  | Some name =>
      if decide (name ∈ served) then
        match invoke name r with
        | Throw e => Retried e
        | Ok (Excepted e) => refuse (Raised e)
        | Ok _ => Acknowledged
        end
      else unserved endpoint
  | None => unserved None
  end.
End producer.

(** *** A call while a component is being replaced *)

Definition RESENDS : nat := 11.
Definition RESEND_BASE : Z := 100.
Definition RESEND_FACTOR : Z := 2.

Definition resending (attempt : nat) : option Z :=
  if (attempt <? RESENDS)%nat then Some (RESEND_BASE * RESEND_FACTOR ^ Z.of_nat attempt) else None.

Definition is_unserved (r : reply) : bool :=
  match r with Excepted e => bool_decide (code e = codes Unserved) | _ => false end.

Section ordinary.
Context (id endpoint : string).
(** what the attempt of that number is answered, and whether the process began to stop before the
    pause after it was over *)
Context (answers : nat -> result thrown reply) (stopped : nat -> bool).

Definition unavailable : reply :=
  Excepted (exception_of (Exceptions.derive Exceptions.Endpoint
    (Some (quoted endpoint +:+ " is not served by " +:+ quoted id)))).

(** the loop from an attempt on: what the caller is told, and the pauses made *)
Fixpoint ordinary (fuel attempt : nat) : option (result thrown reply * list Z) :=
  match fuel with
  | O => None
  | S fuel =>
      match answers attempt with
      | Throw e => Some (Throw e, [])
      | Ok r =>
          if negb (is_unserved r) then Some (Ok r, [])
          else
            match resending attempt with
            | Some delay =>
                if stopped attempt then Some (Ok unavailable, [])
                else
                  match ordinary fuel (S attempt) with
                  | Some (r, pauses) => Some (r, delay :: pauses)
                  | None => None
                  end
            | None => Some (Ok unavailable, [])
            end
      end
  end.
End ordinary.

(** a call to a process that nothing holds is answered and not thrown *)
Definition addressed (unroutable : thrown -> bool) (exchange instance : string) (sent : result thrown reply)
    : result thrown reply :=
  match sent with
  | Throw e =>
      if unroutable e then
        Ok (Excepted (exception_of (Exceptions.derive Addressee
          (Some ("nothing holds " +:+ quoted instance +:+ " of " +:+ quoted exchange)))))
      else Throw e
  | Ok r => Ok r
  end.
End Amqp.

(** ** A delivery, from the message to what becomes of it *)

Section delivered.
Context (is_stream : value -> bool) (sha1 : list Z -> list Z) (contract : Request -> result thrown unit).
Context (limits : Limits) (variable : option Z).
(** what a receiver calls its own component by: the client, what it knows of the operation, and the
    bindings the call goes out by *)
Context (client : Component) (callee : Callee) (bindings : list Binding).

Definition unhurried : Waiting := mkWaiting None false.

(** a call made while serving none *)
Definition remote (minted endpoint : string) (r : Request) : result thrown given :=
  _ ← enter limits client endpoint (Some r);
  e ← snd (invoke is_stream sha1 contract minted callee None r unhurried);
  reply ← transmit bindings e (terms variable (instance r) None);
  Calls.receive reply.

Definition delivered (minted : string) (d : Receiver) (m : Message) : Amqp.verdict :=
  Amqp.delivery (received ← receive d m;
                 match received with
                 | None => Ok tt
                 | Some r => _ ← remote minted (endpoint d) r; Ok tt
                 end).
End delivered.

(** ** Cascades *)

Section cascade.
Context {DB : Type} (p : platform).
Context (is_stream : value -> bool) (sha1 : list Z -> list Z) (contract : Request -> result thrown unit).
Context (object_of : record -> value) (limits : Limits).

(** What is served on account of an invocation, one thing after another: a call made while serving
    it, or the call a receiver makes of an event raised by a row it wrote, whoever published the row
    and whenever. [path] holds the hops served, the last one first. *)
Inductive cascade (inv : Invocation) : list string -> Invocation -> Prop :=
| cascade_here : cascade inv [] inv
| cascade_called path inv1 minted c r o inv1' e component endpoint declared inv2 :
    cascade inv path inv1 ->
    request_trail r = None ->
    invoke is_stream sha1 contract minted c (Some inv1) r o = (inv1', Ok e) ->
    provided component endpoint = Some declared -> unchained declared = false ->
    enter limits component endpoint (Some e) = Ok (Served (Some inv2)) ->
    cascade inv (hop component endpoint :: path) inv2
| cascade_reacted path inv1 slots names g ev w w' row telemetry d m rcv r minted c inv1' e component endpoint declared inv2 :
    cascade inv path inv1 ->
    Outbox.row (DB:=DB) p slots (Some (hops inv1)) names g ev w = (w', Ok row) ->
    publication object_of sha1 telemetry d row = Ok (Some m) ->
    receive rcv m = Ok (Some r) ->
    invoke is_stream sha1 contract minted c None r unhurried = (inv1', Ok e) ->
    provided component endpoint = Some declared -> unchained declared = false ->
    enter limits component endpoint (Some e) = Ok (Served (Some inv2)) ->
    cascade inv (hop component endpoint :: path) inv2.
End cascade.

(** ** Lemmas *)

Lemma publication_Some object_of sha1 telemetry d r m :
  publication object_of sha1 telemetry d r = Ok (Some m) ->
  m_id m = Some (Identity.derive sha1 (message_parts d r)) /\ m_trail m = wire <$> row_trail r.
Proof.
  unfold publication. intros ([payload|] & _ & [= <-])%bind_Ok. done.
Qed.

Lemma receive_Some d m r :
  receive d m = Ok (Some r) -> exists r0, request_of d (payload m) = Ok r0 /\ r = stamped d m r0.
Proof.
  unfold receive. intros (dropped & _ & Hr)%bind_Ok. destruct dropped; [done|].
  apply bind_Ok in Hr as (r0 & Hr0 & [= <-]). by exists r0.
Qed.

(** a chain arriving with one more hop than it may have is refused *)
Lemma extend_whole inbound h l t :
  repeats l <> 0 -> extend inbound h l = Ok t ->
  t = received inbound ++ [h] /\ Z.of_nat (length t) <= depth l /\ Z.of_nat (count h t) < repeats l.
Proof.
  intros Hr [Ht Hb]%extend_Ok. specialize (Hb Hr) as [Hl Hc]. split; [|done]. rewrite Ht. f_equal.
  apply clip_id. rewrite Ht, length_app in Hl. cbn in Hl. unfold clip in Hl. case_match; [|lia].
  rewrite length_take in Hl. lia.
Qed.

(** a call that says what it is is that *)
Lemma invoke_identified is_stream sha1 contract minted c inv r o inv' e i :
  request_id r = Some i -> invoke is_stream sha1 contract minted c inv r o = (inv', Ok e) -> request_id e = Some i.
Proof.
  unfold invoke. intros Hi. destruct (made_once_under_retry c inv); [done|].
  destruct (refuse _ _ _ _ _); [|done]. rewrite Hi. intros [= _ Hc]. by apply bind_Ok in Hc as (u & _ & [= <-]).
Qed.

Lemma message_parts_name d r d' r' :
  Identity.name (message_parts d r) = Identity.name (message_parts d' r') <-> row_id r = row_id r' /\ e_label d = e_label d'.
Proof.
  unfold message_parts. split; [|by intros [-> ->]].
  intros [Hr H]%name_cons_inj. apply name_cons_inj in H as [Hl _]. done.
Qed.

(** what a receiver calls with is identified by the row and the event *)
Lemma reaction_identified object_of is_stream sha1 contract telemetry d row m rcv r minted c inv inv' e :
  publication object_of sha1 telemetry d row = Ok (Some m) -> receive rcv m = Ok (Some r) ->
  invoke is_stream sha1 contract minted c inv r unhurried = (inv', Ok e) ->
  request_id e = Some (Identity.derive sha1 (message_parts d row)).
Proof.
  intros [Hm _]%publication_Some (r0 & _ & ->)%receive_Some. apply invoke_identified. cbn. by rewrite Hm.
Qed.

(** *** Who answers *)

Definition declines (r : Request) (terms : Terms) (b : Binding) : Prop :=
  if task r then b_task b = None else b_request b r terms = Ok None.

Definition answers_ (r : Request) (terms : Terms) (b : Binding) (answered : reply) : Prop :=
  if task r then (exists enqueue, b_task b = Some enqueue /\ enqueue r = Ok tt) /\ answered = NoReply
  else b_request b r terms = Ok (Some answered).

Lemma offered_Ok count bs r terms answered :
  offered count bs r terms = Ok answered ->
  exists before b after, bs = before ++ b :: after /\ Forall (declines r terms) before /\ answers_ r terms b answered.
Proof.
  unfold declines, answers_. induction bs as [|b bs IH]; cbn [offered]; [done|].
  destruct (task r).
  - destruct (b_task b) as [enqueue|] eqn:Hb.
    + intros ([] & He & [= <-])%bind_Ok. exists [], b, bs. split_and!; try done. by exists enqueue.
    + intros (before & b' & after & -> & Hf & Ha)%IH. exists (b :: before), b', after.
      split; [done|]. split; [by constructor | done].
  - intros ([x|] & Hb & Hx)%bind_Ok.
    + injection Hx as <-. by exists [], b, bs.
    + apply IH in Hx as (before & b' & after & -> & Hf & Ha). exists (b :: before), b', after.
      split; [done|]. split; [by constructor | done].
Qed.

(** *** The pauses of a call *)

Section pauses.
Context (id endpoint : string) (answers : nat -> result thrown reply) (stopped : nat -> bool).

Definition delays (from n : nat) : list Z := (fun k => Amqp.RESEND_BASE * Amqp.RESEND_FACTOR ^ Z.of_nat k) <$> seq from n.

Definition total (ns : list Z) : Z := foldr Z.add 0 ns.

Lemma delays_total from n : total (delays from n) = 100 * (2 ^ Z.of_nat (from + n) - 2 ^ Z.of_nat from).
Proof.
  revert from. induction n as [|n IH]; intros from; [rewrite Nat.add_0_r; cbn; lia|].
  change (total (delays from (S n))) with (100 * 2 ^ Z.of_nat from + total (delays (S from) n)). rewrite IH.
  replace (S from + n)%nat with (from + S n)%nat by lia.
  rewrite (Nat2Z.inj_succ from), Z.pow_succ_r by lia. lia.
Qed.

(** an attempt that another process might answer otherwise *)
Definition passed (k : nat) : Prop := exists a, answers k = Ok a /\ Amqp.is_unserved a = true.

Lemma ordinary_spec fuel attempt :
  (attempt + fuel = S Amqp.RESENDS)%nat -> (attempt <= Amqp.RESENDS)%nat ->
  exists n, Amqp.ordinary id endpoint answers stopped fuel attempt =
      Some (match answers (attempt + n)%nat with
            | Ok a => if Amqp.is_unserved a then Ok (Amqp.unavailable id endpoint) else Ok a
            | Throw e => Throw e
            end, delays attempt n) /\
    (attempt + n <= Amqp.RESENDS)%nat /\
    (forall k, (attempt <= k < attempt + n)%nat -> passed k /\ stopped k = false) /\
    (passed (attempt + n)%nat -> (attempt + n = Amqp.RESENDS)%nat \/ stopped (attempt + n)%nat = true).
Proof.
  revert attempt. induction fuel as [|fuel IH]; intros attempt Hf Ha; [lia|]. cbn [Amqp.ordinary].
  destruct (answers attempt) as [a|e] eqn:Hans.
  2: { exists 0%nat. rewrite Nat.add_0_r, Hans. split_and!; [done..| lia | intros (a & Ha' & _); congruence]. }
  destruct (Amqp.is_unserved a) eqn:Hu; cbn [negb].
  2: { exists 0%nat. rewrite Nat.add_0_r, Hans, Hu. split_and!; [done..| lia | intros (b & Hb & ?); congruence]. }
  unfold Amqp.resending. destruct (Nat.ltb_spec attempt Amqp.RESENDS) as [Hlt|Hge].
  2: { exists 0%nat. rewrite Nat.add_0_r, Hans, Hu. split_and!; [done..| lia | intros _; left; lia]. }
  destruct (stopped attempt) eqn:Hs.
  { exists 0%nat. rewrite Nat.add_0_r, Hans, Hu. split_and!; [done..| lia | by right]. }
  destruct (IH (S attempt)) as (n & Ho & Hn & Hk & Hend); [lia..|]. exists (S n).
  replace (attempt + S n)%nat with (S attempt + n)%nat by lia. rewrite Ho. split_and!; [done.. | | done].
  intros k Hk'. destruct (decide (k = attempt)) as [->|]; [split; [by exists a | done]|]. apply Hk. lia.
Qed.
End pauses.

Section cascades.
Context {DB : Type} (p : platform).
Context (is_stream : value -> bool) (sha1 : list Z -> list Z) (contract : Request -> result thrown unit).
Context (object_of : record -> value) (limits : Limits).

Notation cascade := (cascade (DB:=DB) p is_stream sha1 contract object_of limits).

(** what is served after another is served with its chain, and hops of its own *)
Lemma served_after chain more inbound e component endpoint declared inv :
  repeats limits <> 0 -> request_trail e = Some inbound -> received inbound = chain ++ more ->
  provided component endpoint = Some declared -> unchained declared = false ->
  enter limits component endpoint (Some e) = Ok (Served (Some inv)) ->
  hops inv = chain ++ more ++ [hop component endpoint] /\
  Z.of_nat (length (hops inv)) <= depth limits /\
  Z.of_nat (count (hop component endpoint) (hops inv)) < repeats limits.
Proof.
  intros Hr He Hin Hp Hu (declared' & Hp' & Hx & _)%enter_chain. rewrite Hp in Hp'. injection Hp' as <-.
  rewrite Hu in Hx. cbn in Hx. rewrite He in Hx. apply extend_whole in Hx as (Ht & Hl & Hc); [|done].
  cbn in Ht. rewrite Hin, <- app_assoc in Ht. done.
Qed.

Lemma cascade_step inv path inv2 :
  repeats limits <> 0 -> cascade inv path inv2 ->
  match path with
  | [] => inv2 = inv
  | h :: path =>
      exists inv1 more, cascade inv path inv1 /\ hops inv2 = hops inv1 ++ more ++ [h] /\
        Z.of_nat (length (hops inv2)) <= depth limits /\ Z.of_nat (count h (hops inv2)) < repeats limits
  end.
Proof.
  intros Hr Hc. destruct Hc as [|path inv1 minted c r o inv1' e component endpoint declared inv2 Hc Ht Hi Hp Hu He
    |path inv1 slots names g ev w w' row telemetry d m rcv r minted c inv1' e component endpoint declared inv2
      Hc Hrow Hm Hrcv Hi Hp Hu He]; [done| |]; apply invoke_Ok in Hi as (_ & _ & i & -> & _).
  - exists inv1, []. split; [done|].
    eapply served_after; [done | | | done | done | exact He].
    + cbn. by rewrite Ht.
    + by rewrite received_wire, app_nil_r.
  - apply publication_Some in Hm as [_ Hm]. apply Outbox.row_fields in Hrow as (_ & _ & _ & Hrow & _).
    apply receive_Some in Hrcv as (r0 & _ & ->). exists inv1, [Trail.event (destination rcv)]. split; [done|].
    eapply served_after; [done | | | done | done | exact He].
    + reflexivity.
    + rewrite received_wire, Hm, Hrow. change (default _ _) with (wire (hops inv1)). by rewrite received_wire.
Qed.

(** the hops served are hops of the chain that was carried, and no more than it *)
Lemma cascade_chain inv path inv2 :
  repeats limits <> 0 -> cascade inv path inv2 ->
  exists more, hops inv2 = hops inv ++ more /\
    (length path <= length more)%nat /\
    forall h, (count h path <= count h more)%nat.
Proof.
  intros Hr. revert inv2. induction path as [|h path IH]; intros inv2 Hc; apply cascade_step in Hc; try done.
  - subst. exists []. rewrite app_nil_r. split_and!; [done | simpl; lia |]. intros h. rewrite count_nil. lia.
  - destruct Hc as (inv1 & between & Hc & -> & _). destruct (IH inv1 Hc) as (more & -> & Hl & Hn).
    exists (more ++ between ++ [h]). rewrite !length_app. cbn [length]. split_and!; [by rewrite <- app_assoc | lia |].
    intros h'. specialize (Hn h'). change (h :: path) with ([h] ++ path). rewrite !count_app. lia.
Qed.
End cascades.

(** ** Properties *)

Section properties.
Context {DB : Type} (p : platform).
Context (is_stream : value -> bool) (sha1 : list Z -> list Z) (contract : Request -> result thrown unit).
Context (object_of : record -> value) (limits : Limits).

(** A change is reacted to once, however often it is told of: the row a storage committed once is
    published by whoever and whenever, redelivered at will, and each time its receiver's call is the
    same call, so that an operation declared [once] that has answered and recorded it answers any later
    delivery alike and changes nothing. Another row, or another event of the same row, is another call. *)
Theorem reacted_once `{Storage DB, !LawfulReads DB, !LawfulInbox DB} entities_ outbox associated run_algorithm
    reply_fit local definition telemetry telemetry' d d' row row' m m' rcv rcv' r r' minted minted' c c'
    inv1 inv2 inv1' inv2' e e' q q' w w1 answered :
  (forall o, outbox = Some o -> LawfulOutbox o) ->
  row_id row = row_id row' -> e_label d = e_label d' ->
  publication object_of sha1 telemetry d row = Ok (Some m) -> receive rcv m = Ok (Some r) ->
  publication object_of sha1 telemetry' d' row' = Ok (Some m') -> receive rcv' m' = Ok (Some r') ->
  invoke is_stream sha1 contract minted c inv1 r unhurried = (inv2, Ok e) ->
  invoke is_stream sha1 contract minted' c' inv1' r' unhurried = (inv2', Ok e') ->
  let i := Identity.derive sha1 (message_parts d row) in
  of_one definition -> innocent run_algorithm i -> is_once definition = true ->
  recorded (db w) i = None ->
  Operations.process p entities_ outbox associated run_algorithm reply_fit local definition e q w = (w1, Ok answered) ->
  (recorded (db w1) i = None \/
   serve p entities_ outbox associated run_algorithm reply_fit local definition e' q' w1 =
     (w1, Ok (Answer (body answered)))) /\
  forall d'' row'', Identity.name (message_parts d'' row'') = Identity.name (message_parts d row) <->
    row_id row'' = row_id row /\ e_label d'' = e_label d.
Proof.
  intros Hout Hrow Hlabel Hm Hr Hm' Hr' He He' i Hone Hinn Honce Hn Hp.
  pose proof (reaction_identified _ _ _ _ _ _ _ _ _ _ _ _ _ _ _ Hm Hr He) as Hi.
  pose proof (reaction_identified _ _ _ _ _ _ _ _ _ _ _ _ _ _ _ Hm' Hr' He') as Hi'.
  unfold message_parts in Hi'. rewrite <- Hrow, <- Hlabel in Hi'. split; [|intros; apply message_parts_name].
  unfold Operations.process in Hp. destruct (Hone) as [Hk _]. rewrite Hk in Hp.
  apply (retry_recorded p entities_ outbox associated run_algorithm reply_fit local definition Hout i)
    in Hp as [Hsame | [_ Hrec]]; try done; [left; by rewrite Hsame|].
  right. unfold serve. rewrite Honce. by apply (once_recalled p entities_ outbox associated run_algorithm reply_fit local definition i).
Qed.

(** A caller does not wait forever for an operation that no process serves: the call is sent at
    most twelve times with pauses that make less than three and a half minutes, what the first process
    that serves it answers is the answer, and it is told that the operation is not served only where
    every process asked said so and either the pauses ran out or its own process began to stop. *)
Theorem unserved_is_told id endpoint answers stopped :
  exists n told pauses,
    Amqp.ordinary id endpoint answers stopped (S Amqp.RESENDS) 0 = Some (told, pauses) /\
    length pauses = n /\ (n <= 11)%nat /\ total pauses <= 204700 /\
    (forall k, (k < n)%nat -> passed answers k /\ stopped k = false) /\
    ((passed answers n /\ told = Ok (Amqp.unavailable id endpoint) /\ (n = 11%nat \/ stopped n = true)) \/
     (~ passed answers n /\ told = answers n)).
Proof.
  destruct (ordinary_spec id endpoint answers stopped (S Amqp.RESENDS) 0) as (n & Ho & Hn & Hk & Hend); [done|lia|].
  exists n. eexists _, _. split; [exact Ho|]. cbn [Nat.add] in *. split_and!.
  - unfold delays. by rewrite length_fmap, length_seq.
  - exact Hn.
  - rewrite delays_total. cbn [Nat.add]. assert (2 ^ Z.of_nat n <= 2 ^ 11) by (apply Z.pow_le_mono_r; unfold Amqp.RESENDS in Hn; lia).
    change (2 ^ Z.of_nat 0) with 1. change (2 ^ 11) with 2048 in *. lia.
  - intros k Hlt. apply Hk. lia.
  - destruct (answers n) as [a|e] eqn:Ha; [|right; split; [intros (a & H & _); congruence | done]].
    destruct (Amqp.is_unserved a) eqn:Hu; [left; split_and!; [by exists a | done | apply Hend; by exists a]|].
    right. split; [intros (b & Hb & ?); congruence | done].
Qed.

(** A delivery is acknowledged only where the operation answered it, or its condition says it is
    none of the receiver's: whatever failed on the way brings the message back, unless it failed in a
    way that no other attempt changes, which keeps the message apart. A refused chain is such a way. *)
Theorem acknowledged_was_answered variable client callee bindings minted d m :
  match delivered is_stream sha1 contract limits variable client callee bindings minted d m with
  | Amqp.Acknowledged =>
      receive d m = Ok None \/
      exists r e before b after answered, receive d m = Ok (Some r) /\
        snd (invoke is_stream sha1 contract minted callee None r unhurried) = Ok e /\
        bindings = before ++ b :: after /\ Forall (declines e (terms variable (instance r) None)) before /\
        answers_ e (terms variable (instance r) None) b answered /\ forall x, answered <> Excepted x
  | Amqp.Retried e => permanent (code_of e) = false
  | Amqp.Parked _ =>
      exists e, permanent (code_of e) = true /\
        (receive d m = Throw e \/ exists r, receive d m = Ok (Some r) /\
          remote is_stream sha1 contract limits variable client callee bindings minted (endpoint d) r = Throw e)
  end.
Proof.
  unfold delivered, Amqp.delivery, Amqp.refuse.
  destruct (receive d m) as [[r|]|e] eqn:Hr; cbn; [|by left|].
  2: { destruct (permanent (code_of e)) eqn:Hp; [|done]. exists e. split; [done | by left]. }
  destruct (remote _ _ _ _ _ _ _ _ minted (endpoint d) r) as [x|e] eqn:Hx; cbn.
  2: { destruct (permanent (code_of e)) eqn:Hp; [|done]. exists e. split; [done | right; by exists r]. }
  right. unfold remote in Hx. apply bind_Ok in Hx as (t & _ & Hx). apply bind_Ok in Hx as (e & He & Hx).
  apply bind_Ok in Hx as (answered & (before & b & after & Hb & Hf & Ha)%offered_Ok & Hx).
  exists r, e, before, b, after, answered. split_and!; try done. by intros y ->.
Qed.
End properties.

(** ** Orders that are counted *)

Module Orders.
Definition object_of (r : record) : value := VObject [("id", VString (Entities.id r))].
Definition streamless : value -> bool := fun _ => false.
Definition open_ : Request -> result thrown unit := fun _ => Ok tt.
Definition limits_ : Limits := mkLimits 3 32.

(** what was changed, and the row it left *)
Definition placing : Invocation := mkInvocation ["shop.orders.place"] (Some "1") false false ∅.
Definition order : record := mkRecord "o" (Some 1) (Some 0) None None None None None ∅.
Definition changed : Event := mkEvent None (Some order) None VNull.
Definition left_ : world collections * result thrown Row :=
  Outbox.row (DB:=collections) clockwork None (Some (hops placing)) ["events"] 15000 changed fresh.
Definition row_ : Row :=
  match snd left_ with Ok r => r | Throw _ => mkRow "" 0 false 0 [] None None changed end.

(** the event, told of by the process that wrote the row and, later, by another *)
Definition placed : EventDefinition := mkEventDefinition (Some false) None "shop.orders.placed" None.
Definition told (telemetry : option string) : Message :=
  mkMessage (object_of order) (Some (Identity.derive no_hash (message_parts placed row_))) telemetry
    (Some (wire ["shop.orders.place"])) (World.time row_).

Definition counts : Receiver :=
  make_receiver None None "count" (Some "shop.orders.placed") None None (Some (FromEvent "shop" "orders" "placed")) None.
Definition counting : Callee := mkCallee "shop.counter.count" None false false None true.
Definition counter_ : Component := mkComponent "shop.counter" [("count", mkEndpoint false false false)] true false.

Definition received_ (telemetry : option string) : Request :=
  match receive counts (told telemetry) with Ok (Some r) => r | _ => requested_of VNull end.
Definition sent_ (telemetry : option string) : option Invocation * result thrown Request :=
  invoke streamless no_hash open_ "m" counting None (received_ telemetry) unhurried.
Definition envelope_ (telemetry : option string) : Request :=
  match snd (sent_ telemetry) with Ok e => e | Throw _ => requested_of VNull end.

Definition counting_ : Invocation :=
  mkInvocation ["shop.orders.place"; "~shop.orders.placed"; "shop.counter.count"] (request_id (envelope_ None)) false false ∅.

Lemma row_left : left_ = (fst left_, Ok row_).
Proof. vm_compute. reflexivity. Qed.

Lemma sends telemetry : sent_ telemetry = (None, Ok (envelope_ telemetry)).
Proof. reflexivity. Qed.


(** the operation that counts, over a storage that holds nothing yet *)
Definition served_ := Operations.process clockwork schemas (Some events) false count_ (fun _ => Ok tt) false declaration
  (envelope_ None) None fresh.

Lemma reacted_once_witness :
  serve clockwork schemas (Some events) false count_ (fun _ => Ok tt) false declaration (envelope_ (Some "again")) None (fst served_) =
    (fst served_, Ok (Answer (mkReply (Some (Value (VBool true))) None))).
Proof.
  destruct (reacted_once clockwork streamless no_hash open_ object_of schemas (Some events) false count_ (fun _ => Ok tt) false
    declaration None (Some "again") placed placed row_ row_ (told None) (told (Some "again")) counts counts (received_ None)
    (received_ (Some "again")) "m" "m" counting counting None None None None (envelope_ None) (envelope_ (Some "again")) None None fresh
    (fst served_) (Answer (mkReply (Some (Value (VBool true))) None)) only_events eq_refl eq_refl eq_refl eq_refl eq_refl eq_refl
    (sends None) (sends (Some "again")) one (count_innocent _) eq_refl eq_refl) as [[Hn|Ha] _].
  - vm_compute. reflexivity.
  - vm_compute in Hn. discriminate Hn.
  - exact Ha.
Defined.
End Orders.
