(* ===== verification/Contracts.v ===== *)
(** * Contracts

    What a caller is held to. [runtime/norm/src/.component/.normalize/operations.js] completes what a
    manifest declares; [contract/component.ts] and [contract/system.ts] state it in the map a process
    is given, leaving out what the runtime gives every component, and put it back for whoever reads
    one; [contract/request.ts] and [contract/reply.ts] make of it the schema a call is validated
    against and what the operation answers when asked to explain. A schema is the object it is. *)
From S2P Require Import Prelude.

Open Scope Z_scope.

(** ** Schemas *)

Notation object fields := (VObject fields%string) (only parsing).

Definition text (s : string) : value := VString s.

(** the properties of an object less one *)
Definition without (name : string) (fields : list (string * value)) : list (string * value) :=
  filter (fun '(k, _) => k <> name) fields.

Definition fields_of (v : value) : list (string * value) := match v with VObject fields => fields | _ => [] end.

(** what [JSON.stringify] writes of a value, member by member: nothing of an undefined one, and a null
    in its place among items *)
Fixpoint written (v : value) : value :=
  match v with
  | VArray vs => VArray (map (fun v => match v with VUndefined => VNull | _ => written v end) vs)
  | VObject fields =>
      VObject (omap (fun member => member)
        (map (fun '(k, v) => match v with VUndefined => None | _ => Some (k, written v) end) fields))
  | _ => v
  end.

Definition same (one other : option value) : bool :=
  bool_decide (written (default VUndefined one) = written (default VUndefined other)).

(** [Object.keys(schema).length] *)
Definition keys_of (v : value) : nat :=
  match v with VObject fields => length fields | VArray vs => length vs | VString s => String.length s | _ => 0 end.

(** ** The system properties *)

Definition ID : value := object [("type", text "string"); ("pattern", text "^[a-fA-F0-9]{32}$")].

Definition SYSTEM : list (string * value) :=
  [("VERSION", object [("type", text "integer"); ("minimum", VNumber 0)]);
   ("CREATED", object [("type", text "integer"); ("format", text "epoch-millis")]);
   ("UPDATED", object [("type", text "integer"); ("format", text "epoch-millis")]);
   ("DELETED", object [("type", text "integer"); ("format", text "epoch-millis"); ("nullable", VBool true)]);
   ("REGION", object [("type", text "integer"); ("minimum", VNumber 0)])].

Definition REQUIRED : list string := "id" :: (fst <$> SYSTEM).

Record Entity := mkEntity {
  properties : list (string * value);
  required : option (list string);
  system : option bool
}.

Definition given (e : Entity) : bool :=
  forallb (fun '(name, property) => same (own (properties e) name) (Some property)) SYSTEM
  && forallb (fun name => bool_decide (name ∈ default [] (required e))) REQUIRED.

Definition pack (e : Entity) : Entity :=
  if negb (given e) then e
  else
    let properties := filter (fun '(name, property) =>
      ~ (name ∈ fst <$> SYSTEM) /\ ~ (name = "id" /\ same (Some property) (Some ID) = true)) (properties e) in
    let required := filter (fun name => name ∉ REQUIRED) (default [] (required e)) in
    mkEntity properties (match required with [] => None | _ => Some required end) (Some true).

Definition unpack (e : Entity) : Entity :=
  if bool_decide (system e = Some true) then
    let properties_ := properties e in
    let properties_ := match own (properties e) "id" with None => assign "id" ID properties_ | Some _ => properties_ end in
    mkEntity (assign_all properties_ SYSTEM) (Some (default [] (required e) ++ REQUIRED)) None
  else e.

(** ** Operations *)

(** [more] is what an operation states of serving a call: its concurrency, its bridge, what it
    forwards to *)
Record Operation := mkOperation {
  type : option string;
  scope : option string;
  query : option bool;
  once : option value;
  stateful : option bool;
  stream : option string;
  bindings : option (list string);
  description : option string;
  input : option value;
  output : option value;
  errors : option (list string);
  more : list (string * value)
}.

Record Contract := mkContract {
  version : option string;
  c_bindings : option (list string);
  entity : option Entity;
  operations : option (list (string * Operation));
  (** what carries each event *)
  events : option (list (string * option string))
}.

(** *** What a manifest did not say *)

(** as it is declared: bindings may be null, which says none, and an operation virtual, which a
    prototype declares for those that derive from it *)
Record declaration := mkDeclaration {
  d_operation : Operation;
  no_bindings : bool;
  virtual : bool
}.

(** a scope or a query set *)
Definition with_scope (scope : option string) (query : option bool) (o : Operation) : Operation :=
  mkOperation (type o) scope query (once o) (stateful o) (stream o) (bindings o) (description o) (input o)
    (output o) (errors o) (more o).

Definition normalized (component_bindings : option (list string)) (d : declaration) : Operation :=
  let o := d_operation d in
  let o :=
    if bool_decide (type o = Some "computation" \/ type o = Some "unmanaged") then with_scope (Some "none") (Some false) o
    else if bool_decide (type o = Some "effect") then
      with_scope (match scope o with None => Some "none" | s => s end) (query o) o
    else o in
  let o := if bool_decide (scope o = Some "none") then with_scope (scope o) (Some false) o else o in
  mkOperation (type o) (scope o) (query o) (once o) (stateful o) (stream o)
    (if no_bindings d then Some [] else match bindings o with None => component_bindings | b => b end)
    (description o)
    (match input o with Some VNull => None | i => i end)
    (Some (match output o with None | Some VNull | Some VUndefined => VObject [] | Some output => output end))
    (errors o) (more o).

Definition normalize (component_bindings : option (list string)) (ds : list (string * declaration))
    : list (string * Operation) :=
  (fun '(endpoint, d) => (endpoint, normalized component_bindings d)) <$> filter (fun '(_, d) => virtual d = false) ds.

(** *** What the map states *)

Definition describes (schema : value) : bool :=
  match schema with VNull => false | _ => negb (bool_decide (keys_of schema = 0%nat)) end.

Definition operation (component_bindings : option (list string)) (o : Operation) : Operation :=
  mkOperation (type o) (scope o)
    (if bool_decide (query o = Some false /\ scope o = Some "none") then None else query o)
    (once o) (stateful o) (stream o)
    (if bool_decide (bindings o = component_bindings) then None else bindings o)
    (description o) (input o)
    (match output o with Some schema => if describes schema then Some schema else None | None => None end)
    (errors o) [].

Definition component (m : Contract) : Contract :=
  mkContract (version m) (c_bindings m) (pack <$> (match entity m with
      | Some e => Some (mkEntity (properties e) (required e) None) | None => None end))
    (match operations m with
     | None => None
     | Some os => Some ((fun '(endpoint, o) => (endpoint, operation (c_bindings m) o)) <$> os)
     end)
    (events m).

Definition declared (component_bindings : option (list string)) (o : Operation) : Operation :=
  let o := mkOperation (type o) (scope o) (query o) (once o) (stateful o) (stream o)
    (match bindings o with None => component_bindings | b => b end)
    (description o) (input o) (output o) (errors o) (more o) in
  if bool_decide (scope o = Some "none") then
    with_scope (scope o) (match query o with None => Some false | q => q end) o
  else o.

Definition restore (c : Contract) : Contract :=
  mkContract (version c) (c_bindings c) (match entity c with Some e => Some (unpack e) | None => None end)
    (match operations c with
     | None => None
     | Some os => Some ((fun '(endpoint, o) => (endpoint, declared (c_bindings c) o)) <$> os)
     end)
    (events c).

(** ** What a call is held to *)

(** the schema of a query, before an operation's own is made of it *)
Definition query_properties : list (string * value) :=
  [("id", object [("type", text "string")]);
   ("ids", object [("type", text "array"); ("uniqueItems", VBool true); ("minItems", VNumber 1);
                   ("items", object [("type", text "string")])]);
   ("version", object [("type", text "integer"); ("minimum", VNumber 0)]);
   ("criteria", object [("type", text "string")]);
   ("search", object [("type", text "string")]);
   ("sample", object [("type", text "number")]);
   ("omit", object [("type", text "integer"); ("minimum", VNumber 0)]);
   ("limit", object [("type", text "integer"); ("minimum", VNumber 1)]);
   ("sort", object [("type", text "array"); ("uniqueItems", VBool true); ("minItems", VNumber 1);
      ("items", object [("type", text "string");
         ("pattern", text "^\w{1,32}(?:\.\w{1,32}){0,7}(?::(?:asc|desc))?$")])]);
   ("projection", object [("type", text "array"); ("uniqueItems", VBool true); ("minItems", VNumber 1);
      ("items", object [("type", text "string"); ("not", object [("const", text "id")])])]);
   ("deleted", object [("type", text "boolean")]);
   ("token", object [("type", text "string"); ("minLength", VNumber 1)]);
   ("stop", object [("type", text "boolean")])].

Definition UNMOVING : string := "^(?:id|CREATED)(?::(?:asc|desc))?$".

Definition names (ns : list string) : value := VArray (text <$> ns).

(** the query of an operation, by its type, its scope and the id of the entity *)
Definition query_schema (type scope : option string) (id : option value) : value :=
  let properties := assign "id" (default VUndefined id) query_properties in
  let properties := if bool_decide (type = Some "observation") then without "version" properties
                    else without "projection" properties in
  let schema more properties :=
    VObject ([("type", text "object"); ("properties", VObject properties); ("additionalProperties", VBool false)] ++ more) in
  if bool_decide (scope = Some "stream") then
    schema [("if", object [("anyOf", VArray [object [("required", names ["limit"])]; object [("required", names ["token"])]])]);
            ("then", object [("properties", object [("sort", object [("items", object [("pattern", text UNMOVING)])])])])]
      (without "omit" properties)
  else
    let properties := without "stop" (without "token" properties) in
    if bool_decide (scope <> Some "entries") then schema [] (without "limit" (without "omit" properties))
    else
      schema [("anyOf", VArray [object [("required", names ["limit"])]; object [("required", names ["ids"])]]);
              ("dependentRequired", object [("omit", names ["sort"])])] properties.

(** the input of an operation that takes a stream *)
Definition streamed (input : value) (property : string) : value :=
  let fields := fields_of input in
  let properties := assign property (VObject [])
    (match own fields "properties" with Some v => fields_of v | None => [] end) in
  let required := match own fields "required" with
    | Some (VArray vs) => VArray (vs ++ [text property])
    | _ => VArray [text property]
    end in
  VObject (assign "required" required (assign "properties" (VObject properties) fields)).

(** what becomes of the input in the schema, and whether a call has to have one *)
Definition input_schema (o : Operation) : value * bool :=
  match stream o with
  | Some property =>
      (streamed (match input o with None | Some VNull => object [("type", text "object")] | Some i => i end) property, true)
  | None => match input o with Some i => (i, true) | None => (object [("type", text "null")], false) end
  end.

(** [Request.schema], which says of the definition too that it is not queried where there is no entity *)
Definition request_schema (o : Operation) (e : option Entity) : value :=
  let query := match e with None => Some false | Some _ => query o end in
  let '(input, must) := input_schema o in
  let properties :=
    [("id", object [("type", text "string")]); ("authentic", object [("type", text "boolean")]);
     ("task", object [("type", text "boolean")]); ("readonly", object [("type", text "boolean")]);
     ("output", object [("type", text "array"); ("uniqueItems", VBool true); ("items", object [("type", text "string")])]);
     ("input", input)] in
  let properties := properties ++ [("query",
    if bool_decide (query = Some false) then object [("type", text "null")]
    else query_schema (type o) (scope o) (match e with Some e => own (Contracts.properties e) "id" | None => None end))] in
  let required := (if must : bool then ["input"] else []) ++ (if bool_decide (query = Some true) then ["query"] else []) in
  VObject ([("type", text "object"); ("properties", VObject properties); ("additionalProperties", VBool true)] ++
    match required with [] => [] | _ => [("required", names required)] end).

(** ** What an operation answers when asked to explain *)

Record Explanation := mkExplanation {
  x_description : option string;
  x_once : option bool;
  x_stateful : option bool;
  x_stream : option string;
  x_input : option value;
  x_output : option value;
  x_errors : option (list string)
}.

Definition ENTITY : list string := ["transition"; "observation"; "assignment"].

Definition empty (schema : option value) : bool :=
  match schema with None | Some VUndefined | Some VNull => true | Some v => bool_decide (keys_of v = 0%nat) end.

(** what an operation of its type answers, where it did not say *)
Definition answers (o : Operation) (e : option Entity) : option value :=
  match e with
  | None => None
  | Some e =>
      if negb (bool_decide (default "" (type o) ∈ ENTITY)) then None
      else
        let shape := VObject ([("type", text "object"); ("properties", VObject (properties e))] ++
          match required e with None => [] | Some r => [("required", names r)] end) in
        if bool_decide (scope o = Some "entries") then Some (object [("type", text "array"); ("items", shape)])
        else if bool_decide (scope o = Some "entry" \/ scope o = Some "changeset") then Some shape
        else None
  end.

(** the discovery of [Request] *)
Definition discovery (o : Operation) (e : option Entity) : Explanation :=
  mkExplanation (description o)
    (match once o with None => None | Some v => Some (negb (bool_decide (v = VBool false))) end)
    (stateful o) (stream o) (input o)
    (if empty (output o) then match answers o e with Some a => Some a | None => output o end else output o)
    (errors o).

(** ** What a reply is held to *)

Definition relaxed (output : value) : value :=
  match output with
  | VObject fields =>
      if bool_decide (own fields "type" = Some (text "object")) then VObject (assign "additionalProperties" (VBool true) fields)
      else
        match own fields "type", own fields "items" with
        | Some (VString "array"), Some (VObject items) =>
            if bool_decide (own items "type" = Some (text "object")) then
              VObject (assign "items" (VObject (assign "additionalProperties" (VBool true) items)) fields)
            else output
        | _, _ => output
        end
  | _ => output
  end.

Definition reply_schema (output : option value) (errors : option (list string)) : value :=
  let properties := match output with None => [] | Some o => [("output", relaxed o)] end ++
    [("error", match errors with
               | None => VBool false
               | Some codes =>
                   object [("type", text "object");
                           ("properties", object [("code", object [("enum", names codes)]); ("cause", VObject [])]);
                           ("required", names ["code"]); ("additionalProperties", VBool false)]
               end)] in
  object [("type", text "object"); ("properties", VObject properties); ("additionalProperties", VBool false)].

(** ** Lemmas *)

Lemma same_eq v w : written v = v -> written w = w -> v <> VUndefined -> same (Some v) (Some w) = true -> v = w.
Proof. unfold same. cbn. intros Hv Hw _ Hs%bool_decide_eq_true. congruence. Qed.

(** an entity as a manifest holds it: named once, of nothing undefined, with an id *)
Record plain (e : Entity) : Prop := {
  plain_names : NoDup (fst <$> properties e);
  plain_written name v : own (properties e) name = Some v -> written v = v;
  plain_id : is_Some (own (properties e) "id");
  plain_system : system e = None
}.

(** the same properties and the same required of them, in whatever order *)
Definition same_entity (e e' : Entity) : Prop :=
  (forall name, own (properties e) name = own (properties e') name) /\
  (forall name, name ∈ default [] (required e) <-> name ∈ default [] (required e')).

#[export] Instance same_entity_equivalence : Equivalence same_entity.
Proof.
  split.
  - intros e. done.
  - intros e e' [H1 H2]. by split; [intros; symmetry | intros; symmetry].
  - intros e e' e'' [H1 H2] [K1 K2]. split; [intros; congruence | intros; by rewrite H2].
Qed.

Lemma given_system e name v :
  plain e -> given e = true -> own SYSTEM name = Some v -> own (properties e) name = Some v.
Proof.
  intros Hp [Hs _]%andb_true_iff Hv. rewrite forallb_forall in Hs. specialize (Hs (name, v)).
  assert (same (own (properties e) name) (Some v) = true) as H.
  { apply Hs. apply list_elem_of_In, own_Some, Hv. }
  unfold same in H. apply bool_decide_eq_true in H. cbn in H.
  assert (written v = v /\ v <> VUndefined) as [Hw Hu].
  { apply own_Some in Hv. unfold SYSTEM in Hv. repeat (apply elem_of_cons in Hv as [[= -> ->]|Hv]; [done|]). by apply elem_of_nil in Hv. }
  destruct (own (properties e) name) as [w|] eqn:Hw'; cbn in H; [|congruence].
  rewrite (plain_written _ Hp name w Hw') in H. congruence.
Qed.

Lemma system_names : NoDup (fst <$> SYSTEM).
Proof. apply (bool_decide_eq_true_1 _). vm_compute. reflexivity. Qed.

Lemma unpack_pack e : plain e -> same_entity (unpack (pack e)) e.
Proof.
  intros Hp. unfold pack. destruct (given e) eqn:Hg; cbn [negb].
  2: { unfold unpack. rewrite (plain_system _ Hp). rewrite bool_decide_eq_false_2 by done. reflexivity. }
  unfold unpack. cbn [system]. rewrite bool_decide_eq_true_2 by done. split; cbn [properties required default].
  - intros name. rewrite own_assign_all_or by apply system_names.
    destruct (own SYSTEM name) as [v|] eqn:Hs; [symmetry; by apply given_system|].
    apply own_None in Hs.
    pose proof (own_filter (fun '(name, property) => ~ (name ∈ fst <$> SYSTEM) /\
      ~ (name = "id" /\ same (Some property) (Some ID) = true)) (properties e)) as Hf. cbn beta in Hf.
    rewrite Hf by apply (plain_names _ Hp). destruct (plain_id _ Hp) as [id Hid]. rewrite Hid.
    case_decide as Hd.
    + rewrite Hf by apply (plain_names _ Hp). destruct (own (properties e) name) as [w|] eqn:Hw; [|done].
      rewrite decide_True; [done|]. split; [done|]. intros [-> Hsame]. rewrite Hid in Hw. injection Hw as ->.
      by apply Hd.
    + rewrite own_assign. destruct (decide ("id" = name)) as [<-|Hne].
      * rewrite Hid. f_equal. destruct (decide (same (Some id) (Some ID) = true)) as [Hsame|Hsame].
        -- unfold same in Hsame. apply bool_decide_eq_true in Hsame. cbn in Hsame.
           rewrite (plain_written _ Hp _ _ Hid) in Hsame. by rewrite Hsame.
        -- exfalso. apply Hd. split; [done|]. by intros [_ ?].
      * rewrite Hf by apply (plain_names _ Hp). destruct (own (properties e) name) as [w|] eqn:Hw; [|done].
        rewrite decide_True; [done|]. split; [done|]. intros [-> _]. done.
  - intros name. apply andb_true_iff in Hg as [_ Hreq]. rewrite forallb_forall in Hreq. cbn [from_option]. unfold Datatypes.id at 1.
    set (kept := filter (fun name => name ∉ REQUIRED) (default [] (required e))).
    assert (default [] (match kept with [] => None | _ => Some kept end) = kept) as -> by (by destruct kept).
    unfold kept. rewrite elem_of_app, list_elem_of_filter. split.
    + intros [[_ ?]|Hn]; [done|]. apply list_elem_of_In in Hn. apply Hreq in Hn. by apply bool_decide_eq_true in Hn.
    + intros Hn. destruct (decide (name ∈ REQUIRED)); [by right | by left].
Qed.

Lemma normalized_query b d : scope (normalized b d) = Some "none" -> query (normalized b d) = Some false.
Proof.
  unfold normalized. destruct d as [[t s q on st str bs de i out er mo] nb vi]. cbn.
  repeat (case_bool_decide; cbn in *; try done); try congruence.
Qed.

Lemma normalized_bindings b d : bindings (normalized b d) = None -> b = None.
Proof. unfold normalized. cbn. destruct (no_bindings d); [done|]. destruct d as [[] ? ?]. cbn. repeat case_bool_decide; cbn; by destruct bindings0. Qed.

Lemma normalized_output b d : exists schema, output (normalized b d) = Some schema /\ schema <> VNull /\ schema <> VUndefined.
Proof.
  unfold normalized. cbn. eexists. split; [reflexivity|]. by destruct (output _) as [[]|].
Qed.

(** an operation as a reader of the map has it: as it was declared, less what it says of serving a call
    and less an output that says nothing *)
Definition stated (o : Operation) : Operation :=
  mkOperation (type o) (scope o) (query o) (once o) (stateful o) (stream o) (bindings o) (description o) (input o)
    (match output o with Some schema => if describes schema then Some schema else None | None => None end) (errors o) [].

Lemma declared_operation b d : declared b (operation b (normalized b d)) = stated (normalized b d).
Proof.
  pose proof (normalized_query b d) as Hq. pose proof (normalized_bindings b d) as Hb.
  destruct (normalized b d) as [t s q on st str bs de i out er mo]. cbn in Hq, Hb. unfold declared, operation, stated, with_scope. cbn.
  assert ((match (if bool_decide (bs = b) then None else bs) with None => b | Some _ as b0 => b0 end) = bs) as ->.
  { case_bool_decide; [done|]. destruct bs; [done|]. by rewrite Hb. }
  case_bool_decide as Hs; [|by rewrite bool_decide_eq_false_2 by naive_solver].
  rewrite (Hq Hs), Hs. by rewrite bool_decide_eq_true_2.
Qed.

Lemma describes_empty schema : schema <> VNull -> schema <> VUndefined -> describes schema = negb (empty (Some schema)).
Proof. by destruct schema. Qed.

(** what two callers are told of an output: the same, nothing by both, or what the operation answers of
    the one entity in two orders *)
Definition told_alike (o : Operation) (x y : option value) : Prop :=
  x = y \/ empty x = true /\ empty y = true \/
  exists e e', same_entity e e' /\ x = answers o (Some e) /\ y = answers o (Some e').

Record alike (o : Operation) (x y : Explanation) : Prop := {
  alike_description : x_description x = x_description y;
  alike_once : x_once x = x_once y;
  alike_stateful : x_stateful x = x_stateful y;
  alike_stream : x_stream x = x_stream y;
  alike_input : x_input x = x_input y;
  alike_output : told_alike o (x_output x) (x_output y);
  alike_errors : x_errors x = x_errors y
}.

Lemma answers_stated o e : answers (stated o) e = answers o e.
Proof. done. Qed.

(** one entity, read of the map and of the manifest *)
Definition one_entity (e e' : option Entity) : Prop :=
  match e, e' with
  | None, None => True
  | Some e, Some e' => same_entity e e'
  | _, _ => False
  end.

Lemma stated_request o e e' : one_entity e e' -> request_schema (stated o) e = request_schema o e'.
Proof. unfold request_schema, stated, input_schema. cbn. destruct e, e'; try done. intros [Hp _]. by rewrite Hp. Qed.

Lemma answers_alike o e e' :
  one_entity e e' -> is_Some (answers o e) <-> is_Some (answers o e').
Proof.
  unfold answers. destruct e, e'; try done. intros _. destruct (negb _); [done|]. repeat case_bool_decide; by split.
Qed.

Lemma answers_told o e e' :
  one_entity e e' -> told_alike o (answers o e) (answers o e').
Proof.
  destruct e as [e|], e' as [e'|]; try done; [|by left]. intros H. right. right. by exists e, e'.
Qed.

Lemma stated_alike o e e' :
  (exists schema, output o = Some schema /\ schema <> VNull /\ schema <> VUndefined) ->
  one_entity e e' -> alike o (discovery (stated o) e) (discovery o e').
Proof.
  intros (schema & Ho & Hn & Hu) He. split; try done. unfold discovery. cbn [x_output]. rewrite answers_stated.
  unfold stated. cbn [output]. rewrite Ho, (describes_empty schema Hn Hu).
  destruct (empty (Some schema)) eqn:Hempty; cbn [negb]; [|rewrite Hempty; by left].
  change (empty None) with true. cbn match.
  pose proof (answers_alike o e e' He) as Ha. pose proof (answers_told o e e' He) as Ht.
  destruct (answers o e) as [x|], (answers o e') as [y|]; [exact Ht | | | right; by left].
  - destruct Ha as [Ha _]. by destruct Ha.
  - destruct Ha as [_ Ha]. by destruct Ha.
Qed.

(** ** Properties *)

(** A caller that has only the map is held to what the component declared, and is told it: what a
    contract leaves out of a normalised manifest - the system properties, bindings, empty outputs, the
    query of an operation with no scope - is put back whole, so that a call is validated against the
    very schema the component makes of its own manifest, goes out by the same bindings, and an
    explanation says the same, the entity's properties in whatever order. *)
Theorem restored_as_declared m ds endpoint d :
  operations m = Some (normalize (c_bindings m) ds) ->
  own (normalize (c_bindings m) ds) endpoint = Some (normalized (c_bindings m) d) ->
  (forall e, entity m = Some e -> plain e) ->
  let c := restore (component m) in
  one_entity (entity c) (entity m) /\
  exists o, (operations c ≫= fun os => own os endpoint) = Some o /\
    bindings o = bindings (normalized (c_bindings m) d) /\
    request_schema o (entity c) = request_schema (normalized (c_bindings m) d) (entity m) /\
    alike (normalized (c_bindings m) d) (discovery o (entity c)) (discovery (normalized (c_bindings m) d) (entity m)).
Proof.
  intros Hos Hown Hplain c.
  assert (one_entity (entity c) (entity m)) as He.
  { subst c. cbn. destruct (entity m) as [e|] eqn:Hm; cbn; [|done].
    assert (mkEntity (properties e) (required e) None = e) as ->.
    { pose proof (plain_system e (Hplain e eq_refl)) as Hs. destruct e. cbn in *. by rewrite Hs. }
    by apply unpack_pack, Hplain. }
  split; [exact He|]. exists (stated (normalized (c_bindings m) d)). split_and!.
  - subst c. cbn [restore component operations]. rewrite Hos. cbn [mbind option_bind].
    rewrite own_map, own_map, Hown. cbn. f_equal. apply declared_operation.
  - done.
  - by apply stated_request.
  - apply stated_alike; [|exact He]. destruct (normalized_output (c_bindings m) d) as (schema & ? & ? & ?). by exists schema.
Qed.

(** ** Pots *)

Module Pots.
Definition entity_ : Entity :=
  mkEntity (assign_all [("id", ID); ("title", object [("type", text "string")])] SYSTEM) (Some ("title" :: REQUIRED)) None.
Definition find_ : declaration :=
  mkDeclaration (mkOperation (Some "observation") (Some "entry") None None None None None None None None None []) false false.
Definition boil : declaration :=
  mkDeclaration (mkOperation (Some "computation") None None None None None None None (Some (VNull)) (Some VNull) None
    [("concurrency", text "none")]) false false.
Definition declared_ : list (string * declaration) := [("find", find_); ("boil", boil)].
Definition manifest : Contract :=
  mkContract (Some "1") (Some ["amqp"]) (Some entity_) (Some (normalize (Some ["amqp"]) declared_)) None.

Lemma entity_plain : plain entity_.
Proof.
  split; [apply (bool_decide_eq_true_1 _); vm_compute; reflexivity | | by eexists | done].
  intros name v H%own_Some. unfold entity_ in H. cbn in H.
  repeat (apply elem_of_cons in H as [[= -> ->]|H]; [reflexivity|]). by apply elem_of_nil in H.
Qed.

(** half of the entity is not in the map, and nothing of the query of what only computes *)
Example packed :
  fst <$> default [] (properties <$> entity (component manifest)) = ["title"] /\
  (operations (component manifest) ≫= fun os => own os "boil") =
    Some (mkOperation (Some "computation") (Some "none") None None None None None None None None None []).
Proof. split; vm_compute; reflexivity. Qed.

Lemma restored_as_declared_witness :
  let c := restore (component manifest) in
  exists o, (operations c ≫= fun os => own os "boil") = Some o /\
    request_schema o (entity c) = request_schema (normalized (Some ["amqp"]) boil) (Some entity_).
Proof.
  destruct (restored_as_declared manifest declared_ "boil" boil eq_refl eq_refl) as (_ & o & Ho & _ & Hr & _).
  - intros e [= <-]. exact entity_plain.
  - exists o. exact (conj Ho Hr).
Defined.
End Pots.
