(* ===== verification/Schedules.v ===== *)
(** * Schedules

    [extensions/cadence/source/Aspect.ts] and [Scheduler.ts] - what [context.delay] and
    [context.schedule] hand over - with the operations of [cadence.metronome] that keep it, the
    expression of a schedule ([definitions/source/extensions.cadence/schedule.ts]), and which entries a
    component makes in its region ([Factory.ts]). [store] is what the metronome keeps: rows of [Cadence]
    by their ids, those that were cancelled or have ended among them. *)
From stdpp Require Import sorting.
From S2P Require Import Prelude Identity Exceptions Calls Cadence.

Open Scope Z_scope.

Definition refusal {A} (m : string) : result thrown A := Throw (RequestContractException m).

(** ** The moments of a schedule *)

Definition white (c : ascii) : bool :=
  let n := Z.of_nat (nat_of_ascii c) in (n =? 32) || ((9 <=? n) && (n <=? 13)).

(** how many words there are, [inside] one or between two *)
Fixpoint words (inside : bool) (s : list ascii) : nat :=
  match s with
  | [] => 0
  | c :: s => if white c then words false s else if inside then words true s else S (words true s)
  end.

Section occurrences.
(** the parser of expressions, which reads a zone when it is asked for a moment *)
Context (cron : string -> string -> result string (Z -> result string (option Z))).

(** what comes first after a moment; checked at one *)
Definition occurrences (now : Z) (expression zone : string) : result string (Z -> result string (option Z)) :=
  let fields := words false (chars expression) in
  if bool_decide (fields <> 5%nat /\ fields <> 6%nat) then
    Throw (quoted expression +:+ " is not a cron expression of five or six fields")
  else
    next ← cron expression zone;
    first ← next now;
    match first with
    | None => Throw (quoted expression +:+ " never comes due")
    | Some _ => Ok next
    end.
End occurrences.

(** ** What is handed over *)

Record Recurrence := mkRecurrence {
  r_schedule : string;
  r_zone : string;
  r_overdue : option Z;
  r_expires : option Z
}.

(** a member that is there and not undefined *)
Definition present (fields : list (string * value)) (name : string) : option value :=
  match own fields name with Some VUndefined | None => None | Some v => Some v end.

Definition recurrence (stated : value) : result thrown Recurrence :=
  let declared := match stated with VString s => [("schedule", VString s)] | VObject fields => fields | _ => [] end in
  match present declared "schedule" with
  | Some (VString schedule) =>
      zone ← (match present declared "zone" with
              | None => Ok "UTC"
              | Some (VString zone) => Ok zone
              | Some _ => refusal "A schedule names its `zone` by a string"
              end);
      overdue ← (match present declared "overdue" with
                 | None => Ok None
                 | Some (VNumber n) => if 0 <=? n then Ok (Some n)
                     else refusal "The `overdue` of a schedule is a whole number of milliseconds"
                 | Some _ => refusal "The `overdue` of a schedule is a whole number of milliseconds"
                 end);
      expires ← (match present declared "expires" with
                 | None => Ok None
                 | Some (VNumber n) => Ok (Some n)
                 | Some _ => refusal "The `expires` of a schedule is milliseconds since the epoch"
                 end);
      Ok (mkRecurrence schedule zone overdue expires)
  | _ => refusal "A schedule is a cron expression, or an object stating one as `schedule`"
  end.

(** the keys of every object in order *)
Fixpoint ordered (v : value) : value :=
  match v with
  | VArray vs => VArray (map ordered vs)
  | VObject fields => VObject (merge_sort named_before (map (fun '(k, v) => (k, ordered v)) fields))
  | _ => v
  end.

(** a component that declares no namespace is named by its name, and called by its id *)
Definition addressed (endpoint : string) : string :=
  if bool_decide (length (split "."%char endpoint) = 2%nat) then "default." +:+ endpoint else endpoint.

(** a call that names no process, and no occurrence of its own *)
Definition schedulable (request : option (list (string * value))) : result thrown unit :=
  match request with
  | None => Ok tt
  | Some fields =>
      if bool_decide (is_Some (own fields "instance")) then refusal "A scheduled call names no `instance`"
      else
        match present fields "input" with
        | None | Some VNull => Ok tt
        | Some (VObject input) =>
            if bool_decide (is_Some (own input "at")) then
              refusal "The input of a scheduled call states no `at`: that is the occurrence it is made for"
            else Ok tt
        | Some _ => refusal "The input of a scheduled call is an object, to which its occurrence is added as `at`"
        end
  end.

(** ** The metronome *)

Notation store := (gmap string stored) (only parsing).

Definition live (r : stored) : bool := bool_decide (DELETED r = None).

(** [observe], by an id and with the tombstones *)
Definition observe (id : string) (s : store) : option stored := s !! id.

(** [ensure], by an id: one that is there is the answer, and a tombstone holds its id *)
Definition ensure (r : stored) (s : store) : result thrown unit * store :=
  match s !! id r with
  | None => (Ok tt, <[id r := r]> s)
  | Some found => if live found then (Ok tt, s) else (Throw (derive Duplicate None), s)
  end.

(** [resume]: committed with its [DELETED] untouched, a tombstone is revived *)
Definition resumed (due lane : Z) (r : stored) : stored :=
  mkStored (id r) lane due (expires r) (endpoint r) (request r) (trail r) (schedule r) (overdue r) None.

Definition resume (id : string) (due lane : Z) (s : store) : result thrown unit * store :=
  match s !! id with
  | None => (Throw (derive StateNotFound None), s)
  | Some r => (Ok tt, <[id := resumed due lane r]> s)
  end.

(** [terminate], which both aspects cancel by *)
Definition cancel (now : Z) (id : string) (s : store) : result thrown unit * store :=
  match s !! id with
  | None => (Throw (derive StateNotFound None), s)
  | Some r => (Ok tt, <[id := tombstone r now]> s)
  end.

(** [delay] of the metronome, of a new row *)
Definition put_off (now drawn : Z) (fresh endpoint : string) (interval : Z) (overdue : option Z)
    (request : option value) (trail : option (list string)) (s : store) : string * store :=
  (fresh, <[fresh := row drawn fresh endpoint (now + interval) overdue request trail]> s).

(** ** The aspects *)

Record Options := mkOptions { interval : Z; o_overdue : option Z; o_unchained : option bool }.

(** [Aspect.delay]: [hops] is the chain of the invocation it is called from *)
Definition delay (now drawn : Z) (fresh : string) (hops : option (list string)) (endpoint : string)
    (request : option (list (string * value))) (options : Options) (s : store) : result thrown string * store :=
  if bool_decide (is_Some (request ≫= fun fields => own fields "instance")) then
    (refusal "A delayed call names no `instance`", s)
  else
    let trail := if bool_decide (o_unchained options = Some true) then None else hops in
    let '(id, s) := put_off now drawn fresh (addressed endpoint) (interval options) (o_overdue options)
      (VObject <$> request) trail s in
    (Ok id, s).

Section schedule.
Context (sha1 : list Z -> list Z).
(** [JSON.stringify] *)
Context (stringify : value -> string).
Context (cron : string -> string -> result string (Z -> result string (option Z))).

Definition canonical (request : option (list (string * value))) : string :=
  stringify (ordered (match request with None => VNull | Some fields => VObject fields end)).

(** what is scheduled is what the schedule is *)
Definition schedule_parts (endpoint : string) (request : option (list (string * value))) (r : Recurrence) : list part :=
  [Text "cadence"; Text "schedule"; Text endpoint; Text (canonical request); Text (r_schedule r); Text (r_zone r);
   match r_expires r with None => Text "" | Some n => Number n end].

Definition schedule_id (endpoint : string) (request : option (list (string * value))) (r : Recurrence) : string :=
  Identity.derive sha1 (schedule_parts (addressed endpoint) request r).

(** the row to store, where there is nothing to refuse *)
Definition planned (now drawn : Z) (endpoint : string) (request : option (list (string * value))) (stated : value)
    : result thrown stored :=
  r ← recurrence stated;
  _ ← schedulable request;
  due ← (match occurrences cron now (r_schedule r) (r_zone r) with
         | Throw m => refusal m
         | Ok next => match next now with Throw m => Throw (Error m None) | Ok due => Ok due end
         end);
  _ ← refuse_when (match r_expires r with
                   | None => false
                   | Some expires => match due with None => true | Some due => expires <? due end
                   end)
        (RequestContractException ("The schedule " +:+ quoted (r_schedule r) +:+ " expires before its first occurrence"));
  match due with
  (** asked twice of one moment, the expression answers twice alike: this is where it does not *)
  | None => Throw (EntityContractException "due must be integer")
  | Some due =>
      Ok (recurring drawn (schedule_id endpoint request r) (addressed endpoint) due (VObject <$> request)
            (r_schedule r, r_zone r) (r_overdue r) (r_expires r))
  end.

(** [schedule]: [meanwhile] is what others do between the reading and the writing *)
Definition schedule_ (now drawn : Z) (meanwhile : store -> store) (endpoint : string)
    (request : option (list (string * value))) (stated : value) (s : store) : result thrown string * store :=
  match planned now drawn endpoint request stated with
  | Throw e => (Throw e, s)
  | Ok r =>
      let found := observe (id r) s in
      let s := meanwhile s in
      let '(answer, s) :=
        if bool_decide (is_Some (found ≫= DELETED)) then resume (id r) (due r) (lane r) s
        else
          match ensure r s with
          | (Throw e, s) =>
              if bool_decide (code_of e = Some (codes Duplicate)) then resume (id r) (due r) (lane r) s
              else (Throw e, s)
          | answered => answered
          end in
      (_ ← answer; Ok (id r), s)
  end.
End schedule.

(** ** Which entries are made here *)

(** the ranks whose calls this deployment makes: those it is told, or its own *)
Definition regions (declared : option (list Z)) (rank : option Z) : list Z :=
  match declared with None => [default 0 rank] | Some ranks => ranks end.

(** of an entry of a component, the region it names and whether its replicas share it *)
Record entry := mkEntry { e_endpoint : string; e_region : option Z; e_cycle : bool; e_group : bool }.

Definition made_here (ranks : list Z) (declared : list entry) : list entry :=
  filter (fun e => match e_region e with None => true | Some rank => bool_decide (rank ∈ ranks) end = true) declared.

(** whether the component decides anything with its replicas *)
Definition needs_atom (es : list entry) : bool := existsb (fun e => e_cycle e && e_group e) es.

(** one client per component, and per build of it: [None] is one that was taken down *)
Definition local (locals : gmap string (option nat)) (fresh : nat) (id : string) : nat * gmap string (option nat) :=
  match locals !! id with
  | Some (Some made) => (made, locals)
  | _ => (fresh, <[id := Some fresh]> locals)
  end.

(** ** Lemmas *)

Lemma ordered_rearranged v w : rearranged v w -> ordered v = ordered w.
Proof.
  induction 1 as [v|fields fields' Hd Hp|before v w after _ IH|before k v w after _ IH|u v w _ IH1 _ IH2]; cbn [ordered].
  - done.
  - f_equal. set (f := fun '(k, v) => (k, ordered v)). apply sorted_by_names.
    + change (NoDup (f <$> fields).*1). rewrite <- list_fmap_compose.
      erewrite list_fmap_ext; [exact Hd|]. by intros i [x a] _.
    + change (f <$> fields ≡ₚ f <$> fields'). by rewrite Hp.
  - by rewrite !map_app, !map_cons, IH.
  - do 2 f_equal. by rewrite !map_app, !map_cons, IH.
  - congruence.
Qed.

Definition as_value (request : option (list (string * value))) : value :=
  match request with None => VNull | Some fields => VObject fields end.

Lemma canonical_rearranged stringify request request' :
  rearranged (as_value request) (as_value request') -> canonical stringify request = canonical stringify request'.
Proof. unfold canonical. intros H%ordered_rearranged. exact (f_equal stringify H). Qed.

(** rows under their ids *)
Definition keyed (s : store) : Prop := forall k r, s !! k = Some r -> id r = k.

Section schedules.
Context (sha1 : list Z -> list Z) (stringify : value -> string).
Context (cron : string -> string -> result string (Z -> result string (option Z))).

Notation plan := (planned sha1 stringify cron).
Notation hand := (schedule_ sha1 stringify cron).

Lemma planned_Ok now drawn endpoint request stated r :
  plan now drawn endpoint request stated = Ok r ->
  exists rec due, recurrence stated = Ok rec /\ schedulable request = Ok tt /\
    r = recurring drawn (schedule_id sha1 stringify endpoint request rec) (addressed endpoint) due (VObject <$> request)
          (r_schedule rec, r_zone rec) (r_overdue rec) (r_expires rec).
Proof.
  unfold planned. intros (rec & Hrec & H)%bind_Ok. apply then_Ok in H as [Hs H].
  apply bind_Ok in H as (due & _ & H). apply then_Ok in H as [_ H].
  destruct due as [due|]; [|done]. injection H as <-. by exists rec, due.
Qed.

Lemma scheduled_Ok now drawn endpoint request stated s i s' :
  hand now drawn Datatypes.id endpoint request stated s = (Ok i, s') ->
  exists r, plan now drawn endpoint request stated = Ok r /\ i = id r /\
    match s !! i with
    | None => s' = <[i := r]> s
    | Some found => if live found then s' = s else s' = <[i := resumed (due r) (lane r) found]> s
    end.
Proof.
  unfold schedule_. destruct (planned _ _ _ _ _ _ _) as [r|]; [|done]. intros H. exists r. split; [done|].
  unfold observe, resume, ensure, live, Datatypes.id in *. destruct (s !! id r) as [found|] eqn:Hf; cbn in H.
  - destruct (DELETED found) as [at_|] eqn:Hd; cbn in H.
    + rewrite ?Hf in H. cbn in H. injection H as <- <-. split; [done|]. by rewrite Hf, Hd.
    + injection H as <- <-. split; [done|]. by rewrite Hf, Hd.
  - injection H as <- <-. split; [done|]. by rewrite Hf.
Qed.

(** a schedule that is kept is answered, and nothing is written *)
Lemma scheduled_again now drawn endpoint request stated s r found :
  plan now drawn endpoint request stated = Ok r -> s !! id r = Some found -> live found = true ->
  hand now drawn Datatypes.id endpoint request stated s = (Ok (id r), s).
Proof.
  unfold schedule_. intros -> Hf Hl. unfold observe, ensure. rewrite Hf. cbn.
  unfold live in *. apply bool_decide_eq_true in Hl. rewrite Hl. cbn. unfold Datatypes.id. rewrite Hf, Hl. done.
Qed.
End schedules.

(** ** Properties *)

Section properties.
Context (sha1 : list Z -> list Z) (stringify : value -> string).
Context (cron : string -> string -> result string (Z -> result string (option Z))).

(** The same schedule handed over twice is one: handed over, it is kept live under the id answered
    and nothing else is touched; handed over again - the same endpoint, whether or not its namespace is
    said, the same request in whatever order it is written, expression, zone and end - it is answered
    with that id and the store is as it was. *)
Theorem handed_over_once now now' drawn drawn' endpoint endpoint' request request' stated stated' rec rec' s s1 i r' :
  keyed s ->
  schedule_ sha1 stringify cron now drawn Datatypes.id endpoint request stated s = (Ok i, s1) ->
  recurrence stated = Ok rec -> recurrence stated' = Ok rec' ->
  r_schedule rec = r_schedule rec' -> r_zone rec = r_zone rec' -> r_expires rec = r_expires rec' ->
  addressed endpoint = addressed endpoint' -> rearranged (as_value request) (as_value request') ->
  planned sha1 stringify cron now' drawn' endpoint' request' stated' = Ok r' ->
  keyed s1 /\ (forall k, k <> i -> s1 !! k = s !! k) /\
  (exists r, s1 !! i = Some r /\ live r = true) /\
  schedule_ sha1 stringify cron now' drawn' Datatypes.id endpoint' request' stated' s1 = (Ok i, s1).
Proof.
  intros Hk H Hrec Hrec' Hs Hz He Ha Hr Hp'. apply scheduled_Ok in H as (r & Hp & -> & H).
  apply planned_Ok in Hp as (rec0 & due0 & Hrec0 & _ & Hrow). rewrite Hrec in Hrec0. injection Hrec0 as <-.
  destruct (planned_Ok _ _ _ _ _ _ _ _ _ Hp') as (rec1 & due1 & Hrec1 & _ & Hrow'). rewrite Hrec' in Hrec1. injection Hrec1 as <-.
  assert (id r' = id r) as Hid.
  { rewrite Hrow, Hrow'. cbn. unfold schedule_id, schedule_parts.
    by rewrite Ha, (canonical_rearranged stringify request request' Hr), Hs, Hz, He. }
  assert (keyed s1 /\ (forall k, k <> id r -> s1 !! k = s !! k) /\ exists r, s1 !! id r' = Some r /\ live r = true) as (Hk1 & Hother & Hlive).
  { rewrite Hid. destruct (s !! id r) as [found|] eqn:Hf; [destruct (live found) eqn:Hl|]; subst s1.
    - split; [done|]. split; [done|]. by exists found.
    - split; [|split; [intros k ?; by rewrite lookup_insert_ne | eexists; by rewrite lookup_insert_eq]].
      intros k x. rewrite lookup_insert_Some. intros [[<- <-]|[_ ?]]; [cbn; by apply Hk | by apply Hk].
    - split; [|split; [intros k ?; by rewrite lookup_insert_ne | eexists; rewrite lookup_insert_eq; by rewrite Hrow]].
      intros k x. rewrite lookup_insert_Some. intros [[<- <-]|[_ ?]]; [done | by apply Hk]. }
  split; [done|]. split; [done|]. destruct Hlive as (x & Hx & Hl). rewrite Hid in Hx. split; [by exists x|].
  rewrite <- Hid in Hx |- *. by apply (scheduled_again sha1 stringify cron now' drawn' endpoint' request' stated' s1 r' x).
Qed.

(** A schedule that is changed by cancelling it and handing the new one over, as the documentation says
    one is changed, is made as late as the old one was: what is revived keeps the bound it had. *)
Theorem overdue_is_kept now now' drawn' endpoint request stated s s1 s2 i r :
  s !! i = Some r -> cancel now i s = (Ok tt, s1) ->
  schedule_ sha1 stringify cron now' drawn' Datatypes.id endpoint request stated s1 = (Ok i, s2) ->
  exists r', s2 !! i = Some r' /\ live r' = true /\ overdue r' = overdue r.
Proof.
  unfold cancel. intros -> [= <-] H. apply scheduled_Ok in H as (r0 & _ & _ & H).
  rewrite lookup_insert_eq in H. cbn in H. rewrite H. eexists. by rewrite lookup_insert_eq.
Qed.
End properties.

(** ** A digest sent every minute *)

Module Digest.
Definition text (v : value) : string := match v with VNull => "null" | _ => "an object" end.
Definition minutes (expression zone : string) : result string (Z -> result string (option Z)) :=
  Ok (fun now => Ok (Some ((now / 60000 + 1) * 60000))).
Definition request (swapped : bool) : option (list (string * value)) :=
  let account := ("account", VNumber 7) in let copy := ("copy", VBool true) in
  Some [("input", VObject (if swapped then [copy; account] else [account; copy]))].
Definition often (overdue : Z) : value := VObject [("schedule", VString "* * * * *"); ("overdue", VNumber overdue)].
Definition handed (now : Z) (endpoint : string) (swapped : bool) (stated : value) (s : store) : result thrown string * store :=
  schedule_ no_hash text minutes now 5 Datatypes.id endpoint (request swapped) stated s.
Definition first_ : result thrown string * store := handed 0 "digest.send" false (VString "* * * * *") ∅.
Definition id_ : string := match fst first_ with Ok i => i | Throw _ => "" end.
Definition plan (now : Z) (endpoint : string) (swapped : bool) (stated : value) : result thrown stored :=
  planned no_hash text minutes now 5 endpoint (request swapped) stated.
Definition planned_ (now : Z) (endpoint : string) (swapped : bool) (stated : value) : stored :=
  match plan now endpoint swapped stated with Ok r => r | Throw _ => row 0 "" "" 0 None None None end.

Lemma handed_over_once_witness : handed 90000 "default.digest.send" true (often 1000) (snd first_) = (Ok id_, snd first_).
Proof.
  apply (handed_over_once no_hash text minutes 0 90000 5 5 "digest.send" "default.digest.send" (request false) (request true)
    (VString "* * * * *") (often 1000) (mkRecurrence "* * * * *" "UTC" None None) (mkRecurrence "* * * * *" "UTC" (Some 1000) None)
    ∅ (snd first_) id_ (planned_ 90000 "default.digest.send" true (often 1000)));
    [intros k r Hr; by rewrite lookup_empty in Hr | | reflexivity | reflexivity | reflexivity | reflexivity | reflexivity
    | vm_compute; reflexivity | | vm_compute; reflexivity].
  - transitivity (fst first_, snd first_); [exact (surjective_pairing first_) | f_equal; vm_compute; reflexivity].
  - apply (rearranged_member [] "input" _ _ []). apply rearranged_order; [apply (bool_decide_eq_true_1 _); vm_compute; reflexivity|].
    apply Permutation_swap.
Defined.

(** cancelled, and handed over again to be made up to a second late: it is made a minute late as before *)
Definition kept : stored := planned_ 0 "digest.send" false (often 60000).
Definition store_ : store := {[id kept := kept]}.
Definition again : result thrown string * store :=
  handed 90000 "digest.send" false (often 1000) (<[id kept := tombstone kept 80000]> store_).

Lemma overdue_is_kept_witness : exists r, snd again !! id kept = Some r /\ live r = true /\ overdue r = Some 60000.
Proof.
  apply (overdue_is_kept no_hash text minutes 80000 90000 5 "digest.send" (request false) (often 1000) store_
    (<[id kept := tombstone kept 80000]> store_) (snd again) (id kept) kept).
  - apply lookup_singleton_eq.
  - unfold cancel, store_. by rewrite lookup_singleton_eq.
  - transitivity (fst again, snd again); [exact (surjective_pairing again) | f_equal; vm_compute; reflexivity].
Defined.
End Digest.
