(* ===== verification/Mappings.v ===== *)
(** * Mappings

    How a request to a resource becomes the request of an operation:
    [extensions/exposition/source/Query.ts] reads the query string against what a route declares,
    [Mapping.ts] puts the variables of the path where they belong, and [Endpoint.ts] adds what the
    headers say: a version, and the identity of a repeated call. Criteria are text here as they are in
    the code; what they select is stated over [criterion], the grammar the documentation gives. *)
From S2P Require Import Prelude Identity Restrictions.

Open Scope Z_scope.

Notation fields := (list (string * value)) (only parsing).
Notation parameters := (list (string * string)) (only parsing).

Inductive thrown := BadRequest (message : string) | RequestEntityTooLarge | UnprocessableEntity | Failure (message : string).

(** ** What a route declares *)

Record Range := mkRange { r_value : option Z; low : Z; high : Z }.

Record Declared := mkDeclared {
  d_id : option string;
  criteria : option string;
  search : option bool;
  sample : option Z;
  sort : option string;
  omit : option Range;
  limit : option Range;
  selectors : option (list string);
  projection : option (list string);
  d_parameters : option (list string);
  deleted : option bool
}.

(** [parseQuery]: a number is a range of that alone *)
Definition expandRange (n : Z) : Range := mkRange (Some n) n n.

Definition counted {A} (o : option A) : nat := match o with Some _ => 1 | None => 0 end.

(** [Object.keys(query).length] *)
Definition keys_of (d : Declared) : nat :=
  (counted (d_id d) + counted (criteria d) + counted (search d) + counted (sample d) + counted (sort d) + counted (omit d) +
   counted (limit d) + counted (selectors d) + counted (projection d) + counted (d_parameters d) + counted (deleted d))%nat.

Definition queryable (d : option Declared) : bool :=
  match d with
  | None => false
  | Some d => negb (bool_decide (keys_of d = 1%nat) && bool_decide (is_Some (d_parameters d)))
  end.

(** ** [Query] *)

Record Query := mkQuery {
  parameterized : bool;
  query : option Declared;
  closed : bool;
  prepend : string;
  queryable_ : bool;
  searchable : bool;
  paged : bool;
  streamed : bool
}.

Definition with_criteria (c : option string) (d : Declared) : Declared :=
  mkDeclared (d_id d) c (search d) (sample d) (sort d) (omit d) (limit d) (selectors d) (projection d) (d_parameters d) (deleted d).

Definition with_ranges (o l : option Range) (d : Declared) : Declared :=
  mkDeclared (d_id d) (criteria d) (search d) (sample d) (sort d) o l (selectors d) (projection d) (d_parameters d) (deleted d).

(** [criteria.endsWith(';') ? criteria.slice(0, -1) : closed] *)
Definition opened (c : string) : string * bool :=
  match reverse (chars c) with
  | ";"%char :: rest => (of_chars (reverse rest), false)
  | _ => (c, true)
  end.

(** what the variables of the path are joined by, and the rest *)
Definition joined (c : string) : string * string :=
  match c with
  | String ","%char rest => (",", rest)
  | String ";"%char rest => (";", rest)
  | _ => (";", c)
  end.

Definition make (d : option Declared) (paged_ streamed_ : bool) : Query :=
  let paged := paged_ && negb streamed_ in
  let parameterized := bool_decide (is_Some (d ≫= d_parameters)) in
  let searchable := bool_decide ((d ≫= search) = Some true) in
  match d with
  | Some d =>
      if queryable (Some d) then
        let d :=
          if paged then
            with_ranges (Some (default (mkRange (Some 0) 0 1000) (omit d))) (Some (default (mkRange (Some 10) 1 100) (limit d))) d
          else d in
        match criteria d with
        | None => mkQuery parameterized (Some d) false ";" true searchable paged streamed_
        | Some c =>
            let '(c, closed) := opened c in
            let '(prepend, c) := joined c in
            mkQuery parameterized (Some (with_criteria (Some c) d)) closed prepend true searchable paged streamed_
        end
      else mkQuery parameterized (Some d) false ";" false searchable paged streamed_
  | None => mkQuery parameterized None false ";" false searchable paged streamed_
  end.

(** a member that is there and not undefined *)
Definition stated (q : fields) (name : string) : option value :=
  match own q name with Some VUndefined | None => None | Some v => Some v end.

Definition not_allowed {A} (name : string) : result thrown A := Throw (BadRequest ("Query " +:+ name +:+ " is not allowed")).

(** [split]: what is the operation's own, and what selects *)
Definition split_ (q : Query) (given : fields) : result thrown (option fields * option fields) :=
  let own_names := default [] (query q ≫= d_parameters) in
  let taken := filter (fun '(k, _) => k ∈ own_names) given in
  let given := filter (fun '(k, _) => k ∉ own_names) given in
  let parameters := match taken with [] => None | _ => Some taken end in
  if negb (queryable_ q) then
    match given with
    | [] => Ok (None, parameters)
    | (k, _) :: _ => Throw (BadRequest ("Query parameter " +:+ quoted k +:+ " is not allowed"))
    end
  else
    match stated given "search" with
    | Some _ => if searchable q then Ok (Some given, parameters) else not_allowed "search"
    | None => Ok (Some given, parameters)
    end.

(** [quote], so that a value carries no grammar *)
Definition quote_chars (s : list ascii) : list ascii :=
  flat_map (fun c => if bool_decide (c = ascii_of_nat 34 \/ c = "\"%char) then ["\"%char; c] else [c]) s.

Definition QUOTE : list ascii := [ascii_of_nat 34].

Definition quote (s : string) : string := of_chars (QUOTE ++ quote_chars (chars s) ++ QUOTE).

(** the groups, each joined to what follows by its operator *)
Fixpoint grouped (groups : list (string * string)) : string :=
  match groups with
  | [] => ""
  | [(c, _)] => "(" +:+ c +:+ ")"
  | (c, operator) :: groups => "(" +:+ c +:+ ")" +:+ operator +:+ grouped groups
  end.

(** the first variable named [id], and the rest *)
Fixpoint take_id (ps : parameters) : option string * parameters :=
  match ps with
  | [] => (None, [])
  | (name, v) :: ps =>
      if decide (name = "id") then (Some v, ps) else let '(i, ps) := take_id ps in (i, (name, v) :: ps)
  end.

(** what the variables of a path select *)
Definition variables (ps : parameters) : string := join ";" ((fun '(name, v) => name +:+ "==" +:+ quote v) <$> ps).

Definition fitCriteria (q : Query) (d : Declared) (given : fields) (ps : parameters) : result thrown (fields * parameters) :=
  let '(i, ps) := take_id ps in
  let given := match i with Some i => assign "id" (VString i) given | None => given end in
  let groups := (match ps with [] => [] | _ => [(variables ps, prepend q)] end) ++
    (match criteria d with None => [] | Some c => [(c, ";")] end) in
  match stated given "criteria" with
  | Some (VString c) =>
      if closed q then Throw (BadRequest "Query criteria is closed")
      else Ok (assign "criteria" (VString (grouped (groups ++ [(c, ";")]))) given, ps)
  | _ => Ok (match groups with [] => given | _ => assign "criteria" (VString (grouped groups)) given end, ps)
  end.

(** [parseInt] of the text of a number, written without an exponent *)
Definition parseInt (v : value) : option Z :=
  match v with
  | VNumber n => Some n
  | VDecimal m e => Some (Z.quot (m * 10 ^ Z.max 0 e) (10 ^ Z.max 0 (- e)))
  | _ => None
  end.

(** [fit]; what is no number is none of the range either, and is written as null *)
Definition ranged (v : value) (r : Range) (name : string) : result thrown value :=
  match parseInt v with
  | None => Ok VNull
  | Some n =>
      if (n <? low r) || (high r <? n) then
        Throw (BadRequest ("Query " +:+ name +:+ " must be between " +:+ show (low r) +:+ " and " +:+ show (high r) +:+ " inclusive"))
      else Ok (VNumber n)
  end.

Definition fitRanges (d : Declared) (q : fields) : result thrown fields :=
  match limit d, omit d with
  | None, _ => Throw (Failure "Query limit must be defined")
  | _, None => Throw (Failure "Query limit range must be defined")
  | Some l, Some o =>
      q ← (match stated q "limit" with
           | Some v => n ← ranged v l "limit"; Ok (assign "limit" n q)
           | None => Ok (assign "limit" (match r_value l with Some n => VNumber n | None => VUndefined end) q)
           end);
      match stated q "omit" with
      | Some v => n ← ranged v o "omit"; Ok (assign "omit" n q)
      | None => Ok q
      end
  end.

Definition fitWindow (d : Declared) (q : fields) : result thrown fields :=
  match stated q "omit" with
  | Some _ => not_allowed "omit"
  | None =>
      match limit d with
      | None => match stated q "limit" with Some _ => not_allowed "limit" | None => Ok q end
      | Some l =>
          match stated q "limit" with
          | Some v => n ← ranged v l "limit"; Ok (assign "limit" n q)
          | None => Ok (assign "limit" (VNumber (default (low l) (r_value l))) q)
          end
      end
  end.

Definition refuseRanges (q : fields) : result thrown unit :=
  match stated q "omit", stated q "limit" with
  | Some _, _ => not_allowed "omit"
  | None, Some _ => not_allowed "limit"
  | None, None => Ok tt
  end.

Definition fitSort (d : Declared) (q : fields) : fields :=
  match stated q "sort", sort d with
  | None, None => q
  | given, declared =>
      let given := match given with Some (VString s) => s | _ => "" end in
      assign "sort" (VArray (VString <$> split ";"%char (default "" declared +:+ given))) q
  end.

(** what only a stream takes: [token] and [stop] *)
Definition refuseStreamed (q : fields) : result thrown unit :=
  match stated q "token", stated q "stop" with
  | Some _, _ => not_allowed "token"
  | None, Some _ => not_allowed "stop"
  | None, None => Ok tt
  end.

(** the ranges of [fit] *)
Definition fitPage (q : Query) (d : Declared) (given : fields) : result thrown fields :=
  if paged q then fitRanges d given
  else if streamed q then fitWindow d given
  else _ ← refuseRanges given; Ok given.

(** the rest of [fit] *)
Definition fitted (d : Declared) (given : fields) : fields :=
  let given := match stated given "stop" with
    | Some v => assign "stop" (VBool (negb (bool_decide (v = VString "false")))) given | None => given end in
  let given := fitSort d given in
  let given := match deleted d with Some b => assign "deleted" (VBool b) given | None => given end in
  match projection d with Some names => assign "projection" (VArray (VString <$> names)) given | None => given end.

Section fit.
(** the schema of a query string, which coerces the numbers of it: what is wrong, or the query as it left it *)
Context (querystring : fields -> result string fields).

Definition fit_selection (q : Query) (d : Declared) (given : fields) (ps : parameters) : result thrown fields :=
  given ← (match querystring given with Throw m => Throw (BadRequest ("Query " +:+ m)) | Ok given => Ok given end);
  '(given, _) ← fitCriteria q d given ps;
  given ← fitPage q d given;
  _ ← (if streamed q then Ok tt else refuseStreamed given);
  Ok (fitted d given).

Definition fit (q : Query) (given : fields) (ps : parameters) : result thrown (option fields * option fields) :=
  '(selects, own) ← split_ q given;
  match selects, query q with
  | Some selects, Some d => selects ← fit_selection q d selects ps; Ok (Some selects, own)
  | _, _ => Ok (None, own)
  end.

(** ** [Mapping] *)

Record Request := mkRequest { input : option value; q_query : option fields }.

(** [Object.assign(input, given)]; what is set on an array by name is none of its items *)
Definition embedded (input : option value) (given : fields) (what : string) : result thrown (option value) :=
  match input with
  | Some (VObject held) => Ok (Some (VObject (assign_all held given)))
  | Some (VArray items) => Ok (Some (VArray items))
  | _ => Throw (Failure ("Input must be an object to embed " +:+ what))
  end.

Definition mapped (q : Query) (body : option value) (given : fields) (ps : parameters) : result thrown Request :=
  '(selects, own) ← fit q given ps;
  if queryable_ q then
    let input := match body, own with None, Some _ => Some (VObject []) | _, _ => body end in
    input ← (match own with None => Ok input | Some own => embedded input own "query parameters" end);
    Ok (mkRequest input selects)
  else
    let input := match body with
      | None => if parameterized q || negb (bool_decide (ps = [])) || bool_decide (is_Some own) then Some (VObject []) else None
      | Some _ => body
      end in
    input ← (match ps with
             | [] => Ok input
             | _ => embedded input ((fun '(name, v) => (name, VString v)) <$> ps) "parameters"
             end);
    input ← (match own with None => Ok input | Some own => embedded input own "query parameters" end);
    Ok (mkRequest input None).
End fit.

(** *** What is said of it *)

Definition keyword (type description : string) : value := VObject [("type", VString type); ("description", VString description)].

Definition bounded (description : string) (r : Range) : value :=
  VObject ([("type", VString "integer"); ("description", VString description); ("minimum", VNumber (low r)); ("maximum", VNumber (high r))]
    ++ match r_value r with None => [] | Some n => [("default", VNumber n)] end).

(** the properties of the input a name is taken of, out of the body *)
Definition taken (introspection : fields) (names : list string) : fields * option fields :=
  foldl (fun '(introspection, taken) name =>
    let '(introspection, schema) := take introspection name in
    (introspection, match schema with None => taken | Some s => Some (assign name s (default [] taken)) end))
    (introspection, None) names.

(** those that are taken of the query string *)
Definition explain (q : Query) (introspection : fields) : fields * option fields :=
  taken introspection (default [] (query q ≫= d_parameters)).

Definition selection (q : Query) : option fields :=
  match query q with
  | Some d =>
      if negb (queryable_ q) then None
      else
        let said (name : string) (o : option value) : fields := match o with Some v => [(name, v)] | None => [] end in
        Some (said "criteria" (if closed q then None
                else Some (keyword "string" "What to match, in RSQL: `state==hot`, `rank=gt=5;name==*tea*`."))
           ++ [("sort", keyword "string" "What to order by: `rank:desc`, or `rank` for ascending.")]
           ++ (if paged q then said "limit" (bounded "How many at once." <$> limit d) ++ said "omit" (bounded "How many to skip." <$> omit d)
               else [])
           ++ (if streamed q then
                 said "limit" (bounded "How many in a window." <$> limit d)
                 ++ [("token", keyword "string" "Where the stream continues from: the token it ended with.")]
                 ++ match limit d with
                    | None => []
                    | Some _ => [("stop", keyword "boolean" "The window is the last one read: its token continues with changes.")]
                    end
               else [])
           ++ (if searchable q then [("search", keyword "string" "What to search the text index for.")] else []))
  | None => None
  end.

(** what a method is told of: the operation's own description is not the method's ([Endpoint.introspect]) *)
Definition introspect (q : Query) (operation : fields) (variables : list string) : fields :=
  let '(operation, of_route) := taken (without "description" operation) variables in
  let '(operation, of_query) := explain q operation in
  let told (name : string) (o : option fields) : fields := match o with Some o => [(name, VObject o)] | None => [] end in
  assign_all (told "route" of_route ++ told "query" of_query ++ told "selection" (selection q)) operation.

(** ** [Endpoint] *)

Definition digit (c : ascii) : bool := let n := Z.of_nat (nat_of_ascii c) in (48 <=? n) && (n <=? 57).

Definition number_of (cs : list ascii) : Z := foldl (fun n c => n * 10 + (Z.of_nat (nat_of_ascii c) - 48)) 0 cs.

(** the version a tag names ([cache/etag.ts]) *)
Definition parse (sent : string) : option Z :=
  let strong := match sent with String "W"%char (String "/"%char rest) => rest | _ => sent end in
  let cs := chars strong in
  if ((length cs <? 3) || (34 <? length cs))%nat then None
  else
    match cs, reverse cs with
    | first :: _, last_ :: _ =>
        if bool_decide (first = ascii_of_nat 34) && bool_decide (last_ = ascii_of_nat 34) then
          let digits := tail (removelast cs) in
          if forallb digit digits then Some (number_of digits) else None
        else None
    | _, _ => None
    end.

(** what of a request an endpoint reads, and of the context its directives left *)
Record Asked := mkAsked {
  a_body : option value;
  a_search : fields;
  a_if_match : option string;
  (** none where it is sent twice *)
  a_key : option string;
  a_identity : option string;
  a_method : string;
  a_pathname : string;
  a_instance : option string;
  a_output : option (list string);
  a_encoder : option string;
  a_reads : bool;
  a_procedural : bool;
  a_readonly : option bool;
  a_exceeded : bool;
  a_answers : option string
}.

(** what an operation is called with *)
Record Sent := mkSent {
  s_input : option value;
  s_query : option fields;
  s_id : option string;
  s_instance : option string;
  s_output : option (list string);
  s_encoded : bool;
  s_readonly : bool
}.

Definition ANONYMOUS : string := "".

(** what the identity of a repeated call is made of *)
Definition key_parts (a : Asked) (key : string) : list part :=
  [Text (default ANONYMOUS (a_identity a)); Text key; Text (a_method a); Text (a_pathname a)].

(** a reply as an endpoint reads it *)
Inductive replied := Value_ (v : value) | Error_ | Bytes_ | Values_.

Record Outgoing := mkOutgoing { o_body : replied; o_type : option string }.

Section endpoint.
Context (sha1 : list Z -> list Z).
Context (querystring : fields -> result string fields).
(** the methods that only read *)
Definition SAFE : list string := ["GET"; "HEAD"].

Definition query_of (q : Query) (a : Asked) : result thrown fields :=
  match a_if_match a with
  | None => Ok (a_search a)
  | Some etag =>
      if queryable_ q then
        match parse etag with
        | None => Throw (BadRequest "Invalid ETag")
        | Some version => Ok (assign "version" (VNumber version) (a_search a))
        end
      else Ok (a_search a)
  end.

(** [call], up to the operation *)
Definition sent (q : Query) (safe : bool) (a : Asked) (ps : parameters) : result thrown Sent :=
  given ← query_of q a;
  r ← mapped querystring q (a_body a) given ps;
  Ok (mkSent (input r) (q_query r)
    (match a_key a with
     | Some key => if bool_decide (key = "") then None else Some (Identity.derive sha1 (key_parts a key))
     | None => None
     end)
    (a_instance a) (a_output a)
    (bool_decide (a_encoder a = Some "application/json") && negb (a_reads a) && negb (a_procedural a))
    (default safe (a_readonly a))).

(** [call], of what it answered *)
Definition answered (a : Asked) (reply : replied) : result thrown Outgoing :=
  if a_exceeded a then Throw RequestEntityTooLarge
  else
    match reply with
    | Error_ => Throw UnprocessableEntity
    | _ =>
        match a_answers a with
        | None => Ok (mkOutgoing reply None)
        | Some type => match reply with Bytes_ => Ok (mkOutgoing reply (Some type)) | _ => Throw UnprocessableEntity end
        end
    end.
End endpoint.

(** ** Criteria, as the documentation writes them *)

(** where in the text of a comparison a reader is: outside of quotes, just after [=] or not; inside of
    them, and just after a backslash; or in the list of [=in=] and [=out=] *)
Inductive place := Bare (equals : bool) | Quoted (by_ : ascii) (listed : bool) | Escaped (by_ : ascii) (listed : bool) | Listed.

Definition is_quote (c : ascii) : bool := bool_decide (c = ascii_of_nat 34 \/ c = ascii_of_nat 39).
Definition is_space (c : ascii) : bool := bool_decide (c ∈ [" "%char; ascii_of_nat 9; ascii_of_nat 10; ascii_of_nat 13]).

(** none where the character is of the grammar around a comparison *)
Definition reading (p : place) (c : ascii) : option place :=
  match p with
  | Bare equals =>
      if is_quote c then Some (Quoted c false)
      else if bool_decide (c = "("%char) then if equals then Some Listed else None
      else if bool_decide (c ∈ [","%char; ";"%char; ")"%char]) || is_space c then None
      else Some (Bare (bool_decide (c = "="%char)))
  | Listed =>
      if is_quote c then Some (Quoted c true)
      else if bool_decide (c = ")"%char) then Some (Bare false)
      else if bool_decide (c ∈ [";"%char; "("%char]) || is_space c then None
      else Some Listed
  | Quoted q listed =>
      if bool_decide (c = "\"%char) then Some (Escaped q listed)
      else if bool_decide (c = q) then Some (if listed then Listed else Bare false)
      else Some (Quoted q listed)
  | Escaped q listed => Some (Quoted q listed)
  end.

Fixpoint walk (p : place) (cs : list ascii) : option place :=
  match cs with
  | [] => Some p
  | c :: cs => match reading p c with None => None | Some p => walk p cs end
  end.

(** a text that is one comparison, whatever stands around it *)
Definition plain (text : string) : bool :=
  match walk (Bare false) (chars text) with Some (Bare _) => true | _ => false end.

(** [;] binds tighter than [,], and parentheses group *)
Inductive criterion :=
| Comparison (text : string)
| Group (c : criterion)
| And (a b : criterion)
| Or (a b : criterion).

Fixpoint print (c : criterion) : string :=
  match c with
  | Comparison text => text
  | Group c => "(" +:+ print c +:+ ")"
  | And a b => print a +:+ ";" +:+ print b
  | Or a b => print a +:+ "," +:+ print b
  end.

(** what is under an [And] is no bare [Or], or the text would read otherwise *)
Fixpoint readable (c : criterion) : Prop :=
  match c with
  | Comparison text => plain text = true
  | Group c => readable c
  | And a b => readable a /\ readable b /\ match a, b with Or _ _, _ | _, Or _ _ => False | _, _ => True end
  | Or a b => readable a /\ readable b
  end.

(** a text and the criterion it reads as *)
Definition reads (text : string) (c : criterion) : Prop := print c = text /\ readable c.

(** and where there may be none *)
Definition read_as (text : option string) (c : option criterion) : Prop :=
  match text, c with
  | None, None => True
  | Some text, Some c => reads text c
  | _, _ => False
  end.

Section selects.
(** whether a record is what a comparison says *)
Context {A : Type} (holds : string -> A -> bool).

Fixpoint selects (c : criterion) (r : A) : bool :=
  match c with
  | Comparison text => holds text r
  | Group c => selects c r
  | And a b => selects a r && selects b r
  | Or a b => selects a r || selects b r
  end.
End selects.

(** ** Lemmas *)

Lemma stated_assign q name v name' :
  v <> VUndefined -> stated (assign name v q) name' = if decide (name = name') then Some v else stated q name'.
Proof. intros Hv. unfold stated. rewrite own_assign. case_decide; [by destruct v | done]. Qed.

(** what variables select is a comparison of each *)
Fixpoint compared (ps : parameters) (first : string * string) : criterion :=
  let one := Comparison (fst first +:+ "==" +:+ quote (snd first)) in
  match ps with
  | [] => one
  | p :: ps => And one (compared ps p)
  end.

(** the name of a variable is of letters and such, and none of the grammar *)
Definition named (name : string) : Prop := Forall (fun c => reading (Bare false) c = Some (Bare false)) (chars name).

Lemma walk_app p cs cs' : walk p (cs ++ cs') = walk p cs ≫= fun p => walk p cs'.
Proof. revert p. induction cs as [|c cs IH]; intros p; cbn [app walk mbind option_bind]; [done|]. by destruct (reading p c). Qed.

Lemma walk_named name rest : named name -> walk (Bare false) (chars name ++ rest) = walk (Bare false) rest.
Proof. unfold named. induction (chars name) as [|c cs IH]; intros H; [done|]. inversion H as [|? ? Hc Hcs]; subst. cbn [app walk]. rewrite Hc. by apply IH. Qed.

Lemma walk_quoted cs rest l :
  walk (Quoted (ascii_of_nat 34) l) (quote_chars cs ++ rest) = walk (Quoted (ascii_of_nat 34) l) rest.
Proof.
  induction cs as [|c cs IH]; [done|]. cbn [quote_chars flat_map]. change (flat_map _ cs) with (quote_chars cs).
  rewrite <- app_assoc. case_bool_decide as Hc; [exact IH|].
  cbn [app walk reading]. rewrite !bool_decide_eq_false_2 by (intros ->; apply Hc; auto). exact IH.
Qed.

(** whatever is quoted is one value *)
Lemma quoted_plain name v : named name -> plain (name +:+ "==" +:+ quote v) = true.
Proof.
  intros Hn. unfold plain, quote. rewrite !chars_app, chars_of_chars, walk_named by done.
  rewrite (walk_app _ (chars "==")). change (walk (Bare false) (chars "==")) with (Some (Bare true)). cbn [mbind option_bind].
  rewrite (walk_app _ QUOTE). change (walk (Bare true) QUOTE) with (Some (Quoted (ascii_of_nat 34) false)). cbn [mbind option_bind].
  by rewrite walk_quoted.
Qed.

Lemma variables_read p ps : Forall named (p :: ps).*1 -> reads (variables (p :: ps)) (compared ps p).
Proof.
  revert p. induction ps as [|p' ps IH]; intros [name v] H; inversion H as [|? ? Hn Hrest]; subst.
  - split; [done|]. by apply quoted_plain.
  - destruct (IH p' Hrest) as [Hp Hr]. split.
    + cbn [compared print fst snd]. rewrite Hp. done.
    + cbn [compared]. split; [by apply quoted_plain|]. split; [exact Hr|]. by destruct ps.
Qed.

Lemma compared_selects {A} (holds : string -> A -> bool) p ps r :
  selects holds (compared ps p) r = true <->
  Forall (fun '(name, v) => holds (name +:+ "==" +:+ quote v) r = true) (p :: ps).
Proof.
  revert p. induction ps as [|p' ps IH]; intros [name v]; cbn [compared selects fst snd].
  - rewrite Forall_singleton. done.
  - rewrite Forall_cons, andb_true_iff, IH. done.
Qed.

(** the criterion of what a route and the path say, [None] where they say nothing *)
Definition based (prepend : string) (ps : parameters) (route : option criterion) : option criterion :=
  match ps, route with
  | [], None => None
  | [], Some c => Some (Group c)
  | p :: ps, None => Some (Group (compared ps p))
  | p :: ps, Some c =>
      Some (if bool_decide (prepend = ",") then Or (Group (compared ps p)) (Group c) else And (Group (compared ps p)) (Group c))
  end.

(** and with what the client says *)
Definition narrowed (prepend : string) (ps : parameters) (route client : option criterion) : option criterion :=
  match client with
  | None => based prepend ps route
  | Some client =>
      Some match ps, route with
      | [], None => Group client
      | [], Some c => And (Group c) (Group client)
      | p :: ps, None => And (Group (compared ps p)) (Group client)
      | p :: ps, Some c =>
          if bool_decide (prepend = ",") then Or (Group (compared ps p)) (And (Group c) (Group client))
          else And (Group (compared ps p)) (And (Group c) (Group client))
      end
  end.

(** a query that was made joins by one of two operators, and by [;] where it declares no criteria *)
Definition made (q : Query) (d : Declared) : Prop :=
  query q = Some d /\ (prepend q = "," \/ prepend q = ";") /\ (criteria d = None -> prepend q = ";").

Lemma make_made d paged_ streamed_ : exists d', made (make (Some d) paged_ streamed_) d'.
Proof.
  unfold make, made. destruct (queryable (Some d)) eqn:Hq; [|exists d; cbn; auto].
  set (d' := if _ && _ then _ else d). destruct (criteria d') as [c|] eqn:Hd; [|exists d'; cbn; auto].
  destruct (opened c) as [c' b]. destruct (joined c') as [p c''] eqn:Hj. exists (with_criteria (Some c'') d'). cbn.
  split_and!; try done. unfold joined in Hj. repeat case_match; injection Hj as <- _; auto.
Qed.

(** the criteria of a request, where it has any *)
Definition text_of (q : fields) : option string :=
  match own q "criteria" with Some (VString c) => Some c | _ => None end.

Definition groups_of (q : Query) (d : Declared) (ps : parameters) (client : option string) : list (string * string) :=
  (match ps with [] => [] | _ => [(variables ps, prepend q)] end) ++
  (match criteria d with None => [] | Some c => [(c, ";")] end) ++
  (match client with None => [] | Some c => [(c, ";")] end).

Lemma fitCriteria_Ok q d g ps g' ps' :
  fitCriteria q d g ps = Ok (g', ps') ->
  ps' = (take_id ps).2 /\ (closed q = true -> text_of g = None) /\
  text_of g' = match groups_of q d ps' (text_of g) with [] => None | groups => Some (grouped groups) end.
Proof.
  unfold fitCriteria, text_of, groups_of. destruct (take_id ps) as [i ps0] eqn:Hi.
  set (g0 := match i with Some i => assign "id" (VString i) g | None => g end).
  assert (own g0 "criteria" = own g "criteria") as Hown by (subst g0; destruct i; [by rewrite own_assign | done]).
  unfold stated. rewrite Hown. cbn [snd]. intros H.
  assert (ps' = ps0) as -> by (repeat (case_match; try done); by injection H).
  split; [done|].
  destruct (own g "criteria") as [[]|]; try (destruct (closed q) eqn:Hq; [done|]);
    injection H as <-; (split; [done|]); rewrite ?app_nil_r, ?app_assoc;
    rewrite ?own_assign, ?decide_True by done; try (by destruct ps0, (criteria d));
    destruct (_ ++ _); rewrite ?own_assign, ?Hown; done.
Qed.

Lemma fit_selection_Ok querystring q d given ps s :
  fit_selection querystring q d given ps = Ok s ->
  exists g g1 ps' g2, querystring given = Ok g /\ fitCriteria q d g ps = Ok (g1, ps') /\ fitPage q d g1 = Ok g2 /\ s = fitted d g2.
Proof.
  unfold fit_selection. intros H.
  apply bind_Ok in H as (g & Hg & H). destruct (querystring given) as [g0|] eqn:Hq; [|done]. injection Hg as ->.
  apply bind_Ok in H as ([g1 ps'] & Hc & H). apply bind_Ok in H as (g2 & Hp & H).
  apply then_Ok in H as [_ H]. injection H as <-. by exists g, g1, ps', g2.
Qed.

Lemma ranged_Ok v r name w : ranged v r name = Ok w -> w = VNull \/ exists n, w = VNumber n /\ low r <= n <= high r.
Proof.
  unfold ranged. destruct (parseInt v) as [n|]; [|intros [= <-]; by left].
  destruct ((n <? low r) || (high r <? n)) eqn:Hb; [done|]. intros [= <-]. right. exists n. split; [done|]. lia.
Qed.

Lemma ranged_number n r name w : ranged (VNumber n) r name = Ok w -> w = VNumber n /\ low r <= n <= high r.
Proof.
  unfold ranged. cbn [parseInt]. destruct ((n <? low r) || (high r <? n)) eqn:Hb; [done|]. intros [= <-]. split; [done|]. lia.
Qed.

Lemma fitPage_own q d g g' name :
  fitPage q d g = Ok g' -> name <> "limit" -> name <> "omit" -> own g' name = own g name.
Proof.
  intros H Hl Ho. unfold fitPage in H. destruct (paged q).
  - unfold fitRanges in H. destruct (limit d) as [l|]; [|done]. destruct (omit d) as [o|]; [|done].
    apply bind_Ok in H as (g1 & H1 & H).
    assert (own g1 name = own g name) as <-.
    { destruct (stated g "limit") as [v|]; [apply bind_Ok in H1 as (w & _ & H1)|]; injection H1 as <-; by rewrite own_assign_ne. }
    destruct (stated g1 "omit") as [v|]; [apply bind_Ok in H as (w & _ & H)|]; injection H as <-; [by rewrite own_assign_ne | done].
  - destruct (streamed q).
    + unfold fitWindow in H. destruct (stated g "omit"); [done|]. destruct (limit d) as [l|].
      * destruct (stated g "limit") as [v|]; [apply bind_Ok in H as (w & _ & H)|]; injection H as <-; by rewrite own_assign_ne.
      * destruct (stated g "limit"); [done|]. by injection H as <-.
    + apply then_Ok in H as [_ H]. by injection H as <-.
Qed.

Lemma fitSort_own d g name : name <> "sort" -> own (fitSort d g) name = own g name.
Proof. intros ?. unfold fitSort. repeat case_match; try done; by rewrite own_assign_ne. Qed.

Lemma fitted_own d g name :
  name ∉ ["stop"; "sort"; "deleted"; "projection"] -> own (fitted d g) name = own g name.
Proof.
  rewrite !not_elem_of_cons. intros (H1 & H2 & H3 & H4 & _). unfold fitted.
  set (a := match stated g "stop" with Some _ => _ | None => g end).
  assert (own a name = own g name) as <- by (subst a; destruct (stated g "stop"); [by rewrite own_assign_ne | done]).
  rewrite <- (fitSort_own d a name) by done. set (b := fitSort d a).
  destruct (projection d), (deleted d); by rewrite ?own_assign_ne.
Qed.

Lemma text_of_own g g' : own g' "criteria" = own g "criteria" -> text_of g' = text_of g.
Proof. unfold text_of. by intros ->. Qed.

(** groups that are read, one by one, are read together *)
Lemma groups_read q d ps route client c :
  made q d -> Forall named ps.*1 -> read_as (criteria d) route -> read_as client c ->
  read_as (match groups_of q d ps client with [] => None | groups => Some (grouped groups) end) (narrowed (prepend q) ps route c).
Proof.
  intros (_ & Hp & Hn) Hps Hr Hc. unfold groups_of, narrowed, based.
  assert (Hv : forall p l, ps = p :: l -> reads (variables ps) (compared l p)) by (intros p l ->; by apply variables_read).
  destruct ps as [|p l]; [clear Hv | specialize (Hv p l eq_refl)];
    destruct (criteria d) as [rt|], route as [r|]; try done;
    destruct client as [ct|], c as [c|]; try done; cbn [app grouped read_as];
    repeat match goal with H : reads _ _ |- _ => destruct H as [<- ?] | H : read_as (Some _) (Some _) |- _ => destruct H as [<- ?] end;
    try rewrite (Hn eq_refl); try (destruct Hp as [-> | ->]); try done;
    rewrite ?bool_decide_eq_true_2, ?bool_decide_eq_false_2 by done;
    (split; [cbn [print]; by rewrite <- ?string_app_assoc | cbn; tauto]).
Qed.

Lemma narrowed_selects {A} (holds : string -> A -> bool) prepend ps route client b w r :
  based prepend ps route = Some b -> narrowed prepend ps route client = Some w ->
  selects holds w r = true -> selects holds b r = true.
Proof.
  unfold narrowed. intros Hb Hw Hs. destruct client as [c|]; [|congruence].
  injection Hw as <-. unfold based in Hb. destruct ps as [|p l], route as [rc|]; try done; injection Hb as <-;
    try case_bool_decide; cbn [selects] in *; rewrite ?orb_true_iff, ?andb_true_iff in *; tauto.
Qed.

(** *** What is handed over is of the types a query has *)

Inductive keyword_type := Text_ | Count | Flag | Texts.

Definition is_text (v : value) : bool := match v with VString _ => true | _ => false end.

Definition of_type (t : keyword_type) (v : value) : Prop :=
  match t, v with
  | Text_, VString _ | Count, VNumber _ | Count, VDecimal _ _ | Flag, VBool _ => True
  | Texts, VArray vs => forallb is_text vs = true
  | _, VUndefined => True
  | _, _ => False
  end.

(** [querystring.cos.yaml], which lets no other member in *)
Definition query_string : list (string * keyword_type) :=
  [("id", Text_); ("criteria", Text_); ("search", Text_); ("sample", Count); ("sort", Text_); ("omit", Count); ("limit", Count);
   ("version", Count); ("token", Text_); ("stop", Text_)].

(** [Query] of the core, which a request carries *)
Definition request_query : list (string * keyword_type) :=
  [("id", Text_); ("ids", Texts); ("criteria", Text_); ("search", Text_); ("sample", Count); ("omit", Count); ("limit", Count);
   ("sort", Texts); ("projection", Texts); ("version", Count); ("deleted", Flag); ("token", Text_); ("stop", Flag)].

Definition typed (types : list (string * keyword_type)) (name : string) (v : value) : Prop :=
  match own types name with Some t => of_type t v | None => False end.

Definition well_typed (P : string -> value -> Prop) (q : fields) : Prop := forall name v, own q name = Some v -> P name v.

(** a member that is not of its type yet, of those given, or is *)
Definition between (late : list string) (name : string) (v : value) : Prop :=
  typed (if decide (name ∈ late) then query_string else request_query) name v.

Lemma query_string_between name v : typed query_string name v -> between ["stop"; "sort"] name v.
Proof.
  unfold between. case_decide as Hl; [done|]. unfold typed, query_string, request_query. cbn [own].
  rewrite !not_elem_of_cons in Hl. destruct Hl as (Hstop & Hsort & _). repeat (case_decide; [by subst|]). done.
Qed.

Lemma texts_all names : forallb is_text (VString <$> names) = true.
Proof. induction names; done. Qed.

Lemma well_typed_assign (P : string -> value -> Prop) q name v : well_typed P q -> P name v -> well_typed P (assign name v q).
Proof. intros Hq Hv n w. rewrite own_assign. case_decide as Hn; [intros [= <-]; by subst | apply Hq]. Qed.

(** a member gets its type *)
Lemma between_assign late name v q :
  well_typed (between (name :: late)) q -> typed request_query name v -> name ∉ late -> well_typed (between late) (assign name v q).
Proof.
  intros Hq Hv Hn n w. rewrite own_assign. unfold between. case_decide as H.
  - intros [= <-]. subst n. by rewrite decide_False.
  - intros Hw. specialize (Hq _ _ Hw). unfold between in Hq. by rewrite (decide_ext _ (n ∈ late)) in Hq by set_solver.
Qed.

(** and what is not there needs none *)
Lemma between_unstated late name q :
  well_typed (between (name :: late)) q -> stated q name = None -> is_Some (own request_query name) -> well_typed (between late) q.
Proof.
  intros Hq Hs [t Ht] n w Hw. specialize (Hq _ _ Hw). unfold between in *. destruct (decide (n = name)) as [->|Hn].
  - unfold stated in Hs. rewrite Hw in Hs. destruct w; try done. rewrite decide_True in Hq by set_solver.
    case_decide; [done|]. unfold typed. rewrite Ht. by destruct t.
  - by rewrite (decide_ext _ (n ∈ late)) in Hq by set_solver.
Qed.

Lemma fitCriteria_typed late q d g ps g' ps' :
  fitCriteria q d g ps = Ok (g', ps') -> "criteria" ∉ late -> "id" ∉ late -> well_typed (between late) g -> well_typed (between late) g'.
Proof.
  unfold fitCriteria. destruct (take_id ps) as [i ps0]. intros H Hc Hi Hg.
  assert (forall c, between late "criteria" (VString c)) as Hcriteria by (intros; unfold between; by case_decide).
  assert (well_typed (between late) (match i with Some i => assign "id" (VString i) g | None => g end)) as Hg0.
  { destruct i; [|done]. apply well_typed_assign; [done|]. unfold between. by case_decide. }
  revert H Hg0. generalize (match i with Some i => assign "id" (VString i) g | None => g end). clear g Hg. intros g H Hg.
  repeat (case_match; try done); injection H as <- <-; try done; by apply well_typed_assign.
Qed.

Lemma ranged_typed v r name w : of_type Count v -> v <> VUndefined -> ranged v r name = Ok w -> exists n, w = VNumber n /\ low r <= n <= high r.
Proof.
  intros Hv Hu Hr. destruct (ranged_Ok _ _ _ _ Hr) as [->|?]; [|done]. exfalso. unfold ranged in Hr.
  destruct v; try done; cbn [parseInt] in Hr; by case_match.
Qed.

(** a number of a range, or the default that is declared *)
Definition within (r : Range) (v : value) : Prop := exists n, v = VNumber n /\ low r <= n <= high r.
Definition chosen (r : Range) (v : value) : Prop := (exists n, v = VNumber n /\ r_value r = Some n) \/ within r v.

Lemma within_count r v : within r v -> of_type Count v.
Proof. by intros (n & -> & _). Qed.

Lemma stated_own q name v : stated q name = Some v -> own q name = Some v /\ v <> VUndefined.
Proof. unfold stated. destruct (own q name) as [[]|]; try done; by intros [= <-]. Qed.

Lemma stated_assign_undefined q name : stated (assign name VUndefined q) name = None.
Proof. unfold stated. by rewrite own_assign, decide_True. Qed.

Lemma stated_assign_eq q name v : v <> VUndefined -> stated (assign name v q) name = Some v.
Proof. intros ?. by rewrite stated_assign, decide_True. Qed.

Lemma stated_same q q' name : own q' name = own q name -> stated q' name = stated q name.
Proof. unfold stated. by intros ->. Qed.

(** counts, as the schema leaves them *)
Definition counts (q : fields) : Prop := forall name v, name ∈ ["limit"; "omit"] -> own q name = Some v -> of_type Count v.

Lemma ranged_counts q r name v w :
  counts q -> name ∈ ["limit"; "omit"] -> stated q name = Some v -> ranged v r name = Ok w -> within r w.
Proof. intros Hq Hn [Ho Hu]%stated_own. apply ranged_typed; [|done]. by eapply Hq. Qed.

Lemma fitRanges_bounds d g g' :
  counts g -> fitRanges d g = Ok g' ->
  exists l o, limit d = Some l /\ omit d = Some o /\
    (stated g' "limit" = None /\ r_value l = None \/ exists v, stated g' "limit" = Some v /\ chosen l v) /\
    (forall v, stated g' "omit" = Some v -> within o v).
Proof.
  unfold fitRanges. intros Hg H. destruct (limit d) as [l|]; [|done]. destruct (omit d) as [o|]; [|done].
  exists l, o. split; [done|]. split; [done|].
  apply bind_Ok in H as (g1 & H1 & H).
  assert (own g1 "omit" = own g "omit") as Ho.
  { destruct (stated g "limit") as [v|]; [apply bind_Ok in H1 as (w & _ & H1)|]; injection H1 as <-; by rewrite own_assign_ne. }
  assert (stated g1 "limit" = None /\ r_value l = None \/ exists v, stated g1 "limit" = Some v /\ chosen l v) as Hl.
  { destruct (stated g "limit") as [v|] eqn:Hv.
    - apply bind_Ok in H1 as (w & Hw & H1). injection H1 as <-. pose proof (ranged_counts g l "limit" v w Hg ltac:(set_solver) Hv Hw) as Hin.
      right. exists w. split; [|by right]. apply stated_assign_eq. by destruct Hin as (n & -> & _).
    - injection H1 as <-. destruct (r_value l) as [n|] eqn:Hn.
      + right. exists (VNumber n). split; [by apply stated_assign_eq|]. left. by exists n.
      + left. split; [apply stated_assign_undefined | done]. }
  destruct (stated g1 "omit") as [v|] eqn:Hv.
  - apply bind_Ok in H as (w & Hw & H). injection H as <-. split.
    + unfold stated in *. by rewrite own_assign_ne.
    + intros u Hu. rewrite (stated_same g g1) in Hv by done.
      pose proof (ranged_counts g o "omit" v w Hg ltac:(set_solver) Hv Hw) as Hin.
      rewrite stated_assign_eq in Hu by (by destruct Hin as (n & -> & _)). by injection Hu as <-.
  - injection H as <-. split; [exact Hl|]. congruence.
Qed.

Lemma fitWindow_bounds d g g' :
  counts g -> fitWindow d g = Ok g' ->
  stated g' "omit" = None /\
  match limit d with
  | None => stated g' "limit" = None
  | Some l => exists v, stated g' "limit" = Some v /\ (v = VNumber (default (low l) (r_value l)) \/ within l v)
  end.
Proof.
  unfold fitWindow. intros Hg H. destruct (stated g "omit") eqn:Ho; [done|]. destruct (limit d) as [l|].
  - destruct (stated g "limit") as [v|] eqn:Hv.
    + apply bind_Ok in H as (w & Hw & H). injection H as <-. pose proof (ranged_counts g l "limit" v w Hg ltac:(set_solver) Hv Hw) as Hin.
      split; [by rewrite (stated_same g) by (by rewrite own_assign_ne)|]. exists w. split; [|by right].
      apply stated_assign_eq. by destruct Hin as (n & -> & _).
    + injection H as <-. split; [by rewrite (stated_same g) by (by rewrite own_assign_ne)|].
      eexists. split; [by apply stated_assign_eq | by left].
  - destruct (stated g "limit") eqn:Hl; [done|]. by injection H as <-.
Qed.

Lemma fitPage_typed late q d g g' :
  fitPage q d g = Ok g' -> "limit" ∉ late -> "omit" ∉ late -> counts g -> well_typed (between late) g -> well_typed (between late) g'.
Proof.
  intros H Hl Ho Hc Hg name v Hv.
  destruct (decide (name = "limit")) as [->|Hnl]; [|destruct (decide (name = "omit")) as [->|Hno]].
  3: { rewrite (fitPage_own _ _ _ _ name H) in Hv by done. by apply Hg. }
  all: unfold between; rewrite decide_False by done; change (of_type Count v);
    destruct (decide (v = VUndefined)) as [->|Hu]; [done|].
  all: unfold fitPage in H; destruct (paged q); [|destruct (streamed q)];
    [ apply fitRanges_bounds in H as (l & o & _ & _ & Hlimit & Homit); [|done]
    | apply fitWindow_bounds in H as [Homit Hlimit]; [|done]
    | apply then_Ok in H as [_ H]; injection H as <-; by eapply Hc; [|exact Hv]; set_solver ].
  - assert (stated g' "limit" = Some v) as Hs by (unfold stated; rewrite Hv; by destruct v).
    destruct Hlimit as [[? _]|(w & Hw & Hch)]; [congruence|]. assert (w = v) as -> by congruence.
    destruct Hch as [(n & -> & _)|?]; [done | by eapply within_count].
  - assert (stated g' "limit" = Some v) as Hs by (unfold stated; rewrite Hv; by destruct v).
    destruct (limit d) as [l|]; [|congruence]. destruct Hlimit as (w & Hw & Hch). assert (w = v) as -> by congruence.
    destruct Hch as [->|?]; [done | by eapply within_count].
  - eapply within_count, Homit. unfold stated. rewrite Hv. by destruct v.
  - unfold stated in Homit. rewrite Hv in Homit. by destruct v.
Qed.

Lemma fitSort_typed late d g : "sort" ∉ late -> well_typed (between ("sort" :: late)) g -> well_typed (between late) (fitSort d g).
Proof.
  intros Hn Hg. unfold fitSort.
  assert (forall names, well_typed (between late) (assign "sort" (VArray (VString <$> names)) g)) as Ha.
  { intros names. apply between_assign; [done | apply texts_all | done]. }
  destruct (stated g "sort") as [v|] eqn:Hs; [apply Ha|]. destruct (sort d); [apply Ha|].
  apply (between_unstated _ "sort"); [done | done | by eexists].
Qed.

Lemma fitted_typed d g : well_typed (between ["stop"; "sort"]) g -> well_typed (between []) (fitted d g).
Proof.
  intros Hg. unfold fitted.
  set (a := match stated g "stop" with Some _ => _ | None => g end).
  assert (well_typed (between ["sort"]) a) as Ha.
  { subst a. destruct (stated g "stop") as [v|] eqn:Hs.
    - apply between_assign; [done | done | set_solver].
    - apply (between_unstated _ "stop"); [done | done | by eexists]. }
  apply fitSort_typed with (d := d) in Ha; [|set_solver]. revert Ha. generalize (fitSort d a). intros b Hb.
  assert (well_typed (between []) (match deleted d with Some x => assign "deleted" (VBool x) b | None => b end)) as Hc.
  { destruct (deleted d); [|done]. by apply well_typed_assign. }
  destruct (projection d); [|done]. apply well_typed_assign; [done|]. apply texts_all.
Qed.

Lemma schema_counts g : well_typed (typed query_string) g -> counts g.
Proof. intros Hg name v Hn Hv. specialize (Hg _ _ Hv). apply elem_of_cons in Hn as [->|Hn]; [done|]. by apply list_elem_of_singleton in Hn as ->. Qed.

Lemma fitCriteria_own q d g ps g' ps' name :
  fitCriteria q d g ps = Ok (g', ps') -> name <> "criteria" -> name <> "id" -> own g' name = own g name.
Proof.
  unfold fitCriteria. destruct (take_id ps) as [i ps0]. intros H Hc Hi.
  assert (own (match i with Some i => assign "id" (VString i) g | None => g end) name = own g name) as <-
    by (destruct i; [by rewrite own_assign_ne | done]).
  revert H. generalize (match i with Some i => assign "id" (VString i) g | None => g end). clear g. intros g H.
  repeat (case_match; try done); injection H as <- <-; try done; by rewrite own_assign_ne.
Qed.

(** ** Properties *)


(** Nothing reads what a client sends on its own: a text that closes the parenthesis it is put in reads
    as a choice, and what it selects is selected whatever an open route declares. *)
Theorem client_escapes {A} (holds : string -> A -> bool) q d g route c1 c2 g' ps' r :
  made q d -> read_as (criteria d) (Some route) -> readable c1 -> readable c2 ->
  text_of g = Some (print c1 +:+ "),(" +:+ print c2) ->
  fitCriteria q d g [] = Ok (g', ps') ->
  exists text c, text_of g' = Some text /\ reads text c /\ (selects holds c2 r = true -> selects holds c r = true).
Proof.
  intros _ Hroute H1 H2 Ht Hf. apply fitCriteria_Ok in Hf as (-> & _ & Hf). rewrite Ht in Hf.
  unfold groups_of in Hf. destruct (criteria d) as [rt|]; [|done]. destruct Hroute as [<- Hroute].
  eexists _, (Or (And (Group route) (Group c1)) (Group c2)). split; [exact Hf|]. split.
  - split; [cbn [print grouped]; rewrite ?string_app_assoc; reflexivity | cbn; tauto].
  - cbn [selects]. intros ->. apply orb_true_r.
Qed.

(** Where the criteria of a route begins with [,], what the variables of a path select is selected
    whatever the client says: its criteria is joined to that of the route alone. *)
Theorem alternative_outlives_client {A} (holds : string -> A -> bool) q d g p ps route c g' ps' r :
  made q d -> prepend q = "," -> Forall named (p :: ps).*1 -> (take_id (p :: ps)).1 = None ->
  read_as (criteria d) (Some route) -> read_as (text_of g) (Some c) ->
  fitCriteria q d g (p :: ps) = Ok (g', ps') ->
  selects holds (compared ps p) r = true ->
  exists text whole, text_of g' = Some text /\ reads text whole /\ selects holds whole r = true.
Proof.
  intros Hq Hp Hps Hid Hroute Hc Hf Hr. apply fitCriteria_Ok in Hf as (-> & _ & Hf).
  assert ((take_id (p :: ps)).2 = p :: ps) as Hall.
  { clear -Hid. revert Hid. generalize (p :: ps). intros l. induction l as [|[n v] l IH]; [done|]. cbn [take_id].
    case_decide; [done|]. destruct (take_id l) as [i l']. cbn [fst snd] in *. intros Hi. by rewrite IH. }
  rewrite Hall in Hf. pose proof (groups_read q d (p :: ps) (Some route) (text_of g) (Some c) Hq Hps Hroute Hc) as Hread.
  rewrite <- Hf in Hread. destruct (text_of g') as [text|]; [|done].
  eexists text, _. split; [done|]. split; [exact Hread|]. rewrite Hp. cbn [narrowed].
  rewrite bool_decide_eq_true_2 by done. cbn [selects]. by rewrite Hr.
Qed.


(** A page is never taken past what a route declares: where a request is answered a page or a window,
    the [limit] and the [omit] handed over are numbers of the ranges of the route, or its default; and
    none is handed over where a single object or a whole collection is answered. *)
Theorem page_bounded querystring q d given g ps s :
  querystring given = Ok g -> well_typed (typed query_string) g ->
  fit_selection querystring q d given ps = Ok s ->
  if paged q then
    exists l o, limit d = Some l /\ omit d = Some o /\
      (stated s "limit" = None /\ r_value l = None \/ exists v, stated s "limit" = Some v /\ chosen l v) /\
      (forall v, stated s "omit" = Some v -> within o v)
  else
    stated s "omit" = None /\
    match limit d with
    | Some l =>
        if streamed q then exists v, stated s "limit" = Some v /\ (v = VNumber (default (low l) (r_value l)) \/ within l v)
        else stated s "limit" = None
    | None => stated s "limit" = None
    end.
Proof.
  intros Hg Ht Hs. apply fit_selection_Ok in Hs as (g0 & g1 & ps' & g2 & Hg0 & Hc & Hp & ->).
  assert (g0 = g) as -> by congruence. clear Hg0 Hg.
  assert (counts g1) as Hcount.
  { intros name v Hn. rewrite (fitCriteria_own _ _ _ _ _ _ name Hc) by set_solver. by apply (schema_counts g Ht). }
  rewrite !(stated_same g2 (fitted d g2)) by (apply fitted_own; set_solver).
  unfold fitPage in Hp. destruct (paged q); [by apply (fitRanges_bounds d g1) | destruct (streamed q); [by apply (fitWindow_bounds d g1)|]].
  apply then_Ok in Hp as [Hr Hp]. injection Hp as <-. unfold refuseRanges in Hr.
  destruct (stated g1 "omit"); [done|]. destruct (stated g1 "limit"); [done|]. by destruct (limit d).
Qed.

(** What is handed over to an operation is a query of the core: of a query string whose members are of
    the types its schema states, every member of the request is of the type the core reads it as. *)
Theorem query_typed querystring q d given g ps s :
  querystring given = Ok g -> well_typed (typed query_string) g ->
  fit_selection querystring q d given ps = Ok s -> well_typed (typed request_query) s.
Proof.
  intros Hg Ht Hs. apply fit_selection_Ok in Hs as (g0 & g1 & ps' & g2 & Hg0 & Hc & Hp & ->).
  assert (g0 = g) as -> by congruence. clear Hg0 Hg.
  assert (counts g1) as Hcount.
  { intros name v Hn. rewrite (fitCriteria_own _ _ _ _ _ _ name Hc) by set_solver. by apply (schema_counts g Ht). }
  intros name v Hv. refine (fitted_typed d g2 _ name v Hv).
  apply (fitPage_typed _ _ _ _ _ Hp); [set_solver | set_solver | done|].
  apply (fitCriteria_typed _ _ _ _ _ _ _ Hc); [set_solver | set_solver|]. intros n w Hw. by apply query_string_between, Ht.
Qed.

(** A default that is declared of [omit] is told of ([bounded]) and never handed over; and where none is
    declared of [limit], a page is asked for without one, and not with the lower boundary. *)
Theorem defaults_are_dropped d l o g g' :
  limit d = Some l -> omit d = Some o -> stated g "omit" = None -> stated g "limit" = None ->
  fitRanges d g = Ok g' ->
  stated g' "omit" = None /\ (r_value l = None -> stated g' "limit" = None).
Proof.
  unfold fitRanges. intros -> -> Ho -> H. cbn in H.
  set (v := match r_value l with Some n => VNumber n | None => VUndefined end) in H.
  assert (stated (assign "limit" v g) "omit" = None) as Hs by (rewrite (stated_same g) by (by rewrite own_assign_ne); done).
  rewrite Hs in H. injection H as <-. split; [done|]. subst v. intros ->. apply stated_assign_undefined.
Qed.

(** An open sort that no request extends ends with a statement of no property, which the core refuses. *)
Theorem open_sort_ends_empty d parts g :
  parts <> [] -> Forall (fun part => ";"%char ∉ chars part) parts ->
  sort d = Some (join ";" parts +:+ ";") -> stated g "sort" = None ->
  own (fitSort d g) "sort" = Some (VArray (VString <$> parts ++ [""])).
Proof.
  intros Hne Hall Hd Hg. unfold fitSort. rewrite Hg, Hd. cbn [default from_option id].
  rewrite own_assign_eq. do 3 f_equal. cbn.
  replace (_ +:+ "") with (join ";" (parts ++ [""])).
  - apply split_join; [by destruct parts|]. apply Forall_app. split; [done|]. constructor; [|done]. apply not_elem_of_nil.
  - clear -Hne. induction parts as [|p parts IH]; [done|]. destruct parts as [|p' parts].
    + cbn [join app]. by rewrite string_app_assoc.
    + cbn [app join] in *. rewrite IH by done. by rewrite !string_app_assoc.
Qed.

(** And one that is not open is extended all the same, into the name of its last statement. *)
Theorem closed_sort_is_extended d declared given g :
  ";"%char ∉ chars declared -> ";"%char ∉ chars given ->
  sort d = Some declared -> stated g "sort" = Some (VString given) ->
  own (fitSort d g) "sort" = Some (VArray [VString (declared +:+ given)]).
Proof.
  intros Hd Hg Hs Hst. unfold fitSort. rewrite Hst, Hs, own_assign_eq. do 2 f_equal. cbn [from_option default]. unfold Datatypes.id.
  unfold split. rewrite split_chars_none by (rewrite chars_app; set_solver). rewrite reverse_nil. cbn [app fmap list_fmap].
  by rewrite of_chars_chars.
Qed.

(** ** The pots of the documentation *)
Module Hot.

Definition coerce (member : string * value) : result string (string * value) :=
  let '(name, v) := member in
  match own query_string name, v with
  | Some Text_, VString _ => Ok member
  | Some Count, VNumber _ => Ok member
  | Some Count, VString text =>
      if forallb digit (chars text) then Ok (name, VNumber (number_of (chars text))) else Throw (name +:+ " must be number")
  | Some _, _ => Throw (name +:+ " must be string")
  | None, _ => Throw "must NOT have additional properties"
  end.

Fixpoint querystring (given : fields) : result string fields :=
  match given with
  | [] => Ok []
  | member :: given => member ← coerce member; given ← querystring given; Ok (member :: given)
  end.

Definition nothing : Declared := mkDeclared None None None None None None None None None None None.

(** [/:type: { GET: { endpoint: enumerate, query: { criteria: ',state==hot;', sort: 'rank:desc;' } } }] *)
Definition declared : Declared :=
  mkDeclared None (Some ",state==hot;") None None (Some "rank:desc;") None None None None None None.

Definition route : Query := make (Some declared) true false.
Definition kept : Declared := default nothing (query route).

Definition hot : criterion := Comparison "state==hot".
Definition asked : fields := [("criteria", VString "rank==5"); ("limit", VString "7")].
Definition read : fields := [("criteria", VString "rank==5"); ("limit", VNumber 7)].
Definition cool : parameters := [("type", "cool);(x==1")].

(** a record is the comparisons it is of *)
Definition holds (text : string) (r : list string) : bool := bool_decide (text ∈ r).

Definition request : fields :=
  [("criteria", VString ("(type==" +:+ quote "cool);(x==1" +:+ "),(state==hot);(rank==5)")); ("limit", VNumber 7);
   ("sort", VArray [VString "rank:desc"; VString ""])].

Lemma route_fits : fit_selection querystring route kept asked cool = Ok request.
Proof. vm_compute. reflexivity. Qed.

Lemma route_made : made route kept.
Proof. split; [reflexivity|]. split; [by left | done]. Qed.

Lemma type_named : Forall named cool.*1.
Proof. repeat constructor. Qed.

Lemma read_typed : well_typed (typed query_string) read.
Proof. intros name v Hv. apply own_Some, list_elem_of_In in Hv. destruct Hv as [[= <- <-]|[[= <- <-]|[]]]; done. Qed.


Lemma page_bounded_witness : exists v, stated request "limit" = Some v.
Proof.
  destruct (page_bounded querystring route kept asked read cool request eq_refl read_typed route_fits)
    as (l & o & _ & _ & [[H _]|(v & H & _)] & _); [discriminate H | exists v; exact H].
Defined.

Lemma query_typed_witness : well_typed (typed request_query) request.
Proof. exact (query_typed querystring route kept asked read cool request eq_refl read_typed route_fits). Defined.

(** a pot that is not hot is read of a route of the hot ones *)
Definition open : Declared := mkDeclared None (Some "state==hot") None None None None None None None None None.

Lemma cold_is_read r :
  exists text c, text_of (assign "criteria" (VString "(state==hot);(x==1),(state==cold)") []) = Some text /\ reads text c /\
    (selects holds (Comparison "state==cold") r = true -> selects holds c r = true).
Proof.
  refine (client_escapes holds (mkQuery false (Some open) false ";" true false false false) open
    [("criteria", VString "x==1),(state==cold")] hot (Comparison "x==1") (Comparison "state==cold") _ [] r _ _ _ _ _ _); try done.
  split; [done|]. split; [by right | done].
Qed.

End Hot.
