(* ===== verification/Connectors.v ===== *)
(** * Connectors

    [connector.ts]: what a process is made of, and how it is brought up and taken down. A connector
    depends on others, is linked to those that depend on it, and its [connect], [disconnect], [halt]
    and [restore] walk the graph. What awaits is a task, and a step is what runs between two awaits;
    a call to another connector is a task of its own, so that what the code runs at once may here run
    later too: what holds of every order of steps holds of those the code takes.
    With it: [gate.ts], a part of the graph that comes and goes; [deliveries.ts] and [abandon.ts]. *)
From stdpp Require Import functions.
From S2P Require Import Prelude.

Open Scope nat_scope.

(** ** State *)

Record Connector := mkConnector {
  dependencies : list nat;
  links : list nat;
  connecting : option nat;
  disconnecting : option nat;
  discarded : bool;
  halted : bool;
  connected : bool;
  disposed : bool
}.

Definition constructed : Connector := mkConnector [] [] None None false false false false.

(** what a promise is of *)
Inductive purpose := Connection (n : nat) | Disconnection (n : nat).

(** where an asynchronous call stands; [r] is what its caller awaits *)
Inductive task :=
| Connecting (n r : nat)
| Working (n p : nat) (awaited : list (nat * nat))
| Opening (n p : nat)
| Landing (n p r : nat)
| Failing (r d : nat)
| Dropping (r : option nat) (d : nat)
| Disconnecting (n : nat) (interrupt : bool) (r : nat)
| Waiting (n p r : nat)
| Closing (n d : nat)
| Undoing (n d : nat) (awaited : list (nat * nat))
| Disposing (n d : nat)
| Following (r p : nat)
| Reconnecting (n d r : nat).

(** what a connector was called to do, and did *)
Inductive event :=
| Open (n : nat) (dependencies : list nat)
| Opened (n : nat)
| Close (n : nat)
| Closed (n : nat)
| Unclosed (n : nat)
| Disposed (n : nat).

#[export] Instance event_eq_dec : EqDecision event.
Proof. solve_decision. Defined.

(** [count] connectors were constructed; what is none of them is as one that was just constructed *)
Record State := mkState {
  nodes : nat -> Connector;
  count : nat;
  promises : list (purpose * option bool);
  tasks : list task;
  log : list event
}.

Definition change (n : nat) (f : Connector -> Connector) (s : State) : State :=
  mkState (<[n := f (nodes s n)]> (nodes s)) (count s) (promises s) (tasks s) (log s).

Definition spawn (t : task) (s : State) : State := mkState (nodes s) (count s) (promises s) (tasks s ++ [t]) (log s).

Definition say (e : event) (s : State) : State := mkState (nodes s) (count s) (promises s) (tasks s) (e :: log s).

Definition promise (u : purpose) (s : State) : nat * State :=
  (length (promises s), mkState (nodes s) (count s) (promises s ++ [(u, None)]) (tasks s) (log s)).

(** a promise settles once *)
Definition settle (p : nat) (ok : bool) (s : State) : State :=
  mkState (nodes s) (count s) (alter (fun '(u, o) => (u, Some (default ok o))) p (promises s)) (tasks s) (log s).

Definition settled (s : State) (p : nat) : option bool := promises s !! p ≫= snd.

(** a call to another connector *)
Definition call (u : purpose) (t : nat -> task) (s : State) : nat * State :=
  let '(r, s) := promise u s in (r, spawn (t r) s).

(** [dependencies.map(...)] *)
Fixpoint calls (u : nat -> purpose) (t : nat -> nat -> task) (ds : list nat) (s : State) : list (nat * nat) * State :=
  match ds with
  | [] => ([], s)
  | d :: ds =>
      let '(r, s) := call (u d) (t d) s in
      let '(rs, s) := calls u t ds s in
      ((d, r) :: rs, s)
  end.

(** [Promise.all]: rejected with the first that is, resolved once all are *)
Definition all (s : State) (awaited : list (nat * nat)) : option bool :=
  if existsb (fun '(_, r) => bool_decide (settled s r = Some false)) awaited then Some false
  else if forallb (fun '(_, r) => bool_decide (settled s r = Some true)) awaited then Some true
  else None.

(** ** Connecting *)

Definition with_connection (connecting_ disconnecting_ : option nat) (connected_ : bool) (c : Connector) : Connector :=
  mkConnector (dependencies c) (links c) connecting_ disconnecting_ (discarded c) (halted c) connected_ (disposed c).

Definition with_discarded (b : bool) (c : Connector) : Connector :=
  mkConnector (dependencies c) (links c) (connecting c) (disconnecting c) b (halted c) (connected c) (disposed c).

Definition with_disposed (c : Connector) : Connector :=
  mkConnector (dependencies c) (links c) (connecting c) (disconnecting c) (discarded c) (halted c) (connected c) true.

Definition disconnect_ (n : nat) (interrupt : bool) (s : State) : nat * State :=
  call (Disconnection n) (Disconnecting n interrupt) s.

(** [connect] *)
Definition connect (n r : nat) (s : State) : State :=
  let c := nodes s n in
  match connecting c with
  | Some p => spawn (Following r p) s
  | None =>
      let '(p, s) := promise (Connection n) s in
      let s := change n (with_connection (Some p) None (connected c)) s in
      let '(awaited, s) := calls Connection Connecting (dependencies c) s in
      spawn (Landing n p r) (spawn (Working n p awaited) s)
  end.

(** [work], once the dependencies are connected, or one is not *)
Definition work (n p : nat) (awaited : list (nat * nat)) (s : State) : option State :=
  match all s awaited with
  | None => None
  | Some false => Some (settle p false s)
  | Some true => Some (spawn (Opening n p) (say (Open n awaited.*1) s))
  end.

Definition opened (n p : nat) (ok : bool) (s : State) : State :=
  settle p ok (if ok then say (Opened n) s else s).

(** [#drop] *)
Definition drop_ (n : nat) (r : option nat) (s : State) : State :=
  let '(d, s) := disconnect_ n false (change n (with_discarded false) s) in spawn (Dropping r d) s.

(** [connect], once its [work] is over *)
Definition land (n p r : nat) (s : State) : option State :=
  match settled s p with
  | None => None
  | Some false => let '(d, s) := disconnect_ n true s in Some (spawn (Failing r d) s)
  | Some true =>
      let c := nodes s n in
      let s :=
        if bool_decide (connecting c = Some p) then change n (with_connection (connecting c) (disconnecting c) true) s else s in
      Some (if discarded c then drop_ n (Some r) s else settle r true s)
  end.

(** ** Disconnecting *)

(** the rest of [disconnect], once nothing is left to close *)
Definition undo (n d : nat) (s : State) : State :=
  let c := nodes s n in
  let s := change n (with_connection None (disconnecting c) false) s in
  let '(awaited, s) := calls Disconnection (fun d => Disconnecting d false) (dependencies c) s in
  spawn (Undoing n d awaited) s.

Definition linked (c : Connector) (s : State) : bool := existsb (fun a => connected (nodes s a)) (links c).

(** [disconnect], past the connection it awaits *)
Definition tear (n : nat) (pending interrupt : bool) (r : nat) (s : State) : State :=
  let c := nodes s n in
  match disconnecting c with
  | Some d => spawn (Following r d) s
  | None =>
      if linked c s && negb interrupt then settle r true s
      else
        let '(d, s) := promise (Disconnection n) s in
        let s := spawn (Following r d) (change n (with_connection (connecting c) (Some d) (connected c)) s) in
        if pending then undo n d s else spawn (Closing n d) (say (Close n) s)
  end.

(** [disconnect] *)
Definition disconnect (n : nat) (interrupt : bool) (r : nat) (s : State) : State :=
  let c := nodes s n in
  let pending := interrupt || negb (connected c) in
  if pending then tear n pending interrupt r s
  else match connecting c with Some p => spawn (Waiting n p r) s | None => tear n pending interrupt r s end.

Definition waited (n p r : nat) (s : State) : option State :=
  match settled s p with
  | None => None
  | Some false => Some (settle r false s)
  | Some true => Some (tear n false false r s)
  end.

Definition close (n d : nat) (ok : bool) (s : State) : State :=
  if ok then undo n d (say (Closed n) s) else settle d false (say (Unclosed n) s).

Definition undone (n d : nat) (awaited : list (nat * nat)) (s : State) : option State :=
  match all s awaited with
  | None => None
  | Some false => Some (settle d false s)
  | Some true => Some (spawn (Disposing n d) s)
  end.

Definition dispose (n d : nat) (ok : bool) (s : State) : State :=
  if ok then settle d true (say (Disposed n) (change n with_disposed s)) else settle d false s.

(** ** Steps *)

(** [#discard] *)
Definition discard (n : nat) (s : State) : State :=
  let s := change n (with_discarded true) s in
  match connecting (nodes s n) with Some _ => drop_ n None s | None => s end.

Definition with_dependency (d : nat) (c : Connector) : Connector :=
  mkConnector (dependencies c ++ [d]) (links c) (connecting c) (disconnecting c) (discarded c) (halted c) (connected c) (disposed c).

Definition with_link (a : nat) (c : Connector) : Connector :=
  mkConnector (dependencies c) (links c ++ [a]) (connecting c) (disconnecting c) (discarded c) (halted c) (connected c) (disposed c).

(** what runs: [ok] is what the hook it ran came to, where it ran one; none where it still awaits *)
Definition run (t : task) (ok : bool) (s : State) : option State :=
  match t with
  | Connecting n r => Some (connect n r s)
  | Working n p awaited => work n p awaited s
  | Opening n p => Some (opened n p ok s)
  | Landing n p r => land n p r s
  | Failing r d => match settled s d with None => None | Some _ => Some (settle r false s) end
  | Dropping r d =>
      match settled s d with
      | None => None
      | Some _ => Some (match r with Some r => settle r true s | None => s end)
      end
  | Disconnecting n interrupt r => Some (disconnect n interrupt r s)
  | Waiting n p r => waited n p r s
  | Closing n d => Some (close n d ok s)
  | Undoing n d awaited => undone n d awaited s
  | Disposing n d => Some (dispose n d ok s)
  | Following r p => match settled s p with None => None | Some b => Some (settle r b s) end
  | Reconnecting n d r =>
      match settled s d with
      | None => None
      | Some false => Some (settle r false s)
      | Some true => Some (spawn (Connecting n r) s)
      end
  end.

(** ** Quiescence *)

Definition with_halted (b : bool) (c : Connector) : Connector :=
  mkConnector (dependencies c) (links c) (connecting c) (disconnecting c) (discarded c) b (connected c) (disposed c).

(** whether [pause] and [unpause] fail is told and makes no difference, so that what is left of the walk
    is where it has been, what is halted, and what was paused or unpaused, in order *)
Record Walk := mkWalk { visited : list nat; walked : nat -> Connector; told : list nat }.

Definition pause (n : nat) (w : Walk) : Walk :=
  if halted (walked w n) then w else mkWalk (visited w) (<[n := with_halted true (walked w n)]> (walked w)) (told w ++ [n]).

Definition unpause (n : nat) (w : Walk) : Walk :=
  if halted (walked w n) then mkWalk (visited w) (<[n := with_halted false (walked w n)]> (walked w)) (told w ++ [n]) else w.

Definition visit (n : nat) (w : Walk) : Walk := mkWalk (visited w ++ [n]) (walked w) (told w).

Fixpoint halt (fuel : nat) (n : nat) (w : Walk) : Walk :=
  match fuel with
  | 0 => w
  | S fuel =>
      if bool_decide (n ∈ visited w) then w
      else
        let w := pause n (visit n w) in
        foldl (fun w d => halt fuel d w) w (dependencies (walked w n))
  end.

Fixpoint restore (fuel : nat) (n : nat) (w : Walk) : Walk :=
  match fuel with
  | 0 => w
  | S fuel =>
      if bool_decide (n ∈ visited w) then w
      else
        let w := visit n w in
        unpause n (foldl (fun w d => restore fuel d w) w (dependencies (walked w n)))
  end.

(** a walk enters each connector once, and so as many deep as there are connectors *)
Definition walk (f : nat -> nat -> Walk -> Walk) (n : nat) (s : State) : Walk := f (S (count s)) n (mkWalk [] (nodes s) []).

Definition walk_over (f : nat -> nat -> Walk -> Walk) (n : nat) (s : State) : State :=
  mkState (walked (walk f n s)) (count s) (promises s) (tasks s) (log s).

(** ** What is called from outside *)

(** [depends], on one *)
Definition depends_one (a d : nat) (s : State) : State :=
  let s := change d (with_link a) (change a (with_dependency d) s) in
  let s := match disconnecting (nodes s a) with Some _ => discard d s | None => s end in
  if halted (nodes s a) then walk_over halt d s else s.

Definition construct (s : State) : nat * State := (count s, mkState (nodes s) (S (count s)) (promises s) (tasks s) (log s)).

(** [depends], on a set: what is returned, which each of the set depends on as this one does; none
    where it throws *)
Definition depends (a : nat) (ds : list nat) (s : State) : option (nat * State) :=
  match ds with
  | [] => None
  | [d] => Some (d, depends_one a d s)
  | _ =>
      let '(g, s) := construct s in
      let s := foldl (fun s d => depends_one d g (change a (with_dependency d) s)) s ds in
      Some (g, depends_one a g s)
  end.

Inductive action :=
| Run (i : nat) (ok : bool)
| Construct
| Depends (a : nat) (ds : list nat)
| Connect (n : nat)
| Disconnect (n : nat) (interrupt : bool)
| Reconnect (n : nat)
| Halt (n : nat)
| Restore_ (n : nat).

Definition remove (i : nat) (s : State) : State := mkState (nodes s) (count s) (promises s) (delete i (tasks s)) (log s).

Definition act (x : action) (s : State) : option State :=
  match x with
  | Run i ok => t ← tasks s !! i; s ← run t ok s; Some (remove i s)
  | Construct => Some (snd (construct s))
  | Depends a ds => snd <$> depends a ds s
  | Connect n => Some (snd (call (Connection n) (Connecting n) s))
  | Disconnect n interrupt => Some (snd (disconnect_ n interrupt s))
  | Reconnect n =>
      let '(d, s) := disconnect_ n false s in Some (snd (call (Connection n) (Reconnecting n d) s))
  | Halt n => Some (walk_over halt n s)
  | Restore_ n => Some (walk_over restore n s)
  end.

Definition started : State := mkState (fun _ => constructed) 0 [] [] [].

(** a connection is begun of what was not told to disconnect: what is taken down is replaced *)
Definition anew (x : action) (s : State) : Prop :=
  forall i ok n r, x = Run i ok -> tasks s !! i = Some (Connecting n r) ->
    connecting (nodes s n) = None -> disconnecting (nodes s n) = None.

Inductive reachable (allowed : action -> State -> Prop) : State -> Prop :=
| reachable_started : reachable allowed started
| reachable_act s x s' : reachable allowed s -> allowed x s -> act x s = Some s' -> reachable allowed s'.

(** ** [gate.ts] *)
Module Gate.

(** what it holds, and when that comes back while it is down *)
Record gate := mkGate { live : option nat; resumesAt : Z }.

Definition holding (g : gate) : bool := bool_decide (is_Some (live g)).

(** [Math.ceil(milliseconds / 1000)] *)
Definition seconds_of (milliseconds : Z) : Z := - ((- milliseconds) / 1000).

Definition remaining (now : Z) (g : gate) : Z :=
  if (resumesAt g =? 0)%Z then 0%Z else Z.max 0 (seconds_of (resumesAt g - now)).

(** what is left, and what is to disconnect *)
Definition down (now seconds : Z) (g : gate) : gate * option nat :=
  match live g with
  | None => (g, None)
  | Some n => (mkGate None (if (seconds =? 0)%Z then 0%Z else now + seconds * 1000)%Z, Some n)
  end.

(** whether it is to be built *)
Definition up (g : gate) : gate * bool := (mkGate (live g) 0, negb (holding g)).

(** and what was built, once it is connected *)
Definition built (n : nat) (connected : bool) (g : gate) : gate := if connected then mkGate (Some n) (resumesAt g) else g.

(** as long as is told is long enough, and no second longer than it takes *)
Lemma remaining_enough now g :
  (resumesAt g <= now + 1000 * remaining now g \/ resumesAt g = 0)%Z /\
  (0 < remaining now g -> now + 1000 * (remaining now g - 1) < resumesAt g)%Z.
Proof.
  unfold remaining, seconds_of. destruct (resumesAt g =? 0)%Z eqn:Hz; [split; [right; lia | lia]|].
  pose proof (Z.div_mod (- (resumesAt g - now)) 1000 ltac:(lia)). pose proof (Z.mod_pos_bound (- (resumesAt g - now)) 1000 ltac:(lia)).
  split; [left|]; lia.
Qed.
End Gate.

(** ** [deliveries.ts] *)
Module Deliveries.

(** how many are handled, and who waits for none to be *)
Record store := mkStore { count : Z; idle : list nat }.

Definition taken (d : store) : store := mkStore (count d + 1) (idle d).

(** what is left, and who goes on *)
Definition done (d : store) : store * list nat :=
  let n := (count d - 1)%Z in
  if (n =? 0)%Z then (mkStore n [], idle d) else (mkStore n (idle d), []).

(** the store, and whether whoever waits goes on at once *)
Definition settled (who : nat) (d : store) : store * bool :=
  if (count d =? 0)%Z then (d, true) else (mkStore (count d) (idle d ++ [who]), false).

Inductive handling := Taken | Done | Settled (who : nat).

Definition handle (h : handling) (d : store) : store :=
  match h with Taken => taken d | Done => fst (done d) | Settled who => fst (settled who d) end.

(** a delivery is done once and after it is taken *)
Fixpoint paired (held : nat) (hs : list handling) : bool :=
  match hs with
  | [] => true
  | Taken :: hs => paired (S held) hs
  | Done :: hs => match held with O => false | S held => paired held hs end
  | Settled _ :: hs => paired held hs
  end.

(** whoever waits, waits for a delivery *)
Lemma waits_for_some hs d :
  (0 <= count d)%Z -> (idle d <> [] -> 0 < count d)%Z -> paired (Z.to_nat (count d)) hs = true ->
  let d' := foldl (fun d h => handle h d) d hs in (0 <= count d')%Z /\ (idle d' <> [] -> 0 < count d')%Z.
Proof.
  revert d. induction hs as [|h hs IH]; intros d Hn Hi Hp; [done|]. destruct h; cbn [foldl handle paired] in *.
  - apply IH; cbn; [lia | intros; lia|]. by replace (Z.to_nat (count d + 1)) with (S (Z.to_nat (count d))) by lia.
  - destruct (Z.to_nat (count d)) as [|n] eqn:Hc; [discriminate Hp|]. unfold done.
    assert (Z.to_nat (count d - 1) = n) as Hn' by lia.
    destruct (count d - 1 =? 0)%Z eqn:Hz; cbn [fst]; apply IH; cbn; rewrite ?Hn'; try lia; try assumption; congruence.
  - unfold settled. destruct (count d =? 0)%Z eqn:Hz; cbn [fst]; apply IH; cbn; try assumption. intros _. lia.
Qed.
End Deliveries.

(** ** [abandon.ts] *)

(** what a caller waiting under a signal is told, where the signal is there: whether it aborted before the
    wait, which of the two came first, and whether it had aborted by the time the wait was over *)
Inductive first_of (V E : Type) := Resolved (v : V) | Rejected (e : E) (aborted_by_then : bool) | Aborted.
Arguments Resolved {V E} v.
Arguments Rejected {V E} e aborted_by_then.
Arguments Aborted {V E}.

Definition waiting {V E : Type} (abandoned : E) (signal : option bool) (first : first_of V E) : result E V :=
  match signal with
  | Some true => Throw abandoned
  | _ =>
      match first with
      | Resolved v => Ok v
      | Rejected e aborted => Throw (if bool_decide (signal = Some false) && aborted then abandoned else e)
      | Aborted => Throw abandoned
      end
  end.

(** ** Lemmas *)

Definition purposed (s : State) (r : nat) (u : purpose) : Prop := exists o, promises s !! r = Some (u, o).

(** what is kept by every step: promises keep what they are of, and what they settled with *)
Record extends (s s' : State) : Prop := {
  ext_purposed : forall r u, purposed s r u -> purposed s' r u;
  ext_settled : forall r b, settled s r = Some b -> settled s' r = Some b;
  ext_log : forall e, e ∈ log s -> e ∈ log s'
}.

#[export] Instance extends_refl : Reflexive extends.
Proof. by constructor. Qed.

#[export] Instance extends_trans : Transitive extends.
Proof. intros s1 s2 s3 [] []. constructor; auto. Qed.

Lemma extends_of s s' :
  promises s' = promises s -> (forall e, e ∈ log s -> e ∈ log s') -> extends s s'.
Proof. intros Hp Hl. constructor; unfold purposed, settled; rewrite ?Hp; auto. Qed.

Lemma extends_spawn t s : extends s (spawn t s).
Proof. by apply extends_of. Qed.

Lemma extends_say e s : extends s (say e s).
Proof. apply extends_of; [done|]. by right. Qed.

Lemma extends_change n f s : extends s (change n f s).
Proof. by apply extends_of. Qed.

Lemma extends_settle p ok s : extends s (settle p ok s).
Proof.
  constructor; [| |done]; unfold purposed, settled; cbn [promises settle].
  - intros r u [o Ho]. destruct (decide (p = r)) as [->|Hne].
    + rewrite list_lookup_alter_eq, Ho. by eexists.
    + rewrite list_lookup_alter_ne by done. by exists o.
  - intros r b H. destruct (decide (p = r)) as [->|Hne].
    + rewrite list_lookup_alter_eq. destruct (promises s !! r) as [[u o]|]; [|done]. cbn in *. by subst.
    + by rewrite list_lookup_alter_ne.
Qed.

Lemma extends_promise u s : extends s (snd (promise u s)).
Proof.
  constructor; [| |done]; unfold purposed, settled; cbn [promises promise snd].
  - intros r v [o Ho]. exists o. by apply lookup_app_l_Some.
  - intros r b H. destruct (promises s !! r) as [x|] eqn:Hx; [|done]. by rewrite (lookup_app_l_Some _ _ _ _ Hx).
Qed.

Lemma promise_purposed u s : purposed (snd (promise u s)) (fst (promise u s)) u.
Proof. exists None. cbn. by rewrite lookup_app_r, Nat.sub_diag. Qed.

Lemma extends_call u t s : extends s (snd (call u t s)).
Proof. exact (extends_trans _ _ _ (extends_promise u s) (extends_spawn _ _)). Qed.

Lemma extends_calls u t ds s : extends s (snd (calls u t ds s)).
Proof.
  revert s. induction ds as [|d ds IH]; intros s; [done|]. cbn [calls].
  pose proof (extends_call (u d) (t d) s) as H1. destruct (call (u d) (t d) s) as [r s1].
  specialize (IH s1). destruct (calls u t ds s1) as [rs s2]. exact (extends_trans _ _ _ H1 IH).
Qed.

(** what holds of a state holds after calls that keep it *)
Lemma calls_ind (P : State -> Prop) u t ds s :
  P s -> (forall s d, d ∈ ds -> P s -> P (snd (call (u d) (t d) s))) -> P (snd (calls u t ds s)).
Proof.
  revert s. induction ds as [|d ds IH]; intros s Hs Hcall; [done|]. cbn [calls].
  pose proof (Hcall s d (list_elem_of_here _ _) Hs) as H1. destruct (call (u d) (t d) s) as [r s1].
  specialize (IH s1 H1). destruct (calls u t ds s1) as [rs s2]. apply IH. intros s' d' Hd. apply Hcall. by right.
Qed.

Lemma calls_same u t ds s :
  nodes (snd (calls u t ds s)) = nodes s /\ log (snd (calls u t ds s)) = log s.
Proof. apply (calls_ind (fun s' => nodes s' = nodes s /\ log s' = log s)); [done|]. intros s' d _ [Hn Hl]. by cbn. Qed.

Lemma calls_awaited u t ds s :
  (fst (calls u t ds s)).*1 = ds /\
  Forall (fun '(d, r) => purposed (snd (calls u t ds s)) r (u d)) (fst (calls u t ds s)).
Proof.
  revert s. induction ds as [|d ds IH]; intros s; [done|]. cbn [calls].
  pose proof (promise_purposed (u d) s) as Hp. unfold call. destruct (promise (u d) s) as [r s1] eqn:Hpr. cbn [fst snd] in Hp.
  specialize (IH (spawn (t d r) s1)). pose proof (extends_calls u t ds (spawn (t d r) s1)) as He.
  destruct (calls u t ds (spawn (t d r) s1)) as [rs s2]. cbn [fst snd fmap list_fmap] in *. destruct IH as [IH1 IH2].
  split; [by rewrite IH1|]. constructor; [|done]. apply He, Hp.
Qed.

(** tasks are added after those there are *)
Definition after (s s' : State) : Prop := exists ts, tasks s' = tasks s ++ ts.

#[export] Instance after_refl : Reflexive after.
Proof. intros s. exists []. by rewrite app_nil_r. Qed.

#[export] Instance after_trans : Transitive after.
Proof. intros s1 s2 s3 [t H] [t' H']. exists (t ++ t'). by rewrite H', H, app_assoc. Qed.

Lemma after_spawn t s : after s (spawn t s).
Proof. by eexists. Qed.

Lemma after_calls u t ds s : after s (snd (calls u t ds s)).
Proof.
  apply (calls_ind (after s)); [done|]. intros s' d _ H. etrans; [exact H|]. by eexists.
Qed.

Lemma calls_called u t ds s d : d ∈ ds -> exists r, t d r ∈ tasks (snd (calls u t ds s)).
Proof.
  revert s. induction ds as [|d' ds IH]; intros s Hd; [by apply elem_of_nil in Hd|]. cbn [calls].
  destruct (call (u d') (t d') s) as [r s1] eqn:Hc. specialize (IH s1).
  pose proof (after_calls u t ds s1) as [ts Hts]. destruct (calls u t ds s1) as [rs s2]. cbn [snd] in *.
  apply elem_of_cons in Hd as [->|Hd]; [|by apply IH]. exists r. rewrite Hts. unfold call in Hc.
  injection Hc as <- <-. cbn [tasks spawn]. set_solver.
Qed.

Lemma calls_only u t ds s x : x ∈ tasks (snd (calls u t ds s)) -> x ∈ tasks s \/ exists d r, d ∈ ds /\ x = t d r.
Proof.
  revert x. apply (calls_ind (fun s' => forall x, x ∈ tasks s' -> x ∈ tasks s \/ exists d r, d ∈ ds /\ x = t d r)); [by left|].
  intros s' d Hd H x. cbn. rewrite elem_of_app, list_elem_of_singleton. intros [Hx|Hx]; [by apply H|]. right. eauto.
Qed.

(** *** What a promise resolved with *)

(** a connector is opened after what it depends on was *)
Fixpoint ordered (l : list event) : Prop :=
  match l with
  | [] => True
  | Open _ ds :: l => (forall d, d ∈ ds -> Opened d ∈ l) /\ ordered l
  | _ :: l => ordered l
  end.

Definition typed (s : State) (t : task) : Prop :=
  match t with
  | Connecting n r | Reconnecting n _ r => purposed s r (Connection n)
  | Working n p awaited => purposed s p (Connection n) /\ Forall (fun '(d, r) => purposed s r (Connection d)) awaited
  | Opening n p => purposed s p (Connection n)
  | Landing n p r => purposed s p (Connection n) /\ purposed s r (Connection n)
  | Failing _ _ => True
  | Dropping r _ => match r with Some r => exists n, purposed s r (Connection n) /\ Opened n ∈ log s | None => True end
  | Disconnecting n _ r | Waiting n _ r => purposed s r (Disconnection n)
  | Closing n d | Disposing n d | Undoing n d _ => purposed s d (Disconnection n)
  | Following r p => exists u, purposed s r u /\ purposed s p u
  end.

Lemma typed_extends s s' t : extends s s' -> typed s t -> typed s' t.
Proof.
  intros [Hp _ Hl]. destruct t; cbn [typed]; try done; auto; try (intros [? ?]; split; [by apply Hp|]).
  - eapply Forall_impl; [done|]. intros [d r0]. apply Hp.
  - by apply Hp.
  - destruct r as [r|]; [|done]. intros (n & Hr & Ho). exists n. auto.
  - intros (u & Hr & Hd). exists u. auto.
Qed.

Record Told (s : State) : Prop := {
  told_tasks : Forall (typed s) (tasks s);
  told_connecting : forall n p, connecting (nodes s n) = Some p -> purposed s p (Connection n);
  told_disconnecting : forall n d, disconnecting (nodes s n) = Some d -> purposed s d (Disconnection n);
  told_opened : forall r n, promises s !! r = Some (Connection n, Some true) -> Opened n ∈ log s;
  told_ordered : ordered (log s)
}.

Lemma told_spawn t s : Told s -> typed s t -> Told (spawn t s).
Proof.
  intros [Ht Hc Hd Ho Hl] Hnew. constructor; cbn [tasks spawn nodes promises log]; try done.
  apply Forall_app. split; [eapply Forall_impl; [exact Ht|]; intros x; by apply typed_extends, extends_spawn|].
  constructor; [|done]. by eapply typed_extends; [apply extends_spawn|].
Qed.

Lemma told_promise u s : Told s -> Told (snd (promise u s)).
Proof.
  intros [Ht Hc Hd Ho Hl]. pose proof (extends_promise u s) as He. constructor; try done.
  - eapply Forall_impl; [exact Ht|]. intros x. by apply typed_extends.
  - intros n p H. by apply He, Hc.
  - intros n d H. by apply He, Hd.
  - intros r n H. cbn [promise snd promises] in H. apply lookup_app_Some in H as [H|[_ H]]; [by eapply Ho|].
    by apply list_lookup_singleton_Some in H as [_ [=]].
Qed.

Lemma told_settle p ok s :
  Told s -> (ok = true -> forall n, purposed s p (Connection n) -> Opened n ∈ log s) -> Told (settle p ok s).
Proof.
  intros [Ht Hc Hd Ho Hl] Hok. pose proof (extends_settle p ok s) as He. constructor; try done.
  - eapply Forall_impl; [exact Ht|]. intros x. by apply typed_extends.
  - intros n q H. by apply He, Hc.
  - intros n d H. by apply He, Hd.
  - intros r n H. cbn [settle promises] in H. destruct (decide (p = r)) as [->|Hne].
    + rewrite list_lookup_alter_eq in H. destruct (promises s !! r) as [[u o]|] eqn:Hr; [|done].
      injection H as -> Ht'. destruct o as [b|]; cbn in Ht'; subst.
      * by eapply Ho.
      * apply Hok; [done|]. by exists None.
    + rewrite list_lookup_alter_ne in H by done. by eapply Ho.
Qed.

Lemma told_say e s : Told s -> ordered (e :: log s) -> Told (say e s).
Proof.
  intros [Ht Hc Hd Ho Hl] Hord. constructor; try done.
  - eapply Forall_impl; [exact Ht|]. intros x. by apply typed_extends, extends_say.
  - intros r n H. right. by eapply Ho.
Qed.

Lemma told_change n f s :
  Told s -> (forall p, connecting (f (nodes s n)) = Some p -> purposed s p (Connection n)) ->
  (forall d, disconnecting (f (nodes s n)) = Some d -> purposed s d (Disconnection n)) -> Told (change n f s).
Proof.
  intros [Ht Hc Hd Ho Hl] Hc' Hd'. constructor; try done.
  - intros m p. cbn [nodes change]. destruct (decide (n = m)) as [->|Hne].
    + rewrite fn_lookup_insert. apply Hc'.
    + rewrite fn_lookup_insert_ne by done. apply Hc.
  - intros m d. cbn [nodes change]. destruct (decide (n = m)) as [->|Hne].
    + rewrite fn_lookup_insert. apply Hd'.
    + rewrite fn_lookup_insert_ne by done. apply Hd.
Qed.

(** a change of neither promise *)
Lemma told_change_same n f s :
  Told s -> connecting (f (nodes s n)) = connecting (nodes s n) -> disconnecting (f (nodes s n)) = disconnecting (nodes s n) ->
  Told (change n f s).
Proof.
  intros H Hc Hd. apply told_change; [done| |]; intros p; rewrite ?Hc, ?Hd; [apply (told_connecting _ H) | apply (told_disconnecting _ H)].
Qed.

Lemma told_call u t s : Told s -> (forall s r, purposed s r u -> typed s (t r)) -> Told (snd (call u t s)).
Proof.
  intros H Ht. unfold call. pose proof (promise_purposed u s) as Hp. pose proof (told_promise u s H) as H'.
  destruct (promise u s) as [r s']. apply told_spawn; [done|]. by apply Ht.
Qed.

Lemma told_calls u t ds s : Told s -> (forall d s r, purposed s r (u d) -> typed s (t d r)) -> Told (snd (calls u t ds s)).
Proof. intros H Ht. apply calls_ind; [done|]. intros s' d _ Hs'. apply told_call; [done|]. apply Ht. Qed.

Lemma told_connect n r s : Told s -> purposed s r (Connection n) -> Told (connect n r s).
Proof.
  intros H Hr. unfold connect. destruct (connecting (nodes s n)) as [p|] eqn:Hp.
  { apply told_spawn; [done|]. exists (Connection n). split; [done|]. by apply (told_connecting _ H). }
  pose proof (told_promise (Connection n) s H) as H1. pose proof (promise_purposed (Connection n) s) as Hq.
  pose proof (extends_promise (Connection n) s) as E1.
  destruct (promise (Connection n) s) as [p s1]. cbn [fst snd] in *.
  set (s2 := change n _ s1). assert (Told s2) as H2 by (apply told_change; [done| |]; cbn; [by intros ? [= <-] | done]).
  pose proof (told_calls Connection Connecting (dependencies (nodes s n)) s2 H2 (fun _ _ _ H => H)) as H3.
  pose proof (proj2 (calls_awaited Connection Connecting (dependencies (nodes s n)) s2)) as Ha.
  pose proof (extends_calls Connection Connecting (dependencies (nodes s n)) s2) as E3.
  destruct (calls _ _ _ s2) as [awaited s3]. cbn [fst snd] in *.
  assert (purposed s3 p (Connection n)) as Hp3 by (apply E3; exact Hq).
  apply told_spawn; [apply told_spawn; [done|]|]; cbn [typed]; [done|].
  split; [exact Hp3|]. apply E3, E1, Hr.
Qed.

Lemma all_true s awaited : all s awaited = Some true -> forall d r, (d, r) ∈ awaited -> settled s r = Some true.
Proof.
  unfold all. intros H d r Hin. destruct (existsb _ awaited); [done|].
  destruct (forallb _ awaited) eqn:Hf; [|done]. rewrite forallb_forall in Hf.
  specialize (Hf (d, r) (proj1 (list_elem_of_In _ _) Hin)). by apply bool_decide_eq_true in Hf.
Qed.

Lemma settled_opened s r n : Told s -> purposed s r (Connection n) -> settled s r = Some true -> Opened n ∈ log s.
Proof.
  intros H [o Ho] Hs. unfold settled in Hs. rewrite Ho in Hs. cbn in Hs. subst. by apply (told_opened _ H r).
Qed.

Lemma purposed_det s r u v : purposed s r u -> purposed s r v -> u = v.
Proof. intros [o Ho] [o' Ho']. congruence. Qed.

Lemma told_disconnect_ n i s : Told s -> Told (snd (disconnect_ n i s)).
Proof. intros H. by apply told_call. Qed.

Lemma told_drop n r s :
  Told s -> (forall x, r = Some x -> exists n, purposed s x (Connection n) /\ Opened n ∈ log s) -> Told (drop_ n r s).
Proof.
  intros H Hr. unfold drop_. set (s1 := change n (with_discarded false) s).
  assert (Told s1) as H1 by by apply told_change_same.
  pose proof (told_disconnect_ n false s1 H1) as H2. pose proof (extends_call (Disconnection n) (Disconnecting n false) s1) as E.
  unfold disconnect_ in *. destruct (call _ _ s1) as [d s2]. cbn [snd] in *. apply told_spawn; [done|].
  cbn [typed]. destruct r as [r|]; [|done]. destruct (Hr r eq_refl) as (m & Hm & Ho). exists m. split; [by apply E | by apply (ext_log _ _ E)].
Qed.

Lemma told_undo n d s : Told s -> purposed s d (Disconnection n) -> Told (undo n d s).
Proof.
  intros H Hd. unfold undo. set (s1 := change n _ s).
  assert (Told s1) as H1 by (apply told_change; [done| |]; cbn; [done | apply (told_disconnecting _ H)]).
  pose proof (told_calls Disconnection (fun d => Disconnecting d false) (dependencies (nodes s n)) s1 H1 (fun _ _ _ H => H)) as H2.
  pose proof (extends_calls Disconnection (fun d => Disconnecting d false) (dependencies (nodes s n)) s1) as E.
  destruct (calls _ _ _ s1) as [awaited s2]. cbn [snd] in *. apply told_spawn; [done|]. by apply E.
Qed.

(** what is of a disconnection tells nothing of a connection *)
Lemma told_settle_disconnection p n ok s : Told s -> purposed s p (Disconnection n) -> Told (settle p ok s).
Proof. intros H Hp. apply told_settle; [done|]. intros _ m Hm. by pose proof (purposed_det _ _ _ _ Hp Hm). Qed.

Lemma told_tear n pending i r s : Told s -> purposed s r (Disconnection n) -> Told (tear n pending i r s).
Proof.
  intros H Hr. unfold tear. destruct (disconnecting (nodes s n)) as [d|] eqn:Hd.
  { apply told_spawn; [done|]. exists (Disconnection n). split; [done|]. by apply (told_disconnecting _ H). }
  destruct (linked _ _ && _); [by eapply told_settle_disconnection|].
  pose proof (told_promise (Disconnection n) s H) as H1. pose proof (promise_purposed (Disconnection n) s) as Hq.
  pose proof (extends_promise (Disconnection n) s) as E1.
  destruct (promise (Disconnection n) s) as [d s1] eqn:Hpr. cbn [fst snd] in *.
  assert (Hn : nodes s1 = nodes s) by (by injection Hpr as <- <-).
  set (s2 := change n _ s1).
  assert (Told s2) as H2.
  { apply told_change; [done| |]; cbn; [intros p Hp; by apply E1, (told_connecting _ H) | by intros ? [= <-]]. }
  assert (Told (spawn (Following r d) s2)) as H3.
  { apply told_spawn; [done|]. exists (Disconnection n). split; [by apply E1 | done]. }
  destruct pending; [by apply told_undo|]. apply told_spawn; [apply told_say; [done | exact (told_ordered _ H3)] | done].
Qed.

Lemma told_run t ok s s' : Told s -> typed s t -> run t ok s = Some s' -> Told s'.
Proof.
  intros H Ht Hrun. destruct t; cbn [run] in Hrun.
  - injection Hrun as <-. by apply told_connect.
  - destruct Ht as [Hp Ha]. unfold work in Hrun. destruct (all s awaited) as [[]|] eqn:Hall; [| |done]; injection Hrun as <-.
    + apply told_spawn; [|exact Hp]. apply told_say; [done|]. split; [|exact (told_ordered _ H)].
      intros d Hd. apply list_elem_of_fmap in Hd as ([d' r] & -> & Hin). cbn. rewrite Forall_forall in Ha.
      eapply settled_opened; [done | exact (Ha _ Hin) | by eapply all_true].
    + apply told_settle; [done|]. done.
  - injection Hrun as <-. unfold opened. destruct ok; [|by apply told_settle].
    apply told_settle; [apply told_say; [done | exact (told_ordered _ H)]|].
    intros _ m Hm.
    assert (purposed s p (Connection m)) as Hm' by exact Hm.
    pose proof (purposed_det _ _ _ _ Ht Hm') as [= ->]. by left.
  - destruct Ht as [Hp Hr]. unfold land in Hrun. destruct (settled s p) as [[]|] eqn:Hs; [| |done]; injection Hrun as <-.
    + pose proof (settled_opened _ _ _ H Hp Hs) as Ho.
      set (s1 := if bool_decide _ then _ else s).
      assert (Told s1 /\ extends s s1) as [H1 E1].
      { subst s1. case_bool_decide; [|done]. split; [by apply told_change_same | apply extends_change]. }
      destruct (discarded (nodes s n)).
      * apply told_drop; [done|]. intros x [= <-]. exists n. split; [by apply E1 | by apply (ext_log _ _ E1)].
      * apply told_settle; [done|]. intros _ m Hm. pose proof (purposed_det _ _ _ _ (ext_purposed _ _ E1 _ _ Hr) Hm) as [= ->].
        by apply (ext_log _ _ E1).
    + exact (told_spawn (Failing r _) _ (told_disconnect_ n true s H) I).
  - destruct (settled s d); [|done]. injection Hrun as <-. by apply told_settle.
  - destruct (settled s d); [|done]. injection Hrun as <-. destruct r as [r|]; [|done].
    destruct Ht as (n & Hr & Ho). apply told_settle; [done|]. intros _ m Hm. by pose proof (purposed_det _ _ _ _ Hr Hm) as [= ->].
  - injection Hrun as <-. unfold disconnect. destruct (interrupt || _); [by apply told_tear|].
    destruct (connecting (nodes s n)); [by apply told_spawn | by apply told_tear].
  - unfold waited in Hrun. destruct (settled s p) as [[]|]; [| |done]; injection Hrun as <-.
    + by apply told_tear.
    + by apply told_settle.
  - injection Hrun as <-. unfold close. destruct ok.
    + apply told_undo; [apply told_say; [done | exact (told_ordered _ H)] | exact Ht].
    + apply told_settle; [apply told_say; [done | exact (told_ordered _ H)] | done].
  - unfold undone in Hrun. destruct (all s awaited) as [[]|]; [| |done]; injection Hrun as <-; [by apply told_spawn | by apply told_settle].
  - injection Hrun as <-. unfold dispose. destruct ok; [|by apply told_settle].
    eapply told_settle_disconnection; [|exact Ht]. apply told_say; [by apply told_change_same | exact (told_ordered _ H)].
  - destruct (settled s p) as [b|] eqn:Hs; [|done]. injection Hrun as <-. destruct Ht as (u & Hr & Hp).
    apply told_settle; [done|]. intros -> m Hm. pose proof (purposed_det _ _ _ _ Hr Hm) as ->. exact (settled_opened s p m H Hp Hs).
  - destruct (settled s d) as [[]|]; [| |done]; injection Hrun as <-; [by apply told_spawn | by apply told_settle].
Qed.

(** *** What a walk leaves as it was *)

Definition same_but_halted (cs cs' : nat -> Connector) : Prop := forall n, with_halted false (cs n) = with_halted false (cs' n).

Lemma foldl_keeps {A B} (P : A -> Prop) (f : A -> B -> A) l a : (forall a b, P a -> P (f a b)) -> P a -> P (foldl f a l).
Proof. intros Hf. revert a. induction l as [|b l IH]; intros a Ha; [done|]. apply IH, Hf, Ha. Qed.

Lemma pause_same cs n w : same_but_halted cs (walked w) -> same_but_halted cs (walked (pause n w)).
Proof.
  intros H m. unfold pause. destruct (halted (walked w n)); [apply H|]. cbn [walked]. destruct (decide (n = m)) as [->|Hne].
  - rewrite fn_lookup_insert. by rewrite (H m).
  - rewrite fn_lookup_insert_ne by done. apply H.
Qed.

Lemma unpause_same cs n w : same_but_halted cs (walked w) -> same_but_halted cs (walked (unpause n w)).
Proof.
  intros H m. unfold unpause. destruct (halted (walked w n)); [|apply H]. cbn [walked]. destruct (decide (n = m)) as [->|Hne].
  - rewrite fn_lookup_insert. by rewrite (H m).
  - rewrite fn_lookup_insert_ne by done. apply H.
Qed.

Lemma halt_same cs fuel n w : same_but_halted cs (walked w) -> same_but_halted cs (walked (halt fuel n w)).
Proof.
  revert n w. induction fuel as [|fuel IH]; intros n w H; [done|]. cbn [halt]. case_bool_decide; [done|].
  apply (foldl_keeps (fun w => same_but_halted cs (walked w))); [intros; by apply IH|]. by apply pause_same.
Qed.

Lemma restore_same cs fuel n w : same_but_halted cs (walked w) -> same_but_halted cs (walked (restore fuel n w)).
Proof.
  revert n w. induction fuel as [|fuel IH]; intros n w H; [done|]. cbn [restore]. case_bool_decide; [done|].
  apply unpause_same. apply (foldl_keeps (fun w => same_but_halted cs (walked w))); [intros; by apply IH|]. done.
Qed.

Lemma same_fields cs cs' n : same_but_halted cs cs' ->
  dependencies (cs n) = dependencies (cs' n) /\ links (cs n) = links (cs' n) /\ connecting (cs n) = connecting (cs' n) /\
  disconnecting (cs n) = disconnecting (cs' n) /\ discarded (cs n) = discarded (cs' n) /\ connected (cs n) = connected (cs' n).
Proof. intros H. specialize (H n). unfold with_halted in H. injection H. intros. by split_and!. Qed.

Lemma told_same s s' :
  Told s -> same_but_halted (nodes s) (nodes s') -> promises s' = promises s -> tasks s' = tasks s -> log s' = log s -> Told s'.
Proof.
  intros [Ht Hc Hd Ho Hl] Hn Hp Hts Hlog.
  assert (extends s s') as E by (apply extends_of; [done|]; intros e; by rewrite Hlog).
  constructor; rewrite ?Hp, ?Hts, ?Hlog; try done.
  - eapply Forall_impl; [exact Ht|]. intros t. by apply typed_extends.
  - intros n p. destruct (same_fields _ _ n Hn) as (_ & _ & <- & _). intros H. by apply E, Hc.
  - intros n p. destruct (same_fields _ _ n Hn) as (_ & _ & _ & <- & _). intros H. by apply E, Hd.
Qed.

Lemma told_walk f n s : Told s -> same_but_halted (nodes s) (walked (walk f n s)) -> Told (walk_over f n s).
Proof. intros H Hs. by apply (told_same s). Qed.

Lemma told_depends_one a d s : Told s -> Told (depends_one a d s).
Proof.
  intros H. unfold depends_one. set (s1 := change d _ _).
  assert (Told s1) as H1 by (do 2 (apply told_change_same; try done)).
  set (s2 := match disconnecting (nodes s1 a) with Some _ => discard d s1 | None => s1 end).
  assert (Told s2) as H2.
  { subst s2. destruct (disconnecting (nodes s1 a)); [|done]. unfold discard.
    assert (Told (change d (with_discarded true) s1)) as H2 by by apply told_change_same.
    destruct (connecting (nodes (change d (with_discarded true) s1) d)); [|done]. by apply told_drop. }
  destruct (halted (nodes s2 a)); [|done]. apply told_walk; [done|]. by apply halt_same.
Qed.

Lemma told_remove i s : Told s -> Told (remove i s).
Proof. intros [Ht Hc Hd Ho Hl]. constructor; try done. cbn [remove tasks]. by apply Forall_delete. Qed.

Lemma told_act x s s' : Told s -> act x s = Some s' -> Told s'.
Proof.
  intros H Hact. destruct x; cbn [act] in Hact.
  - apply bind_Some in Hact as (t & Ht & Hact). apply bind_Some in Hact as (s1 & Hrun & [= <-]).
    apply told_remove. apply (told_run t ok s s1 H); [|done]. eapply Forall_lookup_1; [apply (told_tasks _ H) | exact Ht].
  - injection Hact as <-. by apply (told_same s).
  - unfold depends in Hact. destruct ds as [|d ds]; [done|]. destruct ds as [|d' ds].
    + injection Hact as <-. by apply told_depends_one.
    + cbn [construct] in Hact. injection Hact as <-. apply told_depends_one.
      assert (forall s1 e, Told s1 -> Told (depends_one e (count s) (change a (with_dependency e) s1))) as Hstep
        by (intros s1 e H1; apply told_depends_one; by apply told_change_same).
      apply (foldl_keeps Told); [exact Hstep|]. apply Hstep, Hstep. by apply (told_same s).
  - injection Hact as <-. by apply told_call.
  - injection Hact as <-. by apply told_disconnect_.
  - pose proof (told_disconnect_ n false s H) as H1. destruct (disconnect_ n false s) as [d s1]. injection Hact as <-.
    by apply told_call.
  - injection Hact as <-. apply told_walk; [done|]. by apply halt_same.
  - injection Hact as <-. apply told_walk; [done|]. by apply restore_same.
Qed.

Lemma told_reachable allowed s : reachable allowed s -> Told s.
Proof. induction 1 as [|s x s' _ IH _ Hact]; [|by eapply told_act]. constructor; done. Qed.

(** *** What was told to disconnect, where nothing is connected again *)

(** told to disconnect, and past its closing *)
Definition down (c : Connector) : Prop := disconnecting c <> None /\ connecting c = None.

#[export] Instance down_dec c : Decision (down c).
Proof. unfold down. apply _. Defined.

(** a call of [disconnect] that did not decide yet *)
Definition deciding (d : nat) (t : task) : Prop :=
  match t with Disconnecting n _ _ | Waiting n _ _ => n = d | _ => False end.

Definition closing (n d : nat) (t : task) : Prop := t = Closing n d.

(** what is not taken down yet, though all that depends on it is, will be *)
Definition attended (s : State) (ts : list task) (d : nat) : Prop :=
  disconnecting (nodes s d) <> None \/ Exists (deciding d) ts \/
  discarded (nodes s d) = true /\ connected (nodes s d) = false \/
  Exists (fun b => ~ down (nodes s b)) (links (nodes s d)).

Definition closed_or (s : State) (ts : list task) (n : nat) : Prop :=
  forall d, disconnecting (nodes s n) = Some d ->
    connecting (nodes s n) = None \/ connected (nodes s n) = true /\ (Closing n d ∈ ts \/ Unclosed n ∈ log s).

Record Orderly (s : State) : Prop := {
  o_links : forall a d, a ∈ links (nodes s d) -> d ∈ dependencies (nodes s a);
  o_connected : forall n, connected (nodes s n) = true ->
    exists p, connecting (nodes s n) = Some p /\ settled s p = Some true;
  o_waiting : forall n p r, Waiting n p r ∈ tasks s ->
    settled s p = Some true /\ (connected (nodes s n) = true \/ disconnecting (nodes s n) <> None);
  o_closing : forall n d, Closing n d ∈ tasks s -> disconnecting (nodes s n) <> None;
  o_close : forall n, Close n ∈ log s -> disconnecting (nodes s n) <> None /\ (Closed n ∈ log s \/ connected (nodes s n) = true)
}.

Record Attended (s : State) (ts : list task) : Prop := {
  a_links : forall d, links (nodes s d) <> [] -> attended s ts d;
  a_closed : forall n, closed_or s ts n
}.

Lemma nodes_change n f s m : nodes (change n f s) m = if decide (n = m) then f (nodes s n) else nodes s m.
Proof. cbn [nodes change]. case_decide as H; [subst; apply fn_lookup_insert | by apply fn_lookup_insert_ne]. Qed.

(** a state with the same connectors, further on *)
Lemma orderly_further s s' :
  Orderly s -> (forall m, nodes s' m = nodes s m) -> extends s s' ->
  (forall n p r, Waiting n p r ∈ tasks s' -> Waiting n p r ∈ tasks s \/
     settled s' p = Some true /\ (connected (nodes s n) = true \/ disconnecting (nodes s n) <> None)) ->
  (forall n d, Closing n d ∈ tasks s' -> Closing n d ∈ tasks s \/ disconnecting (nodes s n) <> None) ->
  (forall n, Close n ∈ log s' -> Close n ∈ log s \/
     disconnecting (nodes s n) <> None /\ connected (nodes s n) = true) -> Orderly s'.
Proof.
  intros [Hl Hc Hw Hg Hcl] Hn E Hw' Hg' Hcl'. constructor.
  - intros a d. rewrite !Hn. apply Hl.
  - intros n. rewrite !Hn. intros H. destruct (Hc n H) as (p & ? & ?). exists p. split; [done|]. by apply E.
  - intros n p r H. rewrite !Hn. destruct (Hw' n p r H) as [H'|H']; [|done]. destruct (Hw n p r H') as [? ?]. split; [by apply E | done].
  - intros n d H. rewrite Hn. destruct (Hg' n d H) as [H'|?]; [by apply (Hg n d) | done].
  - intros n H. rewrite !Hn. destruct (Hcl' n H) as [H'|[? ?]]; [|by auto].
    destruct (Hcl n H') as [? [?|?]]; split; auto. left. by apply E.
Qed.

Lemma attended_more s s' ts ts' :
  Attended s ts -> (forall m, nodes s' m = nodes s m) -> (forall e, e ∈ log s -> e ∈ log s') -> (forall t, t ∈ ts -> t ∈ ts') ->
  Attended s' ts'.
Proof.
  intros [Ha Hc] Hn Hl Hts. constructor.
  - intros d. unfold attended. rewrite !Hn. intros Hd.
    destruct (Ha d Hd) as [?|[H|[?|H]]]; auto.
    + right; left. apply Exists_exists in H as (t & Ht & ?). apply Exists_exists. eauto.
    + right; right; right. eapply Exists_impl; [exact H|]. intros b. by rewrite Hn.
  - intros n d. rewrite !Hn. intros Hd. destruct (Hc n d Hd) as [?|(? & [?|?])]; auto.
Qed.

Definition plain_task (t : task) : Prop := match t with Waiting _ _ _ | Closing _ _ => False | _ => True end.

Lemma orderly_spawn t s : Orderly s -> plain_task t -> Orderly (spawn t s).
Proof.
  intros H Ht. apply (orderly_further s); [done | done | apply extends_spawn | | | by left].
  - intros n p r. cbn [tasks spawn]. rewrite elem_of_app, list_elem_of_singleton. intros [?|<-]; [by left | done].
  - intros n d. cbn [tasks spawn]. rewrite elem_of_app, list_elem_of_singleton. intros [?|<-]; [by left | done].
Qed.

Lemma orderly_promise u s : Orderly s -> Orderly (snd (promise u s)).
Proof. intros H. apply (orderly_further s); [done | done | apply extends_promise | by left | by left | by left]. Qed.

Lemma orderly_settle p ok s : Orderly s -> Orderly (settle p ok s).
Proof. intros H. apply (orderly_further s); [done | done | apply extends_settle | by left | by left | by left]. Qed.

Lemma orderly_say e s :
  Orderly s -> (forall n, e = Close n -> disconnecting (nodes s n) <> None /\ connected (nodes s n) = true) -> Orderly (say e s).
Proof.
  intros H He. apply (orderly_further s); [done | done | apply extends_say | by left | by left |].
  intros n [Hn|Hn]%elem_of_cons; [right; by apply He | by left].
Qed.

Lemma orderly_call u t s : Orderly s -> (forall r, plain_task (t r)) -> Orderly (snd (call u t s)).
Proof. intros H Ht. apply (orderly_spawn _ (snd (promise u s))); [by apply orderly_promise | apply Ht]. Qed.

Lemma orderly_calls u t ds s : Orderly s -> (forall d r, plain_task (t d r)) -> Orderly (snd (calls u t ds s)).
Proof. intros H Ht. apply calls_ind; [done|]. intros s' d _ H'. by apply orderly_call. Qed.

Lemma orderly_change n f s (c := nodes s n) :
  Orderly s -> dependencies (f c) = dependencies c -> links (f c) = links c ->
  (connected (f c) = true -> exists p, connecting (f c) = Some p /\ settled s p = Some true) ->
  (connected c = true \/ disconnecting c <> None -> connected (f c) = true \/ disconnecting (f c) <> None) ->
  (disconnecting c <> None -> disconnecting (f c) <> None) ->
  (Close n ∈ log s -> disconnecting c <> None -> Closed n ∈ log s \/ connected (f c) = true) ->
  Orderly (change n f s).
Proof.
  subst c. intros [Hl Hc Hw Hg Hcl] Hdep Hlk Hcon Hwt Hdis Hcls. constructor.
  - intros a d. rewrite !nodes_change. intros H. assert (a ∈ links (nodes s d)) as H' by (case_decide; [subst; by rewrite <- Hlk | done]).
    specialize (Hl a d H'). destruct (decide (n = a)) as [<-|]; [by rewrite Hdep | done].
  - intros m. rewrite nodes_change. change (settled (change n f s)) with (settled s). case_decide; [done | apply Hc].
  - intros m p r H. destruct (Hw m p r H) as [Hs Ho]. split; [done|]. rewrite nodes_change. case_decide; [subst; auto | done].
  - intros m d H. specialize (Hg m d H). rewrite nodes_change. case_decide; [subst; auto | done].
  - intros m H. destruct (Hcl m H) as [Hd Ho]. rewrite nodes_change. case_decide; [subst; auto | done].
Qed.

Lemma attended_change n f s ts (c := nodes s n) :
  Attended s ts -> links (f c) = links c ->
  (disconnecting c <> None -> disconnecting (f c) <> None) ->
  (down c \/ ~ down (f c) \/ forall d, n ∈ links (nodes s d) -> Exists (deciding d) ts) ->
  (discarded c = true -> connected c = false ->
     disconnecting (f c) <> None \/ Exists (deciding n) ts \/ discarded (f c) = true /\ connected (f c) = false) ->
  closed_or (change n f s) ts n ->
  Attended (change n f s) ts.
Proof.
  subst c. intros [Ha Hc] Hlk Hdis Hdown Hdisc Hclosed. constructor.
  - intros d Hd. unfold attended.
    assert (links (nodes (change n f s) d) = links (nodes s d)) as Hlinks by (rewrite nodes_change; case_decide; [by subst | done]).
    rewrite Hlinks in *. destruct (Ha d Hd) as [H|[H|[[H1 H2]|H]]].
    + left. rewrite nodes_change. case_decide; [subst; auto | done].
    + by right; left.
    + rewrite nodes_change. case_decide; [subst d | auto]. destruct (Hdisc H1 H2) as [?|[?|?]]; auto.
    + apply Exists_exists in H as (b & Hb & H). destruct (decide (b = n)) as [->|Hne].
      * destruct Hdown as [?|[Hdown|Hdown]]; [done| |right; left; by apply Hdown].
        right; right; right. apply Exists_exists. exists n. split; [done|]. by rewrite nodes_change, decide_True.
      * right; right; right. apply Exists_exists. exists b. split; [done|]. by rewrite nodes_change, decide_False by done.
  - intros m. destruct (decide (n = m)) as [<-|Hne]; [done|]. intros d. rewrite nodes_change, decide_False by done. apply Hc.
Qed.

(** a change of what is not read here *)
Definition same_order (c c' : Connector) : Prop :=
  dependencies c' = dependencies c /\ links c' = links c /\ connecting c' = connecting c /\ disconnecting c' = disconnecting c /\
  discarded c' = discarded c /\ connected c' = connected c.

Lemma orderly_change_same n f s : Orderly s -> same_order (nodes s n) (f (nodes s n)) -> Orderly (change n f s).
Proof.
  intros H (Hd & Hl & Hc & Hds & Hdi & Hco). apply orderly_change; rewrite ?Hc, ?Hds, ?Hco; auto.
  - apply (o_connected _ H).
  - intros Hcl ?. by apply (o_close _ H).
Qed.

Lemma attended_change_same n f s ts : Attended s ts -> same_order (nodes s n) (f (nodes s n)) -> Attended (change n f s) ts.
Proof.
  intros H (Hd & Hl & Hc & Hds & Hdi & Hco). apply attended_change; rewrite ?Hds, ?Hco, ?Hdi; auto.
  - unfold down. rewrite Hc, Hds. destruct (decide (down (nodes s n))); unfold down in *; tauto.
  - intros d. rewrite nodes_change, decide_True, Hc, Hds, Hco by done. intros Hx. destruct (a_closed _ _ H n d Hx) as [?|?]; auto.
Qed.

Lemma attended_remove s ts i t :
  Attended s ts -> ts !! i = Some t ->
  (forall d, deciding d t -> attended s (delete i ts) d) -> (forall n d, t = Closing n d -> closed_or s (delete i ts) n) ->
  Attended s (delete i ts).
Proof.
  intros [Ha Hc] Ht Hdec Hcl.
  assert (forall x, x ∈ ts -> x = t \/ x ∈ delete i ts) as Hin.
  { intros x Hx. apply list_elem_of_lookup in Hx as [j Hj]. destruct (decide (j = i)) as [->|Hne]; [left; congruence|].
    right. rewrite delete_take_drop, elem_of_app. rewrite <- (take_drop_middle ts i t Ht) in Hj.
    assert (i < length ts) as Hlt by by eapply lookup_lt_Some.
    apply lookup_app_Some in Hj as [Hj|[Hle Hj]]; [left; by eapply list_elem_of_lookup_2|].
    rewrite length_take in *. replace (j - i `min` length ts) with (S (j - S i)) in Hj by lia. right. by eapply list_elem_of_lookup_2. }
  constructor.
  - intros d Hd. destruct (Ha d Hd) as [?|[H|?]]; [by left| |by right; right].
    apply Exists_exists in H as (x & Hx & H). destruct (Hin x Hx) as [->|Hx']; [by apply Hdec|].
    right; left. apply Exists_exists. eauto.
  - intros n d Hd. destruct (Hc n d Hd) as [?|(? & [H|?])]; auto. destruct (Hin _ H) as [<-|H']; [by apply (Hcl n d) | auto].
Qed.

Lemma delete_after {A} (ts new : list A) i t x : ts !! i = Some t -> x ∈ new -> x ∈ delete i (ts ++ new).
Proof.
  intros Ht Hx. rewrite delete_take_drop, elem_of_app. right. apply lookup_lt_Some in Ht.
  rewrite drop_app_le by lia. set_solver.
Qed.

(** *** A step keeps the order *)

Lemma after_in s s' t : after s s' -> t ∈ tasks s -> t ∈ tasks s'.
Proof. intros [ts ->] H. set_solver. Qed.

Lemma not_down_connected s n : Orderly s -> connected (nodes s n) = true -> ~ down (nodes s n).
Proof. intros H Hc [_ Hd]. destruct (o_connected _ H n Hc) as (p & Hp & _). congruence. Qed.

Lemma change_change f g n s m : nodes (change n f (change n g s)) m = nodes (change n (fun c => f (g c)) s) m.
Proof. rewrite !nodes_change. case_decide; [by rewrite decide_True | done]. Qed.

Definition fallen (d : option nat) (c : Connector) : Connector := with_connection None d false c.

(** what [undo] makes of a state *)
Lemma undo_spec n d s :
  let s' := undo n d s in
  (forall m, nodes s' m = nodes (change n (fallen (disconnecting (nodes s n))) s) m) /\ log s' = log s /\ after s s' /\ extends s s' /\
  (forall x, x ∈ dependencies (nodes s n) -> Exists (deciding x) (tasks s')) /\
  (forall t, t ∈ tasks s' -> t ∈ tasks s \/ plain_task t).
Proof.
  cbn zeta. unfold undo. set (s1 := change n _ s). set (t := fun d => Disconnecting d false).
  pose proof (calls_same Disconnection t (dependencies (nodes s n)) s1) as [Hn Hl].
  pose proof (after_calls Disconnection t (dependencies (nodes s n)) s1) as Ha.
  pose proof (extends_calls Disconnection t (dependencies (nodes s n)) s1) as He.
  pose proof (fun x => calls_called Disconnection t (dependencies (nodes s n)) s1 x) as Hcalled.
  pose proof (fun x => calls_only Disconnection t (dependencies (nodes s n)) s1 x) as Honly.
  destruct (calls Disconnection t _ s1) as [awaited s2]. cbn [fst snd] in *.
  assert (after s2 (spawn (Undoing n d awaited) s2)) as Hs by by eexists.
  split_and!.
  - intros m. cbn [nodes spawn]. by rewrite Hn.
  - exact Hl.
  - etrans; [|exact Hs]. destruct Ha as [ts Ha]. by exists ts.
  - etrans; [apply (extends_change n (fallen (disconnecting (nodes s n))))|]. etrans; [exact He | apply extends_spawn].
  - intros x Hx. destruct (Hcalled x Hx) as [r Hr]. apply Exists_exists. exists (t x r). split; [by apply (after_in s2)|]. done.
  - intros x. cbn [tasks spawn]. rewrite elem_of_app, list_elem_of_singleton. intros [H| ->]; [|by right].
    apply Honly in H as [H|(y & q & _ & ->)]; [left; exact H | by right].
Qed.

Lemma step_undo n d x s s1 :
  Orderly s -> Attended s (tasks s) -> extends s s1 -> after s s1 ->
  (forall m, nodes s1 m = nodes (change n (with_connection (connecting (nodes s n)) (Some x) (connected (nodes s n))) s) m) ->
  (forall t, t ∈ tasks s1 -> t ∈ tasks s \/ plain_task t) ->
  (forall y, Close y ∈ log s1 -> Close y ∈ log s) -> (Close n ∈ log s -> Closed n ∈ log s1) ->
  let s' := undo n d s1 in
  Orderly s' /\ Attended s' (tasks s') /\ after s s' /\ disconnecting (nodes s' n) = Some x /\ connecting (nodes s' n) = None.
Proof.
  intros Ho Ha He Haf Hn Hw Hcl Hclosed s'.
  destruct (undo_spec n d s1) as (Hn' & Hl' & Ha' & He' & Hdec & Hw'). fold s' in Hn', Hl', Ha', He', Hdec, Hw'.
  assert (nodes s1 n = with_connection (connecting (nodes s n)) (Some x) (connected (nodes s n)) (nodes s n)) as Hn1
    by (by rewrite Hn, nodes_change, decide_True).
  assert (forall m, nodes s' m = nodes (change n (fallen (Some x)) s) m) as Hnodes.
  { intros m. rewrite Hn', !nodes_change, Hn1. case_decide as Hm; [done|]. by rewrite Hn, nodes_change, decide_False. }
  assert (after s s') as Hafter by (etrans; eauto).
  split_and!.
  - assert (Orderly (change n (fallen (Some x)) (say (Closed n) s))) as H1.
    { apply orderly_change; [by apply orderly_say|done|done|done|by right|done|]. intros _ _. left. by left. }
    assert (forall t, t ∈ tasks s' -> t ∈ tasks s \/ plain_task t) as Htasks by (intros t [H|?]%Hw'; auto).
    constructor.
    + intros a e. rewrite !Hnodes. apply (o_links _ H1).
    + intros m. rewrite !Hnodes. intros H. destruct (o_connected _ H1 m H) as (p & Hp & Hs). exists p. split; [done|]. by apply He', He.
    + intros m p r H. rewrite !Hnodes. destruct (Htasks _ H) as [H'|[]]. destruct (o_waiting _ H1 m p r H') as [Hs ?]. split; [by apply He', He | done].
    + intros m e H. rewrite !Hnodes. destruct (Htasks _ H) as [H'|[]]. by apply (o_closing _ H1 m e).
    + intros m H. rewrite !Hnodes. rewrite Hl' in *. assert (Close m ∈ log s) as H' by by apply Hcl.
      destruct (o_close _ H1 m) as [Hd Hor]; [by right|]. split; [exact Hd|]. destruct Hor as [Hor|?]; [|by right]. left.
      apply elem_of_cons in Hor as [[= ->]|Hor]; [by apply Hclosed | by apply He].
  - apply (attended_more (change n (fallen (Some x)) s) s' (tasks s')); [|done| |done].
    + apply attended_change.
      * apply (attended_more s s (tasks s)); [done | done | done|]. intros t. by apply after_in.
      * done.
      * done.
      * right; right. intros e Hin. apply Hdec. rewrite Hn1. cbn. by apply (o_links _ Ho).
      * by left.
      * intros e _. left. by rewrite nodes_change, decide_True.
    + intros e H. rewrite Hl'. by apply He.
  - exact Hafter.
  - by rewrite Hnodes, nodes_change, decide_True.
  - by rewrite Hnodes, nodes_change, decide_True.
Qed.

Lemma tasks_spawn t s x : x ∈ tasks (spawn t s) <-> x ∈ tasks s \/ x = t.
Proof. cbn [tasks spawn]. by rewrite elem_of_app, list_elem_of_singleton. Qed.

(** a step that leaves connectors as they were *)
Lemma attended_still s s' :
  Attended s (tasks s) -> nodes s' = nodes s -> (forall e, e ∈ log s -> e ∈ log s') -> after s s' -> Attended s' (tasks s').
Proof. intros H Hn Hl Ha. apply (attended_more s s' (tasks s)); [done | by rewrite Hn | done|]. intros t. by apply after_in. Qed.

Lemma step_tear n pending i r s (s' := tear n pending i r s) :
  Orderly s -> Attended s (tasks s) ->
  (pending = false -> i = false /\ (connected (nodes s n) = true \/ disconnecting (nodes s n) <> None)) ->
  Orderly s' /\ Attended s' (tasks s') /\ after s s' /\ forall ts, attended s' ts n.
Proof.
  intros Ho Ha Hp. subst s'. unfold tear. destruct (disconnecting (nodes s n)) as [d|] eqn:Hd.
  { split_and!; [by apply orderly_spawn | by apply (attended_still s) ; [done | done | done | by eexists] | by eexists |].
    intros ts. left. cbn [nodes spawn]. by rewrite Hd. }
  destruct (linked _ _ && _) eqn:Hlinked.
  { apply andb_true_iff in Hlinked as [Hl _]. split_and!; [by apply orderly_settle | apply (attended_still s); [done | done | done | exact (after_refl s)] | exact (after_refl s)|].
    intros ts. right; right; right. unfold linked in Hl. apply existsb_exists in Hl as (a & Hin & Hc).
    apply Exists_exists. exists a. split; [by apply list_elem_of_In|]. exact (not_down_connected s a Ho Hc). }
  cbn [promise]. set (d := length (promises s)). set (s0 := snd (promise (Disconnection n) s)).
  set (g := with_connection (connecting (nodes s n)) (Some d) (connected (nodes s n))).
  change (mkState (nodes s) (count s) (promises s ++ [(Disconnection n, None)]) (tasks s) (log s)) with s0.
  set (s1 := spawn (Following r d) (change n g s0)).
  assert (extends s s1) as E1 by (etrans; [apply (extends_promise (Disconnection n))|]; etrans; [apply extends_change | apply extends_spawn]).
  assert (after s s1) as A1 by by eexists.
  destruct pending.
  - destruct (step_undo n d d s s1) as (H1 & H2 & H3 & H4 & _); try done.
    + intros t [H| ->]%tasks_spawn; [by left | by right].
    + intros Hc. by destruct (o_close _ Ho n Hc) as [? _].
    + split_and!; try done. intros ts. left. by rewrite H4.
  - destruct (Hp eq_refl) as [_ [Hc|?]]; [|done].
    assert (Orderly s1) as O1.
    { apply orderly_spawn; [|done]. apply orderly_change; cbn [g with_connection dependencies links connected connecting disconnecting];
        [by apply orderly_promise | done | done | | by auto | done | by auto].
      intros Hc'. destruct (o_connected _ Ho n Hc') as (p & ? & ?). exists p. split; [done|]. by apply (extends_promise (Disconnection n) s). }
    assert (nodes s1 n = g (nodes s n)) as Hn1 by (cbn [s1 nodes spawn]; by rewrite nodes_change, decide_True).
    split_and!.
    + apply (orderly_further (say (Close n) s1)); [|done | apply extends_spawn | | | by left].
      * apply orderly_say; [done|]. intros m [= <-]. by rewrite Hn1.
      * intros m q x [H|H]%tasks_spawn; [by left | done].
      * intros m e [H|[= -> ->]]%tasks_spawn; [by left|]. right. change (nodes (say (Close n) s1)) with (nodes s1). by rewrite Hn1.
    + apply (attended_more (change n g s) _ (tasks s ++ [Following r d; Closing n d])).
      * apply attended_change; try done.
        -- apply (attended_more s s (tasks s)); [done | done | done | set_solver].
        -- right; left. intros [_ Hcn]. cbn in Hcn. destruct (o_connected _ Ho n Hc) as (p & Hp' & _). congruence.
        -- intros _ ?. by left.
        -- intros e. rewrite nodes_change, decide_True by done. intros [= <-]. right. split; [exact Hc|]. left. set_solver.
      * done.
      * by right.
      * intros t. cbn. set_solver.
    + etrans; [exact A1|]. by eexists.
    + intros ts. left. change (disconnecting (nodes s1 n) <> None). by rewrite Hn1.
Qed.

Lemma step_drop n r s :
  Orderly s -> Attended s (tasks (drop_ n r s)) -> Orderly (drop_ n r s) /\ Attended (drop_ n r s) (tasks (drop_ n r s)).
Proof.
  intros Ho Ha. set (s1 := change n (with_discarded false) s).
  assert (Orderly s1) as H1.
  { apply orderly_change; try done; [apply (o_connected _ Ho)|]. intros Hc ?. by apply (o_close _ Ho). }
  split; [by apply orderly_spawn; [apply orderly_call|]|].
  apply (attended_more s1 _ (tasks (drop_ n r s))); [|done | done | done].
  apply attended_change; try done.
  - destruct (decide (down (nodes s n))); auto.
  - intros _ _. right; left. apply Exists_exists. exists (Disconnecting n false (length (promises s))). split; [|done]. cbn. set_solver.
  - intros d. rewrite nodes_change, decide_True by done. apply (a_closed _ _ Ha n).
Qed.

Lemma after_drop n r s : after s (drop_ n r s).
Proof. eexists. cbn. by rewrite <- app_assoc. Qed.

Lemma drop_deciding n r s : Exists (deciding n) (tasks (drop_ n r s)).
Proof. apply Exists_exists. exists (Disconnecting n false (length (promises s))). split; [|done]. cbn. set_solver. Qed.

Lemma step_connect n r s (s' := connect n r s) :
  Orderly s -> Attended s (tasks s) -> (connecting (nodes s n) = None -> disconnecting (nodes s n) = None) ->
  Orderly s' /\ Attended s' (tasks s') /\ after s s'.
Proof.
  intros Ho Ha Hn. subst s'. unfold connect. destruct (connecting (nodes s n)) as [p|] eqn:Hp.
  { split_and!; [by apply orderly_spawn | apply (attended_still s); [done | done | done | by eexists] | by eexists]. }
  specialize (Hn eq_refl). assert (connected (nodes s n) = false) as Hc.
  { destruct (connected (nodes s n)) eqn:Hc; [|done]. destruct (o_connected _ Ho n Hc) as (q & ? & _). congruence. }
  cbn [promise]. set (s0 := snd (promise (Connection n) s)).
  change (mkState (nodes s) (count s) (promises s ++ [(Connection n, None)]) (tasks s) (log s)) with s0.
  set (p := length (promises s)). set (g := with_connection (Some p) None (connected (nodes s n))). set (s1 := change n g s0).
  assert (Orderly s1) as O1.
  { apply orderly_change; cbn [g with_connection dependencies links connected connecting disconnecting];
      [by apply orderly_promise | done | done | by rewrite Hc | | change (nodes s0) with (nodes s); by rewrite Hn | ]; change (nodes s0) with (nodes s); rewrite Hc, Hn; [by intros [?|?] | done]. }
  set (t := Connecting). pose proof (orderly_calls Connection t (dependencies (nodes s n)) s1 O1 (fun _ _ => I)) as O2.
  pose proof (calls_same Connection t (dependencies (nodes s n)) s1) as [Hn2 Hl2].
  pose proof (after_calls Connection t (dependencies (nodes s n)) s1) as A2.
  destruct (calls Connection t _ s1) as [awaited s2]. cbn [fst snd] in *.
  assert (after s (spawn (Landing n p r) (spawn (Working n p awaited) s2))) as A3.
  { etrans; [exact A2|]. etrans; apply after_spawn. }
  split_and!; [do 2 (apply orderly_spawn; [|done]); exact O2 | | exact A3].
  apply (attended_more (change n g s) _ (tasks (spawn (Landing n p r) (spawn (Working n p awaited) s2)))); [| |by intros e; cbn; rewrite Hl2 |done].
  - apply attended_change; try done.
    + apply (attended_more s s (tasks s)); [done | done | done|]. intros x. by apply after_in.
    + right; left. by intros [? _].
    + intros ? ?. right; right. auto.
    + intros d. rewrite nodes_change, decide_True; done.
  - intros m. cbn [nodes spawn]. by rewrite Hn2.
Qed.

Lemma step_land n p r s s' :
  Orderly s -> Attended s (tasks s) -> land n p r s = Some s' -> Orderly s' /\ Attended s' (tasks s') /\ after s s'.
Proof.
  intros Ho Ha Hl. unfold land in Hl. destruct (settled s p) as [[]|] eqn:Hs; [| |done]; injection Hl as <-.
  2: { split_and!; [by apply orderly_spawn; [apply orderly_call|] | apply (attended_still s); [done | done | done|] |];
       eexists; cbn; by rewrite <- app_assoc. }
  set (s1 := if bool_decide _ then _ else s).
  assert (after s s1) as A1 by (subst s1; case_bool_decide; exact (after_refl s)).
  assert (Orderly s1) as O1.
  { subst s1. case_bool_decide as Hp; [|done]. apply orderly_change; try done.
    - intros _. by exists p.
    - by left.
    - intros _ ?. by right. }
  assert (forall ts, Attended s ts -> (discarded (nodes s n) = true -> Exists (deciding n) ts) -> Attended s1 ts) as Hgen.
  { intros ts Hts Hd. subst s1. case_bool_decide as Hp; [|done]. apply attended_change; try done.
    - destruct (decide (down (nodes s n))); auto.
    - intros ? _. right; left. by apply Hd.
    - intros d. rewrite nodes_change, decide_True by done. cbn. intros Hdis. right. split; [done|].
      destruct (a_closed _ _ Hts n d Hdis) as [?|[_ ?]]; [congruence | done]. }
  destruct (discarded (nodes s n)) eqn:Hd.
  - destruct (step_drop n (Some r) s1 O1) as [H1 H2].
    + apply Hgen; [|intros _; apply drop_deciding].
      apply (attended_more s s (tasks s)); [done | done | done|]. intros x Hx. apply (after_in s1); [apply after_drop | by apply (after_in s)].
    + split_and!; [done | done|]. etrans; [exact A1 | apply after_drop].
  - split_and!; [by apply orderly_settle | | exact A1]. apply (attended_more s1 _ (tasks s1)); [|done | done | done].
    apply Hgen; [|done]. apply (attended_more s s (tasks s)); [done | done | done|]. intros x. by apply after_in.
Qed.

(** what holds of a task once it ran *)
Definition handed (s : State) (t : task) (ts : list task) : Prop :=
  (forall d, deciding d t -> attended s ts d) /\ (forall n d, t = Closing n d -> closed_or s ts n).

Lemma handed_other s t ts : (match t with Disconnecting _ _ _ | Waiting _ _ _ | Closing _ _ => False | _ => True end) -> handed s t ts.
Proof. intros Ht. split; [intros d Hd; by destruct t | intros n d ->; done]. Qed.

Lemma step_still t s s' :
  Orderly s -> Attended s (tasks s) -> Orderly s' -> nodes s' = nodes s -> (forall e, e ∈ log s -> e ∈ log s') -> after s s' ->
  (match t with Disconnecting _ _ _ | Waiting _ _ _ | Closing _ _ => False | _ => True end) ->
  Orderly s' /\ Attended s' (tasks s') /\ after s s' /\ forall i, tasks s !! i = Some t -> handed s' t (delete i (tasks s')).
Proof.
  intros Ho Ha Ho' Hn Hl Hafter Ht. split_and!; [done | by apply (attended_still s) | done|].
  intros i _. by apply handed_other.
Qed.

Lemma step_disconnect n i r s (s' := disconnect n i r s) :
  Orderly s -> Attended s (tasks s) ->
  Orderly s' /\ Attended s' (tasks s') /\ after s s' /\
  forall j, tasks s !! j = Some (Disconnecting n i r) -> handed s' (Disconnecting n i r) (delete j (tasks s')).
Proof.
  intros Ho Ha. subst s'. unfold disconnect.
  assert (forall pending, (pending = false -> i = false /\ connected (nodes s n) = true) ->
    let s' := tear n pending i r s in Orderly s' /\ Attended s' (tasks s') /\ after s s' /\
    forall j, tasks s !! j = Some (Disconnecting n i r) -> handed s' (Disconnecting n i r) (delete j (tasks s'))) as Htear.
  { intros pending Hp. destruct (step_tear n pending i r s Ho Ha) as (H1 & H2 & H3 & H4).
    - intros Hf. destruct (Hp Hf). auto.
    - split_and!; try done. intros j _. split; [|done]. intros d <-. apply H4. }
  destruct (i || negb (connected (nodes s n))) eqn:Hpending; [by apply Htear|].
  apply orb_false_iff in Hpending as [-> Hc]. apply negb_false_iff in Hc.
  destruct (connecting (nodes s n)) as [p|] eqn:Hp; [|by apply Htear].
  assert (after s (spawn (Waiting n p r) s)) as Hafter by apply after_spawn. split_and!.
  - apply (orderly_further s); [done | done | apply extends_spawn | | | by left].
    + intros m q x [H|[= -> -> ->]]%tasks_spawn; [by left|]. right. split; [|by left].
      destruct (o_connected _ Ho n Hc) as (p' & Hp' & Hs). by assert (p' = p) as -> by congruence.
    + intros m e [H|H]%tasks_spawn; [by left | done].
  - by apply (attended_still s).
  - done.
  - intros j Hj. split; [|done]. intros d <-. right; left. apply Exists_exists. exists (Waiting n p r). split; [|done].
    apply (delete_after _ _ _ _ _ Hj). set_solver.
Qed.

Lemma step_close n d ok s (s' := close n d ok s) :
  Orderly s -> Attended s (tasks s) -> Closing n d ∈ tasks s ->
  Orderly s' /\ Attended s' (tasks s') /\ after s s' /\
  forall i, tasks s !! i = Some (Closing n d) -> handed s' (Closing n d) (delete i (tasks s')).
Proof.
  intros Ho Ha Hin. subst s'. unfold close. pose proof (o_closing _ Ho n d Hin) as Hd.
  destruct (disconnecting (nodes s n)) as [x|] eqn:Hx; [|done]. destruct ok.
  - destruct (step_undo n d x s (say (Closed n) s)) as (H1 & H2 & H3 & H4 & H5); try done.
    + apply extends_say.
    + exact (after_refl s).
    + intros m. rewrite nodes_change. case_decide; [|done]. subst. cbn. rewrite <- Hx. by destruct (nodes s m).
    + by left.
    + by intros y [?|?]%elem_of_cons.
    + by left.
    + split_and!; try done. intros i _. split; [done|]. intros m e [= <- <-] y _. by left.
  - split_and!; [by apply orderly_settle, orderly_say | apply (attended_still s); [done | done | by right | exact (after_refl s)] | exact (after_refl s)|].
    intros i _. split; [done|]. intros m e [= <- <-] y Hy. destruct (a_closed _ _ Ha n y Hy) as [?|[? _]]; [by left|].
    right. split; [done|]. right. by left.
Qed.

Lemma step_run t ok s s' :
  Orderly s -> Attended s (tasks s) -> t ∈ tasks s ->
  (forall n r, t = Connecting n r -> connecting (nodes s n) = None -> disconnecting (nodes s n) = None) ->
  run t ok s = Some s' ->
  Orderly s' /\ Attended s' (tasks s') /\ after s s' /\ forall i, tasks s !! i = Some t -> handed s' t (delete i (tasks s')).
Proof.
  intros Ho Ha Hin Hanew Hrun. destruct t; cbn [run] in Hrun.
  - injection Hrun as <-. destruct (step_connect n r s Ho Ha) as (H1 & H2 & H3); [by apply (Hanew n r)|].
    split_and!; try done; intros i _; by apply handed_other.
  - unfold work in Hrun. destruct (all s awaited) as [[]|]; [| |done]; injection Hrun as <-; apply step_still; try done; try exact (after_refl s).
    + apply orderly_spawn; [by apply orderly_say|done].
    + by right.
    + exact (after_spawn (Opening n p) (say (Open n awaited.*1) s)).
    + by apply orderly_settle.
  - injection Hrun as <-. unfold opened. destruct ok; apply step_still; try done; try exact (after_refl s).
    + apply orderly_settle. by apply orderly_say.
    + by right.
    + by apply orderly_settle.
  - destruct (step_land n p r s s' Ho Ha Hrun) as (H1 & H2 & H3). split_and!; try done; intros i _; by apply handed_other.
  - destruct (settled s d); [|done]. injection Hrun as <-. apply step_still; try done; try exact (after_refl s). by apply orderly_settle.
  - destruct (settled s d); [|done]. injection Hrun as <-. destruct r; apply step_still; try done; try exact (after_refl s). by apply orderly_settle.
  - injection Hrun as <-. by apply step_disconnect.
  - destruct (o_waiting _ Ho n p r Hin) as [Hs Hor]. unfold waited in Hrun. rewrite Hs in Hrun. injection Hrun as <-.
    destruct (step_tear n false false r s Ho Ha) as (H1 & H2 & H3 & H4); [auto|].
    split_and!; try done. intros i _. split; [|done]. intros d <-. apply H4.
  - injection Hrun as <-. by apply step_close.
  - unfold undone in Hrun. destruct (all s awaited) as [[]|]; [| |done]; injection Hrun as <-; apply step_still; try done; try exact (after_refl s).
    + by apply orderly_spawn.
    + apply after_spawn.
    + by apply orderly_settle.
  - injection Hrun as <-. unfold dispose. destruct ok; [|apply step_still; try done; try exact (after_refl s); by apply orderly_settle].
    assert (Orderly (change n with_disposed s)) as H1 by by apply orderly_change_same.
    split_and!; [by apply orderly_settle, orderly_say | | exact (after_refl s) | intros i _; by apply handed_other].
    apply (attended_more (change n with_disposed s) _ (tasks s)); [by apply attended_change_same | done | by right | done].
  - destruct (settled s p) as [b|]; [|done]. injection Hrun as <-. apply step_still; try done; try exact (after_refl s). by apply orderly_settle.
  - destruct (settled s d) as [[]|]; [| |done]; injection Hrun as <-; apply step_still; try done; try exact (after_refl s).
    + by apply orderly_spawn.
    + apply after_spawn.
    + by apply orderly_settle.
Qed.

(** connectors of which nothing changed but what they depend on, which is more, and whether they are halted *)
Record alike (c c' : Connector) : Prop := {
  al_dependencies : dependencies c ⊆ dependencies c';
  al_links : links c' = links c;
  al_connecting : connecting c' = connecting c;
  al_disconnecting : disconnecting c' = disconnecting c;
  al_discarded : discarded c' = discarded c;
  al_connected : connected c' = connected c
}.

Definition alike_all (s s' : State) : Prop :=
  (forall m, alike (nodes s m) (nodes s' m)) /\ promises s' = promises s /\ tasks s' = tasks s /\ log s' = log s.

Lemma same_alike s s' :
  same_but_halted (nodes s) (nodes s') -> promises s' = promises s -> tasks s' = tasks s -> log s' = log s -> alike_all s s'.
Proof. intros H ? ? ?. split; [|done]. intros m. destruct (same_fields _ _ m H) as (Hd & ? & ? & ? & ? & ?). constructor; auto. by rewrite Hd. Qed.

Lemma orderly_alike s s' : alike_all s s' -> Orderly s -> Orderly s'.
Proof.
  intros (Hn & Hp & Ht & Hl) [Ol Oc Ow Og Ocl]. constructor.
  - intros a d. rewrite (al_links _ _ (Hn d)). intros H%Ol. by apply (al_dependencies _ _ (Hn a)).
  - intros n. rewrite (al_connected _ _ (Hn n)), (al_connecting _ _ (Hn n)). unfold settled. rewrite Hp. apply Oc.
  - intros n p r. rewrite Ht, (al_connected _ _ (Hn n)), (al_disconnecting _ _ (Hn n)). unfold settled. rewrite Hp. apply Ow.
  - intros n d. rewrite Ht, (al_disconnecting _ _ (Hn n)). apply Og.
  - intros n. rewrite Hl, (al_connected _ _ (Hn n)), (al_disconnecting _ _ (Hn n)). apply Ocl.
Qed.

Lemma down_alike c c' : alike c c' -> down c' <-> down c.
Proof. intros [? ? Hc Hd ? ?]. unfold down. by rewrite Hc, Hd. Qed.

Lemma attended_alike s s' ts : alike_all s s' -> Attended s ts -> Attended s' ts.
Proof.
  intros (Hn & Hp & Ht & Hl) [Al Ac]. constructor.
  - intros d. unfold attended. rewrite (al_links _ _ (Hn d)), (al_disconnecting _ _ (Hn d)), (al_discarded _ _ (Hn d)), (al_connected _ _ (Hn d)).
    intros Hd. destruct (Al d Hd) as [?|[?|[?|H]]]; auto. right; right; right. eapply Exists_impl; [exact H|].
    intros b. by rewrite (down_alike _ _ (Hn b)).
  - intros n d. rewrite (al_disconnecting _ _ (Hn n)), (al_connecting _ _ (Hn n)), (al_connected _ _ (Hn n)), Hl. apply Ac.
Qed.

Definition Kept (s : State) : Prop := Orderly s /\ Attended s (tasks s).

Lemma kept_alike s s' : alike_all s s' -> Kept s -> Kept s'.
Proof. intros H [Ho Ha]. split; [by apply (orderly_alike s)|]. pose proof H as (_ & _ & -> & _). by apply (attended_alike s). Qed.

Lemma kept_walk f n s : Kept s -> same_but_halted (nodes s) (walked (walk f n s)) -> Kept (walk_over f n s).
Proof. intros H Hs. apply (kept_alike s); [|done]. by apply same_alike. Qed.

Lemma kept_with_dependency a d s : Kept s -> Kept (change a (with_dependency d) s).
Proof.
  intros H. apply (kept_alike s); [|done]. split; [|done]. intros m. rewrite nodes_change. case_decide; [subst|by constructor].
  constructor; try done. cbn. set_solver.
Qed.

(** a connector is linked to another it is a dependency of, which is not down *)
Lemma orderly_with_link a d s : Orderly s -> d ∈ dependencies (nodes s a) -> Orderly (change d (with_link a) s).
Proof.
  intros [Ol Oc Ow Og Ocl] Hd.
  assert (forall m, connecting (nodes (change d (with_link a) s) m) = connecting (nodes s m) /\
    disconnecting (nodes (change d (with_link a) s) m) = disconnecting (nodes s m) /\
    connected (nodes (change d (with_link a) s) m) = connected (nodes s m) /\
    dependencies (nodes (change d (with_link a) s) m) = dependencies (nodes s m)) as Hf
    by (intros m; rewrite nodes_change; case_decide; [by subst | done]).
  constructor.
  - intros b e. rewrite nodes_change. destruct (Hf b) as (_ & _ & _ & ->). case_decide; [subst e|apply Ol].
    cbn [with_link links]. intros [?|<-%list_elem_of_singleton]%elem_of_app; [by apply Ol | done].
  - intros n. destruct (Hf n) as (-> & _ & -> & _). apply Oc.
  - intros n p r. destruct (Hf n) as (_ & -> & -> & _). apply Ow.
  - intros n e. destruct (Hf n) as (_ & -> & _). apply Og.
  - intros n. destruct (Hf n) as (_ & -> & -> & _). apply Ocl.
Qed.

Lemma attended_with_link a d s ts :
  Attended s ts -> ~ down (nodes s a) \/ Exists (deciding d) ts \/ discarded (nodes s d) = true /\ connected (nodes s d) = false ->
  Attended (change d (with_link a) s) ts.
Proof.
  intros [Al Ac] Hd.
  assert (forall m, down (nodes (change d (with_link a) s) m) <-> down (nodes s m)) as Hdown
    by (intros m; rewrite nodes_change; case_decide; [by subst | done]).
  constructor.
  - intros e He. destruct (decide (d = e)) as [<-|Hne].
    + destruct Hd as [Hd|[Hd|Hd]].
      * right; right; right. apply Exists_exists. exists a. split; [rewrite nodes_change, decide_True by done; cbn; set_solver|]. by rewrite Hdown.
      * by right; left.
      * right; right; left. by rewrite nodes_change, decide_True.
    + unfold attended. rewrite nodes_change, decide_False in * by done. destruct (Al e He) as [?|[?|[?|H]]]; auto.
      right; right; right. eapply Exists_impl; [exact H|]. intros b. by rewrite Hdown.
  - intros n e. rewrite nodes_change. case_decide; [subst|]; apply Ac.
Qed.

Lemma kept_discarded d s ts : Orderly s -> Attended s ts ->
  Orderly (change d (with_discarded true) s) /\ Attended (change d (with_discarded true) s) ts.
Proof.
  intros Ho Ha. split.
  - apply orderly_change; try done; [apply (o_connected _ Ho)|]. intros Hc ?. by apply (o_close _ Ho).
  - apply attended_change; try done.
    + destruct (decide (down (nodes s d))); auto.
    + intros _ ?. right; right. auto.
    + intros e. rewrite nodes_change, decide_True by done. apply (a_closed _ _ Ha d).
Qed.

Lemma kept_depends_one a d s : Kept s -> Kept (depends_one a d s).
Proof.
  intros H. apply (kept_with_dependency a d) in H. unfold depends_one. set (sA := change a (with_dependency d) s) in *.
  assert (d ∈ dependencies (nodes sA a)) as Hin by (unfold sA; rewrite nodes_change, decide_True by done; cbn; set_solver).
  destruct H as [Ho Ha]. set (s1 := change d (with_link a) sA).
  assert (forall m, nodes (change d (with_discarded true) s1) m = nodes (change d (with_link a) (change d (with_discarded true) sA)) m) as Hcomm
    by (intros m; unfold s1; rewrite !nodes_change; destruct (decide (d = m)); by rewrite ?(decide_True _ _ (eq_refl d))).
  assert (Kept (match disconnecting (nodes s1 a) with Some _ => discard d s1 | None => s1 end)) as H2.
  { assert (disconnecting (nodes s1 a) = disconnecting (nodes sA a)) as -> by (unfold s1; rewrite nodes_change; case_decide; [by subst | done]).
    destruct (disconnecting (nodes sA a)) as [x|] eqn:Hx.
    2: { split; [by apply orderly_with_link|]. apply attended_with_link; [exact Ha|]. left. by intros [? _]. }
    set (s2 := change d (with_discarded true) s1). unfold discard. fold s2.
    assert (forall ts, Attended sA ts -> Exists (deciding d) ts \/ connected (nodes sA d) = false -> Attended s2 ts) as Hatt.
    { intros ts Hts Hor. apply (attended_more (change d (with_link a) (change d (with_discarded true) sA)) s2 ts); [|done | done | done].
      apply attended_with_link; [by apply kept_discarded|]. right. destruct Hor as [?|?]; [by left|]. right.
      by rewrite nodes_change, decide_True. }
    assert (Orderly s2) as O2.
    { apply (orderly_further (change d (with_link a) (change d (with_discarded true) sA))); [|done | by apply extends_of | by left | by left | by left].
      apply orderly_with_link; [by apply (kept_discarded d sA (tasks sA))|]. rewrite nodes_change. case_decide; [by subst | done]. }
    destruct (connecting (nodes s2 d)) as [p|] eqn:Hp.
    - destruct (step_drop d None s2 O2) as [H3 H4]; [|by split].
      apply Hatt; [|left; apply drop_deciding].
      apply (attended_more sA sA (tasks sA)); [done | done | done|]. intros t. apply (after_in s2), after_drop.
    - split; [done|]. apply Hatt; [done|]. right. destruct (connected (nodes sA d)) eqn:Hc; [|done].
      destruct (o_connected _ Ho d Hc) as (p & Hp' & _). unfold s2, s1 in Hp.
      rewrite change_change, nodes_change, decide_True in Hp by done. change (connecting (nodes sA d) = None) in Hp. congruence. }
  revert H2. generalize (match disconnecting (nodes s1 a) with Some _ => discard d s1 | None => s1 end). intros s2 H2.
  destruct (halted (nodes s2 a)); [|done]. apply kept_walk; [done|]. by apply halt_same.
Qed.

Lemma kept_call u t s : Kept s -> (forall r, plain_task (t r)) -> Kept (snd (call u t s)).
Proof.
  intros [Ho Ha] Ht. split; [by apply orderly_call|].
  apply (attended_more s _ (tasks s)); [done | done | done|]. intros x Hx. cbn. set_solver.
Qed.

Lemma kept_act x s s' : Kept s -> anew x s -> act x s = Some s' -> Kept s'.
Proof.
  intros H Hanew Hact. destruct x; cbn [act] in Hact.
  - apply bind_Some in Hact as (t & Ht & Hact). apply bind_Some in Hact as (s1 & Hrun & [= <-]).
    destruct H as [Ho Ha]. destruct (step_run t ok s s1) as (H1 & H2 & [ts Hts] & H4); try done.
    + by eapply list_elem_of_lookup_2.
    + intros n r ->. by apply (Hanew i ok n r).
    + destruct (H4 i Ht) as [Hd Hc]. assert (tasks s1 !! i = Some t) as Ht1 by (rewrite Hts; by apply lookup_app_l_Some).
      split.
      * destruct H1 as [Ol Oc Ow Og Ocl]. constructor; try done.
        -- intros n p r Hin. apply (Ow n p r). by apply list_elem_of_delete_inv in Hin.
        -- intros n d Hin. apply (Og n d). by apply list_elem_of_delete_inv in Hin.
      * apply (attended_more s1 _ (delete i (tasks s1))); [by eapply attended_remove | done | done | done].
  - injection Hact as <-. apply (kept_alike s); [|done]. by apply same_alike.
  - unfold depends in Hact. destruct ds as [|d ds]; [done|]. destruct ds as [|d' ds].
    + injection Hact as <-. by apply kept_depends_one.
    + cbn [construct] in Hact. injection Hact as <-. apply kept_depends_one.
      assert (forall s1 e, Kept s1 -> Kept (depends_one e (count s) (change a (with_dependency e) s1))) as Hstep
        by (intros s1 e H1; apply kept_depends_one; by apply kept_with_dependency).
      apply (foldl_keeps Kept); [exact Hstep|]. apply Hstep, Hstep. apply (kept_alike s); [|done]. by apply same_alike.
  - injection Hact as <-. by apply kept_call.
  - injection Hact as <-. by apply kept_call.
  - injection Hact as <-. cbn. apply (kept_call (Connection n) (Reconnecting n _) (snd (disconnect_ n false s))); [|done]. by apply kept_call.
  - injection Hact as <-. apply kept_walk; [done|]. by apply halt_same.
  - injection Hact as <-. apply kept_walk; [done|]. by apply restore_same.
Qed.

(** a schedule that is followed where every connection is begun anew *)
Definition anewb (x : action) (s : State) : bool :=
  match x with
  | Run i _ =>
      match tasks s !! i with
      | Some (Connecting n _) => bool_decide (is_Some (connecting (nodes s n))) || bool_decide (disconnecting (nodes s n) = None)
      | _ => true
      end
  | _ => true
  end.

Lemma anewb_spec x s : anewb x s = true -> anew x s.
Proof.
  intros H i ok n r -> Ht Hc. cbn [anewb] in H. rewrite Ht, Hc in H. apply orb_true_iff in H as [H|H].
  - apply bool_decide_eq_true in H. by apply is_Some_None in H.
  - by apply bool_decide_eq_true in H.
Qed.

Fixpoint follow (xs : list action) (s : State) : option State :=
  match xs with [] => Some s | x :: xs => if anewb x s then s ← act x s; follow xs s else None end.

Lemma follow_reachable xs s s' : reachable anew s -> follow xs s = Some s' -> reachable anew s'.
Proof.
  revert s. induction xs as [|x xs IH]; intros s Hs H; cbn [follow] in H; [by injection H as <-|].
  destruct (anewb x s) eqn:Hx; [|done]. apply bind_Some in H as (s1 & H1 & H). apply (IH s1); [|done].
  eapply reachable_act; [exact Hs | by apply anewb_spec | exact H1].
Qed.

(** *** Walks *)

Section walks.
(** the connectors there are, which depend on one another *)
Context (cs : nat -> Connector) (total : nat).
Context (within : forall m d, m < total -> d ∈ dependencies (cs m) -> d < total).

Definition leads (a d : nat) : Prop := d ∈ dependencies (cs a).

(** a walk that can go on *)
Record Going (w : Walk) : Prop := {
  g_same : same_but_halted cs (walked w);
  g_once : NoDup (visited w);
  g_total : forall m, m ∈ visited w -> m < total
}.

Lemma going_dependencies w m : Going w -> dependencies (walked w m) = dependencies (cs m).
Proof. intros H. by destruct (same_fields _ _ m (g_same _ H)) as [-> _]. Qed.

Lemma going_length w n : Going w -> n < total -> n ∉ visited w -> S (length (visited w)) <= total.
Proof.
  intros [_ Hnd Ht] Hn Hv. rewrite <- (length_seq total 0). change (S (length (visited w))) with (length (n :: visited w)).
  apply submseteq_length, NoDup_submseteq; [by constructor|]. intros m [->|Hm]%elem_of_cons; apply elem_of_seq; [lia|].
  specialize (Ht m Hm). lia.
Qed.

Lemma going_visit w n : Going w -> n < total -> n ∉ visited w -> Going (visit n w).
Proof.
  intros [Hs Hnd Ht] Hn Hv. constructor; cbn; [done| |].
  - apply NoDup_app. split; [done|]. split; [set_solver | apply NoDup_singleton].
  - intros m [?| ->%list_elem_of_singleton]%elem_of_app; auto.
Qed.

Lemma pause_visited n w : visited (pause n w) = visited w.
Proof. unfold pause. by destruct (halted (walked w n)). Qed.

Lemma unpause_visited n w : visited (unpause n w) = visited w.
Proof. unfold unpause. by destruct (halted (walked w n)). Qed.

Lemma going_pause n w : Going w -> Going (pause n w).
Proof. intros [Hs Hnd Ht]. constructor; rewrite ?pause_visited; try done. by apply pause_same. Qed.

Lemma going_unpause n w : Going w -> Going (unpause n w).
Proof. intros [Hs Hnd Ht]. constructor; rewrite ?unpause_visited; try done. by apply unpause_same. Qed.

(** where a walk has been, having entered some connectors of what it was led to *)
Record walked_to (w w' : Walk) (from : nat -> Prop) : Prop := {
  w_going : Going w';
  w_kept : visited w ⊆ visited w';
  w_closed : forall m d, m ∈ visited w' -> m ∉ visited w -> leads m d -> d ∈ visited w';
  w_from : forall m, m ∈ visited w' -> m ∈ visited w \/ exists n, from n /\ rtc leads n m
}.

Section walk.
Context (f : nat -> Walk -> Walk) (bound : nat).
(** what one connector of the list is walked to by, and what is kept of a state of the walk *)
Context (allowed : nat -> Prop) (keeps : Walk -> Prop).
Context (step : forall n w, allowed n -> Going w -> keeps w -> bound + length (visited w) > total ->
  walked_to w (f n w) (eq n) /\ n ∈ visited (f n w) /\ keeps (f n w)).

Lemma walk_list ds w :
  (forall d, d ∈ ds -> allowed d) -> Going w -> keeps w -> bound + length (visited w) > total ->
  let w' := foldl (fun w d => f d w) w ds in
  walked_to w w' (fun d => d ∈ ds) /\ (forall d, d ∈ ds -> d ∈ visited w') /\ keeps w'.
Proof.
  revert w. induction ds as [|d ds IH]; intros w Hds Hg Hk Hb; cbn [foldl].
  { split_and!; [|by intros d ?%elem_of_nil|done]. constructor; [done | done | done | by left]. }
  destruct (step d w) as ([Hg1 Hkept Hcl Hfr] & Hin & Hk1); [apply Hds; by left | done | done | done|].
  assert (length (visited w) <= length (visited (f d w))) as Hlen
    by (apply submseteq_length, NoDup_submseteq; [apply (g_once _ Hg) | exact Hkept]).
  destruct (IH (f d w)) as ([Hg2 Hkept2 Hcl2 Hfr2] & Hin2 & Hk2); [intros; apply Hds; by right | done | done | lia|].
  split_and!; [|intros e [->|He]%elem_of_cons; auto|done]. constructor; [done | set_solver | |].
  - intros m e Hm Hn He. destruct (decide (m ∈ visited (f d w))) as [Hm1|Hm1]; [by apply Hkept2, (Hcl m) | by apply (Hcl2 m)].
  - intros m Hm. destruct (Hfr2 m Hm) as [Hm1|(n & Hn & Hr)].
    + destruct (Hfr m Hm1) as [?|(n & <- & Hr)]; [by left|]. right. exists d. split; [by left | done].
    + right. exists n. split; [by right | done].
Qed.
End walk.

Lemma walked_node n w w1 w' :
  n ∉ visited w -> visited w1 = visited w ++ [n] -> walked_to w1 w' (fun d => leads n d) ->
  (forall d, leads n d -> d ∈ visited w') -> walked_to w w' (eq n) /\ n ∈ visited w'.
Proof.
  intros Hn Hv [Hg Hk Hcl Hfr] Hd. rewrite Hv in *. assert (n ∈ visited w') as Hin by set_solver. split; [|done].
  constructor; [done | set_solver | |].
  - intros m d Hm Hm' Hl. destruct (decide (m = n)) as [->|Hne]; [by apply Hd|]. apply (Hcl m); set_solver.
  - intros m Hm. destruct (Hfr m Hm) as [[?| ->%list_elem_of_singleton]%elem_of_app|(d & Hl & Hr)]; [by left | |].
    + right. by exists n.
    + right. exists n. split; [done|]. by eapply rtc_l.
Qed.

(** what was paused is what was visited and was not halted *)
Record paused_in (w : Walk) : Prop := {
  p_told : told w = filter (fun m => halted (cs m) = false) (visited w);
  p_halted : forall m, m ∈ visited w -> halted (walked w m) = true;
  p_others : forall m, m ∉ visited w -> walked w m = cs m
}.

Lemma paused_in_pause n w : n ∉ visited w -> paused_in w -> paused_in (pause n (visit n w)).
Proof.
  intros Hn [Ht Hh Ho]. unfold pause, visit. cbn [walked]. rewrite (Ho n Hn).
  destruct (halted (cs n)) eqn:Hc; constructor; cbn [visited walked told].
  - rewrite filter_app, Ht, filter_cons_False, filter_nil, app_nil_r by congruence. done.
  - intros m [?| ->%list_elem_of_singleton]%elem_of_app; [by apply Hh | by rewrite Ho].
  - intros m Hm. apply Ho. set_solver.
  - rewrite filter_app, Ht, filter_cons_True, filter_nil by done. done.
  - intros m Hm. destruct (decide (n = m)) as [<-|Hne]; [by rewrite fn_lookup_insert|].
    rewrite fn_lookup_insert_ne by done. apply Hh. set_solver.
  - intros m Hm. rewrite fn_lookup_insert_ne by set_solver. apply Ho. set_solver.
Qed.

Lemma halt_walks fuel n w :
  n < total -> Going w -> paused_in w -> fuel + length (visited w) > total ->
  walked_to w (halt fuel n w) (eq n) /\ n ∈ visited (halt fuel n w) /\ paused_in (halt fuel n w).
Proof.
  revert n w. induction fuel as [|fuel IH]; intros n w Hn Hg Hp Hb.
  { destruct (decide (n ∈ visited w)) as [Hv|Hv]; [|pose proof (going_length w n Hg Hn Hv); lia].
    cbn [halt]. split_and!; [|done|done]. by constructor; [| | |left]. }
  cbn [halt]. case_bool_decide as Hv; [split_and!; [|done|done]; by constructor; [| | |left]|].
  set (w1 := pause n (visit n w)). assert (Going w1) as Hg1 by (by apply going_pause, going_visit).
  assert (visited w1 = visited w ++ [n]) as Hv1 by (by unfold w1; rewrite pause_visited).
  rewrite (going_dependencies w1 n Hg1).
  destruct (walk_list (halt fuel) fuel (fun n => n < total) paused_in IH (dependencies (cs n)) w1) as (H1 & H2 & H3);
    [intros d; by apply within | done | by apply paused_in_pause | rewrite Hv1, length_app; cbn; lia |].
  destruct (walked_node n w w1 _ Hv Hv1 H1 H2) as [H4 H5]. by split_and!.
Qed.

(** what was unpaused is what was halted, after what it depends on; [stack] is where the walk is *)
Record unpaused_in (stack : list nat) (w : Walk) : Prop := {
  u_told : forall m, m ∈ told w -> halted (walked w m) = false;
  u_others : forall m, m ∉ told w -> walked w m = cs m;
  u_order : forall pre m post d, told w = pre ++ m :: post -> leads m d -> halted (cs d) = true -> d ∈ pre;
  u_done : forall m, m ∈ visited w -> m ∉ stack -> halted (cs m) = true -> m ∈ told w
}.

Lemma unpaused_in_visit stack n w : unpaused_in stack w -> unpaused_in (n :: stack) (visit n w).
Proof. intros [Ht Ho Hr Hd]. constructor; try done. cbn. intros m. rewrite elem_of_app, list_elem_of_singleton, not_elem_of_cons. naive_solver. Qed.

Lemma unpaused_in_unpause stack n w :
  unpaused_in (n :: stack) w -> (forall d, leads n d -> halted (cs d) = true -> d ∈ told w) -> unpaused_in stack (unpause n w).
Proof.
  intros [Ht Ho Hr Hd] Hn. unfold unpause. destruct (halted (walked w n)) eqn:Hh.
  - assert (n ∉ told w) as Hnt by (intros H; by rewrite (Ht n H) in Hh). constructor; cbn [visited walked told].
    + intros m [Hm| ->%list_elem_of_singleton]%elem_of_app; [|by rewrite fn_lookup_insert].
      rewrite fn_lookup_insert_ne by (intros ->; done). by apply Ht.
    + intros m Hm. rewrite not_elem_of_app, not_elem_of_cons in Hm. rewrite fn_lookup_insert_ne by naive_solver. apply Ho. naive_solver.
    + intros pre m post d Hl Hmd Hc. destruct post as [|x post _] using rev_ind.
      * apply app_inj_tail in Hl as [<- <-]. by apply Hn.
      * rewrite app_comm_cons, app_assoc in Hl. apply app_inj_tail in Hl as [Hl _]. by eapply Hr.
    + intros m Hv Hs Hc. destruct (decide (m = n)) as [->|Hne]; [set_solver|]. apply elem_of_app. left. apply Hd; [done | set_solver | done].
  - constructor; try done. intros m Hv Hs Hc. destruct (decide (m = n)) as [->|Hne]; [|apply Hd; [done | set_solver | done]].
    destruct (decide (n ∈ told w)) as [|Hnt]; [done|]. rewrite (Ho n Hnt) in Hh. congruence.
Qed.

Section acyclic.
Context (rank : nat -> nat) (lower : forall m d, leads m d -> rank d < rank m).

Lemma restore_walks fuel n stack w :
  n < total /\ (forall m, m ∈ stack -> rank n < rank m) -> Going w -> unpaused_in stack w -> fuel + length (visited w) > total ->
  walked_to w (restore fuel n w) (eq n) /\ n ∈ visited (restore fuel n w) /\ unpaused_in stack (restore fuel n w).
Proof.
  revert n stack w. induction fuel as [|fuel IH]; intros n stack w [Hn Hstack] Hg Hu Hb.
  { destruct (decide (n ∈ visited w)) as [Hv|Hv]; [|pose proof (going_length w n Hg Hn Hv); lia].
    cbn [restore]. split_and!; [|done|done]. by constructor; [| | |left]. }
  cbn [restore]. case_bool_decide as Hv; [split_and!; [|done|done]; by constructor; [| | |left]|].
  set (w1 := visit n w). assert (Going w1) as Hg1 by by apply going_visit.
  rewrite (going_dependencies w1 n Hg1).
  destruct (walk_list (restore fuel) fuel (fun d => d < total /\ forall m, m ∈ n :: stack -> rank d < rank m)
    (unpaused_in (n :: stack)) (fun d w => IH d (n :: stack) w) (dependencies (cs n)) w1) as (H1 & H2 & H3).
  - intros d Hd. split; [by apply (within n)|]. pose proof (lower n d Hd). intros m [->|Hm]%elem_of_cons; [done|].
    specialize (Hstack m Hm). lia.
  - done.
  - by apply unpaused_in_visit.
  - unfold w1. cbn [visit visited]. rewrite length_app. cbn. lia.
  - set (w2 := foldl _ w1 _) in *. destruct (walked_node n w w1 w2 Hv eq_refl H1 H2) as [H4 H5].
    split_and!; [|by rewrite unpause_visited|].
    + destruct H4 as [Hg4 Hk Hc Hf]. constructor; rewrite ?unpause_visited; try done. by apply going_unpause.
    + apply unpaused_in_unpause; [done|]. intros d Hd Hc. apply (u_done _ _ H3); [by apply H2 | | done].
      pose proof (lower n d Hd). intros [->|Hm]%elem_of_cons; [lia|]. specialize (Hstack d Hm). lia.
Qed.
End acyclic.

Lemma reaches_visited w w' n m : walked_to w w' (eq n) -> visited w = [] -> n ∈ visited w' -> rtc leads n m -> m ∈ visited w'.
Proof.
  intros [_ _ Hcl _] Hw Hn Hr. induction Hr as [x|x y z Hxy Hyz IH]; [done|]. apply IH.
  apply (Hcl x); [done | rewrite Hw; apply not_elem_of_nil | done].
Qed.
End walks.

(** *** What a closing waits for *)

Lemma undo_log n d s : log (undo n d s) = log s.
Proof. by destruct (undo_spec n d s) as (_ & H & _). Qed.

Lemma tear_log n pending i r s :
  log (tear n pending i r s) = log s \/
  pending = false /\ disconnecting (nodes s n) = None /\ linked (nodes s n) s && negb i = false /\
    log (tear n pending i r s) = Close n :: log s.
Proof.
  unfold tear. destruct (disconnecting (nodes s n)) eqn:Hd; [by left|]. destruct (linked (nodes s n) s && negb i) eqn:Hl; [by left|].
  cbn [promise]. destruct pending; [left; by rewrite undo_log | by right].
Qed.

Lemma land_log n p r s s' : land n p r s = Some s' -> log s' = log s.
Proof.
  unfold land. intros H. destruct (settled s p) as [[]|]; [| |done]; injection H as <-; [|done].
  destruct (bool_decide _), (discarded (nodes s n)); done.
Qed.

Lemma connect_log n r s : log (connect n r s) = log s.
Proof.
  unfold connect. destruct (connecting (nodes s n)); [done|]. cbn [promise].
  set (s1 := change n _ _). pose proof (calls_same Connection Connecting (dependencies (nodes s n)) s1) as [_ Hl].
  by destruct (calls _ _ _ s1).
Qed.

Lemma depends_one_log a d s : log (depends_one a d s) = log s.
Proof.
  unfold depends_one. set (s1 := change d _ _).
  assert (log (match disconnecting (nodes s1 a) with Some _ => discard d s1 | None => s1 end) = log s) as <-
    by (destruct (disconnecting (nodes s1 a)); [unfold discard; by destruct (connecting _) | done]).
  by destruct (halted _).
Qed.

Lemma act_closes x s s' d :
  act x s = Some s' -> Close d ∈ log s' -> Close d ∉ log s ->
  (exists i ok t, x = Run i ok /\ t ∈ tasks s /\ deciding d t) /\
  disconnecting (nodes s d) = None /\ linked (nodes s d) s = false.
Proof.
  intros Hact Hin Hno.
  assert (forall l, log s' = l -> Close d ∉ l -> False) as Hsame by (intros l <- ?; done).
  destruct x; cbn [act] in Hact.
  2-8: exfalso.
  2: injection Hact as <-; done.
  2: { unfold depends in Hact. destruct ds as [|e ds]; [done|]. destruct ds as [|e' ds].
    - injection Hact as <-. by rewrite depends_one_log in Hin.
    - cbn [construct] in Hact. injection Hact as <-. apply Hno. rewrite depends_one_log in Hin. revert Hin.
      assert (forall s1 e, log s1 = log s -> log (depends_one e (count s) (change a (with_dependency e) s1)) = log s) as Hstep
        by (intros s1 x H; by rewrite depends_one_log).
      intros Hin. erewrite <- (foldl_keeps (fun s1 => log s1 = log s)); [exact Hin | exact Hstep|]. by apply Hstep, Hstep. }
  2-6: by injection Hact as <-.
  apply bind_Some in Hact as (t & Ht & Hact). apply bind_Some in Hact as (s1 & Hrun & [= <-]).
  change (Close d ∈ log s1) in Hin. apply list_elem_of_lookup_2 in Ht.
  assert (log s1 = log s -> False) as Hlog by (intros H; by rewrite H in Hin).
  assert (forall e, log s1 = e :: log s -> e = Close d) as Hone by (intros e H; rewrite H in Hin; by apply elem_of_cons in Hin as [->|]).
  destruct t; cbn [run] in Hrun.
  - injection Hrun as <-. exfalso. apply Hlog, connect_log.
  - unfold work in Hrun. destruct (all s awaited) as [[]|]; [| |done]; injection Hrun as <-; [by specialize (Hone _ eq_refl) | done].
  - injection Hrun as <-. unfold opened in *. destruct ok; [by specialize (Hone _ eq_refl) | done].
  - exfalso. by apply Hlog, (land_log n p r).
  - destruct (settled s d0); [|done]. by injection Hrun as <-.
  - destruct (settled s d0); [|done]. injection Hrun as <-. by destruct r.
  - injection Hrun as <-. unfold disconnect in *.
    assert (forall pending, (pending = false -> interrupt = false) -> log (tear n pending interrupt r s) = log s \/
      log (tear n pending interrupt r s) = Close n :: log s /\ disconnecting (nodes s n) = None /\ linked (nodes s n) s = false) as Htear.
    { intros pending Hp. destruct (tear_log n pending interrupt r s) as [?|(H1 & H2 & H3 & H4)]; [by left|]. right.
      rewrite (Hp H1), andb_true_r in H3. done. }
    destruct (interrupt || negb (connected (nodes s n))) eqn:Hp.
    + destruct (Htear true) as [H|(H & Hd & Hl)]; [done | done|]. specialize (Hone _ H) as [= ->].
      split; [by eexists i, ok, _ | done].
    + apply orb_false_iff in Hp as [-> _]. destruct (connecting (nodes s n)); [done|].
      destruct (Htear false) as [H|(H & Hd & Hl)]; [done | done|]. specialize (Hone _ H) as [= ->]. split; [by eexists i, ok, _ | done].
  - unfold waited in Hrun. destruct (settled s p) as [[]|]; [| |done]; injection Hrun as <-; [|done].
    destruct (tear_log n false false r s) as [H|(_ & H2 & H3 & H4)]; [done|]. specialize (Hone _ H4) as [= ->].
    rewrite andb_true_r in H3. split; [by eexists i, ok, _ | done].
  - injection Hrun as <-. unfold close in *. destruct ok; [|by specialize (Hone _ eq_refl)].
    by specialize (Hone _ (undo_log _ _ _)).
  - unfold undone in Hrun. destruct (all s awaited) as [[]|]; [| |done]; by injection Hrun as <-.
  - injection Hrun as <-. unfold dispose in *. destruct ok; [by specialize (Hone _ eq_refl) | done].
  - destruct (settled s p); [|done]. by injection Hrun as <-.
  - destruct (settled s d0) as [[]|]; [| |done]; by injection Hrun as <-.
Qed.

Lemma kept_reachable s : reachable anew s -> Kept s.
Proof.
  induction 1 as [|s x s' _ IH Hx Hact]; [|by eapply kept_act]. split; constructor; try done; intros; by apply elem_of_nil in H.
Qed.

Lemma ordered_app post n ds pre : ordered (post ++ Open n ds :: pre) -> forall d, d ∈ ds -> Opened d ∈ pre.
Proof. induction post as [|e post IH]; cbn; [by intros [H _]|]. destruct e; try exact IH. intros [_ H]. by apply IH. Qed.

(** ** Properties *)

(** A connector is opened once everything it depended on when it was connected has been opened,
    whatever else was called meanwhile: connected again, disconnected, depended on or halted. *)
Theorem opened_after_dependencies allowed s post n ds pre :
  reachable allowed s -> log s = post ++ Open n ds :: pre -> forall d, d ∈ ds -> Opened d ∈ pre.
Proof. intros H Hl. pose proof (told_ordered _ (told_reachable allowed s H)) as Ho. rewrite Hl in Ho. by eapply ordered_app. Qed.

(** Where nothing that was told to disconnect is connected again, a connector closes at most once,
    and begins to when nothing linked to it is connected: whatever of it was closing is closed. *)
Theorem closed_after_dependants s x s' d :
  reachable anew s -> act x s = Some s' -> Close d ∈ log s' -> Close d ∉ log s ->
  forall a, a ∈ links (nodes s d) -> connected (nodes s a) = false /\ (Close a ∈ log s -> Closed a ∈ log s).
Proof.
  intros Hr Hact Hin Hno a Ha. destruct (act_closes x s s' d Hact Hin Hno) as (_ & _ & Hl).
  assert (connected (nodes s a) = false) as Hc.
  { destruct (connected (nodes s a)) eqn:Hc; [|done]. unfold linked in Hl.
    rewrite <- not_true_iff_false, existsb_exists in Hl. destruct Hl. exists a. split; [by apply list_elem_of_In | done]. }
  split; [done|]. intros H. destruct (o_close _ (proj1 (kept_reachable s Hr)) a H) as [_ [?|?]]; [done | congruence].
Qed.

(** C20: And nothing is left up behind what was taken down: where everything linked to a connected
    connector is down, the connector is being told to disconnect, is closing, or failed to close. *)
Theorem nothing_left_up s d :
  reachable anew s -> links (nodes s d) <> [] -> (forall a, a ∈ links (nodes s d) -> down (nodes s a)) ->
  connected (nodes s d) = true ->
  Exists (deciding d) (tasks s) \/ (exists x, Closing d x ∈ tasks s) \/ Unclosed d ∈ log s.
Proof.
  intros Hr Hl Hdown Hc. destruct (kept_reachable s Hr) as [Ho Ha].
  destruct (a_links _ _ Ha d Hl) as [H|[H|[[_ H]|H]]].
  - destruct (disconnecting (nodes s d)) as [x|] eqn:Hx; [|done].
    destruct (a_closed _ _ Ha d x Hx) as [H'|[_ [H'|H']]]; [|by eauto|by eauto].
    destruct (o_connected _ Ho d Hc) as (p & ? & _). congruence.
  - by left.
  - congruence.
  - apply Exists_exists in H as (b & Hb & H). by destruct H; apply Hdown.
Qed.

(** A halt reaches all that is depended on, directly or not, and nothing else, and pauses each that was
    not halted once, in as many steps deep as there are connectors. *)
Theorem halted_whole n s (w := walk halt n s) :
  (forall m d, m < count s -> d ∈ dependencies (nodes s m) -> d < count s) -> n < count s ->
  (forall m, m ∈ visited w <-> rtc (leads (nodes s)) n m) /\
  (forall m, m ∈ visited w -> halted (walked w m) = true) /\ (forall m, m ∉ visited w -> walked w m = nodes s m) /\
  NoDup (told w) /\ forall m, m ∈ told w <-> rtc (leads (nodes s)) n m /\ halted (nodes s m) = false.
Proof.
  intros Hwf Hn. destruct (halt_walks (nodes s) (count s) Hwf (S (count s)) n (mkWalk [] (nodes s) [])) as (H1 & H2 & [Ht Hh Ho]);
    [done | by constructor; [|constructor|intros m ?%elem_of_nil] | constructor; [done | by intros m ?%elem_of_nil | done] | cbn; lia|].
  fold (walk halt n s) in *. fold w in H1, H2, Ht, Hh, Ho.
  assert (forall m, m ∈ visited w <-> rtc (leads (nodes s)) n m) as Hv.
  { intros m. split; [|by apply (reaches_visited _ _ _ _ _ _ H1)].
    intros Hm. by destruct (w_from _ _ _ _ _ H1 m Hm) as [?%elem_of_nil|(x & <- & Hx)]. }
  split_and!; try done.
  - rewrite Ht. apply NoDup_filter, (g_once _ _ _ (w_going _ _ _ _ _ H1)).
  - intros m. rewrite Ht, list_elem_of_filter, <- Hv. tauto.
Qed.

(** Where connectors depend on one another in no circle, what was halted is started again after all it
    depends on that was. *)
Theorem restored_bottom_up n s (rank : nat -> nat) (w := walk restore n s) :
  (forall m d, m < count s -> d ∈ dependencies (nodes s m) -> d < count s) -> n < count s ->
  (forall m d, leads (nodes s) m d -> rank d < rank m) ->
  (forall m, rtc (leads (nodes s)) n m -> halted (walked w m) = false /\ (halted (nodes s m) = true -> m ∈ told w)) /\
  forall pre m post d, told w = pre ++ m :: post -> leads (nodes s) m d -> halted (nodes s d) = true -> d ∈ pre.
Proof.
  intros Hwf Hn Hrank.
  destruct (restore_walks (nodes s) (count s) Hwf rank Hrank (S (count s)) n [] (mkWalk [] (nodes s) [])) as (H1 & H2 & [Ht Ho Hr Hd]);
    [by split; [|intros m ?%elem_of_nil] | by constructor; [|constructor|intros m ?%elem_of_nil] | | cbn; lia|].
  { constructor; cbn; [by intros m ?%elem_of_nil | done | | by intros m ?%elem_of_nil]. intros pre m post d H. by destruct pre. }
  fold (walk restore n s) in *. fold w in H1, H2, Ht, Ho, Hr, Hd. split; [|done].
  intros m Hm. pose proof (reaches_visited _ _ _ _ _ _ H1 eq_refl H2 Hm) as Hv.
  assert (halted (nodes s m) = true -> m ∈ told w) as Htold by (intros Hc; apply Hd; [done | apply not_elem_of_nil | done]).
  split; [|done]. destruct (decide (m ∈ told w)) as [Hin|Hin]; [by apply Ht|]. rewrite (Ho m Hin).
  destruct (halted (nodes s m)); [by destruct Hin; apply Htold | done].
Qed.

(** *** What is not meant *)

Module Late.

(** 0 and 1 depend on 2; 1 is disconnected while 0 is connecting *)
Definition race : list action :=
  [Construct; Construct; Construct; Depends 0 [2]; Depends 1 [2]; Connect 1; Run 0 true; Run 0 true;
   Run 2 true; Run 3 true; Run 2 true; Run 0 true; Run 1 true; Run 0 true; Connect 0; Run 0 true;
   Run 0 true; Run 2 true; Run 0 true; Disconnect 1 false; Run 2 true; Run 2 true; Run 3 true; Run 3 true;
   Run 4 true; Run 5 true; Run 5 true; Run 5 true; Run 4 true; Run 3 true; Run 3 true; Run 2 true;
   Run 1 true; Run 0 true].

(** 0 depends on the set of 1 and 3, and 2 on 1; 2 is connected and disconnected *)
Definition set : list action :=
  [Construct; Construct; Construct; Construct; Depends 0 [1; 3]; Depends 2 [1]; Connect 0;
   Run 0 true; Run 0 true; Run 0 true; Run 0 true; Run 2 true; Run 4 true; Run 6 true; Run 9 true;
   Run 6 true; Run 6 true; Run 2 true; Run 5 true; Run 3 true; Run 4 true; Run 2 true; Run 3 true;
   Run 2 true; Run 0 true; Run 1 true; Run 0 true; Connect 2; Run 0 true; Run 0 true; Run 2 true;
   Run 0 true; Run 1 true; Run 0 true; Disconnect 2 false; Run 0 true; Run 0 true; Run 1 true; Run 1 true;
   Run 2 true; Run 3 true; Run 3 true; Run 4 true; Run 3 true; Run 3 true; Run 2 true; Run 1 true;
   Run 1 true; Run 0 true].

(** 0 is disconnected while it opens *)
Definition early : list action :=
  [Construct; Connect 0; Run 0 true; Run 0 true; Disconnect 0 false; Run 2 true; Run 3 true; Run 3 true; Run 2 true;
   Run 1 true; Run 0 true].

Lemma followed xs : is_Some (follow xs started) -> exists s, follow xs started = Some s /\ reachable anew s.
Proof. intros [s Hs]. exists s. split; [done|]. by apply (follow_reachable xs started s); [constructor|]. Qed.

(** what is read of a state a schedule ends in *)
Lemma followed_is {A} xs (f : State -> A) a :
  f <$> follow xs started = Some a -> exists s, reachable anew s /\ f s = a.
Proof.
  intros H. destruct (followed xs) as (s & Hs & Hr); [by destruct (follow xs started)|]. exists s. split; [done|].
  rewrite Hs in H. by injection H.
Qed.

(** A connector that is connecting counts for nothing to what it depends on: that is taken down when another
    dependant is, and the connector ends connected over it. *)
Theorem taken_down_under_connecting :
  exists s a d, reachable anew s /\ a ∈ links (nodes s d) /\ connected (nodes s a) = true /\ tasks s = [] /\
    connected (nodes s d) = false /\ disposed (nodes s d) = true.
Proof.
  destruct (followed_is race (fun s => (links (nodes s 2), connected (nodes s 0), tasks s, connected (nodes s 2), disposed (nodes s 2)))
    ([0; 1], true, [], false, true)) as (s & Hr & Hs); [vm_compute; reflexivity|].
  injection Hs as H1 H2 H3 H4 H5. exists s, 0, 2. rewrite H1. split_and!; try done. set_solver.
Qed.

(** A set that is depended on has no links back: one of it is taken down under what depends on it. *)
Theorem set_is_not_linked :
  exists s a d, reachable anew s /\ d ∈ dependencies (nodes s a) /\ connected (nodes s a) = true /\ disconnecting (nodes s a) = None /\
    tasks s = [] /\ disposed (nodes s d) = true.
Proof.
  destruct (followed_is set (fun s => (dependencies (nodes s 0), connected (nodes s 0), disconnecting (nodes s 0), tasks s, disposed (nodes s 1)))
    ([1; 3; 4], true, None, [], true)) as (s & Hr & Hs); [vm_compute; reflexivity|].
  injection Hs as H1 H2 H3 H4 H5. exists s, 0, 1. rewrite H1. split_and!; try done. set_solver.
Qed.

(** What is disconnected while it opens is disposed of, opens all the same, and is never closed. *)
Theorem opened_after_disposal :
  exists s n, reachable anew s /\ tasks s = [] /\ log s = [Opened n; Disposed n; Open n []] /\ connected (nodes s n) = false.
Proof.
  destruct (followed_is early (fun s => (tasks s, log s, connected (nodes s 0))) ([], [Opened 0; Disposed 0; Open 0 []], false))
    as (s & Hr & Hs); [vm_compute; reflexivity|].
  injection Hs as H1 H2 H3. exists s, 0. by split_and!.
Qed.

(** What a source feeds may be paused before the source, where a third depends on both. *)
Theorem fed_before_source :
  exists s n source feeds, reachable anew s /\ leads (nodes s) source feeds /\
    exists pre between post, told (walk halt n s) = pre ++ feeds :: between ++ source :: post.
Proof.
  destruct (followed_is [Construct; Construct; Construct; Depends 0 [2]; Depends 0 [1]; Depends 1 [2]]
    (fun s => (dependencies (nodes s 1), told (walk halt 0 s))) ([2], [0; 2; 1])) as (s & Hr & Hs); [vm_compute; reflexivity|].
  injection Hs as H1 H2. exists s, 0, 1, 2. split; [done|]. split; [unfold leads; rewrite H1; set_solver|].
  exists [0], [], []. exact H2.
Qed.

End Late.

(** ** Two connectors, of which one depends on the other *)
Module Pair.

Definition up : list action :=
  [Construct; Construct; Depends 0 [1]; Connect 0; Run 0 true; Run 0 true; Run 2 true; Run 3 true; Run 2 true; Run 0 true;
   Run 1 true; Run 0 true].

(** 0 is disconnected, and has closed *)
Definition halfway : list action := up ++ [Disconnect 0 false; Run 0 true; Run 0 true; Run 1 true].

Lemma opened_after_dependencies_witness : Opened 1 ∈ [Opened 1; Open 1 []].
Proof.
  destruct (Late.followed_is up log [Opened 0; Open 0 [1]; Opened 1; Open 1 []]) as (s & Hr & Hs); [vm_compute; reflexivity|].
  apply (opened_after_dependencies anew s [Opened 0] 0 [1] [Opened 1; Open 1 []] Hr Hs 1). apply list_elem_of_here.
Defined.

Lemma closed_after_dependants_witness :
  exists s, reachable anew s /\ connected (nodes s 0) = false /\ (Close 0 ∈ log s -> Closed 0 ∈ log s).
Proof.
  destruct (Late.followed_is (halfway ++ [Run 1 true]) (fun s => (links (nodes s 1), log s, log <$> act (Run 2 true) s))
    ([0], [Closed 0; Close 0; Opened 0; Open 0 [1]; Opened 1; Open 1 []],
     Some [Close 1; Closed 0; Close 0; Opened 0; Open 0 [1]; Opened 1; Open 1 []])) as (s & Hr & Hs); [vm_compute; reflexivity|].
  exists s. split; [exact Hr|]. destruct (act (Run 2 true) s) as [s'|] eqn:Hact; [|discriminate Hs].
  cbn [fmap option_fmap option_map] in Hs. injection Hs as H1 H2 H3.
  apply (closed_after_dependants s (Run 2 true) s' 1 Hr Hact).
  - rewrite H3. apply list_elem_of_here.
  - rewrite H2. apply (bool_decide_eq_true_1 _). vm_compute. reflexivity.
  - rewrite H1. apply list_elem_of_here.
Defined.

Lemma nothing_left_up_witness :
  exists s, reachable anew s /\ connected (nodes s 1) = true /\
    (Exists (deciding 1) (tasks s) \/ (exists x, Closing 1 x ∈ tasks s) \/ Unclosed 1 ∈ log s).
Proof.
  destruct (Late.followed_is halfway (fun s => (links (nodes s 1), connected (nodes s 1), is_true (bool_decide (down (nodes s 0)))))
    ([0], true, is_true true)) as (s & Hr & Hs); [vm_compute; reflexivity|].
  injection Hs as H1 H2 H3. exists s. split; [exact Hr|]. split; [exact H2|].
  apply (nothing_left_up s 1 Hr).
  - rewrite H1. discriminate.
  - intros a Ha. rewrite H1 in Ha. apply list_elem_of_singleton in Ha as ->. apply (bool_decide_eq_true_1 _).
    change (is_true (bool_decide (down (nodes s 0)))). rewrite H3. reflexivity.
  - exact H2.
Defined.

(** 0 depends on 1 and 2, and 1 on 2; 1 and 2 are halted *)
Definition fed : State :=
  mkState (fun m =>
    match m with
    | 0 => mkConnector [1; 2] [] None None false false true false
    | 1 => mkConnector [2] [0] None None false true true false
    | 2 => mkConnector [] [0; 1] None None false true true false
    | _ => constructed
    end) 3 [] [] [].

Lemma fed_within m d : m < count fed -> d ∈ dependencies (nodes fed m) -> d < count fed.
Proof.
  intros _ H. apply list_elem_of_In in H. destruct m as [|[|[|m]]]; cbn in *; try done; [destruct H as [<-|[<-|[]]] | destruct H as [<-|[]]]; lia.
Qed.

Definition rank (m : nat) : nat := match m with 0 => 2 | 1 => 1 | _ => 0 end.

Lemma fed_lower m d : leads (nodes fed) m d -> rank d < rank m.
Proof.
  intros H. unfold leads in H. apply list_elem_of_In in H.
  destruct m as [|[|[|m]]]; cbn in *; try done; [destruct H as [<-|[<-|[]]] | destruct H as [<-|[]]]; cbn; lia.
Qed.

Lemma halted_whole_witness : 0 ∈ told (walk halt 0 fed) <-> rtc (leads (nodes fed)) 0 0 /\ halted (nodes fed 0) = false.
Proof.
  refine (proj2 (proj2 (proj2 (proj2 (halted_whole 0 fed fed_within _)))) 0). cbn. lia.
Defined.

Lemma restored_bottom_up_witness : told (walk restore 0 fed) = [2; 1] /\ 2 ∈ [2].
Proof.
  split; [vm_compute; reflexivity|].
  refine (proj2 (restored_bottom_up 0 fed rank fed_within _ fed_lower) [2] 1 [] 2 _ _ _); [cbn; lia | vm_compute; reflexivity | | reflexivity].
  unfold leads. cbn. apply list_elem_of_here.
Defined.

End Pair.
