(* ===== verification/Records.v ===== *)
(** * Records

    [connectors/storages.mongodb/src/]: what a record is in the collection of an entity ([record.js]),
    the filter and the options a query is read with ([translate.js], [translate/]), and whether a record
    matches a filter as the code decides it of a change ([match.js]). *)
From S2P Require Import Prelude World.

Open Scope Z_scope.

(** ** What a collection holds *)

(** a date is a moment, or none where it was made of what names none *)
Inductive datum : Type :=
| DNull
| DBool (b : bool)
| DNumber (n : Z)
| DDecimal (m e : Z)
| DString (s : string)
| DDate (t : option Z)
| DArray (ds : list datum)
| DObject (fields : list (string * datum)).

(** a property of what is held, as of every value of a list and of every field of an object *)
Section induction.
Context (P : datum -> Prop).
Context (HN : P DNull) (HB : forall b, P (DBool b)) (HZ : forall n, P (DNumber n)) (HM : forall m e, P (DDecimal m e))
  (HS : forall s, P (DString s)) (HT : forall t, P (DDate t))
  (HA : forall ds, Forall P ds -> P (DArray ds)) (HO : forall fields, Forall (fun p => P (snd p)) fields -> P (DObject fields)).

Fixpoint datum_induction (d : datum) : P d :=
  match d with
  | DNull => HN
  | DBool b => HB b
  | DNumber n => HZ n
  | DDecimal m e => HM m e
  | DString s => HS s
  | DDate t => HT t
  | DArray ds => HA ds ((fix all ds : Forall P ds :=
      match ds with [] => Forall_nil_2 _ | d :: ds => Forall_cons_2 _ _ _ (datum_induction d) (all ds) end) ds)
  | DObject fields => HO fields ((fix all fields : Forall (fun p => P (snd p)) fields :=
      match fields with [] => Forall_nil_2 _ | p :: fields => Forall_cons_2 _ _ _ (datum_induction (snd p)) (all fields) end) fields)
  end.
End induction.

Notation doc := (list (string * datum)) (only parsing).

(** ** Records ([record.js]) *)

(** [{ _id: id, ...rest }] *)
Definition to (entity : doc) : doc :=
  let rest := filter (fun p => fst p <> "id") entity in
  match own entity "id" with Some i => assign_all [("_id", i)] rest | None => rest end.

Definition from (record : doc) : doc :=
  let record := match own record "_id" with Some i => assign "id" i record | None => record end in
  filter (fun p => fst p <> "_id") record.

(** what a property of an entity declares of it *)
Record Declared := mkDeclared { d_type : string; d_format : option string }.

Inductive moment := DateTime | EpochMillis.

Definition moment_of (d : Declared) : option moment :=
  if bool_decide (d_format d = Some "date-time") && bool_decide (d_type d = "string") then Some DateTime
  else if bool_decide (d_format d = Some "epoch-millis") && bool_decide (d_type d = "integer") then Some EpochMillis
  else None.

(** [codec]: the properties held as dates *)
Definition moments (properties : list (string * Declared)) : list (string * moment) :=
  omap (fun '(name, d) => (fun m => (name, m)) <$> moment_of d) properties.

Definition dates (properties : list (string * Declared)) : list string := fst <$> moments properties.

Definition convert (casts : list (string * (datum -> datum))) (record : doc) : doc :=
  foldl (fun record '(name, cast) =>
    match own record name with
    | None | Some DNull => record
    | Some v => assign name (cast v) record
    end) record casts.

Section codec.
(** [Date.parse] and [toISOString] *)
Context (parse : string -> option Z) (iso : Z -> string).

(** a date is within a hundred million days of its origin *)
Definition clip (t : Z) : option Z := if Z.abs t <=? 8640000000000000 then Some t else None.

(** [new Date(value)], of the text, the number or the date it is given *)
Definition date (v : datum) : datum :=
  match v with
  | DString s => DDate (parse s)
  | DNumber n => DDate (clip n)
  | DDecimal m e => DDate (clip (Z.quot (m * 10 ^ Z.max 0 e) (10 ^ Z.max 0 (- e))))
  | DDate t => DDate t
  | DNull => DDate (Some 0)
  | DBool b => DDate (Some (if b then 1 else 0))
  | DArray _ | DObject _ => DDate None
  end.

(** [READ]: a moment as the entity carries it, and what is not a date as it is; every date that is read
    of a collection is of a moment *)
Definition read_moment (m : moment) (v : datum) : datum :=
  match m, v with
  | DateTime, DDate (Some t) => DString (iso t)
  | EpochMillis, DDate (Some t) => DNumber t
  | _, _ => v
  end.

Definition codec_to (properties : list (string * Declared)) (entity : doc) : doc :=
  convert ((fun name => (name, date)) <$> dates properties) (to entity).

Definition codec_changes (properties : list (string * Declared)) (changeset : doc) : doc :=
  convert ((fun name => (name, date)) <$> dates properties) changeset.

Definition codec_from (properties : list (string * Declared)) (record : doc) : doc :=
  convert ((fun '(name, m) => (name, read_moment m)) <$> moments properties) (from record).

(** ** Filters ([translate.js], [translate/criteria.js], [translate/options.js]) *)

Definition rename (name : string) : string := if bool_decide (name = "id") then "_id" else name.

Fixpoint held (v : value) : datum :=
  match v with
  | VUndefined | VNull => DNull
  | VBool b => DBool b
  | VNumber n => DNumber n
  | VDecimal m e => DDecimal m e
  | VString s => DString s
  | VArray vs => DArray (held <$> vs)
  | VObject fields => DObject ((fun '(k, v) => (k, held v)) <$> fields)
  end.

Definition comparing (operator : string) : option string :=
  own [("==", "$eq"); (">", "$gt"); (">=", "$gte"); ("=in=", "$in"); ("<", "$lt"); ("<=", "$lte"); ("!=", "$ne"); ("=out=", "$nin")]
    operator.

Definition logic (operator : string) : string := default "undefined" (own [(";", "$and"); (",", "$or")] operator).

(** a moment of a criterion is a date, and so is each of a list *)
Fixpoint dated (v : datum) : datum :=
  match v with DArray vs => DArray (dated <$> vs) | DNull => DNull | v => date v end.

Fixpoint criteria_ (ds : list string) (n : Node) : result string doc :=
  match n with
  | Logic operator a b =>
      l ← criteria_ ds a; r ← criteria_ ds b;
      Ok [(logic operator, DArray [DObject l; DObject r])]
  | Comparison operator selector v =>
      let name := rename selector in
      match comparing operator with
      | None => Throw ("AST parse error: unknown operator '" +:+ operator +:+ "'")
      | Some operator => Ok [(name, DObject [(operator, if bool_decide (name ∈ ds) then dated (held v) else held v)])]
      end
  end.

(** a condition of its own on a field, where there is one *)
Definition also {A} (x : option A) (k : string) (f : A -> datum) (c : doc) : doc :=
  match x with Some v => assign k (f v) c | None => c end.

Definition translate (ds : list string) (q : Query) : result string doc :=
  c ← (match q_criteria q with None => Ok [] | Some n => criteria_ ds n end);
  let c := also (q_id q) "_id" DString c in
  let c := also (q_ids q) "_id" (fun names => DObject [("$in", DArray (DString <$> names))]) c in
  let c := also (q_version q) "VERSION" DNumber c in
  Ok (also (q_search q) "$text" (fun s => DObject [("$search", DString s)]) c).

(** what is read of a collection, and not of a record: a tombstone is left out unless it is asked for *)
Definition alive (q : Query) (c : doc) : doc :=
  also (if bool_decide ((q_options q ≫= deleted) = Some true) then None else Some DNull) "DELETED" id c.

Definition find_criteria (ds : list string) (q : Query) : result string doc := c ← translate ds q; Ok (alive q c).

(** of one record that is named, what is deleted is answered *)
Definition get_criteria (ds : list string) (q : Query) : result string doc :=
  c ← translate ds q; Ok (if bool_decide (q_id q = None) then alive q c else c).

Record Read := mkRead {
  skip : option Z;
  limit_ : option Z;
  sort_ : option (list (string * Z));
  projection_ : option (list string);
  stop_ : bool
}.

Definition truthy (n : option Z) : option Z := match n with Some 0 => None | n => n end.

Definition options (o : option Options) : Read :=
  match o with
  | None => mkRead None None None None false
  | Some o =>
      mkRead (truthy (omit o)) (truthy (limit o))
        (option_map (map (fun '(property, direction) => (rename property, if bool_decide (direction = "desc") then -1 else 1))) (World.sort o))
        (option_map (map rename) (projection o))
        (bool_decide (stop o = Some true))
  end.
End codec.

(** ** Whether a record matches ([match.js]) *)

(** an item of a list is read by its index, written as a number is *)
Fixpoint item (i : nat) (key : string) (ds : list datum) : option datum :=
  match ds with
  | [] => None
  | d :: ds => if decide (key = pretty i) then Some d else item (S i) key ds
  end.

(** [value[key]] of what is an object of the language; what a list and a date inherit is no datum *)
Definition at_key (v : datum) (key : string) : option datum :=
  match v with
  | DObject fields => own fields key
  | DArray ds => if bool_decide (key = "length") then Some (DNumber (Z.of_nat (length ds))) else item 0 key ds
  | _ => None
  end.

Fixpoint read_path (v : datum) (path : list string) : option datum :=
  match path with
  | [] => Some v
  | key :: path => match at_key v key with None => None | Some v => read_path v path end
  end.

Definition read (record : doc) (path : string) : option datum := read_path (DObject record) (split "."%char path).

(** a number as an integer and a power of ten *)
Definition number (v : datum) : option (Z * Z) :=
  match v with DNumber n => Some (n, 0) | DDecimal m e => Some (m, e) | _ => None end.

Definition compare_numbers (a b : Z * Z) : comparison :=
  let k := Z.min (snd a) (snd b) in (fst a * 10 ^ (snd a - k) ?= fst b * 10 ^ (snd b - k)).

Fixpoint compare_texts (a b : list ascii) : comparison :=
  match a, b with
  | [], [] => Eq
  | [], _ => Lt
  | _, [] => Gt
  | x :: a, y :: b => match Nat.compare (nat_of_ascii x) (nat_of_ascii y) with Eq => compare_texts a b | c => c end
  end.

(** [compare]: none is [NaN] *)
Definition compare (value operand : datum) : option comparison :=
  match value, operand with
  | DDate (Some t), DDate (Some u) => Some (t ?= u)
  | DString s, DString t => Some (compare_texts (chars s) (chars t))
  | v, o => match number v, number o with Some a, Some b => Some (compare_numbers a b) | _, _ => None end
  end.

(** [===] of what is not an object *)
Definition same (value operand : datum) : bool :=
  match value, operand with
  | DNull, DNull => true
  | DBool a, DBool b => Bool.eqb a b
  | DString s, DString t => bool_decide (s = t)
  | v, o => match number v, number o with Some a, Some b => match compare_numbers a b with Eq => true | _ => false end | _, _ => false end
  end.

Definition equal (value : option datum) (operand : datum) : bool :=
  match operand with
  | DNull => match value with None | Some DNull => true | _ => false end
  | DDate o => match value, o with Some (DDate (Some t)), Some u => t =? u | _, _ => false end
  | o => match value with None => false | Some v => same v o end
  end.

Definition some_ (value : option datum) (test : option datum -> bool) : bool :=
  test value || match value with Some (DArray ds) => existsb (fun d => test (Some d)) ds | _ => false end.

Definition is_ (cs : list comparison) (value : option datum) (operand : datum) : bool :=
  match value with
  | Some v => match compare v operand with Some c => existsb (fun x => match x, c with Eq, Eq | Lt, Lt | Gt, Gt => true | _, _ => false end) cs | None => false end
  | None => false
  end.

Definition eq_ (value : option datum) (operand : datum) : bool := some_ value (fun v => equal v operand).

Definition in_ (value : option datum) (operand : datum) : result string bool :=
  match operand with DArray os => Ok (existsb (eq_ value) os) | _ => Throw "operands.some is not a function" end.

(** [OPERATORS] *)
Definition test (operator : string) (value : option datum) (operand : datum) : option (result string bool) :=
  own [("$eq", Ok (eq_ value operand));
       ("$ne", Ok (negb (eq_ value operand)));
       ("$in", in_ value operand);
       ("$nin", negb <$> in_ value operand);
       ("$gt", Ok (some_ value (fun v => is_ [Gt] v operand)));
       ("$gte", Ok (some_ value (fun v => is_ [Gt; Eq] v operand)));
       ("$lt", Ok (some_ value (fun v => is_ [Lt] v operand)));
       ("$lte", Ok (some_ value (fun v => is_ [Lt; Eq] v operand)))] operator.

Definition dollar (key : string) : bool := match key with String "$"%char _ => true | _ => false end.

Definition operators (condition : datum) : option doc :=
  match condition with
  | DObject entries => if negb (bool_decide (entries = [])) && forallb (fun p => dollar (fst p)) entries then Some entries else None
  | _ => None
  end.

(** all hold, the first that does not or that cannot be tested ending it *)
Definition every {A} (f : A -> result string bool) : list A -> result string bool :=
  fix every l :=
    match l with
    | [] => Ok true
    | x :: l => match f x with Throw e => Throw e | Ok b => if b : bool then every l else Ok false end
    end.

Definition some {A} (f : A -> result string bool) : list A -> result string bool :=
  fix some l :=
    match l with
    | [] => Ok false
    | x :: l => match f x with Throw e => Throw e | Ok b => if b : bool then Ok true else some l end
    end.

Definition field (value : option datum) (condition : datum) : result string bool :=
  match operators condition with
  | None => Ok (eq_ value condition)
  | Some entries =>
      every (fun '(operator, operand) =>
        match test operator value operand with
        | None => Throw ("A change cannot be matched against '" +:+ operator +:+ "'")
        | Some r => r
        end) entries
  end.

(** [matches], and [match] of each filter of a logical operator, each of which [translate] wrote as an object *)
Fixpoint matches (record : doc) (key : string) (condition : datum) {struct condition} : result string bool :=
  let each (name : string) (f : (datum -> result string bool) -> list datum -> result string bool) : result string bool :=
    match condition with
    | DArray ds =>
        f (fun d =>
             match d with
             | DObject fields => every (fun p => match p with (k, c) => matches record k c end) fields
             | _ => Ok true
             end) ds
    | DNull => Throw ("Cannot read properties of null (reading '" +:+ name +:+ "')")
    | _ => Throw ("condition." +:+ name +:+ " is not a function")
    end in
  if decide (key = "$and") then each "every" every
  else if decide (key = "$or") then each "some" some
  else if decide (key = "$nor") then negb <$> each "some" some
  else if dollar key then Throw ("A change cannot be matched against '" +:+ key +:+ "'")
  else field (read record key) condition.

Definition match_ (record filter : doc) : result string bool := every (fun p => match p with (k, c) => matches record k c end) filter.

(** ** Lemmas *)

Lemma own_to e k : NoDup e.*1 -> own e "_id" = None ->
  own (to e) k = if decide (k = "_id") then own e "id" else if decide (k = "id") then None else own e k.
Proof.
  intros Hd Hi. unfold to. set (rest := filter _ e).
  assert (own rest k = if decide (k = "id") then None else own e k) as Hr.
  { unfold rest. rewrite own_filter by done. cbn. destruct (own e k); repeat case_decide; naive_solver. }
  assert (NoDup rest.*1) as Hn by (by apply filter_names).
  destruct (own e "id") as [i|] eqn:He.
  - rewrite own_assign_all_or, Hr by done. cbn. destruct (own e k) eqn:Hk; repeat case_decide; congruence.
  - rewrite Hr. repeat case_decide; subst; congruence.
Qed.

Lemma to_names e : NoDup e.*1 -> NoDup (to e).*1.
Proof.
  intros Hd. unfold to. destruct (own e "id"); [|by apply filter_names].
  apply assign_all_names. apply NoDup_singleton.
Qed.

Lemma own_from r k : NoDup r.*1 -> own r "id" = None ->
  own (from r) k = if decide (k = "_id") then None else if decide (k = "id") then own r "_id" else own r k.
Proof.
  intros Hd Hi. unfold from. set (x := match own r "_id" with Some i => assign "id" i r | None => r end).
  assert (NoDup x.*1) as Hn by (unfold x; destruct (own r "_id"); [by apply assign_names | done]).
  rewrite own_filter by done. cbn.
  assert (own x k = if decide (k = "id") then own r "_id" else own r k) as ->.
  { unfold x. destruct (own r "_id") as [i|] eqn:Hu; [rewrite own_assign|]; repeat case_decide; congruence. }
  destruct (if decide (k = "id") then own r "_id" else own r k); repeat case_decide; naive_solver.
Qed.

Lemma read_name r k : "."%char ∉ chars k -> read r k = own r k.
Proof.
  intros Hk. unfold read, split. rewrite split_chars_none, reverse_nil by done. cbn. rewrite of_chars_chars.
  by destruct (own r k).
Qed.

Lemma eq_text s t : eq_ (Some (DString s)) (DString t) = bool_decide (s = t).
Proof. unfold eq_, some_. apply orb_false_r. Qed.

(** ** Moments *)

Definition casted (cast : option (datum -> datum)) (v : datum) : datum :=
  match cast, v with Some f, DNull => DNull | Some f, v => f v | None, v => v end.

Lemma own_convert casts r k : NoDup casts.*1 -> own (convert casts r) k = casted (own casts k) <$> own r k.
Proof.
  unfold convert. revert r. induction casts as [|[n f] casts IH]; intros r.
  - cbn. by destruct (own r k).
  - rewrite fmap_cons, NoDup_cons. intros [Hn Hd]. cbn [foldl own fst] in *. rewrite IH by done. clear IH.
    assert (own casts n = None) as Hc by (by apply own_None).
    destruct (own r n) as [v|] eqn:Hv.
    + destruct (decide (n = k)) as [->|Hne].
      * rewrite Hc. destruct v; rewrite ?own_assign_eq, ?Hv; reflexivity.
      * destruct v; rewrite ?own_assign_ne by done; reflexivity.
    + destruct (decide (n = k)) as [->|Hne]; [by rewrite Hv | done].
Qed.

Lemma convert_names casts r : NoDup r.*1 -> NoDup (convert casts r).*1.
Proof.
  unfold convert. revert r. induction casts as [|[n f] casts IH]; intros r Hd; [done|]. cbn [foldl]. apply IH.
  destruct (own r n) as [v|]; [|done]. destruct v; [done|..]; by apply assign_names.
Qed.

Lemma own_moments ps k : NoDup ps.*1 -> own (moments ps) k = own ps k ≫= moment_of.
Proof.
  unfold moments. induction ps as [|[n d] ps IH]; [done|]. rewrite fmap_cons, NoDup_cons. intros [Hn Hd].
  cbn [omap list_omap own fst] in *. destruct (moment_of d) as [m|] eqn:Hm; cbn.
  - case_decide; [by subst | by apply IH].
  - rewrite IH by done. case_decide; [subst|done]. apply own_None in Hn as ->. cbn. by rewrite Hm.
Qed.

Lemma moments_names ps : NoDup ps.*1 -> NoDup (moments ps).*1.
Proof.
  unfold moments. induction ps as [|[n d] ps IH]; [done|]. rewrite fmap_cons, NoDup_cons. intros [Hn Hd].
  cbn [omap list_omap fst] in *. specialize (IH Hd). destruct (moment_of d); cbn; [|done].
  apply NoDup_cons. split; [|done]. intros ([j w] & -> & Hin)%list_elem_of_fmap. cbn in Hn.
  apply list_elem_of_omap in Hin as ([j' d'] & Hin & He). destruct (moment_of d'); [|done]. injection He as <- <-.
  apply Hn. by apply (list_elem_of_fmap_2 fst _ (j', d')).
Qed.

Section written.
Context (parse : string -> option Z) (iso : Z -> string).

Lemma cast_back_names ps : NoDup ps.*1 -> NoDup ((fun '(name, m) => (name, read_moment iso m)) <$> moments ps).*1.
Proof.
  intros Hd. rewrite <- list_fmap_compose. erewrite list_fmap_ext; [by apply moments_names|]. by intros _ [? ?] _.
Qed.

Lemma own_codec_from ps r k :
  NoDup ps.*1 -> own (codec_from iso ps r) k = casted (read_moment iso <$> own (moments ps) k) <$> own (from r) k.
Proof.
  intros Hd. unfold codec_from. rewrite own_convert by by apply cast_back_names. by rewrite own_map.
Qed.

(** a moment as it is declared: the text a date has, or the milliseconds of one *)
Definition presented (m : moment) (v : datum) : Prop :=
  v = DNull \/
  match m with
  | DateTime => exists s t, v = DString s /\ parse s = Some t /\ iso t = s
  | EpochMillis => exists t, v = DNumber t /\ clip t = Some t
  end.

Lemma presented_read m v : presented m v -> casted (Some (read_moment iso m)) (casted (Some (date parse)) v) = v.
Proof.
  intros [->|H]; [done|]. destruct m.
  - destruct H as (s & t & -> & Hp & Hi). cbn. rewrite Hp. cbn. by rewrite Hi.
  - destruct H as (t & -> & Hc). cbn. by rewrite Hc.
Qed.

Lemma dated_names ps : ((fun name => (name, date parse)) <$> dates ps).*1 = (moments ps).*1.
Proof. unfold dates. rewrite <- list_fmap_compose. rewrite <- (list_fmap_id (moments ps).*1) at 2. by apply list_fmap_ext. Qed.

Lemma own_dated ps k : own ((fun name => (name, date parse)) <$> dates ps) k = (fun _ => date parse) <$> own (moments ps) k.
Proof. unfold dates. induction (moments ps) as [|[n m] l IH]; cbn; [done|]. by case_decide. Qed.

(** what is written of an entity is what is read back: every property of it, the id among them, and a
    moment, which the collection holds as a date, as the entity declared it to be carried. *)
Theorem written_is_read ps e k :
  NoDup ps.*1 -> NoDup e.*1 -> own ps "_id" = None -> own e "_id" = None ->
  (forall name m v, own (moments ps) name = Some m -> own e name = Some v -> presented m v) ->
  own (codec_from iso ps (codec_to parse ps e)) k = own e k.
Proof.
  intros Hps Hd Hpi Hi Hm. unfold codec_from, codec_to.
  assert (own (moments ps) "_id" = None) as Hmi by (by rewrite own_moments, Hpi).
  set (r := convert _ (to e)).
  assert (forall j, own r j = casted ((fun _ => date parse) <$> own (moments ps) j) <$> own (to e) j) as Hr.
  { intros j. unfold r. rewrite own_convert by (rewrite dated_names; by apply moments_names). by rewrite own_dated. }
  rewrite own_convert, own_map by by apply cast_back_names.
  rewrite own_from, !Hr, !own_to by (done || (unfold r; by apply convert_names, to_names)
    || (rewrite Hr, own_to by done; done)).
  rewrite Hmi. cbn. repeat case_decide; subst; try done.
  - destruct (own e "id") as [v|] eqn:Hv; [cbn|done].
    destruct (own (moments ps) "id") as [m|] eqn:Hm'; [|done]. cbn. f_equal.
    destruct (Hm _ _ _ Hm' Hv) as [->|Hs]; [done|]. destruct m; naive_solver.
  - destruct (own e k) as [v|] eqn:Hv; [cbn|done].
    destruct (own (moments ps) k) as [m|] eqn:Hm'; [|done]. cbn [fmap option_fmap option_map]. f_equal. by apply presented_read, (Hm k).
Qed.
End written.

(** ** What a query selects *)

Lemma every_app {A} (f : A -> result string bool) l k b b' :
  every f l = Ok b -> every f k = Ok b' -> every f (l ++ k) = Ok (b && b').
Proof.
  induction l as [|x l IH]; cbn; [by intros [= <-]|]. destruct (f x) as [[]|e]; [by apply IH|by intros [= <-] _|done].
Qed.

Lemma match_assign r c k v b b' :
  own c k = None -> match_ r c = Ok b -> matches r k v = Ok b' -> match_ r (assign k v c) = Ok (b && b').
Proof.
  intros Hk Hc Hv. assert (assign k v c = c ++ [(k, v)]) as ->.
  { clear Hc. induction c as [|[j w] c IH]; [done|]. cbn [own assign] in *. destruct (decide (j = k)); [done|]. cbn. by rewrite IH. }
  apply every_app; [exact Hc|]. cbn. rewrite Hv. by destruct b'.
Qed.

Lemma own_also {A} (x : option A) k f c j : k <> j -> own (also x k f c) j = own c j.
Proof. intros H. unfold also. destruct x; [by apply own_assign_ne | done]. Qed.

Lemma match_also {A} r (x : option A) k f c b (t : A -> bool) :
  (x <> None -> own c k = None) -> match_ r c = Ok b -> (forall v, matches r k (f v) = Ok (t v)) ->
  match_ r (also x k f c) = Ok (b && match x with Some v => t v | None => true end).
Proof.
  intros Hk Hc Hf. destruct x as [v|]; cbn; [|by rewrite andb_true_r].
  by apply match_assign; [apply Hk | | apply Hf].
Qed.

(** what compares the value of a record with what a criterion says *)
Definition compared (operator : string) (value : option datum) (operand : datum) : bool :=
  let listed := match operand with DArray os => existsb (eq_ value) os | _ => false end in
  if decide (operator = "==") then eq_ value operand
  else if decide (operator = "!=") then negb (eq_ value operand)
  else if decide (operator = "=in=") then listed
  else if decide (operator = "=out=") then negb listed
  else if decide (operator = ">") then some_ value (fun v => is_ [Gt] v operand)
  else if decide (operator = ">=") then some_ value (fun v => is_ [Gt; Eq] v operand)
  else if decide (operator = "<") then some_ value (fun v => is_ [Lt] v operand)
  else some_ value (fun v => is_ [Lt; Eq] v operand).

Section selected.
Context (parse : string -> option Z) (ds : list string).

Fixpoint holds (r : doc) (n : Node) : bool :=
  match n with
  | Logic operator a b => if decide (operator = ";") then holds r a && holds r b else holds r a || holds r b
  | Comparison operator selector v =>
      compared operator (read r (rename selector)) (if bool_decide (rename selector ∈ ds) then dated parse (held v) else held v)
  end.

(** criteria as they are parsed of a request: of the operators there are, a list where one is compared with *)
Fixpoint parsed (n : Node) : Prop :=
  match n with
  | Logic operator a b => (operator = ";" \/ operator = ",") /\ parsed a /\ parsed b
  | Comparison operator selector v =>
      is_Some (comparing operator) /\ dollar selector = false /\
      (operator = "=in=" \/ operator = "=out=" -> exists vs, v = VArray vs)
  end.

Lemma rename_dollar s : dollar s = false -> dollar (rename s) = false.
Proof. unfold rename. by case_bool_decide. Qed.

Lemma matches_field r k c : dollar k = false -> matches r k c = field (read r k) c.
Proof. intros Hk. destruct c; cbn [matches]; rewrite Hk; repeat case_decide; subst; done. Qed.

Lemma compared_tested o op value operand :
  comparing o = Some op -> (o = "=in=" \/ o = "=out=" -> exists os, operand = DArray os) ->
  dollar op = true /\ test op value operand = Some (Ok (compared o value operand)).
Proof.
  intros Ho Hl. unfold comparing in Ho. apply own_Some in Ho.
  repeat (apply elem_of_cons in Ho as [[= -> ->]|Ho]); [..|by apply elem_of_nil in Ho]; split; try reflexivity.
  all: destruct Hl as [os ->]; [auto | reflexivity].
Qed.

Lemma field_one operator value operand b :
  dollar operator = true -> test operator value operand = Some (Ok b) -> field value (DObject [(operator, operand)]) = Ok b.
Proof.
  intros Hd Ht. unfold field, operators. rewrite bool_decide_eq_false_2 by done. cbn [forallb fst negb andb]. rewrite Hd.
  cbn [andb every]. rewrite Ht. by destruct b.
Qed.

Lemma criteria_matched n r : parsed n -> exists f, criteria_ parse ds n = Ok f /\ match_ r f = Ok (holds r n).
Proof.
  induction n as [o a IHa b IHb|o s v]; cbn [parsed criteria_ holds].
  - intros (Ho & Ha & Hb). destruct (IHa Ha) as (f & -> & Hf), (IHb Hb) as (g & -> & Hg).
    eexists. split; [reflexivity|]. change (every (fun p => let '(k, c) := p in matches r k c) f = Ok (holds r a)) in Hf.
    change (every (fun p => let '(k, c) := p in matches r k c) g = Ok (holds r b)) in Hg.
    destruct Ho as [->| ->]; cbn; rewrite Hf; destruct (holds r a); cbn; rewrite ?Hg; by destruct (holds r b).
  - intros ([op Ho] & Hs & Hl). rewrite Ho. eexists. split; [reflexivity|].
    unfold match_. cbn [every]. rewrite matches_field by by apply rename_dollar.
    set (operand := if bool_decide (rename s ∈ ds) then dated parse (held v) else held v).
    destruct (compared_tested o op (read r (rename s)) operand Ho) as [Hd Ht].
    { intros Hi. destruct (Hl Hi) as [vs ->]. unfold operand. case_bool_decide; cbn; eauto. }
    rewrite (field_one _ _ _ _ Hd Ht). by destruct (compared _ _ _).
Qed.

(** what a query names of a record, beside its criteria *)
Definition named (q : Query) (r : doc) : bool :=
  match q_id q with Some i => eq_ (read r "_id") (DString i) | None => true end &&
  match q_ids q with Some names => existsb (eq_ (read r "_id")) (DString <$> names) | None => true end &&
  match q_version q with Some v => eq_ (read r "VERSION") (DNumber v) | None => true end &&
  (bool_decide ((q_options q ≫= deleted) = Some true) || eq_ (read r "DELETED") DNull).

(** one comparison, and of what the query names as well *)
Definition overlapping (q : Query) : Prop :=
  exists o s v, q_criteria q = Some (Comparison o s v) /\
    (rename s = "_id" /\ (is_Some (q_id q) \/ is_Some (q_ids q)) \/
     rename s = "VERSION" /\ is_Some (q_version q) \/
     rename s = "DELETED" /\ (q_options q ≫= deleted) <> Some true).

(** a query reads the records its criteria hold of and it names, tombstones left out: the filter a
    query is translated to matches a record exactly if each comparison holds of it under the connectives
    of the criteria, and it has the id, is among the ids, is of the version, and is not deleted, as the
    query says each; unless what is compared is what the query names beside it. *)
Theorem found_is_selected q r :
  default True (parsed <$> q_criteria q) -> q_search q = None -> (q_id q = None \/ q_ids q = None) -> ~ overlapping q ->
  exists c, find_criteria parse ds q = Ok c /\
    match_ r c = Ok (default true (holds r <$> q_criteria q) && named q r).
Proof.
  intros Hp Hs Hi Ho.
  assert (exists f, (match q_criteria q with None => Ok [] | Some n => criteria_ parse ds n end) = Ok f /\
    match_ r f = Ok (default true (holds r <$> q_criteria q)) /\
    (own f "_id" <> None -> q_id q = None /\ q_ids q = None) /\
    (own f "VERSION" <> None -> q_version q = None) /\
    (own f "DELETED" <> None -> (q_options q ≫= deleted) = Some true)) as (f & Hf & Hm & H1 & H2 & H3).
  { destruct (q_criteria q) as [n|] eqn:Hq; [|by exists []]. destruct (criteria_matched n r Hp) as (f & Hf & Hm).
    exists f. split; [done|]. split; [done|]. destruct n as [o a b|o s v].
    - cbn in Hf, Hp. destruct (criteria_ parse ds a), (criteria_ parse ds b); try done. injection Hf as <-.
      destruct Hp as ([->| ->] & _); done.
    - cbn [criteria_] in Hf. destruct (comparing o); [|done]. injection Hf as <-. cbn [own].
      split_and!.
      + destruct (decide (rename s = "_id")); [intros _|done].
        destruct (decide (q_id q = None /\ q_ids q = None)) as [|Hn]; [done|]. destruct Ho. exists o, s, v.
        split; [done|]. left. split; [done|]. destruct (q_id q), (q_ids q); naive_solver eauto.
      + destruct (decide (rename s = "VERSION")); [intros _|done].
        destruct (q_version q) eqn:Hv; [|done]. destruct Ho. exists o, s, v. rewrite Hv. naive_solver eauto.
      + destruct (decide (rename s = "DELETED")); [intros _|done].
        destruct (decide ((q_options q ≫= deleted) = Some true)); [done|]. destruct Ho. exists o, s, v. naive_solver. }
  unfold find_criteria, translate, alive, named. rewrite Hf, Hs. cbn [mbind result_bind].
  set (d := default true _) in *. clear Hf Hp Ho.
  eexists. split; [reflexivity|]. cbn [also].
  assert (forall k x y, own f k = x -> (x <> None -> y) -> (~ y) -> own f k = None) as Hfree by (intros k [] y; naive_solver).
  rewrite <- !andb_assoc, !andb_assoc.
  assert (match_ r (also (q_id q) "_id" DString f) =
    Ok (d && match q_id q with Some i => eq_ (read r "_id") (DString i) | None => true end)) as Hm1.
  { apply (match_also r (q_id q) "_id" DString f d (fun i => eq_ (read r "_id") (DString i))); [|exact Hm|intros v; apply matches_field; done]. intros Hn. eapply Hfree; [done | exact H1 | naive_solver]. }
  eapply (match_also r (q_ids q) "_id" (fun names => DObject [("$in", DArray (DString <$> names))]) _ _
    (fun names => existsb (eq_ (read r "_id")) (DString <$> names))) in Hm1.
  2: { intros Hn. destruct Hi as [Hi|Hi]; [|done]. rewrite Hi. cbn. eapply Hfree; [done | exact H1 | naive_solver]. }
  2: { intros v. rewrite matches_field by done. by apply field_one. }
  eapply (match_also r (q_version q) "VERSION" DNumber _ _ (fun v => eq_ (read r "VERSION") (DNumber v))) in Hm1.
  2: { intros Hn. rewrite !own_also by done. eapply Hfree; [done | exact H2 | naive_solver]. }
  2: done.
  case_bool_decide as Hdel; cbn [orb also].
  - rewrite andb_true_r. exact Hm1.
  - eapply (match_assign r _ "DELETED" DNull) in Hm1; [exact Hm1 | | by apply matches_field].
    rewrite !own_also by done. eapply Hfree; [done | exact H3 | naive_solver].
Qed.
End selected.

(** ** What is not meant *)

(** a comparison of the id beside the id itself is not made: what is read is the record of the id, whether
    the criteria hold of it or not *)
Theorem criterion_on_id_is_dropped parse ds i o op v r :
  comparing o = Some op ->
  let q := mkQuery (Some i) None None (Some (Comparison o "id" v)) None None in
  find_criteria parse ds q = find_criteria parse ds (mkQuery (Some i) None None None None None) /\
  (own r "_id" = Some (DString i) -> own r "DELETED" = None ->
   exists c, find_criteria parse ds q = Ok c /\ match_ r c = Ok true).
Proof.
  intros Ho q. assert (find_criteria parse ds q = Ok [("_id", DString i); ("DELETED", DNull)]) as Hf.
  { unfold find_criteria, translate, q. cbn [q_criteria criteria_]. rewrite Ho. reflexivity. }
  split; [exact Hf|]. intros Hi Hd. eexists. split; [exact Hf|]. unfold match_. cbn [every].
  rewrite !matches_field, !read_name by (done || apply (bool_decide_eq_true_1 _); reflexivity). rewrite Hi, Hd.
  cbn. by rewrite eq_text, bool_decide_eq_true_2.
Qed.

Lemma item_digit i key ds d : item i key ds = Some d -> exists j : nat, key = pretty j.
Proof. revert i. induction ds as [|x ds IH]; intros i; cbn; [done|]. case_decide; [by eexists | apply IH]. Qed.

(** a path through a list of objects is compared with each of them by the storage, and with none by what
    matches a change: it is read as what is not there *)
Theorem path_through_list_is_not_read r list key ds o operand :
  own r list = Some (DArray ds) -> "."%char ∉ chars list -> "."%char ∉ chars key ->
  key <> "length" -> (forall i : nat, key <> pretty i) -> dollar list = false ->
  o = "$gt" \/ o = "$gte" \/ o = "$lt" \/ o = "$lte" ->
  match_ r [(join "." [list; key], DObject [(o, operand)])] = Ok false.
Proof.
  intros Hr Hl Hk Hn Hi Hd Ho. unfold match_. cbn [every]. rewrite matches_field by by destruct list.
  assert (read r (join "." [list; key]) = None) as ->.
  { unfold read. rewrite (split_join "."%char) by (done || by repeat constructor). cbn [read_path at_key]. rewrite Hr.
    unfold at_key. rewrite bool_decide_eq_false_2 by done. destruct (item 0 key ds) eqn:He; [|done].
    apply item_digit in He as [j ->]. by destruct (Hi j). }
  rewrite (field_one o None operand false); destruct Ho as [->|[->|[->| ->]]]; try done.
Qed.

(** ** A collection of pots *)

Module Pots.
Definition parse (s : string) : option Z := if bool_decide (s = "2024-05-01T00:00:00.000Z") then Some 1714521600000 else None.

Definition iso (t : Z) : string := "2024-05-01T00:00:00.000Z".

Definition declared : list (string * Declared) :=
  [("id", mkDeclared "string" None); ("fired", mkDeclared "string" (Some "date-time"));
   ("CREATED", mkDeclared "integer" (Some "epoch-millis")); ("title", mkDeclared "string" None)].

Definition pot : doc :=
  [("id", DString "a"); ("title", DString "jug"); ("fired", DString "2024-05-01T00:00:00.000Z"); ("CREATED", DNumber 7);
   ("VERSION", DNumber 2)].

Example pot_written : codec_to parse declared pot =
  [("_id", DString "a"); ("title", DString "jug"); ("fired", DDate (Some 1714521600000)); ("CREATED", DDate (Some 7));
   ("VERSION", DNumber 2)].
Proof. reflexivity. Qed.

Lemma pot_is_read : own (codec_from iso declared (codec_to parse declared pot)) "fired" = Some (DString "2024-05-01T00:00:00.000Z").
Proof.
  change (own (codec_from iso declared (codec_to parse declared pot)) "fired" = own pot "fired").
  apply written_is_read; [apply (bool_decide_eq_true_1 _); reflexivity | apply (bool_decide_eq_true_1 _); reflexivity | reflexivity | reflexivity|].
  intros name m v Hm Hv. change (moments declared) with [("fired", DateTime); ("CREATED", EpochMillis)] in Hm. cbn [own] in Hm.
  destruct (decide (name = "fired")) as [->|Hf].
  - cbv in Hm, Hv. injection Hm as <-. injection Hv as <-. right. eexists _, _. done.
  - destruct (decide (name = "CREATED")) as [->|Hc].
    + cbv in Hm, Hv. injection Hm as <-. injection Hv as <-. right. eexists. done.
    + exfalso. repeat (rewrite decide_False in Hm by congruence). done.
Defined.

Definition query : Query :=
  mkQuery None None (Some 2)
    (Some (Logic ";" (Comparison "==" "title" (VString "jug")) (Logic "," (Comparison ">=" "fired" (VString "2024-05-01T00:00:00.000Z"))
      (Comparison "=in=" "id" (VArray [VString "b"]))))) None None.

Lemma pots_are_selected : exists c, find_criteria parse (dates declared) query = Ok c /\ match_ (codec_to parse declared pot) c = Ok true.
Proof.
  assert (forall r, exists c, find_criteria parse (dates declared) query = Ok c /\
    match_ r c = Ok (default true (holds parse (dates declared) r <$> q_criteria query) && named query r)) as H.
  { intros r. apply found_is_selected; [|done|by left|].
    - repeat split; cbn; try (by left); try (by right); try (by eexists); by intros [?|?].
    - intros (o & s & v & H & _). done. }
  destruct (H (codec_to parse declared pot)) as (c & Hc & Hm). exists c. split; [exact Hc|]. rewrite Hm. reflexivity.
Defined.
End Pots.
