(* ===== verification/Streams.v ===== *)
(** * Streams

    [connectors/storages.mongodb/src/streams.js]: a collection read as a stream of parts, in windows and
    then as what changed in it since a token, and a reader that keeps a copy of it as
    [documentation/collections.md] has it read. *)
From stdpp Require Import strings gmap sorting.
From S2P Require Import Prelude World Records.

Open Scope Z_scope.

(** ** Tokens *)

(** what a token carries: the position, the operation time of it, the last entry of a window by its id and
    by when it was created, and the hash of what it was issued for *)
Record Token := mkToken {
  t_p : option string;
  t_t : option string;
  t_id : option string;
  t_h : string;
  t_c : option (Z + Z * Z)
}.

(** what a stream yields *)
Inductive Part :=
| Entry (entity : doc)
| Removed (id : string)
| Ended (token : option string).

Inductive thrown :=
| QuerySyntaxException (message : string)
| StateHistoryException
| Raised (message : string)
| Refused (code : option Z).

Definition lost : thrown := StateHistoryException.

Definition VERSION : Z := 1.

Definition LOGICAL : list string := ["$and"; "$or"; "$nor"].

Definition UNMOVING : list string := ["_id"; "CREATED"].

Definition ENDINGS : list string := ["drop"; "rename"; "dropDatabase"; "invalidate"].

Definition LOST : list Z := [286; 280; 47].

Definition nullable (s : option string) : value := match s with Some s => VString s | None => VNull end.

Definition numeric (c : Z + Z * Z) : value := match c with inl n => VNumber n | inr (m, e) => VDecimal m e end.

(** the object that is encoded: of a window, or of a collection that was read *)
Definition token_value (t : Token) : value :=
  VObject ([("v", VNumber VERSION); ("p", nullable (t_p t))] ++
    match t_id t with Some i => [("t", nullable (t_t t)); ("id", VString i)] | None => [] end ++
    [("h", VString (t_h t))] ++
    match t_c t with Some c => [("c", numeric c)] | None => [] end).

(** what of an object is a token: [valid] *)
Definition token_of (v : value) : result thrown Token :=
  match v with
  | VObject fields =>
      match own fields "v", own fields "h", own fields "p" with
      | Some (VNumber 1), Some (VString h), Some p =>
          p ← (match p with VString p => Ok (Some p) | VNull => Ok None | _ => Throw lost end);
          i ← (match own fields "id" with None => Ok None | Some (VString i) => Ok (Some i) | _ => Throw lost end);
          c ← (match own fields "c" with
               | None => Ok None
               | Some (VNumber n) => Ok (Some (inl n))
               | Some (VDecimal m e) => Ok (Some (inr (m, e)))
               | _ => Throw lost
               end);
          t ← (match i, own fields "t" with
               | _, Some (VString t) => Ok (Some t)
               | _, Some VNull | None, _ => Ok None
               | _, _ => Throw lost
               end);
          Ok (mkToken p t i h c)
      | _, _, _ => Throw lost
      end
  | _ => Throw lost
  end.

(** ** The order of a read in windows *)

Notation ordering := (list (string * Z)) (only parsing).

Definition moving (property : string) : string :=
  "A stream read in windows is not ordered by '" +:+ property +:+ "', which changes".

Definition ordered (sort : option ordering) : result thrown ordering :=
  match default [] sort with
  | [] => Ok [("_id", 1)]
  | (first, direction) :: _ as sort =>
      match find (fun p => negb (bool_decide (fst p ∈ UNMOVING))) sort with
      | Some (property, _) => Throw (QuerySyntaxException (moving property))
      | None => Ok (if bool_decide (first = "_id") then [("_id", direction)] else [("CREATED", direction); ("_id", direction)])
      end
  end.

(** the last entry of a window *)
Record After := mkAfter { a_id : string; a_c : option (Z + Z * Z) }.

(** [new Date(after.c)] *)
Definition instant (c : option (Z + Z * Z)) : datum :=
  match c with
  | None => DDate None
  | Some (inl n) => date (fun _ => None) (DNumber n)
  | Some (inr (m, e)) => date (fun _ => None) (DDecimal m e)
  end.

Definition beyond (order : ordering) (after : After) : doc :=
  match order with
  | [] => []
  | (first, direction) :: _ =>
      let past := if bool_decide (direction = 1) then "$gt" else "$lt" in
      if bool_decide (first = "_id") then [("_id", DObject [(past, DString (a_id after))])]
      else
        let c := instant (a_c after) in
        [("$or", DArray [DObject [("CREATED", DObject [(past, c)])];
                         DObject [("CREATED", c); ("_id", DObject [(past, DString (a_id after))])]])]
  end.

(** ** A filter against an image of a change *)

Definition unread (key : string) : string := "What changed in a collection cannot be read by '" +:+ key +:+ "'".

(** [prefix]; each filter of a logical operator is an object, as [translate] writes it *)
Definition prefixed {A} (f : A -> result thrown A) : list A -> result thrown (list A) :=
  fix prefixed l :=
    match l with
    | [] => Ok []
    | x :: l => x ← f x; l ← prefixed l; Ok (x :: l)
    end.

Fixpoint prefix_entry (path key : string) (v : datum) {struct v} : result thrown (string * datum) :=
  if bool_decide (key ∈ LOGICAL) then
    match v with
    | DArray filters =>
        filters ← prefixed (fun d =>
          match d with
          | DObject fields =>
              fields ← prefixed (fun p => match p with (k, w) => prefix_entry path k w end) fields;
              Ok (DObject fields)
          | _ => Ok (DObject [])
          end) filters;
        Ok (key, DArray filters)
    | _ => Throw (Raised "value.map is not a function")
    end
  else if dollar key then Throw (QuerySyntaxException (unread key))
  else Ok (path +:+ key, v).

Definition prefix (filter : doc) (path : string) : result thrown doc :=
  prefixed (fun p => match p with (k, w) => prefix_entry path k w end) filter.

(** ** Changes *)

Record event := mkEvent {
  operationType : string;
  documentKey : string;
  fullDocument : option doc;
  fullDocumentBeforeChange : option doc
}.

(** what an event is to the pipeline it passes *)
Definition image (e : event) : doc :=
  [("operationType", DString (operationType e)); ("documentKey", DObject [("_id", DString (documentKey e))])] ++
  match fullDocument e with Some r => [("fullDocument", DObject r)] | None => [] end ++
  match fullDocumentBeforeChange e with Some r => [("fullDocumentBeforeChange", DObject r)] | None => [] end.

Definition ending (e : event) : bool := bool_decide (operationType e ∈ ENDINGS).

(** an exception of the driver: its code, and whether it is labelled as of a stream that is not resumed *)
Record failure := mkFailure { code : option Z; labelled : bool }.

Definition refusal (e : failure) : thrown :=
  if match code e with Some c => bool_decide (c ∈ LOST) | None => false end || labelled e then lost else Refused (code e).

Section streams.
(** [JSON.stringify] and [JSON.parse] with the encoding of the text, the hash of a value in text, and the
    reading of a record *)
Context (written : value -> string) (parsed : string -> option value) (sha1 : datum -> string) (from : doc -> doc).

Definition encode (t : Token) : string := written (token_value t).

Definition decode (given : string) : result thrown Token :=
  match parsed given with Some v => token_of v | None => Throw lost end.

Definition digest (criteria : doc) (sort : option ordering) : string :=
  String.substring 0 16 (sha1 (DArray [DObject criteria;
    match sort with
    | Some sort => DArray ((fun '(property, direction) => DArray [DString property; DNumber direction]) <$> sort)
    | None => DNull
    end])).

(** what is asked of the collection: records, as they were no earlier than the time given, or the events
    after a position *)
Inductive plan :=
| Finds (position : option (string * option string)) (since : option string) (order : option ordering) (filter : doc) (read : Read) (hash : string)
| Watches (start : string) (pipeline : doc) (criteria : doc) (limit : option Z) (hash : string).

Definition reads (c : doc) (o : Read) (hash : string) (since : option string) (position : option (string * option string))
    (after : option After) : result thrown plan :=
  order ← (match limit_ o, after with None, None => Ok None | _, _ => Some <$> ordered (sort_ o) end);
  let filter := match after, order with
                | Some after, Some order => [("$and", DArray [DObject c; DObject (beyond order after)])]
                | _, _ => c
                end in
  Ok (Finds position since order filter o hash).

Definition changes (c : doc) (o : Read) (hash : string) (p : string) : result thrown plan :=
  a ← prefix c "fullDocument.";
  b ← prefix c "fullDocumentBeforeChange.";
  Ok (Watches p
    [("$or", DArray [DObject a; DObject b; DObject [("operationType", DObject [("$in", DArray (DString <$> ENDINGS))])]])]
    c (limit_ o) hash).

(** [stream]: [history] is whether positions can be taken, and [position] what a session that takes one is
    answered *)
Definition stream (history : bool) (position : string * string) (c : doc) (o : Read) (given : option string) : result thrown plan :=
  let hash := digest c (sort_ o) in
  match given with
  | None => reads c o hash (if history then Some (snd position) else None) (if history then Some (fst position, Some (snd position)) else None) None
  | Some given =>
      token ← decode given;
      if negb (bool_decide (t_h token = hash)) then Throw (QuerySyntaxException "The token was issued for other criteria or order")
      else
        match t_id token, t_p token with
        | Some i, Some p =>
            if negb history then Throw lost
            else reads c o hash (t_t token) (Some (p, t_t token)) (Some (mkAfter i (t_c token)))
        | Some i, None => reads c o hash (t_t token) None (Some (mkAfter i (t_c token)))
        | None, Some p => if negb history then Throw lost else changes c o hash p
        | None, None => Throw lost
        end
  end.

(** *** What is yielded of the records that were found *)

Definition created (r : doc) : option (Z + Z * Z) := match own r "CREATED" with Some (DDate (Some t)) => Some (inl t) | _ => None end.

Definition text (v : option datum) : string := match v with Some (DString s) => s | _ => "" end.

(** the token a read ends with; a window of none that is full ends with none, as there is no last *)
Definition ended (position : option (string * option string)) (order : option ordering) (o : Read) (hash : string)
    (records : list doc) : list Part :=
  if bool_decide (limit_ o = Some (Z.of_nat (length records))) && negb (stop_ o) then
    match last records with
    | None => []
    | Some r =>
        let c := match order with Some (("CREATED", _) :: _) => created r | _ => None end in
        [Ended (Some (encode (mkToken (fst <$> position) (position ≫= snd) (Some (text (own r "_id"))) hash c)))]
    end
  else [Ended ((fun position => encode (mkToken (Some (fst position)) None None hash None)) <$> position)].

Definition found (position : option (string * option string)) (order : option ordering) (o : Read) (hash : string)
    (records : list doc) : list Part :=
  ((fun r => Entry (from r)) <$> records) ++ ended position order o hash records.

(** *** What is yielded of the events that were answered *)

Definition matched (image : option doc) (c : doc) : result string bool :=
  match image with Some r => match_ r c | None => Ok false end.

Definition classify (e : event) (c : doc) : result string (option Part) :=
  after ← matched (fullDocument e) c;
  if after : bool then Ok ((fun r => Entry (from r)) <$> fullDocument e)
  else
    before ← matched (fullDocumentBeforeChange e) c;
    Ok (if before : bool then Some (Removed (documentKey e)) else None).

(** [resume] is the position of the stream after as many events: parts, and the exception they end with *)
Fixpoint followed (c : doc) (limit : option Z) (hash : string) (resume : nat -> string) (count : Z) (k : nat)
    (answered : list (result failure event)) : list Part * option thrown :=
  let token := Ended (Some (encode (mkToken (Some (resume k)) None None hash None))) in
  match answered with
  | [] => ([token], None)
  | Throw e :: _ => ([], Some (refusal e))
  | Ok e :: answered =>
      if ending e then ([], Some lost)
      else
        match classify e c with
        | Throw message => ([], Some (Raised message))
        | Ok part =>
            let count := if part then count + 1 else count in
            let token := Ended (Some (encode (mkToken (Some (resume (S k))) None None hash None))) in
            let '(parts, exception) :=
              if match limit with Some l => l <=? count | None => false end then ([token], None)
              else followed c limit hash resume count (S k) answered in
            (option_list part ++ parts, exception)
        end
  end.

(** the first event is read before a part is sent, where its refusal is still an answer *)
Definition watched (c : doc) (limit : option Z) (hash : string) (resume : nat -> string)
    (answered : list (result failure event)) : result thrown (list Part * option thrown) :=
  match answered with
  | Throw e :: _ => Throw (refusal e)
  | _ => Ok (followed c limit hash resume 0 0 answered)
  end.
End streams.

(** ** Lemmas *)

(** *** Tokens *)

Lemma token_of_value t : (t_id t = None -> t_t t = None) -> token_of (token_value t) = Ok t.
Proof. destruct t as [[p|] [u|] [i|] h [[n|[m e]]|]]; intros H; try reflexivity; by specialize (H eq_refl). Qed.

(** *** Filters of an image *)

Lemma prefixed_Forall2 {A} (f : A -> result thrown A) l l' : prefixed f l = Ok l' -> Forall2 (fun x y => f x = Ok y) l l'.
Proof.
  revert l'. induction l as [|x l IH]; intros l'; cbn; [by intros [= <-]|].
  destruct (f x) as [y|] eqn:Hx; [|done]. cbn. fold (prefixed f l). destruct (prefixed f l) as [ys|]; [|done].
  intros [= <-]. constructor; [done | by apply IH].
Qed.

Lemma every_Forall2 {A B} (f : A -> result string bool) (g : B -> result string bool) l l' :
  Forall2 (fun x y => g y = f x) l l' -> every g l' = every f l.
Proof. induction 1 as [|x y l l' Hxy _ IH]; [done|]. cbn. rewrite Hxy. destruct (f x) as [[]|]; [exact IH | done..]. Qed.

Lemma some_Forall2 {A B} (f : A -> result string bool) (g : B -> result string bool) l l' :
  Forall2 (fun x y => g y = f x) l l' -> some g l' = some f l.
Proof. induction 1 as [|x y l l' Hxy _ IH]; [done|]. cbn. rewrite Hxy. destruct (f x) as [[]|]; [done | exact IH | done]. Qed.

Lemma read_prefixed (i : doc) name (r : option doc) key :
  "."%char ∉ chars name -> own i name = DObject <$> r -> read i (name +:+ "." +:+ key) = read (default [] r) key.
Proof.
  intros Hn Hi. unfold read at 1, split. rewrite !chars_app. cbn [chars app].
  rewrite split_chars_sep by done. rewrite reverse_nil. cbn. rewrite of_chars_chars, Hi.
  unfold read. destruct r as [r|]; [reflexivity|]. cbn. unfold split.
  destruct (split_chars "." [] (chars key)) eqn:Hs; [by apply split_chars_nonempty in Hs | done].
Qed.

Section images.
Context (i : doc) (name : string) (r : option doc).
Context (Hname : "."%char ∉ chars name) (Hdollar : dollar name = false) (Hi : own i name = DObject <$> r).

Notation path := (name +:+ ".") (only parsing).

Definition imaged (v : datum) : Prop :=
  forall key k' v', prefix_entry path key v = Ok (k', v') -> matches i k' v' = matches (default [] r) key v.

Definition each_imaged (v : datum) : Prop :=
  imaged v /\ match v with DObject fields => Forall (fun p => imaged (snd p)) fields | _ => True end.

Lemma dollar_app s t : dollar s = false -> s <> "" -> dollar (s +:+ t) = false.
Proof. by destruct s. Qed.

Lemma field_imaged key v k' v' :
  key ∉ LOGICAL -> prefix_entry path key v = Ok (k', v') -> matches i k' v' = matches (default [] r) key v.
Proof.
  intros Hk Hp. assert ((if dollar key then Throw (QuerySyntaxException (unread key)) else Ok (path +:+ key, v)) = Ok (k', v')) as Hq.
  { destruct v; cbn [prefix_entry] in Hp; by rewrite bool_decide_eq_false_2 in Hp. }
  destruct (dollar key) eqn:Hd; [done|]. injection Hq as <- <-.
  rewrite !matches_field; [|done|]. 2: { destruct name as [|c s]; [done|exact Hdollar]. }
  f_equal. rewrite string_app_assoc. by apply read_prefixed.
Qed.

Lemma all_imaged v : each_imaged v.
Proof.
  assert (forall v, match v with DArray _ => False | _ => True end -> imaged v) as Hflat.
  { intros w Hw key k' v' Hp. destruct (decide (key ∈ LOGICAL)) as [Hk|Hk]; [|by apply field_imaged].
    destruct w; cbn [prefix_entry] in Hp; by rewrite bool_decide_eq_true_2 in Hp. }
  induction v as [| | | | | |ds IH|fields IH] using datum_induction; try (split; [by apply Hflat | done]).
  - split; [|done]. intros key k' v' Hp. destruct (decide (key ∈ LOGICAL)) as [Hk|Hk]; [|by apply field_imaged].
    cbn [prefix_entry] in Hp. rewrite bool_decide_eq_true_2 in Hp by done.
    match type of Hp with (filters ← prefixed ?F ds; _) = _ => destruct (prefixed F ds) as [fs|] eqn:Hf; [|done] end.
    injection Hp as <- <-. apply prefixed_Forall2 in Hf.
    set (test j d := match d with DObject fields => every (fun p => match p with (k, c) => matches j k c end) fields | _ => Ok true end).
    assert (Forall2 (fun x y => test i y = test (default [] r) x) ds fs) as H2.
    { eapply Forall2_impl in Hf; [|intros x y H; exact H]. apply Forall2_same_length_lookup in Hf as [Hl Hf].
      apply Forall2_same_length_lookup. split; [done|]. intros n x y Hx Hy. specialize (Hf n x y Hx Hy).
      rewrite Forall_forall in IH. destruct (IH x) as [_ Hx']; [by eapply list_elem_of_lookup_2|].
      destruct x as [| | | | | | |xs]; try (by injection Hf as <-). cbn in Hf.
      match type of Hf with (fields ← ?X; _) = _ => destruct X as [ys|] eqn:Hys; [|done] end. injection Hf as <-.
      apply prefixed_Forall2 in Hys. unfold test. apply every_Forall2.
      apply Forall2_same_length_lookup in Hys as [Hl' Hys]. apply Forall2_same_length_lookup. split; [done|].
      intros m [k w] [k' w'] Hm Hm'. specialize (Hys m _ _ Hm Hm'). rewrite Forall_forall in Hx'.
      apply (Hx' (k, w)); [by eapply list_elem_of_lookup_2 | done]. }
    unfold LOGICAL in Hk. repeat (apply elem_of_cons in Hk as [->|Hk]); [..|by apply elem_of_nil in Hk];
      cbn [matches]; repeat (rewrite decide_False by done); rewrite decide_True by done; fold (test i) (test (default [] r)).
    + by apply every_Forall2.
    + by apply some_Forall2.
    + f_equal. by apply some_Forall2.
  - split; [by apply Hflat|]. eapply Forall_impl; [exact IH|]. intros p Hq. apply Hq.
Qed.

Lemma prefix_matched c c' : prefix c path = Ok c' -> match_ i c' = match_ (default [] r) c.
Proof.
  intros Hp%prefixed_Forall2. apply every_Forall2. eapply Forall2_impl; [exact Hp|].
  intros [k w] [k' w'] Hw. by apply (all_imaged w).
Qed.
End images.

(** *** What comes after the last entry of a window *)

Definition past (direction : Z) (c : comparison) : bool :=
  match c with Gt => bool_decide (direction = 1) | Lt => negb (bool_decide (direction = 1)) | Eq => false end.

Definition milliseconds (v : option datum) : Z := match v with Some (DDate (Some t)) => t | _ => 0 end.

(** a record comes after another in an order: by its id, or by when it was created and then by its id *)
Definition follows (order : ordering) (last r : doc) : bool :=
  let texts := compare_texts (chars (text (own r "_id"))) (chars (text (own last "_id"))) in
  match order with
  | [] => false
  | (first, direction) :: _ =>
      if bool_decide (first = "_id") then past direction texts
      else match milliseconds (own r "CREATED") ?= milliseconds (own last "CREATED") with
           | Eq => past direction texts
           | c => past direction c
           end
  end.

(** a record of a collection under its id: with the system properties an entity has *)
Record stored (k : string) (r : doc) : Prop := {
  s_names : NoDup r.*1;
  s_renamed : own r "id" = None;
  s_id : own r "_id" = Some (DString k);
  s_version : exists v, own r "VERSION" = Some (DNumber v);
  s_created : exists t, own r "CREATED" = Some (DDate (Some t)) /\ clip t = Some t
}.

Definition after_of (order : ordering) (r : doc) : After :=
  mkAfter (text (own r "_id")) (match order with ("CREATED", _) :: _ => created r | _ => None end).

Lemma ordered_kinds sort order :
  ordered sort = Ok order -> exists d, order = [("_id", d)] \/ order = [("CREATED", d); ("_id", d)].
Proof.
  unfold ordered. destruct (default [] sort) as [|[first d] l]; [intros [= <-]; eauto|].
  destruct (find _ _) as [[]|]; [done|]. intros [= <-]. case_bool_decide; eauto.
Qed.

Lemma some_none v : (forall vs, v <> DArray vs) -> forall f, some_ (Some v) f = f (Some v).
Proof. intros Hv f. unfold some_. destruct v; rewrite ?orb_false_r; try done. by destruct (Hv ds). Qed.

Lemma past_test d v o c :
  compare v o = Some c -> (forall vs, v <> DArray vs) ->
  some_ (Some v) (fun v => is_ [if bool_decide (d = 1) then Gt else Lt] v o) = past d c.
Proof. intros Hc Hv. rewrite some_none by done. unfold is_. rewrite Hc. unfold past. case_bool_decide; by destruct c. Qed.

Lemma past_field d v o c :
  compare v o = Some c -> (forall vs, v <> DArray vs) ->
  field (Some v) (DObject [(if bool_decide (d = 1) then "$gt" else "$lt", o)]) = Ok (past d c).
Proof.
  intros Hc Hv. rewrite <- (past_test d v o c) by done. apply field_one; by case_bool_decide.
Qed.

Lemma beyond_matched sort order k l last r :
  ordered sort = Ok order -> stored k last -> stored l r ->
  match_ r (beyond order (after_of order last)) = Ok (follows order last r).
Proof.
  intros Ho [_ _ Hk _ (u & Hu & Hc)] [_ _ Hl _ (t & Ht & _)].
  assert (forall d, field (read r "_id") (DObject [(if bool_decide (d = 1) then "$gt" else "$lt", DString k)]) =
    Ok (past d (compare_texts (chars l) (chars k)))) as Hid.
  { intros d. rewrite read_name, Hl by (apply (bool_decide_eq_true_1 _); reflexivity). by apply past_field. }
  assert (read r "CREATED" = Some (DDate (Some t))) as Hr by (rewrite read_name; [done|apply (bool_decide_eq_true_1 _); reflexivity]).
  apply ordered_kinds in Ho as [d [->| ->]]; unfold beyond, follows, after_of; cbn [a_id a_c]; rewrite Hk, Hl, ?Ht, ?Hu; cbn [text milliseconds].
  - rewrite !bool_decide_eq_true_2 by done. unfold match_. cbn [every]. rewrite matches_field, Hid by done. by destruct (past _ _).
  - rewrite !bool_decide_eq_false_2 by done. unfold created. rewrite Hu. cbn [instant]. unfold date. rewrite Hc.
    unfold match_. cbn [every].
    assert (forall fs gs b b', every (fun p => match p with (k, c) => matches r k c end) fs = Ok b ->
      every (fun p => match p with (k, c) => matches r k c end) gs = Ok b' ->
      matches r "$or" (DArray [DObject fs; DObject gs]) = Ok (b || b')) as Hor.
    { intros fs gs b b' H1 H2. cbn [matches]. rewrite decide_False, decide_True by done. cbn [some]. rewrite H1.
      destruct b; [done|]. rewrite H2. by destruct b'. }
    assert (field (read r "CREATED") (DObject [(if bool_decide (d = 1) then "$gt" else "$lt", DDate (Some u))]) = Ok (past d (t ?= u))) as Hp
      by (rewrite Hr; by apply past_field).
    assert (field (read r "CREATED") (DDate (Some u)) = Ok (t =? u)) as He.
    { rewrite Hr. unfold field. cbn [operators]. unfold eq_. rewrite some_none by done. reflexivity. }
    rewrite (Hor _ _ (past d (t ?= u)) ((t =? u) && past d (compare_texts (chars l) (chars k)))).
    + assert (forall b : bool, (if b then Ok true else Ok false) = Ok b :> result string bool) as -> by (by intros []).
      f_equal. rewrite Z.eqb_compare. destruct (t ?= u); [done|by rewrite orb_false_r..].
    + cbn [every]. rewrite matches_field, Hp by done. by destruct (past _ _).
    + cbn [every]. rewrite !matches_field, He, Hid by done. destruct (t =? u); [|done]. by destruct (past d (compare_texts (chars l) (chars k))).
Qed.

(** ** A reader that keeps a copy ([documentation/collections.md]) *)

Record Reader := mkReader { copy : gmap string doc; held_ : option string }.

Definition version (e : doc) : Z := match own e "VERSION" with Some (DNumber v) => v | _ => 0 end.

(** an entry is kept unless a later version of it is; what left the collection is dropped *)
Definition taken (copy : gmap string doc) (p : Part) : gmap string doc :=
  match p with
  | Entry e =>
      let k := text (own e "id") in
      match copy !! k with
      | Some e' => if version e <? version e' then copy else <[k := e]> copy
      | None => <[k := e]> copy
      end
  | Removed k => delete k copy
  | Ended _ => copy
  end.

Definition receive (r : Reader) (p : Part) : Reader :=
  mkReader (taken (copy r) p) (match p with Ended token => token | _ => held_ r end).

(** a read without a token is of the collection from its beginning *)
Definition begin_ (r : Reader) : Reader := match held_ r with None => mkReader ∅ None | Some _ => r end.

(** ** The collection, and what a storage answers of it *)

Section history.
Context (written : value -> string) (parsed : string -> option value) (sha1 : datum -> string).
Context (properties : list (string * Declared)) (iso : Z -> string).
(** the writes committed to the collection, in their order, and the texts of a position and of a time of it *)
Context (start : gmap string doc) (writes : list (string * option doc)) (mark time : nat -> string).
(** what the stream reads *)
Context (c : doc) (o : Read).

Definition write (v : gmap string doc) (w : string * option doc) : gmap string doc :=
  match snd w with Some r => <[fst w := r]> v | None => delete (fst w) v end.

(** the collection after as many writes *)
Definition view (n : nat) : gmap string doc := foldl write start (take n writes).

Definition event_at (n : nat) : option event :=
  (fun '(k, after) => mkEvent (match after, view n !! k with None, _ => "delete" | _, None => "insert" | _, _ => "replace" end)
     k after (view n !! k)) <$> writes !! n.

Definition selects (filter r : doc) : bool := bool_decide (match_ r filter = Ok true).

(** what of the collection the criteria select *)
Definition visible (n : nat) (k : string) : option doc :=
  match view n !! k with Some r => if selects c r then Some r else None | None => None end.

Definition shown (n : nat) (k : string) : option doc := codec_from iso properties <$> visible n k.

(** what a query is answered that is read while the collection is written to: records it had meanwhile, and
    each that was selected all the while, but those that come after the last of as many as it is limited to *)
Record finding (n m : nat) (filter : doc) (order : option ordering) (limit : option Z) (rs : list doc) : Prop := {
  f_were r : r ∈ rs -> exists u k, (n <= u <= m)%nat /\ view u !! k = Some r /\ selects filter r = true;
  f_few l : limit = Some l -> Z.of_nat (length rs) <= l;
  f_all k : (forall u, (n <= u <= m)%nat -> exists r, view u !! k = Some r /\ selects filter r = true) ->
    (exists r, r ∈ rs /\ own r "_id" = Some (DString k)) \/
    (exists z order', limit = Some (Z.of_nat (length rs)) /\ last rs = Some z /\ order = Some order' /\
      forall u r, (n <= u <= m)%nat -> view u !! k = Some r -> follows order' z r = true)
}.

(** events of no interest to a pipeline *)
Definition passed_by (pipeline : doc) (a b : nat) : Prop :=
  forall j e, (a <= j < b)%nat -> event_at j = Some e -> selects pipeline (image e) = false.

(** what a change stream answers from a position on: each event that passes the pipeline, in their order, up to
    some moment or a failure; and the position it has after as many *)
Inductive answering (m : nat) (pipeline : doc) (resume : nat -> string) : nat -> nat -> list (result failure event) -> Prop :=
| answered_all a k b :
    (a <= b <= m)%nat -> passed_by pipeline a b -> resume k = mark b -> answering m pipeline resume a k []
| answered_failure a k e : answering m pipeline resume a k [Throw e]
| answered_event a k j b e rest :
    (a <= j < b)%nat -> (b <= m)%nat -> passed_by pipeline a j -> passed_by pipeline (S j) b -> resume (S k) = mark b ->
    event_at j = Some e -> answering m pipeline resume (S j) (S k) rest -> answering m pipeline resume a k (Ok e :: rest).

Notation planned n r := (stream parsed sha1 true (mark n, time n) c o (held_ r)) (only parsing).

(** writes are committed while a reader reads, is answered as much as is not cut, and begins anew where its
    token is refused *)
Inductive reading : nat * Reader -> nat * Reader -> Prop :=
| Committed n r : (S n <= length writes)%nat -> reading (n, r) (S n, r)
| Dropped n r : reading (n, r) (n, mkReader ∅ None)
| Read_ n m r position s order filter rd hash rs ps :
    planned n r = Ok (Finds position (Some (time s)) order filter rd hash) ->
    (s <= n)%nat -> (n <= m <= length writes)%nat -> finding s m filter order (limit_ rd) rs ->
    ps `prefix_of` found written (codec_from iso properties) position order rd hash rs ->
    reading (n, r) (m, foldl receive (begin_ r) ps)
| Followed n m r a pipeline criteria limit hash resume answered ps out qs :
    planned n r = Ok (Watches (mark a) pipeline criteria limit hash) ->
    (n <= m <= length writes)%nat -> answering m pipeline resume a 0 answered ->
    watched written (codec_from iso properties) criteria limit hash resume answered = Ok (ps, out) ->
    qs `prefix_of` ps ->
    reading (n, r) (m, foldl receive r qs).

Inductive reached : nat * Reader -> Prop :=
| reached_start : reached (0%nat, mkReader ∅ None)
| reached_step w w' : reached w -> reading w w' -> reached w'.

(** the copy has of an id what the collection had under it at some moment since *)
Definition settled (p n : nat) (copy : gmap string doc) (k : string) : Prop :=
  exists u, (p <= u <= n)%nat /\ copy !! k = shown u k.

(** or nothing yet, as all the while it is what the rest of the collection has *)
Definition pending (p n : nat) (order : ordering) (after : After) (copy : gmap string doc) (k : string) : Prop :=
  copy !! k = None /\ forall u, (p <= u <= n)%nat -> exists r, visible u k = Some r /\ selects (beyond order after) r = true.

Definition accounted (p n : nat) (copy : gmap string doc) (t : Token) (k : string) : Prop :=
  match t_id t with
  | None => settled p n copy k
  | Some i => t_t t = Some (time p) /\
      (settled p n copy k \/ exists order, ordered (sort_ o) = Ok order /\ pending p n order (mkAfter i (t_c t)) copy k)
  end.

(** what is so of a reader that holds a token *)
Definition faithful (w : nat * Reader) : Prop :=
  (fst w <= length writes)%nat /\
  match held_ (snd w) with
  | None => True
  | Some g => exists t p, decode parsed g = Ok t /\ t_h t = digest sha1 c (sort_ o) /\ t_p t = Some (mark p) /\
      (p <= fst w)%nat /\ forall k, accounted p (fst w) (copy (snd w)) t k
  end.
End history.

(** ** Lemmas of the history *)

Section collection.
Context (properties : list (string * Declared)) (iso : Z -> string).
Context (start : gmap string doc) (writes : list (string * option doc)) (c : doc).

Notation view := (view start writes) (only parsing).
Notation visible := (visible start writes c) (only parsing).
Notation shown := (shown properties iso start writes c) (only parsing).
Notation event_at := (event_at start writes) (only parsing).
Notation settled := (settled properties iso start writes c) (only parsing).
Notation from := (codec_from iso properties) (only parsing).

(** what is so of the collection: each record is under its id, and what a record has of when it was created
    never changes, nor does a later one have a lesser version; and the criteria are decided of each *)
Record sound : Prop := {
  h_stored n k r : view n !! k = Some r -> stored k r;
  h_kept n m k r r' : (n <= m)%nat -> view n !! k = Some r -> view m !! k = Some r' ->
    own r "CREATED" = own r' "CREATED" /\ version r <= version r';
  h_decided r : exists b, match_ r c = Ok b;
  h_declared : NoDup properties.*1
}.

Context (Hs : sound).

Lemma selects_decided r b : match_ r c = Ok b -> selects c r = b.
Proof. unfold selects. intros ->. case_bool_decide; destruct b; congruence. Qed.

Lemma decided_selects r : match_ r c = Ok (selects c r).
Proof. destruct (h_decided Hs r) as [b Hb]. by rewrite (selects_decided r b Hb). Qed.

Lemma selects_and d r : selects [("$and", DArray [DObject c; DObject d])] r = selects c r && selects d r.
Proof.
  unfold selects at 1, match_. cbn [every matches]. rewrite decide_True by done. cbn [every].
  change (every (fun p => match p with (k, v) => matches r k v end) c) with (match_ r c).
  change (every (fun p => match p with (k, v) => matches r k v end) d) with (match_ r d).
  rewrite decided_selects. destruct (selects c r); [|done]. unfold selects. destruct (match_ r d) as [[]|]; done.
Qed.

Lemma visible_view n k r : visible n k = Some r <-> view n !! k = Some r /\ selects c r = true.
Proof. unfold Streams.visible. destruct (view n !! k) as [x|]; [|by split; [|intros []]].
  destruct (selects c x) eqn:Hx; split; [by intros [= <-] | by intros [[= <-] _] | done | intros [[= <-] ?]; congruence].
Qed.

Lemma visible_stored n k r : visible n k = Some r -> stored k r.
Proof. intros [Hr _]%visible_view. by apply (h_stored Hs) in Hr. Qed.

Lemma own_from_text k r name s : stored k r -> own (Records.from r) name = Some (DString s) -> own (from r) name = Some (DString s).
Proof.
  intros Hr Ho. rewrite own_codec_from by apply (h_declared Hs). rewrite Ho.
  destruct (own (moments properties) name) as [[]|]; done.
Qed.

Lemma from_id k r : stored k r -> own (from r) "id" = Some (DString k).
Proof.
  intros Hr. eapply own_from_text; [done|]. rewrite own_from by (by destruct Hr). cbn. apply Hr.
Qed.

Lemma from_version k r : stored k r -> version (from r) = version r.
Proof.
  intros Hr. unfold version. destruct (s_version _ _ Hr) as [v Hv]. rewrite own_codec_from by apply (h_declared Hs).
  rewrite own_from by (by destruct Hr). cbn. rewrite Hv. cbn. by destruct (own (moments properties) "VERSION") as [[]|].
Qed.

Lemma taken_entry copy k r :
  stored k r ->
  taken copy (Entry (from r)) = <[k := from r]> copy \/
  (taken copy (Entry (from r)) = copy /\ exists e, copy !! k = Some e /\ version r < version e).
Proof.
  intros Hr. unfold taken. rewrite (from_id k r Hr). cbn [text]. destruct (copy !! k) as [e|] eqn:He; [|by left].
  rewrite (from_version k r Hr). destruct (Z.ltb_spec (version r) (version e)); [right; eauto | by left].
Qed.

(** *** Writes and events *)

Lemma view_write n w : writes !! n = Some w -> view (S n) = write (view n) w.
Proof. intros Hw. unfold Streams.view. by rewrite (take_S_r _ _ _ Hw), foldl_app. Qed.

Lemma event_view j e :
  event_at j = Some e ->
  view (S j) = match fullDocument e with Some r => <[documentKey e := r]> (view j) | None => delete (documentKey e) (view j) end /\
  fullDocumentBeforeChange e = view j !! documentKey e /\ ending e = false /\ (j < length writes)%nat.
Proof.
  unfold Streams.event_at. destruct (writes !! j) as [[k after]|] eqn:Hw; [|done]. intros [= <-].
  rewrite (view_write j _ Hw). cbn. split_and!; [done|done| |by eapply lookup_lt_Some].
  unfold ending. cbn [operationType]. by destruct after, (view j !! k).
Qed.

Lemma event_after j e : event_at j = Some e -> view (S j) !! documentKey e = fullDocument e.
Proof. intros (-> & _)%event_view. destruct (fullDocument e); [apply lookup_insert_eq | apply lookup_delete_eq]. Qed.

Lemma event_other j e k : event_at j = Some e -> k <> documentKey e -> visible (S j) k = visible j k.
Proof.
  intros (Hv & _)%event_view Hk. unfold Streams.visible. rewrite Hv.
  destruct (fullDocument e); [by rewrite lookup_insert_ne | by rewrite lookup_delete_ne].
Qed.

Lemma no_event j : event_at j = None -> view (S j) = view j.
Proof.
  unfold Streams.event_at. destruct (writes !! j) as [[]|] eqn:Hw; [done|]. intros _. unfold Streams.view.
  apply lookup_ge_None in Hw. by rewrite !take_ge by lia.
Qed.

Lemma classified j e :
  event_at j = Some e ->
  classify from e c = Ok (match visible (S j) (documentKey e), visible j (documentKey e) with
                          | Some r, _ => Some (Entry (from r))
                          | None, Some _ => Some (Removed (documentKey e))
                          | None, None => None
                          end).
Proof.
  intros He. pose proof (event_after j e He) as Ha. apply event_view in He as (_ & Hb & _ & _).
  unfold classify, Streams.visible. rewrite Ha, Hb. unfold matched.
  destruct (fullDocument e) as [r|]; cbn; [rewrite decided_selects; destruct (selects c r); [done|cbn]|];
    (destruct (view j !! documentKey e) as [r'|]; cbn; [rewrite decided_selects; by destruct (selects c r')|done]).
Qed.

(** the pipeline of the changes: an event it does not pass is of what the criteria select neither before nor after *)
Lemma pipeline_passes o hash p position s q limit hash' j e :
  changes c o hash p = Ok (Watches s position q limit hash') ->
  event_at j = Some e -> selects position (image e) = false ->
  visible (S j) (documentKey e) = None /\ visible j (documentKey e) = None.
Proof.
  unfold changes. destruct (prefix c "fullDocument.") as [a|] eqn:Ha; [|done].
  destruct (prefix c "fullDocumentBeforeChange.") as [b|] eqn:Hb; [|done]. intros [= <- <- <- <- <-] He.
  pose proof (event_after j e He) as Hv. apply event_view in He as (_ & Hw & _).
  assert (match_ (image e) a = Ok (selects c (default [] (fullDocument e)))) as H1.
  { rewrite <- decided_selects. apply (prefix_matched _ "fullDocument"); [|done| |done].
    - apply (bool_decide_eq_true_1 _). reflexivity.
    - by destruct e as [? ? [] []]. }
  assert (match_ (image e) b = Ok (selects c (default [] (fullDocumentBeforeChange e)))) as H2.
  { rewrite <- decided_selects. apply (prefix_matched _ "fullDocumentBeforeChange"); [|done| |done].
    - apply (bool_decide_eq_true_1 _). reflexivity.
    - by destruct e as [? ? [] []]. }
  unfold selects at 1, match_. cbn [every matches]. rewrite decide_False, decide_True by done. cbn [some].
  change (every (fun p => match p with (k, v) => matches (image e) k v end) a) with (match_ (image e) a).
  change (every (fun p => match p with (k, v) => matches (image e) k v end) b) with (match_ (image e) b).
  rewrite H1, H2. intros Hp. unfold Streams.visible. rewrite Hv, <- Hw.
  destruct (selects c (default [] (fullDocument e))) eqn:Hs1; [by case_bool_decide|].
  destruct (selects c (default [] (fullDocumentBeforeChange e))) eqn:Hs2; [by case_bool_decide|].
  clear Hp H1 H2. split; [destruct (fullDocument e) | destruct (fullDocumentBeforeChange e)]; simpl in Hs1, Hs2; by rewrite ?Hs1, ?Hs2.
Qed.

(** *** What the copy has, as the collection changes *)

Lemma settled_wider p q n m copy k : (p <= q)%nat -> (n <= m)%nat -> settled q n copy k -> settled p m copy k.
Proof. intros Hp Hm (u & Hu & Hc). exists u. split; [lia | done]. Qed.

Lemma settled_past p q n copy k :
  (q <= n)%nat -> settled p n copy k -> (forall u, (p <= u <= q)%nat -> visible u k = visible q k) -> settled q n copy k.
Proof.
  intros Hq (u & Hu & Hc) Hv. destruct (decide (q <= u)%nat); [exists u; split; [lia|done]|].
  exists q. split; [lia|]. rewrite Hc. unfold Streams.shown. by rewrite Hv by lia.
Qed.

Lemma visible_still pipeline a b k :
  (forall j e, event_at j = Some e -> selects pipeline (image e) = false ->
    visible (S j) (documentKey e) = None /\ visible j (documentKey e) = None) ->
  passed_by start writes pipeline a b -> forall u, (a <= u <= b)%nat -> visible u k = visible b k.
Proof.
  intros Hp Hb u Hu. remember (b - u)%nat as d eqn:Hd. revert u Hu Hd. induction d as [|d IH]; intros u Hu Hd; [by replace u with b by lia|].
  rewrite <- (IH (S u)) by lia. destruct (event_at u) as [e|] eqn:He.
  - destruct (decide (k = documentKey e)) as [->|Hk]; [|symmetry; by eapply event_other].
    destruct (Hp u e He) as [-> ->]; [|done]. apply (Hb u); [lia|done].
  - unfold Streams.visible. by rewrite (no_event u He).
Qed.

Lemma entry_settled p n copy u k r :
  (p <= u <= n)%nat -> visible u k = Some r ->
  (copy !! k = None \/ exists q, (q <= u)%nat /\ (p <= q)%nat /\ settled q n copy k) ->
  settled p n (taken copy (Entry (from r))) k /\ taken copy (Entry (from r)) !! k <> None.
Proof.
  intros Hu Hv Hc. pose proof (visible_stored _ _ _ Hv) as Hr.
  destruct (taken_entry copy k r Hr) as [->|[-> (e & He & _)]].
  - split; [|by rewrite lookup_insert_eq]. exists u. split; [done|]. rewrite lookup_insert_eq. unfold Streams.shown. by rewrite Hv.
  - split; [|by rewrite He]. destruct Hc as [Hc|(q & Hq & Hp & Hc)]; [congruence|]. by eapply settled_wider; [| |exact Hc].
Qed.

Lemma taken_other copy k k' r : stored k r -> k' <> k -> taken copy (Entry (from r)) !! k' = copy !! k'.
Proof. intros Hr Hk. destruct (taken_entry copy k r Hr) as [->|[-> _]]; [by rewrite lookup_insert_ne | done]. Qed.

(** an event that is taken: the copy has of each id what the collection had of it since that event *)
Lemma event_settled j e n copy part :
  event_at j = Some e -> (S j <= n)%nat -> classify from e c = Ok part ->
  (forall k, settled j n copy k) -> forall k, settled (S j) n (foldl taken copy (option_list part)) k.
Proof.
  intros He Hn Hp Hc k. rewrite (classified j e He) in Hp. injection Hp as <-. set (id := documentKey e).
  assert (k <> id -> settled (S j) n copy k) as Hne.
  { intros Hk. apply (settled_past j); [lia|apply Hc|]. intros u Hu.
    destruct (decide (u = S j)) as [->|]; [done|]. replace u with j by lia. symmetry. by eapply event_other. }
  destruct (visible (S j) id) as [r|] eqn:Hv.
  - pose proof (visible_stored _ _ _ Hv) as Hr. destruct (decide (k = id)) as [->|Hk].
    + change (foldl _ _ _) with (taken copy (Entry (from r))). destruct (taken_entry copy id r Hr) as [->|[-> (x & Hx & Hlt)]].
      * exists (S j). split; [lia|]. rewrite lookup_insert_eq. unfold Streams.shown. by rewrite Hv.
      * destruct (Hc id) as (u & Hu & Hcu). exists u. split; [|done]. destruct (decide (u = j)) as [->|]; [|lia].
        exfalso. unfold Streams.shown in Hcu. destruct (visible j id) as [r'|] eqn:Hv'; [|simpl in Hcu; congruence].
        rewrite Hx in Hcu. injection Hcu as ->. rewrite (from_version id r') in Hlt by by eapply visible_stored.
        apply visible_view in Hv as [Hv _], Hv' as [Hv' _].
        destruct (h_kept Hs j (S j) id r' r) as [_ Hle]; [lia|done..|lia].
    + destruct (Hne Hk) as (u & Hu & Hcu). exists u. split; [done|]. change (foldl _ _ _) with (taken copy (Entry (from r))). by rewrite (taken_other copy id k r Hr Hk).
  - destruct (visible j id) as [r|] eqn:Hv'; destruct (decide (k = id)) as [->|Hk].
    + exists (S j). split; [lia|]. unfold Streams.shown. rewrite Hv. apply lookup_delete_eq.
    + destruct (Hne Hk) as (u & Hu & Hcu). exists u. split; [done|]. rewrite <- Hcu. by apply lookup_delete_ne.
    + apply (settled_past j); [lia|apply Hc|]. intros u Hu. destruct (decide (u = S j)) as [->|]; [done|].
      replace u with j by lia. by rewrite Hv, Hv'.
    + by apply Hne.
Qed.

(** *** Events that are received *)

Lemma receive_held r p : held_ (receive r p) = match p with Ended t => t | _ => held_ r end.
Proof. reflexivity. Qed.

Lemma classified_parts e part : classify from e c = Ok part -> forall p, p ∈ option_list part -> forall t, p <> Ended t.
Proof.
  unfold classify. destruct (matched (fullDocument e) c) as [[]|]; cbn.
  - intros [= <-]. destruct (fullDocument e); cbn; set_solver.
  - destruct (matched (fullDocumentBeforeChange e) c) as [[]|]; cbn; [intros [= <-]; set_solver|intros [= <-]; set_solver|done].
  - done.
Qed.

(** the parts of events, and then nothing more of the collection: cut, or with the token of what follows *)
Definition at_token (written : value -> string) (hash : string) (mark : nat -> string) (m a : nat) (r r' : Reader) : Prop :=
  (held_ r' = held_ r /\ forall k, settled a m (copy r') k) \/
  (exists b, (a <= b <= m)%nat /\ held_ r' = Some (encode written (mkToken (Some (mark b)) None None hash None)) /\
    forall k, settled b m (copy r') k).

Lemma at_token_ended written hash mark m a b r part qs :
  (a <= b <= m)%nat -> (forall k, settled b m (foldl taken (copy r) (option_list part)) k) ->
  (forall p, p ∈ option_list part -> forall t, p <> Ended t) -> (forall k, settled a m (copy r) k) ->
  qs `prefix_of` option_list part ++ [Ended (Some (encode written (mkToken (Some (mark b)) None None hash None)))] ->
  at_token written hash mark m a r (foldl receive r qs).
Proof.
  intros Hb Hc Hp Ha [l Hl]. destruct part as [p|]; cbn [option_list app] in *.
  - destruct qs as [|q qs]; [by left|]. injection Hl as <- Hl.
    assert (held_ (receive r p) = held_ r) as Hh by (destruct p; try done; by destruct (Hp (Ended token) ltac:(by left) token)).
    destruct qs as [|q qs]; [left; split; [done|]; intros k; eapply settled_wider; [| |apply (Hc k)]; lia|].
    injection Hl as <- Hl. symmetry in Hl. apply app_nil in Hl as [-> _]. right. by exists b.
  - destruct qs as [|q qs]; [by left|]. injection Hl as <- Hl. symmetry in Hl. apply app_nil in Hl as [-> _]. right. by exists b.
Qed.

Lemma followed_settled written limit hash mark m pipeline resume a k answered :
  (m <= length writes)%nat ->
  (forall j e, event_at j = Some e -> selects pipeline (image e) = false ->
    visible (S j) (documentKey e) = None /\ visible j (documentKey e) = None) ->
  answering start writes mark m pipeline resume a k answered ->
  forall count r qs, (a <= m)%nat -> (forall k, settled a m (copy r) k) ->
  qs `prefix_of` fst (followed written from c limit hash resume count k answered) ->
  at_token written hash mark m a r (foldl receive r qs).
Proof.
  intros Hm Hpass. induction 1 as [a k b Hb Hno Hr|a k e|a k j b e rest Hj Hb Hno Hno' Hr He Hrest IH]; intros count r qs Ha Hc Hq.
  - cbn in Hq. rewrite Hr in Hq. eapply (at_token_ended _ _ _ _ a b r None); [done| |set_solver|done|exact Hq].
    intros id. apply (settled_past a); [lia|apply Hc|]. by apply (visible_still pipeline).
  - cbn in Hq. destruct Hq as [l Hl]. symmetry in Hl. apply app_nil in Hl as [-> _]. by left.
  - assert (ending e = false) as Hend by (by apply event_view in He as (_ & _ & ? & _)).
    cbn [followed] in Hq. rewrite Hend in Hq. destruct (classify from e c) as [part|] eqn:Hpart.
    2: { destruct Hq as [l Hl]. symmetry in Hl. apply app_nil in Hl as [-> _]. by left. }
    assert (forall k, settled j m (copy r) k) as Hcj.
    { intros id. apply (settled_past a); [lia|apply Hc|]. by apply (visible_still pipeline). }
    assert (forall k, settled (S j) m (foldl taken (copy r) (option_list part)) k) as Hcs
      by (eapply event_settled; [done|lia|done|done]).
    pose proof (classified_parts e part Hpart) as Hnt.
    destruct (match limit with Some l => _ | None => false end) in Hq.
    + cbn [fst] in Hq. rewrite Hr in Hq. eapply (at_token_ended _ _ _ _ a b r part); [lia| |done|done|exact Hq].
      intros id. apply (settled_past (S j)); [lia|apply Hcs|]. by apply (visible_still pipeline).
    + match type of Hq with context [followed ?w ?f ?c ?l ?h ?re ?co ?kk rest] =>
        specialize (IH co (foldl receive r (option_list part))); destruct (followed w f c l h re co kk rest) as [ps out] end.
      cbn [fst] in *. 
      assert (held_ (foldl receive r (option_list part)) = held_ r /\ copy (foldl receive r (option_list part)) = foldl taken (copy r) (option_list part)) as [Hh Hcp].
      { destruct part as [p|]; [|done]. split; [|done]. destruct p; try done. by destruct (Hnt (Ended token) ltac:(by left) token). }
      assert (at_token written hash mark m (S j) (foldl receive r (option_list part)) (foldl receive (foldl receive r (option_list part)) []) ) as Hbase.
      { left. split; [done|]. cbn. by rewrite Hcp. }
      assert (forall r', at_token written hash mark m (S j) (foldl receive r (option_list part)) r' -> at_token written hash mark m a r r') as Hweak.
      { intros r' [[H1 H2]|(b' & H1 & H2 & H3)].
        - left. split; [congruence|]. intros id. eapply settled_wider; [| |apply H2]; lia.
        - right. exists b'. split; [lia|]. done. }
      destruct part as [p|]; cbn [option_list app] in *.
      * destruct qs as [|q qs]; [by left|]. apply prefix_cons_inv_1 in Hq as Heq. subst q. apply prefix_cons_inv_2 in Hq.
        apply Hweak. cbn [foldl]. apply IH; [lia| |exact Hq]. intros id. cbn. apply Hcs.
      * apply Hweak. apply IH; [lia| |exact Hq]. intros id. apply Hcs.
Qed.

(** *** Records that are received *)

Lemma beyond_kept sort order after u u' k r r' :
  ordered sort = Ok order -> view u !! k = Some r -> view u' !! k = Some r' ->
  selects (beyond order after) r = selects (beyond order after) r'.
Proof.
  intros Ho Hr Hr'. assert (own r "_id" = own r' "_id" /\ own r "CREATED" = own r' "CREATED") as [Hi Hc].
  { split; [by rewrite (s_id k r), (s_id k r') by by eapply (h_stored Hs)|].
    destruct (decide (u <= u')%nat); [by eapply (h_kept Hs u u')|]. symmetry. eapply (h_kept Hs u' u); [lia|done..]. }
  assert (read r "_id" = read r' "_id" /\ read r "CREATED" = read r' "CREATED") as [Ri Rc].
  { rewrite !read_name by (apply (bool_decide_eq_true_1 _); reflexivity). done. }
  assert (forall key v, key = "_id" \/ key = "CREATED" -> matches r key v = matches r' key v) as Hm.
  { intros key v [->| ->]; rewrite !matches_field by done; congruence. }
  assert (match_ r (beyond order after) = match_ r' (beyond order after)) as Hb; [|unfold selects; by rewrite Hb].
  apply ordered_kinds in Ho as [d [->| ->]]; unfold beyond, match_.
  - rewrite (bool_decide_eq_true_2 ("_id" = "_id")) by done. cbn [every]. by rewrite Hm by auto.
  - rewrite (bool_decide_eq_false_2 ("CREATED" = "_id")) by done. cbn [every matches].
    rewrite !decide_False, !decide_True by done. cbn [some every]. by rewrite !(Hm "CREATED"), !(Hm "_id") by auto.
Qed.

(** a record that is among those that are received is in the copy, and the copy has of it what the collection had *)
Lemma entries_settled p n rs copy :
  (forall r, r ∈ rs -> exists u k, (p <= u <= n)%nat /\ visible u k = Some r) ->
  let copy' := foldl taken copy ((fun r => Entry (from r)) <$> rs) in
  forall k, (copy' !! k = copy !! k \/ settled p n copy' k) /\
    (copy !! k <> None \/ (exists r, r ∈ rs /\ own r "_id" = Some (DString k)) -> copy' !! k <> None).
Proof.
  revert copy. induction rs as [|r rs IH]; intros copy Hrs; cbn [fmap list_fmap foldl].
  { intros k. split; [by left|]. intros [H|(r & H & _)]; [done|by apply elem_of_nil in H]. }
  destruct (Hrs r) as (u & i & Hu & Hv); [by left|]. pose proof (visible_stored _ _ _ Hv) as Hr.
  intros k. destruct (IH (taken copy (Entry (from r))) (fun x Hx => Hrs x ltac:(by right)) k) as [H1 H2].
  assert (settled p n (taken copy (Entry (from r))) k \/ taken copy (Entry (from r)) !! k = copy !! k) as H3.
  { destruct (decide (k = i)) as [->|Hk]; [|right; by eapply taken_other].
    destruct (taken_entry copy i r Hr) as [->|[-> _]]; [left|by right]. exists u. split; [done|].
    rewrite lookup_insert_eq. unfold Streams.shown. by rewrite Hv. }
  split.
  - destruct H1 as [H1|H1]; [|by right]. destruct H3 as [(u' & Hu' & H3)|H3]; [right; exists u'; split; [done|congruence] | left; congruence].
  - intros Hk. apply H2. destruct (decide (k = i)) as [->|Hne].
    + left. destruct (taken_entry copy i r Hr) as [->|[-> (e & He & _)]]; [by rewrite lookup_insert_eq | by rewrite He].
    + rewrite (taken_other copy i k r Hr Hne). destruct Hk as [Hk|(x & [->|Hx]%elem_of_cons & Hi)]; [by left| |right; by exists x].
      rewrite (s_id _ _ Hr) in Hi. congruence.
Qed.

Lemma visible_throughout p m k :
  (exists u, (p <= u <= m)%nat /\ visible u k = None) \/ (forall u, (p <= u <= m)%nat -> exists r, visible u k = Some r).
Proof.
  destruct (decide (Exists (fun u => visible u k = None) (seq p (S m - p)))) as [H|H].
  - left. apply Exists_exists in H as (u & Hu%elem_of_seq & Hv). exists u. split; [lia|done].
  - right. intros u Hu. destruct (visible u k) as [r|] eqn:Hv; [by exists r|]. destruct H. apply Exists_exists. exists u.
    split; [apply elem_of_seq; lia | done].
Qed.

(** what is so of an id before a window is read: of the first, that there is nothing yet *)
Definition before (p n : nat) (sort : option ordering) (after : option After) (copy : gmap string doc) (k : string) : Prop :=
  match after with
  | None => copy !! k = None
  | Some a => settled p n copy k \/ exists order, ordered sort = Ok order /\ Streams.pending start writes c p n order a copy k
  end.

Definition filtered (sort : option ordering) (after : option After) (filter : doc) : Prop :=
  match after with
  | None => filter = c
  | Some a => exists order, ordered sort = Ok order /\ filter = [("$and", DArray [DObject c; DObject (beyond order a)])]
  end.

Lemma filtered_selects sort after filter r : filtered sort after filter -> selects filter r = true -> selects c r = true.
Proof.
  destruct after as [a|]; cbn; [intros (order & _ & ->)|by intros ->]. rewrite selects_and. by intros [? _]%andb_true_iff.
Qed.

(** what is not in the copy yet is still the rest of the collection, or is no longer in it *)
Lemma pending_later p n m sort order a copy copy' k :
  (p <= n <= m)%nat -> ordered sort = Ok order -> Streams.pending start writes c p n order a copy k -> copy' !! k = copy !! k ->
  settled p m copy' k \/ Streams.pending start writes c p m order a copy' k.
Proof.
  intros Hpn Ho [Hn Hp] He. destruct (visible_throughout p m k) as [(u & Hu & Hv)|Hall].
  - left. exists u. split; [done|]. unfold Streams.shown. rewrite Hv, He. exact Hn.
  - right. split; [congruence|]. intros u Hu. destruct (Hall u Hu) as [r Hr]. exists r. split; [done|].
    destruct (Hp p) as (r0 & Hr0 & Hbr); [lia|]. rewrite <- Hbr. apply visible_view in Hr as [Hr _], Hr0 as [Hr0 _].
    by eapply beyond_kept.
Qed.

Section window.
Context (p n m : nat) (sort : option ordering) (after : option After) (filter : doc) (order : option ordering) (limit : option Z).
Context (rs : list doc) (copy : gmap string doc).
Context (Hpn : (p <= n <= m)%nat) (Hf : filtered sort after filter).
Context (Hfind : finding start writes p m filter order limit rs).
Context (Hb : forall k, before p n sort after copy k).

Lemma found_visible r : r ∈ rs -> exists u k, (p <= u <= m)%nat /\ visible u k = Some r.
Proof.
  intros Hr. apply (f_were _ _ _ _ _ _ _ _ Hfind) in Hr as (u & k & Hu & Hv & Hsel). exists u, k.
  split; [done|]. apply visible_view. split; [done|]. by eapply filtered_selects.
Qed.

(** a window of which a part is received leaves the rest to be read again *)
Lemma window_cut rs' k :
  (forall r, r ∈ rs' -> r ∈ rs) -> after <> None ->
  before p m sort after (foldl taken copy ((fun r => Entry (from r)) <$> rs')) k.
Proof.
  intros Hrs Ha. destruct (entries_settled p m rs' copy (fun r Hr => found_visible r (Hrs r Hr)) k) as [He _].
  specialize (Hb k). destruct after as [a|]; [|done]. cbn in *. destruct He as [He|He]; [|by left].
  destruct Hb as [(u & Hu & Hc)|(ord & Ho & Hpe)].
  - left. exists u. split; [lia|congruence].
  - destruct (pending_later p n m sort ord a copy _ k Hpn Ho Hpe He) as [H|H]; [by left|right; by exists ord].
Qed.

(** a window that is received whole: what is not in the copy comes after the last of it, if it is full *)
Lemma window_whole k :
  let copy' := foldl taken copy ((fun r => Entry (from r)) <$> rs) in
  settled p m copy' k \/
  exists z order', limit = Some (Z.of_nat (length rs)) /\ last rs = Some z /\ order = Some order' /\ copy' !! k = None /\
    forall u, (p <= u <= m)%nat -> exists r, visible u k = Some r /\ follows order' z r = true.
Proof.
  intros copy'. destruct (entries_settled p m rs copy found_visible k) as [He Hin]. fold copy' in He, Hin.
  destruct He as [He|He]; [|by left]. destruct (visible_throughout p m k) as [(u & Hu & Hv)|Hall].
  { assert (before p m sort after copy' k) as Hw.
    { destruct (decide (after = None)) as [Ha|Ha]; [|by apply window_cut]. specialize (Hb k). rewrite Ha in *. cbn in *. congruence. }
    destruct after as [a|]; cbn in Hw; [destruct Hw as [Hw|(ord & _ & Hn & _)]; [by left|]|rename Hw into Hn];
      left; exists u; (split; [done|]); unfold Streams.shown; by rewrite Hn, Hv. }
  destruct (copy' !! k) as [e|] eqn:Hk.
  - left. specialize (Hb k). destruct after as [a|]; cbn in Hb; [|congruence].
    destruct Hb as [(u & Hu & Hc)|(ord & _ & Hn & _)]; [|congruence]. exists u. split; [lia|congruence].
  - assert (forall u, (p <= u <= m)%nat -> exists r, view u !! k = Some r /\ selects filter r = true) as Hsel.
    { intros u Hu. destruct (Hall u Hu) as [r Hr]. exists r. apply visible_view in Hr as [Hr Hrc]. split; [done|].
      specialize (Hb k). destruct after as [a|]; cbn in Hf, Hb; [|by rewrite Hf]. destruct Hf as (ord & Ho & ->).
      rewrite selects_and, Hrc. destruct Hb as [(u' & Hu' & Hc)|(ord' & Ho' & Hn & Hp)].
      - destruct (Hall u') as [r' Hr']; [lia|]. unfold Streams.shown in Hc. rewrite Hr' in Hc. simpl in Hc. congruence.
      - assert (ord' = ord) as -> by congruence. destruct (Hp p) as (r0 & Hr0 & Hbr); [lia|]. cbn. rewrite <- Hbr.
        apply visible_view in Hr0 as [Hr0 _]. by eapply beyond_kept. }
    destruct (f_all _ _ _ _ _ _ _ _ Hfind k Hsel) as [Hr|(z & ord & Hl & Hz & Ho & Hfo)]; [by destruct (Hin (or_intror Hr))|].
    right. exists z, ord. split_and!; try done. intros u Hu. destruct (Hall u Hu) as [r Hr]. exists r. split; [done|].
    apply (Hfo u); [done|]. by apply visible_view in Hr as [? _].
Qed.
End window.
End collection.

(** ** The copy and the collection *)

Section reader.
Context (written : value -> string) (parsed : string -> option value) (sha1 : datum -> string).
Context (properties : list (string * Declared)) (iso : Z -> string).
Context (start : gmap string doc) (writes : list (string * option doc)) (mark time : nat -> string) (c : doc) (o : Read).
Context (Hs : sound properties start writes c) (Htext : forall t, parsed (written (token_value t)) = Some (token_value t)).
Context (Hmark : Inj (=) (=) mark) (Htime : Inj (=) (=) time) (Hstop : stop_ o = false).

Notation reached := (reached written parsed sha1 properties iso start writes mark time c o) (only parsing).
Notation reading := (reading written parsed sha1 properties iso start writes mark time c o) (only parsing).
Notation faithful := (faithful parsed sha1 properties iso start writes mark time c o) (only parsing).
Notation from := (codec_from iso properties) (only parsing).
Notation hash := (digest sha1 c (sort_ o)) (only parsing).

Lemma decode_encode t : (t_id t = None -> t_t t = None) -> decode parsed (encode written t) = Ok t.
Proof. intros Ht. unfold decode, encode. rewrite Htext. by apply token_of_value. Qed.

Lemma reads_finds since position after pl :
  reads c o hash since position after = Ok pl ->
  exists order filter, pl = Finds position since order filter o hash /\ filtered c (sort_ o) after filter /\
    match order with Some ord => ordered (sort_ o) = Ok ord | None => limit_ o = None end.
Proof.
  unfold reads. destruct (limit_ o) as [l|] eqn:Hl, after as [a|]; cbn;
    try (destruct (ordered (sort_ o)) as [ord|] eqn:Ho; [|done]); cbn; intros [= <-]; eexists _, _; (split; [reflexivity|]); eauto.
Qed.

Lemma reads_not_watches since position after s p c' l h : reads c o hash since position after <> Ok (Watches s p c' l h).
Proof. intros Hr. apply reads_finds in Hr as (? & ? & ? & _). done. Qed.

(** what a plan is of: the beginning, the rest of what is read in windows, or what changed *)
Lemma stream_finds position given pos since order filter rd h :
  stream parsed sha1 true position c o given = Ok (Finds pos since order filter rd h) ->
  rd = o /\ h = hash /\ match order with Some ord => ordered (sort_ o) = Ok ord | None => limit_ o = None end /\
  match given with
  | None => pos = Some (fst position, Some (snd position)) /\ since = Some (snd position) /\ filtered c (sort_ o) None filter
  | Some g => exists t i, decode parsed g = Ok t /\ t_id t = Some i /\ since = t_t t /\ pos = ((fun p => (p, t_t t)) <$> t_p t) /\
      filtered c (sort_ o) (Some (mkAfter i (t_c t))) filter
  end.
Proof.
  unfold stream. destruct given as [g|].
  - destruct (decode parsed g) as [t|] eqn:Ht; [cbn|done]. case_bool_decide as Hh; [cbn|done].
    destruct (t_id t) as [i|] eqn:Hi, (t_p t) as [p|] eqn:Hp; cbn; try done.
    + intros Hr. apply reads_finds in Hr as (ord & f & [= -> -> -> -> -> ->] & Hf & Ho). split_and!; try done. exists t, i. by rewrite Hp.
    + intros Hr. apply reads_finds in Hr as (ord & f & [= -> -> -> -> -> ->] & Hf & Ho). split_and!; try done. exists t, i. by rewrite Hp.
    + unfold changes. destruct (prefix c "fullDocument."); [cbn|done]. by destruct (prefix c "fullDocumentBeforeChange.").
  - intros Hr. apply reads_finds in Hr as (ord & f & [= -> -> -> -> -> ->] & Hf & Ho). by split_and!.
Qed.

Lemma stream_watches position given s pipeline c' l h :
  stream parsed sha1 true position c o given = Ok (Watches s pipeline c' l h) ->
  exists g t, given = Some g /\ decode parsed g = Ok t /\ t_id t = None /\ t_p t = Some s /\ t_h t = hash /\ h = hash /\ c' = c /\
    changes c o hash s = Ok (Watches s pipeline c' l h).
Proof.
  unfold stream. destruct given as [g|].
  - destruct (decode parsed g) as [t|] eqn:Ht; [cbn|done]. case_bool_decide as Hh; [cbn|done].
    destruct (t_id t) as [i|] eqn:Hi, (t_p t) as [p|] eqn:Hp; cbn; try done; intros Hr; try by apply reads_not_watches in Hr.
    assert (s = p /\ h = hash /\ c' = c) as (-> & -> & ->).
    { unfold changes in Hr. destruct (prefix c "fullDocument."); [cbn in Hr|done]. destruct (prefix c "fullDocumentBeforeChange."); [|done].
      by injection Hr as -> _ -> _ ->. }
    exists g, t. by split_and!.
  - intros Hr. by apply reads_not_watches in Hr.
Qed.

(** *** Each read leaves the copy faithful *)

Lemma receive_entries r rs :
  held_ (foldl receive r ((fun x => Entry (from x)) <$> rs)) = held_ r /\
  copy (foldl receive r ((fun x => Entry (from x)) <$> rs)) = foldl taken (copy r) ((fun x => Entry (from x)) <$> rs).
Proof. revert r. induction rs as [|x rs IH]; intros r; [done|]. cbn [fmap list_fmap foldl]. destruct (IH (receive r (Entry (from x)))) as [-> ->]. done. Qed.

Lemma prefix_parts (rs : list doc) tail ps :
  (tail = [] \/ exists p, tail = [p]) -> ps `prefix_of` ((fun x => Entry (from x)) <$> rs) ++ tail ->
  (exists rs', ps = (fun x => Entry (from x)) <$> rs' /\ forall r, r ∈ rs' -> r ∈ rs) \/
  (exists p, tail = [p] /\ ps = ((fun x => Entry (from x)) <$> rs) ++ [p]).
Proof.
  intros Ht. revert ps. induction rs as [|x rs IH]; intros ps Hp.
  - cbn in Hp. destruct ps as [|q ps]; [left; by exists []|]. destruct Ht as [->|[p ->]].
    + by apply prefix_nil_not in Hp.
    + destruct Hp as [l Hl]. injection Hl as <- Hl. symmetry in Hl. apply app_nil in Hl as [-> _]. right. by exists p.
  - destruct ps as [|q ps]; [left; exists []; split; [done|]; intros r Hr; by apply elem_of_nil in Hr|].
    cbn in Hp. apply prefix_cons_inv_1 in Hp as Heq. subst q. apply prefix_cons_inv_2, IH in Hp as [(rs' & -> & Hin)|(p & -> & ->)].
    + left. exists (x :: rs'). split; [done|]. intros r [->|Hr]%elem_of_cons; [by left|right; by apply Hin].
    + right. by exists p.
Qed.

Lemma ended_tail position order rd h rs : ended written position order rd h rs = [] \/ exists p, ended written position order rd h rs = [p].
Proof. unfold ended. destruct (_ && _); [destruct (last rs)|]; eauto. Qed.

(** the token of a window that was received whole *)
Lemma window_token p n m after filter order rs copy h token :
  (p <= n <= m)%nat -> filtered c (sort_ o) after filter -> finding start writes p m filter order (limit_ o) rs ->
  match order with Some ord => ordered (sort_ o) = Ok ord | None => limit_ o = None end ->
  (forall k, before properties iso start writes c p n (sort_ o) after copy k) ->
  ended written (Some (mark p, Some (time p))) order o h rs = [Ended token] ->
  exists t, token = Some (encode written t) /\ (t_id t = None -> t_t t = None) /\ t_h t = h /\ t_p t = Some (mark p) /\
    forall k, accounted properties iso start writes time c o p m (foldl taken copy ((fun r => Entry (from r)) <$> rs)) t k.
Proof.
  intros Hp Hf Hfind Ho Hb. unfold ended. rewrite Hstop, andb_true_r.
  pose proof (window_whole properties iso start writes c Hs p n m (sort_ o) after filter order (limit_ o) rs copy Hp Hf Hfind Hb) as Hw.
  case_bool_decide as Hl.
  - destruct (last rs) as [z|] eqn:Hz; [|done]. intros [= <-]. eexists. split; [done|]. cbn. split_and!; try done. intros k.
    split; [done|]. destruct (Hw k) as [H|(z' & ord & _ & Hz' & -> & Hn & Hall)]; [by left|right].
    exists ord. split; [done|]. split; [done|]. intros u Hu. destruct (Hall u Hu) as (r & Hr & Hfo). exists r. split; [done|].
    assert (z' = z) as -> by congruence.
    assert (exists k', stored k' z) as [k' Hsz].
    { apply last_Some_elem_of, (f_were _ _ _ _ _ _ _ _ Hfind) in Hz as (u' & k' & _ & Hv & _). exists k'. by eapply (h_stored _ _ _ _ Hs). }
    unfold selects. rewrite bool_decide_eq_true. transitivity (Ok (E := string) (follows ord z r)); [|by rewrite Hfo].
    apply (beyond_matched (sort_ o) ord k' k); [done|done|by eapply (visible_stored properties)].
  - intros [= <-]. eexists. split; [done|]. cbn. split_and!; try done. intros k.
    destruct (Hw k) as [H|(z & ord & Hl' & _)]; [done|congruence].
Qed.

Lemma accounted_before p n copy t k i :
  t_id t = Some i -> accounted properties iso start writes time c o p n copy t k <->
  t_t t = Some (time p) /\ before properties iso start writes c p n (sort_ o) (Some (mkAfter i (t_c t))) copy k.
Proof. intros Hi. unfold accounted. by rewrite Hi. Qed.

(** time that passes while nothing is received *)
Lemma accounted_later p n m copy t k :
  (p <= n <= m)%nat -> accounted properties iso start writes time c o p n copy t k ->
  accounted properties iso start writes time c o p m copy t k.
Proof.
  intros Hn Ha. unfold accounted in *. destruct (t_id t) as [i|]; [|eapply settled_wider; [| |exact Ha]; lia].
  destruct Ha as [Ht [Ha|(ord & Ho & Hp)]]; (split; [done|]); [left; eapply settled_wider; [| |exact Ha]; lia|].
  destruct (pending_later properties iso start writes c Hs p n m _ ord _ copy copy k Hn Ho Hp) as [H|H]; [done|by left|right; by exists ord].
Qed.

Lemma read_faithful n m r position s order filter rd h rs ps :
  faithful (n, r) ->
  stream parsed sha1 true (mark n, time n) c o (held_ r) = Ok (Finds position (Some (time s)) order filter rd h) ->
  (s <= n)%nat -> (n <= m <= length writes)%nat -> finding start writes s m filter order (limit_ rd) rs ->
  ps `prefix_of` found written from position order rd h rs ->
  faithful (m, foldl receive (begin_ r) ps).
Proof.
  intros [_ Hf] Hp Hsn Hm Hfind Hps. split; [cbn; lia|]. cbn [fst snd] in *.
  apply stream_finds in Hp as (-> & -> & Ho & Hg).
  assert (exists after, position = Some (mark s, Some (time s)) /\ filtered c (sort_ o) after filter /\
    (forall k, before properties iso start writes c s n (sort_ o) after (copy (begin_ r)) k) /\
    match held_ r with
    | None => after = None
    | Some g => exists t i, decode parsed g = Ok t /\ t_id t = Some i /\ t_t t = Some (time s) /\ t_p t = Some (mark s) /\ t_h t = hash /\
        after = Some (mkAfter i (t_c t))
    end) as (after & -> & Hfil & Hb & Hheld).
  { unfold begin_. destruct (held_ r) as [g|] eqn:Hr; cbn [copy].
    - destruct Hg as (t & i & Ht & Hi & Hsi & -> & Hfil). destruct Hf as (t' & p & Ht' & Hh & Htp & Hpn & Ha).
      assert (t' = t) as -> by congruence. assert (time p = time s) as ->%(inj time).
      { destruct (proj1 (accounted_before _ _ _ _ "" i Hi) (Ha "")) as [Htt _]. congruence. }
      exists (Some (mkAfter i (t_c t))). rewrite Htp, <- Hsi. split_and!; [done|done| |by exists t, i].
      intros k. by destruct (proj1 (accounted_before _ _ _ _ k i Hi) (Ha k)) as [_ Hk].
    - destruct Hg as (-> & [= Hts%(inj time)] & Hfil). subst s. exists None. split_and!; try done. }
  clear Hg Hf. unfold found in Hps.
  apply prefix_parts in Hps as [(rs' & -> & Hin)|([| |token] & Htail & ->)]; [..|apply ended_tail].
  - destruct (receive_entries (begin_ r) rs') as [-> ->].
    assert (held_ (begin_ r) = held_ r) as -> by (unfold begin_; by destruct (held_ r) eqn:?).
    destruct (held_ r) as [g|] eqn:Hr; [|done]. destruct Hheld as (t & i & Ht & Hi & Htt & Htp & Hh & ->).
    exists t, s. split_and!; try done; [lia|]. intros k. apply (accounted_before _ _ _ _ _ i); [done|]. split; [done|].
    apply (window_cut properties iso start writes c Hs s n m (sort_ o) _ filter order (limit_ o) rs); try done. lia.
  - exfalso. clear -Htail. unfold ended in Htail. destruct (_ && _) in Htail; [destruct (last rs)|]; by simplify_eq.
  - exfalso. clear -Htail. unfold ended in Htail. destruct (_ && _) in Htail; [destruct (last rs)|]; by simplify_eq.
  - rewrite foldl_app. cbn [foldl]. rewrite receive_held.
    assert (copy (receive (foldl receive (begin_ r) ((fun x => Entry (from x)) <$> rs)) (Ended token)) =
      foldl taken (copy (begin_ r)) ((fun x => Entry (from x)) <$> rs)) as -> by apply receive_entries.
    destruct (window_token s n m after filter order rs (copy (begin_ r)) hash token ltac:(lia) Hfil Hfind Ho Hb Htail)
      as (t & -> & Ht & Hh & Htp & Ha).
    exists t, s. split_and!; try done; [by apply decode_encode | lia].
Qed.

Lemma followed_faithful n m r a pipeline criteria limit h resume answered ps out qs :
  faithful (n, r) ->
  stream parsed sha1 true (mark n, time n) c o (held_ r) = Ok (Watches (mark a) pipeline criteria limit h) ->
  (n <= m <= length writes)%nat -> answering start writes mark m pipeline resume a 0 answered ->
  watched written from criteria limit h resume answered = Ok (ps, out) -> qs `prefix_of` ps ->
  faithful (m, foldl receive r qs).
Proof.
  intros [_ Hf] Hp Hm Ha Hw Hq. split; [cbn; lia|]. cbn [fst snd] in *.
  apply stream_watches in Hp as (g & t & Hr & Ht & Hi & Htp & Hh & -> & -> & Hch). rewrite Hr in Hf.
  destruct Hf as (t' & p & Ht' & _ & Htp' & Hpn & Hacc). assert (t' = t) as -> by congruence.
  assert (p = a) as -> by (apply (inj mark); congruence).
  assert (ps = fst (followed written from c limit hash resume 0 0 answered)) as ->.
  { assert (followed written from c limit hash resume 0 0 answered = (ps, out)) as ->; [|done].
    unfold watched in Hw. destruct answered as [|[e|e] rest]; congruence. }
  assert (forall k, settled properties iso start writes c a m (copy r) k) as Hset.
  { intros k. pose proof (Hacc k) as Hk. unfold accounted in Hk. rewrite Hi in Hk. eapply settled_wider; [| |exact Hk]; lia. }
  assert (forall j e, event_at start writes j = Some e -> selects pipeline (image e) = false ->
    visible start writes c (S j) (documentKey e) = None /\ visible start writes c j (documentKey e) = None) as Hpass
    by (intros j e; by eapply pipeline_passes).
  destruct (followed_settled properties iso start writes c Hs written limit hash mark m pipeline resume a 0 answered
    ltac:(lia) Hpass Ha 0 r qs ltac:(lia) Hset Hq) as [[Hheld Hc]|(b & Hb & Hheld & Hc)].
  - rewrite Hheld, Hr. exists t, a. split_and!; try done; [lia|]. intros k. unfold accounted. rewrite Hi. apply Hc.
  - rewrite Hheld. eexists _, b. split; [by apply decode_encode|]. cbn. split_and!; try done. lia.
Qed.

Lemma reading_faithful w w' : faithful w -> reading w w' -> faithful w'.
Proof.
  intros Hf Hr. destruct Hr as [n r Hn|n r|n m r position s order filter rd h rs ps Hp Hsn Hm Hfind Hps
    |n m r a pipeline criteria limit h resume answered ps out qs Hp Hm Ha Hw Hq].
  - destruct Hf as [_ Hf]. split; [done|]. cbn [fst snd] in *. destruct (held_ r) as [g|]; [|done].
    destruct Hf as (t & p & Ht & Hh & Htp & Hpn & Hacc). exists t, p. split_and!; try done; [lia|]. intros k.
    apply (accounted_later p n (S n)); [lia|apply Hacc].
  - by destruct Hf as [Hn _].
  - by eapply read_faithful.
  - by eapply followed_faithful.
Qed.

Lemma reached_faithful w : reached w -> faithful w.
Proof. induction 1 as [|w w' _ IH Hw]; [split; [cbn; lia|done] | by eapply reading_faithful]. Qed.

End reader.

(** ** What is not meant *)

(** what changed is answered whole, whatever the query reads of an entry *)
Theorem changes_are_not_projected written parsed sha1 from history position c o given start pipeline limit hash names e r :
  stream parsed sha1 history position c o given = Ok (Watches start pipeline c limit hash) ->
  stream parsed sha1 history position c (mkRead (skip o) (limit_ o) (sort_ o) (Some names) (stop_ o)) given =
    Ok (Watches start pipeline c limit hash) /\
  (ending e = false -> fullDocument e = Some r -> match_ r c = Ok true ->
   forall resume rest, fst (followed written from c limit hash resume 0 0 (Ok e :: rest)) !! 0%nat = Some (Entry (from r))).
Proof.
  intros Hst. split.
  - unfold stream in *. cbn [sort_]. destruct given as [g|]; [|by apply reads_not_watches in Hst].
    destruct (decode parsed g) as [t|]; [cbn in *|done]. case_bool_decide; [cbn in *|done].
    destruct (t_id t), (t_p t), history; cbn in *; try done; by apply reads_not_watches in Hst.
  - intros He Hr Hm resume rest. cbn [followed]. rewrite He. unfold classify, matched. rewrite Hr, Hm. cbn.
    destruct (match limit with Some l => _ | None => false end); [done|]. by destruct (followed _ _ _ _ _ _ _ _ _).
Qed.

(** ** A shelf of two pots, read in windows of one *)

Module Shelf.
(** a token as text: the digits of what it is counted as *)
#[export] Instance token_eq_dec : EqDecision Token.
Proof. solve_decision. Defined.

#[export] Instance token_countable : Countable Token.
Proof.
  apply (inj_countable' (fun t => (t_p t, t_t t, t_id t, t_h t, t_c t)) (fun '(p, t, i, h, c) => mkToken p t i h c)).
  by intros [].
Defined.

Fixpoint digits (p : positive) : string :=
  match p with xH => "" | xO p => String "0" (digits p) | xI p => String "1" (digits p) end.

Fixpoint undigits (s : string) : positive :=
  match s with "" => xH | String d s => if Ascii.eqb d "0" then xO (undigits s) else xI (undigits s) end.

Lemma undigits_digits p : undigits (digits p) = p.
Proof. induction p; cbn; congruence. Qed.

(** a token of a collection that was read has no time *)
Definition timed (t : Token) : Token := match t_id t with None => mkToken (t_p t) None None (t_h t) (t_c t) | Some _ => t end.

Definition written (v : value) : string :=
  match token_of v with Ok t => digits (countable.encode t) | Throw _ => "" end.

Definition parsed (s : string) : option value := token_value <$> countable.decode (undigits s).

Lemma parsed_written t : parsed (written (token_value t)) = Some (token_value t).
Proof.
  assert (token_value t = token_value (timed t)) as -> by (unfold timed; by destruct t as [p u [i|] h c]).
  unfold parsed, written. rewrite token_of_value by (unfold timed; by destruct t as [p u [i|] h c]).
  by rewrite undigits_digits, countable.decode_encode.
Qed.

Definition sha1 (d : datum) : string := "2fd4e1c67a2d28fced849ee1bb76e7391b93eb12".

Definition iso (t : Z) : string := "".

Definition mark (n : nat) : string := pretty n.

Definition declared : list (string * Declared) := [("CREATED", mkDeclared "integer" (Some "epoch-millis"))].

Definition pot (k title : string) (created version : Z) : doc :=
  [("_id", DString k); ("title", DString title); ("CREATED", DDate (Some created)); ("VERSION", DNumber version); ("DELETED", DNull)].

Definition jug : doc := pot "a" "jug" 5 1.
Definition bowl : doc := pot "b" "bowl" 7 1.
Definition painted : doc := pot "a" "blue jug" 5 2.
Definition broken : doc :=
  [("_id", DString "b"); ("title", DString "bowl"); ("CREATED", DDate (Some 7)); ("VERSION", DNumber 2); ("DELETED", DNumber 9)].

Definition start : gmap string doc := {["a" := jug; "b" := bowl]}.

(** the jug is painted while the shelf is read, and the bowl broken after it *)
Definition writes : list (string * option doc) := [("a", Some painted); ("b", Some broken)].

Definition c : doc := [("DELETED", DNull)].

Definition o : Read := mkRead None (Some 1) None None false.

Notation view := (view start writes) (only parsing).
Notation reached := (reached written parsed sha1 declared iso start writes mark mark c o) (only parsing).
Notation found := (found written (codec_from iso declared)) (only parsing).
Notation hash := (digest sha1 c (sort_ o)) (only parsing).

Lemma view_ids n k r : view n !! k = Some r ->
  k = "a" /\ (r = jug /\ n = 0%nat \/ r = painted /\ (0 < n)%nat) \/ k = "b" /\ (r = bowl /\ (n < 2)%nat \/ r = broken /\ (2 <= n)%nat).
Proof.
  assert (view n = match n with
    | 0%nat => start | 1%nat => <["a" := painted]> start | _ => <["b" := broken]> (<["a" := painted]> start) end) as ->.
  { destruct n as [|[|n]]; [done..|]. unfold Streams.view, writes. by rewrite take_ge by (cbn; lia). }
  destruct n as [|[|n]]; unfold start; rewrite ?lookup_insert_Some, ?lookup_singleton_Some; intros H;
    repeat match goal with
    | H : _ \/ _ |- _ => destruct H as [H|H]
    | H : _ /\ _ |- _ => destruct H as [? H]
    end; subst; try done; solve [left; split; [done|]; (left; split; [done|lia]) || (right; split; [done|lia])
      | right; split; [done|]; (left; split; [done|lia]) || (right; split; [done|lia])].
Qed.

Lemma shelf_is_sound : sound declared start writes c.
Proof.
  split.
  - intros n k r [[-> [[-> _]|[-> _]]]|[-> [[-> _]|[-> _]]]]%view_ids; split; try done; try (apply (bool_decide_eq_true_1 _); reflexivity);
      try (by eexists); try (by eexists; split).
  - intros n m k r r' Hn [[-> Hr]|[-> Hr]]%view_ids [[Hk Hr']|[Hk Hr']]%view_ids; try done;
      destruct Hr as [[-> Hr]|[-> Hr]], Hr' as [[-> Hr']|[-> Hr']]; split; try done; cbn; lia.
  - intros r. unfold match_, c. cbn [every]. rewrite matches_field by done. unfold field. cbn [operators]. by destruct (eq_ _ _); eexists.
  - apply (bool_decide_eq_true_1 _). reflexivity.
Qed.

(** the order of the windows, and what is found in each *)
Definition by_id : option ordering := Some [("_id", 1)].

Definition rest (last : string) : doc := [("$and", DArray [DObject c; DObject [("_id", DObject [("$gt", DString last)])]])].

Definition position : option (string * option string) := Some (mark 0, Some (mark 0)).

Definition r0 : Reader := foldl receive (begin_ (mkReader ∅ None)) (found position by_id o hash [jug]).
Definition r1 : Reader := foldl receive (begin_ r0) (found position by_id o hash [bowl]).
Definition r2 : Reader := foldl receive (begin_ r1) (found position by_id o hash []).

Lemma first_found : finding start writes 0 0 c by_id (limit_ o) [jug].
Proof.
  split.
  - intros r ->%list_elem_of_singleton. by exists 0%nat, "a".
  - by intros l [= <-].
  - intros k Hk. destruct (Hk 0%nat) as (r & Hv & _); [lia|]. apply view_ids in Hv as [[-> _]|[-> _]]; [left; by exists jug; split; [left|]|].
    right. exists jug, [("_id", 1)]. split_and!; try done. intros u r' Hu [[? _]|[_ [[-> _]|[-> ?]]]]%view_ids; [done|done|lia].
Qed.

Lemma second_found : finding start writes 0 1 (rest "a") by_id (limit_ o) [bowl].
Proof.
  split.
  - intros r ->%list_elem_of_singleton. exists 0%nat, "b". split; [lia|]. done.
  - by intros l [= <-].
  - intros k Hk. destruct (Hk 0%nat) as (r & Hv & Hsel); [lia|]. apply view_ids in Hv as [[-> [[-> _]|[-> ?]]]|[-> _]]; [done|lia|].
    left. exists bowl. by split; [left|].
Qed.

Lemma third_found : finding start writes 0 1 (rest "b") by_id (limit_ o) [].
Proof.
  split.
  - intros r Hr. by apply elem_of_nil in Hr.
  - by intros l [= <-].
  - intros k Hk. destruct (Hk 0%nat) as (r & Hv & Hsel); [lia|].
    apply view_ids in Hv as [[-> [[-> _]|[-> ?]]]|[-> [[-> _]|[-> ?]]]]; done || lia.
Qed.

Definition painting : event := mkEvent "replace" "a" (Some painted) (Some jug).
Definition breaking : event := mkEvent "replace" "b" (Some broken) (Some bowl).

Definition answer (k : nat) (es : list event) : list Part * option thrown :=
  followed written (codec_from iso declared) c (limit_ o) hash (fun i => mark (k + i)) 0 0 (Ok <$> es).

Definition r3 : Reader := foldl receive r2 (fst (answer 0 [painting; breaking])).
Definition r4 : Reader := foldl receive r3 (fst (answer 1 [breaking])).

Lemma read_whole : reached (1%nat, r2).
Proof.
  eapply reached_step; [eapply reached_step; [eapply reached_step; [eapply reached_step; [apply reached_start|]|]|]|].
  - eapply (Read_ _ _ _ _ _ _ _ _ _ _ _ 0 0 (mkReader ∅ None) position 0 by_id c o hash [jug]); [reflexivity|lia|cbn; lia|apply first_found|reflexivity].
  - apply (Committed _ _ _ _ _ _ _ _ _ _ _ 0 r0). cbn. lia.
  - eapply (Read_ _ _ _ _ _ _ _ _ _ _ _ 1 1 r0 position 0 by_id (rest "a") o hash [bowl]);
      [vm_compute; reflexivity|lia|cbn; lia|apply second_found|reflexivity].
  - eapply (Read_ _ _ _ _ _ _ _ _ _ _ _ 1 1 r1 position 0 by_id (rest "b") o hash []);
      [vm_compute; reflexivity|lia|cbn; lia|apply third_found|reflexivity].
Qed.

Definition pipeline : doc :=
  [("$or", DArray [DObject [("fullDocument.DELETED", DNull)]; DObject [("fullDocumentBeforeChange.DELETED", DNull)];
    DObject [("operationType", DObject [("$in", DArray (DString <$> ENDINGS))])]])].

Lemma passed_none a : passed_by start writes pipeline a a.
Proof. intros j e Hj. lia. Qed.

Lemma answered_breaking resume k : resume (S k) = mark 2 -> answering start writes mark 2 pipeline resume 1 k [Ok breaking].
Proof.
  intros Hr. eapply (answered_event _ _ _ _ _ _ 1 k 1 2 breaking); [lia|lia|apply passed_none|apply passed_none|done|reflexivity|].
  apply (answered_all _ _ _ _ _ _ 2 (S k) 2); [lia|apply passed_none|done].
Qed.

Lemma answered_both : answering start writes mark 2 pipeline (fun i => mark i) 0 0 [Ok painting; Ok breaking].
Proof.
  eapply (answered_event _ _ _ _ _ _ 0 0 0 1 painting); [lia|lia|apply passed_none|apply passed_none|done|reflexivity|].
  by apply answered_breaking.
Qed.

Lemma read_on : reached (2%nat, r4).
Proof.
  eapply reached_step; [eapply reached_step; [eapply reached_step; [apply read_whole|]|]|].
  - apply (Committed _ _ _ _ _ _ _ _ _ _ _ 1 r2). cbn. lia.
  - eapply (Followed _ _ _ _ _ _ _ _ _ _ _ 2 2 r2 0 pipeline c (Some 1) hash (fun i => mark (0 + i)) _ _ None);
      [vm_compute; reflexivity|cbn; lia|apply answered_both|reflexivity|reflexivity].
  - eapply (Followed _ _ _ _ _ _ _ _ _ _ _ 2 2 r3 1 pipeline c (Some 1) hash (fun i => mark (1 + i)) _ _ None);
      [vm_compute; reflexivity|cbn; lia|by apply answered_breaking|reflexivity|reflexivity].
Qed.

End Shelf.
