(* ===== verification/Halting.v ===== *)
(** * Halts

    [extensions/introspection/source/Halt.ts] and [runtime/boot/src/workload.js]: a process that hears a
    halt goes quiet, reads the map of what is called, and stops or goes on; the processes of a deployment,
    the signals they hear and the map they share. [definitions/source/extensions.introspection]: what a
    deployment states of halts, and the components it deploys for them. *)
From S2P Require Import Prelude.

Open Scope Z_scope.

(** ** What a deployment states of halts ([annotation.ts], [components.ts]) *)

Definition Bounds : Type := Z * Z.

Record Halt := mkHalt { h_duration : option Bounds; h_quiescence : option Bounds }.

(** [halt], where it is declared: [true], [false] or bounds *)
Inductive halts := Stated (b : bool) | Bounded (h : Halt).

Record Annotation := mkAnnotation { interval : option Z; threshold : option Z; ui : option bool; halt : option halts }.

Record Options := mkOptions {
  o_interval : Z;
  o_threshold : Z;
  o_ui : bool;
  o_halt : bool;
  duration : Bounds;
  quiescence : Bounds
}.

Definition DEFAULT_INTERVAL : Z := 300.
Definition DEFAULT_THRESHOLD : Z := 1024.
Definition DURATION : Bounds := (30, 3600).
Definition QUIESCENCE : Bounds := (30, 1800).
Definition GRACE : Bounds := (2, 120).
Definition DEFAULT_GRACE : Z := 10.
Definition HALT_GAP : Z := 3.
Definition CHECK_TIMEOUT : Z := 5000.

Definition pair_ (name : string) (b : Bounds) : string :=
  "Invalid introspection annotation: 'halt." +:+ name +:+ "' is [" +:+ show (fst b) +:+ ", " +:+ show (snd b) +:+ "], and the first of a pair is the smaller".

Definition bounds (declared : option Bounds) (fallback : Bounds) (name : string) : result string Bounds :=
  match declared with
  | None => Ok fallback
  | Some (min, max) => if max <=? min then Throw (pair_ name (min, max)) else Ok (min, max)
  end.

(** [options], of an annotation or of none; [false] is of none *)
Definition options (a : option Annotation) : result string Options :=
  let declared := a ≫= halt in
  let h := match declared with Some (Bounded h) => h | _ => mkHalt None None end in
  d ← bounds (h_duration h) DURATION "duration";
  q ← bounds (h_quiescence h) QUIESCENCE "quiescence";
  Ok (mkOptions (default DEFAULT_INTERVAL (a ≫= interval)) (default DEFAULT_THRESHOLD (a ≫= threshold))
    (negb (bool_decide ((a ≫= ui) = Some false)))
    (match declared with None | Some (Stated false) => false | _ => true end) d q).

Definition SIGNALS_LABEL : string := "introspection-signals".

(** the labels and the manifests of the components of the extension, those of one kind by their position *)
Definition components {M} (digest : list string * list M) (a : option (option Annotation)) : list string * list M :=
  match a with
  | Some None => ([], [])
  | _ =>
      match mjoin a ≫= halt with
      | Some (Stated true) => digest
      | _ =>
          if bool_decide (SIGNALS_LABEL ∈ fst digest) then
            let index := rank_of (fst digest) SIGNALS_LABEL in
            (take index (fst digest) ++ drop (S index) (fst digest), take index (snd digest) ++ drop (S index) (snd digest))
          else digest
      end
  end.

(** ** Signals *)

(** what arrives of a record of [introspection.signals]: none of it is trusted to be what it should *)
Record Signal := mkSignal {
  type_ : option value;
  id : option value;
  seconds : option value;
  quiescence_ : option value;
  grace : option value;
  signal : option value;
  CREATED : option value
}.

#[export] Instance signal_eq_dec : EqDecision Signal.
Proof. solve_decision. Defined.

(** [Math.round]: to the nearest, and to the greater of two *)
Definition round (m e : Z) : Z := if 0 <=? e then m * 10 ^ e else (2 * m + 10 ^ (- e)) / (2 * 10 ^ (- e)).

Definition clamp (b : Bounds) (n : Z) : Z := Z.min (snd b) (Z.max (fst b) n).

Definition bound (v : option value) (b : Bounds) (fallback : option Z) : option Z :=
  match v, fallback with
  | (None | Some VUndefined), Some f => Some f
  | Some (VNumber n), _ => Some (clamp b n)
  | Some (VDecimal m e), _ => Some (clamp b (round m e))
  | _, _ => None
  end.

(** ** A process *)

(** the halt a process is quiet for: an object of its own, whatever it holds *)
Record Pending := mkPending { p_object : nat; p_id : string; p_seconds : Z; p_quiescence : Z; p_grace : Z; p_since : value }.

Inductive Fn := Decide | Give.

(** what is awaited: going quiet, the map, and the writing of the stop *)
Inductive Task := Quiescing (q : Z) | Reading (p : Pending) | Writing (p : Pending).

(** one [Halt]: what it is quiet for, its timer, what it awaits, and whether it reached the map and the signals *)
Record Ear := mkEar {
  pending : option Pending;
  timer : option (Z * Fn);
  tasks : list Task;
  edges : bool;
  signals : bool;
  born : nat
}.

(** where a cycle of a workload is: about to begin, going quiet, down, and building again *)
Inductive Stage := Working | Scheduled (s : Z) | Pausing (s : Z) | Down (s : Z) | Restoring | Exited.

(** a process: its workload, and each [Halt] it built, the live one of which hears signals *)
Record Process := mkProcess {
  connected : bool;
  quiesced : bool;
  halting : bool;
  stage : Stage;
  ears : list Ear;
  hears : option nat
}.

Definition fresh : Ear := mkEar None None [] false false 0.

Definition with_pending (p : option Pending) (e : Ear) : Ear := mkEar p (timer e) (tasks e) (edges e) (signals e) (born e).
Definition with_timer (t : option (Z * Fn)) (e : Ear) : Ear := mkEar (pending e) t (tasks e) (edges e) (signals e) (born e).
Definition with_tasks (ts : list Task) (e : Ear) : Ear := mkEar (pending e) (timer e) ts (edges e) (signals e) (born e).
Definition with_born (n : nat) (e : Ear) : Ear := mkEar (pending e) (timer e) (tasks e) (edges e) (signals e) n.
Definition with_workload (c q h : bool) (s : Stage) (p : Process) : Process := mkProcess c q h s (ears p) (hears p).
Definition with_ear (k : nat) (e : Ear) (p : Process) : Process :=
  mkProcess (connected p) (quiesced p) (halting p) (stage p) (<[k := e]> (ears p)) (hears p).

(** *** The workload: [quiesce], [cancel] and [stop] *)

Definition quiesce_ (p : Process) : Process :=
  if halting p || quiesced p || negb (connected p) then p else with_workload (connected p) true (halting p) (stage p) p.

Definition cancel (p : Process) : Process :=
  if halting p || negb (quiesced p) then p else with_workload (connected p) false (halting p) (stage p) p.

Definition stop (s : Z) (p : Process) : Process :=
  if halting p || negb (connected p) then p else with_workload (connected p) (quiesced p) true (Scheduled s) p.

(** *** A [Halt]: each is of the process and of its own state *)

Definition later (s : Z) (f : Fn) (e : Ear) : Ear := with_timer (Some (s, f)) e.

Definition disarm (e : Ear) : Ear := with_timer None e.

Definition down (s : Z) (k : nat) (e : Ear) (p : Process) : Process :=
  stop s (with_ear k (with_pending None (disarm e)) p).

(** [quiesce]: the workload goes quiet at once, and what it awaits of it takes its time *)
Definition quiesce (q : Z) (k : nat) (e : Ear) (p : Process) : Process :=
  quiesce_ (with_ear k (with_tasks (tasks e ++ [Quiescing q]) e) p).

Definition begin_ (o : Options) (now : Z) (s : Signal) (k : nat) (e : Ear) (p : Process) : Process :=
  match pending e, id s with
  | None, Some (VString i) =>
      match bound (seconds s) (duration o) None, bound (quiescence_ s) (quiescence o) None, bound (grace s) GRACE (Some DEFAULT_GRACE) with
      | Some n, Some q, Some g =>
          let since := match CREATED s with Some (VNumber c) => VNumber c | Some (VDecimal m x) => VDecimal m x | _ => VNumber now end in
          quiesce q k (with_born (S (born e)) (with_pending (Some (mkPending (born e) i n q g since)) e)) p
      | _, _, _ => p
      end
  | _, _ => p
  end.

Definition obey (s : Signal) (k : nat) (e : Ear) (p : Process) : Process :=
  match pending e with
  | Some h => if bool_decide (signal s = Some (VString (p_id h))) then down (p_seconds h) k e p else p
  | None => p
  end.

Definition signalled (o : Options) (now : Z) (s : Signal) (k : nat) (e : Ear) (p : Process) : Process :=
  if bool_decide (type_ s = Some (VString "halt")) then begin_ o now s k e p
  else if bool_decide (type_ s = Some (VString "stop")) then obey s k e p
  else p.

Definition give (k : nat) (e : Ear) (p : Process) : Process :=
  match pending e with None => p | Some _ => cancel (with_ear k (with_pending None e) p) end.

Definition decide_ (k : nat) (e : Ear) (p : Process) : Process :=
  match pending e with None => p | Some h => with_ear k (with_tasks (tasks e ++ [Reading h]) e) p end.

(** a task that is over is no longer awaited *)
Fixpoint without (i : nat) (ts : list Task) : list Task :=
  match ts, i with
  | [], _ => []
  | _ :: ts, O => ts
  | t :: ts, S i => t :: without i ts
  end.

Definition same_object (h : Pending) (e : Ear) : bool :=
  match pending e with Some h' => bool_decide (p_object h' = p_object h) | None => false end.

(** what is on: [still] is what the map said, where it was read and said anything *)
Definition decided (h : Pending) (still : bool) (k : nat) (e : Ear) (p : Process) : Process :=
  if negb (same_object h e) then with_ear k e p
  else if still then with_ear k (with_tasks (tasks e ++ [Writing h]) e) p
  else with_ear k (later (p_grace h) Give e) p.

Definition called (h : Pending) (ok : bool) (k : nat) (e : Ear) (p : Process) : Process :=
  if ok then down (p_seconds h) k e p else with_ear k (later (p_grace h) Give e) p.

(** what happens to a process: a signal that is heard, a timer, what is awaited, the reaching of a component,
    and the stages of its workload; [now] is its clock *)
Inductive Action :=
| Boot
| Hear (now : Z) (s : Signal)
| Fire (k : nat)
| Settle (k i : nat) (answer : bool)
| Reach (k : nat) (the_map : bool)
| Cycle
| Fail.

Definition settle (k i : nat) (answer : bool) (p : Process) : option Process :=
  e ← ears p !! k;
  t ← tasks e !! i;
  let e' := with_tasks (without i (tasks e)) e in
  match t with
  | Quiescing q => Some (with_ear k (later (q + HALT_GAP) Decide e') p)
  | Reading h => if answer && negb (edges e) then None else Some (decided h answer k e' p)
  | Writing h => if answer && negb (signals e) then None else Some (called h answer k e' p)
  end.

(** [Workload.#cycle] and [#resume], by their stages *)
Definition cycle (p : Process) : option Process :=
  match stage p with
  | Scheduled s => Some (with_workload (connected p) true (halting p) (Pausing s) p)
  | Pausing s =>
      let close := fun e => with_pending None (disarm e) in
      Some (mkProcess (connected p) (quiesced p) (halting p) (Down s)
        (match hears p with Some k => alter close k (ears p) | None => ears p end) None)
  | Down s => Some (mkProcess (connected p) (quiesced p) (halting p) Restoring (ears p ++ [fresh]) (Some (length (ears p))))
  | Restoring => Some (with_workload (connected p) false false Working p)
  | Working | Exited => None
  end.

Definition act (o : Options) (a : Action) (p : Process) : option Process :=
  match a with
  | Boot => if connected p then None else match stage p with Exited => None | s => Some (with_workload true (quiesced p) (halting p) s p) end
  | Hear now s => k ← hears p; e ← ears p !! k; Some (signalled o now s k e p)
  | Fire k =>
      e ← ears p !! k;
      '(_, f) ← timer e;
      Some (match f with Decide => decide_ | Give => give end k (disarm e) (with_ear k (disarm e) p))
  | Settle k i answer => settle k i answer p
  | Reach k the_map =>
      e ← ears p !! k;
      (* reached for in the background, from the first halt on *)
      if bool_decide (born e = 0%nat) then None else
      Some (with_ear k (mkEar (pending e) (timer e) (tasks e) (edges e || the_map) (signals e || negb the_map) (born e)) p)
  | Cycle => cycle p
  | Fail => match stage p with Down s => Some (mkProcess false (quiesced p) (halting p) Exited (ears p) None) | _ => None end
  end.

(** a process that is starting: its residents are up, and what it runs is being built *)
Definition booting : Process := mkProcess false false false Working [fresh] (Some 0%nat).

(** ** A deployment: its processes, the records of its signals, and the map *)

Inductive Event :=
| Posted (s : Signal)
| Read_ (i : nat) (h : Pending) (map : list Z)
| Stored (i : nat) (h : Pending)
| Stopped (i : nat) (halt : string).

Record World := mkWorld {
  processes : list Process;
  records : list Signal;
  (* when each edge of this region was last written *)
  map_ : list Z;
  asked : list (nat * Pending);
  log : list Event
}.

(** [UPDATED>since] *)
Definition newer (since : value) (u : Z) : bool :=
  match since with
  | VNumber c => c <? u
  | VDecimal m e => if 0 <=? e then m * 10 ^ e <? u else m <? u * 10 ^ (- e)
  | _ => false
  end.

Definition still (map : list Z) (h : Pending) : bool := forallb (fun u => negb (newer (p_since h) u)) map.

(** the record [call] creates *)
Definition stop_of (h : Pending) (i : string) (created : Z) : Signal :=
  mkSignal (Some (VString "stop")) (Some (VString i)) (Some (VNumber (p_seconds h))) (Some (VNumber (p_quiescence h))) None
    (Some (VString (p_id h))) (Some (VNumber created)).

(** a record an operator posts: under an id of its own, and of a moment *)
Definition posted (s : Signal) : bool :=
  match id s, CREATED s with Some (VString _), Some (VNumber _) => true | _, _ => false end.

Inductive Happening :=
| Post (s : Signal)
| Flush (u : Z)
| Serve (j : nat) (i : string) (created : Z)
| Lose (j : nat)
| Step (i : nat) (a : Action).

Definition task_of (p : Process) (a : Action) : option (Ear * Task * bool) :=
  match a with Settle k i answer => e ← ears p !! k; t ← tasks e !! i; Some (e, t, answer) | _ => None end.

(** what the deployment lets happen to a process: it hears what was recorded, reads the map there is, and is
    told a stop was written that was *)
Definition admits (w : World) (p : Process) (a : Action) : bool :=
  match a with
  | Hear _ s => bool_decide (s ∈ records w)
  | _ =>
      match task_of p a with
      | Some (_, Reading h, true) => still (map_ w) h
      | Some (_, Writing h, true) =>
          existsb (fun s => bool_decide (type_ s = Some (VString "stop")) && bool_decide (signal s = Some (VString (p_id h)))) (records w)
      | _ => true
      end
  end.

(** a stop is asked for where the map was still, of the component that was reached *)
Definition asks (i : nat) (p : Process) (a : Action) : list (nat * Pending) :=
  match task_of p a with
  | Some (e, Reading h, true) => if same_object h e && signals e then [(i, h)] else []
  | _ => []
  end.

Definition reads (i : nat) (w : World) (p : Process) (a : Action) : list Event :=
  match task_of p a with Some (_, Reading h, true) => [Read_ i h (map_ w)] | _ => [] end.

(** the halt a process was quiet for as it was told to stop *)
Definition reason (p : Process) (a : Action) : option string :=
  match a with
  | Hear _ s => k ← hears p; e ← ears p !! k; p_id <$> pending e
  | _ => match task_of p a with Some (_, Writing h, _) => Some (p_id h) | _ => None end
  end.

Definition stops (i : nat) (p p' : Process) (a : Action) : list Event :=
  match stage p, stage p' with
  | Scheduled _, _ => []
  | _, Scheduled _ => match reason p a with Some h => [Stopped i h] | None => [] end
  | _, _ => []
  end.

Definition happen (o : Options) (x : Happening) (w : World) : option World :=
  match x with
  | Post s => if posted s then Some (mkWorld (processes w) (records w ++ [s]) (map_ w) (asked w) (Posted s :: log w)) else None
  | Flush u => Some (mkWorld (processes w) (records w) (u :: map_ w) (asked w) (log w))
  | Serve j i created =>
      '(n, h) ← asked w !! j;
      Some (mkWorld (processes w) (records w ++ [stop_of h i created]) (map_ w) (delete j (asked w)) (Stored n h :: log w))
  | Lose j => Some (mkWorld (processes w) (records w) (map_ w) (delete j (asked w)) (log w))
  | Step i a =>
      p ← processes w !! i;
      if admits w p a then
        p' ← act o a p;
        Some (mkWorld (<[i := p']> (processes w)) (records w) (map_ w) (asked w ++ asks i p a)
          (stops i p p' a ++ reads i w p a ++ log w))
      else None
  end.

Inductive reachable (o : Options) : World -> Prop :=
| reachable_start n m : reachable o (mkWorld (replicate n booting) [] m [] [])
| reachable_step x w w' : reachable o w -> happen o x w = Some w' -> reachable o w'.

(** a process on its own, whatever it hears and is answered *)
Inductive reaches (o : Options) : Process -> Prop :=
| reaches_start : reaches o booting
| reaches_step a p p' : reaches o p -> act o a p = Some p' -> reaches o p'.

(** ** Lemmas *)

(** *** A process that is quiet is waiting for something *)

Definition awaits (h : Pending) (t : Task) : bool :=
  match t with Quiescing _ => true | Reading h' | Writing h' => bool_decide (p_object h' = p_object h) end.

Definition driven (e : Ear) : Prop :=
  match pending e with Some h => is_Some (timer e) \/ exists t, t ∈ tasks e /\ awaits h t = true | None => True end.

Definition live (p : Process) : option Ear := hears p ≫= fun k => ears p !! k.

(** what is so of a process: each halt it is quiet for is waited for, an earlier [Halt] is quiet for none *)
Record sound (p : Process) : Prop := {
  w_driven k e : ears p !! k = Some e -> driven e;
  w_past k e : ears p !! k = Some e -> hears p <> Some k -> pending e = None;
  w_hears k : hears p = Some k -> (k < length (ears p))%nat;
  w_stage : match stage p with Working => halting p = false | Exited => connected p = false | _ => halting p = true end;
  w_boot : connected p = false -> stage p <> Exited -> quiesced p = false /\ stage p = Working;
  w_down s : stage p = Down s -> hears p = None
}.

(** outside of a cycle it is quiet only for a halt *)
Definition answered (p : Process) : Prop :=
  quiesced p = true -> halting p = false -> connected p = true -> exists e, live p = Some e /\ is_Some (pending e).

Lemma elem_of_without i ts t u : ts !! i = Some u -> t ∈ ts -> t = u \/ t ∈ without i ts.
Proof.
  revert i. induction ts as [|x ts IH]; intros i Hi Ht; [by apply elem_of_nil in Ht|].
  destruct i as [|i]; cbn in *; [injection Hi as ->; apply elem_of_cons in Ht as [->|Ht]; auto|].
  apply elem_of_cons in Ht as [->|Ht]; [right; by left|]. destruct (IH i Hi Ht); [by left|right; by right].
Qed.

Lemma sound_ear p k e e' :
  sound p -> ears p !! k = Some e -> driven e' -> (pending e = None -> pending e' <> None -> hears p = Some k) -> sound (with_ear k e' p).
Proof.
  intros [H1 H2 H3 H4 H5 H6] He Hd Hp. split; cbn; try done.
  - intros j x [[-> [<- _]]|[_ Hx]]%list_lookup_insert_Some; [done | by eapply H1].
  - intros j x [[-> [<- _]]|[_ Hx]]%list_lookup_insert_Some Hj; [|by eapply H2]. specialize (H2 _ _ He Hj).
    destruct (pending e') as [h|] eqn:Hh; [|done]. destruct Hj. by apply Hp.
  - intros j Hj. rewrite length_insert. by apply H3.
Qed.

Lemma answered_ear p k e e' :
  answered p -> ears p !! k = Some e -> (is_Some (pending e) -> is_Some (pending e')) -> answered (with_ear k e' p).
Proof.
  intros Ha He Hp Hq Hh Hc. destruct (Ha Hq Hh Hc) as (x & Hx & Hpx). unfold live in *. cbn in *.
  destruct (hears p) as [j|]; [|done]. cbn in *. destruct (decide (j = k)) as [->|Hne].
  - exists e'. assert (x = e) as -> by congruence. split; [|by apply Hp]. apply list_lookup_insert_eq. by eapply lookup_lt_Some.
  - exists x. by rewrite list_lookup_insert_ne.
Qed.

Lemma sound_stop s p : sound p -> sound (stop s p) /\ answered (stop s p).
Proof.
  intros Hs. pose proof Hs as [H1 H2 H3 H4 H5 H6]. unfold stop. destruct (halting p) eqn:Hh; cbn; [split; [done|]; intros _ H; congruence|].
  destruct (connected p) eqn:Hc; cbn; [|split; [done|]; intros _ _ H; congruence].
  split; [split; cbn; try done; try congruence | intros _ H; cbn in H; congruence].
Qed.

Lemma sound_cancel p : sound p -> sound (cancel p) /\ answered (cancel p).
Proof.
  intros Hs. pose proof Hs as [H1 H2 H3 H4 H5 H6]. unfold cancel. destruct (halting p) eqn:Hh; cbn; [split; [done|]; intros _ H; congruence|].
  destruct (quiesced p) eqn:Hq; cbn; [|split; [done|]; intros H; congruence].
  split; [split; cbn; try done; try congruence | intros H; cbn in H; congruence]. intros Hc Hx. by destruct (H5 Hc Hx).
Qed.

Lemma sound_quiesce p e : sound p -> live p = Some e -> is_Some (pending e) -> sound (quiesce_ p) /\ answered (quiesce_ p).
Proof.
  intros Hs He Hp. pose proof Hs as [H1 H2 H3 H4 H5 H6]. unfold quiesce_. destruct (halting p) eqn:Hh; cbn; [split; [done|]; intros _ H; congruence|].
  destruct (quiesced p) eqn:Hq; cbn; [split; [done|]; intros _ _ _; by exists e|].
  destruct (connected p) eqn:Hc; cbn; [|split; [done|]; intros _ _ H; congruence].
  split; [split; cbn; try done; try congruence | intros _ _ _; by exists e].
Qed.

Lemma driven_later s f e : driven (later s f e).
Proof. unfold driven, later. cbn. destruct (pending e); [by left; eexists | done]. Qed.

Lemma driven_none e : pending e = None -> driven e.
Proof. unfold driven. by intros ->. Qed.

Lemma down_sound s k e p : sound p -> ears p !! k = Some e -> sound (down s k e p) /\ answered (down s k e p).
Proof. intros Hs He. apply sound_stop. eapply sound_ear; [done|done|by apply driven_none|done]. Qed.

Lemma signalled_sound o now s k e p :
  sound p -> answered p -> hears p = Some k -> ears p !! k = Some e -> sound (signalled o now s k e p) /\ answered (signalled o now s k e p).
Proof.
  intros Hs Ha Hk He. unfold signalled. case_bool_decide.
  - unfold begin_. destruct (pending e) eqn:Hp; [done|]. destruct (id s) as [[]|]; try done.
    destruct (bound (seconds s) _ _); [|done]. destruct (bound (quiescence_ s) _ _); [|done]. destruct (bound (grace s) _ _); [|done].
    unfold quiesce. set (h := mkPending _ _ _ _ _ _). set (e' := with_tasks _ _). apply (sound_quiesce _ e').
    + eapply sound_ear; [done|done| |done]. unfold driven, e'. cbn. right. exists (Quiescing z0). split; [set_solver|done].
    + unfold live. cbn. rewrite Hk. cbn. apply list_lookup_insert_eq. by eapply lookup_lt_Some.
    + by eexists.
  - case_bool_decide; [|done]. unfold obey. destruct (pending e); [|done]. case_bool_decide; [|done]. by apply down_sound.
Qed.

Lemma settled_driven e i t :
  driven e -> tasks e !! i = Some t -> (forall h, pending e = Some h -> awaits h t = false) -> driven (with_tasks (without i (tasks e)) e).
Proof.
  unfold driven. cbn. destruct (pending e) as [h|]; [|done]. intros [H|(u & Hu & Hw)] Hi Ht; [by left|right].
  exists u. split; [|done]. destruct (elem_of_without _ _ _ _ Hi Hu) as [->|]; [|done]. rewrite (Ht h eq_refl) in Hw. done.
Qed.

Lemma with_ear_twice k e e' p : with_ear k e' (with_ear k e p) = with_ear k e' p.
Proof. unfold with_ear. cbn. by rewrite list_insert_insert_eq. Qed.

(** an ear whose pending halt is what it was, and still waited for *)
Lemma kept_sound p k e e' :
  sound p -> answered p -> ears p !! k = Some e -> driven e' -> pending e' = pending e ->
  sound (with_ear k e' p) /\ answered (with_ear k e' p).
Proof. intros Hs Ha He Hd Hp. split; [eapply sound_ear | eapply answered_ear]; try done; rewrite Hp; done. Qed.

Lemma fire_sound f k e p : sound p -> answered p -> ears p !! k = Some e ->
  let p' := (match f with Decide => decide_ | Give => give end) k (disarm e) (with_ear k (disarm e) p) in sound p' /\ answered p'.
Proof.
  intros Hs Ha He. destruct f; cbn; [unfold decide_ | unfold give]; cbn [disarm with_timer pending]; destruct (pending e) as [h|] eqn:Hp;
    try (apply (kept_sound p k e); try done; by apply driven_none); rewrite with_ear_twice.
  - apply (kept_sound p k e); try done. unfold driven. cbn. rewrite Hp. right. exists (Reading h).
    split; [set_solver|]. cbn. by apply bool_decide_eq_true_2.
  - apply sound_cancel. eapply sound_ear; [done|done|by apply driven_none|done].
Qed.

Lemma settle_sound k i answer p p' : sound p -> answered p -> settle k i answer p = Some p' -> sound p' /\ answered p'.
Proof.
  intros Hs Ha. unfold settle. destruct (ears p !! k) as [e|] eqn:He; [cbn|done]. destruct (tasks e !! i) as [t|] eqn:Ht; [cbn|done].
  assert (driven e) as Hd by by eapply (w_driven _ Hs). set (e' := with_tasks (without i (tasks e)) e).
  destruct t as [q|h|h].
  - intros [= <-]. apply (kept_sound p k e); try done. apply driven_later.
  - destruct (answer && negb (edges e)); [done|]. intros [= <-]. unfold decided. destruct (same_object h e') eqn:Ho; cbn [negb].
    + destruct answer; (apply (kept_sound p k e); try done); [|apply driven_later]. unfold driven. cbn. unfold same_object in Ho. cbn in Ho.
      destruct (pending e) as [h'|]; [|done]. right. exists (Writing h). split; [set_solver|]. cbn. apply bool_decide_eq_true in Ho. by apply bool_decide_eq_true_2.
    + apply (kept_sound p k e); try done. eapply settled_driven; [done..|]. intros h' Hp. unfold same_object in Ho. cbn in Ho. rewrite Hp in Ho.
      cbn. apply bool_decide_eq_false in Ho. apply bool_decide_eq_false_2. congruence.
  - destruct (answer && negb (signals e)); [done|]. intros [= <-]. unfold called. destruct answer.
    + unfold down. apply sound_stop. eapply sound_ear; [done|done|by apply driven_none|done].
    + apply (kept_sound p k e); try done. apply driven_later.
Qed.

Lemma cycle_sound p p' : sound p -> answered p -> cycle p = Some p' -> sound p' /\ answered p'.
Proof.
  intros Hs Ha. pose proof Hs as [H1 H2 H3 H4 H5 H6]. unfold cycle. destruct (stage p) as [|s|s|s| |] eqn:Hst; try done; intros [= <-].
  - split; [split; cbn; try done; intros Hc _; destruct (H5 Hc); congruence|]. intros _ H. cbn in H. congruence.
  - split; [|intros _ H; cbn in H; congruence]. split; cbn; try done.
    + intros k e He. destruct (hears p) as [j|]; [|by eapply H1]. destruct (decide (k = j)) as [->|Hk].
      * rewrite list_lookup_alter_eq in He. destruct (ears p !! j); [|done]. injection He as <-. by apply driven_none.
      * rewrite list_lookup_alter_ne in He by done. by eapply H1.
    + intros k e He _. destruct (hears p) as [j|] eqn:Hj; [|by eapply H2]. destruct (decide (k = j)) as [->|Hk].
      * rewrite list_lookup_alter_eq in He. destruct (ears p !! j); [|done]. by injection He as <-.
      * rewrite list_lookup_alter_ne in He by done. eapply H2; [done|congruence].
    + intros Hc _. destruct (H5 Hc); congruence.
  - specialize (H6 s eq_refl). split; [|intros _ H; cbn in H; congruence]. split; cbn; try done.
    + intros k e [He|(_ & He)]%lookup_app_Some; [by eapply H1|]. apply list_lookup_singleton_Some in He as [_ <-]. done.
    + intros k e [He|(_ & He)]%lookup_app_Some Hk; [eapply H2; [done|congruence]|].
      by apply list_lookup_singleton_Some in He as [_ <-].
    + intros k [= <-]. rewrite length_app. cbn. lia.
    + intros Hc _. destruct (H5 Hc); congruence.
  - split; [split; cbn; try done; intros Hc _; destruct (H5 Hc); congruence|]. intros H. cbn in H. congruence.
Qed.

Lemma act_sound o a p p' : sound p -> answered p -> act o a p = Some p' -> sound p' /\ answered p'.
Proof.
  intros Hs Ha. destruct a as [|now s|k|k i answer|k the_map| |]; cbn [act].
  - destruct (connected p) eqn:Hc; [done|]. pose proof Hs as [H1 H2 H3 H4 H5 H6].
    destruct (decide (is_Some (match stage p with Exited => None | _ => Some tt end))) as [Hx|Hx];
      [|destruct (stage p); try done; by destruct Hx].
    destruct (H5 Hc) as [Hq Hw]; [intros Hx'; rewrite Hx' in Hx; by destruct Hx|]. rewrite Hw. rewrite Hw in H4. intros [= <-].
    split; [split; cbn; try done | intros H; cbn in H; congruence].
  - destruct (hears p) as [k|] eqn:Hk; [cbn|done]. destruct (ears p !! k) as [e|] eqn:He; [cbn|done]. intros [= <-]. by apply signalled_sound.
  - destruct (ears p !! k) as [e|] eqn:He; [cbn|done]. destruct (timer e) as [[s f]|]; [cbn|done]. intros [= <-]. by apply fire_sound.
  - by apply settle_sound.
  - destruct (ears p !! k) as [e|] eqn:He; [cbn|done]. case_bool_decide; [done|]. intros [= <-].
    apply (kept_sound p k e); try done. exact (w_driven _ Hs k e He).
  - by apply cycle_sound.
  - destruct (stage p) eqn:Hst; try done. intros [= <-]. pose proof Hs as [H1 H2 H3 H4 H5 H6]. specialize (H6 _ Hst).
    split; [split; cbn; try done | intros _ _ H; cbn in H; congruence]. intros k e He _. eapply H2; [done|congruence].
Qed.

Lemma reaches_sound o p : reaches o p -> sound p /\ answered p.
Proof.
  induction 1 as [|a p p' _ [Hs Ha] Hp]; [|by eapply act_sound].
  split; [|intros H; done]. split; cbn; try done.
  - intros k e He. apply list_lookup_singleton_Some in He as [_ <-]. done.
  - intros k e He Hk. apply list_lookup_singleton_Some in He as [-> _]. done.
  - intros k [= <-]. lia.
Qed.

(** *** What is awaited comes to an end *)

Definition own_ (a : Action) : bool := match a with Fire _ | Settle _ _ _ => true | _ => false end.

Definition weight (t : Task) : nat := match t with Quiescing _ => 5 | Reading _ => 3 | Writing _ => 2 end.

Definition pressure_ear (e : Ear) : nat :=
  match timer e with Some (_, Decide) => 4 | Some (_, Give) => 1 | None => 0 end + sum_list_with weight (tasks e).

Definition pressure (p : Process) : nat := sum_list_with pressure_ear (ears p).

Lemma sum_insert {A} (f : A -> nat) l k x y : l !! k = Some x -> (sum_list_with f (<[k := y]> l) + f x = sum_list_with f l + f y)%nat.
Proof. revert k. induction l as [|z l IH]; intros [|k] Hk; simpl in *; [done..|injection Hk as ->; lia|]. specialize (IH k Hk). lia. Qed.

Lemma sum_without ts i t : ts !! i = Some t -> (sum_list_with weight (without i ts) + weight t = sum_list_with weight ts)%nat.
Proof. revert i. induction ts as [|u ts IH]; intros [|i] Hi; cbn in *; [done..|injection Hi as ->; lia|]. specialize (IH i Hi). lia. Qed.

Lemma pressure_with_ear k e e' p : ears p !! k = Some e -> (pressure_ear e' < pressure_ear e)%nat -> (pressure (with_ear k e' p) < pressure p)%nat.
Proof. intros He Hp. unfold pressure. cbn. pose proof (sum_insert pressure_ear (ears p) k e e' He). lia. Qed.

Lemma pressure_cancel p : pressure (cancel p) = pressure p.
Proof. unfold cancel. by destruct (_ || _). Qed.

Lemma pressure_stop s p : pressure (stop s p) = pressure p.
Proof. unfold stop. by destruct (_ || _). Qed.

Lemma own_decreases o a p p' : own_ a = true -> act o a p = Some p' -> (pressure p' < pressure p)%nat.
Proof.
  destruct a as [| |k|k i answer| | |]; try done; intros _; cbn [act].
  - destruct (ears p !! k) as [e|] eqn:He; [cbn|done]. destruct (timer e) as [[s f]|] eqn:Ht; [cbn|done]. intros [= <-].
    assert (pressure_ear (disarm e) < pressure_ear e)%nat as Hlt by (unfold pressure_ear; rewrite Ht; cbn; destruct f; lia).
    destruct f; cbn; [unfold decide_ | unfold give]; destruct (pending _); rewrite ?with_ear_twice, ?pressure_cancel;
      apply (pressure_with_ear k e); try done; unfold pressure_ear; rewrite Ht; cbn; rewrite ?sum_list_with_app; cbn; lia.
  - unfold settle. destruct (ears p !! k) as [e|] eqn:He; [cbn|done]. destruct (tasks e !! i) as [t|] eqn:Ht; [cbn|done].
    pose proof (sum_without _ _ _ Ht) as Hw.
    destruct t as [q|h|h]; try (destruct (answer && _); [done|]); intros [= <-]; [|unfold decided; destruct (negb _), answer|unfold called; destruct answer];
      unfold down; rewrite ?pressure_stop; apply (pressure_with_ear k e); try done; unfold pressure_ear; cbn [timer tasks later with_timer with_tasks with_pending disarm];
      rewrite ?sum_list_with_app; cbn in *; destruct (timer e) as [[? []]|]; lia.
Qed.

Fixpoint run (o : Options) (l : list Action) (p : Process) : option Process :=
  match l with [] => Some p | a :: l => p' ← act o a p; run o l p' end.

Lemma run_reaches o l p p' : reaches o p -> run o l p = Some p' -> reaches o p'.
Proof.
  revert p. induction l as [|a l IH]; intros p Hp; cbn; [by intros [= <-]|].
  destruct (act o a p) as [q|] eqn:Hq; [cbn|done]. apply IH. by eapply reaches_step.
Qed.

Lemma own_runs_out o l p p' : run o l p = Some p' -> Forall (fun a => own_ a = true) l -> (length l + pressure p' <= pressure p)%nat.
Proof.
  revert p. induction l as [|a l IH]; intros p; cbn; [intros [= <-] _; lia|].
  destruct (act o a p) as [q|] eqn:Hq; [cbn|done]. intros Hr [Ha Hl]%Forall_cons. specialize (IH q Hr Hl).
  pose proof (own_decreases o a p q Ha Hq). lia.
Qed.

Definition idle (o : Options) (p : Process) : Prop := forall a, own_ a = true -> act o a p = None.

Lemma idle_ear o p k e : idle o p -> ears p !! k = Some e -> timer e = None /\ tasks e = [].
Proof.
  intros Hi He. split.
  - specialize (Hi (Fire k) eq_refl). cbn in Hi. rewrite He in Hi. cbn in Hi. by destruct (timer e) as [[s f]|].
  - specialize (Hi (Settle k 0 false) eq_refl). cbn in Hi. unfold settle in Hi. rewrite He in Hi. cbn in Hi.
    destruct (tasks e) as [|t ts]; [done|]. cbn in Hi. by destruct t.
Qed.

Lemma cycle_ends o p : sound p -> connected p = true -> halting p = true ->
  exists m p', (m <= 4)%nat /\ run o (replicate m Cycle) p = Some p' /\ quiesced p' = false /\ halting p' = false.
Proof.
  intros [_ _ _ H4 _ _] Hc Hh. destruct (stage p) as [|s|s|s| |] eqn:Hst; try congruence;
    [exists 4%nat | exists 3%nat | exists 2%nat | exists 1%nat];
    (eexists; split; [lia|]; cbn; unfold cycle; rewrite Hst; cbn; split; [reflexivity | done]).
Qed.

(** a process comes back, whatever it hears, reads and is answered: once it hears no more, it does only
    so much as is left of the halts it heard, and when that is done it is working, or it is being stopped and
    is built again in four stages of its own; it is never left quiet. *)
Theorem comes_back o p l p' :
  reaches o p -> run o l p = Some p' -> Forall (fun a => own_ a = true) l ->
  (length l <= pressure p)%nat /\
  (idle o p' -> connected p' = true -> quiesced p' = true ->
   exists m p'', (m <= 4)%nat /\ run o (replicate m Cycle) p' = Some p'' /\ quiesced p'' = false /\ halting p'' = false).
Proof.
  intros Hp Hr Hl. split; [pose proof (own_runs_out o l p p' Hr Hl); lia|]. intros Hi Hc Hq.
  apply run_reaches, reaches_sound in Hr as [Hs Ha]; [|done]. destruct (halting p') eqn:Hh; [by apply cycle_ends|].
  destruct (Ha Hq Hh Hc) as (e & He & [h Hpe]). unfold live in He. destruct (hears p') as [k|]; [cbn in He|done].
  destruct (idle_ear o p' k e Hi He) as [Ht Hts]. pose proof (w_driven _ Hs k e He) as Hd. unfold driven in Hd. rewrite Hpe, Ht, Hts in Hd.
  destruct Hd as [[? ?]|(t & Hin & _)]; [done|by apply elem_of_nil in Hin].
Qed.

(** *** What a process holds came of what it heard *)

Definition holds (p : Process) (h : Pending) : Prop :=
  exists k e, ears p !! k = Some e /\ (pending e = Some h \/ Reading h ∈ tasks e \/ Writing h ∈ tasks e).

Definition writes (p : Process) (h : Pending) : Prop := exists k e, ears p !! k = Some e /\ Writing h ∈ tasks e.

(** a halt that is held of a signal *)
Definition begun (s : Signal) (h : Pending) : Prop :=
  type_ s = Some (VString "halt") /\ id s = Some (VString (p_id h)) /\ forall c, CREATED s = Some (VNumber c) -> p_since h = VNumber c.

(** and of what it asks for, as much as the deployment allows *)
Definition within (o : Options) (h : Pending) : Prop :=
  (fst (duration o) <= snd (duration o) -> fst (duration o) <= p_seconds h <= snd (duration o)) /\
  (fst (quiescence o) <= snd (quiescence o) -> fst (quiescence o) <= p_quiescence h <= snd (quiescence o)) /\
  fst GRACE <= p_grace h <= snd GRACE.

Lemma bound_within v b f n : bound v b f = Some n -> fst b <= snd b -> fst b <= n <= snd b \/ f = Some n.
Proof. unfold bound, clamp. destruct v as [[]|], f; cbn; intros H Hb; simplify_eq; auto; left; lia. Qed.

Lemma ears_cancel p : ears (cancel p) = ears p.
Proof. unfold cancel. by destruct (_ || _). Qed.

Lemma ears_stop s p : ears (stop s p) = ears p.
Proof. unfold stop. by destruct (_ || _). Qed.

Lemma ears_quiesce p : ears (quiesce_ p) = ears p.
Proof. unfold quiesce_. by destruct (_ || _). Qed.

Lemma without_in i ts t : t ∈ without i ts -> t ∈ ts.
Proof.
  revert i. induction ts as [|u ts IH]; intros [|i]; cbn; try done; [intros H; by right|].
  intros [->|H]%elem_of_cons; [by left|right; by eapply IH].
Qed.

(** an ear of which nothing is held that was not *)
Definition subsumed (e e' : Ear) (h : Pending) : Prop :=
  (pending e' = Some h -> pending e = Some h \/ Reading h ∈ tasks e \/ Writing h ∈ tasks e) /\
  (Reading h ∈ tasks e' -> pending e = Some h \/ Reading h ∈ tasks e \/ Writing h ∈ tasks e) /\
  (Writing h ∈ tasks e' -> pending e = Some h \/ Reading h ∈ tasks e \/ Writing h ∈ tasks e).

Lemma holds_ear p k e e' h :
  ears p !! k = Some e -> subsumed e e' h -> forall q, ears q = <[k := e']> (ears p) -> holds q h -> holds p h.
Proof.
  intros He (H1 & H2 & H3) q Hq (j & x & Hx & Hh). rewrite Hq in Hx.
  apply list_lookup_insert_Some in Hx as [(-> & <- & _)|[_ Hx]]; [exists j, e; split; [done|]; naive_solver | by exists j, x].
Qed.

Lemma act_holds o a p p' h :
  act o a p = Some p' -> holds p' h -> holds p h \/ exists now s, a = Hear now s /\ begun s h /\ within o h.
Proof.
  destruct a as [|now s|k|k i answer|k the_map| |]; cbn [act].
  - destruct (connected p); [done|]. destruct (stage p); try done; intros [= <-]; by left.
  - destruct (hears p) as [k|]; [cbn|done]. destruct (ears p !! k) as [e|] eqn:He; [cbn|done]. intros [= <-].
    unfold signalled. case_bool_decide as Ht; [|case_bool_decide; [|by left]].
    + unfold begin_. destruct (pending e) eqn:Hp; [by left|]. destruct (id s) as [[]|] eqn:Hid; try (by left).
      destruct (bound (seconds s) _ _) eqn:Hb1; [|by left]. destruct (bound (quiescence_ s) _ _) eqn:Hb2; [|by left]. destruct (bound (grace s) _ _) eqn:Hb3; [|by left].
      set (g := mkPending _ _ _ _ _ _). unfold quiesce. intros (j & x & Hx & Hh). rewrite ears_quiesce in Hx. cbn in Hx.
      apply list_lookup_insert_Some in Hx as [(-> & <- & _)|[_ Hx]]; [|left; by exists j, x].
      cbn in Hh. destruct Hh as [[= <-]|Hh].
      * right. exists now, s. split; [done|]. split; [split; [done|]; split; [done|]; intros c Hc; unfold g; cbn; by rewrite Hc|].
        unfold within, g. cbn [p_seconds p_quiescence p_grace]. split; [|split].
        { intros Hd. by destruct (bound_within _ _ _ _ Hb1 Hd). }
        { intros Hd. by destruct (bound_within _ _ _ _ Hb2 Hd). }
        { unfold GRACE, DEFAULT_GRACE in *. destruct (bound_within _ _ _ _ Hb3) as [Hg|[= <-]]; cbn in *; lia. }
      * left. exists j, e. split; [done|]. set_solver.
    + unfold obey, down. destruct (pending e) eqn:Hp; [|by left]. case_bool_decide; [|by left]. intros Hh. left. revert Hh.
      eapply (holds_ear p k e); [done| |by rewrite ears_stop]. unfold subsumed. cbn. naive_solver.
  - destruct (ears p !! k) as [e|] eqn:He; [cbn|done]. destruct (timer e) as [[s f]|]; [cbn|done]. intros [= <-] Hh. left. revert Hh.
    destruct f; cbn; [unfold decide_ | unfold give]; cbn [disarm with_timer pending]; destruct (pending e) eqn:Hp; rewrite ?with_ear_twice;
      (eapply (holds_ear p k e); [done| |by rewrite ?ears_cancel]); unfold subsumed; cbn; rewrite ?Hp; set_solver.
  - unfold settle. destruct (ears p !! k) as [e|] eqn:He; [cbn|done]. destruct (tasks e !! i) as [t|] eqn:Ht; [cbn|done].
    apply list_elem_of_lookup_2 in Ht as Hin.
    destruct t as [q|g|g]; try (destruct (answer && _); [done|]); intros [= <-] Hh; left; revert Hh;
      [|unfold decided; destruct (negb _), answer|unfold called, down; destruct answer];
      (eapply (holds_ear p k e); [done| |by rewrite ?ears_stop]); unfold subsumed; cbn; (split_and!);
      try (intros [Hw%without_in|Hw]%elem_of_app; [by auto|apply list_elem_of_singleton in Hw; try done; injection Hw as ->; auto]);
      try (intros Hw%without_in; by auto); by auto.
  - destruct (ears p !! k) as [e|] eqn:He; [cbn|done]. case_bool_decide; [done|]. intros [= <-] Hh. left. revert Hh.
    eapply (holds_ear p k e); [done| |done]. unfold subsumed. cbn. naive_solver.
  - unfold cycle. destruct (stage p); try done; intros [= <-] (j & x & Hx & Hh); left; cbn in Hx.
    + by exists j, x.
    + destruct (hears p) as [k|]; [|by exists j, x]. destruct (decide (j = k)) as [->|Hk].
      * rewrite list_lookup_alter_eq in Hx. destruct (ears p !! k) as [e|] eqn:He; [|done]. injection Hx as <-. exists k, e. split; [done|]. cbn in Hh. naive_solver.
      * rewrite list_lookup_alter_ne in Hx by done. by exists j, x.
    + apply lookup_app_Some in Hx as [Hx|[_ Hx]]; [by exists j, x|]. apply list_lookup_singleton_Some in Hx as [_ <-]. cbn in Hh. set_solver.
    + by exists j, x.
  - destruct (stage p); try done. intros [= <-] Hh. by left.
Qed.

(** a stop is written for a halt that the map was read for, and was still *)
Lemma act_writes o a p p' h :
  act o a p = Some p' -> writes p' h -> writes p h \/ exists e, task_of p a = Some (e, Reading h, true).
Proof.
  assert (forall k e e' q, ears p !! k = Some e -> ears q = <[k := e']> (ears p) -> (Writing h ∈ tasks e' -> Writing h ∈ tasks e) ->
    writes q h -> writes p h) as Hset.
  { intros k e e' q He Hq Hsub (j & x & Hx & Hw). rewrite Hq in Hx.
    apply list_lookup_insert_Some in Hx as [(-> & <- & _)|[_ Hx]]; [exists j, e; auto | by exists j, x]. }
  destruct a as [|now s|k|k i answer|k the_map| |]; cbn [act].
  - destruct (connected p); [done|]. destruct (stage p); try done; intros [= <-]; by left.
  - destruct (hears p) as [k|]; [cbn|done]. destruct (ears p !! k) as [e|] eqn:He; [cbn|done]. intros [= <-] Hw. left. revert Hw.
    unfold signalled. case_bool_decide; [|case_bool_decide; [|done]].
    + unfold begin_. destruct (pending e), (id s) as [[]|]; try done.
      destruct (bound (seconds s) _ _); [|done]. destruct (bound (quiescence_ s) _ _); [|done]. destruct (bound (grace s) _ _); [|done].
      unfold quiesce. eapply (Hset k e); [done|by rewrite ears_quiesce|]. cbn. set_solver.
    + unfold obey, down. destruct (pending e); [|done]. case_bool_decide; [|done]. eapply (Hset k e); [done|by rewrite ears_stop|]. done.
  - destruct (ears p !! k) as [e|] eqn:He; [cbn|done]. destruct (timer e) as [[s f]|]; [cbn|done]. intros [= <-] Hh. left. revert Hh.
    destruct f; cbn; [unfold decide_ | unfold give]; cbn [disarm with_timer pending]; destruct (pending e); rewrite ?with_ear_twice;
      (eapply (Hset k e); [done|by rewrite ?ears_cancel|]); cbn; set_solver.
  - unfold settle. cbn [task_of]. destruct (ears p !! k) as [e|] eqn:He; [cbn|done]. destruct (tasks e !! i) as [t|] eqn:Ht; [cbn|done].
    destruct t as [q|g|g]; try (destruct (answer && _); [done|]); intros [= <-] Hh.
    + left. revert Hh. eapply (Hset k e); [done|reflexivity|]. cbn. apply without_in.
    + destruct answer.
      * destruct Hh as (j & x & Hx & Hw). unfold decided in Hx. destruct (negb _) in Hx; cbn in Hx;
          (apply list_lookup_insert_Some in Hx as [(-> & <- & _)|[_ Hx]]; [|left; by exists j, x]); cbn in Hw.
        { left. exists j, e. split; [done|]. by apply without_in in Hw. }
        apply elem_of_app in Hw as [Hw%without_in|Hw%list_elem_of_singleton]; [left; by exists j, e|]. injection Hw as ->. right. by exists e.
      * left. revert Hh. unfold decided. destruct (negb _); (eapply (Hset k e); [done|reflexivity|]); cbn; apply without_in.
    + left. revert Hh. unfold called, down. destruct answer; (eapply (Hset k e); [done|by rewrite ?ears_stop|]); cbn; apply without_in.
  - destruct (ears p !! k) as [e|] eqn:He; [cbn|done]. case_bool_decide; [done|]. intros [= <-] Hh. left. revert Hh. by eapply (Hset k e).
  - unfold cycle. destruct (stage p); try done; intros [= <-] (j & x & Hx & Hh); left; cbn in Hx.
    + by exists j, x.
    + destruct (hears p) as [k|]; [|by exists j, x]. destruct (decide (j = k)) as [->|Hk].
      * rewrite list_lookup_alter_eq in Hx. destruct (ears p !! k) as [e|] eqn:He; [|done]. injection Hx as <-. by exists k, e.
      * rewrite list_lookup_alter_ne in Hx by done. by exists j, x.
    + apply lookup_app_Some in Hx as [Hx|[_ Hx]]; [by exists j, x|]. apply list_lookup_singleton_Some in Hx as [_ <-]. cbn in Hh. set_solver.
    + by exists j, x.
  - destruct (stage p); try done. intros [= <-] Hh. by left.
Qed.

Definition scheduled (s : Stage) : bool := match s with Scheduled _ => true | _ => false end.

Lemma stage_cancel p : stage (cancel p) = stage p.
Proof. unfold cancel. by destruct (_ || _). Qed.

Lemma stage_quiesce p : stage (quiesce_ p) = stage p.
Proof. unfold quiesce_. by destruct (_ || _). Qed.

(** what a process is stopped by: a stop that answers the halt it is quiet for, or the one it wrote *)
Lemma stops_reason o w i j a p p' x :
  admits w p a = true -> act o a p = Some p' -> Stopped j x ∈ stops i p p' a ->
  (exists s, s ∈ records w /\ type_ s = Some (VString "stop") /\ signal s = Some (VString x)) \/ (exists h, writes p h /\ p_id h = x).
Proof.
  intros Hadm Ha Hin. unfold stops in Hin.
  assert (scheduled (stage p) = false /\ scheduled (stage p') = true /\ reason p a = Some x) as (Hs & Hs' & Hr).
  { destruct (stage p), (stage p'); try (by apply elem_of_nil in Hin); destruct (reason p a) as [y|]; try (by apply elem_of_nil in Hin);
      apply list_elem_of_singleton in Hin as [= _ ->]; done. }
  clear Hin. destruct a as [|now s|k|k n answer|k the_map| |]; cbn [act reason task_of] in *.
  - destruct (connected p); [done|]. destruct (stage p); try done; injection Ha as <-; done.
  - destruct (hears p) as [k|]; [cbn in *|done]. destruct (ears p !! k) as [e|]; [cbn in *|done]. injection Ha as <-. left. exists s.
    apply bool_decide_eq_true in Hadm. split; [done|]. revert Hs'. unfold signalled. case_bool_decide.
    + unfold begin_. destruct (pending e), (id s) as [[]|]; cbn; try congruence.
      destruct (bound (seconds s) _ _); [|cbn; congruence]. destruct (bound (quiescence_ s) _ _); [|cbn; congruence].
      destruct (bound (grace s) _ _); [|cbn; congruence].
      unfold quiesce. rewrite stage_quiesce. cbn. congruence.
    + case_bool_decide; [|cbn; congruence]. unfold obey. destruct (pending e) as [h|]; [|congruence]. case_bool_decide; [|congruence].
      injection Hr as <-. done.
  - done.
  - unfold settle in Ha. destruct (ears p !! k) as [e|] eqn:He; [cbn in *|done]. destruct (tasks e !! n) as [t|] eqn:Ht; [cbn in *|done].
    destruct t as [q|h|h]; try done. injection Hr as <-. right. exists h. split; [|done]. exists k, e. split; [done|]. by eapply list_elem_of_lookup_2.
  - done.
  - done.
  - done.
Qed.

(** *** What a stop rests on *)

(** a stop of a halt rests on one that was posted, or on a map that some process read, of which no edge was newer
    than that halt *)
Definition rests (l : list Event) (x : string) : Prop :=
  (exists s, Posted s ∈ l /\ type_ s = Some (VString "stop") /\ signal s = Some (VString x)) \/
  (exists i h map s, Read_ i h map ∈ l /\ still map h = true /\ p_id h = x /\
    Posted s ∈ l /\ type_ s = Some (VString "halt") /\ id s = Some (VString x) /\ CREATED s = Some (p_since h)).

Record grounded (w : World) : Prop := {
  g_records s : s ∈ records w -> Posted s ∈ log w /\ posted s = true \/ exists i h n c, s = stop_of h n c /\ Stored i h ∈ log w;
  g_holds p h : p ∈ processes w -> holds p h ->
    exists s, Posted s ∈ log w /\ type_ s = Some (VString "halt") /\ id s = Some (VString (p_id h)) /\ CREATED s = Some (p_since h);
  g_writes p h : p ∈ processes w -> writes p h -> rests (log w) (p_id h);
  g_asked i h : (i, h) ∈ asked w -> rests (log w) (p_id h);
  g_stored i h : Stored i h ∈ log w -> rests (log w) (p_id h);
  g_stopped l1 l2 i x : log w = l1 ++ Stopped i x :: l2 -> rests l2 x
}.

Lemma rests_weaken l l' x : rests l x -> (forall e, e ∈ l -> e ∈ l') -> rests l' x.
Proof. intros [(s & H)|(i & h & m & s & H)] Hl; [left; exists s | right; exists i, h, m, s]; naive_solver. Qed.

Lemma stopped_cons e l l1 l2 i x :
  e :: l = l1 ++ Stopped i x :: l2 -> (e = Stopped i x /\ l = l2 /\ l1 = []) \/ exists l1', l1 = e :: l1' /\ l = l1' ++ Stopped i x :: l2.
Proof. destruct l1 as [|e' l1]; cbn; intros [= -> ->]; [by left | right; by eexists]. Qed.

(** an event that is no stop of a process changes nothing of the rest *)
Lemma stopped_app es l l1 l2 i x :
  (forall e, e ∈ es -> forall i x, e <> Stopped i x) -> es ++ l = l1 ++ Stopped i x :: l2 -> exists l1', l = l1' ++ Stopped i x :: l2.
Proof.
  revert l1. induction es as [|e es IH]; intros l1 He Hl; [by exists l1|]. cbn in Hl.
  apply stopped_cons in Hl as [(-> & _)|(l1' & -> & Hl)]; [by destruct (He (Stopped i x) ltac:(by left) i x)|].
  eapply IH; [|exact Hl]. intros e' He'. apply He. by right.
Qed.

Lemma reads_still i w p a e h : task_of p a = Some (e, Reading h, true) -> admits w p a = true ->
  reads i w p a = [Read_ i h (map_ w)] /\ still (map_ w) h = true /\ holds p h.
Proof.
  intros Ht Hadm. unfold reads. rewrite Ht. split; [done|]. destruct a as [| | |k n answer| | |]; try done.
  unfold admits in Hadm. rewrite Ht in Hadm. split; [done|]. cbn in Ht. destruct (ears p !! k) as [e'|] eqn:He; [cbn in Ht|done].
  destruct (tasks e' !! n) as [t|] eqn:Hn; [cbn in Ht|done]. injection Ht as -> -> ->. exists k, e. split; [done|]. right. left.
  by eapply list_elem_of_lookup_2.
Qed.

Lemma reading_rests i w p a e h :
  grounded w -> p ∈ processes w -> task_of p a = Some (e, Reading h, true) -> admits w p a = true -> rests (reads i w p a ++ log w) (p_id h).
Proof.
  intros Hg Hp Ht Hadm. destruct (reads_still i w p a e h Ht Hadm) as (-> & Hst & Hh).
  destruct (g_holds _ Hg p h Hp Hh) as (s & Hs & H1 & H2 & H3). right. exists i, h, (map_ w), s. split_and!; try done; set_solver.
Qed.

Lemma asks_reading i p a j h : (j, h) ∈ asks i p a -> exists e, task_of p a = Some (e, Reading h, true).
Proof.
  unfold asks. destruct (task_of p a) as [[[e []] []]|]; try (by intros H%elem_of_nil). destruct (_ && _); [|by intros H%elem_of_nil].
  intros [= _ ->]%list_elem_of_singleton. by exists e.
Qed.

Lemma step_events i w p p' a e : e ∈ stops i p p' a ++ reads i w p a ->
  (forall s, e <> Posted s) /\ (forall j h, e <> Stored j h).
Proof.
  unfold stops, reads. intros [He|He]%elem_of_app.
  - destruct (stage p), (stage p'); try (by apply elem_of_nil in He); destruct (reason p a); try (by apply elem_of_nil in He);
      apply list_elem_of_singleton in He as ->; done.
  - destruct (task_of p a) as [[[x []] []]|]; try (by apply elem_of_nil in He). apply list_elem_of_singleton in He as ->. done.
Qed.

Lemma step_grounded o i a w p p' :
  grounded w -> processes w !! i = Some p -> admits w p a = true -> act o a p = Some p' ->
  grounded (mkWorld (<[i := p']> (processes w)) (records w) (map_ w) (asked w ++ asks i p a) (stops i p p' a ++ reads i w p a ++ log w)).
Proof.
  intros Hg Hp Hadm Ha. apply list_elem_of_lookup_2 in Hp as Hin.
  set (l := reads i w p a ++ log w). set (l' := stops i p p' a ++ l).
  assert (forall e, e ∈ log w -> e ∈ l') as Hlog by (unfold l', l; set_solver).
  assert (forall e, e ∈ l -> e ∈ l') as Hl by (unfold l'; set_solver).
  assert (forall q, q ∈ <[i := p']> (processes w) -> q = p' \/ q ∈ processes w) as Hq.
  { intros q [j Hj]%list_elem_of_lookup_1. apply list_lookup_insert_Some in Hj as [(_ & <- & _)|[_ Hj]]; [by left|right; by eapply list_elem_of_lookup_2]. }
  split; cbn [processes records asked log].
  - intros s Hs. destruct (g_records _ Hg s Hs) as [[H1 H2]|(j & h & n & c & -> & H)]; [left; auto|right; by exists j, h, n, c; auto].
  - intros q h [->|Hqw]%Hq Hh.
    2: { destruct (g_holds _ Hg q h Hqw Hh) as (s & Hs & H). exists s. auto. }
    destruct (act_holds o a p p' h Ha Hh) as [Hh'|(now & s & -> & (Ht & Hid & Hc) & _)].
    + destruct (g_holds _ Hg p h Hin Hh') as (s & Hs & H). exists s. auto.
    + apply bool_decide_eq_true in Hadm. destruct (g_records _ Hg s Hadm) as [[H1 H2]|(j & h' & n & c & -> & _)]; [|done].
      exists s. split_and!; [auto|done|done|]. unfold posted in H2. destruct (id s) as [[]|], (CREATED s) as [[]|] eqn:Hcr; try done.
      by rewrite (Hc n eq_refl).
  - intros q h [->|Hqw]%Hq Hh; [|eapply rests_weaken; [by eapply (g_writes _ Hg)|done]].
    destruct (act_writes o a p p' h Ha Hh) as [Hh'|(e & Ht)]; [eapply rests_weaken; [by eapply (g_writes _ Hg)|done]|].
    eapply rests_weaken; [by eapply reading_rests|done].
  - intros j h [Hj|[e Ht]%asks_reading]%elem_of_app; [eapply rests_weaken; [by eapply (g_asked _ Hg)|done]|].
    eapply rests_weaken; [by eapply reading_rests|done].
  - intros j h Hj. assert (Stored j h ∈ log w) as Hs.
    { unfold l', l in Hj. rewrite app_assoc in Hj. apply elem_of_app in Hj as [Hj|Hj]; [|done]. apply step_events in Hj as [_ Hj]. by destruct (Hj j h). }
    eapply rests_weaken; [by eapply (g_stored _ Hg)|done].
  - intros l1 l2 j x Heq. unfold l' in Heq.
    assert (forall l1 l2 j x, l = l1 ++ Stopped j x :: l2 -> rests l2 x) as Hold.
    { intros k1 k2 j' x' Hk. apply stopped_app in Hk as [k Hk]; [by eapply (g_stopped _ Hg)|]. unfold reads.
      intros e He. destruct (task_of p a) as [[[y []] []]|]; try (by apply elem_of_nil in He). by apply list_elem_of_singleton in He as ->. }
    destruct (stops i p p' a) as [|e es] eqn:Hst; [by eapply Hold|].
    assert (es = []) as -> by (unfold stops in Hst; destruct (stage p), (stage p'); try done; destruct (reason p a); congruence).
    cbn in Heq. apply stopped_cons in Heq as [(-> & <- & _)|(k & -> & Hk)]; [|by eapply Hold].
    destruct (stops_reason o w i j a p p' x Hadm Ha) as [(s & Hs & Ht & Hsig)|(h & Hw & <-)]; [rewrite Hst; by left| |].
    + destruct (g_records _ Hg s Hs) as [[H1 _]|(j' & h & n & c & -> & H)]; [left; exists s; split; [unfold l; set_solver|done]|].
      cbn in Hsig. injection Hsig as <-. eapply rests_weaken; [by eapply (g_stored _ Hg)|unfold l; set_solver].
    + eapply rests_weaken; [by eapply (g_writes _ Hg)|unfold l; set_solver].
Qed.

Lemma reachable_grounded o w : reachable o w -> grounded w.
Proof.
  induction 1 as [n m|x w w' _ Hg Hx].
  - assert (forall k e h, ears booting !! k = Some e -> ~ (pending e = Some h \/ Reading h ∈ tasks e \/ Writing h ∈ tasks e)) as Hb.
    { intros k e h [_ <-]%list_lookup_singleton_Some. cbn. set_solver. }
    split; cbn.
    + by intros s Hs%elem_of_nil.
    + intros p h [-> _]%elem_of_replicate (k & e & He & Hh). by destruct (Hb k e h He).
    + intros p h [-> _]%elem_of_replicate (k & e & He & Hh). destruct (Hb k e h He). by right; right.
    + by intros i h Hi%elem_of_nil.
    + by intros i h Hi%elem_of_nil.
    + by intros [] l2 i x.
  - assert (forall e es, (forall i x, e <> Stopped i x) -> (forall l1 l2 i x, es = l1 ++ Stopped i x :: l2 -> rests l2 x) ->
      forall l1 l2 i x, e :: es = l1 ++ Stopped i x :: l2 -> rests l2 x) as Hcons.
    { intros e es He Hes l1 l2 i y [(-> & _)|(l1' & -> & Heq)]%stopped_cons; [by destruct (He i y)|by eapply Hes]. }
    destruct x as [s|u|j i c|j|i a]; cbn in Hx.
    + destruct (posted s) eqn:Hpo; [|done]. injection Hx as <-. destruct Hg as [G1 G2 G3 G4 G5 G6]. split; cbn [processes records asked log].
      * intros r [Hr| ->%list_elem_of_singleton]%elem_of_app; [|left; split; [by left|done]].
        destruct (G1 r Hr) as [[? ?]|(i & h & n & c & -> & ?)]; [left; split; [by right|done]|right; exists i, h, n, c; split; [done|by right]].
      * intros p h Hp Hh. destruct (G2 p h Hp Hh) as (r & Hr & H). exists r. split; [by right|done].
      * intros p h Hp Hh. eapply rests_weaken; [by eapply G3|]. intros e He. by right.
      * intros i h Hi. eapply rests_weaken; [by eapply G4|]. intros e He. by right.
      * intros i h [H|Hi]%elem_of_cons; [done|]. eapply rests_weaken; [by eapply G5|]. intros e He. by right.
      * by apply Hcons.
    + injection Hx as <-. by destruct Hg.
    + destruct (asked w !! j) as [[n h]|] eqn:Hj; [cbn in Hx|done]. injection Hx as <-. apply list_elem_of_lookup_2 in Hj.
      destruct Hg as [G1 G2 G3 G4 G5 G6]. split; cbn [processes records asked log].
      * intros r [Hr| ->%list_elem_of_singleton]%elem_of_app; [|right; exists n, h, i, c; split; [done|by left]].
        destruct (G1 r Hr) as [[? ?]|(i' & h' & n' & c' & -> & ?)]; [left; split; [by right|done]|right; exists i', h', n', c'; split; [done|by right]].
      * intros p h' Hp Hh. destruct (G2 p h' Hp Hh) as (r & Hr & H). exists r. split; [by right|done].
      * intros p h' Hp Hh. eapply rests_weaken; [by eapply G3|]. intros e He. by right.
      * intros i' h' Hi. eapply rests_weaken; [eapply G4; by eapply list_elem_of_delete_inv|]. intros e He. by right.
      * intros i' h' [[= -> ->]|Hi]%elem_of_cons; [eapply rests_weaken; [by eapply G4|]; intros e He; by right|].
        eapply rests_weaken; [by eapply G5|]. intros e He. by right.
      * by apply Hcons.
    + injection Hx as <-. destruct Hg as [G1 G2 G3 G4 G5 G6]. split; try done. intros i h Hi. eapply G4. by eapply list_elem_of_delete_inv.
    + destruct (processes w !! i) as [p|] eqn:Hp; [cbn in Hx|done]. destruct (admits w p a) eqn:Hadm; [|done].
      destruct (act o a p) as [p'|] eqn:Ha; [cbn in Hx|done]. injection Hx as <-. by eapply step_grounded.
Qed.

(** C9: a deployment is not stopped on a guess: a process goes down for a halt only after some process read the
    map of the region and found no edge of it newer than the signal of that halt, as it was posted, or after
    an operator posted the stop; whatever order signals arrive in and however often, and whatever is lost. *)
Theorem stopped_when_still o w l1 l2 i x :
  reachable o w -> log w = l1 ++ Stopped i x :: l2 ->
  (exists s, Posted s ∈ l2 /\ type_ s = Some (VString "stop") /\ signal s = Some (VString x)) \/
  (exists j h map s, Read_ j h map ∈ l2 /\ forallb (fun u => negb (newer (p_since h) u)) map = true /\
    Posted s ∈ l2 /\ type_ s = Some (VString "halt") /\ id s = Some (VString x) /\ CREATED s = Some (p_since h)).
Proof.
  intros [_ _ _ _ _ Hg]%reachable_grounded Hl. destruct (Hg _ _ _ _ Hl) as [H|(j & h & m & s & H1 & H2 & _ & H3)]; [by left|right].
  exists j, h, m, s. done.
Qed.

(** a halt a process is quiet for is within what the deployment allows, whatever the signal asked for: it
    stays down, and waits before it reads the map, within the bounds the annotation states or those of the
    runtime, and for another opinion between two seconds and two minutes. *)
Theorem halts_bounded a o p h :
  options a = Ok o -> reaches o p -> holds p h ->
  fst (duration o) <= p_seconds h <= snd (duration o) /\ fst (quiescence o) <= p_quiescence h <= snd (quiescence o) /\
  fst GRACE <= p_grace h <= snd GRACE.
Proof.
  intros Ho Hp Hh. assert (within o h) as (H1 & H2 & H3).
  { induction Hp as [|x p p' _ IH Hx].
    - destruct Hh as (k & e & [_ <-]%list_lookup_singleton_Some & Hh). cbn in Hh. set_solver.
    - destruct (act_holds o x p p' h Hx Hh) as [Hh'|(now & s & _ & _ & Hw)]; [by apply IH|done]. }
  assert (forall d f n b, bounds d f n = Ok b -> fst f <= snd f -> fst b <= snd b) as Hb.
  { intros [[mn mx]|] f n b; cbn; [|by intros [= <-]]. destruct (Z.leb_spec mx mn); [done|]. intros [= <-] _. cbn. lia. }
  unfold options in Ho. set (g := match a ≫= halt with Some (Bounded h) => h | _ => mkHalt None None end) in Ho.
  destruct (bounds (h_duration g) DURATION "duration") as [d|] eqn:Hd; [cbn in Ho|done].
  destruct (bounds (h_quiescence g) QUIESCENCE "quiescence") as [q|] eqn:Hq; [cbn in Ho|done]. injection Ho as <-.
  apply Hb in Hd; [|done]. apply Hb in Hq; [|done]. cbn in *. auto.
Qed.

(** ** What is not meant *)

(** a deployment whose halts are bounded takes them, and has no component to post one to *)
Theorem bounded_halts_have_no_signals {M} (digest : list string * list M) a h o :
  NoDup (fst digest) -> halt a = Some (Bounded h) -> options (Some a) = Ok o ->
  o_halt o = true /\ SIGNALS_LABEL ∉ fst (components digest (Some (Some a))).
Proof.
  intros Hd Ha Ho. unfold options in Ho. cbn in Ho. rewrite Ha in Ho.
  destruct (bounds (h_duration h) DURATION "duration"); [cbn in Ho|done].
  destruct (bounds (h_quiescence h) QUIESCENCE "quiescence"); [cbn in Ho|done]. injection Ho as <-. split; [done|].
  unfold components. cbn. rewrite Ha. case_bool_decide as Hin; [|done]. cbn.
  apply list_elem_of_split in Hin as (l1 & l2 & Hl). rewrite Hl in *. apply NoDup_app in Hd as (_ & Hn & Hd2).
  assert (SIGNALS_LABEL ∉ l1) as H1 by (intros H1; apply (Hn _ H1); by left). apply NoDup_cons in Hd2 as [H2 _].
  rewrite rank_of_here by done. rewrite take_app_length, drop_app_ge, Nat.sub_succ_l by lia. rewrite Nat.sub_diag. cbn. rewrite drop_0. set_solver.
Qed.

(** ** A deployment of two processes that is halted *)

Module Fleet.
Definition given : Annotation := mkAnnotation None None None (Some (Bounded (mkHalt (Some (60, 120)) None))).

Definition o : Options := mkOptions 300 1024 true true (60, 120) (30, 1800).

Definition night : Signal :=
  mkSignal (Some (VString "halt")) (Some (VString "h1")) (Some (VNumber 5)) (Some (VNumber 60)) None None (Some (VNumber 1000)).

Definition halted : Pending := mkPending 0 "h1" 60 60 10 (VNumber 1000).

Fixpoint follow (l : list Happening) (w : World) : option World :=
  match l with [] => Some w | x :: l => w' ← happen o x w; follow l w' end.

Lemma script_reachable l w w' : reachable o w -> follow l w = Some w' -> reachable o w'.
Proof.
  revert w. induction l as [|x l IH]; intros w Hw; cbn; [by intros [= <-]|].
  destruct (happen o x w) as [u|] eqn:Hu; [cbn|done]. apply IH. by eapply reachable_step.
Qed.

(** both hear the halt; the first finds the map still, and calls the stop, which the second obeys *)
Definition script : list Happening :=
  [Flush 900; Step 0 Boot; Step 1 Boot; Post night; Step 0 (Hear 7 night); Step 1 (Hear 9 night); Step 0 (Reach 0 true); Step 0 (Reach 0 false);
   Step 0 (Settle 0 0 true); Step 0 (Fire 0); Step 0 (Settle 0 0 true); Serve 0 "s1" 1100; Step 1 (Hear 80 (stop_of halted "s1" 1100));
   Step 0 (Settle 0 0 true)].

Definition end_ : World := default (mkWorld [] [] [] [] []) (follow script (mkWorld (replicate 2 booting) [] [] [] [])).

Lemma fleet_ends : reachable o end_ /\ log end_ = [Stopped 0 "h1"; Stopped 1 "h1"; Stored 0 halted; Read_ 0 halted [900]; Posted night].
Proof.
  split; [|by vm_compute]. apply (script_reachable script (mkWorld (replicate 2 booting) [] [] [] [])); [apply (reachable_start o 2 [])|by vm_compute].
Qed.

Lemma fleet_is_still : exists j h map, Read_ j h map ∈ [Stored 0 halted; Read_ 0 halted [900]; Posted night] /\ p_since h = VNumber 1000.
Proof.
  destruct fleet_ends as [Hr Hl].
  destruct (stopped_when_still o end_ [Stopped 0 "h1"] [Stored 0 halted; Read_ 0 halted [900]; Posted night] 1 "h1" Hr Hl)
    as [(s & Hs & Ht & _)|(j & h & m & s & Hj & _ & Hs & _ & _ & Hc)].
  - rewrite !elem_of_cons, elem_of_nil in Hs. destruct Hs as [Hs|[Hs|[Hs|[]]]]; [discriminate|discriminate|]. injection Hs as ->. discriminate.
  - exists j, h, m. split; [exact Hj|]. rewrite !elem_of_cons, elem_of_nil in Hs.
    destruct Hs as [Hs|[Hs|[Hs|[]]]]; [discriminate|discriminate|]. injection Hs as ->. by injection Hc.
Defined.

(** a process that hears the halt and is answered: it is stopped, and comes back *)
Definition heard : Process := default booting (run o [Boot; Hear 7 night; Reach 0 true; Reach 0 false] booting).

Definition stopping : Process := default booting (run o [Settle 0 0 true; Fire 0; Settle 0 0 true; Settle 0 0 true] heard).

Lemma heard_reached : reaches o heard.
Proof. apply (run_reaches o [Boot; Hear 7 night; Reach 0 true; Reach 0 false] booting); [apply reaches_start | by vm_compute]. Qed.

Lemma halt_comes_back :
  exists m p, (m <= 4)%nat /\ run o (replicate m Cycle) stopping = Some p /\ quiesced p = false /\ halting p = false.
Proof.
  destruct (comes_back o heard [Settle 0 0 true; Fire 0; Settle 0 0 true; Settle 0 0 true] stopping heard_reached) as [_ H].
  - by vm_compute.
  - by repeat constructor.
  - apply H; [|reflexivity..]. intros [| |k|k i answer|k the_map| |]; try done; intros _; destruct k as [|k]; done.
Defined.

Lemma halt_is_bounded : 60 <= p_seconds halted <= 120.
Proof.
  apply (halts_bounded (Some given) o heard halted); [reflexivity|exact heard_reached|].
  exists 0%nat. eexists. split; [reflexivity|]. left. reflexivity.
Defined.
End Fleet.
