(* ===== verification/Procedures.v ===== *)
(** * Procedures

    [extensions/exposition/source/RPC/] and [MCP/tools.ts], [MCP/schema.ts], [MCP/errors.ts]: the routes of
    a tree as procedures a caller names, the request a call makes of one, the calls of an envelope, and the
    procedures that are published to a model as tools. *)
From stdpp Require Import strings sorting.
From S2P Require Import Prelude Routing.

Open Scope Z_scope.

(** ** What a call is refused with ([HTTP/exceptions.ts]) *)

(** an exception of a status, or a failure of this server *)
Inductive thrown := Refused (status : Z) (body : option value) | Failed (message : string).

Definition BadRequest_ (body : value) : thrown := Refused 400 (Some body).
Definition BadRequest (message : string) : thrown := BadRequest_ (VString message).
Definition NotFound (message : string) : thrown := Refused 404 (Some (VString message)).
Definition MethodNotAllowed : thrown := Refused 405 None.

(** [ClientError] *)
Definition client_error (e : thrown) : bool :=
  match e with Refused status _ => (400 <=? status) && (status <? 500) | Failed _ => false end.

(** ** Names ([RPC/names.ts]) *)

Definition SEPARATOR : string := ".".
Definition VARIABLE : string := "_".
Definition TAIL : string := "__".
Definition WILDCARD : string := "**".
Definition QUERY : string := "query".

Definition verbs : list string := ["GET"; "HEAD"; "POST"; "PUT"; "PATCH"; "DELETE"; "LOCK"; "UNLOCK"].

Definition between (a b c : ascii) : bool := (nat_of_ascii a <=? nat_of_ascii c)%nat && (nat_of_ascii c <=? nat_of_ascii b)%nat.

Definition letter (c : ascii) : bool := between "A" "Z" c || between "a" "z" c || between "0" "9" c || Ascii.eqb c "-".

(** [NAMEABLE], [OPAQUE] and [TAILED] *)
Definition nameable (s : string) : bool := negb (bool_decide (s = "")) && forallb letter (chars s).

Definition opaque (s : string) : bool := forallb (fun c => negb (bool_decide (c ∈ ["/"%char; "?"%char; "#"%char]))) (chars s).

Definition tailed (s : string) : bool := forallb (fun c => negb (bool_decide (c ∈ ["?"%char; "#"%char]))) (chars s).

Notation Params := (list (string * value)) (only parsing).

Record Address := mkAddress { path : string; verb : string; variables_ : list string }.

(** the parameter a part reads, or nothing where the part is a literal segment *)
Definition parameter_ (part : string) : option string :=
  if bool_decide (part = TAIL) then Some WILDCARD
  else match part with String "_" key => Some key | _ => None end.

Definition no_method (method : string) : thrown := NotFound (quoted method +:+ " names no method").
Definition no_procedure (method : string) : thrown := NotFound (quoted method +:+ " names no procedure").

Definition literal_ (part method : string) : result thrown string :=
  if nameable part then Ok part else Throw (no_procedure method).

Section names.
(** [String(value)] *)
Context (as_text : value -> string).

(** one part: the segment of the path it is, and the variable it took *)
Definition part_ (method : string) (params : Params) (part : string) : result thrown (string * list string) :=
  match parameter_ part with
  | None => s ← literal_ part method; Ok (s, [])
  | Some key =>
      if negb (bool_decide (part = TAIL)) && negb (nameable key) then Throw (no_procedure method)
      else
        match own params key with
        | None | Some VUndefined | Some VNull => Throw (BadRequest (quoted method +:+ " requires the parameter " +:+ quoted key))
        | Some v =>
            if (if bool_decide (part = TAIL) then tailed else opaque) (as_text v) then Ok (as_text v, [key])
            else Throw (BadRequest ("The parameter " +:+ quoted key +:+ " cannot be a path of its own"))
        end
  end.

Fixpoint parts_ (method : string) (params : Params) (parts : list string) : result thrown (list string * list string) :=
  match parts with
  | [] => Ok ([], [])
  | p :: parts =>
      '(f, vs) ← part_ method params p;
      '(fs, ws) ← parts_ method params parts;
      Ok (f :: fs, vs ++ ws)
  end.

Definition path_of (fragments : list string) : string :=
  if bool_decide (fragments = []) then "/" else "/" +:+ join "/" fragments +:+ "/".

Definition address (method : string) (params : Params) : result thrown Address :=
  let parts := split "."%char method in
  let verb := default "" (last parts) in
  if negb (bool_decide (verb ∈ verbs)) then Throw (no_method method)
  else
    '(fragments, variables) ← parts_ method params (removelast parts);
    Ok (mkAddress (path_of fragments) verb variables).

(** [split]: what the path took of the parameters, the query, and the rest, which is the input *)
Definition split_ (params : Params) (variables : list string) : result thrown (option Params * option value) :=
  let rest := filter (fun p => fst p ∉ variables) params in
  let input := filter (fun p => fst p <> QUERY) rest in
  let input := if bool_decide (input = []) then None else Some (VObject input) in
  match own rest QUERY with
  | None => Ok (None, input)
  | Some (VObject query) => Ok (Some query, input)
  | Some _ => Throw (BadRequest (quoted QUERY +:+ " must be an object"))
  end.

Definition component (s : segment) : option string :=
  match fragment s with
  | Some f => if nameable f then Some f else None
  | None =>
      if wildcard s then Some TAIL
      else match placeholder s with
           | None => None
           | Some p => if nameable p then Some (VARIABLE +:+ p) else None
           end
  end.

Definition name (segs : list segment) (verb : string) : option string :=
  parts ← mapM component segs;
  Some (join SEPARATOR (parts ++ [verb])).

Definition refusal (segs : list segment) : option string :=
  piece <$> find (fun s => bool_decide (component s = None)) segs.

(** ** The request a call makes ([RPC/Context.ts]) *)

(** [new URL(path, base)] of a path that is absolute: separators and what they divide are read as the parser of
    the platform reads them, and where what follows the first is another, it is of another host *)
Definition ignored (c : ascii) : bool := bool_decide (nat_of_ascii c ∈ [9; 10; 13]%nat).

Definition slash (c : ascii) : ascii := if Ascii.eqb c "\" then "/"%char else c.

Definition lower_ (c : ascii) : ascii := if between "A" "Z" c then ascii_of_nat (nat_of_ascii c + 32) else c.

Definition single_dot (s : string) : bool := bool_decide (of_chars (lower_ <$> chars s) ∈ ["."; "%2e"]).

Definition double_dot (s : string) : bool := bool_decide (of_chars (lower_ <$> chars s) ∈ [".."; ".%2e"; "%2e."; "%2e%2e"]).

Definition hex (n : nat) : ascii := default "0"%char (chars "0123456789ABCDEF" !! n).

Definition encoded (c : ascii) : list ascii :=
  let n := nat_of_ascii c in
  if ((n <=? 32) || (127 <=? n))%nat || bool_decide (c ∈ chars "<>`{}^") || (n =? 34)%nat
  then ["%"%char; hex (n / 16); hex (n mod 16)] else [c].

Definition encode (s : string) : string := of_chars (c ← chars s; encoded c).

(** the segments so far, the last one first *)
Fixpoint resolve (acc : list string) (segs : list string) : list string :=
  match segs with
  | [] => reverse acc
  | [s] => reverse (if double_dot s then "" :: tail acc else if single_dot s then "" :: acc else encode s :: acc)
  | s :: segs => resolve (if double_dot s then tail acc else if single_dot s then acc else encode s :: acc) segs
  end.

(** [url.pathname], or none where the address is of another host *)
Definition pathname (path : string) : option string :=
  let cs := slash <$> filter (fun c => ignored c = false) (chars path) in
  match cs with
  | "/"%char :: "/"%char :: _ => None
  | "/"%char :: cs => Some ("/" +:+ join "/" (resolve [] (split "/"%char (of_chars cs))))
  | _ => None
  end.

(** the clone of the request: its path, or none of another host, and its querystring, the verb, the headers but those that are
    conditions of the envelope, and the input *)
Record Forked := mkForked {
  f_path : option string;
  f_verb : string;
  f_search : list (string * string);
  f_headers : list (string * string);
  f_input : option value
}.

Definition fork (headers : list (string * string)) (path verb : string) (query : option Params) (input : option value) : Forked :=
  mkForked (pathname path) verb ((fun '(k, v) => (k, as_text v)) <$> default [] query)
    (filter (fun p => fst p ∉ ["if-match"; "if-none-match"]) headers) input.
End names.

(** ** What an exception says ([RPC/errors.ts]) *)

Definition VERSION : string := "2.0".

Definition PARSE : Z := -32700.
Definition INVALID_REQUEST : Z := -32600.
Definition METHOD_NOT_FOUND : Z := -32601.
Definition INVALID_PARAMS : Z := -32602.
Definition INTERNAL : Z := -32603.
Definition FORBIDDEN : Z := -32000.
Definition REFUSED : Z := -32001.
Definition BATCH_TOO_LARGE : Z := -32002.

Definition failure (code : Z) (message : string) (data : option value) : value :=
  VObject ([("code", VNumber code); ("message", VString message)] ++ match data with Some d => [("data", d)] | None => [] end).

Definition response (id error : value) : value :=
  VObject [("jsonrpc", VString VERSION); ("id", id); ("error", error)].

(** [text]: the words of a refusal, where it has any *)
Definition words (body : option value) (fallback : string) : string :=
  match body with Some (VString s) => if bool_decide (s = "") then fallback else s | _ => fallback end.

Definition code_of (body : option value) : option string :=
  match body with
  | Some (VObject fields) => match own fields "code" with Some (VString code) => Some code | _ => None end
  | _ => None
  end.

Definition refusal_ (body : option value) : value :=
  match code_of body with
  | None => failure REFUSED (words body "Refused") None
  | Some code => failure REFUSED code (Some (VObject [("code", VString code)]))
  end.

Definition of_ (e : thrown) : value :=
  match e with
  | Refused status body =>
      if status =? 422 then refusal_ body
      else if (status =? 404) || (status =? 405) then failure METHOD_NOT_FOUND (words body "Method not found") None
      else if status =? 403 then failure FORBIDDEN (words body "Forbidden") None
      else if status =? 400 then failure INVALID_PARAMS (words body "Invalid params") None
      else if client_error e then failure REFUSED (words body "Refused") (Some (VObject [("status", VNumber status)]))
      else failure INTERNAL "Internal error" None
  | Failed _ => failure INTERNAL "Internal error" None
  end.

(** ** The calls a request carries ([RPC/Dispatcher.ts]) *)

Record Call := mkCall { method : string; params : option Params; id : option value }.

(** [schemas.call], which is [extensions.exposition/call.cos.yaml] *)
Definition call_of (v : value) : option Call :=
  match v with
  | VObject fields =>
      match own fields "jsonrpc", own fields "method" with
      | Some (VString version), Some (VString m) =>
          if bool_decide (version = VERSION) && negb (bool_decide (m = "")) &&
             forallb (fun '(k, _) => bool_decide (k ∈ ["jsonrpc"; "method"; "params"; "id"])) fields
          then
            match own fields "params", own fields "id" with
            | None, None => Some (mkCall m None None)
            | Some (VObject ps), None => Some (mkCall m (Some ps) None)
            | None, Some ((VString _ | VNumber _ | VDecimal _ _) as i) => Some (mkCall m None (Some i))
            | Some (VObject ps), Some ((VString _ | VNumber _ | VDecimal _ _) as i) => Some (mkCall m (Some ps) (Some i))
            | _, _ => None
            end
          else None
      | _, _ => None
      end
  | _ => None
  end.

Definition unauthorized (e : thrown) : bool := match e with Refused status _ => status =? 401 | Failed _ => false end.

Definition BATCH : nat := 32.
Definition OK : Z := 200.
Definition NO_CONTENT : Z := 204.

(** what is answered: every reply with a body is [cache-control: no-store] *)
Record Reply := mkReply { status : Z; body : option value }.

(** [Dispatcher], of a request: [complaint] is what a validator says of a value it refuses, and [serve] is
    [route] and the restriction of its reply, over a state of whatever the routes change *)
Section dispatcher.
Context {W : Type} (as_text : value -> string) (complaint : value -> string).
Context (serve : Forked -> W -> result thrown (option value) * W) (headers : list (string * string)).

(** the request that a name and its parameters are, or what refuses them *)
Definition asked (named : string) (params : Params) : result thrown Forked :=
  a ← address as_text named params;
  '(query, input) ← split_ params (variables_ a);
  Ok (fork as_text headers (path a) (verb a) query input).

Definition call (c : Call) (w : W) : result thrown (option value) * W :=
  let '(outcome, w) :=
    match asked (method c) (default [] (params c)) with
    | Throw e => (Throw e, w)
    | Ok clone => serve clone w
    end in
  match outcome, id c with
  | Ok _, None => (Ok None, w)
  | Ok body, Some i => (Ok (Some (VObject [("jsonrpc", VString VERSION); ("id", i); ("result", default VNull body)])), w)
  | Throw e, i =>
      if unauthorized e then (Throw e, w)
      else (Ok ((fun i => response i (of_ e)) <$> i), w)
  end.

Definition answer (input : value) (w : W) : result thrown (option value) * W :=
  match call_of input with
  | None => (Ok (Some (response VNull (failure INVALID_REQUEST (complaint input) None))), w)
  | Some c => call c w
  end.

Fixpoint answers (calls : list value) (w : W) : result thrown (list value) * W :=
  match calls with
  | [] => (Ok [], w)
  | c :: calls =>
      match answer c w with
      | (Throw e, w) => (Throw e, w)
      | (Ok a, w) =>
          let '(rest, w) := answers calls w in
          (rest ≫= fun rest => Ok (match a with Some a => a :: rest | None => rest end), w)
      end
  end.

Definition read (body : result thrown value) : result thrown value :=
  match body with
  | Throw (Refused 400 _) => Throw (BadRequest_ (response VNull (failure PARSE "Parse error" None)))
  | _ => body
  end.

Definition calls_of (envelope : value) : list value :=
  match envelope with VArray calls => calls | call => [call] end.

Definition refuse (code : Z) (message : string) : thrown := BadRequest_ (response VNull (failure code message None)).

Definition dispatch (batch : option nat) (verb : string) (body : result thrown value) (w : W) : result thrown Reply * W :=
  if negb (bool_decide (verb = "POST")) then (Throw MethodNotAllowed, w)
  else
    let batch := default BATCH batch in
    match read body with
    | Throw e => (Throw e, w)
    | Ok envelope =>
        let calls := calls_of envelope in
        if (length calls =? 0)%nat then (Throw (refuse INVALID_REQUEST "A request carries at least one call"), w)
        else if (batch <? length calls)%nat then
          (Throw (refuse BATCH_TOO_LARGE ("A request carries at most " +:+ pretty batch +:+ " calls")), w)
        else
          let '(outcome, w) := answers calls w in
          (answers ← outcome;
           Ok (match answers with
               | [] => mkReply NO_CONTENT None
               | one :: _ => mkReply OK (Some (match envelope with VArray _ => VArray answers | _ => one end))
               end), w)
    end.
End dispatcher.

(** ** Names and the routes they are of *)

Section naming.
Context (as_text : value -> string).

(** what a segment reads of the parameters *)
Definition key_of (s : segment) : option string :=
  match fragment s with
  | Some _ => None
  | None => if wildcard s then Some WILDCARD else placeholder s
  end.

(** a value that is one segment of a path, as it is written *)
Definition plain (s : string) : bool :=
  negb (bool_decide (s = "")) && negb (single_dot s) && negb (double_dot s) &&
  forallb (fun c => bool_decide (encoded c = [c]) && negb (bool_decide (c ∈ chars "/?#\%"))) (chars s).

(** the parameters state a plain value for what the segment reads *)
Definition stated (params : Params) (s : segment) : Prop :=
  forall key, key_of s = Some key ->
    exists v, own params key = Some v /\ v <> VUndefined /\ v <> VNull /\ plain (as_text v) = true.

(** what the segment is in the path of a call *)
Definition filled (params : Params) (s : segment) : string :=
  match key_of s with
  | None => default "" (fragment s)
  | Some key => match own params key with Some v => as_text v | None => "" end
  end.

Lemma letter_plain c : letter c = true ->
  encoded c = [c] /\ c ∉ chars "/?#\%" /\ c <> "."%char /\ c <> "_"%char /\ c <> "%"%char.
Proof.
  intros Hl. apply (bool_decide_eq_true_1 (encoded c = [c] /\ c ∉ chars "/?#\%" /\ c <> "."%char /\ c <> "_"%char /\ c <> "%"%char)).
  revert Hl. by destruct c as [[] [] [] [] [] [] [] []]; vm_compute.
Qed.

Lemma nameable_letters s : nameable s = true -> s <> "" /\ Forall (fun c => letter c = true) (chars s).
Proof.
  unfold nameable. intros [Hs Hl]%andb_true_iff. split; [by apply negb_true_iff, bool_decide_eq_false in Hs|].
  apply Forall_forall. intros c Hc. eapply forallb_forall in Hl; [done|]. by apply list_elem_of_In.
Qed.

Lemma nameable_no_dot s : nameable s = true -> "."%char ∉ chars s.
Proof.
  intros [_ Hl]%nameable_letters Hc. rewrite Forall_forall in Hl. apply Hl in Hc. by vm_compute in Hc.
Qed.

Lemma lower_dot c : lower_ c = "."%char -> c = "."%char.
Proof. destruct c as [[] [] [] [] [] [] [] []]; vm_compute; congruence. Qed.

Lemma lower_percent c : lower_ c = "%"%char -> c = "%"%char.
Proof. destruct c as [[] [] [] [] [] [] [] []]; vm_compute; congruence. Qed.

Lemma nameable_plain s : nameable s = true -> plain s = true.
Proof.
  intros [Hne Hl]%nameable_letters. unfold plain. rewrite (bool_decide_eq_false_2 (s = "")) by done. cbn [negb andb].
  assert (forall d, d ∈ ["."; "%"]%char -> d ∉ (lower_ <$> chars s)) as Hno.
  { intros d Hd (c & -> & Hc)%list_elem_of_fmap. rewrite Forall_forall in Hl. apply Hl, letter_plain in Hc as (_ & _ & Hdot & _ & Hp).
    apply elem_of_cons in Hd as [Hd | Hd].
    - by apply lower_dot in Hd.
    - apply list_elem_of_singleton in Hd. by apply lower_percent in Hd. }
  assert (forall l : list string, Forall (fun t => exists d, d ∈ ["."; "%"]%char /\ d ∈ chars t) l ->
    bool_decide (of_chars (lower_ <$> chars s) ∈ l) = false) as Hin.
  { intros l Hall. apply bool_decide_eq_false_2. intros Hs. rewrite Forall_forall in Hall.
    destruct (Hall _ Hs) as (d & Hd & Hc). rewrite chars_of_chars in Hc. by apply (Hno d). }
  unfold single_dot, double_dot. rewrite !Hin; cbn [negb andb].
  - apply forallb_forall. intros c Hc%list_elem_of_In. rewrite Forall_forall in Hl. apply Hl, letter_plain in Hc as (He & Hc & _).
    by rewrite (bool_decide_eq_true_2 _ He), (bool_decide_eq_false_2 _ Hc).
  - repeat constructor; first [by exists "."%char; split; apply (bool_decide_eq_true_1 _) | by exists "%"%char; split; apply (bool_decide_eq_true_1 _)].
  - repeat constructor; first [by exists "."%char; split; apply (bool_decide_eq_true_1 _) | by exists "%"%char; split; apply (bool_decide_eq_true_1 _)].
Qed.

Lemma plain_chars s : plain s = true ->
  s <> "" /\ single_dot s = false /\ double_dot s = false /\
  Forall (fun c => encoded c = [c] /\ c ∉ chars "/?#\%") (chars s).
Proof.
  unfold plain. intros [[[Hne H1]%andb_true_iff H2]%andb_true_iff Hl]%andb_true_iff.
  apply negb_true_iff in Hne, H1, H2. apply bool_decide_eq_false in Hne. split_and!; [done..|].
  apply Forall_forall. intros c Hc%list_elem_of_In. eapply forallb_forall in Hl; [|done].
  apply andb_true_iff in Hl as [He Hn]. apply bool_decide_eq_true in He. apply negb_true_iff, bool_decide_eq_false in Hn. done.
Qed.
Lemma encode_plain s : plain s = true -> encode s = s.
Proof.
  intros (_ & _ & _ & Hc)%plain_chars. apply chars_inj. unfold encode. rewrite chars_of_chars.
  induction Hc as [|c cs [He _] Hc IH]; [done|]. cbn [mbind list_bind]. by rewrite He, IH.
Qed.

Lemma resolve_plain acc frs :
  Forall (fun f => plain f = true) frs -> resolve acc (frs ++ [""]) = reverse acc ++ frs ++ [""].
Proof.
  intros Hf. revert acc. induction Hf as [|f frs Hp Hf IH]; intros acc.
  - cbn [resolve app]. change (double_dot "") with false. change (single_dot "") with false. cbn iota.
    change (encode "") with "". by rewrite reverse_cons.
  - cbn [app]. assert (forall k, k <> [] -> resolve acc (f :: k) =
      resolve (if double_dot f then tail acc else if single_dot f then acc else encode f :: acc) k) as Hstep by by intros [].
    rewrite Hstep by (by destruct frs).
    pose proof (plain_chars _ Hp) as (_ & H1 & H2 & _). rewrite H1, H2, IH, encode_plain by done.
    by rewrite reverse_cons, <- app_assoc.
Qed.

(** a segment of characters that a parser of addresses reads as they are *)
Definition sent (f : string) : Prop :=
  f <> "" /\ Forall (fun c => ignored c = false /\ slash c = c /\ c <> "/"%char) (chars f).

Lemma plain_sent f : plain f = true -> sent f.
Proof.
  intros (Hne & _ & _ & Hf)%plain_chars. split; [done|]. eapply Forall_impl; [exact Hf|]. intros c [He Hc]. split_and!.
  - unfold ignored. apply bool_decide_eq_false_2. intros Hin. apply (f_equal length) in He. unfold encoded in He.
    rewrite (proj2 (Nat.leb_le (nat_of_ascii c) 32)) in He; [done|].
    repeat (apply elem_of_cons in Hin as [->|Hin]; [lia|]). by apply elem_of_nil in Hin.
  - unfold slash. destruct (Ascii.eqb c "\") eqn:Hb; [|done]. apply Ascii.eqb_eq in Hb as ->.
    destruct Hc. by apply (bool_decide_eq_true_1 _).
  - intros ->. destruct Hc. by apply (bool_decide_eq_true_1 _).
Qed.

Lemma plain_all_sent frs : Forall (fun f => plain f = true) frs -> Forall sent frs.
Proof. intros Hf. eapply Forall_impl; [exact Hf | apply plain_sent]. Qed.

Lemma join_as_sent frs : Forall sent frs ->
  slash <$> filter (fun c => ignored c = false) (chars (join "/" (frs ++ [""]))) = chars (join "/" (frs ++ [""])).
Proof.
  intros Hf. assert (Forall (fun c => ignored c = false /\ slash c = c) (chars (join "/" (frs ++ [""])))) as Hc.
  { induction Hf as [|f frs [_ Hs] Hf IH]; [constructor|]. cbn [app].
    assert (join "/" (f :: frs ++ [""]) = f +:+ "/" +:+ join "/" (frs ++ [""])) as -> by by destruct frs.
    rewrite !chars_app. apply Forall_app. split; [eapply Forall_impl; [exact Hs | by intros c (? & ? & _)]|]. by constructor. }
  induction Hc as [|c cs [Hi Hs] Hc IH]; [done|]. by rewrite filter_cons_True, fmap_cons, Hs, IH.
Qed.

Lemma path_of_join frs : path_of frs = "/" +:+ join "/" (match frs with [] => [""] | _ => frs ++ [""] end).
Proof.
  unfold path_of. destruct frs as [|f frs]; [done|]. rewrite (bool_decide_eq_false_2 (f :: frs = [])) by done.
  rewrite string_join_app by done. done.
Qed.

Lemma pathname_sent frs : Forall sent frs -> pathname (path_of frs) = Some ("/" +:+ join "/" (resolve [] (frs ++ [""]))).
Proof.
  intros Hf. destruct frs as [|f frs]; [reflexivity|]. rewrite path_of_join. cbv beta iota.
  set (gs := f :: frs) in *. unfold pathname.
  change (chars ("/" +:+ ?x)) with ("/"%char :: chars x).
  rewrite filter_cons_True by done. rewrite fmap_cons, (join_as_sent gs Hf).
  change (slash "/") with "/"%char.
  assert (split "/"%char (join "/" (gs ++ [""])) = gs ++ [""]) as Hs.
  { apply (split_join "/"%char); [by destruct gs|]. apply Forall_app. split; [|by repeat constructor; apply not_elem_of_nil].
    eapply Forall_impl; [exact Hf|]. intros g [_ Hg] Hc. rewrite Forall_forall in Hg. by apply Hg in Hc as (_ & _ & ?). }
  apply Forall_cons in Hf as [[Hn Ha] _]. subst gs. destruct f as [|d f]; [done|].
  apply Forall_cons in Ha as [(_ & _ & Hd) _].
  assert (exists cs, chars (join "/" ((String d f :: frs) ++ [""])) = d :: cs) as [cs Hc].
  { destruct frs; cbn [join app]; rewrite chars_app; by eexists. }
  rewrite Hc, <- Hc, of_chars_chars, Hs. clear -Hd. by destruct d as [[] [] [] [] [] [] [] []].
Qed.

(** a path of plain segments is asked for as it is written *)
Lemma pathname_plain frs : Forall (fun f => plain f = true) frs -> pathname (path_of frs) = Some (path_of frs).
Proof.
  intros Hf. rewrite pathname_sent by by apply plain_all_sent. rewrite resolve_plain, path_of_join by done. by destruct frs.
Qed.

(** *** A name is its parts *)

Lemma component_part s part : component s = Some part ->
  nameable part = true /\ fragment s = Some part /\ parameter_ part = None \/
  exists key, fragment s = None /\ key_of s = Some key /\ parameter_ part = Some key /\
    ((part = TAIL /\ key = WILDCARD) \/ (part = VARIABLE +:+ key /\ part <> TAIL /\ nameable key = true)).
Proof.
  unfold component, key_of. destruct (fragment s) as [f|].
  - destruct (nameable f) eqn:Hf; [|done]. intros [= ->]. left. split_and!; [done..|].
    unfold parameter_. pose proof (nameable_letters _ Hf) as [Hne Hl].
    rewrite bool_decide_eq_false_2 by (by intros ->).
    destruct part as [|c part]; [done|]. apply Forall_cons in Hl as [(_ & _ & _ & Hc & _)%letter_plain _].
    by destruct c as [[] [] [] [] [] [] [] []].
  - destruct (wildcard s).
    + intros [= <-]. right. exists WILDCARD. split_and!; [done..|by left].
    + destruct (placeholder s) as [p|]; [|done]. destruct (nameable p) eqn:Hp; [|done]. intros [= <-].
      right. exists p. assert (VARIABLE +:+ p <> TAIL).
      { intros H. apply (string_app_inj_l "_" p "_") in H. by subst p. }
      split_and!; [done..| |by right]. unfold parameter_. by rewrite bool_decide_eq_false_2.
Qed.

Lemma component_no_dot s part : component s = Some part -> "."%char ∉ chars part.
Proof.
  unfold component. destruct (fragment s) as [f|].
  - destruct (nameable f) eqn:Hf; [|done]. intros [= <-]. by apply nameable_no_dot.
  - destruct (wildcard s); [intros [= <-]; by apply (bool_decide_eq_true_1 _)|].
    destruct (placeholder s) as [p|]; [|done]. destruct (nameable p) eqn:Hp; [|done]. intros [= <-].
    rewrite chars_app, elem_of_app. intros [Hc|Hc]; [|by eapply nameable_no_dot].
    by apply list_elem_of_singleton in Hc.
Qed.

Lemma verbs_no_dot v : v ∈ verbs -> "."%char ∉ chars v.
Proof.
  assert (Forall (fun v => "."%char ∉ chars v) verbs) as H by by apply (bool_decide_eq_true_1 _).
  rewrite Forall_forall in H. auto.
Qed.

Lemma name_parts segs v m : v ∈ verbs -> name segs v = Some m ->
  exists parts, mapM component segs = Some parts /\ split "."%char m = parts ++ [v].
Proof.
  intros Hv Hn. unfold name in Hn. destruct (mapM component segs) as [parts|] eqn:Hm; [|done].
  injection Hn as <-. exists parts. split; [done|].
  change SEPARATOR with (String "." ""). apply split_join; [by destruct parts|].
  apply Forall_app. split; [|constructor; [by apply verbs_no_dot | done]].
  apply mapM_Some in Hm. clear Hv. induction Hm; constructor; [by eapply component_no_dot | done].
Qed.

Lemma part_read m params s part : component s = Some part -> stated params s ->
  part_ as_text m params part = Ok (filled params s, match key_of s with Some k => [k] | None => [] end) /\
  plain (filled params s) = true.
Proof.
  intros Hc Hs. destruct (component_part _ _ Hc) as [(Hn & Hf & Hp) | (key & Hf & Hk & Hp & Hpart)]; unfold part_, filled; rewrite Hp.
  - assert (key_of s = None) as -> by by (unfold key_of; rewrite Hf). unfold literal_. rewrite Hn, Hf.
    split; [done | by apply nameable_plain].
  - rewrite Hk. destruct (Hs key Hk) as (v & -> & Hu & Hnull & Hpl). split; [|done].
    assert (opaque (as_text v) = true /\ tailed (as_text v) = true) as [Ho Ht].
    { pose proof (plain_chars _ Hpl) as (_ & _ & _ & Hcs). rewrite Forall_forall in Hcs.
      split; apply forallb_forall; intros c Hin%list_elem_of_In; apply Hcs in Hin as [_ Hin];
        apply negb_true_iff, bool_decide_eq_false_2; intros H; apply Hin; clear Hin; cbn [chars]; set_solver. }
    assert (negb (bool_decide (part = TAIL)) && negb (nameable key) = false) as ->.
    { destruct Hpart as [[-> _] | (_ & Hne & ->)]; [done|]. by rewrite andb_false_r. }
    destruct (bool_decide (part = TAIL)); rewrite ?Ho, ?Ht; by destruct v.
Qed.

Lemma parts_read m params segs parts : mapM component segs = Some parts -> Forall (stated params) segs ->
  parts_ as_text m params parts = Ok (filled params <$> segs, omap key_of segs) /\
  Forall (fun f => plain f = true) (filled params <$> segs).
Proof.
  intros Hm%mapM_Some Hs. induction Hm as [|s part segs parts Hc Hm IH]; [by split; constructor|].
  apply Forall_cons in Hs as [Hs Hss]. destruct (IH Hss) as [He Hp].
  destruct (part_read m params s part Hc Hs) as [Hr Hpl]. cbn [parts_]. rewrite Hr. cbn [mbind result_bind]. rewrite He.
  split; [|by constructor]. cbn. by destruct (key_of s).
Qed.

(** *** and what is asked for is captured as it was stated *)

Lemma decode_uri_plain cs : Forall (fun c => c <> "%"%char) cs ->
  decode_uri (length cs) cs = Some ((fun c => Z.of_nat (nat_of_ascii c)) <$> cs).
Proof.
  induction 1 as [|c cs Hc Hcs IH]; [done|]. cbn [length decode_uri]. rewrite decide_False by done. by rewrite IH.
Qed.

Lemma decode_plain f : plain f = true -> decode (Some f) = codes f.
Proof.
  intros (_ & _ & _ & Hf)%plain_chars. unfold decode, decodeURIComponent. cbn [default from_option].
  rewrite decode_uri_plain; [done|]. eapply Forall_impl; [exact Hf|]. intros c [_ Hc] ->. destruct Hc.
  by apply (bool_decide_eq_true_1 _).
Qed.

(** a segment of a declared route: a literal, a variable, or the rest *)
Definition declared_ (s : segment) : Prop := exists p, s = parse p.

Lemma captured_filled segs (frs : list string) :
  Forall declared_ segs -> Forall (fun s => wildcard s = false) (removelast segs) ->
  length frs = length segs -> Forall (fun f => plain f = true) frs ->
  (forall i s f, segs !! i = Some s -> fragment s = Some f -> frs !! i = Some f) ->
  captured frs segs = Some (mjoin (imap (fun i s => match key_of s with Some k => [(k, codes (default "" (frs !! i)))] | None => [] end) segs)).
Proof.
  intros Hd Hw Hlen Hp Hlit. unfold captured.
  assert (forallb Datatypes.id (imap (agrees frs) segs) = true) as ->.
  { apply forallb_forall. intros b Hb%list_elem_of_In. apply elem_of_lookup_imap in Hb as (i & s & -> & Hs).
    unfold Datatypes.id, agrees. destruct (fragment s) as [f|] eqn:Hf; [|done]. apply bool_decide_eq_true_2. eauto. }
  do 2 f_equal. apply imap_ext. intros i s Hs. unfold takes, key_of. destruct (fragment s) as [f|] eqn:Hf; [done|].
  assert (is_Some (frs !! i)) as [f Hfi] by (apply lookup_lt_is_Some; rewrite Hlen; eapply lookup_lt_Some, Hs).
  assert (plain f = true) as Hpf by (rewrite Forall_lookup in Hp; eauto).
  destruct (wildcard s) eqn:Hwild.
  - assert (i = pred (length segs)) as ->.
    { destruct (decide (i = pred (length segs))) as [|Hi]; [done|]. apply lookup_lt_Some in Hs as Hlt.
      rewrite removelast_firstn_len, Forall_lookup in Hw. rewrite (Hw i s) in Hwild; [done|].
      rewrite lookup_take_lt by lia. done. }
    assert (placeholder s = None) as ->.
    { rewrite Forall_lookup in Hd. destruct (Hd _ _ Hs) as [p ->]. revert Hwild. unfold parse.
      repeat first [done | match goal with |- context [match ?x with _ => _ end] => is_var x; destruct x end]. }
    rewrite Hfi. cbn [default from_option app].
    assert (drop (pred (length segs)) frs = [f]) as ->.
    { apply (drop_S frs f) in Hfi as ->. rewrite drop_ge; [done|]. apply lookup_lt_Some in Hs. lia. }
    cbn [fmap list_fmap joined]. by rewrite decode_plain.
  - destruct (placeholder s) as [k|]; [|done]. by rewrite Hfi, app_nil_r, decode_plain.
Qed.
Lemma fragments_path_of frs : Forall (fun f => plain f = true) frs -> fragments (path_of frs) = frs.
Proof.
  intros Hp. pose proof (plain_all_sent _ Hp) as Hsent.
  assert (Forall (fun f => "/"%char ∉ chars f) frs) as Hno.
  { eapply Forall_impl; [exact Hsent|]. intros g [_ Hg] Hc. rewrite Forall_forall in Hg. by apply Hg in Hc as (_ & _ & ?). }
  rewrite path_of_join. destruct frs as [|f fs]; [reflexivity|]. unfold fragments.
  change ("/" +:+ join "/" ((f :: fs) ++ [""])) with (join "/" (("" :: f :: fs) ++ [""])).
  rewrite (split_join "/"%char); [|done|apply Forall_app; split; [constructor; [apply not_elem_of_nil | done] | by constructor; [apply not_elem_of_nil|]]].
  rewrite last_snoc, removelast_last. done.
Qed.

Lemma imap_filled (params : Params) segs :
  mjoin (imap (fun i s => match key_of s with Some k => [(k, codes (default "" ((filled params <$> segs) !! i)))] | None => [] end) segs) =
  omap (fun s => (fun k => (k, codes (filled params s))) <$> key_of s) segs.
Proof.
  transitivity (mjoin ((fun s => match key_of s with Some k => [(k, codes (filled params s))] | None => [] end) <$> segs)).
  - f_equal. rewrite <- (imap_const (fun s => match key_of s with Some k => [(k, codes (filled params s))] | None => [] end)).
    apply imap_ext. intros i s Hs. by rewrite list_lookup_fmap, Hs.
  - induction segs as [|s segs IH]; [done|]. rewrite fmap_cons. transitivity
      (match key_of s with Some k => [(k, codes (filled params s))] | None => [] end ++ omap (fun s => (fun k => (k, codes (filled params s))) <$> key_of s) segs).
    { by rewrite <- IH. }
    cbn. by destruct (key_of s).
Qed.

Lemma address_named segs v m params : v ∈ verbs -> name segs v = Some m -> Forall (stated params) segs ->
  address as_text m params = Ok (mkAddress (path_of (filled params <$> segs)) v (omap key_of segs)) /\
  Forall (fun f => plain f = true) (filled params <$> segs).
Proof.
  intros Hv Hn Hs. destruct (name_parts _ _ _ Hv Hn) as (parts & Hm & Hsplit).
  destruct (parts_read m params _ _ Hm Hs) as [Hr Hp]. split; [|done].
  unfold address. rewrite Hsplit, last_snoc. cbn [default from_option].
  rewrite bool_decide_eq_true_2 by done. cbn [negb]. by rewrite removelast_last, Hr.
Qed.

(** *** A name is of one route *)

Lemma component_inj a b part : declared_ a -> declared_ b -> component a = Some part -> component b = Some part -> a = b.
Proof.
  assert (forall s, declared_ s -> exists f n w, s = mkSegment f n w /\
    ((n = None /\ w = false) \/ (f = None /\ (n = None \/ w = false)))) as Hform.
  { intros s [p ->]. unfold parse.
    repeat first [by eexists _, _, _; split; [reflexivity | tauto] | match goal with |- context [match ?x with _ => _ end] => is_var x; destruct x end]. }
  intros Ha Hb. apply Hform in Ha as (f & n & w & -> & Ha), Hb as (f' & n' & w' & -> & Hb). clear Hform.
  assert (forall p q : string, nameable p = true -> p = VARIABLE +:+ q -> False) as Hvar.
  { intros p q [_ Hl]%nameable_letters ->. apply Forall_cons in Hl as [Hl _]. by vm_compute in Hl. }
  assert (nameable TAIL = true -> False) as Htail by done.
  assert (forall q, nameable q = true -> VARIABLE +:+ q = TAIL -> False) as Hvt.
  { intros q Hq H. apply (string_app_inj_l "_" q "_") in H. by subst q. }
  unfold component. destruct Ha as [[-> ->]|[-> [-> | ->]]], Hb as [[-> ->]|[-> [-> | ->]]]; cbn [fragment placeholder wildcard];
    intros H H';
    repeat match goal with
    | H : context [match ?x with _ => _ end] |- _ => destruct x eqn:?; try discriminate H
    end; try (injection H as H; injection H' as H'); subst; try done; try solve [exfalso; eauto].
  by apply string_app_inj_l in H' as ->.
Qed.
(** *** Climbing out of a route *)

Lemma resolve_climbs n acc k : k <> [] -> resolve acc (replicate n ".." ++ k) = resolve (drop n acc) k.
Proof.
  intros Hk. revert acc. induction n as [|n IH]; intros acc; [done|]. cbn [replicate app].
  assert (resolve acc (".." :: replicate n ".." ++ k) = resolve (tail acc) (replicate n ".." ++ k)) as ->.
  { assert (replicate n ".." ++ k <> []) as Hne by (by destruct n). by destruct (replicate n ".." ++ k). }
  rewrite IH. destruct acc; cbn [tail]; by rewrite ?drop_nil.
Qed.

Lemma resolve_app acc frs k : Forall (fun f => plain f = true) frs -> k <> [] ->
  resolve acc (frs ++ k) = resolve (reverse frs ++ acc) k.
Proof.
  intros Hf Hk. revert acc. induction Hf as [|f frs Hp Hf IH]; intros acc; [done|]. cbn [app].
  assert (resolve acc (f :: frs ++ k) = resolve (f :: acc) (frs ++ k)) as ->.
  { pose proof (plain_chars _ Hp) as (_ & H1 & H2 & _). destruct (frs ++ k) eqn:E; [by apply app_eq_nil in E as []|].
    cbn [resolve]. by rewrite H1, H2, encode_plain. }
  rewrite IH. f_equal. by rewrite reverse_cons, <- app_assoc.
Qed.

Lemma join_nested frs gs : gs <> [] -> join "/" (frs ++ [join "/" gs]) = join "/" (frs ++ gs).
Proof.
  intros Hg. destruct frs as [|f frs]; [done|]. rewrite !string_join_app by done. done.
Qed.

Lemma dots_sent n : Forall sent (replicate n "..").
Proof.
  apply Forall_replicate. split; [done|]. repeat constructor; by intros.
Qed.

(** as many [..] as there are segments before them, and then any path *)
Definition escape (frs gs : list string) : string := join "/" (replicate (S (length frs)) ".." ++ gs).

Lemma escape_reaches frs gs :
  Forall (fun f => plain f = true) frs -> Forall (fun f => plain f = true) gs ->
  pathname (path_of (frs ++ [escape frs gs])) = Some (path_of gs).
Proof.
  intros Hf Hg. set (hs := replicate (S (length frs)) ".." ++ gs).
  assert (path_of (frs ++ [escape frs gs]) = path_of (frs ++ hs)) as ->.
  { unfold path_of, escape. fold hs. rewrite !bool_decide_eq_false_2 by (by destruct frs). by rewrite join_nested. }
  rewrite pathname_sent.
  - subst hs. rewrite <- app_assoc, resolve_app, <- app_assoc, resolve_climbs, app_nil_r by (done || by destruct gs).
    rewrite drop_ge by (rewrite length_reverse; lia). rewrite resolve_plain, path_of_join by done. by destruct gs.
  - repeat (apply Forall_app; split); [by apply plain_all_sent | apply dots_sent | by apply plain_all_sent].
Qed.

Lemma escape_tailed frs gs : Forall (fun f => plain f = true) gs -> tailed (escape frs gs) = true.
Proof.
  intros Hg. apply forallb_forall. intros c Hc%list_elem_of_In. apply negb_true_iff, bool_decide_eq_false_2. intros Hin.
  unfold escape in Hc. assert (Forall (fun f => forall c, c ∈ chars f -> c ∉ ["?"; "#"]%char) (replicate (S (length frs)) ".." ++ gs)) as Hall.
  { apply Forall_app. split.
    - apply Forall_replicate. intros d Hd. cbn [chars] in Hd. set_solver.
    - eapply Forall_impl; [exact Hg|]. intros g (_ & _ & _ & Hcs)%plain_chars d Hd Hd'. rewrite Forall_forall in Hcs.
      apply Hcs in Hd as [_ Hd]. apply Hd. cbn [chars]. set_solver. }
  induction Hall as [|f fs Hf Hall IH]; [by apply elem_of_nil in Hc|]. destruct fs as [|g fs]; [by apply (Hf c)|].
  change (join "/" (f :: g :: fs)) with (f +:+ "/" +:+ join "/" (g :: fs)) in Hc.
  rewrite !chars_app, !elem_of_app in Hc. destruct Hc as [Hc | [Hc | Hc]]; [by apply (Hf c)| |by apply IH].
  cbn [chars] in Hc. set_solver.
Qed.
End naming.

(** ** The answers of an envelope *)

Section answering.
Context {W : Type} (as_text : value -> string) (complaint : value -> string).
Context (serve : Forked -> W -> result thrown (option value) * W) (headers : list (string * string)).

(** under what a call is answered: what cannot be read is answered under no id, and what asks for none is not *)
Definition expected (input : value) : option value :=
  match call_of input with None => Some VNull | Some c => id c end.

Definition id_of (answer : value) : option value :=
  match answer with VObject fields => own fields "id" | _ => None end.

(** a call on its own *)
Definition alone (w : W) (input : value) : W := (answer as_text complaint serve headers input w).2.

Lemma answered_under input w a w' :
  answer as_text complaint serve headers input w = (Ok a, w') -> w' = alone w input /\ (a ≫= id_of) = expected input /\ (a = None <-> expected input = None).
Proof.
  intros H. split; [by unfold alone; rewrite H|]. revert H. unfold answer, expected. destruct (call_of input) as [c|]; [|by intros [= <- _]].
  unfold call. destruct (match asked _ _ _ _ with Throw _ => _ | Ok _ => _ end) as [[body|e] w1].
  - destruct (id c); by intros [= <- _].
  - destruct (unauthorized e); [done|]. destruct (id c); by intros [= <- _].
Qed.

Lemma answers_each calls w l w' :
  answers as_text complaint serve headers calls w = (Ok l, w') ->
  w' = fold_left alone calls w /\ mapM id_of l = Some (omap expected calls).
Proof.
  revert w l w'. induction calls as [|c calls IH]; intros w l w'; cbn [answers]; [by intros [= <- <-]|].
  destruct (answer _ _ _ _ c w) as [[a|e] w1] eqn:Ha; [|done].
  destruct (answers _ _ _ _ calls w1) as [[rest|e] w2] eqn:Hr; [|done].
  intros [= <- <-]. destruct (answered_under _ _ _ _ Ha) as (-> & Hid & Hnone). destruct (IH _ _ _ Hr) as (-> & Hm).
  split; [done|]. cbn [omap list_omap]. destruct a as [a|].
  - cbn in Hid |- *. rewrite Hid. destruct (expected c) as [i|]; [cbn; by rewrite Hm | by destruct Hnone as [_ Hnone]; discriminate Hnone].
  - destruct (expected c) as [i|]; [by destruct Hnone as [Hnone _]; discriminate Hnone | done].
Qed.

Lemma only_credentials_refuse input w e w' :
  answer as_text complaint serve headers input w = (Throw e, w') -> unauthorized e = true.
Proof.
  unfold answer. destruct (call_of input) as [c|]; [|done]. unfold call.
  destruct (match asked _ _ _ _ with Throw _ => _ | Ok _ => _ end) as [[body|e'] w1].
  - by destruct (id c).
  - destruct (unauthorized e') eqn:Hu; [by intros [= <- _] | by destruct (id c)].
Qed.

(** where a credential is refused the calls after it are not made *)
Lemma answers_stop calls w e w' : answers as_text complaint serve headers calls w = (Throw e, w') ->
  unauthorized e = true /\ exists pre c post, calls = pre ++ c :: post /\
    answer as_text complaint serve headers c (fold_left alone pre w) = (Throw e, w').
Proof.
  revert w. induction calls as [|c calls IH]; intros w; cbn [answers]; [done|].
  destruct (answer _ _ _ _ c w) as [[a|e1] w1] eqn:Ha.
  - destruct (answers _ _ _ _ calls w1) as [[rest|e1] w2] eqn:Hr; [done|]. intros [= <- <-].
    destruct (answered_under _ _ _ _ Ha) as (-> & _). destruct (IH _ Hr) as (Hu & pre & d & post & -> & Hd).
    split; [done|]. by exists (c :: pre), d, post.
  - intros [= <- <-]. split; [by eapply only_credentials_refuse|]. by exists [], c, calls.
Qed.
End answering.

(** ** Properties *)

Section envelope.
Context {W : Type} (as_text : value -> string) (complaint : value -> string).
Context (serve : Forked -> W -> result thrown (option value) * W) (headers : list (string * string)).

(** An envelope is answered call by call. Of as many calls as a request may carry, each is made once, in the
    order written, on what those before it left, and the reply holds an answer for each that asks for one, in
    that order and under its id, a call that cannot be read under none; where no call asks, the reply is
    empty. Nothing that a call is refused with refuses the others, but that its credential is: then the
    envelope is refused, and the calls after it are not made. *)
Theorem envelope_is_answered batch envelope w :
  let calls := calls_of envelope in
  (1 <= length calls <= default BATCH batch)%nat ->
  match dispatch as_text complaint serve headers batch "POST" (Ok envelope) w with
  | (Ok reply, w') =>
      w' = fold_left (alone as_text complaint serve headers) calls w /\
      exists l, mapM id_of l = Some (omap expected calls) /\
        reply = match l with
                | [] => mkReply NO_CONTENT None
                | one :: _ => mkReply OK (Some (match envelope with VArray _ => VArray l | _ => one end))
                end
  | (Throw e, w') =>
      unauthorized e = true /\ exists pre c post, calls = pre ++ c :: post /\
        answer as_text complaint serve headers c (fold_left (alone as_text complaint serve headers) pre w) = (Throw e, w')
  end.
Proof.
  intros calls Hlen. unfold dispatch, read. change (negb (bool_decide ("POST" = "POST"))) with false. cbn iota. fold calls.
  rewrite (proj2 (Nat.eqb_neq (length calls) 0)), (proj2 (Nat.ltb_ge (default BATCH batch) (length calls))) by lia.
  destruct (answers as_text complaint serve headers calls w) as [[l|e] w'] eqn:Ha; cbn [mbind result_bind].
  - destruct (answers_each _ _ _ _ _ _ _ _ Ha) as [-> Hm]. split; [done|]. by exists l.
  - exact (answers_stop _ _ _ _ _ _ _ _ Ha).
Qed.
End envelope.

Section properties.
Context (as_text : value -> string).

(** C31: A procedure is reached by its name: where every segment of a declared route has a name and its
    parameters are stated as plain values, the name resolves to the verb and to a path that a parser of
    addresses reads as it is written, the path is cut into the segments of the route with the values in the
    places of the variables, the route captures those values under their names, and what the path took of the
    parameters is exactly the variables. *)
Theorem procedure_reaches_its_route route v m params :
  let segs := segments route in
  v ∈ verbs -> name segs v = Some m -> Forall (fun s => wildcard s = false) (removelast segs) ->
  Forall (stated as_text params) segs ->
  let frs := filled as_text params <$> segs in
  address as_text m params = Ok (mkAddress (path_of frs) v (omap key_of segs)) /\
  pathname (path_of frs) = Some (path_of frs) /\ fragments (path_of frs) = frs /\
  captured frs segs = Some (omap (fun s => (fun k => (k, codes (filled as_text params s))) <$> key_of s) segs).
Proof.
  intros segs Hv Hn Hw Hs frs. destruct (address_named as_text segs v m params Hv Hn Hs) as [Ha Hp]. fold frs in Ha, Hp.
  split_and!; [done | by apply pathname_plain | by apply fragments_path_of |].
  - rewrite (captured_filled segs frs); [by rewrite <- imap_filled | | done | by unfold frs; rewrite length_fmap | done |].
    + apply Forall_forall. intros s Hin. apply list_elem_of_fmap in Hin as (p & -> & _). by exists p.
    + intros i s f Hi Hf. unfold frs. rewrite list_lookup_fmap, Hi. cbn. unfold filled, key_of. by rewrite Hf.
Qed.

(** No two methods have one name: routes that a name can spell and that are declared differently, or
    different verbs of one, are named differently. *)
Theorem names_are_distinct route other v w m :
  v ∈ verbs -> w ∈ verbs -> name (segments route) v = Some m -> name (segments other) w = Some m ->
  segments route = segments other /\ v = w.
Proof.
  intros Hv Hw Ha Hb. destruct (name_parts _ _ _ Hv Ha) as (ps & Hps & Hs), (name_parts _ _ _ Hw Hb) as (qs & Hqs & Ht).
  rewrite Hs in Ht. apply app_inj_tail in Ht as [<- <-]. split; [|done]. clear -Hps Hqs.
  unfold segments in *. revert ps Hps Hqs. generalize (fragments route) as l, (fragments other) as k.
  induction l as [|a l IH]; intros [|b k] ps.
  - done.
  - rewrite !mapM_Some. intros H1 H2. apply Forall2_nil_inv_l in H1 as ->. by apply Forall2_length in H2.
  - rewrite !mapM_Some. intros H1 H2. apply Forall2_nil_inv_l in H2 as ->. by apply Forall2_length in H1.
  - rewrite !mapM_Some, !fmap_cons. intros H1 H2. destruct ps as [|p ps]; [by apply Forall2_length in H1|].
    apply Forall2_cons_1 in H1 as [H1 H1s], H2 as [H2 H2s]. f_equal.
    + eapply component_inj; [by eexists | by eexists | done..].
    + eapply IH; by apply mapM_Some.
Qed.

(** The rest of a path may climb out of its route: by what is stated for it, a name that ends with it resolves
    to any path there is, made of segments that are read as they are written. *)
Theorem tail_reaches_anything segs v m params gs :
  v ∈ verbs -> name (segs ++ [mkSegment None None true]) v = Some m ->
  (forall s, as_text (VString s) = s) -> Forall (stated as_text params) segs ->
  Forall (fun f => plain f = true) gs ->
  own params WILDCARD = Some (VString (escape (filled as_text params <$> segs) gs)) ->
  exists a, address as_text m params = Ok a /\ verb a = v /\ pathname (path a) = Some (path_of gs).
Proof.
  intros Hv Hn Htext Hs Hg Hw. destruct (name_parts _ _ _ Hv Hn) as (parts & Hm & Hsplit).
  apply mapM_Some in Hm. apply Forall2_app_inv_l in Hm as (ps & qs & Hps & Hqs & ->).
  apply Forall2_cons_inv_l in Hqs as (q & qs' & [= <-] & Hqs & ->). apply Forall2_nil_inv_l in Hqs as ->.
  apply mapM_Some in Hps. destruct (parts_read as_text m params _ _ Hps Hs) as [Hr Hp].
  set (frs := filled as_text params <$> segs) in *.
  eexists (mkAddress (path_of (frs ++ [escape frs gs])) v (omap key_of segs ++ [WILDCARD])). split_and!; [|done|by apply escape_reaches].
  unfold address. rewrite Hsplit, last_snoc. cbn [default from_option]. rewrite bool_decide_eq_true_2 by done. cbn [negb].
  rewrite removelast_last. assert (forall l fs vs, parts_ as_text m params l = Ok (fs, vs) ->
    parts_ as_text m params (l ++ [TAIL]) = Ok (fs ++ [escape frs gs], vs ++ [WILDCARD])) as Happ.
  { induction l as [|p l IH]; intros fs vs.
    - intros [= <- <-]. cbn [parts_ app]. unfold part_. change (parameter_ TAIL) with (Some WILDCARD). cbn iota.
      rewrite Hw, Htext, (bool_decide_eq_true_2 (TAIL = TAIL)), escape_tailed by done. done.
    - cbn [parts_ app]. destruct (part_ as_text m params p) as [[f ks]|]; [|done]. cbn [mbind result_bind].
      destruct (parts_ as_text m params l) as [[fs' ks']|]; [|done]. cbn [mbind result_bind]. intros [= <- <-].
      rewrite (IH _ _ eq_refl). cbn. by rewrite app_assoc. }
  by rewrite (Happ _ _ _ Hr).
Qed.
End properties.

(** ** A menu, at which the theorems are applied *)

Module Teapots.
Definition as_text (v : value) : string := match v with VString s => s | VNumber n => show n | _ => "" end.

Definition given : Params := [("id", VNumber 7); ("amount", VNumber 2)].

Lemma procedure_reaches_its_route_witness :
  address as_text "pots._id.PATCH" given = Ok (mkAddress "/pots/7/" "PATCH" ["id"]) /\
  captured ["pots"; "7"] (segments "/pots/:id/") = Some [("id", codes "7")].
Proof.
  destruct (procedure_reaches_its_route as_text "/pots/:id/" "PATCH" "pots._id.PATCH" given) as (Ha & _ & _ & Hc).
  - apply (bool_decide_eq_true_1 _). reflexivity.
  - reflexivity.
  - repeat constructor.
  - repeat constructor; intros key Hk; [discriminate Hk|]. injection Hk as <-. exists (VNumber 7). split_and!; done.
  - split; [exact Ha | exact Hc].
Defined.

Lemma names_are_distinct_witness : segments "/pots/:id/" = segments "/pots/:id" /\ "GET" = "GET".
Proof.
  apply (names_are_distinct "/pots/:id/" "/pots/:id" "GET" "GET" "pots._id.GET");
    first [reflexivity | apply (bool_decide_eq_true_1 _); reflexivity].
Defined.

Lemma tail_reaches_anything_witness :
  exists a, address as_text "files.__.GET" [("**", VString "../../admin/users")] = Ok a /\ verb a = "GET" /\ pathname (path a) = Some "/admin/users/".
Proof.
  apply (tail_reaches_anything as_text [literal "files"] "GET" "files.__.GET" [("**", VString "../../admin/users")] ["admin"; "users"]).
  - apply (bool_decide_eq_true_1 _). reflexivity.
  - reflexivity.
  - intros s. reflexivity.
  - repeat constructor. intros key Hk. discriminate Hk.
  - repeat constructor.
  - reflexivity.
Defined.

(** a route that counts the calls, refuses what it is not for, and lets nobody in at the last *)
Definition serve (r : Forked) (n : nat) : result thrown (option value) * nat :=
  match f_path r with
  | Some "/pots/" => (Ok (Some (VNumber (Z.of_nat n))), S n)
  | Some "/closed/" => (Throw (Refused 401 None), n)
  | _ => (Throw (Refused 404 None), S n)
  end.

Definition asks (m : string) (i : option value) : value :=
  VObject ([("jsonrpc", VString "2.0"); ("method", VString m)] ++ match i with Some i => [("id", i)] | None => [] end).

Definition envelope : value :=
  VArray [asks "pots.GET" (Some (VNumber 1)); asks "pots.GET" None; VNull; asks "lids.GET" (Some (VString "a")); asks "pots.GET" (Some (VNumber 2))].

Example five_answered : dispatch as_text (fun _ => "is no call") serve [] None "POST" (Ok envelope) 0%nat =
  (Ok (mkReply 200 (Some (VArray [
     VObject [("jsonrpc", VString "2.0"); ("id", VNumber 1); ("result", VNumber 0)];
     response VNull (failure INVALID_REQUEST "is no call" None);
     response (VString "a") (failure METHOD_NOT_FOUND "Method not found" None);
     VObject [("jsonrpc", VString "2.0"); ("id", VNumber 2); ("result", VNumber 3)]]))), 4%nat).
Proof. vm_compute. reflexivity. Qed.

Lemma envelope_is_answered_witness :
  (dispatch as_text (fun _ => "is no call") serve [] None "POST" (Ok envelope) 0%nat).2 =
  fold_left (alone as_text (fun _ => "is no call") serve []) (calls_of envelope) 0%nat.
Proof.
  pose proof (envelope_is_answered as_text (fun _ => "is no call") serve [] None envelope 0%nat) as H.
  cbv zeta in H. specialize (H ltac:(split; apply (bool_decide_eq_true_1 _); reflexivity)). rewrite five_answered in H |- *. exact (proj1 H).
Defined.
End Teapots.
