(* ===== verification/Tools.v ===== *)
(** * Tools

    [extensions/exposition/source/MCP/]: the procedures of a tree that are published to a model as tools. What
    the tree publishes is read off it once and kept until a branch is merged; a tool is listed to those it
    admits, and called as the procedure it is; the endpoint serves two revisions of the protocol and remembers
    nothing between requests; and the icons it shows are read in the background. *)
From stdpp Require Import strings sorting.
From S2P Require Import Prelude Routing Procedures.

Open Scope Z_scope.

(** ** Schemas ([MCP/schema.ts]) *)

Notation Fields := (list (string * value)) (only parsing).

(** [Introspection], what is read of it here *)
Record introspection := mkIntrospection {
  title : option string;
  description : option string;
  taken : option Fields;
  query : option Fields;
  input_ : option value;
  output_ : option value;
  readonly : option bool
}.

Definition RESULT : string := "result".

(** [value ?? otherwise] *)
Definition or_else (v : option value) (otherwise : value) : value :=
  match v with None | Some VUndefined | Some VNull => otherwise | Some v => v end.

Definition fields_of (v : value) : Fields := match v with VObject fields => fields | _ => [] end.

Definition shape_of (v : option value) : option Fields := match v with Some (VObject fields) => Some fields | _ => None end.

(** a list of names a schema states *)
Definition names_of (v : option value) : list value := match v with Some (VArray names) => names | _ => [] end.

Definition SELECTION : string :=
  "Which records the call works on: what to match, in what order, and how many at once.".

Definition input (i : introspection) (variables : list string) (selection : option Fields) : value :=
  let properties := fold_left (fun ps v => assign v (or_else (own (default [] (taken i)) v) (VObject [("type", VString "string")])) ps) variables [] in
  let required := VString <$> variables in
  let query := assign_all (default [] (query i)) (default [] selection) in
  let properties :=
    if bool_decide (query = []) then properties
    else assign "query" (VObject [("type", VString "object"); ("description", VString SELECTION); ("properties", VObject query)]) properties in
  let '(properties, required) :=
    match shape_of (input_ i) with
    | None => (properties, required)
    | Some body =>
        match own body "properties" with
        | None | Some VUndefined => (properties, required)
        | Some ps => (assign_all properties (fields_of ps), required ++ names_of (own body "required"))
        end
    end in
  VObject ([("type", VString "object"); ("properties", VObject properties)] ++
    (if bool_decide (required = []) then [] else [("required", VArray required)]) ++ [("additionalProperties", VBool false)]).

Definition output (i : introspection) : option value :=
  match output_ i with
  | None | Some VUndefined | Some VNull => None
  | Some schema =>
      if bool_decide (fields_of schema = []) then None
      else if bool_decide (own (fields_of schema) "type" = Some (VString "object")) then Some schema
      else Some (VObject [("type", VString "object"); ("properties", VObject [(RESULT, schema)]); ("required", VArray [VString RESULT])])
  end.

Definition structured (body : value) : value :=
  match body with VObject _ => body | _ => VObject [(RESULT, body)] end.

Definition annotations (verb : string) (i : introspection) : option value :=
  let given :=
    (if default (bool_decide (verb ∈ ["GET"; "HEAD"])) (readonly i) then [("readOnlyHint", VBool true)] else []) ++
    (if bool_decide (verb = "DELETE") then [("destructiveHint", VBool true)] else []) ++
    (if bool_decide (verb ∈ ["PUT"; "DELETE"]) then [("idempotentHint", VBool true)] else []) in
  if bool_decide (given = []) then None else Some (VObject given).

(** ** What a call was refused with ([MCP/errors.ts]) *)

Definition REFUSALS (status : Z) : string :=
  if status =? 400 then "The arguments were refused"
  else if status =? 403 then "Not authorized. If an argument names an identity or a record, it may not be the caller's own"
  else if status =? 404 then "There is nothing at that address"
  else if status =? 409 then "The record changed while the call was made"
  else if status =? 429 then "Too many calls"
  else "Refused".

Definition refusal (status : Z) (body : option value) : string :=
  match code_of body with None => words body (REFUSALS status) | Some code => code end.

Definition HEADER_MISMATCH : Z := -32020.
Definition UNSUPPORTED_VERSION : Z := -32022.

(** ** What a tree publishes ([MCP/tools.ts], [directives/mcp/MCP.ts]) *)

(** [MCP.published]: what the nearest declaration says *)
Definition published_ (directives : list bool) : bool := default false (head directives).

(** [Tool], of a value that is no boolean, or of a route that a name cannot spell *)
Definition create_tool (name : string) (v : value) (route : string) : result string bool :=
  if negb (bool_decide (name = "tool")) then Throw ("Unknown directive: mcp:" +:+ name)
  else match v with
  | VBool published =>
      match (if published then Procedures.refusal (segments route) else None) with
      | Some _ => Throw ("Directive mcp:tool: " +:+ quoted route +:+ " holds a segment no tool name can spell")
      | None => Ok published
      end
  | _ => Throw "Directive mcp:tool: the value is whether the method is published; what it is, is `help:method`"
  end.

(** What is asked of a method: its declarations of [mcp], what it is described as at an instant, what selects
    its records, and whether it admits the caller at hand. *)
Class Method (M : Type) := {
  declared : M -> list bool;
  describe : Z -> M -> list parameter -> result thrown (option introspection);
  selection : M -> option Fields;
  admits : M -> result thrown bool;
}.

Record tool := mkTool {
  named : string;
  tool_title : option string;
  tool_description : option string;
  inputSchema : value;
  outputSchema : option value;
  hints : option value
}.

(** [Content] and [isError] *)
Record outcome := mkOutcome { content : list string; structuredContent : option value; isError : bool }.

Section tools.
Context {M : Type} `{Method M}.

Record published := mkPublished { of_node : nat; of_method : M; the_tool : tool }.

(** the tree, and what was read off it: a failure to describe it is kept as well *)
Record tree := mkTree {
  trunk : node M;
  tools_memo : option (result thrown (list published));
  names_memo : option (list (string * option nat))
}.

Fixpoint below (n : node M) : list (node M) :=
  match n with Node _ _ _ _ _ _ rs => n :: flat_map (fun '(Route _ n) => below n) rs end.

(** [Date.now() < node.expiration] *)
Definition alive (now : Z) (n : node M) (i : nat) : bool :=
  match find (fun n => (Routing.id n =? i)%nat) (below n) with Some n => negb (expired now n) | None => false end.

Definition describe_mount (now : Z) (m : @mount M) : result thrown (option published) :=
  if negb (published_ (declared (Routing.method m))) then Ok None
  else match name (mount_segments m) (Routing.verb m) with
  | None => Ok None
  | Some called =>
      let params := variables (mount_segments m) in
      described ← describe now (Routing.method m) params;
      Ok ((fun i => mkPublished (on m) (Routing.method m)
        (mkTool called (title i) (description i)
          (input i (fst <$> params) (selection (Routing.method m))) (output i) (annotations (Routing.verb m) i))) <$> (described : option introspection))
  end.

Fixpoint describe_all (now : Z) (ms : list (@mount M)) : result thrown (list published) :=
  match ms with
  | [] => Ok []
  | m :: ms =>
      p ← describe_mount now m;
      ps ← describe_all now ms;
      Ok (match p with Some p => p :: ps | None => ps end)
  end.

(** names are compared by their units *)
Definition by_name (a b : published) : bool := String.leb (named (the_tool a)) (named (the_tool b)).

Definition derive_tools (now : Z) (n : node M) : result thrown (list published) :=
  ps ← describe_all now (tree_walk now n);
  Ok (stable_sort by_name ps).

Fixpoint derive_names (ms : list (@mount M)) (names : list (string * option nat)) : list (string * option nat) :=
  match ms with
  | [] => names
  | m :: ms =>
      derive_names ms
        match name (mount_segments m) (Routing.verb m) with
        | None => names
        | Some called =>
            match own names called with
            | Some _ => names
            | None => names ++ [(called, if published_ (declared (Routing.method m)) then Some (on m) else None)]
            end
        end
  end.

(** [tree.derived] *)
Definition published_of (now : Z) (t : tree) : result thrown (list published) * tree :=
  let ps := default (derive_tools now (trunk t)) (tools_memo t) in
  (ps, mkTree (trunk t) (Some ps) (names_memo t)).

Definition names_of_tree (now : Z) (t : tree) : list (string * option nat) * tree :=
  let ns := default (derive_names (tree_walk now (trunk t)) []) (names_memo t) in
  (ns, mkTree (trunk t) (tools_memo t) (Some ns)).

Fixpoint admitted (now : Z) (n : node M) (ps : list published) : result thrown (list tool) :=
  match ps with
  | [] => Ok []
  | p :: ps =>
      if alive now n (of_node p) then
        told ← admits (of_method p);
        rest ← admitted now n ps;
        Ok (if (told : bool) then the_tool p :: rest else rest)
      else admitted now n ps
  end.

Definition list_ (now : Z) (t : tree) : result thrown (list tool) * tree :=
  let '(ps, t) := published_of now t in
  (ps ≫= (fun ps => admitted now (trunk t) ps), t).

Definition serves (now : Z) (t : tree) (called : string) : bool * tree :=
  let '(ns, t) := names_of_tree now t in
  (match own ns called with Some (Some i) => alive now (trunk t) i | _ => false end, t).

(** [Tree.merge] and [Tree.refresh] *)
Definition merge (b : node M) (t : tree) : tree := mkTree (node_merge (trunk t) b).1 None None.
Definition refresh (now : Z) (which : list nat) (t : tree) : tree :=
  mkTree (Routing.refresh now which (trunk t)) (tools_memo t) (names_memo t).

(** *** Calling one *)

Section calling.
Context {W : Type} (as_text : value -> string) (json : value -> string).
Context (serve : Forked -> W -> result thrown (option value) * W) (headers : list (string * string)).

Definition result_ (body : option value) : outcome :=
  match body with
  | None | Some VUndefined | Some VNull => mkOutcome [] None false
  | Some body => mkOutcome [json body] (Some (structured body)) false
  end.

Definition call (now : Z) (t : tree) (called : string) (args : Fields) (w : W) : result thrown outcome * tree * W :=
  let '(served, t) := serves now t called in
  if negb served then
    (Throw (Refused 404 (Some (response VNull (failure METHOD_NOT_FOUND (quoted called +:+ " is not a tool this server publishes") None)))), t, w)
  else
    match asked as_text headers called args with
    | Throw e => (Throw e, t, w)
    | Ok clone =>
        let '(outcome, w) := serve clone w in
        (match outcome with
         | Ok body => Ok (result_ body)
         | Throw (Refused status body as e) =>
             if client_error e && negb (unauthorized e) then Ok (mkOutcome [refusal status body] None true) else Throw e
         | Throw e => Throw e
         end, t, w)
    end.
End calling.
End tools.

(** ** What a client is told before it calls anything ([MCP/discover.ts], [MCP/types.ts]) *)

Definition MODERN : string := "2026-07-28".
Definition LEGACY : string := "2025-11-25".
Definition VERSIONS : list string := [MODERN; LEGACY].

Definition RESERVED : string := "io.modelcontextprotocol/".
Definition PROTOCOL_VERSION : string := RESERVED +:+ "protocolVersion".
Definition CLIENT_CAPABILITIES : string := RESERVED +:+ "clientCapabilities".
Definition SERVER_INFO : string := RESERVED +:+ "serverInfo".

(** the annotation *)
Record MCP := mkMCP {
  app : string;
  instructions : option string;
  origins : list string;
  anonymous : bool;
  hosts : list (string * string)
}.

Record Discovery := mkDiscovery { modern : Fields; legacy : option string -> value }.

(** [gateway] is the version this gateway is of, which its package states *)
Definition discovery (gateway : string) (options : MCP) (icons : list value) : Discovery :=
  let info := VObject ([("name", VString (app options)); ("version", VString gateway)] ++
    if bool_decide (icons = []) then [] else [("icons", VArray icons)]) in
  let capabilities := VObject [("tools", VObject [])] in
  let stated := match instructions options with Some s => [("instructions", VString s)] | None => [] end in
  mkDiscovery
    ([("supportedVersions", VArray (VString <$> VERSIONS)); ("capabilities", capabilities); ("_meta", VObject [(SERVER_INFO, info)])] ++ stated)
    (fun offered => VObject ([
      ("protocolVersion", VString match offered with
                                  | Some v => if negb (bool_decide (v = MODERN)) then v else LEGACY
                                  | None => LEGACY
                                  end);
      ("capabilities", capabilities); ("serverInfo", info)] ++ stated)).

(** ** The endpoint ([MCP/Server.ts]) *)

Definition ACCEPTED : Z := 202.
Definition SENTINEL : string := "=?base64?".
Definition TERMINATOR : string := "?=".

(** what is asked of the endpoint; a header is by its name in lower case *)
Record Request := mkRequest {
  r_verb : string;
  r_headers : list (string * string);
  identity : bool;
  r_body : result thrown value
}.

Record Message := mkMessage { m_method : string; m_params : value; m_id : option value }.

(** [metadata] *)
Definition metadata (params : value) : option Fields :=
  match own (fields_of params) "_meta" with
  | Some (VObject meta) => Some meta
  | Some (VArray _) => Some []
  | _ => None
  end.

(** [declared] *)
Definition stated_version (params : value) : option string :=
  match metadata params ≫= (fun meta => own meta PROTOCOL_VERSION) with Some (VString v) => Some v | _ => None end.

Definition id_or_null (m : Message) : value := default VNull (m_id m).

Definition bad (id : value) (code : Z) (message : string) (data : option value) : thrown :=
  BadRequest_ (response id (failure code message data)).

Definition hosted (options : MCP) (lower : string -> string) (host : string) : bool :=
  bool_decide (host ∈ (fun '(_, h) => lower h) <$> hosts options).

Definition address_of (options : MCP) (lower : string -> string) (authority : string) : option string :=
  (fun h => "https://" +:+ lower h) <$> own (hosts options) authority.

Definition admit_ (options : MCP) (r : Request) : result thrown unit :=
  match own (r_headers r) "origin" with
  | Some origin =>
      if negb (bool_decide (origin ∈ origins options)) then Throw (Refused 403 (Some (VString "Origin is not allowed")))
      else if anonymous options || identity r then Ok tt else Throw (Refused 401 None)
  | None => if anonymous options || identity r then Ok tt else Throw (Refused 401 None)
  end.

Definition read_message (body : result thrown value) : result thrown Message :=
  match body with
  | Throw (Refused 400 _) => Throw (bad VNull PARSE "Parse error" None)
  | Throw e => Throw e
  | Ok v =>
      match shape_of (Some v) with
      | None => Throw (bad VNull INVALID_REQUEST "A request carries one JSON-RPC message" None)
      | Some fields =>
          match own fields "jsonrpc", own fields "method" with
          | Some (VString rpc), Some (VString m) =>
              if bool_decide (rpc = VERSION) then Ok (mkMessage m (or_else (own fields "params") (VObject [])) (own fields "id"))
              else Throw (bad VNull INVALID_REQUEST "A request carries one JSON-RPC message" None)
          | _, _ => Throw (bad VNull INVALID_REQUEST "A request carries one JSON-RPC message" None)
          end
      end
  end.

Definition version (r : Request) (m : Message) : result thrown string :=
  if bool_decide (m_method m = "initialize") then Ok LEGACY
  else
    let header := own (r_headers r) "mcp-protocol-version" in
    let stated := stated_version (m_params m) in
    match header, stated with
    | Some h, Some s => refuse_when (negb (bool_decide (h = s)))
        (bad (id_or_null m) HEADER_MISMATCH ("'MCP-Protocol-Version' says " +:+ quoted h +:+ " and the body says " +:+ quoted s) None)
    | _, _ => Ok tt
    end;;
    match match header with Some h => Some h | None => stated end with
    | None => Ok LEGACY
    | Some v =>
        if bool_decide (v ∈ VERSIONS) then Ok v
        else Throw (bad (id_or_null m) UNSUPPORTED_VERSION "Unsupported protocol version"
          (Some (VObject [("supported", VArray (VString <$> VERSIONS)); ("requested", VString v)])))
    end.

Section server.
Context {M : Type} `{Method M} {W : Type}.
(** [String(value)], [JSON.stringify] and what base64 holds, of the language and its platform *)
Context (as_text json : value -> string) (base64 : string -> string).
Context (serve : Forked -> W -> result thrown (option value) * W).
Context (options : MCP) (told : Discovery).

(** [decode]: between what marks a value that could not be written in a header *)
Definition decode (s : string) : string :=
  let n := String.length s in
  if String.prefix SENTINEL s && bool_decide (String.substring (n - 2) 2 s = TERMINATOR)
  then base64 (String.substring 9 (n - 11) s) else s.

Definition mirrors (r : Request) (id : value) (header : string) (v : value) : result thrown unit :=
  match own (r_headers r) header with
  | None => Throw (bad id HEADER_MISMATCH (quoted header +:+ " is required") None)
  | Some stated =>
      refuse_when (negb (bool_decide (VString (decode stated) = v)))
        (bad id HEADER_MISMATCH (quoted header +:+ " says " +:+ quoted stated +:+ " and the body says " +:+ quoted (as_text v)) None)
  end.

Definition mirrored (r : Request) (m : Message) : result thrown unit :=
  match metadata (m_params m) with
  | Some meta =>
      match own meta PROTOCOL_VERSION, own meta CLIENT_CAPABILITIES with
      | Some _, Some _ =>
          mirrors r (id_or_null m) "mcp-method" (VString (m_method m));;
          (if bool_decide (m_method m = "tools/call")
           then mirrors r (id_or_null m) "mcp-name" (default VUndefined (own (fields_of (m_params m)) "name"))
           else Ok tt)
      | _, _ => Throw (bad (id_or_null m) INVALID_PARAMS ("'_meta' states " +:+ quoted PROTOCOL_VERSION +:+ " and " +:+ quoted CLIENT_CAPABILITIES) None)
      end
  | None => Throw (bad (id_or_null m) INVALID_PARAMS ("'_meta' states " +:+ quoted PROTOCOL_VERSION +:+ " and " +:+ quoted CLIENT_CAPABILITIES) None)
  end.

Definition server_info : value :=
  or_else (own (modern told) "_meta" ≫= fun meta => own (fields_of meta) SERVER_INFO) VUndefined.

Definition ttl (cache_scope : string) : Fields := [("ttlMs", VNumber BRANCH_TTL); ("cacheScope", VString cache_scope)].

Definition complete (result_ : Fields) (is_modern : bool) (cache : Fields) : value :=
  if is_modern
  then VObject (assign_all (assign_all result_ cache) [("resultType", VString "complete"); ("_meta", VObject [(SERVER_INFO, server_info)])])
  else VObject result_.

Definition optional (key : string) (v : option value) : Fields := match v with Some v => [(key, v)] | None => [] end.

Definition tool_value (t : tool) : value :=
  VObject ([("name", VString (named t))] ++ optional "title" (VString <$> tool_title t) ++
    optional "description" (VString <$> tool_description t) ++ [("inputSchema", inputSchema t)] ++
    optional "outputSchema" (outputSchema t) ++ optional "annotations" (hints t)).

Definition outcome_value (o : outcome) : Fields :=
  [("content", VArray ((fun s => VObject [("type", VString "text"); ("text", VString s)]) <$> content o))] ++
  optional "structuredContent" (structuredContent o) ++ (if isError o then [("isError", VBool true)] else []).

Definition tool_ (now : Z) (r : Request) (params : value) (t : tree) (w : W) : result thrown outcome * tree * W :=
  match own (fields_of params) "name" with
  | Some (VString called) =>
      match or_else (own (fields_of params) "arguments") (VObject []) with
      | VObject args => call as_text json serve (r_headers r) now t called args w
      | _ => (Throw (bad VNull INVALID_PARAMS "`arguments` must be an object" None), t, w)
      end
  | _ => (Throw (bad VNull INVALID_PARAMS "`tools/call` states the tool it calls by name" None), t, w)
  end.

Definition answer (now : Z) (r : Request) (m : Message) (is_modern : bool) (t : tree) (w : W) : result thrown value * tree * W :=
  if bool_decide (m_method m = "server/discover") then (Ok (complete (modern told) is_modern (ttl "public")), t, w)
  else if bool_decide (m_method m = "tools/list") then
    let '(tools, t) := list_ now t in
    (tools ← tools; Ok (complete [("tools", VArray (tool_value <$> tools))] is_modern (ttl "private")), t, w)
  else if bool_decide (m_method m = "tools/call") then
    let '(o, t, w) := tool_ now r (m_params m) t w in
    (o ← o; Ok (complete (outcome_value o) is_modern []), t, w)
  else if bool_decide (m_method m = "initialize") then (Ok (legacy told (stated_version (m_params m))), t, w)
  else if bool_decide (m_method m = "notifications/initialized") then (Ok VNull, t, w)
  else if bool_decide (m_method m = "ping") then (Ok (VObject []), t, w)
  else (Throw (Refused 404 (Some (response (id_or_null m)
         (failure METHOD_NOT_FOUND (quoted (m_method m) +:+ " is not a method this server answers") None)))), t, w).

Definition checked (r : Request) : result thrown (Message * bool) :=
  refuse_when (negb (bool_decide (r_verb r = "POST"))) MethodNotAllowed;;
  admit_ options r;;
  m ← read_message (r_body r);
  v ← version r m;
  (if bool_decide (v = MODERN) then mirrored r m else Ok tt);;
  Ok (m, bool_decide (v = MODERN)).

Definition process (now : Z) (r : Request) (t : tree) (w : W) : result thrown Reply * tree * W :=
  match checked r with
  | Throw e => (Throw e, t, w)
  | Ok (m, is_modern) =>
      let '(result_, t, w) := answer now r m is_modern t w in
      (result_ ← result_;
       Ok (match m_id m with
           | None => mkReply ACCEPTED None
           | Some i => mkReply OK (Some (VObject [("jsonrpc", VString VERSION); ("id", i); ("result", result_)]))
           end), t, w)
  end.
End server.

(** ** The icons of the application ([MCP/manifest.ts]) *)

Definition CYCLE : Z := 1800000.
Definition RETRY : Z := 60000.

(** [Manifest]: what was last shown, the reads that failed since one did not, the timer, and whether it is closed *)
Record Manifest := mkManifest { current : option string; failures : Z; timer : option Z; aborted : bool }.

Definition schedule (m : Manifest) : Manifest :=
  let delay := if (failures m =? 0) || match current m with Some _ => true | None => false end then CYCLE
               else Z.min (RETRY * 2 ^ (failures m - 1)) CYCLE in
  mkManifest (current m) (failures m) (Some delay) (aborted m).

(** a read that ended, by what was found, written; what is shown is what changed *)
Definition read_ended (found : result string string) (m : Manifest) : option string * Manifest :=
  if aborted m then (None, m)
  else
    match found with
    | Throw _ => (None, schedule (mkManifest (current m) (failures m + 1) (timer m) (aborted m)))
    | Ok v =>
        (if bool_decide (current m = Some v) then None else Some v, schedule (mkManifest (Some v) 0 (timer m) (aborted m)))
    end.

Definition close_ (m : Manifest) : Manifest := mkManifest (current m) (failures m) None true.

Definition opened : Manifest := mkManifest None 0 None false.

(** the sizes of an icon *)
Definition digit (c : ascii) : bool := between "0" "9" c.

Definition number_ (s : list ascii) : bool :=
  match s with [] => false | c :: s => digit c && negb (Ascii.eqb c "0") && forallb digit s end.

Definition size (s : string) : bool :=
  bool_decide (s = "any") ||
  match split "x"%char s with [a; b] => number_ (chars a) && number_ (chars b) | _ => false end.

Section icons.
(** an address as the platform reads it against the manifest's: its origin and what it is; and the words of a
    text, those between spaces, in lower case *)
Context (resolve : string -> option (string * string)) (spaced : string -> list string) (lower : string -> string) (origin : string).

Definition icon (item : value) : option value :=
  match item with
  | VObject fields =>
      match own fields "src" with
      | Some (VString src) =>
          if bool_decide (src = "") then None
          else match resolve src with
          | None => None
          | Some (from, href) =>
              if negb (bool_decide (from = origin)) then None
              else if match own fields "purpose" with
                      | None => false
                      | Some (VString purpose) => negb (bool_decide ("any" ∈ spaced purpose))
                      | Some _ => true
                      end then None
              else if match own fields "type" with
                      | None => false
                      | Some (VString type) => negb (String.prefix "image/" type)
                      | Some _ => true
                      end then None
              else
                let valid := match own fields "sizes" with
                             | Some (VString sizes) => filter (fun s => size s = true) (lower <$> spaced sizes)
                             | _ => []
                             end in
                Some (VObject ([("src", VString href)] ++ optional "mimeType" (own fields "type") ++
                  if bool_decide (valid = []) then [] else [("sizes", VArray (VString <$> valid))]))
          end
      | _ => None
      end
  | _ => None
  end.

Definition icons (document : value) : list value :=
  match own (fields_of document) "icons" with Some (VArray listed) => omap icon listed | _ => [] end.
End icons.

(** ** What is listed and what is served *)

Section reading.
Context {M : Type} `{Method M}.

(** a tree, and both of what was read off it at an instant, whatever has been refreshed since *)
Definition read_off (then_ : Z) (n0 n : node M) : tree :=
  mkTree n (Some (derive_tools then_ n0)) (Some (derive_names (tree_walk then_ n0) [])).

Definition called_ (k : string) (m : @mount M) : bool := bool_decide (name (mount_segments m) (Routing.verb m) = Some k).

(** the first mount of a name *)
Definition first_named (k : string) (ms : list (@mount M)) : option mount := find (called_ k) ms.

Definition is_published (m : @mount M) : bool := published_ (declared (Routing.method m)).

Lemma own_snoc {A} (l : list (string * A)) k v k' :
  own (l ++ [(k, v)]) k' = match own l k' with Some x => Some x | None => if decide (k = k') then Some v else None end.
Proof. induction l as [|[k0 v0] l IH]; cbn; [done|]. by destruct (decide (k0 = k')). Qed.

Lemma own_derived ms names k :
  own (derive_names ms names) k =
  match own names k with
  | Some x => Some x
  | None => (fun m => if is_published m then Some (on m) else None) <$> first_named k ms
  end.
Proof.
  revert names. induction ms as [|m ms IH]; intros names; cbn [derive_names]; [by destruct (own names k)|].
  rewrite IH. unfold first_named at 2. cbn [find]. unfold called_ at 1.
  destruct (name (mount_segments m) (Routing.verb m)) as [c|]; [|by rewrite bool_decide_eq_false_2].
  destruct (own names c) eqn:Hc.
  - destruct (own names k) eqn:Hk; [done|]. rewrite bool_decide_eq_false_2 by congruence. done.
  - rewrite own_snoc. destruct (own names k); [done|]. case_decide as Hck.
    + subst. by rewrite bool_decide_eq_true_2.
    + rewrite bool_decide_eq_false_2 by congruence. done.
Qed.

Lemma serves_read now then_ n0 n k :
  (serves now (read_off then_ n0 n) k).1 =
  match first_named k (tree_walk then_ n0) with
  | Some m => is_published m && alive now n (on m)
  | None => false
  end.
Proof.
  change ((serves now (read_off then_ n0 n) k).1) with
    (match own (derive_names (tree_walk then_ n0) []) k with Some (Some i) => alive now n i | _ => false end).
  rewrite own_derived.
  cbn [own]. destruct (first_named _ _) as [m|]; [|done]. cbn. by destruct (is_published m).
Qed.

Lemma described_published now ms ps p : describe_all now ms = Ok ps -> p ∈ ps ->
  exists m, m ∈ ms /\ is_published m = true /\ called_ (named (the_tool p)) m = true /\ of_node p = on m /\ of_method p = Routing.method m.
Proof.
  revert ps. induction ms as [|m ms IH]; intros ps; cbn [describe_all]; [intros [= <-] []%elem_of_nil|].
  intros Hp Hin. apply bind_Ok in Hp as (q & Hq & Hp). apply bind_Ok in Hp as (qs & Hqs & [= <-]).
  assert (p ∈ qs -> exists m0, m0 ∈ m :: ms /\ is_published m0 = true /\ called_ (named (the_tool p)) m0 = true /\
    of_node p = on m0 /\ of_method p = Routing.method m0) as Hrest.
  { intros Hp'. destruct (IH _ Hqs Hp') as (m0 & ? & ?). exists m0. split; [by right | done]. }
  destruct q as [q|]; [|by apply Hrest]. apply elem_of_cons in Hin as [->|Hin]; [|by apply Hrest]. clear Hrest IH.
  exists m. split; [by left|]. revert Hq. unfold describe_mount, is_published, called_.
  destruct (published_ _); [|done]. cbn [negb]. destruct (name _ _) as [k|]; [|done]. cbn zeta.
  intros Hq. apply bind_Ok in Hq as ([i|] & _ & Hq); [|done]. injection Hq as <-. cbn.
  by rewrite bool_decide_eq_true_2.
Qed.

Lemma admitted_subset now n ps ts t : admitted now n ps = Ok ts -> t ∈ ts ->
  exists p, p ∈ ps /\ the_tool p = t /\ alive now n (of_node p) = true /\ admits (of_method p) = Ok true.
Proof.
  revert ts. induction ps as [|p ps IH]; intros ts; cbn [admitted]; [intros [= <-] []%elem_of_nil|].
  assert (forall ts, admitted now n ps = Ok ts -> t ∈ ts -> exists q, q ∈ p :: ps /\ the_tool q = t /\ alive now n (of_node q) = true /\ admits (of_method q) = Ok true) as Hrest.
  { intros ts' Ht Hin. destruct (IH _ Ht Hin) as (q & ? & ?). exists q. split; [by right | done]. }
  destruct (alive now n (of_node p)) eqn:Ha; [|apply Hrest].
  intros Ht Hin. apply bind_Ok in Ht as (told & Htold & Ht). apply bind_Ok in Ht as (rest & Hr & [= <-]).
  destruct told; [|by eapply Hrest]. apply elem_of_cons in Hin as [->|Hin]; [|by eapply Hrest].
  exists p. split; [by left | done].
Qed.

Lemma listed_of now t ts t' x : list_ now t = (Ok ts, t') -> x ∈ ts ->
  exists ps p, (published_of now t).1 = Ok ps /\ p ∈ ps /\ the_tool p = x /\ alive now (trunk t) (of_node p) = true /\ admits (of_method p) = Ok true.
Proof.
  unfold list_. destruct (published_of now t) as [[ps|e] t1] eqn:Hp; [|done]. cbn. intros [= Ha <-] Hx.
  assert (trunk t1 = trunk t) as Ht by (unfold published_of in Hp; by injection Hp as _ <-). rewrite Ht in Ha.
  destruct (admitted_subset _ _ _ _ _ Ha Hx) as (p & ?). by exists ps, p.
Qed.

Lemma derive_tools_all now n ps p : derive_tools now n = Ok ps -> p ∈ ps ->
  exists qs, describe_all now (tree_walk now n) = Ok qs /\ p ∈ qs.
Proof.
  unfold derive_tools. intros Hd Hp. apply bind_Ok in Hd as (qs & Hq & [= <-]). exists qs. split; [done|].
  by rewrite stable_sort_perm in Hp.
Qed.

(** no two mounts of one name *)
Definition one_each (ms : list (@mount M)) : Prop :=
  forall k m, m ∈ ms -> called_ k m = true -> first_named k ms = Some m.

Section calls_of_tools.
Context {W : Type} (as_text json : value -> string) (serve : Forked -> W -> result thrown (option value) * W) (headers : list (string * string)).

Lemma unserved_is_not_called now t k args w : (serves now t k).1 = false ->
  call as_text json serve headers now t k args w =
  (Throw (Refused 404 (Some (response VNull (failure METHOD_NOT_FOUND (quoted k +:+ " is not a tool this server publishes") None)))), (serves now t k).2, w).
Proof. unfold call. destruct (serves now t k) as [[] t']; [done|]. done. Qed.

(** what a model reads of what the route answered with *)
Definition outcome_of (o : result thrown (option value)) : result thrown outcome :=
  match o with
  | Ok body => Ok (result_ json body)
  | Throw (Refused status body as e) =>
      if client_error e && negb (unauthorized e) then Ok (mkOutcome [refusal status body] None true) else Throw e
  | Throw e => Throw e
  end.

Lemma served_is_called now t k args w r : (serves now t k).1 = true -> asked as_text headers k args = Ok r ->
  call as_text json serve headers now t k args w = (outcome_of (serve r w).1, (serves now t k).2, (serve r w).2).
Proof. unfold call. destruct (serves now t k) as [[] t']; [|done]. cbn. intros _ ->. by destruct (serve r w). Qed.
End calls_of_tools.
End reading.

(** ** Properties *)

(** What is listed is what is served: of what was read off a tree at an instant, however it has been
    refreshed since, a tool that is listed to a caller is one that a call of its name takes, where no two mounts
    of the tree are of one name. *)
Theorem listed_is_served {M} `{Method M} now then_ n0 (n : node M) ts t' x :
  one_each (tree_walk then_ n0) ->
  list_ now (read_off then_ n0 n) = (Ok ts, t') -> x ∈ ts ->
  (serves now (read_off then_ n0 n) (named x)).1 = true.
Proof.
  intros Hone Hl Hx. destruct (listed_of _ _ _ _ _ Hl Hx) as (ps & p & Hps & Hp & <- & Ha & _).
  destruct (derive_tools_all _ _ _ _ Hps Hp) as (qs & Hqs & Hq).
  destruct (described_published _ _ _ _ Hqs Hq) as (m & Hm & Hpub & Hc & Hon & _).
  rewrite serves_read, (Hone _ _ Hm Hc), Hpub. cbn [andb]. by rewrite <- Hon.
Qed.

(** A call of a tool is of what is published: it reaches a route at all only under a name whose first mount
    is published and has not expired, and is refused as no tool otherwise, leaving everything as it was; and
    under such a name, with a plain value stated for every variable, the request it makes is of the verb and of
    a path that the route of that mount captures. *)
Theorem called_is_published {M} `{Method M} {W} as_text json (serve : Forked -> W -> result thrown (option value) * W)
    headers now then_ n0 (n : node M) k args w m :
  first_named k (tree_walk then_ n0) = Some m ->
  let t := read_off then_ n0 n in
  let served := is_published m && alive now n (on m) in
  (served = false ->
   call as_text json serve headers now t k args w =
   (Throw (Refused 404 (Some (response VNull (failure METHOD_NOT_FOUND (quoted k +:+ " is not a tool this server publishes") None)))), t, w)) /\
  (forall route query body, served = true -> mount_segments m = segments route -> Routing.verb m ∈ verbs ->
   Forall (fun s => wildcard s = false) (removelast (segments route)) -> Forall (stated as_text args) (segments route) ->
   split_ args (omap key_of (segments route)) = Ok (query, body) ->
   exists r frs, f_verb r = Routing.verb m /\ f_input r = body /\ f_path r = Some (path_of frs) /\ fragments (path_of frs) = frs /\
     is_Some (captured frs (segments route)) /\
     call as_text json serve headers now t k args w = (outcome_of json (serve r w).1, t, (serve r w).2)).
Proof.
  intros Hf t served. assert ((serves now t k).1 = served) as Hs by by (unfold t; rewrite serves_read, Hf).
  assert ((serves now t k).2 = t) as Ht by done.
  split.
  - intros Hno. rewrite unserved_is_not_called by congruence. by rewrite Ht.
  - intros route query body Hyes Hsegs Hv Hw Hst Hsplit.
    assert (name (segments route) (Routing.verb m) = Some k) as Hname.
    { apply find_some in Hf as [_ Hf]. apply bool_decide_eq_true in Hf. by rewrite <- Hsegs. }
    destruct (address_named as_text (segments route) (Routing.verb m) k args Hv Hname Hst) as [Ha Hp].
    set (frs := filled as_text args <$> segments route) in *.
    exists (fork as_text headers (path_of frs) (Routing.verb m) query body), frs.
    split_and!; [done | done | by apply pathname_plain | by apply fragments_path_of | | ].
    + rewrite captured_filled; [by eexists | | done | by unfold frs; rewrite length_fmap | done |].
      * apply Forall_forall. intros s Hin. apply list_elem_of_fmap in Hin as (p & -> & _). by exists p.
      * intros i s f Hi Hfr. unfold frs. rewrite list_lookup_fmap, Hi. cbn. unfold filled, key_of. by rewrite Hfr.
    + rewrite <- Ht. apply served_is_called; [congruence|]. unfold asked. rewrite Ha. cbn. by rewrite Hsplit.
Qed.

(** What routes a modern request and what answers it are told the same: one that is answered names in its
    headers the method it is of and, where it calls a tool, the tool; and whatever the revision, a version
    stated in a header and in the message is one version. *)
Theorem mirrored_agree {M} `{Method M} {W} as_text json base64 (serve : Forked -> W -> result thrown (option value) * W)
    options told now r (t t' : tree (M := M)) w w' reply :
  process as_text json base64 serve options told now r t w = (Ok reply, t', w') ->
  exists m, read_message (r_body r) = Ok m /\
    (forall h s, m_method m <> "initialize" -> own (r_headers r) "mcp-protocol-version" = Some h ->
       stated_version (m_params m) = Some s -> h = s) /\
    (version r m = Ok MODERN ->
       (exists h, own (r_headers r) "mcp-method" = Some h /\ decode base64 h = m_method m) /\
       (m_method m = "tools/call" -> exists h k, own (r_headers r) "mcp-name" = Some h /\
          own (fields_of (m_params m)) "name" = Some (VString k) /\ decode base64 h = k)).
Proof.
  unfold process. destruct (checked as_text base64 options r) as [[m b]|] eqn:Hc; [|done]. intros _.
  unfold checked in Hc. apply then_Ok in Hc as [_ Hc]. apply then_Ok in Hc as [_ Hc].
  apply bind_Ok in Hc as (m' & Hm & Hc). apply bind_Ok in Hc as (v & Hv & Hc). apply then_Ok in Hc as [Hmir [= -> _]].
  exists m. split_and!; [done| |].
  - intros h s Hi Hh Hs. unfold version in Hv. rewrite bool_decide_eq_false_2, Hh, Hs in Hv by done.
    apply then_Ok in Hv as [Hv _]. apply refuse_when_Ok, negb_false_iff, bool_decide_eq_true in Hv. done.
  - intros Hver. rewrite Hver in Hv. injection Hv as <-. rewrite bool_decide_eq_true_2 in Hmir by done.
    unfold mirrored in Hmir. destruct (metadata _) as [meta|]; [|done].
    destruct (own meta PROTOCOL_VERSION); [|done]. destruct (own meta CLIENT_CAPABILITIES); [|done].
    apply then_Ok in Hmir as [H1 H2].
    assert (forall header v, mirrors as_text base64 r (id_or_null m) header v = Ok tt ->
      exists h, own (r_headers r) header = Some h /\ VString (decode base64 h) = v) as Hmirrors.
    { intros header x. unfold mirrors. destruct (own (r_headers r) header) as [h|]; [|done].
      intros Hh%refuse_when_Ok%negb_false_iff%bool_decide_eq_true. by exists h. }
    split.
    + destruct (Hmirrors _ _ H1) as (h & Hh & [= He]). by exists h.
    + intros Hcall. rewrite bool_decide_eq_true_2 in H2 by done. destruct (Hmirrors _ _ H2) as (h & Hh & He).
      destruct (own (fields_of (m_params m)) "name") as [n|]; [|done]. cbn in He. subst n. by exists h, (decode base64 h).
Qed.

(** A description that failed once is what the list answers with until a branch is merged, however the tree
    describes itself by then. *)
Theorem failed_description_is_kept {M} `{Method M} then_ now (n : node M) e :
  derive_tools then_ n = Throw e ->
  (list_ now (list_ then_ (mkTree n None None)).2).1 = Throw e.
Proof.
  intros He. change ((list_ now (list_ then_ (mkTree n None None)).2).1) with (derive_tools then_ n ≫= fun ps => admitted now n ps).
  by rewrite He.
Qed.

(** Whatever a client of an earlier revision offers is what it is told is served, short of the modern one. *)
Theorem any_offer_is_served gateway options icons offered :
  offered <> MODERN ->
  own (fields_of (legacy (discovery gateway options icons) (Some offered))) "protocolVersion" = Some (VString offered).
Proof. intros Ho. cbn. by rewrite bool_decide_eq_false_2. Qed.

(** Reads of the manifest go on, and no faster than they are meant to: after any reads of a reader that is
    not closed, the next is planned no sooner than a minute ahead and no later than a cycle; what was shown last
    is what the last read that did not fail found. *)
Theorem retries_bounded reads :
  let m := fold_left (fun m found => (read_ended found m).2) reads opened in
  (reads <> [] -> exists delay, timer m = Some delay /\ RETRY <= delay <= CYCLE) /\
  current m = last (omap (fun found => match found with Ok v => Some v | Throw _ => None end) reads) /\
  0 <= failures m.
Proof.
  induction reads as [|found reads IH] using rev_ind; [by split_and!|].
  intros m. subst m. rewrite fold_left_app. cbn [fold_left].
  set (m := fold_left (fun m found => (read_ended found m).2) reads opened) in *. destruct IH as (_ & Hcur & Hfail).
  assert (aborted m = false) as Hopen.
  { clear. subst m. induction reads as [|f reads IH] using rev_ind; [done|]. rewrite fold_left_app. cbn [fold_left].
    unfold read_ended at 1. rewrite IH. by destruct f. }
  assert (forall m, 0 <= failures m -> exists delay, timer (schedule m) = Some delay /\ RETRY <= delay <= CYCLE) as Hsch.
  { intros m0 Hm0. unfold schedule. eexists. split; [reflexivity|]. destruct ((failures m0 =? 0) || _) eqn:Hc; [done|].
    apply orb_false_iff in Hc as [Hz _]. apply Z.eqb_neq in Hz.
    assert (1 <= 2 ^ (failures m0 - 1)) by (apply (Z.pow_le_mono_r 2 0); lia). unfold RETRY, CYCLE. lia. }
  rewrite omap_app. unfold read_ended. rewrite Hopen. destruct found as [v|e]; cbn [fst snd].
  - split_and!; [intros _; by apply Hsch | | done]. change (omap _ [Ok v]) with [v]. by rewrite last_snoc.
  - split_and!; [intros _; apply Hsch; cbn; lia | | cbn; lia]. change (omap _ [Throw e]) with (@nil string).
    by rewrite app_nil_r.
Qed.

(** ** A tree of teapots, at which the theorems are applied *)

Module Tearoom.
(** what is declared, the description, and whether it is described at an hour *)
Record method_ := mkMethod { published_here : bool; fails_before : Z }.

#[export] Instance method_method : Method method_ := {
  declared := fun m => [published_here m];
  describe := fun now m _ => if now <? fails_before m then Throw (Failed "no remote") else Ok (Some (mkIntrospection None None None None None None None));
  selection := fun _ => None;
  admits := fun _ => Ok true
}.

Definition leaf (i : nat) (verb : string) (m : method_) (e : option Z) : node method_ := make i [] [(verb, m)] false None e.

(** files published, an administration that is not *)
Definition tree_of (ready : Z) : node method_ :=
  make 0 [Route (segments "/admin") (leaf 1 "GET" (mkMethod false 0) None);
          Route (segments "/files/**") (leaf 2 "GET" (mkMethod true ready) (Some 5000));
          Route (segments "/pots/:id") (leaf 3 "GET" (mkMethod true 0) None)] [] true None None.

Definition off : tree := read_off 0 (tree_of 0) (tree_of 0).

Definition serve (r : Forked) (log : list (option string * string)) : result thrown (option value) * list (option string * string) :=
  (Ok (Some (VString "tea")), log ++ [(f_path r, f_verb r)]).

Definition json (v : value) : string := match v with VString s => s | _ => "{}" end.

Definition pot : value := VObject [("name", VString "pots._id.GET")].

Lemma tree_one_each : one_each (tree_walk 0 (tree_of 0)).
Proof.
  intros k m Hm Hc. repeat (apply elem_of_cons in Hm as [->|Hm]; [apply bool_decide_eq_true in Hc; vm_compute in Hc; injection Hc as <-; vm_compute; reflexivity|]).
  by apply elem_of_nil in Hm.
Qed.

Lemma listed_is_served_witness :
  (serves 10 off "pots._id.GET").1 = true /\ (serves 10 off "files.__.GET").1 = true /\ (serves 10 off "admin.GET").1 = false.
Proof.
  assert (exists ts, (list_ 10 off).1 = Ok ts /\ named <$> ts = ["files.__.GET"; "pots._id.GET"]) as (ts & Hl & Hts)
    by (eexists; split; vm_compute; reflexivity).
  assert (forall x, x ∈ ts -> (serves 10 off (named x)).1 = true) as H.
  { intros x Hx. apply (listed_is_served 10 0 (tree_of 0) (tree_of 0) ts off x tree_one_each); [|done].
    fold off. rewrite <- Hl. reflexivity. }
  assert (forall k, k ∈ named <$> ts -> (serves 10 off k).1 = true) as Hk.
  { intros k (x & -> & Hx)%list_elem_of_fmap. by apply H. }
  rewrite Hts in Hk. split_and!; [apply Hk; by right; left | apply Hk; by left | reflexivity].
Defined.

Lemma called_is_published_witness :
  call Teapots.as_text json serve [] 10 off "admin.GET" [] [] =
    (Throw (Refused 404 (Some (response VNull (failure METHOD_NOT_FOUND "'admin.GET' is not a tool this server publishes" None)))), off, []) /\
  exists r frs, f_path r = Some (path_of frs) /\ is_Some (captured frs (segments "/pots/:id")) /\ f_verb r = "GET" /\
    call Teapots.as_text json serve [] 10 off "pots._id.GET" [("id", VNumber 7)] [] = (outcome_of json (serve r []).1, off, (serve r []).2).
Proof.
  split.
  - destruct (called_is_published Teapots.as_text json serve [] 10 0 (tree_of 0) (tree_of 0) "admin.GET" [] [] (mkMount [literal "admin"] "GET" (mkMethod false 0) 1)) as [H _].
    + reflexivity.
    + exact (H eq_refl).
  - destruct (called_is_published Teapots.as_text json serve [] 10 0 (tree_of 0) (tree_of 0) "pots._id.GET" [("id", VNumber 7)] [] (mkMount (segments "/pots/:id") "GET" (mkMethod true 0) 3)) as [_ H].
    + reflexivity.
    + destruct (H "/pots/:id" None None) as (r & frs & Hv & _ & Hp & _ & Hc & Hcall).
      * reflexivity.
      * reflexivity.
      * apply (bool_decide_eq_true_1 _). reflexivity.
      * repeat constructor.
      * repeat constructor; intros key Hk; [discriminate Hk|]. injection Hk as <-. exists (VNumber 7). split_and!; done.
      * reflexivity.
      * exists r, frs. split_and!; [exact Hp | exact Hc | exact Hv | exact Hcall].
Defined.

(** What is not published is reached by what is: a call of the tool of the files is a request to the
    administration, which no tool names. *)
Theorem unpublished_is_reached :
  (serves 10 off "admin.GET").1 = false /\
  (call Teapots.as_text json serve [] 10 off "files.__.GET" [("**", VString "../admin")] []).2 = [(Some "/admin/", "GET")] /\
  (fun m => Routing.id (at_ m)) <$> tree_match 10 (tree_of 0) "/admin/" = Some 1%nat.
Proof. vm_compute. done. Qed.

(** Where two mounts are of one name and the branch of the first has expired, the other is listed and matched,
    and a call of it is refused as of no tool. *)
Definition twice : node method_ :=
  make 0 [Route (segments "/pots") (make 1 [Route (segments "/:id") (leaf 2 "GET" (mkMethod true 0) (Some 100))] [] false None None);
          Route (segments "/pots/:id") (leaf 3 "GET" (mkMethod true 0) None)] [] true None None.

Theorem expired_mount_shadows :
  let t := read_off 0 twice twice in
  match (list_ 200 t).1 with Ok ts => named <$> ts | Throw _ => [] end = ["pots._id.GET"] /\ (serves 200 t "pots._id.GET").1 = false /\
  (fun m => Routing.id (at_ m)) <$> tree_match 200 twice "/pots/7/" = Some 3%nat.
Proof. vm_compute. done. Qed.

Lemma failed_description_is_kept_witness :
  derive_tools 50 (tree_of 40) <> Throw (Failed "no remote") /\
  (list_ 50 (list_ 0 (mkTree (tree_of 40) None None)).2).1 = Throw (Failed "no remote").
Proof. split; [vm_compute; discriminate | apply failed_description_is_kept; reflexivity]. Defined.

Definition options : MCP := mkMCP "teapots" None [] true [].

Definition told : Discovery := discovery "1.0.0" options [].

Lemma any_offer_is_served_witness :
  own (fields_of (legacy told (Some "1999-01-01"))) "protocolVersion" = Some (VString "1999-01-01") /\ "1999-01-01" ∉ VERSIONS.
Proof. split; [apply any_offer_is_served; discriminate | by apply (bool_decide_eq_true_1 _)]. Defined.

Definition asks (header : string) : Request :=
  mkRequest "POST" [("mcp-protocol-version", MODERN); ("mcp-method", "tools/call"); ("mcp-name", header)] false
    (Ok (VObject [("jsonrpc", VString "2.0"); ("id", VNumber 1); ("method", VString "tools/call");
      ("params", VObject [("name", VString "pots._id.GET"); ("arguments", VObject [("id", VNumber 7)]);
        ("_meta", VObject [(PROTOCOL_VERSION, VString MODERN); (CLIENT_CAPABILITIES, VObject [])])])])).

Definition asked_for (header : string) :=
  process Teapots.as_text json (fun s => s) serve options told 10 (asks header) off [].

Lemma mirrored_agree_witness :
  (asked_for "pots._id.GET").2 = [(Some "/pots/7/", "GET")] /\ (asked_for "files.__.GET").2 = [] /\
  exists h, own (r_headers (asks "pots._id.GET")) "mcp-name" = Some h /\ decode (fun s => s) h = "pots._id.GET".
Proof.
  split_and!; [vm_compute; reflexivity..|].
  destruct (mirrored_agree Teapots.as_text json (fun s => s) serve options told 10 (asks "pots._id.GET") off
    (asked_for "pots._id.GET").1.2 [] (asked_for "pots._id.GET").2
    (match (asked_for "pots._id.GET").1.1 with Ok reply => reply | Throw _ => mkReply 0 None end)) as (m & Hm & _ & Hv).
  - vm_compute. reflexivity.
  - vm_compute in Hm. injection Hm as <-. destruct (Hv eq_refl) as [_ Hn]. destruct (Hn eq_refl) as (h & k & Hh & Hk & Hd).
    exists h. split; [exact Hh|]. vm_compute in Hk. injection Hk as <-. exact Hd.
Defined.
End Tearoom.
