(* ===== verification/Configuration.v ===== *)
(** * Configuration

    [extensions/configuration/], with [definitions/source/extensions.configuration/]: what components are
    configured with. A service holds what was created for each component and epoch, and serves the deployed
    defaults where nothing was; a process asks it for all its components at once, again until each is served;
    and a component holds the newest of what it was served and told of, with its secrets put in. *)
From stdpp Require Import strings sorting.
From S2P Require Import Prelude.

Open Scope Z_scope.

(** ** Epochs and revisions ([epoch.ts]) *)

Section hashes.
(** [createHash('sha256')] in hex, of a text; and [JSON.stringify] of a key and of a value that holds no other *)
Context (sha256 : string -> string) (quote : string -> string) (primitive : value -> string).

(** members by their names, as [Object.keys(object).sort()] has them *)
Definition by_names (fields : list (string * string)) : list (string * string) := merge_sort named_before fields.

Definition member (key written : string) : string := quote key +:+ ":" +:+ written.

Fixpoint canonical (v : value) : string :=
  match v with
  | VArray vs => "[" +:+ join "," (map canonical vs) +:+ "]"
  | VObject fields =>
      let written := omap (fun m => m) (map (fun '(k, v) => match v with VUndefined => None | _ => Some (k, canonical v) end) fields) in
      "{" +:+ join "," ((fun '(k, s) => member k s) <$> by_names written) +:+ "}"
  | VUndefined => "null"
  | _ => primitive v
  end.

Definition hash (v : value) : string := sha256 (canonical v).
Definition epoch (schema : value) : string := hash schema.
Definition revision (defaults : option value) : string := hash (default (VObject []) defaults).
End hashes.

(** ** Secrets ([secrets.ts], [Secret.ts], [configuration.ts]) *)

Notation Fields := (list (string * value)) (only parsing).

Definition fields_of (v : value) : Fields := match v with VObject fields => fields | _ => [] end.

Definition upper (c : ascii) : bool :=
  let n := nat_of_ascii c in ((65 <=? n) && (n <=? 90) || (48 <=? n) && (n <=? 57) || (n =? 95))%nat.

(** [SECRET_RX]: the variable a reference names *)
Definition reference (s : string) : option string :=
  match s with
  | String "$" name => if (1 <=? String.length name)%nat && (String.length name <=? 32)%nat && forallb upper (chars name) then Some name else None
  | _ => None
  end.

Definition secret (schema : value) : bool := bool_decide (own (fields_of schema) "format" = Some (VString "secret")).

Definition join_path (path key : string) : string := if bool_decide (path = "") then key else path +:+ "." +:+ key.

Definition not_reference (path : string) : string :=
  quoted (if bool_decide (path = "") then "." else path) +:+ " is a secret and must be given as a $NAME reference.".

(** the schema of a member, by its name up to an [@] *)
Definition nested (schema : value) (key : string) : option value :=
  let record := fields_of schema in
  let stated := own (fields_of (default VUndefined (own record "properties"))) (default "" (head (split "@"%char key))) in
  match stated with
  | Some (VUndefined | VNull) | None =>
      match own record "additionalProperties" with Some ((VObject _ | VArray _) as additional) => Some additional | _ => None end
  | Some s => Some s
  end.

Definition items (schema : value) : option value :=
  match own (fields_of schema) "items" with Some (VObject _ as s) => Some s | _ => None end.

Fixpoint assertSecrets (schema v : value) (path : string) {struct v} : result string unit :=
  if secret schema then
    match v with
    | VUndefined => Ok tt
    | VString s => if reference s then Ok tt else Throw (not_reference path)
    | _ => Throw (not_reference path)
    end
  else
    match v with
    | VArray vs =>
        match items schema with
        | None => Ok tt
        | Some s =>
            (fix each (i : nat) (vs : list value) : result string unit :=
               match vs with
               | [] => Ok tt
               | v :: vs => assertSecrets s v (join_path path (pretty i));; each (S i) vs
               end) 0%nat vs
        end
    | VObject fields =>
        (fix each (fields : Fields) : result string unit :=
           match fields with
           | [] => Ok tt
           | (k, v) :: fields =>
               match nested schema k with None => Ok tt | Some s => assertSecrets s v (join_path path k) end;;
               each fields
           end) fields
    | _ => Ok tt
    end.

(** a value with secrets in it: [Secret] gives its string to whoever unwraps it *)
Inductive held :=
| Shown (v : value)
| Secret (text : string)
| HArray (vs : list held)
| HObject (fields : list (string * held)).

Definition REDACTED : string := "<REDACTED>".

Definition unwrap (h : held) : option string := match h with Secret text => Some text | _ => None end.

(** [toJSON], at any depth *)
Fixpoint to_json (h : held) : value :=
  match h with
  | Shown v => v
  | Secret _ => VString REDACTED
  | HArray vs => VArray (map to_json vs)
  | HObject fields => VObject (map (fun '(k, h) => (k, to_json h)) fields)
  end.

Definition PREFIX : string := "TOA_CONFIGURATION_".
Definition REVISION : string := PREFIX +:+ "REVISION_".

Section substituting.
(** [environment.get] *)
Context (env : string -> option string).

Definition getSecret (name : string) : result string string :=
  let variable := PREFIX +:+ "_" +:+ name in
  match env variable with None => Throw (variable +:+ " is not set.") | Some s => Ok s end.

Fixpoint substituteSecrets (v : value) : result string held :=
  match v with
  | VString s => match reference s with None => Ok (Shown v) | Some name => text ← getSecret name; Ok (Secret text) end
  | VArray vs =>
      hs ← (fix each (vs : list value) : result string (list held) :=
        match vs with
        | [] => Ok []
        | v :: vs => h ← substituteSecrets v; hs ← each vs; Ok (h :: hs)
        end) vs;
      Ok (HArray hs)
  | VObject fields =>
      hs ← (fix each (fields : Fields) : result string (list (string * held)) :=
        match fields with
        | [] => Ok []
        | (k, v) :: fields => h ← substituteSecrets v; hs ← each fields; Ok ((k, h) :: hs)
        end) fields;
      Ok (HObject hs)
  | _ => Ok (Shown v)
  end.

(** [fit]: [validate] is what a schema says of a value, and [copy] is what JSON keeps of one *)
Definition fit (validate : value -> value -> option string) (copy : value -> value) (schema raw : value) : result string held :=
  let values := copy raw in
  match validate schema values with Some message => Throw message | None => Ok tt end;;
  assertSecrets schema values "";;
  substituteSecrets values.

Definition overridden (uppercase : string) : bool := match env (PREFIX +:+ uppercase) with Some _ => true | None => false end.

Definition deployed_revision (uppercase : string) : option string := env (REVISION +:+ uppercase).
End substituting.

(** ** The values service ([components/configuration.values/]) *)

(** what the deployment told of a component *)
Record Entry := mkEntry { e_epoch : string; e_schema : value; e_defaults : option value }.

(** a stored object *)
Record Stored := mkStored {
  s_component : string;
  s_epoch : string;
  s_configuration : value;
  s_revision : option string;
  s_originator : string;
  CREATED : Z
}.

Record Value := mkValue { configuration : value; created : Z; v_revision : option string }.

Section service.
Context (revision_of : option value -> string) (validate : value -> value -> option string).
Context (entries : list (string * Entry)).

(** the last created of a component and an epoch *)
Fixpoint latest_of (component epoch : string) (objects : list Stored) : option Stored :=
  match objects with
  | [] => None
  | o :: objects =>
      let rest := latest_of component epoch objects in
      if bool_decide (s_component o = component) && bool_decide (s_epoch o = epoch)
      then match rest with Some r => if CREATED o <=? CREATED r then rest else Some o | None => Some o end
      else rest
  end.

Definition resolve (objects : list Stored) (component : string) (asked : option string) : option Value :=
  let known := own entries component in
  match match asked with Some e => Some e | None => e_epoch <$> known end with
  | None => None
  | Some epoch =>
      let latest := latest_of component epoch objects in
      let defaults :=
        match known with
        | Some k =>
            if bool_decide (e_epoch k = epoch)
            then Some (mkValue (default (VObject []) (e_defaults k)) (match latest with None => 0 | Some l => CREATED l end) (Some (revision_of (e_defaults k))))
            else None
        | None => None
        end in
      match latest with
      | Some l => match s_revision l with None => Some (mkValue (s_configuration l) (CREATED l) None) | Some _ => defaults end
      | None => defaults
      end
  end.

Definition create (now : Z) (component : string) (given : value) (originator : string) : result string Stored :=
  match own entries component with
  | None => Throw "UNKNOWN_COMPONENT"
  | Some known =>
      match validate (e_schema known) given with
      | Some _ => Throw "INVALID_CONFIGURATION"
      | None =>
          match assertSecrets (e_schema known) given "" with
          | Throw _ => Throw "INVALID_CONFIGURATION"
          | Ok _ => Ok (mkStored component (e_epoch known) given None originator now)
          end
      end
  end.

Definition reset (now : Z) (component originator : string) : result string Stored :=
  match own entries component with
  | None => Throw "UNKNOWN_COMPONENT"
  | Some known =>
      Ok (mkStored component (e_epoch known) (default (VObject []) (e_defaults known)) (Some (revision_of (e_defaults known))) originator now)
  end.

Record Fetched := mkFetched { f_component : string; f_epoch : string; f_configuration : option value; f_created : Z; f_revision : option string }.

Definition fetch_one (objects : list Stored) (pair : string * string) : Fetched :=
  let v := resolve objects (fst pair) (Some (snd pair)) in
  mkFetched (fst pair) (snd pair) (configuration <$> v) (match v with Some v => created v | None => 0 end) (v ≫= v_revision).

Definition fetch_all (objects : list Stored) (pairs : list (string * string)) : list Fetched := fetch_one objects <$> pairs.

Record Item := mkItem { i_value : Value; i_schema : option value; i_epoch : option string }.

Definition get (objects : list Stored) (component : string) (asked : option string) : option Item :=
  v ← resolve objects component asked;
  let known := own entries component in
  Some (mkItem v (e_schema <$> known) (match asked with Some e => Some e | None => e_epoch <$> known end)).

(** every component, by name; [None] is where the code reads a value that is not there *)
Definition list_ (objects : list Stored) : list (string * option Value) :=
  (fun '(component, k) => (component, resolve objects component (Some (e_epoch k)))) <$> merge_sort named_before entries.
End service.

(** ** The client of a process ([Client.ts]) *)

Notation key := (string * string)%type (only parsing).

(** who asks and who listens, by number *)
Record Pending := mkPending { p_revision : option string; waiters : list nat }.

Record Options := mkOptions { base : Z; max_ : Z; warn : Z }.

Definition DEFAULTS : Options := mkOptions 1000 10000 5.

Record Client := mkClient {
  pending : list (key * Pending);
  listeners : list (key * list nat);
  refusals : list (key * Z);
  (** the delay the next round is planned after *)
  timer : option Z;
  flushing : bool;
  fresh : bool;
  round : Z
}.

Definition client : Client := mkClient [] [] [] None false false 0.

Definition set_pending (ps : list (key * Pending)) (c : Client) : Client :=
  mkClient ps (listeners c) (refusals c) (timer c) (flushing c) (fresh c) (round c).
Definition set_listeners (ls : list (key * list nat)) (c : Client) : Client :=
  mkClient (pending c) ls (refusals c) (timer c) (flushing c) (fresh c) (round c).
Definition set_timer (t : option Z) (c : Client) : Client :=
  mkClient (pending c) (listeners c) (refusals c) t (flushing c) (fresh c) (round c).
Definition set_fresh (c : Client) : Client :=
  mkClient (pending c) (listeners c) (refusals c) (timer c) (flushing c) true (round c).

Section maps.
Context {A : Type}.

Fixpoint get_ (k : key) (m : list (key * A)) : option A :=
  match m with [] => None | (k', a) :: m => if decide (k' = k) then Some a else get_ k m end.

(** [map.set], which keeps the place of a key it has *)
Fixpoint put (k : key) (a : A) (m : list (key * A)) : list (key * A) :=
  match m with [] => [(k, a)] | (k', b) :: m => if decide (k' = k) then (k, a) :: m else (k', b) :: put k a m end.

Definition drop_ (k : key) (m : list (key * A)) : list (key * A) := filter (fun e => fst e <> k) m.
End maps.

Definition schedule (delay : Z) (c : Client) : Client :=
  if flushing c then c
  else match timer c with
  | Some _ => if 0 <? delay then c else set_timer (Some delay) c
  | None => set_timer (Some delay) c
  end.

Definition fetch (k : key) (revision : option string) (who : nat) (c : Client) : Client :=
  let entry := default (mkPending revision []) (get_ k (pending c)) in
  let c := set_pending (put k (mkPending (p_revision entry) (waiters entry ++ [who])) (pending c)) c in
  if flushing c then set_fresh c else schedule 0 c.

Definition subscribe (k : key) (listener : nat) (c : Client) : Client :=
  let ls := default [] (get_ k (listeners c)) in
  set_listeners (put k (if decide (listener ∈ ls) then ls else ls ++ [listener]) (listeners c)) c.

Definition unsubscribe (k : key) (listener : nat) (c : Client) : Client :=
  match get_ k (listeners c) with
  | None => c
  | Some ls => set_listeners (put k (filter (fun l => l <> listener) ls) (listeners c)) c
  end.

Definition close (c : Client) : Client := set_timer None c.

(** [flush], until the service is asked: what it is asked *)
Definition begin_ (c : Client) : list key * Client :=
  (fst <$> pending c, mkClient (pending c) (listeners c) (refusals c) None true false (round c)).

Definition fetched_key (f : Fetched) : key := (f_component f, f_epoch f).

Record Refusal := mkRefusal { refused_key : key; expected : string; received : option string }.

(** what an entry makes of what was fetched of it *)
Inductive verdict := Ignored | Refuse (r : Refusal) | Take (v : Value).

Definition judged (entry : option Pending) (f : Fetched) : verdict :=
  match f_configuration f, entry with
  | Some configuration, Some entry =>
      let defaults := (f_created f =? 0) || bool_decide (is_Some (f_revision f)) in
      match p_revision entry with
      | Some expected =>
          if defaults && negb (bool_decide (f_revision f = Some expected)) then Refuse (mkRefusal (fetched_key f) expected (f_revision f))
          else Take (mkValue configuration (f_created f) (f_revision f))
      | None => Take (mkValue configuration (f_created f) (f_revision f))
      end
  | _, _ => Ignored
  end.

(** what is told to whom *)
Definition telling : Type := nat * Value.

Fixpoint settle (output : list Fetched) (ps : list (key * Pending)) : list Refusal * list telling * list (key * Pending) :=
  match output with
  | [] => ([], [], ps)
  | f :: output =>
      let entry := get_ (fetched_key f) ps in
      match judged entry f with
      | Ignored => settle output ps
      | Refuse r => let '(rs, told, ps) := settle output ps in (r :: rs, told, ps)
      | Take v =>
          let '(rs, told, ps) := settle output (drop_ (fetched_key f) ps) in
          (rs, ((fun who => (who, v)) <$> match entry with Some e => waiters e | None => [] end) ++ told, ps)
      end
  end.

(** what is said in the log *)
Inductive said := Refused_ (r : Refusal) | Waiting (components : list string) (round : Z) | Unanswered.

Fixpoint count_refusals (warn : Z) (refused : list Refusal) (counts : list (key * Z)) : list said * list (key * Z) :=
  match refused with
  | [] => ([], counts)
  | r :: refused =>
      let n := default 0 (get_ (refused_key r) counts) + 1 in
      let '(s, counts) := count_refusals warn refused (put (refused_key r) n counts) in
      (if Z.rem n warn =? 1 then Refused_ r :: s else s, counts)
  end.

Definition holds {A} (k : key) (m : list (key * A)) : bool := match get_ k m with Some _ => true | None => false end.

Definition report (o : Options) (batch : list key) (refused : list Refusal) (c : Client) : list said * Client :=
  let '(s, counts) := count_refusals (warn o) refused (refusals c) in
  let waiting := filter (fun k => (holds k (pending c) && negb (holds k counts)) = true) batch in
  let counts := filter (fun e => holds (fst e) (pending c) = true) counts in
  let round := if bool_decide (waiting = []) then 0 else round c + 1 in
  (s ++ (if negb (bool_decide (waiting = [])) && (Z.rem round (warn o) =? 1) then [Waiting (fst <$> waiting) round] else []),
   mkClient (pending c) (listeners c) counts (timer c) (flushing c) (fresh c) round).

(** [base * 1.5 ** round], in whole milliseconds as a timer takes it *)
Definition backoff (o : Options) (c : Client) : Z := Z.min (base o * 3 ^ round c / 2 ^ round c) (max_ o).

(** [flush], from the answer of the service to the batch, or none of it *)
Definition end_ (o : Options) (batch : list key) (answer : option (list Fetched)) (c : Client) : list telling * list said * Client :=
  let '(refused, told, ps) := match answer with Some output => settle output (pending c) | None => ([], [], pending c) end in
  let c := mkClient ps (listeners c) (refusals c) (timer c) false (fresh c) (round c) in
  let '(s, c) := report o batch refused c in
  let s := match answer with Some _ => s | None => Unanswered :: s end in
  (told, s, if bool_decide (pending c = []) then c
            else if fresh c then schedule 0 c else schedule (backoff o c) c).

Definition deliver (o : Stored) (c : Client) : list telling :=
  (fun l => (l, mkValue (s_configuration o) (CREATED o) (s_revision o))) <$> default [] (get_ (s_component o, s_epoch o) (listeners c)).

(** a client between turns: at most one round is with the service *)
Record running := mkRunning { the_client : Client; out : option (list key); told : list telling }.

Inductive event :=
| Fetches (k : key) (revision : option string) (who : nat)
| Subscribes (k : key) (listener : nat)
| Unsubscribes (k : key) (listener : nat)
| Fires
| Answers (answer : option (list Fetched)).

(** what happens, where it can *)
Definition happen (o : Options) (e : event) (s : running) : option running :=
  let c := the_client s in
  match e with
  | Fetches k revision who => Some (mkRunning (fetch k revision who c) (out s) (told s))
  | Subscribes k l => Some (mkRunning (subscribe k l c) (out s) (told s))
  | Unsubscribes k l => Some (mkRunning (unsubscribe k l c) (out s) (told s))
  | Fires =>
      match timer c with
      | None => None
      | Some _ => let '(batch, c) := begin_ c in Some (mkRunning c (Some batch) (told s))
      end
  | Answers answer =>
      match out s with
      | None => None
      | Some batch => let '(t, _, c) := end_ o batch answer c in Some (mkRunning c None (told s ++ t))
      end
  end.

Inductive reached (o : Options) : list event -> running -> Prop :=
| reached_none : reached o [] (mkRunning client None [])
| reached_event es e s s' : reached o es s -> happen o e s = Some s' -> reached o (es ++ [e]) s'.

(** ** The aspect of a component ([Aspect.ts]) *)

Record Aspect := mkAspect { a_revision : option string; value_ : held; a_created : Z }.

Section aspect.
(** [fit], of the manifest of the component *)
Context (fitted : value -> result string held).

(** what was fetched at the start *)
Definition open_ (revision : option string) (v : Value) : result string Aspect :=
  h ← fitted (configuration v); Ok (mkAspect revision h (created v)).

(** [listener]: whether the value is asked for again, and the aspect *)
Definition listener (v : Value) (a : Aspect) : bool * Aspect :=
  if created v <=? a_created a then (false, a)
  else
    match a_revision a, v_revision v with
    | Some ours, Some theirs =>
        if bool_decide (theirs <> ours) then (true, a)
        else match fitted (configuration v) with Ok h => (false, mkAspect (a_revision a) h (created v)) | Throw _ => (false, a) end
    | _, _ => match fitted (configuration v) with Ok h => (false, mkAspect (a_revision a) h (created v)) | Throw _ => (false, a) end
    end.
End aspect.

(** ** Secrets are put in where they are declared, and are not written *)

(** what is written of a value with its secrets in *)
Fixpoint redacted (v : value) : value :=
  match v with
  | VString s => match reference s with Some _ => VString REDACTED | None => v end
  | VArray vs => VArray (map redacted vs)
  | VObject fields => VObject (map (fun '(k, v) => (k, redacted v)) fields)
  | _ => v
  end.

(** a part of a value, and of what is held of it, under the part of the schema that is of it *)
Inductive part : value -> value -> held -> value -> value -> held -> Prop :=
| part_whole s v h : part s v h s v h
| part_item s vs hs i v h t s' v' h' :
    secret s = false -> items s = Some t -> vs !! i = Some v -> hs !! i = Some h -> part t v h s' v' h' ->
    part s (VArray vs) (HArray hs) s' v' h'
| part_member s fields hs i k v h t s' v' h' :
    secret s = false -> fields !! i = Some (k, v) -> hs !! i = Some (k, h) -> nested s k = Some t -> part t v h s' v' h' ->
    part s (VObject fields) (HObject hs) s' v' h'.

Section secrets.
Context (env : string -> option string).

Definition nested_ind (P : value -> Prop) (Harray : forall vs, Forall P vs -> P (VArray vs))
    (Hobject : forall fields, Forall (fun m => P (snd m)) fields -> P (VObject fields))
    (Hother : forall v, (forall vs, v <> VArray vs) -> (forall fs, v <> VObject fs) -> P v) : forall v, P v :=
  fix go v :=
    match v with
    | VArray vs => Harray vs ((fix each vs : Forall P vs := match vs with [] => Forall_nil_2 P | v :: vs => Forall_cons_2 P v vs (go v) (each vs) end) vs)
    | VObject fields => Hobject fields ((fix each fields : Forall (fun m => P (snd m)) fields :=
        match fields with [] => Forall_nil_2 _ | (k, v) :: fields => Forall_cons_2 _ (k, v) fields (go v) (each fields) end) fields)
    | v => Hother v ltac:(done) ltac:(done)
    end.

Lemma substituted v h : substituteSecrets env v = Ok h ->
  match v with
  | VString s =>
      match reference s with
      | None => h = Shown v
      | Some name => exists text, env (PREFIX +:+ "_" +:+ name) = Some text /\ h = Secret text
      end
  | VArray vs => exists hs, h = HArray hs /\ Forall2 (fun v h => substituteSecrets env v = Ok h) vs hs
  | VObject fields => exists hs, h = HObject hs /\ Forall2 (fun m n => fst m = fst n /\ substituteSecrets env (snd m) = Ok (snd n)) fields hs
  | _ => h = Shown v
  end.
Proof.
  destruct v as [| |b|n|m e|s|vs|fields]; cbn [substituteSecrets]; try (by intros [= <-]).
  - destruct (reference s) as [name|]; [|by intros [= <-]]. unfold getSecret.
    destruct (env (PREFIX +:+ "_" +:+ name)) as [text|]; [|done]. intros [= <-]. by exists text.
  - intros Hb. apply bind_Ok in Hb as (hs & Hs & [= <-]). exists hs. split; [done|]. revert hs Hs.
    induction vs as [|v vs IH]; intros hs; [by intros [= <-]|]. intros Hb. apply bind_Ok in Hb as (h & Hh & Hb).
    apply bind_Ok in Hb as (hs' & Hs & [= <-]). constructor; [done | by apply IH].
  - intros Hb. apply bind_Ok in Hb as (hs & Hs & [= <-]). exists hs. split; [done|]. revert hs Hs.
    induction fields as [|[k v] fields IH]; intros hs; [by intros [= <-]|]. intros Hb. apply bind_Ok in Hb as (h & Hh & Hb).
    apply bind_Ok in Hb as (hs' & Hs & [= <-]). constructor; [done | by apply IH].
Qed.

Lemma substituted_written v h : substituteSecrets env v = Ok h -> to_json h = redacted v.
Proof.
  revert h. induction v as [vs IH|fields IH|v Ha Ho] using nested_ind; intros h Hh; apply substituted in Hh.
  - destruct Hh as (hs & -> & Hs). cbn. f_equal. revert IH. induction Hs as [|v h vs hs Hh Hs IHs]; [done|].
    intros [Hv Hvs]%Forall_cons. cbn. rewrite (Hv _ Hh). f_equal. by apply IHs.
  - destruct Hh as (hs & -> & Hs). cbn. f_equal. revert IH. induction Hs as [|[k v] [k' h] fields hs [Hk Hh] Hs IHs]; [done|].
    intros [Hv Hvs]%Forall_cons. cbn in Hk, Hh, Hv |- *. subst k'. rewrite (Hv _ Hh). f_equal. by apply IHs.
  - destruct v as [| | | | |s|vs|fields]; try (by rewrite Hh); [|by destruct (Ha vs) | by destruct (Ho fields)].
    cbn. destruct (reference s); [by destruct Hh as (text & _ & ->) | by rewrite Hh].
Qed.

Lemma assert_items s t vs path i v : secret s = false -> items s = Some t ->
  assertSecrets s (VArray vs) path = Ok tt -> vs !! i = Some v -> exists path', assertSecrets t v path' = Ok tt.
Proof.
  intros Hs Ht. cbn [assertSecrets]. rewrite Hs, Ht. generalize 0%nat as n. revert i.
  induction vs as [|w vs IH]; intros i n Hall Hi; [done|]. apply then_Ok in Hall as [Hw Hall].
  destruct i as [|i]; [injection Hi as ->; by eexists | by eapply IH].
Qed.

Lemma assert_members s fields path i k v t : secret s = false -> fields !! i = Some (k, v) -> nested s k = Some t ->
  assertSecrets s (VObject fields) path = Ok tt -> exists path', assertSecrets t v path' = Ok tt.
Proof.
  intros Hs Hi Ht. cbn [assertSecrets]. rewrite Hs. revert i Hi.
  induction fields as [|[k' w] fields IH]; intros i Hi Hall; [done|]. apply then_Ok in Hall as [Hw Hall].
  destruct i as [|i]; [injection Hi as -> ->; rewrite Ht in Hw; by eexists | by eapply IH].
Qed.

Lemma part_secret s v h s' v' h' path : part s v h s' v' h' -> secret s' = true ->
  assertSecrets s v path = Ok tt -> substituteSecrets env v = Ok h ->
  v' = VUndefined \/ exists r name text, v' = VString r /\ reference r = Some name /\ env (PREFIX +:+ "_" +:+ name) = Some text /\ h' = Secret text.
Proof.
  intros Hp. revert path. induction Hp as [s v h|s vs hs i v h t s' v' h' Hs Ht Hv Hh _ IH|s fields hs i k v h t s' v' h' Hs Hv Hh Ht _ IH];
    intros path Hsec Ha Hsub.
  - destruct v as [| | | | |r| | ]; cbn [assertSecrets] in Ha; rewrite Hsec in Ha; try done; [by left|].
    destruct (reference r) as [name|] eqn:Hr; [|done]. apply substituted in Hsub. rewrite Hr in Hsub.
    destruct Hsub as (text & He & ->). right. by exists r, name, text.
  - destruct (assert_items _ _ _ _ _ _ Hs Ht Ha Hv) as [path' Ha']. apply substituted in Hsub as (hs' & [= <-] & Hall).
    eapply IH; [done | exact Ha'|]. by eapply (Forall2_lookup_lr _ _ _ i v h) in Hall.
  - destruct (assert_members _ _ _ _ _ _ _ Hs Hv Ht Ha) as [path' Ha']. apply substituted in Hsub as (hs' & [= <-] & Hall).
    eapply IH; [done | exact Ha'|]. eapply (Forall2_lookup_lr _ _ _ i (k, v) (k, h)) in Hall; [|done..]. by destruct Hall.
Qed.
End secrets.

(** ** The client tells each that asked, once, of what it asked for *)

Section map_lemmas.
Context {A : Type}.
Implicit Types m : list (key * A).

Lemma get_put k a m k' : get_ k' (put k a m) = if decide (k = k') then Some a else get_ k' m.
Proof.
  induction m as [|[k0 b] m IH]; cbn [put get_]; [done|]. destruct (decide (k0 = k)) as [->|Hk]; cbn [get_].
  - by destruct (decide (k = k')).
  - rewrite IH. destruct (decide (k0 = k')) as [->|]; [|done]. by rewrite decide_False.
Qed.

Lemma get_drop k m k' : get_ k' (drop_ k m) = if decide (k = k') then None else get_ k' m.
Proof.
  unfold drop_. induction m as [|[k0 b] m IH]; cbn [get_]; [by destruct (decide (k = k'))|].
  destruct (decide (k0 = k)) as [->|Hk].
  - rewrite filter_cons_False by by intros []. rewrite IH. by destruct (decide (k = k')).
  - rewrite filter_cons_True by done. cbn [get_]. rewrite IH. destruct (decide (k0 = k')) as [->|]; [|done]. by rewrite decide_False.
Qed.

Lemma get_Some_in k m a : get_ k m = Some a -> (k, a) ∈ m.
Proof. induction m as [|[k' b] m IH]; cbn; [done|]. case_decide as Hk; [intros [= ->]; subst; by left | right; auto]. Qed.

Lemma get_None k m : get_ k m = None <-> k ∉ fst <$> m.
Proof.
  induction m as [|[k' b] m IH]; cbn [get_]; [split; [intros _; apply not_elem_of_nil | done]|].
  rewrite fmap_cons, not_elem_of_cons. cbn. case_decide as Hk; [naive_solver|]. rewrite IH. naive_solver.
Qed.

Lemma get_in k m : is_Some (get_ k m) <-> k ∈ fst <$> m.
Proof.
  destruct (get_ k m) as [a|] eqn:Hg.
  - split; [|by eexists]. intros _. apply get_Some_in in Hg. apply list_elem_of_fmap. by exists (k, a).
  - apply get_None in Hg. split; [by intros [] | done].
Qed.

Lemma keys_put k a m : fst <$> put k a m = if decide (k ∈ fst <$> m) then fst <$> m else (fst <$> m) ++ [k].
Proof.
  induction m as [|[k' b] m IH]; cbn [put]; [by rewrite decide_False by apply not_elem_of_nil|].
  rewrite !fmap_cons. cbn [fst]. destruct (decide (k' = k)) as [->|Hk].
  - rewrite decide_True by by left. by rewrite fmap_cons.
  - rewrite fmap_cons, IH. cbn [fst]. destruct (decide (k ∈ fst <$> m)) as [Hin|Hin].
    + by rewrite decide_True by by right.
    + rewrite decide_False; [done|]. rewrite not_elem_of_cons. split; [congruence | done].
Qed.

Lemma keys_drop k m : fst <$> drop_ k m = filter (fun k' => k' <> k) (fst <$> m).
Proof.
  unfold drop_. induction m as [|[k' b] m IH]; [done|]. destruct (decide (k' = k)) as [->|Hk].
  - rewrite filter_cons_False by by intros []. rewrite fmap_cons, (filter_cons_False _ (fst (k, b))) by by intros []. done.
  - rewrite filter_cons_True, !fmap_cons, IH by done. by rewrite (filter_cons_True _ (fst (k', b))).
Qed.

Lemma keys_put_NoDup k a m : NoDup (fst <$> m) -> NoDup (fst <$> put k a m).
Proof.
  intros Hm. rewrite keys_put. case_decide as Hk; [done|]. apply NoDup_app. split_and!; [done| |apply NoDup_singleton].
  intros x Hx ->%list_elem_of_singleton. done.
Qed.

Lemma keys_drop_NoDup k m : NoDup (fst <$> m) -> NoDup (fst <$> drop_ k m).
Proof. intros Hm. rewrite keys_drop. by apply NoDup_filter. Qed.
End map_lemmas.

(** everybody who waits *)
Definition waiting (ps : list (key * Pending)) : list nat := mjoin ((fun e => waiters (snd e)) <$> ps).

Lemma waiting_put k entry ps who : get_ k ps = Some entry \/ (get_ k ps = None /\ waiters entry = []) ->
  waiting (put k (mkPending (p_revision entry) (waiters entry ++ [who])) ps) ≡ₚ who :: waiting ps.
Proof.
  unfold waiting. induction ps as [|[k' e] ps IH]; intros Hg; cbn [put get_] in *.
  - destruct Hg as [?|[_ Hw]]; [done|]. cbn. by rewrite Hw.
  - destruct (decide (k' = k)) as [->|Hk]; rewrite !fmap_cons; cbn [mjoin list_join snd waiters].
    + destruct Hg as [[= ->]|[? _]]; [|done]. change (list_join ?l) with (mjoin l). solve_Permutation.
    + change (list_join ?l) with (mjoin l). rewrite IH by done. solve_Permutation.
Qed.

Lemma waiting_drop k ps : NoDup (fst <$> ps) ->
  waiting ps ≡ₚ match get_ k ps with Some e => waiters e | None => [] end ++ waiting (drop_ k ps).
Proof.
  unfold waiting, drop_. induction ps as [|[k' e] ps IH]; [done|]. rewrite fmap_cons, NoDup_cons. intros [Hk Hps]. cbn [get_].
  destruct (decide (k' = k)) as [->|Hne].
  - rewrite filter_cons_False by by intros []. rewrite fmap_cons. cbn [mjoin list_join snd].
    change (list_join ?l) with (mjoin l). rewrite list_filter_id; [done|].
    intros x Hx <-. apply Hk. apply list_elem_of_fmap. by exists x.
  - rewrite filter_cons_True by done. rewrite !fmap_cons. cbn [mjoin list_join snd]. change (list_join ?l) with (mjoin l).
    rewrite (IH Hps) at 1. solve_Permutation.
Qed.

Lemma judged_take entry f v : judged entry f = Take v ->
  exists e, entry = Some e /\ f_configuration f = Some (configuration v) /\ f_created f = created v /\ f_revision f = v_revision v /\
    (forall r, p_revision e = Some r -> created v = 0 \/ is_Some (v_revision v) -> v_revision v = Some r).
Proof.
  unfold judged. destruct (f_configuration f) as [c|] eqn:Hc; [|done]. destruct entry as [e|]; [|done].
  destruct (p_revision e) as [r|] eqn:Hr.
  - destruct (_ && _) eqn:Hd; [done|]. intros [= <-]. exists e. split_and!; [done..|]. cbn. intros r' Hr'.
    assert (r' = r) as -> by congruence. intros Hdef. apply andb_false_iff in Hd as [Hd|Hd].
    + apply orb_false_iff in Hd as [Hz Hs]. apply bool_decide_eq_false in Hs. apply Z.eqb_neq in Hz. by destruct Hdef.
    + by apply negb_false_iff, bool_decide_eq_true in Hd.
  - intros [= <-]. exists e. split_and!; [done..|]. by rewrite Hr.
Qed.

(** what a round does to who waits: those told, each by an entry of its answer, and those that wait still *)
Lemma settle_spec output ps rs told_ ps' : NoDup (fst <$> ps) -> settle output ps = (rs, told_, ps') ->
  NoDup (fst <$> ps') /\ waiting ps ≡ₚ (fst <$> told_) ++ waiting ps' /\
  (forall k e, get_ k ps' = Some e -> get_ k ps = Some e) /\
  (forall who v, (who, v) ∈ told_ -> exists f e, f ∈ output /\ get_ (fetched_key f) ps = Some e /\ who ∈ waiters e /\ judged (Some e) f = Take v).
Proof.
  revert ps rs told_ ps'. induction output as [|f output IH]; intros ps rs told_ ps' Hps; cbn [settle].
  - intros [= <- <- <-]. split_and!; [done | done | done | by intros ? ? ?%elem_of_nil].
  - assert (forall rs t ps', settle output ps = (rs, t, ps') -> NoDup (fst <$> ps') /\ waiting ps ≡ₚ (fst <$> t) ++ waiting ps' /\
      (forall k e, get_ k ps' = Some e -> get_ k ps = Some e) /\
      (forall who v, (who, v) ∈ t -> exists f0 e, f0 ∈ f :: output /\ get_ (fetched_key f0) ps = Some e /\ who ∈ waiters e /\ judged (Some e) f0 = Take v)) as Hskip.
    { intros rs0 t0 ps0 H. destruct (IH _ _ _ _ Hps H) as (H1 & H2 & H3 & H4). split_and!; [done..|].
      intros who v Hin. destruct (H4 _ _ Hin) as (f0 & e & Hf & ?). exists f0, e. split; [by right | done]. }
    destruct (judged (get_ (fetched_key f) ps) f) as [|r|v] eqn:Hj.
    + apply Hskip.
    + destruct (settle output ps) as [[rs0 t0] ps0] eqn:Hs. intros [= <- <- <-]. by eapply Hskip.
    + destruct (judged_take _ _ _ Hj) as (e & He & _). rewrite He in Hj |- *.
      destruct (settle output (drop_ (fetched_key f) ps)) as [[rs0 t0] ps0] eqn:Hs. intros [= <- <- <-].
      destruct (IH _ _ _ _ (keys_drop_NoDup _ _ Hps) Hs) as (H1 & H2 & H3 & H4).
      assert (forall k e0, get_ k (drop_ (fetched_key f) ps) = Some e0 -> get_ k ps = Some e0) as Hdrop.
      { intros k e0. rewrite get_drop. by destruct (decide (fetched_key f = k)). }
      split_and!; [done| |intros k e0 H; by apply Hdrop, H3|].
      * rewrite (waiting_drop (fetched_key f) ps Hps), He, H2, fmap_app, <- app_assoc.
        rewrite <- list_fmap_compose. cbn. rewrite list_fmap_id. done.
      * intros who w [Hin|Hin]%elem_of_app.
        -- apply list_elem_of_fmap in Hin as (who' & [= -> ->] & Hin). exists f, e. split_and!; [by left | done..].
        -- destruct (H4 _ _ Hin) as (f0 & e0 & Hf & Hg & Hw & Hj0). exists f0, e0. split_and!; [by right | by apply Hdrop | done..].
Qed.

(** who asked, in order *)
Definition asked (es : list event) : list nat := omap (fun e => match e with Fetches _ _ who => Some who | _ => None end) es.

Lemma asked_snoc es e : asked (es ++ [e]) = asked es ++ match e with Fetches _ _ who => [who] | _ => [] end.
Proof. unfold asked. rewrite omap_app. by destruct e. Qed.

Section running.
Context (o : Options).

Definition planned (d : Z) : Prop := d = 0 \/ base o <= d <= max_ o.

(** what holds of a client between turns *)
Record sound (es : list event) (s : running) : Prop := {
  sound_keys : NoDup (fst <$> pending (the_client s));
  sound_asked : asked es ≡ₚ (fst <$> told s) ++ waiting (pending (the_client s));
  sound_out : match out s with
              | Some batch => flushing (the_client s) = true /\ timer (the_client s) = None /\
                  (fresh (the_client s) = false -> forall k, k ∈ fst <$> pending (the_client s) -> k ∈ batch)
              | None => flushing (the_client s) = false /\ (pending (the_client s) <> [] -> timer (the_client s) <> None)
              end;
  sound_round : 0 <= round (the_client s);
  sound_timer : forall d, timer (the_client s) = Some d -> planned d
}.

Lemma report_keeps batch refused c :
  let c' := (report o batch refused c).2 in
  pending c' = pending c /\ listeners c' = listeners c /\ timer c' = timer c /\ flushing c' = flushing c /\ fresh c' = fresh c /\
  (0 <= round c -> 0 <= round c').
Proof.
  unfold report. destruct (count_refusals _ _ _) as [s counts]. cbn. split_and!; [done..|]. intros. case_bool_decide; lia.
Qed.

Lemma backoff_planned c : 0 <= base o <= max_ o -> 0 <= round c -> planned (backoff o c).
Proof.
  intros Hb Hr. right. unfold backoff. split; [|lia]. apply Z.min_glb; [|lia].
  assert (0 < 2 ^ round c) by (apply Z.pow_pos_nonneg; lia).
  apply Z.div_le_lower_bound; [done|]. rewrite (Z.mul_comm (2 ^ _)). apply Z.mul_le_mono_nonneg_l; [lia|]. apply Z.pow_le_mono_l. lia.
Qed.

Lemma end_pending batch answer c t s c' : end_ o batch answer c = (t, s, c') ->
  pending c' = match answer with Some output => (settle output (pending c)).2 | None => pending c end /\
  t = match answer with Some output => (settle output (pending c)).1.2 | None => [] end.
Proof.
  unfold end_. destruct (match answer with Some _ => _ | None => _ end) as [[rs t0] ps] eqn:Hs.
  destruct (report _ _ _ _) as [s0 c0] eqn:Hr. intros [= <- _ <-].
  assert (pending c0 = ps) as Hc0.
  { pose proof (report_keeps batch rs (mkClient ps (listeners c) (refusals c) (timer c) false (fresh c) (round c))) as (H & _).
    by rewrite Hr in H. }
  assert (forall d c, pending (schedule d c) = pending c) as Hsch.
  { intros d c1. unfold schedule. destruct (flushing c1); [done|]. destruct (timer c1); [by destruct (0 <? d) | done]. }
  split.
  - transitivity ps; [|by destruct answer as [output|]; [rewrite Hs | injection Hs]].
    case_bool_decide; [done|]. destruct (fresh c0); by rewrite Hsch.
  - by destruct answer as [output|]; [rewrite Hs | injection Hs].
Qed.

Lemma end_planned batch answer c t s c' : 0 <= base o <= max_ o -> 0 <= round c -> timer c = None ->
  end_ o batch answer c = (t, s, c') ->
  flushing c' = false /\ (pending c' <> [] -> timer c' <> None) /\ 0 <= round c' /\ (forall d, timer c' = Some d -> planned d).
Proof.
  intros Hb Hround Ht. unfold end_. destruct (match answer with Some _ => _ | None => _ end) as [[rs t0] ps] eqn:Hs.
  set (c1 := mkClient ps (listeners c) (refusals c) (timer c) false (fresh c) (round c)).
  destruct (report o batch rs c1) as [s0 c0] eqn:Hr. intros [= _ _ <-].
  pose proof (report_keeps batch rs c1) as H. rewrite Hr in H. cbn [snd] in H. destruct H as (Hp & _ & Htc & Hf & _ & Hrd).
  assert (timer c0 = None) as Ht0 by by rewrite Htc. assert (flushing c0 = false) as Hf0 by by rewrite Hf.
  specialize (Hrd Hround).
  assert (forall d, planned d -> let c2 := schedule d c0 in flushing c2 = false /\ timer c2 = Some d /\ round c2 = round c0) as Hsch.
  { intros d _. unfold schedule. by rewrite Hf0, Ht0. }
  case_bool_decide as Hnone.
  - split_and!; [done | done | done | by rewrite Ht0].
  - assert (exists d, planned d /\ (if fresh c0 then schedule 0 c0 else schedule (backoff o c0) c0) = schedule d c0) as (d & Hd & ->).
    { destruct (fresh c0); [exists 0; split; [by left | done] | exists (backoff o c0); split; [by apply backoff_planned | done]]. }
    destruct (Hsch d Hd) as (H1 & H2 & H3). rewrite H1, H2, H3. split_and!; [done | done | done | by intros ? [= <-]].
Qed.

Lemma fetch_client k r who c :
  pending (fetch k r who c) = put k (mkPending (p_revision (default (mkPending r []) (get_ k (pending c)))) (waiters (default (mkPending r []) (get_ k (pending c))) ++ [who])) (pending c) /\
  flushing (fetch k r who c) = flushing c /\ round (fetch k r who c) = round c /\
  (if flushing c then timer (fetch k r who c) = timer c /\ fresh (fetch k r who c) = true else timer (fetch k r who c) = Some 0).
Proof.
  unfold fetch. destruct (flushing c) eqn:Hf; [cbn; by rewrite Hf|]. unfold schedule. cbn [flushing set_pending]. rewrite Hf.
  cbn [timer set_pending]. destruct (timer c); cbn; by rewrite ?Hf.
Qed.

Lemma happen_sound es e s s' : 0 <= base o <= max_ o -> sound es s -> happen o e s = Some s' -> sound (es ++ [e]) s'.
Proof.
  intros Hb [Hkeys Hasked Hout Hround Htimer]. unfold happen. destruct e as [k r who|k l|k l| |answer].
  - intros [= <-]. destruct (fetch_client k r who (the_client s)) as (Hp & Hf & Hr & Ht). set (c := fetch _ _ _ _) in *.
    constructor; cbn [the_client told out].
    + rewrite Hp. by apply keys_put_NoDup.
    + rewrite asked_snoc, Hasked, Hp, waiting_put; [cbn; solve_Permutation|].
      destruct (get_ k _) as [e|]; [by left | by right].
    + destruct (out s) as [batch|].
      * destruct Hout as (Hfl & Htm & _). rewrite Hfl in Ht. destruct Ht as [Ht Hfr]. rewrite Hf, Ht, Hfr. done.
      * destruct Hout as (Hfl & _). rewrite Hfl in Ht. rewrite Hf, Ht. done.
    + by rewrite Hr.
    + intros d. destruct (flushing (the_client s)); [destruct Ht as [-> _]; apply Htimer | rewrite Ht; intros [= <-]; by left].
  - intros [= <-]. constructor; cbn [the_client told out]; rewrite ?asked_snoc, ?app_nil_r; done.
  - intros [= <-]. unfold unsubscribe. constructor; cbn [the_client told out]; destruct (get_ k _); rewrite ?asked_snoc, ?app_nil_r; done.
  - destruct (timer (the_client s)) as [d|] eqn:Ht; [|done]. intros [= <-]. destruct (out s); [by destruct Hout as (_ & ? & _)|].
    constructor; cbn [the_client told out begin_ pending flushing timer fresh round]; [done | by rewrite asked_snoc, app_nil_r | by split_and! | done | done].
  - destruct (out s) as [batch|]; [|done]. destruct Hout as (Hfl & Htm & _).
    destruct (end_ o batch answer (the_client s)) as [[t sd] c] eqn:He. intros [= <-].
    destruct (end_pending _ _ _ _ _ _ He) as [Hp Ht]. destruct (end_planned _ _ _ _ _ _ Hb Hround Htm He) as (H1 & H2 & H3 & H4).
    assert (NoDup (fst <$> pending c) /\ waiting (pending (the_client s)) ≡ₚ (fst <$> t) ++ waiting (pending c)) as [Hn Hw].
    { rewrite Hp, Ht. destruct answer as [output|]; [|done]. destruct (settle output _) as [[rs t0] ps] eqn:Hs.
      by destruct (settle_spec _ _ _ _ _ Hkeys Hs) as (? & ? & _). }
    constructor; cbn [the_client told out]; [done | | done | done | done].
    rewrite asked_snoc, app_nil_r, Hasked, Hw, fmap_app. by rewrite <- app_assoc.
Qed.

Lemma reached_sound es s : 0 <= base o <= max_ o -> reached o es s -> sound es s.
Proof.
  intros Hb. induction 1 as [|es e s s' _ IH Hs]; [|by eapply happen_sound].
  constructor; cbn; [apply NoDup_nil_2 | done | by split_and! | done | done].
Qed.
End running.

Lemma settle_gone output ps k : get_ k ps = None -> get_ k (settle output ps).2 = None.
Proof.
  revert ps. induction output as [|f output IH]; intros ps Hk; cbn [settle]; [done|].
  destruct (judged _ f) as [|r|v].
  - by apply IH.
  - pose proof (IH ps Hk) as H. by destruct (settle output ps) as [[? ?] ?].
  - assert (get_ k (drop_ (fetched_key f) ps) = None) as Hd by (rewrite get_drop; by destruct (decide _)).
    pose proof (IH _ Hd) as H. by destruct (settle output _) as [[? ?] ?].
Qed.

Lemma settle_tells pre f post ps e v :
  fetched_key f ∉ fetched_key <$> pre -> get_ (fetched_key f) ps = Some e -> judged (Some e) f = Take v ->
  get_ (fetched_key f) (settle (pre ++ f :: post) ps).2 = None /\
  (forall who, who ∈ waiters e -> (who, v) ∈ (settle (pre ++ f :: post) ps).1.2).
Proof.
  intros Hpre He Hv. revert ps He. induction pre as [|g pre IH]; intros ps He; cbn [app settle].
  - rewrite He, Hv.
    assert (get_ (fetched_key f) (drop_ (fetched_key f) ps) = None) as Hd by by rewrite get_drop, decide_True.
    pose proof (settle_gone post _ _ Hd) as H. destruct (settle post _) as [[rs t] ps']. cbn in H |- *. split; [done|].
    intros who Hw. apply elem_of_app. left. apply list_elem_of_fmap. by exists who.
  - rewrite fmap_cons, not_elem_of_cons in Hpre. destruct Hpre as [Hne Hpre]. specialize (IH Hpre).
    destruct (judged (get_ (fetched_key g) ps) g) as [|r|w].
    + by apply IH.
    + pose proof (IH _ He) as H. by destruct (settle _ ps) as [[? ?] ?].
    + assert (get_ (fetched_key f) (drop_ (fetched_key g) ps) = Some e) as Hd by by rewrite get_drop, decide_False.
      pose proof (IH _ Hd) as [H1 H2]. destruct (settle _ (drop_ _ _)) as [[? ?] ?]. cbn in H1, H2 |- *. split; [done|].
      intros who Hw. apply elem_of_app. right. by apply H2.
Qed.

(** who waits asked, and an entry is of the revision its first asker asked for *)
Lemma reached_askers o es s k e : reached o es s -> get_ k (pending (the_client s)) = Some e ->
  (exists who, Fetches k (p_revision e) who ∈ es) /\ (forall who, who ∈ waiters e -> exists r, Fetches k r who ∈ es).
Proof.
  intros Hr. revert k e. induction Hr as [|es ev s s' _ IH Hs]; [done|].
  assert (forall k e, get_ k (pending (the_client s)) = Some e ->
    (exists who, Fetches k (p_revision e) who ∈ es ++ [ev]) /\ (forall who, who ∈ waiters e -> exists r, Fetches k r who ∈ es ++ [ev])) as Hold.
  { intros k e He. destruct (IH k e He) as ((who & Hwho) & Hall). split; [exists who; set_solver|].
    intros w Hw. destruct (Hall w Hw) as [r Hin]. exists r. set_solver. }
  intros k e. unfold happen in Hs. destruct ev as [k' r' who'|k' l|k' l| |answer].
  - injection Hs as <-. cbn [the_client]. destruct (fetch_client k' r' who' (the_client s)) as (-> & _). rewrite get_put.
    case_decide as Hk; [subst k'|apply Hold]. intros [= <-]. cbn [p_revision waiters].
    destruct (get_ k (pending (the_client s))) as [e|] eqn:He; cbn [default from_option p_revision waiters].
    + destruct (Hold k e He) as [H1 H2]. split; [done|]. intros w [Hw|Hw]%elem_of_app; [by apply H2|].
      apply list_elem_of_singleton in Hw as ->. exists r'. set_solver.
    + split; [exists who'; set_solver|]. intros w Hw. apply list_elem_of_singleton in Hw as ->. exists r'. set_solver.
  - injection Hs as <-. apply Hold.
  - injection Hs as <-. cbn [the_client]. unfold unsubscribe. destruct (get_ k' (listeners _)); apply Hold.
  - destruct (timer _); [|done]. injection Hs as <-. apply Hold.
  - destruct (out s) as [batch|]; [|done]. destruct (end_ o batch answer (the_client s)) as [[t sd] c] eqn:He.
    injection Hs as <-. cbn [the_client]. destruct (end_pending _ _ _ _ _ _ _ He) as [-> _]. destruct answer as [output|]; [|apply Hold].
    intros Hg. apply Hold. revert Hg. generalize (pending (the_client s)) as ps. clear. induction output as [|f output IH]; intros ps; cbn [settle]; [done|].
    destruct (judged _ f) as [|r|v].
    + apply IH.
    + specialize (IH ps). by destruct (settle output ps) as [[? ?] ?].
    + specialize (IH (drop_ (fetched_key f) ps)). destruct (settle output _) as [[? ?] ?]. cbn in IH |- *. intros Hg.
      apply IH in Hg. rewrite get_drop in Hg. by destruct (decide _).
Qed.

(** ** What a component holds is what the service serves *)

Section following.
Context (fitted : value -> result string held).
Context (revision_of : option value -> string) (entries : list (string * Entry)).

(** what reaches a listener: a stored object as it was created, or what the service answered at some moment
    since, when this many objects had been *)
Inductive delivery := Event (o : Stored) | Answer (moment : nat).

Definition value_of (o : Stored) : Value := mkValue (s_configuration o) (CREATED o) (s_revision o).

Definition delivered (objects : list Stored) (component epoch : string) (d : delivery) : option Value :=
  match d with
  | Event o => Some (value_of o)
  | Answer moment => resolve revision_of entries (take moment objects) component (Some epoch)
  end.

Definition hear (a : Aspect) (v : option Value) : Aspect := match v with Some v => (listener fitted v a).2 | None => a end.
End following.

Section service_lemmas.
Context (fitted : value -> result string held).
Context (revision_of : option value -> string) (entries : list (string * Entry)) (component epoch : string) (known : Entry).
Context (objects : list Stored).

Definition of_it (o : Stored) : Prop := s_component o = component /\ s_epoch o = epoch.

Definition defaults_ : value := default (VObject []) (e_defaults known).
Definition ours : string := revision_of (e_defaults known).

(** what is served of an object *)
Definition served_of (o : Stored) : value := match s_revision o with None => s_configuration o | Some _ => defaults_ end.

Lemma latest_spec (l : list Stored) :
  match latest_of component epoch l with
  | Some o => o ∈ l /\ of_it o /\ (forall o', o' ∈ l -> of_it o' -> CREATED o' <= CREATED o)
  | None => forall o, o ∈ l -> ~ of_it o
  end.
Proof.
  induction l as [|o l IH]; cbn [latest_of]; [by intros ? ?%elem_of_nil|].
  destruct (bool_decide (s_component o = component) && bool_decide (s_epoch o = epoch)) eqn:Hm.
  - apply andb_true_iff in Hm as [Hc%bool_decide_eq_true He%bool_decide_eq_true].
    destruct (latest_of component epoch l) as [r|].
    + destruct IH as (Hr & Hof & Hmax). destruct (Z.leb_spec (CREATED o) (CREATED r)).
      * split_and!; [by right | done |]. intros o' [->|Hin]%elem_of_cons ?; auto.
      * split_and!; [by left | done |]. intros o' [->|Hin]%elem_of_cons Ho'; [lia|]. specialize (Hmax o' Hin Ho'). lia.
    + split_and!; [by left | done |]. intros o' [->|Hin]%elem_of_cons Ho'; [lia | by destruct (IH o' Hin)].
  - assert (~ of_it o) as Hno by (intros [Hc He]; by rewrite !bool_decide_eq_true_2 in Hm).
    destruct (latest_of component epoch l) as [r|].
    + destruct IH as (Hr & Hof & Hmax). split_and!; [by right | done |].
      intros o' [->|Hin]%elem_of_cons Ho'; [done | auto].
    + intros o' [->|Hin]%elem_of_cons; [done | auto].
Qed.

(** a value that is what is served of its moment *)
Definition tells (v : Value) : Prop :=
  (created v = 0 /\ configuration v = defaults_) \/
  exists o, o ∈ objects /\ of_it o /\ CREATED o = created v /\ configuration v = served_of o.

Hypothesis known_entry : own entries component = Some known.
Hypothesis known_epoch : e_epoch known = epoch.

Lemma resolve_tells l : l ⊆ objects -> exists v, resolve revision_of entries l component (Some epoch) = Some v /\ tells v /\
  (v_revision v = None \/ v_revision v = Some ours) /\
  ((forall o, o ∈ l -> 0 <= CREATED o) -> 0 <= created v) /\ (forall o, o ∈ l -> of_it o -> CREATED o <= created v).
Proof.
  intros Hl. unfold resolve. rewrite known_entry, known_epoch, (bool_decide_eq_true_2 (epoch = epoch)) by done.
  pose proof (latest_spec l) as Hs. destruct (latest_of component epoch l) as [o|].
  - destruct Hs as (Hin & Hof & Hmax). destruct (s_revision o) as [r|] eqn:Hr.
    + eexists. split; [done|]. split_and!; [|by right | intros H; by apply H | done].
      right. exists o. split_and!; [by apply Hl | done | done | unfold served_of; by rewrite Hr].
    + eexists. split; [done|]. split_and!; [|by left | intros H; by apply H | done].
      right. exists o. split_and!; [by apply Hl | done | done | unfold served_of; by rewrite Hr].
  - eexists. split; [done|]. split_and!; [by left | by right | done | intros o Ho Hof; by destruct (Hs o Ho)].
Qed.

Hypothesis moments : StronglySorted (fun a b => CREATED a < CREATED b) objects.
Hypothesis positive : forall o, o ∈ objects -> 0 < CREATED o.
Hypothesis genuine : forall o, o ∈ objects -> of_it o -> s_revision o = Some ours -> s_configuration o = defaults_.
Hypothesis fits : forall o, o ∈ objects -> of_it o -> is_ok (fitted (served_of o)) = true.
Hypothesis defaults_fit : is_ok (fitted defaults_) = true.

Lemma created_once a b : a ∈ objects -> b ∈ objects -> CREATED a = CREATED b -> a = b.
Proof.
  intros Ha Hb He. clear -moments He Ha Hb. revert Ha Hb. induction moments as [|o l Hs IH Hall]; [by intros ?%elem_of_nil|].
  rewrite Forall_forall in Hall. intros [->|Ha]%elem_of_cons [->|Hb]%elem_of_cons; [done|specialize (Hall b Hb); lia|specialize (Hall a Ha); lia|by apply IH].
Qed.

Lemma tells_once v w : tells v -> tells w -> created v = created w -> configuration v = configuration w.
Proof.
  intros [[Hv Hcv]|(a & Ha & Hof & Hv & Hcv)] [[Hw Hcw]|(b & Hb & Hofb & Hw & Hcw)] He.
  - congruence.
  - specialize (positive b Hb). lia.
  - specialize (positive a Ha). lia.
  - assert (a = b) as -> by (apply created_once; [done | done | congruence]). congruence.
Qed.

Lemma tells_fits v : tells v -> exists h, fitted (configuration v) = Ok h.
Proof.
  intros Hv. assert (is_ok (fitted (configuration v)) = true) as Hok by (destruct Hv as [[_ ->]|(o & Ho & Hof & _ & ->)]; auto).
  destruct (fitted (configuration v)); [by eexists | done].
Qed.

(** an aspect that holds what is served of some moment *)
Definition true_ (a : Aspect) : Prop :=
  a_revision a = Some ours /\ exists v, tells v /\ created v = a_created a /\ fitted (configuration v) = Ok (value_ a).

(** a value it may take, and one that it takes where it is newer *)
Definition taken_ (v : Value) : Prop := tells v /\ (v_revision v = None \/ v_revision v = Some ours).

Lemma listener_true a v : true_ a -> taken_ v -> true_ (listener fitted v a).2 /\
  a_created (listener fitted v a).2 = Z.max (a_created a) (created v).
Proof.
  intros Ha [Hv Hrev]. destruct (tells_fits v Hv) as [h Hh]. unfold listener.
  destruct (Z.leb_spec (created v) (a_created a)); [split; [done | cbn; lia]|].
  destruct Ha as [Har Ha]. rewrite Har, Hh. assert (forall r, v_revision v = Some r -> bool_decide (r <> ours) = false) as Hours.
  { intros r Hr. apply bool_decide_eq_false_2. intros Hne. destruct Hrev as [Hrev|Hrev]; congruence. }
  destruct (v_revision v) as [r|]; [rewrite (Hours r eq_refl)|]; (split; [split; [done | by exists v] | cbn; lia]).
Qed.

Lemma listener_foreign a v r : a_revision a = Some ours -> v_revision v = Some r -> r <> ours -> (listener fitted v a).2 = a.
Proof.
  intros Ha Hv Hr. unfold listener. destruct (created v <=? a_created a); [done|]. by rewrite Ha, Hv, bool_decide_eq_true_2.
Qed.

(** deliveries of what there is *)
Definition delivery_of (d : delivery) : Prop := match d with Event o => o ∈ objects /\ of_it o | Answer _ => True end.

Definition told_of (d : delivery) (o : Stored) : Prop :=
  match d with
  | Event o' => o' = o /\ (s_revision o = None \/ s_revision o = Some ours)
  | Answer moment => o ∈ take moment objects
  end.

Lemma value_of_tells o : o ∈ objects -> of_it o -> s_revision o = None \/ s_revision o = Some ours -> taken_ (value_of o).
Proof.
  intros Ho Hof Hrev. split; [|done]. right. exists o. split_and!; [done | done | done|].
  unfold served_of. cbn. destruct Hrev as [Hr|Hr]; rewrite Hr; [done | by apply genuine].
Qed.

Lemma take_subset (n : nat) : take n objects ⊆ objects.
Proof. intros o Ho. by eapply subseteq_take. Qed.

Lemma hear_true a d : true_ a -> delivery_of d ->
  let a' := hear fitted a (delivered revision_of entries objects component epoch d) in
  true_ a' /\ a_created a <= a_created a' /\ (forall o, o ∈ objects -> of_it o -> told_of d o -> CREATED o <= a_created a').
Proof.
  intros Ha Hd. destruct d as [o|moment]; cbn [delivered hear].
  - destruct Hd as [Ho Hof]. destruct (decide (s_revision o = None \/ s_revision o = Some ours)) as [Hr|Hr].
    + destruct (listener_true a (value_of o) Ha (value_of_tells o Ho Hof Hr)) as [Ht Hc]. rewrite Hc.
      split_and!; [done | lia|]. intros o' _ _ [-> _]. cbn. lia.
    + destruct (s_revision o) as [r|] eqn:Hro; [|tauto].
      rewrite (listener_foreign a (value_of o) r); [|by destruct Ha | done | intros ->; tauto].
      split_and!; [done | lia|]. intros o' _ _ [-> Ho']. rewrite Hro in Ho'. tauto.
  - destruct (resolve_tells (take moment objects) (take_subset moment)) as (v & -> & Hv & Hr & _ & Hmax). cbn.
    destruct (listener_true a v Ha (conj Hv Hr)) as [Ht Hc]. rewrite Hc. split_and!; [done | lia|].
    intros o _ Hof Ho. specialize (Hmax o Ho Hof). lia.
Qed.

Lemma hear_all_true ds a : true_ a -> Forall delivery_of ds ->
  let a' := fold_left (fun a d => hear fitted a (delivered revision_of entries objects component epoch d)) ds a in
  true_ a' /\ a_created a <= a_created a' /\ (forall d o, d ∈ ds -> o ∈ objects -> of_it o -> told_of d o -> CREATED o <= a_created a').
Proof.
  intros Ha Hds. revert a Ha. induction Hds as [|d ds Hd Hds IH]; intros a Ha; cbn [fold_left].
  - split_and!; [done | done | by intros ? ? ?%elem_of_nil].
  - destruct (hear_true a d Ha Hd) as (Ht & Hle & Htold). destruct (IH _ Ht) as (Ht' & Hle' & Htold'). split_and!; [done | lia|].
    intros d' o [->|Hin]%elem_of_cons Ho Hof Hto; [specialize (Htold o Ho Hof Hto); lia | by eapply Htold'].
Qed.
End service_lemmas.

(** ** Epochs do not depend on the order a schema is written in *)

Section hashing.
Context (sha256 quote : string -> string) (primitive : value -> string).
Notation written := (canonical quote primitive).

Definition member_ (m : string * value) : option (string * string) :=
  let '(k, v) := m in match v with VUndefined => None | _ => Some (k, written v) end.

Lemma canonical_object fields :
  written (VObject fields) = "{" +:+ join "," ((fun '(k, s) => member quote k s) <$> by_names (omap member_ fields)) +:+ "}".
Proof.
  cbn [canonical]. do 5 f_equal. induction fields as [|[k v] fields IH]; [done|]. cbn. rewrite <- IH. by destruct v.
Qed.

Lemma member_names fields : (omap member_ fields).*1 `sublist_of` fields.*1.
Proof.
  induction fields as [|[k v] fields IH]; [constructor|]. rewrite fmap_cons. cbn [omap list_omap member_ fst].
  destruct v; [by apply sublist_cons|..]; by apply sublist_skip.
Qed.

Lemma canonical_any_order v w : rearranged v w -> written v = written w.
Proof.
  induction 1 as [v|fields fields' Hd Hp|before v w after _ IH|before k v w after Hr IH|u v w _ IH1 _ IH2].
  - done.
  - rewrite !canonical_object. unfold by_names. rewrite (sorted_by_names (omap member_ fields) (omap member_ fields')); [done| |].
    + eapply sublist_NoDup; [exact Hd | apply member_names].
    + by rewrite Hp.
  - cbn [canonical]. by rewrite !map_app, !map_cons, IH.
  - rewrite !canonical_object, !omap_app. do 5 f_equal. cbn [omap list_omap member_].
    assert (v = VUndefined <-> w = VUndefined) as Hu.
    { clear -Hr. remember v as v0 eqn:Hv. remember w as w0 eqn:Hw. clear Hv Hw v w. induction Hr as [| | | |? ? ? _ IH1 _ IH2]; [done..|]. by rewrite IH1. }
    destruct (decide (v = VUndefined)) as [->|Hv]; [by rewrite (proj1 Hu eq_refl)|].
    assert (forall v, v <> VUndefined -> match v with VUndefined => None | _ => Some (k, written v) end = Some (k, written v)) as Hd by by intros [].
    rewrite !Hd by tauto. by rewrite IH.
  - congruence.
Qed.

(** An epoch, and a revision, is of what is said and not of the order it is said in. *)
Theorem epoch_of_any_order schema schema' : rearranged schema schema' ->
  epoch sha256 quote primitive schema = epoch sha256 quote primitive schema'.
Proof. intros H. unfold epoch, hash. by rewrite (canonical_any_order _ _ H). Qed.
End hashing.

(** ** Properties *)

(** A secret stays one: where a configuration is taken, everything a schema declares a secret is a reference,
    or absent, and is held as what the variable it names says, and what is written of the configuration, however
    deep, is what was given with every reference in it redacted, whatever the variables say. *)
Theorem secrets_stay_hidden env validate copy schema raw h :
  fit env validate copy schema raw = Ok h ->
  to_json h = redacted (copy raw) /\
  forall s v g, part schema (copy raw) h s v g -> secret s = true ->
    v = VUndefined \/
    exists r name text, v = VString r /\ reference r = Some name /\ env (PREFIX +:+ "_" +:+ name) = Some text /\ g = Secret text.
Proof.
  unfold fit. cbn zeta. intros Hf. apply then_Ok in Hf as [_ Hf]. apply then_Ok in Hf as [Ha Hs]. split; [by eapply substituted_written|].
  intros s v g Hp Hsec. by eapply part_secret.
Qed.

(** A process asks until it is served: whatever it asked for, was answered and was refused so far, what is
    waited for is with the service, or is asked for next, at once or no sooner and no later than the bounds of
    the backoff, with all that is waited for then; and where the service answers with a configuration that is
    taken, everyone waiting for it is told of it then. *)
Theorem asked_until_told o es s k e :
  0 <= base o <= max_ o -> reached o es s -> get_ k (pending (the_client s)) = Some e ->
  match out s with
  | Some batch =>
      (k ∈ batch \/ fresh (the_client s) = true) /\ (forall answer, is_Some (happen o (Answers answer) s)) /\
      (forall pre f post v s', fetched_key f = k -> k ∉ fetched_key <$> pre -> judged (Some e) f = Take v ->
        happen o (Answers (Some (pre ++ f :: post))) s = Some s' ->
        (forall who, who ∈ waiters e -> (who, v) ∈ told s') /\ get_ k (pending (the_client s')) = None)
  | None =>
      exists delay s', timer (the_client s) = Some delay /\ (delay = 0 \/ base o <= delay <= max_ o) /\
        happen o Fires s = Some s' /\ out s' = Some (fst <$> pending (the_client s)) /\ get_ k (pending (the_client s')) = Some e
  end.
Proof.
  intros Hb Hr He. destruct (reached_sound o es s Hb Hr) as [Hkeys Hasked Hout Hround Htimer].
  assert (k ∈ fst <$> pending (the_client s)) as Hk by (apply get_in; by eexists).
  destruct (out s) as [batch|] eqn:Ho.
  - destruct Hout as (Hfl & Htm & Hfr). split_and!.
    + destruct (fresh (the_client s)); [by right | left; by apply Hfr].
    + intros answer. unfold happen. rewrite Ho. destruct (end_ _ _ _ _) as [[? ?] ?]. by eexists.
    + intros pre f post v s' Hf Hpre Hv. unfold happen. rewrite Ho.
      destruct (end_ o batch (Some (pre ++ f :: post)) (the_client s)) as [[t sd] c] eqn:Hend. intros [= <-].
      destruct (end_pending _ _ _ _ _ _ _ Hend) as [Hp ->]. subst k.
      destruct (settle_tells pre f post _ e v Hpre He Hv) as [Hgone Htold]. cbn [told the_client]. rewrite Hp. split; [|done].
      intros who Hw. apply elem_of_app. right. by apply Htold.
  - destruct Hout as (Hfl & Htm). destruct (timer (the_client s)) as [delay|] eqn:Ht.
    + eexists delay, _. split_and!; [done | by apply Htimer | unfold happen; rewrite Ht; reflexivity | done | done].
    + exfalso. apply Htm; [|done]. intros Hnil. rewrite Hnil in Hk. by apply elem_of_nil in Hk.
Qed.

(** Everyone is told once, of what they asked for: those told and those waiting are those that asked, each as
    often as they did; and what one is told was answered for the component and the epoch they asked of, and, of
    deployed defaults, is of the revision that was asked for. *)
Theorem told_what_was_asked o es s :
  0 <= base o <= max_ o -> reached o es s ->
  asked es ≡ₚ (fst <$> told s) ++ waiting (pending (the_client s)) /\
  forall who v, (who, v) ∈ told s -> exists k r first_revision first_asker output f,
    Fetches k r who ∈ es /\ Fetches k first_revision first_asker ∈ es /\ Answers (Some output) ∈ es /\ f ∈ output /\ fetched_key f = k /\
    f_configuration f = Some (configuration v) /\ f_created f = created v /\ f_revision f = v_revision v /\
    (forall expected, first_revision = Some expected -> created v = 0 \/ is_Some (v_revision v) -> v_revision v = Some expected).
Proof.
  intros Hb Hr. split; [by apply (reached_sound o es s Hb Hr)|].
  induction Hr as [|es ev s s' Hr IH Hs]; [by intros ? ? ?%elem_of_nil|]. intros who v Hin.
  assert ((who, v) ∈ told s -> exists k r first_revision first_asker output f,
    Fetches k r who ∈ es ++ [ev] /\ Fetches k first_revision first_asker ∈ es ++ [ev] /\ Answers (Some output) ∈ es ++ [ev] /\ f ∈ output /\ fetched_key f = k /\
    f_configuration f = Some (configuration v) /\ f_created f = created v /\ f_revision f = v_revision v /\
    (forall expected, first_revision = Some expected -> created v = 0 \/ is_Some (v_revision v) -> v_revision v = Some expected)) as Hold.
  { intros Hin'. destruct (IH who v Hin') as (k & r & r1 & w1 & output & f & H1 & H2 & H3 & H4).
    exists k, r, r1, w1, output, f. rewrite !elem_of_app. tauto. }
  unfold happen in Hs. destruct ev as [k' r' who'|k' l|k' l| |answer]; try (injection Hs as <-; by apply Hold).
  - destruct (timer _); [|done]. injection Hs as <-. by apply Hold.
  - destruct (out s) as [batch|]; [|done]. destruct (end_ o batch answer (the_client s)) as [[t sd] c] eqn:He.
    injection Hs as <-. cbn [told] in Hin. apply elem_of_app in Hin as [Hin|Hin]; [by apply Hold|].
    destruct (end_pending _ _ _ _ _ _ _ He) as [_ Ht]. destruct answer as [output|]; [|subst t; by apply elem_of_nil in Hin].
    destruct (reached_sound o es s Hb Hr) as [Hkeys _ _ _ _]. destruct (settle output _) as [[rs t0] ps] eqn:Hs. cbn in Ht. subst t0.
    destruct (settle_spec _ _ _ _ _ Hkeys Hs) as (_ & _ & _ & Hfrom). destruct (Hfrom _ _ Hin) as (f & e & Hf & Hg & Hw & Hj).
    destruct (reached_askers o es s _ e Hr Hg) as ((w1 & H1) & Hall). destruct (Hall who Hw) as (r & Hr').
    destruct (judged_take _ _ _ Hj) as (e' & [= <-] & Hc & Hcr & Hrev & Hd).
    exists (fetched_key f), r, (p_revision e), w1, output, f. split_and!; try done; set_solver.
Qed.

(** C8: A running component follows the service: one of the deployment that was served at its start, and has
    since heard of whatever was created for it - as it was created, or, where another deployment reset it, by
    what it asked of the service again - holds, put in the form of its manifest, exactly what the service
    serves, however the deliveries repeated or crossed. *)
Theorem follows_the_service fitted revision_of entries component epoch known objects start v0 a0 ds :
  own entries component = Some known -> e_epoch known = epoch ->
  StronglySorted (fun a b => CREATED a < CREATED b) objects -> (forall o, o ∈ objects -> 0 < CREATED o) ->
  (forall o, o ∈ objects -> of_it component epoch o -> s_revision o = Some (ours revision_of known) -> s_configuration o = defaults_ known) ->
  (forall o, o ∈ objects -> of_it component epoch o -> is_ok (fitted (served_of known o)) = true) -> is_ok (fitted (defaults_ known)) = true ->
  resolve revision_of entries (take start objects) component (Some epoch) = Some v0 ->
  open_ fitted (Some (ours revision_of known)) v0 = Ok a0 ->
  Forall (delivery_of component epoch objects) ds ->
  (forall o, o ∈ drop start objects -> of_it component epoch o -> exists d, d ∈ ds /\ told_of revision_of known objects d o) ->
  let a := fold_left (fun a d => hear fitted a (delivered revision_of entries objects component epoch d)) ds a0 in
  exists v, resolve revision_of entries objects component (Some epoch) = Some v /\
    fitted (configuration v) = Ok (value_ a) /\ created v = a_created a.
Proof.
  intros Hk He Hs Hpos Hgen Hfit Hdef Hv0 Ha0 Hds Hall a.
  destruct (resolve_tells revision_of entries component epoch known objects Hk He (take start objects) (take_subset objects start))
    as (w & Hw & Htw & Hrw & _ & Hmaxw). assert (w = v0) as -> by congruence.
  unfold open_ in Ha0. apply bind_Ok in Ha0 as (h & Hh & [= <-]).
  assert (true_ fitted revision_of component epoch known objects (mkAspect (Some (ours revision_of known)) h (created v0))) as Ht0.
  { split; [done|]. by exists v0. }
  destruct (hear_all_true fitted revision_of entries component epoch known objects Hk He Hgen Hfit Hdef ds _ Ht0 Hds) as ((_ & v' & Htv' & Hcv' & Hfv') & Hle & Htold).
  fold a in Htv', Hcv', Hfv', Hle, Htold. cbn [a_created] in Hle.
  destruct (resolve_tells revision_of entries component epoch known objects Hk He objects ltac:(done)) as (v & Hv & Htv & _ & Hnon & Hmax).
  exists v. assert (created v = created v') as Hcv.
  { apply Z.le_antisymm.
    - rewrite Hcv'. destruct Htv as [[-> _]|(o & Ho & Hof & <- & _)].
      + destruct Htv' as [[Hz _]|(o & Ho & _ & Hz & _)]; [lia | specialize (Hpos o Ho); lia].
      + rewrite <- (take_drop start objects) in Ho. apply elem_of_app in Ho as [Ho|Ho]; [specialize (Hmaxw o Ho Hof); lia|].
        destruct (Hall o Ho Hof) as (d & Hd & Hto). eapply Htold; [done | | done | done].
        rewrite <- (take_drop start objects). apply elem_of_app. by right.
    - destruct Htv' as [[-> _]|(o & Ho & Hof & <- & _)]; [|by apply Hmax].
      apply Hnon. intros o Ho. specialize (Hpos o Ho). lia. }
  split_and!; [done | | congruence].
  by rewrite (tells_once component epoch known objects Hs Hpos v v' Htv Htv' Hcv).
Qed.

(** A client that was closed while a round was with the service plans the next one all the same, as long as
    anything is waited for, and with nothing left to stop it. *)
Theorem closed_client_asks_on o batch c :
  flushing c = true -> timer c = None -> pending c <> [] ->
  let c' := (end_ o batch None (close c)).2 in
  timer c' <> None /\ fst (begin_ c') = fst <$> pending c.
Proof.
  intros Hf Ht Hp. destruct (end_ o batch None (close c)) as [[t s] c'] eqn:He. cbn [snd].
  destruct (end_pending _ _ _ _ _ _ _ He) as [Hpc _]. cbn in Hpc. rewrite <- Hpc. split; [|done].
  revert He. unfold end_.
  destruct (report o batch [] _) as [s0 c0] eqn:Hr. intros [= _ _ <-].
  pose proof (report_keeps o batch [] (mkClient (pending (close c)) (listeners (close c)) (refusals (close c)) (timer (close c)) false (fresh (close c)) (round (close c)))) as H.
  rewrite Hr in H. cbn [snd] in H. destruct H as (Hp0 & _ & Ht0 & Hf0 & _). cbn in Hp0, Ht0, Hf0.
  rewrite bool_decide_eq_false_2 by congruence. assert (forall d, timer (schedule d c0) <> None) as Hs.
  { intros d. unfold schedule. by rewrite Hf0, Ht0. }
  destruct (fresh c0); apply Hs.
Qed.

(** ** A component that is greeted, at which the theorems are applied *)

Module Greetings.
Definition schema : value :=
  VObject [("type", VString "object"); ("properties", VObject [
    ("greeting", VObject [("type", VString "string")]);
    ("token", VObject [("type", VString "string"); ("format", VString "secret")])])].

Definition greets (s : string) : value := VObject [("greeting", VString s)].

Definition known : Entry := mkEntry "e1" schema (Some (greets "hello")).
Definition entries : list (string * Entry) := [("pots.pot", known)].
Definition revision_of (d : option value) : string := match d with Some v => "r1" | None => "r0" end.
Definition env (name : string) : option string := if bool_decide (name = "TOA_CONFIGURATION__KEY") then Some "swordfish" else None.
Definition fitted (v : value) : result string held := fit env (fun _ _ => None) (fun v => v) schema v.

Definition k : key := ("pots.pot", "e1").

Lemma secrets_stay_hidden_witness :
  to_json (HObject [("greeting", Shown (VString "hello")); ("token", Secret "swordfish")]) =
    VObject [("greeting", VString "hello"); ("token", VString REDACTED)].
Proof.
  refine (proj1 (secrets_stay_hidden env (fun _ _ => None) (fun v => v) schema
    (VObject [("greeting", VString "hello"); ("token", VString "$KEY")]) (HObject [("greeting", Shown (VString "hello")); ("token", Secret "swordfish")]) _)).
  vm_compute. reflexivity.
Defined.

(** a string that is given where a secret is declared is refused *)
Example plain_refused : fitted (VObject [("token", VString "swordfish")]) = Throw "'token' is a secret and must be given as a $NAME reference.".
Proof. vm_compute. reflexivity. Qed.

(** What is a string by its schema, and no secret, is held as one where it reads as a reference. *)
Theorem undeclared_is_substituted :
  secret (default VUndefined (nested schema "greeting")) = false /\
  fitted (greets "$KEY") = Ok (HObject [("greeting", Secret "swordfish")]) /\
  fitted (greets "$PRICE") = Throw "TOA_CONFIGURATION__PRICE is not set.".
Proof. vm_compute. done. Qed.

Definition first : Stored := mkStored "pots.pot" "e1" (greets "hi") None "me" 10.
Definition second : Stored := mkStored "pots.pot" "e1" (greets "hello") (Some "r1") "me" 20.
Definition third : Stored := mkStored "pots.pot" "e1" (greets "bonjour") (Some "r2") "me" 30.
Definition objects : list Stored := [first; second; third].

Lemma follows_the_service_witness :
  exists v, resolve revision_of entries objects "pots.pot" (Some "e1") = Some v /\ created v = 30 /\
    fitted (configuration v) = Ok (HObject [("greeting", Shown (VString "hello"))]).
Proof.
  destruct (follows_the_service fitted revision_of entries "pots.pot" "e1" known objects 0
    (mkValue (greets "hello") 0 (Some "r1")) (mkAspect (Some "r1") (HObject [("greeting", Shown (VString "hello"))]) 0)
    [Event second; Event third; Event first; Answer 3; Event second]) as (v & Hv & Hf & Hc).
  - reflexivity.
  - reflexivity.
  - repeat constructor.
  - intros o Ho. repeat (apply elem_of_cons in Ho as [->|Ho]; [reflexivity|]). by apply elem_of_nil in Ho.
  - intros o Ho _ Hr. repeat (apply elem_of_cons in Ho as [->|Ho]; [try reflexivity; vm_compute in Hr; discriminate Hr|]). by apply elem_of_nil in Ho.
  - intros o Ho _. repeat (apply elem_of_cons in Ho as [->|Ho]; [reflexivity|]). by apply elem_of_nil in Ho.
  - reflexivity.
  - reflexivity.
  - reflexivity.
  - repeat constructor; by repeat (first [left | right]).
  - intros o Ho _. exists (Answer 3). split; [by do 3 right; left | exact Ho].
  - exists v. split; [exact Hv|]. split; [vm_compute in Hc; exact Hc | vm_compute in Hf |- *; exact Hf].
Defined.

(** asked, answered by another deployment, and by this one *)
Definition other : Fetched := mkFetched "pots.pot" "e1" (Some (greets "salut")) 0 (Some "r2").
Definition own_ : Fetched := fetch_one revision_of entries [] k.

Definition asking : list event := [Fetches k (Some "r1") 7; Fires; Answers (Some [other])].

Definition after (es : list event) : option running :=
  fold_left (fun s e => s ≫= happen DEFAULTS e) es (Some (mkRunning client None [])).

Lemma after_reached es s : after es = Some s -> reached DEFAULTS es s.
Proof.
  revert s. induction es as [|e es IH] using rev_ind; intros s.
  - intros [= <-]. constructor.
  - unfold after. rewrite fold_left_app. cbn [fold_left]. fold (after es). destruct (after es) as [s0|]; [|done].
    intros Hs. eapply reached_event; [by apply IH | exact Hs].
Qed.

Lemma asked_until_told_witness :
  match after asking with
  | Some s => exists delay, timer (the_client s) = Some delay /\ 1000 <= delay <= 10000
  | None => False
  end.
Proof.
  destruct (after asking) as [s|] eqn:Hs; [|discriminate Hs].
  pose proof (asked_until_told DEFAULTS asking s k (mkPending (Some "r1") [7%nat]) ltac:(cbn; lia) (after_reached _ _ Hs)) as H.
  vm_compute in Hs. injection Hs as <-. specialize (H eq_refl). destruct H as (delay & _ & Ht & Hd & _).
  exists delay. split; [exact Ht|]. destruct Hd as [->|Hd]; [discriminate Ht | exact Hd].
Defined.

Lemma told_what_was_asked_witness :
  match after (asking ++ [Fires; Answers (Some [own_])]) with
  | Some s => told s = [(7%nat, mkValue (greets "hello") 0 (Some "r1"))] /\ asked (asking ++ [Fires; Answers (Some [own_])]) ≡ₚ [7%nat]
  | None => False
  end.
Proof.
  destruct (after (asking ++ [Fires; Answers (Some [own_])])) as [s|] eqn:Hs; [|discriminate Hs].
  destruct (told_what_was_asked DEFAULTS _ s ltac:(cbn; lia) (after_reached _ _ Hs)) as [Ha _].
  vm_compute in Hs. injection Hs as <-. split; [reflexivity | exact Ha].
Defined.

Lemma closed_client_asks_on_witness :
  let c := (begin_ (fetch k None 7 client)).2 in
  timer (close c) = None /\ timer ((end_ DEFAULTS [k] None (close c)).2) <> None.
Proof. split; [reflexivity|]. refine (proj1 (closed_client_asks_on DEFAULTS [k] _ _ _ _)); [reflexivity | reflexivity | discriminate]. Defined.

(** What is created after the service answered and before the answer arrives is told to nobody: the component
    subscribes once it holds the answer, and holds it until the next is created. *)
Theorem created_meanwhile_is_lost :
  let asked_ := after [Fetches k (Some "r1") 7; Fires] in
  let answered := fetch_one revision_of entries [] k in
  match asked_, asked_ ≫= happen DEFAULTS (Answers (Some [answered])) with
  | Some before, Some s =>
      deliver first (the_client before) = [] /\ told s = [(7%nat, mkValue (greets "hello") 0 (Some "r1"))] /\
      pending (the_client s) = [] /\ configuration <$> resolve revision_of entries [first] "pots.pot" (Some "e1") = Some (greets "hi")
  | _, _ => False
  end.
Proof. vm_compute. done. Qed.
End Greetings.
