(* ===== verification/Realtime.v ===== *)
(** * Realtime

    [extensions/exposition/source/directives/realtime/], [realtime/] and the routes of
    [definitions/source/extensions.exposition/realtime/]: the events routed to a key, written to a stream of it
    that is read, and what each reader of the key is sent: everything since it came, or since the token it comes
    back with, in the order it was written and once, whatever the channel it is told of lost meanwhile. *)
From stdpp Require Import strings sorting.
From S2P Require Import Prelude Procedures.

Open Scope Z_scope.

Notation Fields := (list (string * value)) (only parsing).

(** ** Routes ([routes.ts]) *)

Definition literal (key : string) : bool := match key with String "~" _ => true | _ => false end.

Record Route := mkRoute { r_event : string; r_properties : list string; r_literals : list string; r_expose : list string }.

(** an event, its keys and what is exposed of it *)
Definition parse (declaration : list (string * (list string * list string))) : list Route :=
  (fun '(event, (keys, expose)) =>
     mkRoute event (filter (fun k => literal k = false) keys) (filter (fun k => literal k = true) keys) expose) <$> declaration.

(** ** What a component writes ([Destination.ts]) *)

Record Routed := mkRouted { event_ : string; keys_ : list string; data_ : value }.

(** the values a property holds, as keys *)
Definition values_of (v : option value) : list string :=
  omap (fun v => match v with VString s => Some s | _ => None end) match v with Some (VArray vs) => vs | Some v => [v] | None => [] end.

(** a set, in the order it is added to *)
Definition keysOf (payload : Fields) (route : Route) : list string :=
  foldl (fun keys k => add k keys) []
    ((property ← r_properties route; filter (fun k => literal k = false) (values_of (own payload property))) ++ r_literals route).

Definition fit (payload : Fields) (expose : list string) : value := VObject (filter (fun p => fst p ∈ expose) payload).

(** [route]: what a route makes of the payload an event was rendered with, if it was *)
Definition route (component : string) (r : Route) (raised : option Fields) : option Routed :=
  match raised with
  | None => None
  | Some payload =>
      let keys := keysOf payload r in
      if bool_decide (keys = []) then None else Some (mkRouted (component +:+ "." +:+ r_event r) keys (fit payload (r_expose r)))
  end.

Definition renders (routes : list Route) : list string := foldl (fun es e => add e es) [] (r_event <$> routes).

(** [rendering] is the component's own, of an event of the row *)
Definition export (component : string) (routes : list Route) (render : string -> option Fields) : option (list Routed) :=
  let events := omap (fun r => route component r (render (r_event r))) routes in
  if bool_decide (events = []) then None else Some events.

(** [routed], of what another region sent *)
Definition routed (v : value) : option Routed :=
  match v with
  | VObject fields =>
      match own fields "event", own fields "keys" with
      | Some (VString e), Some (VArray ks) =>
          ks ← mapM (fun k => match k with VString s => Some s | _ => None end) ks;
          Some (mkRouted e ks (default VUndefined (own fields "data")))
      | _, _ => None
      end
  | _ => None
  end.

(** [import]: what is written, or nothing of what no export is *)
Definition import_ (portable : value) : list Routed :=
  match portable with VArray vs => default [] (mapM routed vs) | _ => [] end.

(** ** Where a key is kept ([redis.ts]) *)

Definition WORD : Z := 4294967296.

(** [hash ^= code; hash = Math.imul(hash, 0x01000193)], on the bits of a word *)
Definition fnv (hash code : Z) : Z := (Z.lxor hash code * 16777619) mod WORD.

Definition shard (codes : list Z) (n : Z) : Z :=
  if n =? 1 then 0 else (fold_left fnv codes 2166136261) mod n.

Definition prefix (scope : string) : string := scope +:+ ":realtime:".
Definition pushes (scope : string) : string := scope +:+ ":realtime~:".

Definition DEFAULT_EXPIRE : Z := 300.
Definition expire (configured : option Z) : Z := match configured with Some n => if n <=? 0 then DEFAULT_EXPIRE else n | None => DEFAULT_EXPIRE end.

Definition HEARTBEAT : Z := 16000.
Definition renewal (seconds : Z) : Z := Z.min HEARTBEAT (seconds * 1000 / 3).

(** ** A reader ([Stream.ts]) *)

(** [<ms>-<seq>] *)
Notation id := (Z * Z)%type (only parsing).

Definition compare (a b : id) : Z :=
  if negb (fst a =? fst b) then (if fst a <? fst b then -1 else 1)
  else if negb (snd a =? snd b) then (if snd a <? snd b then -1 else 1)
  else 0.

Record Entry := mkEntry { e_id : id; e_event : string; e_data : value }.

(** what is sent: an event that was written, with no id of its own, a token, or one that was pushed *)
Inductive message := Given (e : Entry) | Token (i : id) | Volatile (event : string) (sender : option string) (data : value).

(** [Stream]: where an opening of it stands is what it waits for, and what it read from once it is done *)
Inductive opening := Entered | Marking (marker : id) | Replaying (marker : id) | Replayed (marker : id) (found : list Entry) | Open (from : id).

Record Stream := mkStream {
  token_ : option id;
  opening_ : opening;
  cursor : option id;
  held : option (list Entry);
  sent : list message
}.

Definition stream (token : option id) : Stream := mkStream token Entered None (Some []) [].

Definition send (m : message) (s : Stream) : Stream := mkStream (token_ s) (opening_ s) (cursor s) (held s) (sent s ++ [m]).

Definition write (e : Entry) (s : Stream) : Stream :=
  if match cursor s with Some c => compare (e_id e) c <=? 0 | None => false end then s
  else mkStream (token_ s) (opening_ s) (Some (e_id e)) (held s) (sent s ++ [Given e; Token (e_id e)]).

Definition write_all (es : list Entry) (s : Stream) : Stream := fold_left (fun s e => write e s) es s.

Definition deliver (e : Entry) (s : Stream) : Stream :=
  match held s with
  | Some h => mkStream (token_ s) (opening_ s) (cursor s) (Some (h ++ [e])) (sent s)
  | None => write e s
  end.

Definition ready (entries : list Entry) (s : Stream) : Stream :=
  let h := default [] (held s) in
  write_all h (write_all entries (mkStream (token_ s) (opening_ s) (cursor s) None (sent s))).

(** [full] is that whoever reads has not taken what it was sent *)
Definition volatile (event : string) (sender : option string) (data : value) (full : bool) (s : Stream) : bool * Stream :=
  match held s with
  | Some _ => (false, s)
  | None => if full then (false, s) else (true, send (Volatile event sender data) s)
  end.

Definition at_ (o : opening) (s : Stream) : Stream := mkStream (token_ s) o (cursor s) (held s) (sent s).

(** [open], once what it reads from is known and found *)
Definition opened (from marker : id) (entries : list Entry) (s : Stream) : Stream :=
  let s := ready entries (mkStream (token_ s) (Open from) (Some from) (held s) (sent s)) in
  if bool_decide (entries = []) then send (Token marker) s else s.

(** ** A key: its stream, the channel of it, and the gateway that serves its readers ([Hub.ts]) *)

Inductive recovery := Steady | Behind | Asked (after : option id) | Answered (found : list Entry).

Record world := mkWorld {
  (** what is written under the key, markers among it, while it is *)
  written : list (id * option (string * value));
  exists_ : bool;
  (** what was published and has not arrived *)
  channel : list Entry;
  connected : bool;
  recovering : recovery;
  (** [Key]: the last event delivered here, and the readers, by number *)
  last_ : option id;
  streams : list (nat * Stream)
}.

Definition empty_ : world := mkWorld [] false [] true Steady None [].

Definition after (a b : id) : bool := compare b a >? 0.

(** the events of a stream, after an id or from its beginning: a marker is none *)
Definition entries (w : list (id * option (string * value))) : list Entry :=
  omap (fun '(i, e) => (fun '(event, data) => mkEntry i event data) <$> e) w.

Definition read (from : option id) (w : list (id * option (string * value))) : list Entry :=
  filter (fun e => match from with Some a => after a (e_id e) | None => true end = true) (entries w).

Definition newest (i : id) (w : list (id * option (string * value))) : bool := forallb (fun e => after (fst e) i) w.

Definition each (f : Stream -> Stream) (ss : list (nat * Stream)) : list (nat * Stream) := (fun '(n, s) => (n, f s)) <$> ss.

(** [broadcast], of several in a row *)
Definition broadcast (es : list Entry) (w : world) : world :=
  mkWorld (written w) (exists_ w) (channel w) (connected w) (recovering w)
    (match last es with Some e => Some (e_id e) | None => last_ w end)
    (each (fun s => fold_left (fun s e => deliver e s) es s) (streams w)).

Definition find_ (n : nat) (w : world) : option Stream := snd <$> find (fun p => (fst p =? n)%nat) (streams w).

Definition update (n : nat) (s : Stream) (w : world) : world :=
  mkWorld (written w) (exists_ w) (channel w) (connected w) (recovering w) (last_ w)
    ((fun '(m, s') => if (m =? n)%nat then (m, s) else (m, s')) <$> streams w).

Definition recover_at (r : recovery) (w : world) : world :=
  mkWorld (written w) (exists_ w) (channel w) (connected w) r (last_ w) (streams w).

Definition written_ (ws : list (id * option (string * value))) (ex : bool) (ch : list Entry) (w : world) : world :=
  mkWorld ws ex ch (connected w) (recovering w) (last_ w) (streams w).

Inductive step :=
(** a component appends an event under an id the store gives it ([APPEND]) *)
| Writes (i : id) (event : string) (data : value)
(** the channel tells of one *)
| Receives
(** a reader comes, under a number of its own, with a token or none *)
| Enters (n : nat) (token : option id)
(** the store writes its marker, and answers each in its order *)
| Marks (n : nat) (i : id)
| IsMarked (n : nat)
(** the store reads what was written after the token, and answers it *)
| Reads (n : nat)
| IsRead (n : nat)
| Leaves (n : nat)
(** the subscriber loses its connection, having recovered of a loss before, and is back *)
| Down
| Up
(** what was missed is asked for, read and answered *)
| Asks
| Recovers
| IsRecovered
(** an event pushed by a client, to those of the readers that take it *)
| Pushed (event : string) (sender : option string) (data : value) (full : list nat).

Definition set_last (l : option id) (w : world) : world :=
  mkWorld (written w) (exists_ w) (channel w) (connected w) (recovering w) l (streams w).

Definition act (e : step) (w : world) : option world :=
  match e with
  | Writes i event data =>
      if negb (exists_ w) then Some w
      else if newest i (written w) then
        Some (written_ (written w ++ [(i, Some (event, data))]) true
          (if connected w && negb (bool_decide (streams w = [])) then channel w ++ [mkEntry i event data] else channel w) w)
      else None
  | Receives =>
      match channel w with
      | [] => None
      | e :: ch => Some (broadcast [e] (written_ (written w) (exists_ w) ch w))
      end
  | Enters n token =>
      if bool_decide (n ∈ (fst <$> streams w)) then None
      else if bool_decide (streams w = []) then
        (** the first reader subscribes, and waits for that: what its key's entry was is gone with the last *)
        if connected w then
          Some (mkWorld (written w) (exists_ w) (channel w) true
            (match recovering w with Behind => Behind | _ => Steady end) None [(n, stream token)])
        else None
      else Some (mkWorld (written w) (exists_ w) (channel w) (connected w) (recovering w) (last_ w) (streams w ++ [(n, stream token)]))
  | Marks n i =>
      s ← find_ n w;
      match opening_ s with
      | Entered => if newest i (written w) then Some (update n (at_ (Marking i) s) (written_ (written w ++ [(i, None)]) true (channel w) w)) else None
      | _ => None
      end
  | IsMarked n =>
      s ← find_ n w;
      match opening_ s with
      | Marking i =>
          if existsb (fun p => match opening_ (snd p) with Marking j => after j i | _ => false end) (streams w) then None else
          let w := set_last (match last_ w with Some l => Some l | None => Some i end) w in
          Some (update n (match token_ s with Some _ => at_ (Replaying i) s | None => opened i i [] s end) w)
      | _ => None
      end
  | Reads n =>
      s ← find_ n w;
      match opening_ s, token_ s with
      | Replaying i, Some t => Some (update n (at_ (Replayed i (read (Some t) (written w))) s) w)
      | _, _ => None
      end
  | IsRead n =>
      s ← find_ n w;
      match opening_ s, token_ s with
      | Replayed i found, Some t => Some (update n (opened t i found s) w)
      | _, _ => None
      end
  | Leaves n =>
      s ← find_ n w;
      Some (mkWorld (written w) (exists_ w) (channel w) (connected w) (recovering w) (last_ w)
        (filter (fun p => fst p <> n) (streams w)))
  | Down => match recovering w with Steady => Some (mkWorld (written w) (exists_ w) [] false Steady (last_ w) (streams w)) | _ => None end
  | Up => if connected w then None else Some (mkWorld (written w) (exists_ w) [] true (if bool_decide (streams w = []) then Steady else Behind) (last_ w) (streams w))
  | Asks => match recovering w with Behind => Some (recover_at (if bool_decide (streams w = []) then Steady else Asked (last_ w)) w) | _ => None end
  | Recovers => match recovering w with Asked a => Some (recover_at (Answered (read a (written w))) w) | _ => None end
  | IsRecovered => match recovering w with Answered found => Some (broadcast found (recover_at Steady w)) | _ => None end
  | Pushed event sender data full =>
      Some (mkWorld (written w) (exists_ w) (channel w) (connected w) (recovering w) (last_ w)
        ((fun '(n, s) => (n, (volatile event sender data (bool_decide (n ∈ full)) s).2)) <$> streams w))
  end.

(** ** The order of ids *)

Definition lt_ (a b : id) : Prop := fst a < fst b \/ (fst a = fst b /\ snd a < snd b).

Lemma after_spec a b : after a b = true <-> lt_ a b.
Proof.
  unfold after, compare, lt_. destruct a as [a1 a2], b as [b1 b2]. cbn.
  destruct (Z.eqb_spec b1 a1), (Z.eqb_spec b2 a2), (Z.ltb_spec b1 a1), (Z.ltb_spec b2 a2); cbn; lia.
Qed.

Lemma after_false a b : after a b = false <-> ~ lt_ a b.
Proof. rewrite <- after_spec. destruct (after a b); split; congruence. Qed.

Lemma compare_le a b : (compare a b <=? 0) = negb (after b a).
Proof. unfold after. destruct (compare a b >? 0) eqn:H; rewrite Z.gtb_ltb in H; [apply Z.ltb_lt in H | apply Z.ltb_ge in H]; cbn; lia. Qed.

Lemma lt_trans a b c : lt_ a b -> lt_ b c -> lt_ a c.
Proof. unfold lt_. lia. Qed.

Lemma not_lt_trans a b c : ~ lt_ a b -> lt_ a c -> lt_ b c.
Proof. unfold lt_. lia. Qed.

Lemma lt_irrefl a : ~ lt_ a a.
Proof. unfold lt_. lia. Qed.

Lemma lt_total a b : lt_ a b \/ a = b \/ lt_ b a.
Proof. unfold lt_. destruct a as [a1 a2], b as [b1 b2]. cbn. assert (a1 = b1 /\ a2 = b2 \/ a1 <> b1 \/ a2 <> b2) as [[-> ->]|H] by lia; [auto|lia]. Qed.

(** events in the order of their ids *)
Definition ordered (l : list Entry) : Prop := StronglySorted (fun a b => lt_ (e_id a) (e_id b)) l.

Lemma entries_ordered_app l k : ordered (l ++ k) <-> ordered l /\ ordered k /\ (forall a b, a ∈ l -> b ∈ k -> lt_ (e_id a) (e_id b)).
Proof. unfold ordered. rewrite StronglySorted_app. tauto. Qed.

Lemma ordered_same l a b : ordered l -> a ∈ l -> b ∈ l -> e_id a = e_id b -> a = b.
Proof.
  induction 1 as [|x l Hl IH Hx]; [by intros ?%elem_of_nil|]. rewrite Forall_forall in Hx.
  intros [-> |Ha]%elem_of_cons [-> |Hb]%elem_of_cons He; [done | | | by apply IH].
  - specialize (Hx b Hb). rewrite He in Hx. by apply lt_irrefl in Hx.
  - specialize (Hx a Ha). rewrite <- He in Hx. by apply lt_irrefl in Hx.
Qed.

(** what of a stream is between two ids, the second with it *)
Definition between (a b : id) (l : list Entry) : list Entry := filter (fun e => after a (e_id e) && negb (after b (e_id e)) = true) l.

Lemma elem_of_between a b l e : e ∈ between a b l <-> e ∈ l /\ lt_ a (e_id e) /\ ~ lt_ b (e_id e).
Proof.
  unfold between. rewrite list_elem_of_filter, andb_true_iff, negb_true_iff, after_spec, after_false. tauto.
Qed.

Lemma between_nothing a l : between a a l = [].
Proof.
  apply list_filter_none. intros e _ [H1%after_spec H2%negb_true_iff%after_false]%andb_true_iff. done.
Qed.

(** ** Any run *)

Fixpoint run (ss : list step) (w : world) : option world :=
  match ss with [] => Some w | s :: ss => act s w ≫= run ss end.

(** the events a reader was given, in their order *)
Definition given (s : Stream) : list Entry := omap (fun m => match m with Given e => Some e | _ => None end) (sent s).

(** what a reader was given so far is in order, up to its cursor *)
Record sound (s : Stream) : Prop := {
  in_order : ordered (given s);
  within : forall e, e ∈ given s -> exists c, cursor s = Some c /\ ~ lt_ c (e_id e);
  beyond : forall from, opening_ s = Open from -> (exists c, cursor s = Some c /\ ~ lt_ c from) /\ forall e, e ∈ given s -> lt_ from (e_id e);
  idle : (forall from, opening_ s <> Open from) -> given s = []
}.

Lemma given_write e s : given (write e s) =
  if match cursor s with Some c => negb (after c (e_id e)) | None => false end then given s else given s ++ [e].
Proof.
  unfold write. destruct (cursor s) as [c|]; [rewrite compare_le; destruct (after c (e_id e)); cbn [negb]|]; [ | done | ];
    unfold given; cbn; rewrite omap_app; done.
Qed.

Lemma cursor_write e s : cursor (write e s) =
  if match cursor s with Some c => negb (after c (e_id e)) | None => false end then cursor s else Some (e_id e).
Proof. unfold write. destruct (cursor s) as [c|] eqn:H; [rewrite compare_le; destruct (after c (e_id e))|]; cbn; done. Qed.

Lemma rest_of_write e s : token_ (write e s) = token_ s /\ opening_ (write e s) = opening_ s /\ held (write e s) = held s.
Proof. unfold write. by destruct (match cursor s with Some _ => _ | None => _ end). Qed.

Lemma rest_of_write_all es s : token_ (write_all es s) = token_ s /\ opening_ (write_all es s) = opening_ s /\ held (write_all es s) = held s.
Proof.
  revert s. induction es as [|e es IH]; intros s; [done|]. unfold write_all in *. cbn. destruct (IH (write e s)) as (-> & -> & ->). apply rest_of_write.
Qed.

Lemma not_lt_le a b c : ~ lt_ a b -> ~ lt_ b c -> ~ lt_ a c.
Proof. unfold lt_. lia. Qed.

Lemma lt_not_le a b c : ~ lt_ b a -> lt_ b c -> lt_ a c.
Proof. unfold lt_. lia. Qed.

Lemma lt_asym a b : lt_ a b -> ~ lt_ b a.
Proof. unfold lt_. lia. Qed.

Lemma sound_write e s from : opening_ s = Open from -> sound s -> sound (write e s).
Proof.
  intros Ho [H1 H2 H3 _]. destruct (H3 from Ho) as [(c & Hc & Hfrom) Hb]. destruct (rest_of_write e s) as (_ & Hr & _).
  pose proof (given_write e s) as Hg. pose proof (cursor_write e s) as Hk. rewrite Hc in Hg, Hk.
  destruct (after c (e_id e)) eqn:Ha; cbn in Hg, Hk.
  - apply after_spec in Ha. split; rewrite ?Hg, ?Hk, ?Hr.
    + apply entries_ordered_app. split_and!; [done | repeat constructor|]. intros a b Hain ->%list_elem_of_singleton.
      destruct (H2 a Hain) as (c' & Hc' & ?). rewrite Hc in Hc'. injection Hc' as <-. by eapply lt_not_le.
    + intros x [Hx| ->%list_elem_of_singleton]%elem_of_app; eexists; (split; [done|]).
      * destruct (H2 x Hx) as (c' & Hc' & ?). rewrite Hc in Hc'. injection Hc' as <-. by eapply not_lt_le; [apply lt_asym|].
      * apply lt_irrefl.
    + intros f Hf. rewrite Ho in Hf. injection Hf as <-. pose proof (lt_not_le _ _ _ Hfrom Ha) as Hl. split.
      * eexists. split; [done|]. by apply lt_asym.
      * intros x [Hx| ->%list_elem_of_singleton]%elem_of_app; auto.
    + intros Hn. by destruct (Hn from).
  - split; rewrite ?Hg, ?Hk, ?Hr; [done | by rewrite <- Hc | | intros Hn; by destruct (Hn from)].
    intros f Hf. rewrite Ho in Hf. injection Hf as <-. split; [by exists c | done].
Qed.

Lemma sound_write_all es s from : opening_ s = Open from -> sound s -> sound (write_all es s).
Proof.
  revert s. induction es as [|e es IH]; intros s Ho Hs; [done|]. unfold write_all in *. cbn. apply IH; [|by eapply sound_write].
  destruct (rest_of_write e s) as (_ & -> & _). done.
Qed.

(** what moves nothing of what was given *)
Lemma sound_same s s' : given s' = given s -> cursor s' = cursor s ->
  (opening_ s' = opening_ s \/ (forall from, opening_ s <> Open from) /\ forall from, opening_ s' <> Open from) -> sound s -> sound s'.
Proof.
  intros Hg Hc Ho [H1 H2 H3 H4]. split; rewrite ?Hg, ?Hc; auto.
  - intros from Hf. apply H3. destruct Ho as [Ho|[_ Ho]]; [by rewrite <- Ho | by destruct (Ho from)].
  - intros Hn. apply H4. destruct Ho as [Ho|[Ho _]]; [by rewrite <- Ho | done].
Qed.

Lemma given_send m s : (forall e, m <> Given e) -> given (send m s) = given s.
Proof. intros H. unfold given, send. cbn. rewrite omap_app. destruct m; [by destruct (H e)| |]; cbn; apply app_nil_r. Qed.

Lemma sound_deliver e s : (held s = None -> exists from, opening_ s = Open from) -> sound s -> sound (deliver e s).
Proof.
  intros Hh Hs. unfold deliver. destruct (held s) eqn:E.
  - by eapply sound_same; [..|done]; [done | done | left].
  - destruct (Hh eq_refl) as [from Ho]. by eapply sound_write.
Qed.

Lemma sound_opened from m es s : (forall f, opening_ s <> Open f) -> sound s -> sound (opened from m es s).
Proof.
  intros Hn Hs. pose proof (idle _ Hs Hn) as Hg. unfold opened, ready. cbn [held token_ opening_ cursor sent].
  set (s0 := mkStream (token_ s) (Open from) (Some from) None (sent s)).
  assert (H0 : sound s0).
  { assert (Hg0 : given s0 = []) by exact Hg. split; rewrite ?Hg0; [repeat constructor | by intros ? ?%elem_of_nil | | done].
    intros f Hf. injection Hf as <-. split; [exists from; split; [done | apply lt_irrefl] | by intros ? ?%elem_of_nil]. }
  set (s1 := write_all (default [] (held s)) (write_all es s0)).
  assert (H1 : sound s1).
  { apply (sound_write_all _ _ from); [|by apply (sound_write_all _ _ from)]. by destruct (rest_of_write_all es s0) as (_ & -> & _). }
  destruct (bool_decide (es = [])); [|done]. by eapply sound_same; [apply given_send | | left |]. 
Qed.

(** a reader of the world is sound, and holds nothing back once it is open *)
Definition opens (s : Stream) : Prop := held s = None <-> exists from, opening_ s = Open from.
Definition well (w : world) : Prop := Forall (fun p => sound (snd p) /\ opens (snd p)) (streams w).

Lemma find_elem n w s : find_ n w = Some s -> (n, s) ∈ streams w.
Proof.
  unfold find_. destruct (find _ _) as [[m s']|] eqn:H; [|done]. apply List.find_some in H as [Hin Hm%Nat.eqb_eq]. cbn in *.
  intros [= ->]. subst m. by apply list_elem_of_In.
Qed.

Lemma well_find n w s : well w -> find_ n w = Some s -> sound s /\ opens s.
Proof. intros Hw Hf%find_elem. unfold well in Hw. rewrite Forall_forall in Hw. by apply (Hw _ Hf). Qed.

Lemma well_update n s w : sound s -> opens s -> well w -> well (update n s w).
Proof.
  intros H1 H2 Hw. unfold well, update in *. cbn. rewrite Forall_fmap. eapply Forall_impl; [exact Hw|]. intros [m s'] Hs'. cbn in *.
  by destruct (m =? n)%nat.
Qed.

Lemma well_each f w w' : streams w' = each f (streams w) -> (forall s, sound s -> opens s -> sound (f s) /\ opens (f s)) -> well w -> well w'.
Proof.
  intros He Hf Hw. unfold well in *. rewrite He. unfold each. rewrite Forall_fmap. eapply Forall_impl; [exact Hw|].
  intros [m s] [? ?]. cbn in *. by apply Hf.
Qed.

Lemma opens_deliver e s : opens s -> opens (deliver e s).
Proof.
  unfold deliver, opens. destruct (held s) eqn:E; cbn.
  - intros H. split; [done|]. intros Ho. by apply H in Ho.
  - by destruct (rest_of_write e s) as (_ & -> & ->); rewrite E.
Qed.

Lemma well_streams w w' : streams w' = streams w -> well w -> well w'.
Proof. unfold well. by intros ->. Qed.

Lemma sound_at o s : (forall f, opening_ s <> Open f) -> (forall f, o <> Open f) -> sound s -> sound (at_ o s).
Proof. intros H1 H2 Hs. by eapply sound_same; [..|done]; [| |right]. Qed.

Lemma opens_at o s : (forall f, opening_ s <> Open f) -> (forall f, o <> Open f) -> opens s -> opens (at_ o s).
Proof.
  intros H1 H2 Hs. unfold opens in *. cbn. split; [intros H%Hs; destruct H as [f Hf]; by destruct (H1 f) | intros [f Hf]; by destruct (H2 f)].
Qed.

Lemma opens_opened from m es s : opens (opened from m es s).
Proof.
  unfold opened, ready. cbn [held token_ opening_ cursor sent]. set (s0 := mkStream (token_ s) (Open from) (Some from) None (sent s)).
  assert (H : forall s', held s' = None -> opening_ s' = Open from -> opens s') by (intros ? H1 H2; split; eauto).
  destruct (rest_of_write_all (default [] (held s)) (write_all es s0)) as (_ & H1 & H2).
  destruct (rest_of_write_all es s0) as (_ & H3 & H4).
  destruct (bool_decide (es = [])); apply H; cbn; by rewrite ?H1, ?H2, ?H3, ?H4.
Qed.

Lemma well_broadcast es w : well w -> well (broadcast es w).
Proof.
  intros Hw. eapply well_each; [reflexivity| |exact Hw]. induction es as [|e es IH]; intros s Hs Ho; [done|]. cbn.
  apply IH; [|by apply opens_deliver]. apply sound_deliver; [|done]. by intros Hh%Ho.
Qed.

#[local] Arguments opened : simpl never.

(** the reader a step is about, and where an opening of it stands *)
Ltac reader Ha Hw n w :=
  let s := fresh "s" in let Hf := fresh "Hf" in let E := fresh "E" in
  destruct (find_ n w) as [s|] eqn:Hf; [|done]; cbn in Ha; destruct (well_find _ _ _ Hw Hf) as [Hs Ho];
  destruct (opening_ s) eqn:E; try done.

Lemma well_act e w w' : act e w = Some w' -> well w -> well w'.
Proof.
  intros Ha Hw. destruct e; cbn [act] in Ha.
  - destruct (negb (exists_ w)); [by simplify_eq|]. destruct (newest i (written w)); [|done]. simplify_eq. by eapply well_streams.
  - destruct (channel w); [done|]. simplify_eq. apply well_broadcast. by eapply well_streams.
  - assert (Hn : sound (stream token) /\ opens (stream token)).
    { split; [|unfold opens; cbn; split; [done | by intros []]]. split; [constructor | by intros ? ?%elem_of_nil | done | done]. }
    repeat case_bool_decide; [done | destruct (connected w); [|done] |]; simplify_eq; unfold well; cbn.
    + by constructor.
    + apply Forall_app. split; [exact Hw | by constructor].
  - reader Ha Hw n w. destruct (newest i (written w)); [|done]. simplify_eq.
    apply well_update; [apply sound_at | apply opens_at | by eapply well_streams]; try done; intros f; by rewrite ?E.
  - reader Ha Hw n w. destruct (existsb _ _); [done|]. simplify_eq.
    assert (forall f, opening_ s <> Open f) by (intros f; by rewrite E).
    apply well_update; [case_match | case_match | by eapply well_streams];
      [by apply sound_at | by apply sound_opened | by apply opens_at | apply opens_opened].
  - reader Ha Hw n w. destruct (token_ s); [|done]. simplify_eq.
    apply well_update; [apply sound_at | apply opens_at | done]; try done; intros f; by rewrite ?E.
  - reader Ha Hw n w. destruct (token_ s); [|done]. simplify_eq.
    apply well_update; [apply sound_opened; [intros f; by rewrite E | done] | apply opens_opened | done].
  - destruct (find_ n w); [|done]. cbn in Ha. simplify_eq. unfold well. cbn. apply Forall_forall. intros p [_ Hp]%list_elem_of_filter.
    unfold well in Hw. rewrite Forall_forall in Hw. by apply Hw.
  - destruct (recovering w); [|done..]. simplify_eq. by eapply well_streams.
  - destruct (connected w); [done|]. simplify_eq. by eapply well_streams.
  - destruct (recovering w); [done| |done..]. simplify_eq. by eapply well_streams.
  - destruct (recovering w); [done..| |done]. simplify_eq. by eapply well_streams.
  - destruct (recovering w); [done..|]. simplify_eq. apply well_broadcast. by eapply well_streams.
  - simplify_eq. unfold well in *. cbn. rewrite Forall_fmap. eapply Forall_impl; [exact Hw|]. intros [n s] [Hs Ho]. cbn in *.
    unfold volatile. destruct (held s); [done|]. case_bool_decide; [done|]. cbn. split; [|exact Ho].
    by eapply sound_same; [apply given_send| |left|].
Qed.

(** ** A calm run: the channel tells of nothing while what was missed is recovered *)

Definition quiet (s : step) (w : world) : bool :=
  match s, recovering w with Receives, Steady => true | Receives, _ => false | _, _ => true end.

Fixpoint calm (ss : list step) (w : world) : option world :=
  match ss with [] => Some w | s :: ss => if quiet s w then act s w ≫= calm ss else None end.

(** what comes of a list is in it after everything that is before it and after an id *)
Definition gapless (L : list Entry) (c : id) (l : list Entry) : Prop :=
  forall l1 e l2, l = l1 ++ e :: l2 -> forall e', e' ∈ L -> lt_ c (e_id e') -> lt_ (e_id e') (e_id e) -> e' ∈ l1.

(** a cursor, with all between it and where it started given *)
Definition gave (L : list Entry) (from c : id) (s : Stream) : Prop :=
  cursor s = Some c /\ ~ lt_ c from /\ (c = from \/ exists x, x ∈ L /\ e_id x = c) /\ given s = between from c L.

Lemma list_filter_in {A} (P Q : A -> Prop) `{forall x, Decision (P x)} `{forall x, Decision (Q x)} (l : list A) :
  (forall x, x ∈ l -> P x <-> Q x) -> filter P l = filter Q l.
Proof.
  induction l as [|x l IH]; intros H1; [done|]. rewrite !filter_cons, IH by (intros y Hy; apply H1; by right).
  specialize (H1 x ltac:(by left)). destruct (decide (P x)), (decide (Q x)); tauto.
Qed.

Lemma between_next L from c e : ordered L -> e ∈ L -> ~ lt_ c from -> lt_ c (e_id e) ->
  (forall e', e' ∈ L -> lt_ c (e_id e') -> ~ lt_ (e_id e') (e_id e)) -> between from (e_id e) L = between from c L ++ [e].
Proof.
  intros HL (L1 & L2 & ->)%list_elem_of_split Hf Hc Hn. apply entries_ordered_app in HL as (_ & HL2 & H12).
  apply StronglySorted_inv in HL2 as [_ He]. rewrite Forall_forall in He. unfold between. rewrite !filter_app.
  assert (HR : forall k : id, ~ lt_ (e_id e) k -> filter (fun x => after from (e_id x) && negb (after k (e_id x)) = true) L2 = []).
  { intros k Hk. apply list_filter_none. intros x Hx [_ H%negb_true_iff%after_false]%andb_true_iff.
    specialize (He x Hx). apply H. by eapply lt_not_le. }
  rewrite !filter_cons, (HR (e_id e)) by apply lt_irrefl. rewrite (HR c) by (by apply lt_asym).
  rewrite decide_True by (rewrite andb_true_iff, negb_true_iff, after_spec, after_false; split; [by eapply lt_not_le | apply lt_irrefl]).
  rewrite decide_False by (rewrite andb_true_iff, negb_true_iff, after_false; tauto). rewrite app_nil_r. f_equal.
  apply list_filter_in. intros x Hx. specialize (H12 x e Hx ltac:(by left)).
  rewrite !andb_true_iff, !negb_true_iff, !after_false. split; intros [? Hk]; (split; [done|]).
  - intros Hcx. apply (Hn x); [apply elem_of_app; by left | done | done].
  - by apply lt_asym.
Qed.

Lemma gave_write_all L from l s c : ordered L -> gave L from c s -> (forall e, e ∈ l -> e ∈ L) -> gapless L c l ->
  exists c', gave L from c' (write_all l s) /\ ~ lt_ c' c /\ forall e, e ∈ l -> ~ lt_ c' (e_id e).
Proof.
  intros HL. revert s c. induction l as [|e l IH]; intros s c (Hc & Hf & Hw & Hg) Hin Hgap.
  { exists c. split_and!; [done | apply lt_irrefl | by intros ? ?%elem_of_nil]. }
  pose proof (given_write e s) as Hg'. pose proof (cursor_write e s) as Hc'. rewrite Hc in Hg', Hc'.
  destruct (after c (e_id e)) eqn:Ha; cbn in Hg', Hc'; unfold write_all in *; cbn.
  - apply after_spec in Ha. destruct (IH (write e s) (e_id e)) as (c' & H1 & H2 & H3).
    + repeat split; [done | by apply lt_asym, (lt_not_le _ c) | right; exists e; split; [apply Hin; by left | done] |].
      rewrite Hg', Hg. symmetry. apply between_next; [done | apply Hin; by left | done | done |].
      intros e' He' Hl1 Hl2. by apply (Hgap [] e l eq_refl e') in Hl2 as ?%elem_of_nil.
    + intros x Hx. apply Hin. by right.
    + intros l1 x l2 -> e' He' Hl1 Hl2. destruct (elem_of_cons l1 e' e) as [Hd _].
      destruct Hd as [-> |]; [|by apply lt_irrefl in Hl1 | done]. eapply (Hgap (e :: l1)); [done | done | by eapply lt_trans | done].
    + exists c'. split_and!; [done | eapply not_lt_le; [exact H2 | by apply lt_asym] |]. intros x [-> |Hx]%elem_of_cons; auto.
  - apply after_false in Ha. destruct (IH (write e s) c) as (c' & H1 & H2 & H3).
    + repeat split; [by rewrite Hc' | done | done | by rewrite Hg'].
    + intros x Hx. apply Hin. by right.
    + intros l1 x l2 -> e' He' Hl1 Hl2. destruct (elem_of_cons l1 e' e) as [Hd _].
      destruct Hd as [-> |]; [by eapply (Hgap (e :: l1)) | done | done].
    + exists c'. split_and!; [done | done |]. intros x [-> |Hx]%elem_of_cons; [by eapply not_lt_le | auto].
Qed.

(** what is held back: of the stream, with nothing left out that was written after an id, but for what is still to come *)
Definition covers (L : list Entry) (P : Entry -> Prop) (i : id) (h : list Entry) : Prop :=
  (forall e, e ∈ h -> e ∈ L) /\ gapless L i h /\ forall e, e ∈ L -> lt_ i (e_id e) -> e ∈ h \/ P e.

(** what was read after a token: all that was written before a marker *)
Definition found_after (L : list Entry) (t i : id) (found : list Entry) : Prop :=
  (forall e, e ∈ found -> e ∈ L) /\ gapless L t found /\ forall e, e ∈ L -> lt_ t (e_id e) -> lt_ i (e_id e) \/ e ∈ found.

(** a reader of a stream, where [P] is what is still to come *)
Definition tracks (W : list (id * option (string * value))) (P : Entry -> Prop) (s : Stream) : Prop :=
  match opening_ s with
  | Entered => exists h, held s = Some h /\ forall e, e ∈ h -> e ∈ entries W
  | Marking i | Replaying i => exists h, held s = Some h /\ i ∈ W.*1 /\ covers (entries W) P i h
  | Replayed i found =>
      exists h t, held s = Some h /\ token_ s = Some t /\ i ∈ W.*1 /\ covers (entries W) P i h /\ found_after (entries W) t i found
  | Open from =>
      held s = None /\ (forall t, token_ s = Some t -> from = t) /\
      exists c, gave (entries W) from c s /\ forall e, e ∈ entries W -> lt_ c (e_id e) -> P e
  end.

Lemma covers_mono L P Q i h : (forall e, e ∈ L -> lt_ i (e_id e) -> P e -> Q e) -> covers L P i h -> covers L Q i h.
Proof. intros HPQ (H1 & H2 & H3). split_and!; [done..|]. intros e He Hi. destruct (H3 e He Hi); auto. Qed.

Lemma tracks_mono W P Q s : (forall e, e ∈ entries W -> P e -> Q e) -> tracks W P s -> tracks W Q s.
Proof.
  intros HPQ. assert (Hc : forall i h, covers (entries W) P i h -> covers (entries W) Q i h).
  { intros i h. apply covers_mono. auto. }
  unfold tracks. destruct (opening_ s).
  - done.
  - intros (h & ? & ? & ?). exists h. auto.
  - intros (h & ? & ? & ?). exists h. auto.
  - intros (h & t & ? & ? & ? & ? & ?). exists h, t. split_and!; auto.
  - intros (? & ? & c & ? & H). split_and!; [done..|]. exists c. split; [done|]. auto.
Qed.

Lemma covers_snoc L P i h e : ordered L -> e ∈ L -> (forall e', e' ∈ L -> P e' -> ~ lt_ (e_id e') (e_id e)) ->
  covers L P i h -> covers L (fun e' => P e' /\ lt_ (e_id e) (e_id e')) i (h ++ [e]).
Proof.
  intros HL He HP (H1 & H2 & H3). split_and!.
  - intros x [Hx| ->%list_elem_of_singleton]%elem_of_app; auto.
  - intros l1 x l2 Heq e' He' Hi Hx. destruct l2 as [|y l2 _] using rev_ind.
    + apply app_inj_tail in Heq as [-> ->]. destruct (H3 e' He' Hi) as [Hd|Hd]; [done|]. by destruct (HP e' He' Hd).
    + rewrite app_comm_cons, app_assoc in Heq. apply app_inj_tail in Heq as [-> ->]. by eapply H2.
  - intros e' He' Hi. destruct (H3 e' He' Hi) as [Hd|Hd]; [left; apply elem_of_app; by left|].
    destruct (lt_total (e_id e) (e_id e')) as [Hl|[Hl|Hl]]; [by right | | by destruct (HP e' He' Hd)].
    left. apply elem_of_app. right. apply list_elem_of_singleton. by apply (ordered_same L).
Qed.

Lemma tracks_deliver W P s e : ordered (entries W) -> e ∈ entries W -> (forall e', e' ∈ entries W -> P e' -> ~ lt_ (e_id e') (e_id e)) ->
  tracks W P s -> tracks W (fun e' => P e' /\ lt_ (e_id e) (e_id e')) (deliver e s).
Proof.
  intros HW He HP. unfold tracks, deliver. destruct (opening_ s) eqn:Ho.
  - intros (h & -> & H). cbn. rewrite ?Ho. exists (h ++ [e]). split; [done|]. intros x [Hx| ->%list_elem_of_singleton]%elem_of_app; auto.
  - intros (h & -> & Hi & H). cbn. rewrite ?Ho. exists (h ++ [e]). split_and!; [done..|]. by apply covers_snoc.
  - intros (h & -> & Hi & H). cbn. rewrite ?Ho. exists (h ++ [e]). split_and!; [done..|]. by apply covers_snoc.
  - intros (h & t & -> & Ht & Hi & H & Hf). cbn. rewrite ?Ho. exists (h ++ [e]), t. split_and!; [done..| |done]. by apply covers_snoc.
  - intros (Hh & Ht & c & Hg & H). rewrite Hh. destruct (rest_of_write e s) as (Hr1 & Hr2 & Hr3).
    rewrite Hr2, Ho, Hr3, Hr1. split_and!; [done..|].
    destruct (gave_write_all (entries W) from [e] s c) as (c' & Hg' & Hc & Hl); [done | done | by intros x ->%list_elem_of_singleton | |].
    + intros [|x l1] y l2 [= ]; [|by destruct l1]. subst. intros e' He' Hl1 Hl2. by destruct (HP e' He' (H e' He' Hl1)).
    + exists c'. split; [exact Hg'|]. intros e' He' Hlt. specialize (Hl e ltac:(by left)). split.
      * apply H; [done|]. by eapply lt_not_le.
      * by eapply lt_not_le.
Qed.

Lemma tracks_all W P s found : ordered (entries W) -> ordered found -> (forall e, e ∈ found -> e ∈ entries W) ->
  (forall e', e' ∈ entries W -> P e' -> e' ∈ found \/ forall f, f ∈ found -> lt_ (e_id f) (e_id e')) ->
  tracks W P s -> tracks W (fun e' => P e' /\ forall f, f ∈ found -> lt_ (e_id f) (e_id e')) (fold_left (fun s e => deliver e s) found s).
Proof.
  intros HW. revert P s. induction found as [|f found IH]; intros P s Hf Hin HP Hs; cbn.
  { eapply tracks_mono; [|exact Hs]. intros e _ He. split; [done|]. by intros ? ?%elem_of_nil. }
  apply StronglySorted_inv in Hf as [Hf Hall]. rewrite Forall_forall in Hall.
  eapply tracks_mono; [|apply (IH (fun e' => P e' /\ lt_ (e_id f) (e_id e')))].
  - cbn. intros e _ [[? ?] ?]. split; [done|]. intros x [-> |Hx]%elem_of_cons; auto.
  - done.
  - intros e He. apply Hin. by right.
  - intros e' He' [HPe Hlt]. destruct (HP e' He' HPe) as [[-> |Hd]%elem_of_cons|Hd]; [by apply lt_irrefl in Hlt | by left |].
    right. intros x Hx. apply Hd. by right.
  - apply tracks_deliver; [done | apply Hin; by left | | done]. intros e' He' HPe Hlt.
    destruct (HP e' He' HPe) as [[-> |Hd]%elem_of_cons|Hd]; [by apply lt_irrefl in Hlt | |].
    + apply (lt_asym _ _ Hlt). by apply Hall.
    + apply (lt_asym _ _ Hlt). apply Hd. by left.
Qed.

Lemma newest_spec i W : newest i W = true <-> forall j, j ∈ W.*1 -> lt_ j i.
Proof.
  unfold newest. rewrite forallb_forall. split.
  - intros H j (p & -> & Hp)%list_elem_of_fmap. apply after_spec, H. by apply list_elem_of_In.
  - intros H p Hp%list_elem_of_In. apply after_spec, H. apply list_elem_of_fmap. eauto.
Qed.

Lemma elem_of_entries e W : e ∈ entries W <-> (e_id e, Some (e_event e, e_data e)) ∈ W.
Proof.
  unfold entries. rewrite list_elem_of_omap. split.
  - intros ([j [[ev d]|]] & Hin & [= <-]); done.
  - intros Hin. eexists. split; [exact Hin|]. by destruct e.
Qed.

Lemma entries_ids e W : e ∈ entries W -> e_id e ∈ W.*1.
Proof. intros H%elem_of_entries. apply list_elem_of_fmap. eexists. split; [|exact H]. done. Qed.

Section Growth.
Context (W : list (id * option (string * value))) (i : id) (o : option (string * value)) (P Q : Entry -> Prop).
Context (Hi : newest i W = true) (HPQ : forall e, e ∈ entries W -> P e -> Q e).
Context (HQ : forall event data, o = Some (event, data) -> Q (mkEntry i event data)).

Lemma entries_grow e : e ∈ entries (W ++ [(i, o)]) -> e ∈ entries W \/ (e_id e = i /\ Q e).
Proof using HQ.
  intros [H|H%list_elem_of_singleton]%elem_of_entries%elem_of_app; [left; by apply elem_of_entries|].
  right. injection H as H1 H2. split; [done|]. symmetry in H2. specialize (HQ _ _ H2). rewrite <- H1 in HQ. by destruct e.
Qed.

Lemma entries_keep e : e ∈ entries W -> e ∈ entries (W ++ [(i, o)]).
Proof. rewrite !elem_of_entries, elem_of_app. by left. Qed.

Lemma before_new e : e ∈ entries W -> lt_ (e_id e) i.
Proof using Hi. intros H%entries_ids. by apply newest_spec with W. Qed.

Lemma gapless_grow c l : (forall e, e ∈ l -> e ∈ entries W) -> gapless (entries W) c l -> gapless (entries (W ++ [(i, o)])) c l.
Proof using Hi HQ.
  intros Hin H l1 e l2 -> e' [He'|[He' _]]%entries_grow Hc Hl; [by eapply H|].
  rewrite He' in Hl. destruct (lt_asym _ _ Hl). apply before_new, Hin, elem_of_app. right. by left.
Qed.

Lemma covers_grow j h : covers (entries W) P j h -> covers (entries (W ++ [(i, o)])) Q j h.
Proof using Hi HPQ HQ.
  intros (H1 & H2 & H3). split_and!; [intros e He; by apply entries_keep, H1 | by apply gapless_grow |].
  intros e [He|[_ He]]%entries_grow Hj; [|by right]. destruct (H3 e He Hj); auto.
Qed.

Lemma tracks_grow s : tracks W P s -> tracks (W ++ [(i, o)]) Q s.
Proof using Hi HPQ HQ.
  assert (Hids : forall j, j ∈ W.*1 -> j ∈ (W ++ [(i, o)]).*1) by (intros j Hj; rewrite fmap_app; apply elem_of_app; by left).
  unfold tracks. destruct (opening_ s) as [|j|j|j found|from].
  - intros (h & Hh & H). exists h. split; [done|]. intros e He. by apply entries_keep, H.
  - intros (h & Hh & Hj & H). exists h. split_and!; [done | auto | by apply covers_grow].
  - intros (h & Hh & Hj & H). exists h. split_and!; [done | auto | by apply covers_grow].
  - intros (h & t & Hh & Ht & Hj & H & Hf1 & Hf2 & Hf3). exists h, t. split_and!; [done | done | auto | by apply covers_grow |].
    split_and!; [intros e He; by apply entries_keep, Hf1 | by apply gapless_grow |].
    intros e [He|[He _]]%entries_grow Hl; [auto|]. left. rewrite He. by apply (newest_spec i W).
  - intros (Hh & Ht & c & (Hc & Hf & Hw & Hg) & H). split_and!; [done..|]. exists c. split_and!.
    + split_and!; [done | done | destruct Hw as [|(x & ? & ?)]; [by left | right; exists x; split; [by apply entries_keep | done]] |].
      rewrite Hg. unfold between. unfold entries. rewrite omap_app, filter_app. fold (entries W).
      match goal with |- _ = _ ++ ?r => assert (r = []) as ->; [|by rewrite app_nil_r] end.
      apply list_filter_none. intros x Hx [H1%after_spec H2%negb_true_iff%after_false]%andb_true_iff.
      assert (Hxi : e_id x = i) by (destruct o as [[ev d]|]; cbn in Hx; [by apply list_elem_of_singleton in Hx as -> | by apply elem_of_nil in Hx]).
      rewrite Hxi in H1, H2. destruct Hw as [->|(y & Hy & <-)]; [done|]. by apply H2, before_new.
    + intros e [He|[_ He]]%entries_grow Hl; auto.
Qed.

End Growth.

Lemma tracks_opened W P from i found s h : ordered (entries W) -> held s = Some h -> given s = [] -> covers (entries W) P i h ->
  found_after (entries W) from i found -> (forall t, token_ s = Some t -> from = t) -> tracks W P (opened from i found s).
Proof.
  intros HW Hh Hg (Hc1 & Hc2 & Hc3) (Hf1 & Hf2 & Hf3) Ht. unfold opened, ready. cbn [held token_ opening_ cursor sent]. rewrite Hh. change (default [] (Some h)) with h.
  set (s0 := mkStream (token_ s) (Open from) (Some from) None (sent s)).
  assert (H0 : gave (entries W) from from s0).
  { split_and!; [done | apply lt_irrefl | by left |]. by rewrite between_nothing. }
  destruct (gave_write_all _ _ found _ _ HW H0 Hf1 Hf2) as (c1 & H1 & Hl1 & Hin1).
  destruct (gave_write_all _ _ h _ _ HW H1 Hc1) as (c & H2 & Hl2 & Hin2).
  { intros l1 e l2 -> e' He' Hlt Hlt'. destruct (Hf3 e' He') as [Hi|Hi]; [by eapply lt_not_le | by eapply Hc2 | by destruct (Hin1 e' Hi)]. }
  destruct (rest_of_write_all h (write_all found s0)) as (Hr1 & Hr2 & Hr3).
  destruct (rest_of_write_all found s0) as (Hr4 & Hr5 & Hr6). rewrite Hr4 in Hr1. rewrite Hr5 in Hr2. rewrite Hr6 in Hr3.
  assert (HP : forall e, e ∈ entries W -> lt_ c (e_id e) -> P e).
  { intros e He Hlt. destruct (Hf3 e He) as [Hi|Hi].
    - eapply lt_not_le; [|exact Hlt]. eapply not_lt_le; [exact Hl2|]. by destruct H1 as (_ & ? & _).
    - destruct (Hc3 e He Hi) as [Hd|Hd]; [by destruct (Hin2 e Hd) | done].
    - destruct (Hin1 e Hi). by eapply lt_not_le. }
  destruct H2 as (H4 & H5 & H6 & H7).
  unfold tracks. case_bool_decide; cbn [send opening_ held token_]; rewrite Hr1, Hr2, Hr3;
    (split; [done | split; [exact Ht | exists c; split; [|exact HP]]]); [|done].
  split_and!; [done..|]. by rewrite given_send.
Qed.

Lemma gapless_ordered L c l : ordered l -> (forall e, e ∈ L -> lt_ c (e_id e) -> e ∈ l) -> gapless L c l.
Proof.
  intros Hl Hin l1 e l2 -> e' He' Hc Hlt. apply entries_ordered_app in Hl as (_ & Hl & _). apply StronglySorted_inv in Hl as [_ Hall].
  rewrite Forall_forall in Hall. pose proof (Hin e' He' Hc) as [Hd|[-> |Hd]%elem_of_cons]%elem_of_app; [done | by apply lt_irrefl in Hlt |].
  by destruct (lt_asym _ _ Hlt (Hall _ Hd)).
Qed.

Lemma ordered_filter (Q : Entry -> Prop) `{forall x, Decision (Q x)} l : ordered l -> ordered (filter Q l).
Proof.
  induction 1 as [|x l Hl IH Hx]; [constructor|]. rewrite filter_cons. destruct (decide (Q x)); [|done]. constructor; [done|].
  rewrite Forall_forall in *. intros y [_ Hy]%list_elem_of_filter. auto.
Qed.

Lemma elem_of_read e from W : e ∈ read from W <-> e ∈ entries W /\ forall a, from = Some a -> lt_ a (e_id e).
Proof.
  unfold read. rewrite list_elem_of_filter. destruct from as [a|].
  - rewrite after_spec. split; [intros [? ?]; split; [done|]; by intros ? [= <-] | intros [? ?]; auto].
  - split; [by intros [_ ?] | by intros [? _]].
Qed.

Lemma found_read W t i : ordered (entries W) -> found_after (entries W) t i (read (Some t) W).
Proof.
  intros HW. split_and!.
  - by intros e [? _]%elem_of_read.
  - apply gapless_ordered; [by apply ordered_filter|]. intros e He Hl. apply elem_of_read. split; [done|]. by intros ? [= <-].
  - intros e He Hl. right. apply elem_of_read. split; [done|]. by intros ? [= <-].
Qed.

Lemma ordered_entries W : StronglySorted lt_ W.*1 -> ordered (entries W).
Proof.
  induction W as [|[i o] W IH]; [constructor|]. cbn. intros [HW Hi]%StronglySorted_inv. rewrite Forall_forall in Hi.
  destruct o as [[ev d]|]; cbn; [|by apply IH]. constructor; [by apply IH|]. apply Forall_forall. intros e He%entries_ids. auto.
Qed.

(** ** The invariant of a calm run *)

(** of an event that was written and that a reader has not come to: it is still on its way *)
Definition to_come (w : world) (e : Entry) : Prop :=
  (forall l, last_ w = Some l -> lt_ l (e_id e)) /\
  match recovering w with
  | Steady => connected w = true -> e ∈ channel w
  | Behind => True
  | Asked a => forall l, a = Some l -> lt_ l (e_id e)
  | Answered found => e ∈ found \/ (e ∈ channel w /\ forall f, f ∈ found -> lt_ (e_id f) (e_id e))
  end.

Definition recorded (w : world) : Prop :=
  match recovering w with
  | Asked (Some a) => a ∈ (written w).*1
  | Answered found => ordered found /\ forall e, e ∈ found -> e ∈ entries (written w)
  | _ => True
  end.

Definition waits (s : Stream) : Prop := match opening_ s with Entered | Marking _ => True | _ => False end.

Record good (w : world) : Prop := {
  ids_in_order : StronglySorted lt_ (written w).*1;
  queue_in_order : ordered (channel w);
  queue_written : forall e, e ∈ channel w -> e ∈ entries (written w);
  cut_off : connected w = false -> channel w = [] /\ recovering w = Steady;
  last_written : forall l, last_ w = Some l -> l ∈ (written w).*1;
  recovery_recorded : recorded w;
  first_marks : last_ w = None -> Forall (fun p => waits (snd p)) (streams w);
  followed : Forall (fun p => tracks (written w) (to_come w) (snd p)) (streams w)
}.

Lemma followed_mono (W : list (id * option (string * value))) P Q (ss : list (nat * Stream)) :
  (forall e, e ∈ entries W -> P e -> Q e) -> Forall (fun p => tracks W P (snd p)) ss -> Forall (fun p => tracks W Q (snd p)) ss.
Proof. intros HPQ H. eapply Forall_impl; [exact H|]. intros p. by apply tracks_mono. Qed.

Lemma forall_update (Q : Stream -> Prop) n s ss : Q s -> Forall (fun p => Q (snd p)) ss ->
  Forall (fun p => Q (snd p)) ((fun '(m, s') => if (m =? n)%nat then (m, s) else (m, s')) <$> ss).
Proof. intros Hs H. rewrite Forall_fmap. eapply Forall_impl; [exact H|]. intros [m s'] ?. cbn. by destruct (m =? n)%nat. Qed.

Lemma followed_find w n s : good w -> find_ n w = Some s -> tracks (written w) (to_come w) s.
Proof. intros [_ _ _ _ _ _ _ Hf] H%find_elem. rewrite Forall_forall in Hf. by apply (Hf _ H). Qed.

Lemma waits_find w n s : good w -> find_ n w = Some s -> waits s \/ last_ w <> None.
Proof.
  intros Hg H%find_elem. destruct (last_ w) eqn:E; [by right|]. left. pose proof (first_marks _ Hg E) as Hf.
  rewrite Forall_forall in Hf. by apply (Hf _ H).
Qed.

Lemma waits_deliver e s : waits (deliver e s) <-> waits s.
Proof. unfold waits, deliver. destruct (held s); [done|]. by destruct (rest_of_write e s) as (_ & -> & _). Qed.

Lemma good_broadcast found ch w : good w -> connected w = true -> ordered found -> (forall e, e ∈ found -> e ∈ entries (written w)) ->
  ordered ch -> (forall e, e ∈ ch -> e ∈ entries (written w)) ->
  (forall e, e ∈ entries (written w) -> to_come w e -> e ∈ found \/ (e ∈ ch /\ forall f, f ∈ found -> lt_ (e_id f) (e_id e))) ->
  good (broadcast found (mkWorld (written w) (exists_ w) ch true Steady (last_ w) (streams w))).
Proof.
  intros [G1 _ _ _ G5 _ G7 G8] Hc Hf Hin Ho Hch Hto. split; cbn; try done.
  - destruct (last found) as [f|] eqn:E; [|done]. intros l [= <-]. apply entries_ids, Hin. by apply last_Some_elem_of.
  - destruct (last found) as [f|] eqn:E; [done|]. intros Hl. apply last_None in E as ->. unfold each. rewrite Forall_fmap.
    eapply Forall_impl; [by apply G7|]. by intros [m s].
  - unfold each. rewrite Forall_fmap. eapply Forall_impl; [exact G8|]. intros [m s] Hs. cbn in *.
    eapply tracks_mono; [|apply (tracks_all _ (to_come w)); [by apply ordered_entries | done | done | | exact Hs]].
    + intros e He [Ht Ha]. split; cbn.
      * destruct (last found) as [f|] eqn:E; [|by apply Ht]. intros l [= <-]. apply Ha. by apply last_Some_elem_of.
      * intros _. destruct (Hto e He Ht) as [Hd|[Hd _]]; [|done]. by destruct (lt_irrefl _ (Ha e Hd)).
    + intros e He Ht. destruct (Hto e He Ht) as [|[_ ?]]; auto.
Qed.

Lemma good_writes i event data w w' : act (Writes i event data) w = Some w' -> good w -> good w'.
Proof.
  cbn [act]. destruct (negb (exists_ w)); [by intros [= ->]|]. destruct (newest i (written w)) eqn:Hi; [|done]. intros [= <-].
  intros [G1 G2 G3 G4 G5 G6 G7 G8]. pose proof (proj1 (newest_spec i (written w)) Hi) as Hb.
  assert (Hnew : forall e, e ∈ channel w -> lt_ (e_id e) i) by (intros e He; by apply Hb, entries_ids, G3).
  assert (He : mkEntry i event data ∈ entries (written w ++ [(i, Some (event, data))])).
  { apply elem_of_entries, elem_of_app. right. by left. }
  split; cbn [written written_ channel connected recovering last_ streams]; try done.
  - rewrite fmap_app. apply StronglySorted_app. split_and!; [|done | repeat constructor].
    intros a b Ha ->%list_elem_of_singleton. by apply Hb.
  - destruct (_ && _); [|done]. apply entries_ordered_app. split_and!; [done | repeat constructor|].
    intros a b Ha ->%list_elem_of_singleton. by apply Hnew.
  - intros e Hin. destruct (_ && _); [apply elem_of_app in Hin as [Hin| ->%list_elem_of_singleton]; [|done]|]; by apply entries_keep, G3.
  - intros Hc. rewrite Hc. by apply G4.
  - intros l Hl. rewrite fmap_app. apply elem_of_app. left. by apply G5.
  - unfold recorded in *. cbn [recovering written written_]. destruct (recovering w) as [| |[a|]|found]; try done.
    + rewrite fmap_app. apply elem_of_app. by left.
    + destruct G6 as [? G6]. split; [done|]. intros e ?. by apply entries_keep, G6.
  - destruct (bool_decide (streams w = [])) eqn:Hs; [apply bool_decide_eq_true in Hs as ->; constructor|].
    eapply Forall_impl; [exact G8|]. intros p Hp. eapply tracks_grow; [exact Hi | | | exact Hp]; cbn [connected written_ negb]; rewrite ?andb_true_r.
    + intros e _ [H1 H2]. split; [exact H1|]. cbn [recovering written_ connected channel]. destruct (recovering w); try done.
      * intros Hc. rewrite Hc. apply elem_of_app. left. by apply H2.
      * destruct H2 as [|[? ?]]; [by left|]. right. split; [|done]. destruct (connected w); [apply elem_of_app; by left | done].
    + intros event' data' [= <- <-]. split; cbn [last_ written_ recovering connected channel].
      * intros l Hl. by apply Hb, G5.
      * unfold recorded in G6. destruct (recovering w) as [| |[a|]|found] eqn:Hr; try done.
        -- intros ->. apply elem_of_app. right. by left.
        -- intros l [= <-]. by apply Hb.
        -- right. split; [|intros f Hf; by apply Hb, entries_ids, G6]. destruct (connected w) eqn:Hc; [apply elem_of_app; right; by left|].
           by destruct (G4 eq_refl) as [_ ?].
Qed.

Lemma good_marks n i w w' : act (Marks n i) w = Some w' -> good w -> good w'.
Proof.
  cbn [act]. intros Ha Hg. destruct (find_ n w) as [s|] eqn:Hf; [|done]. cbn in Ha. destruct (opening_ s) eqn:E; try done.
  destruct (newest i (written w)) eqn:Hi; [|done]. injection Ha as <-. pose proof (followed_find _ _ _ Hg Hf) as Hs.
  destruct Hg as [G1 G2 G3 G4 G5 G6 G7 G8]. pose proof (proj1 (newest_spec i (written w)) Hi) as Hb.
  assert (Hgrow : forall s, tracks (written w) (to_come w) s -> tracks (written w ++ [(i, None)]) (to_come w) s).
  { intros s'. by apply tracks_grow. }
  split; cbn [written written_ update channel connected recovering last_ streams]; try done.
  - rewrite fmap_app. apply StronglySorted_app. split_and!; [|done | repeat constructor].
    intros a b Ha ->%list_elem_of_singleton. by apply Hb.
  - intros e He. by apply entries_keep, G3.
  - intros l Hl. rewrite fmap_app. apply elem_of_app. left. by apply G5.
  - unfold recorded in *. cbn [recovering written written_ update]. destruct (recovering w) as [| |[a|]|found]; try done.
    + rewrite fmap_app. apply elem_of_app. by left.
    + destruct G6 as [? G6]. split; [done|]. intros e ?. by apply entries_keep, G6.
  - intros Hl. by apply forall_update; [|apply G7].
  - apply forall_update; [|eapply Forall_impl; [exact G8|]; intros p; apply Hgrow].
    apply Hgrow in Hs. unfold tracks in *. rewrite E in Hs. cbn. destruct Hs as (h & Hh & Hin). exists h. split_and!; [done | |].
    { rewrite fmap_app. apply elem_of_app. right. by left. }
    assert (Hnot : forall e, e ∈ entries (written w ++ [(i, None)]) -> ~ lt_ i (e_id e)).
    { intros e He. apply lt_asym. unfold entries in He. rewrite omap_app in He. cbn in He. rewrite app_nil_r in He.
      by apply Hb, entries_ids. }
    split_and!; [done | | intros e He Hl; by destruct (Hnot e He)]. intros l1 e l2 _ e' He' Hl. by destruct (Hnot e' He').
Qed.

(** what waits for its marker goes by what is still to come after the first of them *)
Lemma tracks_waiting W P i s : waits s -> (forall j, opening_ s = Marking j -> ~ lt_ j i) ->
  tracks W P s -> tracks W (fun e => P e /\ lt_ i (e_id e)) s.
Proof.
  unfold waits, tracks. destruct (opening_ s) as [|j| | |]; try done. intros _ Hj (h & Hh & Hji & Hc). exists h. split_and!; [done..|].
  eapply covers_mono; [|exact Hc]. intros e _ Hl HP. split; [done|]. eapply lt_not_le; [by apply Hj|done].
Qed.

Lemma good_is_marked n w w' : act (IsMarked n) w = Some w' -> well w -> good w -> good w'.
Proof.
  cbn [act]. intros Ha Hw Hg. destruct (find_ n w) as [s|] eqn:Hf; [|done]. cbn in Ha. destruct (opening_ s) as [|i| | |] eqn:E; try done.
  destruct (existsb _ _) eqn:Hx; [done|]. injection Ha as <-. pose proof (followed_find _ _ _ Hg Hf) as Hs.
  pose proof (find_elem _ _ _ Hf) as Hin. destruct (well_find _ _ _ Hw Hf) as [Hsound _].
  destruct Hg as [G1 G2 G3 G4 G5 G6 G7 G8]. set (l := match last_ w with Some l => Some l | None => Some i end).
  assert (Hi : i ∈ (written w).*1) by (unfold tracks in Hs; rewrite E in Hs; by destruct Hs as (? & ? & ? & ?)).
  assert (Hfirst : forall p, p ∈ streams w -> forall j, opening_ (snd p) = Marking j -> ~ lt_ j i).
  { intros p Hp j Hj Hl%after_spec. assert (true = false) as [=]. rewrite <- Hx. symmetry. apply existsb_exists. exists p.
    split; [by apply list_elem_of_In|]. by rewrite Hj. }
  assert (Hall : Forall (fun p => tracks (written w) (to_come (set_last l w)) (snd p)) (streams w)).
  { apply Forall_forall. intros p Hp. rewrite Forall_forall in G8. specialize (G8 p Hp). unfold l, to_come in *. cbn [last_ recovering set_last connected channel].
    destruct (last_ w) as [k|] eqn:Hl; [done|]. pose proof (G7 eq_refl) as G7'. rewrite Forall_forall in G7'.
    eapply tracks_mono; [|exact (tracks_waiting _ _ i _ (G7' p Hp) (Hfirst p Hp) G8)]. cbn. intros e _ [[_ ?] ?].
    split; [by intros ? [= <-] | done]. }
  assert (Hs' : tracks (written w) (to_come (set_last l w)) s) by (rewrite Forall_forall in Hall; by apply (Hall _ Hin)).
  split; cbn [written set_last update channel connected recovering last_ streams]; try done.
  - intros k. unfold l. destruct (last_ w); [apply G5|]. by intros [= <-].
  - unfold l. by destruct (last_ w).
  - apply forall_update; [|exact Hall]. change (to_come (update _ _ _)) with (to_come (set_last l w)).
    unfold tracks in Hs'. rewrite E in Hs'. destruct Hs' as (h & Hh & _ & Hc). case_match.
    + unfold tracks. cbn. by exists h.
    + eapply (tracks_opened _ _ i i); [by apply ordered_entries | exact Hh | | exact Hc | | congruence].
      * apply (idle _ Hsound). intros f. by rewrite E.
      * split_and!; [by intros ? ?%elem_of_nil | by intros [|] ? ? [=] | auto].
Qed.

Lemma tracks_same W P s s' : token_ s' = token_ s -> opening_ s' = opening_ s -> held s' = held s -> cursor s' = cursor s ->
  given s' = given s -> tracks W P s -> tracks W P s'.
Proof. unfold tracks, gave. intros -> -> -> -> ->. done. Qed.

Lemma good_reads n w w' : act (Reads n) w = Some w' -> good w -> good w'.
Proof.
  cbn [act]. intros Ha Hg. destruct (find_ n w) as [s|] eqn:Hf; [|done]. cbn in Ha. destruct (opening_ s) as [| |i| |] eqn:E; try done.
  destruct (token_ s) as [t|] eqn:Ht; [|done]. injection Ha as <-.
  pose proof (followed_find _ _ _ Hg Hf) as Hs. pose proof (waits_find _ _ _ Hg Hf) as Hl.
  destruct Hg as [G1 G2 G3 G4 G5 G6 G7 G8].
  split; cbn [written update channel connected recovering last_ streams]; try done.
  - intros Hn. destruct Hl as [Hl|Hl]; [|done]. unfold waits in Hl. by rewrite E in Hl.
  - apply forall_update; [|exact G8]. unfold tracks in *. rewrite E in Hs. cbn. destruct Hs as (h & Hh & Hi & Hc).
    exists h, t. split_and!; [done..|]. by apply found_read, ordered_entries.
Qed.

Lemma good_is_read n w w' : act (IsRead n) w = Some w' -> well w -> good w -> good w'.
Proof.
  cbn [act]. intros Ha Hw Hg. destruct (find_ n w) as [s|] eqn:Hf; [|done]. cbn in Ha. destruct (opening_ s) as [| | |i found|] eqn:E; try done.
  destruct (token_ s) as [t|] eqn:Ht; [|done]. injection Ha as <-. destruct (well_find _ _ _ Hw Hf) as [Hsound _].
  pose proof (followed_find _ _ _ Hg Hf) as Hs. pose proof (waits_find _ _ _ Hg Hf) as Hl.
  destruct Hg as [G1 G2 G3 G4 G5 G6 G7 G8].
  split; cbn [written update channel connected recovering last_ streams]; try done.
  - intros Hn. destruct Hl as [Hl|Hl]; [|done]. unfold waits in Hl. by rewrite E in Hl.
  - apply forall_update; [|exact G8]. unfold tracks in Hs. rewrite E in Hs. destruct Hs as (h & t' & Hh & Ht' & _ & Hc & Hfound).
    rewrite Ht in Ht'. injection Ht' as <-.
    eapply (tracks_opened _ _ t i found s h); [by apply ordered_entries | done | | done | done | congruence].
    apply (idle _ Hsound). intros f. by rewrite E.
Qed.

Lemma good_enters n token w w' : act (Enters n token) w = Some w' -> good w -> good w'.
Proof.
  cbn [act]. intros Ha [G1 G2 G3 G4 G5 G6 G7 G8].
  assert (Hn : forall P, tracks (written w) P (stream token)) by (intros P; exists []; split; [done | by intros ? ?%elem_of_nil]).
  repeat case_bool_decide; [done | destruct (connected w) eqn:Hc; [|done] |]; injection Ha as <-;
    split; cbn [written channel connected recovering last_ streams]; try done.
  - unfold recorded. cbn. by destruct (recovering w).
  - intros _. by constructor.
  - constructor; [apply Hn | constructor].
  - intros Hl. apply Forall_app. split; [by apply G7 | by constructor].
  - apply Forall_app. split; [exact G8 | constructor; [apply Hn | constructor]].
Qed.

Lemma good_pushed event sender data full w w' : act (Pushed event sender data full) w = Some w' -> good w -> good w'.
Proof.
  cbn [act]. intros [= <-] [G1 G2 G3 G4 G5 G6 G7 G8].
  assert (Hv : forall n s, let s' := (volatile event sender data (bool_decide (n ∈ full)) s).2 in
    token_ s' = token_ s /\ opening_ s' = opening_ s /\ held s' = held s /\ cursor s' = cursor s /\ given s' = given s).
  { intros n s. unfold volatile. destruct (held s) eqn:E; [done|]. case_bool_decide; [done|]. cbn [snd].
    split_and!; [done..|]. by apply given_send. }
  split; cbn [written channel connected recovering last_ streams]; try done.
  - intros Hl. rewrite Forall_fmap. eapply Forall_impl; [by apply G7|]. intros [n s] Hs. unfold waits in *. cbn in *.
    by destruct (Hv n s) as (_ & -> & _).
  - rewrite Forall_fmap. eapply Forall_impl; [exact G8|]. intros [n s] Hs. cbn in *. destruct (Hv n s) as (? & ? & ? & ? & ?).
    by eapply tracks_same.
Qed.

Lemma good_recovery e w w' : e ∈ [Down; Up; Asks; Recovers] -> act e w = Some w' -> good w -> good w'.
Proof.
  intros He Ha [G1 G2 G3 G4 G5 G6 G7 G8]. assert (Hnil : ordered []) by constructor.
  rewrite !elem_of_cons, elem_of_nil in He. destruct He as [-> |[-> |[-> |[-> |[]]]]]; cbn [act] in Ha.
  - destruct (recovering w) eqn:Hr; [|done..]. injection Ha as <-. split; cbn [written channel connected recovering last_ streams]; try done.
    + by intros ? ?%elem_of_nil.
    + eapply followed_mono; [|exact G8]. by intros e _ [H1 _].
  - destruct (connected w) eqn:Hc; [done|]. injection Ha as <-. split; cbn [written channel connected recovering last_ streams]; try done.
    + by intros ? ?%elem_of_nil.
    + unfold recorded. cbn. by case_bool_decide.
    + case_bool_decide as Hs; [rewrite Hs; constructor|]. eapply followed_mono; [|exact G8]. by intros e _ [H1 _].
  - destruct (recovering w) eqn:Hr; [done| |done..]. injection Ha as <-.
    split; cbn [written recover_at channel connected recovering last_ streams]; try done.
    + intros Hc. destruct (G4 Hc); done.
    + unfold recorded. cbn. case_bool_decide; [done|]. by destruct (last_ w) eqn:Hl; [apply G5|].
    + case_bool_decide as Hs; [rewrite Hs; constructor|]. eapply followed_mono; [|exact G8]. intros e _ [H1 _]. by split.
  - destruct (recovering w) as [| |a|] eqn:Hr; [done..| |done]. injection Ha as <-.
    split; cbn [written recover_at channel connected recovering last_ streams]; try done.
    + intros Hc. destruct (G4 Hc); done.
    + split; [by apply ordered_filter, ordered_entries | by intros e [? _]%elem_of_read].
    + eapply followed_mono; [|exact G8]. intros e He [H1 H2]. rewrite Hr in H2. split; [done|]. left. by apply elem_of_read.
Qed.

Lemma good_act e w w' : quiet e w = true -> act e w = Some w' -> well w -> good w -> good w'.
Proof.
  intros Hq Ha Hw Hg. destruct e; [by eapply good_writes | | by eapply good_enters | by eapply good_marks | by eapply good_is_marked |
    by eapply good_reads | by eapply good_is_read | | eapply good_recovery; [|done..] | eapply good_recovery; [|done..] |
    eapply good_recovery; [|done..] | eapply good_recovery; [|done..] | | by eapply good_pushed]; try set_solver.
  - cbn [act quiet] in *. destruct (recovering w) eqn:Hr; try done. destruct (channel w) as [|e ch] eqn:Hch; [done|]. injection Ha as <-.
    destruct (connected w) eqn:Hc; [|destruct (cut_off _ Hg Hc) as [H _]; by rewrite H in Hch].
    pose proof (queue_in_order _ Hg) as Ho. rewrite Hch in Ho. apply (entries_ordered_app [e]) in Ho as (_ & Ho & Hlt).
    pose proof (queue_written _ Hg) as Hin. rewrite Hch in Hin.
    assert (good (broadcast [e] (mkWorld (written w) (exists_ w) ch true Steady (last_ w) (streams w)))) as H; [|unfold written_; by rewrite Hc, Hr].
    apply good_broadcast; [done | done | repeat constructor | | done | intros x Hx; apply Hin; by right |].
    + intros x ->%list_elem_of_singleton. apply Hin. by left.
    + intros x _ [_ Hx]. rewrite Hr, Hch in Hx. destruct (elem_of_cons ch x e) as [Hd _]. destruct (Hd (Hx Hc)) as [-> |Hd']; [left; by left|].
      right. split; [done|]. intros f Hf. by apply Hlt.
  - cbn [act] in Ha. destruct (find_ n w); [|done]. injection Ha as <-. destruct Hg as [G1 G2 G3 G4 G5 G6 G7 G8].
    split; cbn [written channel connected recovering last_ streams]; try done; [intros Hl; specialize (G7 Hl) | clear G7];
      apply Forall_forall; intros p [_ Hp]%list_elem_of_filter; [rewrite Forall_forall in G7; by apply G7 | rewrite Forall_forall in G8; by apply G8].
  - cbn [act] in Ha. destruct (recovering w) as [| | |found] eqn:Hr; try done. injection Ha as <-.
    pose proof (recovery_recorded _ Hg) as H. unfold recorded in H. rewrite Hr in H. destruct H as [Ho Hin].
    destruct (connected w) eqn:Hc; [|destruct (cut_off _ Hg Hc) as [_ H]; congruence].
    assert (good (broadcast found (mkWorld (written w) (exists_ w) (channel w) true Steady (last_ w) (streams w)))) as H; [|unfold recover_at; by rewrite Hc].
    apply good_broadcast; [done | done | done | done | apply Hg | apply Hg |]. intros e _ [_ He]. by rewrite Hr in He.
Qed.

(** ** The directives ([Realtime.ts]) *)

Fixpoint includes (sub s : string) : bool :=
  String.prefix sub s || match s with String _ s => includes sub s | EmptyString => false end.

(** the key a directive names: a route variable, or a literal *)
Inductive named := Variable_ (name : string) | Literal_ (key : string).

Section directives.
(** [String(value)], what a schema states of a body, where it states anything, and the bytes of a body as JSON *)
Context {Schema : Type} (as_text : value -> string) (schema : value -> Schema) (misfit : Schema -> value -> option string) (size : value -> Z).

Definition key (name : string) (v : option value) (route : string) : result thrown named :=
  let said := match v with Some v => as_text v | None => "undefined" end in
  let neither := Throw (Failed ("'realtime:" +:+ name +:+ "' names the route variable that is the key, or a literal key, and " +:+
    quoted said +:+ " is not one of " +:+ quoted route)) in
  match v with
  | Some (VString s) =>
      if literal s then
        if (String.length s =? 1)%nat
        then Throw (Failed ("'realtime:" +:+ name +:+ "' literal " +:+ quoted s +:+ " names no key, at " +:+ quoted route))
        else Ok (Literal_ s)
      else if includes (":" +:+ s) route then Ok (Variable_ s)
      else neither
  | _ => neither
  end.

Record Directive := mkDirective { d_key : named; d_push : option (string * Schema) }.

Definition push (v : value) (route : string) : result thrown Directive :=
  let fields := match v with VObject fields => fields | _ => [] end in
  match own fields "event" with
  | Some (VString event) =>
      if bool_decide (event = "") then Throw (Failed ("'realtime:push' names the event it is streamed as, at " +:+ quoted route))
      else if bool_decide (event = "token") || includes "." event then
        Throw (Failed ("'realtime:push' event " +:+ quoted event +:+ " would be read as a token or a routed event, at " +:+ quoted route))
      else
        match own fields "input" with
        | Some (VObject input) => k ← key "push" (own fields "key") route; Ok (mkDirective k (Some (event, schema (VObject input))))
        | _ => Throw (Failed ("'realtime:push' states the schema of what is pushed, at " +:+ quoted route))
        end
  | _ => Throw (Failed ("'realtime:push' names the event it is streamed as, at " +:+ quoted route))
  end.

Definition create (name : string) (v : value) (route : string) : result thrown Directive :=
  if bool_decide (name = "stream") then k ← key name (Some v) route; Ok (mkDirective k None)
  else if bool_decide (name = "push") then push v route
  else Throw (Failed ("Directive 'realtime:" +:+ name +:+ "' is not implemented")).

Definition arrange (directives : list Directive) : result thrown unit :=
  refuse_when (1 <? length directives)%nat (Failed "A method declares one realtime directive, and no more").

(** the value of a route variable, which is never a literal *)
Definition variable (name : string) (parameters : list (string * string)) : result thrown string :=
  match own parameters name with
  | None => Throw (Failed ("Route variable " +:+ quoted name +:+ " is not found"))
  | Some k => if literal k then Throw (Refused 404 None) else Ok k
  end.

Definition LIMIT : Z := 65536.

Definition RequestEntityTooLarge : thrown := Refused 413 (Some (VString "Size limit is 65536 bytes")).

(** what the length a request states, if it states one, and its body are refused for *)
Definition pushable (input : Schema) (stated : option Z) (body : value) : result thrown unit :=
  refuse_when (match stated with Some n => LIMIT <? n | None => false end) RequestEntityTooLarge ;;
  refuse_when (match stated with Some _ => false | None => LIMIT <? size body end) RequestEntityTooLarge ;;
  match misfit input body with Some message => Throw (BadRequest message) | None => Ok tt end.

(** a stream of a key that is opened with a token, or what is published to its readers *)
Inductive served := Opens (key : string) (token : option string) | Publishes (key event : string) (sender : option string) (data : value).

Definition precall (configured : bool) (directive : Directive) (parameters : list (string * string)) (token identity : option string)
    (stated : option Z) (body : value) : result thrown served :=
  k ← match d_key directive with Literal_ k => Ok k | Variable_ name => variable name parameters end;
  refuse_when (negb configured) (NotFound "Realtime streams are not configured") ;;
  match d_push directive with
  | Some (event, input) => pushable input stated body ;; Ok (Publishes k event identity body)
  | None => Ok (Opens k token)
  end.

End directives.

(** ** What a reader is given *)

Lemma run_well ss w w' : run ss w = Some w' -> well w -> well w'.
Proof.
  revert w. induction ss as [|s ss IH]; intros w H Hw; cbn in H; [by injection H as <-|].
  destruct (act s w) as [w1|] eqn:Ha; [|done]. eapply IH; [exact H|]. by eapply well_act.
Qed.

Lemma calm_good ss w w' : calm ss w = Some w' -> well w -> good w -> well w' /\ good w'.
Proof.
  revert w. induction ss as [|s ss IH]; intros w H Hw Hg; cbn in H; [by injection H as <-|].
  destruct (quiet s w) eqn:Hq; [|done]. destruct (act s w) as [w1|] eqn:Ha; [|done].
  eapply IH; [exact H | by eapply well_act | by eapply good_act].
Qed.

Lemma empty_good : well empty_ /\ good empty_.
Proof. split; [constructor|]. split; cbn; try done; try constructor. Qed.

Lemma read_between W from c : ordered (entries W) -> ~ lt_ c from ->
  read (Some from) W = between from c (entries W) ++ read (Some c) W.
Proof.
  unfold read, between. intros HW Hc. induction HW as [|x l Hl IH Hx]; [done|]. rewrite Forall_forall in Hx.
  rewrite !(filter_cons _ x), IH. destruct (after c (e_id x)) eqn:E; cbn [andb negb].
  - apply after_spec in E. assert (after from (e_id x) = true) as -> by (apply after_spec; by eapply lt_not_le).
    rewrite decide_True, decide_False, decide_True by done. 
    rewrite (list_filter_none _ l); [done|]. intros y Hy [_ Hn%negb_true_iff%after_false]%andb_true_iff.
    apply Hn. eapply lt_trans; [exact E | by apply Hx].
  - destruct (after from (e_id x)); cbn; repeat (rewrite decide_True by done || rewrite decide_False by done); done.
Qed.

(** whatever the store, the channel and the readers of a key do, and in whatever order, with the channel losing what it
    carried and telling of an event again, each reader is given events in the strict order of their ids, so none of them
    twice, and once its opening is done all of them are after what it was opened from. *)
Theorem given_in_order ss w n s : run ss empty_ = Some w -> (n, s) ∈ streams w ->
  StronglySorted (fun a b => lt_ (e_id a) (e_id b)) (given s) /\
  forall from, opening_ s = Open from -> forall e, e ∈ given s -> lt_ from (e_id e).
Proof.
  intros H Hin. apply run_well in H; [|apply empty_good]. unfold well in H. rewrite Forall_forall in H.
  destruct (H _ Hin) as [Hs _]. split; [apply (in_order _ Hs)|]. intros from Ho. by apply (beyond _ Hs).
Qed.

(** C6: while the channel tells of nothing during a recovery, what a reader is given is the stream itself: it was opened from
    the token it came with, or from the marker it left where it came with none, and what it was given is a prefix of what
    the stream holds after that; nothing is left of it once the subscriber is connected, has recovered and the channel is
    empty, however often the connection was lost, and whenever events were written meanwhile. *)
Theorem nothing_is_missed ss w n s from : calm ss empty_ = Some w -> (n, s) ∈ streams w -> opening_ s = Open from ->
  (forall t, token_ s = Some t -> from = t) /\
  exists rest, read (Some from) (written w) = given s ++ rest /\
    (connected w = true -> recovering w = Steady -> channel w = [] -> rest = []).
Proof.
  intros H Hin Ho. destruct empty_good as [H1 H2]. destruct (calm_good _ _ _ H H1 H2) as [_ Hg].
  pose proof (followed _ Hg) as Hf. rewrite Forall_forall in Hf. specialize (Hf _ Hin). cbn in Hf. unfold tracks in Hf. rewrite Ho in Hf.
  destruct Hf as (_ & Ht & c & (Hc & Hfrom & _ & Hgiven) & Hto). split; [exact Ht|]. exists (read (Some c) (written w)).
  rewrite Hgiven. split; [apply read_between; [apply ordered_entries, Hg | done]|]. intros Hcon Hr Hch.
  destruct (read (Some c) (written w)) as [|e l] eqn:E; [done|].
  assert (Hin' : e ∈ read (Some c) (written w)) by (rewrite E; by left). apply elem_of_read in Hin' as [He Hl].
  destruct (Hto e He (Hl _ eq_refl)) as [_ Hx]. rewrite Hr, Hch in Hx. by apply elem_of_nil in Hx.
Qed.

Lemma elem_of_keysOf payload r k : k ∈ keysOf payload r <->
  (exists property, property ∈ r_properties r /\ k ∈ values_of (own payload property) /\ literal k = false) \/ k ∈ r_literals r.
Proof.
  unfold keysOf. assert (H : forall l (keys : list string), k ∈ foldl (fun keys k => add k keys) keys l <-> k ∈ keys \/ k ∈ l).
  { induction l as [|x l IH]; intros keys; cbn; [rewrite elem_of_nil; tauto|]. rewrite IH, elem_of_add, elem_of_cons. tauto. }
  rewrite H, elem_of_nil, elem_of_app, list_elem_of_bind. setoid_rewrite list_elem_of_filter. naive_solver.
Qed.

Lemma key_literal as_text name v route k : key as_text name v route = Ok (Literal_ k) -> literal k = true.
Proof.
  unfold key. destruct v as [[]|]; try done. destruct (literal s) eqn:E; [|by destruct (includes _ _)].
  destruct (_ =? _)%nat; [done|]. by intros [= <-].
Qed.

Lemma create_key {Schema} as_text (schema : value -> Schema) name v route d : create as_text schema name v route = Ok d ->
  exists name' v', key as_text name' v' route = Ok (d_key d).
Proof.
  unfold create. case_bool_decide.
  - intros (k & Hk & [= <-])%bind_Ok. eauto.
  - case_bool_decide; [|done]. unfold push. destruct (own _ _) as [[]|]; try done. case_bool_decide; [done|].
    destruct (_ || _); [done|]. destruct (own _ _) as [[]|]; try done. intros (k & Hk & [= <-])%bind_Ok. eauto.
Qed.

(** a literal's stream is out of reach of whoever writes the values events and requests carry: a literal an event is
    written under is one its component's declaration names, whatever the payload holds, and a key taken of a route variable
    is none, so a request is served a literal's stream, or published to it, only where its directive names the literal. *)
Theorem literals_are_out_of_reach {Schema} as_text (schema : value -> Schema) misfit size :
  (forall declaration r payload k, r ∈ parse declaration -> k ∈ keysOf payload r -> literal k = true ->
    exists keys expose, (r_event r, (keys, expose)) ∈ declaration /\ k ∈ keys) /\
  (forall name v route d configured parameters token identity stated body out,
    create as_text schema name v route = Ok d ->
    precall misfit size configured d parameters token identity stated body = Ok out ->
    let k := match out with Opens k _ => k | Publishes k _ _ _ => k end in
    d_key d = Literal_ k /\ literal k = true \/ literal k = false /\ exists x, d_key d = Variable_ x /\ own parameters x = Some k).
Proof.
  split.
  - intros declaration r payload k Hr Hk Hl. unfold parse in Hr. apply list_elem_of_fmap in Hr as ([event [keys expose]] & -> & Hin).
    apply elem_of_keysOf in Hk as [(? & _ & _ & Hf)|[_ Hk]%list_elem_of_filter]; [by rewrite Hl in Hf|]. by exists keys, expose.
  - intros name v route d configured parameters token identity stated body out Hd Hout.
    assert (Hlit : forall k, d_key d = Literal_ k -> literal k = true).
    { intros k Hk. destruct (create_key _ _ _ _ _ _ Hd) as (n & v' & Hn). rewrite Hk in Hn. by eapply key_literal. }
    unfold precall in Hout. apply bind_Ok in Hout as (k & Hk & Hout). apply then_Ok in Hout as [_ Hout].
    assert (Hkey : match out with Opens k _ => k | Publishes k _ _ _ => k end = k).
    { destruct (d_push d) as [[]|]; [apply then_Ok in Hout as [_ Hout]|]; by injection Hout as <-. }
    cbn zeta. rewrite Hkey. destruct (d_key d) as [x|k'] eqn:E.
    + right. unfold variable in Hk. destruct (own parameters x) as [k'|] eqn:Ho; [|done]. destruct (literal k') eqn:El; [done|].
      injection Hk as ->. split; [done|]. by exists x.
    + injection Hk as ->. left. split; [done|]. by apply Hlit.
Qed.

Lemma includes_app sub a b : String.prefix sub b = true -> includes sub (a +:+ b) = true.
Proof.
  intros H. induction a as [|c a IH]; cbn.
  - change ("" +:+ b) with b. destruct b; cbn [includes]; by rewrite H.
  - change (String c a +:+ b) with (String c (a +:+ b)). cbn [includes]. by rewrite IH, orb_true_r.
Qed.

(** a pushed event is read neither as a token nor as an event that is routed *)
Theorem pushes_are_told_apart {Schema} as_text (schema : value -> Schema) name v route_ d event input :
  create as_text schema name v route_ = Ok d -> d_push d = Some (event, input) ->
  event <> "token" /\ forall component r raised x, route component r raised = Some x -> event_ x <> event.
Proof.
  unfold create. case_bool_decide; [by intros (k & _ & [= <-])%bind_Ok|]. case_bool_decide; [|done]. unfold push.
  destruct (own _ _) as [[]|]; try done. case_bool_decide; [done|]. destruct (_ || _) eqn:E; [done|].
  apply orb_false_iff in E as [E1%bool_decide_eq_false E2].
  destruct (own _ _) as [[]|]; try done. intros (k & _ & [= <-])%bind_Ok [= <- _]. split; [done|].
  intros component r raised x Hx Heq. unfold route in Hx. destruct raised as [payload|]; [|done]. case_bool_decide; [done|].
  injection Hx as <-. cbn in Heq. rewrite <- Heq in E2. assert (true = false) as [=]. rewrite <- E2. symmetry.
  apply (includes_app "." component ("." +:+ r_event r)). by destruct (r_event r).
Qed.

(** ** A room *)

Module Room.

Definition said (n : Z) : step := Writes (n, 0) "rooms.messages.created" (VNumber n).
Definition entry (n : Z) : Entry := mkEntry (n, 0) "rooms.messages.created" (VNumber n).

(** a reader stays while the connection is lost and is back; a second comes with a token of what was written before it came *)
Definition talk : list step :=
  [Enters 1 None; Marks 1 (5, 0); IsMarked 1; said 6; Receives; said 7; Down; said 8; Up; Asks; said 9; Enters 2 (Some (6, 0));
   Recovers; Marks 2 (10, 0); IsRecovered; IsMarked 2; said 11; Receives; Reads 2; said 12; Receives; IsRead 2; Receives].

Definition readers (ss : list step) : option (list (nat * (opening * list Z))) :=
  (fun w => (fun '(n, s) => (n, (opening_ s, (fun e => fst (e_id e)) <$> given s))) <$> streams w) <$> calm ss empty_.

Lemma talk_reads : readers talk = Some [(1%nat, (Open (5, 0), [6; 7; 8; 9; 11; 12])); (2%nat, (Open (6, 0), [7; 8; 9; 11; 12]))].
Proof. vm_compute. reflexivity. Qed.

Definition after_talk : world := default empty_ (calm talk empty_).

Lemma nothing_is_missed_witness : exists s rest, (2%nat, s) ∈ streams after_talk /\ token_ s = Some (6, 0) /\
  read (Some (6, 0)) (written after_talk) = given s ++ rest /\ rest = [].
Proof.
  assert (H : exists s, calm talk empty_ = Some after_talk /\ nth_error (streams after_talk) 1 = Some (2%nat, s) /\ opening_ s = Open (6, 0) /\
    token_ s = Some (6, 0) /\ connected after_talk = true /\ recovering after_talk = Steady /\ channel after_talk = []).
  { eexists. vm_compute. repeat split. }
  destruct H as (s & H1 & H2 & H3 & H4 & H5 & H6 & H7). apply List.nth_error_In, list_elem_of_In in H2.
  destruct (nothing_is_missed talk after_talk 2 s (6, 0) H1 H2 H3) as (_ & rest & H8 & H9). exists s, rest.
  split; [done|]. split; [done|]. split; [done|]. by apply H9.
Defined.

(** the connection was lost between two events; the one after it is told of before what was missed is read *)
Definition overtaken : list step :=
  [Enters 1 None; Marks 1 (5, 0); IsMarked 1; said 6; Receives; said 7; Down; said 8; Up; said 9; Receives; Asks; Recovers; IsRecovered].

Definition after_overtaken : world := default empty_ (run overtaken empty_).

Lemma given_in_order_witness : exists s, (1%nat, s) ∈ streams after_overtaken /\
  StronglySorted (fun a b => lt_ (e_id a) (e_id b)) (given s) /\ forall e, e ∈ given s -> lt_ (5, 0) (e_id e).
Proof.
  assert (H : exists s, run overtaken empty_ = Some after_overtaken /\ nth_error (streams after_overtaken) 0 = Some (1%nat, s) /\ opening_ s = Open (5, 0)).
  { eexists. vm_compute. repeat split. }
  destruct H as (s & H1 & H2 & H3). apply List.nth_error_In, list_elem_of_In in H2.
  destruct (given_in_order overtaken after_overtaken 1 s H1 H2) as [H4 H5]. exists s. split; [done|]. split; [done|]. by apply H5.
Defined.

(** what was missed is then never sent: the recovery reads from the event that overtook it *)
Theorem missed_for_good : (fun w => (connected w, channel w, (fun e => e_id e) <$> entries (written w), (fun p => (fun e => e_id e) <$> given (snd p)) <$> streams w))
    <$> run overtaken empty_ = Some (true, [], [(6, 0); (7, 0); (8, 0); (9, 0)], [[(6, 0); (9, 0)]]) /\
  recovering after_overtaken = Steady.
Proof. vm_compute. done. Qed.

(** an event that arrives while what a reader missed is read is sent with its token, and the older token of its opening after
    it: who keeps the last one and comes back with it is given the event again *)
Theorem token_goes_back : (fun w => (fun p => sent (snd p)) <$> streams w) <$>
    run [Enters 1 None; Marks 1 (5, 0); said 6; Receives; IsMarked 1;
         Enters 2 (Some (5, 0)); Marks 2 (7, 0); IsMarked 2; Reads 2; IsRead 2] empty_ =
  Some [[Given (entry 6); Token (6, 0); Token (5, 0)]; [Given (entry 6); Token (6, 0)]].
Proof. vm_compute. done. Qed.

(** a route's variable that only begins with the name a directive gives is taken for it, and no request of it finds its key *)
Theorem prefix_of_a_variable_is_taken as_text misfit size configured token identity stated body :
  create as_text (fun v => v) "stream" (VString "id") "/rooms/:identity" = Ok (mkDirective (Variable_ "id") None) /\
  precall misfit size configured (mkDirective (Variable_ "id") (@None (string * value))) [("identity", "general")] token identity stated body =
    Throw (Failed "Route variable 'id' is not found").
Proof. done. Qed.

Definition routes : list Route := parse [("created", (["room"; "~all"], ["text"]))].

Lemma routes_export : export "rooms.messages" routes (fun _ => Some [("room", VString "general"); ("text", VString "hi"); ("secret", VBool true)]) =
  Some [mkRouted "rooms.messages.created" ["general"; "~all"] (VObject [("text", VString "hi")])].
Proof. vm_compute. reflexivity. Qed.

Lemma literals_are_out_of_reach_witness :
  (exists keys expose, ("created", (keys, expose)) ∈ [("created", (["room"; "~all"], ["text"]))] /\ "~all" ∈ keys) /\
  (literal "general" = false /\ exists x, Variable_ "room" = Variable_ x /\ own [("room", "general")] x = Some "general").
Proof.
  destruct (literals_are_out_of_reach (fun _ => "") (fun v => v) (fun _ _ => None) (fun _ => 0)) as [H1 H2]. split.
  - apply (H1 [("created", (["room"; "~all"], ["text"]))] (mkRoute "created" ["room"] ["~all"] ["text"]) [("room", VString "general")] "~all").
    + apply list_elem_of_In. vm_compute. by left.
    + apply list_elem_of_In. vm_compute. by right; left.
    + reflexivity.
  - destruct (H2 "stream" (VString "room") "/rooms/:room" (mkDirective (Variable_ "room") None) true [("room", "general")] None None None VUndefined
      (Opens "general" None) eq_refl eq_refl) as [[H _]|H]; [discriminate H | exact H].
Defined.

End Room.
