(* ===== verification/Atomicity.v ===== *)
(** * Atomicity

    [connectors/atomicity/src/]: which slots of a number of them each replica of a group owns, the debt a group runs up
    under a key, the lock a routine runs under, the keys all of them are written to, and the loop through which a replica
    learns what it owns. The registry of replicas ([n-and-i]), the lock itself ([redlock]) and Redis are not the program's:
    the first is what the steps of the loop are given, the second a function, the third the state the script changes. *)
From stdpp Require Import strings gmap sorting.
From S2P Require Import Prelude.

Open Scope Z_scope.

(** ** Slots ([atom.js]) *)

(** the number of a replica, and how many there are *)
Record Assignment := mkAssignment { i_ : Z; n_ : Z }.

(** [for (let slot = i; slot < total; slot += n)], with fuel *)
Fixpoint from_slot (fuel : nat) (slot n total : Z) : list Z :=
  match fuel with
  | O => []
  | S fuel => if slot <? total then slot :: from_slot fuel (slot + n) n total else []
  end.

Definition slots (assignment : option Assignment) (total : Z) : option (list Z) :=
  (fun a => from_slot (Z.to_nat total) (i_ a) (n_ a) total) <$> assignment.

(** ** Keys ([atom.js]) *)

Inductive kind := SLOTS | METER | LOCK.

Definition named (k : kind) : string := match k with SLOTS => "slots" | METER => "meter" | LOCK => "lock" end.

Definition ATOM : string := "atom".

Definition prefix (scope group : string) : string := scope +:+ ":" +:+ ATOM +:+ ":" +:+ group +:+ ":".

Definition key_of (scope group : string) (k : kind) (key : string) : string := prefix scope group +:+ named k +:+ ":" +:+ key.

Definition keys (scope group : string) (k : kind) (ks : list string) : list string := key_of scope group k <$> ks.

(** ** Debt ([meter.js]) *)

Definition GRACE : Z := 10000.
Definition CHUNK : nat := 2000.

(** a key: its debt, the moment of it, and the moment it expires *)
Record Debt := mkDebt { debt : Z; at_ : Z; expires : Z }.

Notation Store := (gmap string Debt) (only parsing).

(** what is read of a key: nothing where it is not there or has expired *)
Definition read (now : Z) (key : string) (s : Store) : option Debt :=
  match s !! key with Some d => if now <? expires d then Some d else None | None => None end.

(** one turn of the script's loop *)
Definition add_debt (now : Z) (key : string) (delta : Z) (s : Store) : Z * Store :=
  let d := match read now key s with Some d => debt d | None => 0 end in
  let at' := match read now key s with Some d => at_ d | None => now end in
  let total := Z.max 0 (d - (now - at')) + delta in
  (total, <[key := mkDebt total now (now + (total + GRACE))]> s).

Fixpoint script (now : Z) (batch : list (string * Z)) (s : Store) : list Z * Store :=
  match batch with
  | [] => ([], s)
  | (key, delta) :: batch =>
      let '(d, s) := add_debt now key delta s in
      let '(ds, s) := script now batch s in
      (d :: ds, s)
  end.

(** [meter]: a batch in calls of a bounded number of keys, each at a moment of its own *)
Fixpoint meter (fuel : nat) (clock : nat -> Z) (batch : list (string * Z)) (s : Store) : list Z * Store :=
  match fuel with
  | O => ([], s)
  | S fuel =>
      if (length batch <=? CHUNK)%nat then script (clock O) batch s
      else
        let '(ds, s) := script (clock O) (take CHUNK batch) s in
        let '(ds', s) := meter fuel (fun n => clock (S n)) (drop CHUNK batch) s in
        (ds ++ ds', s)
  end.

(** ** A lock ([atom.js]) *)

(** what the gauge of the routines that hold says, and the waits recorded *)
Record Meters := mkMeters { holding : Z; waits : nat }.

(** how taking a lock ends: it is refused, or the routine runs and its extension fails, or the release of it, or nothing *)
Inductive taking (E : Type) := Refused (e : E) | Taken (afterwards : option E).
Arguments Refused {E} e.
Arguments Taken {E} afterwards.

Definition LEASE : Z := 5000.

(** [using] of the library runs what it is given under the lock; the routine's result, and the meters before it, while it
    works and once all is done *)
Definition lock {E A} (using_ : list string -> Z -> taking E) (scope group : string) (ks : list string)
    (routine : Meters -> result E A * Meters) (m : Meters) : result E A * Meters :=
  match using_ (keys scope group LOCK ks) LEASE with
  | Refused e => (Throw e, mkMeters (holding m) (S (waits m)))
  | Taken afterwards =>
      let '(r, m) := routine (mkMeters (holding m + 1) (S (waits m))) in
      (match afterwards with Some e => Throw e | None => r end, mkMeters (holding m - 1) (waits m))
  end.

(** ** One atom per group of a process ([factory.js]) *)

Definition atom_of {A} (make : string -> A) (group : string) (atoms : gmap string A) : A * gmap string A :=
  match atoms !! group with
  | Some a => (a, atoms)
  | None => (make group, <[group := make group]> atoms)
  end.

(** ** The connection ([connection.js]) *)

Definition VARIABLE : string := "TOA_ATOMICITY_REDIS".
Definition DEV : string := "redis://localhost:31040".

Definition resolve (environment : string -> option string) : list string :=
  match environment VARIABLE with
  | None => if bool_decide (environment "TOA_DEV" = Some "1") then [DEV] else []
  | Some v => filter (fun url => url <> "") (split " "%char v)
  end.

(** the addresses connected to: the first keeps slots and debts, all of them locks *)
Definition open_connection (environment : string -> option string) : result string (list string) :=
  let urls := resolve environment in
  if bool_decide (urls = []) then Ok []
  else if Nat.even (length urls) then Throw "Atomicity takes an odd number of addresses."
  else Ok urls.

Definition quorum (n : nat) : nat := (n / 2 + 1)%nat.

(** ** The loop ([atom.js]) *)

Record Atom := mkAtom {
  assignment : option Assignment;
  listeners : list nat;
  (** [#discover] runs *)
  running : bool;
  aborted : bool;
  (** what each listener was called with, in order *)
  told : list (nat * option Assignment)
}.

Definition atom : Atom := mkAtom None [] false false [].

(** each listener is called in turn, up to one that raises *)
Fixpoint tell (a : option Assignment) (ls : list nat) (raises : nat -> bool) : list (nat * option Assignment) * bool :=
  match ls with
  | [] => ([], true)
  | l :: ls => if raises l then ([(l, a)], false) else let '(said, whole) := tell a ls raises in ((l, a) :: said, whole)
  end.

Inductive step :=
(** it is opened, with a Redis or without *)
| Opens (redis : bool)
(** the registry hands out a pair, or the idle one; some listeners raise *)
| Yields (i : option Z) (n : Z) (raises : nat -> bool)
| Adds (l : nat)
| Removes (l : nat)
| Closes
(** the loop, aborted, ends *)
| Ends.

Definition act (e : step) (a : Atom) : option Atom :=
  match e with
  | Opens redis =>
      if running a then None
      else Some (if redis then mkAtom (assignment a) (listeners a) true false (told a) else a)
  | Yields i n raises =>
      if running a then
        let pair := (fun i => mkAssignment i n) <$> i in
        let '(said, whole) := tell pair (listeners a) raises in
        Some (if whole then mkAtom pair (listeners a) true (aborted a) (told a ++ said)
              else mkAtom None (listeners a) false (aborted a) (told a ++ said))
      else None
  | Adds l => Some (mkAtom (assignment a) (if bool_decide (l ∈ listeners a) then listeners a else listeners a ++ [l]) (running a) (aborted a)
      (told a ++ [(l, assignment a)]))
  | Removes l => Some (mkAtom (assignment a) (filter (fun k => k <> l) (listeners a)) (running a) (aborted a) (told a))
  | Closes => Some (mkAtom None (listeners a) (running a) (running a) (told a))
  | Ends => if running a && aborted a then Some (mkAtom None (listeners a) false (aborted a) (told a)) else None
  end.

Fixpoint acts (es : list step) (a : Atom) : option Atom :=
  match es with [] => Some a | e :: es => act e a ≫= acts es end.

(** ** What each replica owns *)

Lemma elem_of_from_slot fuel slot n total s : 0 < n -> total - slot <= Z.of_nat fuel ->
  s ∈ from_slot fuel slot n total <-> slot <= s < total /\ exists k, 0 <= k /\ s = slot + k * n.
Proof.
  revert slot. induction fuel as [|fuel IH]; intros slot Hn Hf; cbn [from_slot].
  { rewrite elem_of_nil. split; [done | lia]. }
  destruct (Z.ltb_spec slot total) as [Hlt|Hge]; [|rewrite elem_of_nil; split; [done | lia]].
  rewrite elem_of_cons, IH by lia. split.
  - intros [-> |(H & k & Hk & ->)]; [split; [lia|]; exists 0; lia | split; [nia|]; exists (k + 1); lia].
  - intros [H (k & Hk & ->)]. destruct (decide (k = 0)) as [->|]; [left; lia|]. right. split; [nia|]. exists (k - 1). lia.
Qed.

(** C32: of a number of slots a replica owns those whose remainder by the number of replicas is its own number, so that the
    replicas of a group that agree how many they are own every slot there is, each of them exactly one replica's. *)
Theorem slots_are_shared_out i n total ss : 0 <= i < n -> slots (Some (mkAssignment i n)) total = Some ss ->
  (forall s, s ∈ ss <-> 0 <= s < total /\ s mod n = i) /\
  (forall j ss', 0 <= j < n -> slots (Some (mkAssignment j n)) total = Some ss' -> forall s, s ∈ ss -> s ∈ ss' -> i = j).
Proof.
  assert (H : forall i ss, 0 <= i < n -> slots (Some (mkAssignment i n)) total = Some ss -> forall s, s ∈ ss <-> 0 <= s < total /\ s mod n = i).
  { clear. intros i ss Hi [= <-] s. cbn [i_ n_]. rewrite elem_of_from_slot by lia. split.
    - intros [Hs (k & Hk & ->)]. split; [lia|]. rewrite Z.mod_add by lia. by apply Z.mod_small.
    - intros [Hs Hm]. pose proof (Z.div_mod s n ltac:(lia)) as Hd. pose proof (Z.div_pos s n ltac:(lia) ltac:(lia)). split; [nia|].
      exists (s / n). lia. }
  intros Hi Hss. split; [by apply H|]. intros j ss' Hj Hss' s H1%(H i ss) H2%(H j ss'); [lia | done..].
Qed.

(** ** What is owed *)

(** an addition to the debt of a key: its moment, the key and the delta *)
Notation charge := (Z * string * Z)%type (only parsing).

Fixpoint answers (h : list charge) (s : Store) : list Z * Store :=
  match h with
  | [] => ([], s)
  | (now, key, delta) :: h => let '(d, s) := add_debt now key delta s in let '(ds, s) := answers h s in (d :: ds, s)
  end.

(** the reference: the most that any run of charges up to now left over the time since the first of them *)
Fixpoint owed (charges : list (Z * Z)) (now : Z) : Z :=
  match charges with
  | [] => 0
  | (t, delta) :: rest => Z.max (owed rest now) (foldr Z.add 0 (delta :: rest.*2) - (now - t))
  end.

Definition charged (key : string) (h : list charge) : list (Z * Z) :=
  omap (fun '(now, k, delta) => if bool_decide (k = key) then Some (now, delta) else None) h.

Lemma owed_pos charges now : 0 <= owed charges now.
Proof. induction charges as [|[t d] l IH]; cbn; lia. Qed.

Lemma owed_later charges t t' : t <= t' -> owed charges t' = Z.max 0 (owed charges t - (t' - t)).
Proof.
  intros Ht. induction charges as [|[u d] l IH]; cbn [owed]; [lia|]. rewrite IH. pose proof (owed_pos l t). lia.
Qed.

Lemma sum_snoc l x : foldr Z.add 0 (l ++ [x]) = foldr Z.add 0 l + x.
Proof. induction l as [|y l IH]; cbn; [lia|]. rewrite IH. lia. Qed.

Lemma owed_snoc charges t delta : 0 <= delta -> owed (charges ++ [(t, delta)]) t = owed charges t + delta.
Proof.
  intros Hd. induction charges as [|[u d] l IH]; cbn [app owed fmap list_fmap foldr]; [lia|].
  rewrite IH, fmap_app. change ([(t, delta)].*2) with [delta]. rewrite sum_snoc. lia.
Qed.

(** what a store holds of a key is what is owed of the charges made *)
Definition holds_debt (s : Store) (h : list charge) (last : Z) : Prop :=
  forall key, match s !! key with
  | Some d => at_ d <= last /\ expires d = at_ d + (debt d + GRACE) /\ debt d = owed (charged key h) (at_ d)
  | None => charged key h = []
  end.

Lemma current s h last now key : holds_debt s h last -> last <= now ->
  let d := match read now key s with Some d => debt d | None => 0 end in
  let at' := match read now key s with Some d => at_ d | None => now end in
  Z.max 0 (d - (now - at')) = owed (charged key h) now.
Proof.
  intros Hs Hl. specialize (Hs key). unfold read. destruct (s !! key) as [d|]; [|rewrite Hs; cbn; lia].
  destruct Hs as (Ha & He & Hd). rewrite (owed_later _ (at_ d) now) by lia. rewrite <- Hd.
  destruct (Z.ltb_spec now (expires d)); cbn zeta; [done|]. unfold GRACE in *. lia.
Qed.

Lemma charged_app key h h' : charged key (h ++ h') = charged key h ++ charged key h'.
Proof. apply omap_app. Qed.

Lemma charged_here now key delta : charged key [(now, key, delta)] = [(now, delta)].
Proof. unfold charged. cbn. by rewrite bool_decide_eq_true_2. Qed.

Lemma add_debt_owed s h last now key delta d s' : holds_debt s h last -> last <= now -> 0 <= delta -> add_debt now key delta s = (d, s') ->
  d = owed (charged key (h ++ [(now, key, delta)])) now /\ holds_debt s' (h ++ [(now, key, delta)]) now.
Proof.
  intros Hs Hl Hd [= <- <-]. pose proof (current s h last now key Hs Hl) as Hc. cbn zeta in Hc. rewrite Hc.
  assert (Ho : owed (charged key h) now + delta = owed (charged key (h ++ [(now, key, delta)])) now).
  { rewrite charged_app, charged_here. symmetry. by apply owed_snoc. }
  split; [done|]. intros k. destruct (decide (k = key)) as [->|Hk].
  - rewrite lookup_insert_eq. cbn [at_ debt expires]. split_and!; [lia | lia | done].
  - rewrite lookup_insert_ne by done. specialize (Hs k). rewrite charged_app.
    replace (charged k [(now, key, delta)]) with (@nil (Z * Z)); [|unfold charged; cbn; by rewrite bool_decide_eq_false_2].
    rewrite app_nil_r. destruct (s !! k); [|done]. destruct Hs as (? & ? & ?). split_and!; [lia | done | done].
Qed.

(** charges in the order of their moments, none of them negative *)
Definition orderly (last : Z) (h : list charge) : Prop := StronglySorted Z.le (last :: (fst ∘ fst <$> h)) /\ Forall (fun c => 0 <= snd c) h.

Lemma answers_owed h s past last ds s' : holds_debt s past last -> orderly last h -> answers h s = (ds, s') ->
  length ds = length h /\ forall i now key delta d, h !! i = Some (now, key, delta) -> ds !! i = Some d ->
    d = owed (charged key (past ++ take (S i) h)) now.
Proof.
  revert s past last ds. induction h as [|[[now key] delta] h IH]; intros s past last ds Hs [Hh Hp] Ha; cbn [answers] in Ha.
  { injection Ha as <- <-. split; [done|]. intros i. by rewrite lookup_nil. }
  destruct (add_debt now key delta s) as [d s1] eqn:E. destruct (answers h s1) as [ds1 s2] eqn:E2. injection Ha as <- <-.
  apply StronglySorted_inv in Hh as [Hh Hall]. apply Forall_cons in Hall as [Hl _]. apply Forall_cons in Hp as [Hd Hp].
  destruct (add_debt_owed _ _ _ _ _ _ _ _ Hs Hl Hd E) as [H1 H2].
  destruct (IH s1 _ now ds1 H2 (conj Hh Hp) E2) as [H3 H4]. split; [cbn; by rewrite H3|].
  intros [|i] now' key' delta' d' Hi Hdi; cbn in Hi, Hdi.
  - injection Hi as <- <- <-. injection Hdi as <-. by rewrite firstn_cons, take_0.
  - rewrite firstn_cons, cons_middle, app_assoc. by eapply H4.
Qed.

(** the charges of a batch as they reach the store, each chunk at the moment of its call *)
Definition stamped (clock : nat -> Z) (batch : list (string * Z)) : list charge :=
  imap (fun i '(key, delta) => (clock (i / CHUNK)%nat, key, delta)) batch.

Lemma script_answers now batch s : script now batch s = answers ((fun '(key, delta) => (now, key, delta)) <$> batch) s.
Proof. revert s. induction batch as [|[key delta] batch IH]; intros s; [done|].
  rewrite fmap_cons. cbn [script answers]. destruct (add_debt now key delta s). by rewrite IH. Qed.

Lemma answers_app h h' s : answers (h ++ h') s = (let '(ds, s) := answers h s in let '(ds', s) := answers h' s in (ds ++ ds', s)).
Proof.
  revert s. induction h as [|[[now key] delta] h IH]; intros s; cbn [app answers]; [by destruct (answers h' s)|].
  destruct (add_debt now key delta s) as [d s1]. rewrite IH. destruct (answers h s1) as [ds s2]. cbn. by destruct (answers h' s2).
Qed.

Lemma stamped_small clock (batch : list (string * Z)) : (length batch <= CHUNK)%nat ->
  stamped clock batch = (fun '(key, delta) => (clock O, key, delta)) <$> batch.
Proof.
  intros H. unfold stamped. apply list_eq. intros i. rewrite list_lookup_imap, list_lookup_fmap.
  destruct (batch !! i) as [[key delta]|] eqn:E; [|done]. apply lookup_lt_Some in E.
  cbn [fmap option_fmap option_map]. rewrite Nat.div_small by lia. done.
Qed.

Lemma stamped_chunk clock (batch : list (string * Z)) : (CHUNK < length batch)%nat ->
  stamped clock batch = ((fun '(key, delta) => (clock O, key, delta)) <$> take CHUNK batch) ++ stamped (fun n => clock (S n)) (drop CHUNK batch).
Proof.
  intros H. rewrite <- (take_drop CHUNK batch) at 1. unfold stamped at 1. rewrite imap_app. f_equal.
  - pose proof (stamped_small clock (take CHUNK batch)) as Hs. rewrite <- Hs by (rewrite length_take; lia). done.
  - unfold stamped. rewrite length_take, Nat.min_l by lia. apply imap_ext. intros i [key delta] _. cbn beta iota.
    replace (CHUNK + i)%nat with (1 * CHUNK + i)%nat by lia. rewrite Nat.div_add_l by (unfold CHUNK; lia). done.
Qed.

Lemma meter_answers fuel clock batch s : (length batch < fuel * CHUNK)%nat -> meter fuel clock batch s = answers (stamped clock batch) s.
Proof.
  revert clock batch s. induction fuel as [|fuel IH]; intros clock batch s Hf; [lia|]. cbn [meter].
  destruct (Nat.leb_spec (length batch) CHUNK) as [Hl|Hl].
  - by rewrite stamped_small, script_answers.
  - rewrite stamped_chunk, answers_app, script_answers by done. destruct (answers _ s) as [ds s1].
    rewrite IH by (rewrite length_drop; lia). done.
Qed.

(** what any replica is answered for a key is what is owed of all that all of them have charged it, at the moment of the
    store's own clock: the most that any run of charges up to then left over the time since its first. Neither a key's
    expiry nor the calls a batch is split into, each at a moment of its own, lose or add any of it. *)
Theorem debt_is_shared past clock batch fuel s ds s' :
  snd (answers past ∅) = s -> meter fuel clock batch s = (ds, s') -> (length batch < fuel * CHUNK)%nat ->
  orderly 0 (past ++ stamped clock batch) ->
  length ds = length batch /\ forall i key delta d, batch !! i = Some (key, delta) -> ds !! i = Some d ->
    d = owed (charged key (past ++ take (S i) (stamped clock batch))) (clock (i / CHUNK)%nat).
Proof.
  intros Hs Hm Hf Ho. rewrite meter_answers in Hm by done.
  destruct (answers past ∅) as [ps s0] eqn:E. cbn in Hs. subst s0.
  assert (Ha : answers (past ++ stamped clock batch) ∅ = (ps ++ ds, s')) by (by rewrite answers_app, E, Hm).
  assert (H0 : holds_debt ∅ [] 0) by (intros key; by rewrite lookup_empty).
  destruct (answers_owed _ _ _ _ _ _ H0 Ho Ha) as [Hl Hi].
  assert (Hp : length ps = length past).
  { clear -E. revert ps E. generalize (∅ : gmap string Debt). induction past as [|[[now key] delta] past IH]; intros m ps E.
    - by injection E as <- _.
    - cbn [answers] in E. destruct (add_debt now key delta m) as [d m1]. destruct (answers past m1) as [ds m2] eqn:E2. injection E as <- <-. cbn. by rewrite (IH _ _ E2). }
  rewrite !length_app in Hl. split; [unfold stamped in Hl; rewrite length_imap in Hl; lia|].
  intros i key delta d Hb Hd. replace (past ++ take (S i) (stamped clock batch)) with (take (S (length past + i)) (past ++ stamped clock batch)).
  - eapply (Hi (length past + i)%nat _ _ delta).
    + rewrite lookup_app_r by lia. replace (length past + i - length past)%nat with i by lia.
      unfold stamped. rewrite list_lookup_imap, Hb. done.
    + rewrite lookup_app_r by lia. by replace (length past + i - length ps)%nat with i by lia.
  - rewrite take_app_ge by lia. by replace (S (length past + i) - length past)%nat with (S i) by lia.
Qed.

(** ** Keys, locks and addresses *)

Lemma named_inj k k' : named k = named k' -> k = k'.
Proof. by destruct k, k'. Qed.

Lemma named_plain k : ":"%char ∉ chars (named k).
Proof. apply (bool_decide_eq_true_1 _). by destruct k. Qed.

(** a key is one group's, of one kind and under one name *)
Theorem keys_do_not_meet scope group k key group' k' key' : ":"%char ∉ chars group -> ":"%char ∉ chars group' ->
  key_of scope group k key = key_of scope group' k' key' -> group = group' /\ k = k' /\ key = key'.
Proof.
  intros Hg Hg' Heq. apply (f_equal chars) in Heq. unfold key_of, prefix in Heq. rewrite !chars_app, <- !app_assoc in Heq.
  do 4 apply app_inv_head in Heq.
  apply app_separator_inj in Heq as [Heq1 Heq]; [|done..]. apply app_separator_inj in Heq as [Heq2 Heq3]; [|apply named_plain..].
  split_and!; [by apply chars_inj | by apply named_inj, chars_inj | by apply chars_inj].
Qed.

(** a lock leaves the gauge as the routine left it, whatever ends it, and its wait is recorded once; a routine is entered
    only under it *)
Theorem lock_is_measured {E A} using_ scope group ks (routine : Meters -> result E A * Meters) m r m' :
  (forall m, holding (snd (routine m)) = holding m /\ waits (snd (routine m)) = waits m) ->
  lock using_ scope group ks routine m = (r, m') -> holding m' = holding m /\ waits m' = S (waits m).
Proof.
  intros Hr H. unfold lock in H. destruct (using_ _ _); [by injection H as _ <-|].
  pose proof (Hr (mkMeters (holding m + 1) (S (waits m)))) as [H1 H2].
  destruct (routine _) as [r1 m1]. injection H as _ <-. cbn in *. lia.
Qed.

(** an even number of addresses loses no more of them than one fewer does, and any two quorums share an address *)
Lemma quorum_of_even n : (0 < n)%nat -> Nat.even n = true -> (n - quorum n = (n - 1) - quorum (n - 1))%nat.
Proof.
  intros Hn [k ->]%Nat.even_spec. unfold quorum. replace (2 * k)%nat with (k * 2)%nat by lia. rewrite Nat.div_mul by lia.
  replace (k * 2 - 1)%nat with (1 + (k - 1) * 2)%nat by lia. rewrite Nat.div_add by lia. cbn. lia.
Qed.

Lemma quorums_meet n : (n < 2 * quorum n)%nat.
Proof. unfold quorum. pose proof (Nat.div_mod n 2 ltac:(lia)). pose proof (Nat.mod_upper_bound n 2 ltac:(lia)). lia. Qed.

(** ** A claim and its loop *)

Lemma act_claims e a a' : act e a = Some a' -> (assignment a <> None -> running a = true) -> assignment a' <> None -> running a' = true.
Proof.
  intros Ha Hr. destruct e; cbn [act] in Ha.
  - destruct (running a) eqn:E; [done|]. injection Ha as <-. destruct redis; [done|]. by rewrite E.
  - destruct (running a) eqn:E; [|done]. destruct (tell _ _ _) as [said []]; by injection Ha as <-.
  - by injection Ha as <-.
  - by injection Ha as <-.
  - by injection Ha as <-.
  - destruct (running a && aborted a); [|done]. by injection Ha as <-.
Qed.

(** an atom claims slots only while its loop runs: once it was closed or a listener raised, and before it was opened or where
    there is no Redis, it owns nothing *)
Theorem claims_while_registered es a total : acts es atom = Some a -> slots (assignment a) total <> None -> running a = true.
Proof.
  intros H Hs. assert (Hc : assignment a <> None) by (unfold slots in Hs; by destruct (assignment a)). revert H Hc. clear Hs.
  assert (H0 : assignment atom <> None -> running atom = true) by done. revert H0. generalize atom.
  induction es as [|e es IH]; intros a0 H0 H; cbn in H; [by injection H as <-|].
  destruct (act e a0) as [a1|] eqn:E; [|done]. apply (IH a1); [by eapply act_claims | done].
Qed.

Module Replicas.

Lemma slots_are_shared_out_witness : 3 ∈ [1; 3; 5; 7] <-> 0 <= 3 < 9 /\ 3 mod 2 = 1.
Proof. exact (proj1 (slots_are_shared_out 1 2 9 [1; 3; 5; 7] ltac:(lia) eq_refl) 3). Defined.

(** two replicas charge one key, the second when some of the first charge is drained; a key expires meanwhile *)
Definition past : list (Z * string * Z) := [(100, "sam", 5000); (200, "bob", 50); (1100, "sam", 3000)].
Definition clock (n : nat) : Z := 20000 + Z.of_nat n.
Definition batch : list (string * Z) := [("sam", 1000); ("bob", 700); ("sam", 10)].

Lemma debt_is_shared_witness : exists ds s', meter 1 clock batch (snd (answers past ∅)) = (ds, s') /\ ds = [1000; 700; 1010] /\
  1010 = owed (charged "sam" (past ++ stamped clock batch)) 20000.
Proof.
  destruct (meter 1 clock batch (snd (answers past ∅))) as [ds s'] eqn:E. exists ds, s'. split; [done|].
  assert (Hd : ds = [1000; 700; 1010]).
  { assert (H : fst (meter 1 clock batch (snd (answers past ∅))) = [1000; 700; 1010]) by (vm_compute; reflexivity). by rewrite E in H. }
  split; [done|].
  assert (Ho : orderly 0 (past ++ stamped clock batch)).
  { split; [|apply (bool_decide_eq_true_1 _); vm_compute; reflexivity].
    vm_compute. repeat (apply SSorted_cons || apply SSorted_nil || apply Forall_cons || apply Forall_nil || split); vm_compute; discriminate. }
  destruct (debt_is_shared past clock batch 1 _ ds s' eq_refl E ltac:(apply Nat.ltb_lt; vm_compute; reflexivity) Ho) as [_ H].
  apply (H 2%nat "sam" 10 1010); [reflexivity | by rewrite Hd].
Defined.

Lemma keys_do_not_meet_witness : key_of "dev" "mail.sender" LOCK "a" <> key_of "dev" "mail.sender" METER "a".
Proof.
  intros H. destruct (keys_do_not_meet "dev" "mail.sender" LOCK "a" "mail.sender" METER "a") as (_ & [=] & _);
    [apply (bool_decide_eq_true_1 _); reflexivity.. | exact H].
Defined.

(** a listener is told of what is claimed, and not of its loss as the loop ends: neither where the atom closes nor where
    another listener raises *)
Theorem loss_is_not_told : exists a b,
  acts [Opens true; Adds 1; Adds 2; Yields (Some 0) 2 (fun _ => false); Closes; Ends] atom = Some a /\
  acts [Opens true; Adds 1; Adds 2; Yields (Some 0) 2 (fun l => (l =? 2)%nat)] atom = Some b /\
  assignment a = None /\ assignment b = None /\
  last (told a) = Some (2%nat, Some (mkAssignment 0 2)) /\ last (filter (fun t => fst t = 1%nat) (told b)) = Some (1%nat, Some (mkAssignment 0 2)).
Proof. eexists _, _. split; [reflexivity|]. split; [reflexivity|]. vm_compute. done. Qed.

End Replicas.
