(* ===== verification/Chronicles.v ===== *)
(** * Chronicles

    [extensions/chronicles/source/] and the contracts of [definitions/source/extensions.chronicles/]: what of an event, of an
    entity as it stands and of a fact is written in the log, what clients send to it and when that is said to have happened,
    how rows reach the broker of the log, and how the log is read and its views are made. *)
From stdpp Require Import strings pretty sorting.
From S2P Require Import Prelude.

Open Scope Z_scope.

Notation Fields := (list (string * value)) (only parsing).

(** ** Contracts ([types.ts], [contract.ts] of the definitions) *)

(** the schema of a property, as it is declared: its properties, if they are any and not some other value, and the keys
    beside those that are known; or what is no schema *)
Inductive Property :=
| Property_ (type description enum format : option value) (properties : option (value + list (string * Property)))
    (items : option Property) (extra : list string)
| NoSchema (v : value).

Record Contract := mkContract { description_ : string; properties_ : list (string * Property) }.

Definition SCALARS : list string := ["string"; "integer"; "number"; "boolean"].
Definition TYPES : list string := SCALARS ++ ["object"; "array"].
Definition OWN : list string := ["id"; "time"; "received"; "entity"; "version"; "identity"; "trace"].

Definition between_ (a b c : ascii) : bool := (nat_of_ascii a <=? nat_of_ascii c)%nat && (nat_of_ascii c <=? nat_of_ascii b)%nat.
Definition lower (c : ascii) : bool := between_ "a" "z" c.
Definition letter (c : ascii) : bool := lower c || between_ "A" "Z" c.
Definition digit (c : ascii) : bool := between_ "0" "9" c.

(** [NAME] of a property *)
Definition column_name (s : string) : bool :=
  match chars s with
  | c :: cs => (letter c || Ascii.eqb c "_") && forallb (fun c => letter c || digit c || Ascii.eqb c "_") cs
  | [] => false
  end.

Definition strings (v : value) : bool :=
  match v with VArray (v :: vs) => forallb (fun v => match v with VString _ => true | _ => false end) (v :: vs) | _ => false end.

Section contracts.
(** [JSON.stringify] *)
Context (json : value -> string).

Definition declare_ (path what : string) : string := "Chronicles declare '" +:+ path +:+ "'" +:+ what.

Definition named (name path : string) : result string unit :=
  refuse_when (negb (column_name name))
    (declare_ path ": a property is named by letters, digits and underscores from a letter or an underscore.").

Fixpoint inspect (p : Property) (path : string) (described : bool) : result string unit :=
  match p with
  | NoSchema _ => Throw (declare_ path ", which is not a schema of a property.")
  | Property_ type description enum format properties items extra =>
      match extra with key :: _ => Throw (declare_ path (" with '" +:+ key +:+ "', which the log has no type for.")) | [] => Ok tt end ;;
      refuse_when (described && match description with Some (VString s) => bool_decide (s = "") | _ => true end)
        (declare_ path " with no description.") ;;
      t ← match type with
          | Some (VString t) => if bool_decide (t ∈ TYPES) then Ok t else Throw (declare_ path (" of the type '" +:+ json (VString t) +:+ "', which is not one of the types."))
          | _ => Throw (declare_ path (" of the type '" +:+ json (default VUndefined type) +:+ "', which is not one of the types."))
          end;
      refuse_when (match enum with Some e => negb (bool_decide (t = "string")) || negb (strings e) | None => false end)
        (declare_ path " with an enum that is not of strings.") ;;
      refuse_when (match format with Some f => match f with VString _ => false | _ => true end || negb (bool_decide (t ∈ SCALARS)) | None => false end)
        (declare_ path " with a format the type has none of.") ;;
      (if bool_decide (t = "object") then
        match properties with
        | Some (inr ms) =>
            (fix each (ms : list (string * Property)) :=
              match ms with
              | [] => Ok tt
              | (key, nested) :: ms =>
                  named key (path +:+ "." +:+ key) ;;
                  inspect nested (path +:+ "." +:+ key) true ;;
                  each ms
              end) ms
        | _ => Throw (declare_ path ", an object, with no properties.")
        end
      else refuse_when (match properties with Some _ => true | None => false end) (declare_ path " with properties, which is not an object.")) ;;
      (if bool_decide (t = "array") then
        match items with
        | Some p => inspect p (path +:+ "[]") false
        | None => Throw (declare_ path ", an array, with no items.")
        end
      else refuse_when (match items with Some _ => true | None => false end) (declare_ path " with items, which is not an array."))
  end.

Fixpoint check_all (ms : list (string * Property)) (where_ : string) : result string unit :=
  match ms with
  | [] => Ok tt
  | (name, p) :: ms =>
      refuse_when (bool_decide (name ∈ OWN)) (declare_ (where_ +:+ "." +:+ name) ", which is a column of the row.") ;;
      named name (where_ +:+ "." +:+ name) ;;
      inspect p (where_ +:+ "." +:+ name) true ;;
      check_all ms where_
  end.

Definition check (c : Contract) (where_ : string) : result string unit := check_all (properties_ c) where_.

End contracts.

(** ** What of a payload is written ([contract.ts]) *)

(** what a payload is refused for, or what the language throws for a contract that was never checked *)
Inductive misfit := Mismatch (path : string) | Fault.

Definition sub (path name : string) : string := if bool_decide (path = "") then name else path +:+ "." +:+ name.

(** [Number.isInteger] and the rest of what a value is asked *)
Definition enumerated (enum : option value) (s : string) : bool :=
  match enum with Some (VArray vs) => bool_decide (VString s ∈ vs) | Some _ => false | None => true end.

Definition kind_of (p : Property) : option string := match p with Property_ (Some (VString t)) _ _ _ _ _ _ => Some t | _ => None end.

Fixpoint fit (p : Property) (path : string) (v : value) : result misfit value :=
  match p with
  | NoSchema _ => match v with VNull => Ok VNull | _ => Ok VUndefined end
  | Property_ type _ enum _ properties items _ =>
      if bool_decide (v = VNull) then Ok VNull
      else
        match type with
        | Some (VString "string") =>
            match v with VString s => if enumerated enum s then Ok v else Throw (Mismatch path) | _ => Throw (Mismatch path) end
        | Some (VString "integer") => match v with VNumber _ => Ok v | _ => Throw (Mismatch path) end
        | Some (VString "number") => match v with VNumber _ | VDecimal _ _ => Ok v | _ => Throw (Mismatch path) end
        | Some (VString "boolean") => match v with VBool _ => Ok v | _ => Throw (Mismatch path) end
        | Some (VString "object") =>
            match v with
            | VObject payload =>
                match properties with
                | Some (inr ms) =>
                    VObject <$>
                    (fix project (ms : list (string * Property)) : result misfit Fields :=
                      match ms with
                      | [] => Ok []
                      | (name, q) :: ms =>
                          match own payload name with
                          | None | Some VUndefined => project ms
                          | Some v => x ← fit q (sub path name) v; rest ← project ms; Ok ((name, x) :: rest)
                          end
                      end) ms
                | _ => Ok (VObject [])
                end
            | _ => Throw (Mismatch path)
            end
        | Some (VString "array") =>
            match v with
            | VArray vs =>
                VArray <$>
                (fix each (i : Z) (vs : list value) : result misfit (list value) :=
                  match vs with
                  | [] => Ok []
                  | v :: vs =>
                      x ← match items with Some q => fit q (path +:+ "[" +:+ pretty i +:+ "]") v | None => Throw Fault end;
                      rest ← each (i + 1) vs;
                      Ok (x :: rest)
                  end) 0 vs
            | _ => Throw (Mismatch path)
            end
        | _ => Ok VUndefined
        end
  end.

Fixpoint project (payload : Fields) (ms : list (string * Property)) (path : string) : result misfit Fields :=
  match ms with
  | [] => Ok []
  | (name, p) :: ms =>
      match own payload name with
      | None | Some VUndefined => project payload ms path
      | Some v => x ← fit p (sub path name) v; rest ← project payload ms path; Ok ((name, x) :: rest)
      end
  end.

(** ** Rows ([Provider.ts]) and what makes them ([Recorder.ts], [Sender.ts]) *)

(** what is thrown: a contract that was broken, a misuse, or an error of the language *)
Inductive thrown := EntityContract (message : string) | Misuse (message : string) | Failed (message : string).

Record Row := mkRow {
  id_ : string; label_ : string; component_ : string; time_ : Z; entity_ : option string; version_ : option value;
  identity_ : option string; trace_ : option string; payload_ : Fields
}.

Record State := mkState {
  s_component : string; s_entity : string; s_version : value; s_identity : option string; s_time : Z; s_payload : Fields
}.

Record Message := mkMessage { m_id : option string; m_payload : value; m_time : option Z; m_telemetry : option string }.

(** what a component declares of the payloads of a label *)
Record Of := mkOf { o_contract : Contract; o_identity : option string; o_timestamp : option string }.

Inductive Kind := Event_ | State_.

(** [payload], or the object that holds it *)
Definition object (payload : value) : Fields := match payload with VObject fields => fields | v => [("value", v)] end.

Definition text_ (v : option value) : option string := match v with Some (VString s) => Some s | _ => None end.
Definition number_ (v : option value) : option value := match v with Some (VNumber _ | VDecimal _ _) => v | _ => None end.

(** a number as the moment it is written as: what is past its integer is dropped *)
Definition moment (v : value) : option Z :=
  match v with
  | VNumber n => Some n
  | VDecimal m e => Some (if e <? 0 then Z.quot m (10 ^ (- e)) else m * 10 ^ e)
  | _ => None
  end.

Definition whose (payload : Fields) (property : option string) : option string := property ≫= fun p => text_ (own payload p).

Definition when_ (now : Z) (payload : Fields) (m : Message) (property : option string) : Z :=
  match (name ← property; v ← own payload name; moment v) : option Z with
  | Some said => said
  | None => default now (m_time m)
  end.

(** what comes before the last dot *)
Definition component_of (label : string) : string := join "." (removelast (split "."%char label)).

Definition declared (refusal : string -> thrown) (payload : Fields) (c : Contract) : result thrown Fields :=
  match project payload (properties_ c) "" with
  | Ok p => Ok p
  | Throw (Mismatch path) => Throw (refusal path)
  | Throw Fault => Throw (Failed "a property of no schema is read")
  end.

Section recorder.
(** the clock, [JSON.stringify] and [entities.derive] *)
Context (now : Z) (json : value -> string) (derive : list string -> string).

Definition broken (label path : string) : thrown :=
  EntityContract ("The payload of '" +:+ label +:+ "' is not what its chronicles declare: '" +:+ path +:+ "'").

Definition row (label component : string) (m : Message) (o : Of) : result thrown Row :=
  let payload := object (m_payload m) in
  p ← declared (broken label) payload (o_contract o);
  Ok (mkRow (match m_id m with Some i => i | None => derive [label; json (VObject payload)] end) label component
    (when_ now payload m (o_timestamp o)) (text_ (own payload "id")) (number_ (own payload "VERSION"))
    (whose payload (o_identity o)) (m_telemetry m) p).

Definition state (label component : string) (m : Message) (o : Of) : result thrown State :=
  let payload := object (m_payload m) in
  match text_ (own payload "id"), number_ (own payload "VERSION") with
  | Some id, Some version =>
      p ← declared (broken label) payload (o_contract o);
      Ok (mkState component id version (whose payload (o_identity o)) (when_ now payload m (o_timestamp o)) p)
  | _, _ => Throw (EntityContract ("The state '" +:+ label +:+ "' is an entity as it stands, and its payload carries no 'id' and 'VERSION'"))
  end.

(** [receive]: what is published of a message *)
Definition receive (label : string) (kind : Kind) (m : Message) (o : Of) : result thrown (list Row * list State) :=
  match kind with
  | State_ => s ← state label (component_of label) m o; Ok ([], [s])
  | Event_ => r ← row label (component_of label) m o; Ok ([r], [])
  end.

(** [NAME] of a fact: segments of letters and digits, each from a letter *)
Definition fact_name (s : string) : bool :=
  forallb (fun part => match chars part with c :: cs => letter c && forallb (fun c => letter c || digit c) cs | [] => false end) (split "."%char s).

(** [send]: the row a task of is made, under an id that is new, with the trace of the call; [String(name)] is the language's *)
Definition send (as_text : value -> string) (component newid : string) (facts : list (string * Contract)) (trace : option string)
    (name : value) (payload : option value) (identity : option value) : result thrown Row :=
  match name with
  | VString n =>
      if negb (fact_name n) then
        Throw (Misuse ("A chronicle is named by segments of letters and digits separated by dots, not '" +:+ n +:+ "'"))
      else
        fields ← match payload with
                 | None | Some VUndefined => Ok []
                 | Some (VObject fields) => Ok fields
                 | _ => Throw (Misuse "The payload of a chronicle is an object")
                 end;
        match own facts n with
        | None => Throw (Misuse ("'" +:+ component +:+ "' declares no fact '" +:+ n +:+ "'"))
        | Some c =>
            p ← declared (fun path => Misuse ("The fact '" +:+ n +:+ "' is not what its chronicles declare: '" +:+ path +:+ "'")) fields c;
            Ok (mkRow newid (component +:+ "." +:+ n) component now None None (text_ identity) trace p)
        end
  | v => Throw (Misuse ("A chronicle is named by segments of letters and digits separated by dots, not '" +:+ as_text v +:+ "'"))
  end.
End recorder.

(** ** What clients send ([Client.ts], [address.ts], [agent.ts]) *)

Record Event := mkEvent { e_id : string; e_name : string; e_time : Z; e_payload : Fields }.
Record Batch := mkBatch { sent : Z; visitor : option string; session : option string; events : list Event }.

Record Encounter := mkEncounter {
  c_id : string; c_name : string; c_time : Z; c_received : Z; c_visitor : option string; c_session : option string;
  c_identity : option string; c_ip : option string; c_country : option string; c_origin : option string; c_agent : option string;
  c_browser : option string; c_os : option string; c_device : option string; c_payload : Fields
}.

(** a refusal by its code, with the event it is of *)
Inductive refusal := INVALID (message : string) (index : option nat) | OVERSIZED (index : nat).

Definition MAX_EVENTS : nat := 100.
Definition MAX_PAYLOAD : Z := 16384.

Definition encounter_name (s : string) : bool :=
  match chars s with c :: cs => lower c && forallb (fun c => lower c || digit c || Ascii.eqb c "_") cs | [] => false end.

Definition KEYS : list string := ["events"; "sent"; "visitor"; "session"; "identity"; "ip"; "country"; "origin"; "agent"].

Definition fits_text (s : string) : bool := negb (bool_decide (s = "")) && (String.length s <=? 64)%nat.

Inductive Address := Truncated | Full.

(** an IPv4 address with the last of its numbers a zero: [replace(/\.\d+$/, '.0')] *)
Definition truncated (address : string) : string :=
  match rev (split "."%char address) with
  | l :: ((_ :: _) as more) => if negb (bool_decide (l = "")) && forallb digit (chars l) then join "." (rev more ++ ["0"]) else address
  | _ => address
  end.

(** what comes before the first [::], and what after *)
Fixpoint halves (s : list ascii) : list ascii * option (list ascii) :=
  match s with
  | [] => ([], None)
  | c :: s =>
      match c, s with
      | ":"%char, ":"%char :: rest => ([], Some rest)
      | _, _ => let '(l, r) := halves s in (c :: l, r)
      end
  end.

Definition groups (s : list ascii) : list string := if bool_decide (s = []) then [] else split ":"%char (of_chars s).

(** [replace(/^0+(?=.)/, '')] *)
Fixpoint unpadded (s : list ascii) : list ascii :=
  match s with "0"%char :: ((_ :: _) as rest) => unpadded rest | _ => s end.

(** the first three groups of an IPv6 address *)
Definition network (address : string) : string :=
  let '(head, rest) := halves (chars address) in
  let left := groups head in
  let right := groups (match rest with Some rest => fst (halves rest) | None => [] end) in
  let all := left ++ replicate (8 - length left - length right) "0" ++ right in
  join ":" ((fun g => of_chars (unpadded (chars g))) <$> take 3 all) +:+ "::".

Section client.
(** [isIPv4] and [isIPv6] of the platform, [JSON.parse] and the length of a value as JSON, and whether a pattern is found *)
Context (is_v4 is_v6 : string -> bool) (parse_json : string -> option value) (size : value -> Z) (test : string -> string -> bool).

Definition keep (address : option value) (how : Address) : option string :=
  match address with
  | Some (VString a) =>
      if is_v4 a then Some (match how with Full => a | Truncated => truncated a end)
      else if is_v6 a then Some (match how with Full => a | Truncated => network a end)
      else None
  | _ => None
  end.

Definition BROWSERS : list (string * string) :=
  [("Edge", "Edg(e|A|iOS)?\/"); ("Opera", "OPR\/|OPT\/|Opera"); ("Samsung Internet", "SamsungBrowser\/");
   ("Firefox", "Firefox\/|FxiOS\/"); ("Chrome", "(|Headless)Chrome\/|CriOS\/"); ("Safari", "Version\/[\d.]+.*Safari\/")].

Definition SYSTEMS : list (string * string) :=
  [("Windows", "Windows"); ("iOS", "(iPhone|iPad|iPod)"); ("macOS", "Mac OS X|Macintosh"); ("Android", "Android");
   ("ChromeOS", "CrOS"); ("Linux", "Linux")].

(** the first is told whatever the case *)
Definition DEVICES : list (string * string) :=
  [("bot", "bot|crawl|spider|slurp|preview|headless|^curl\/|^wget\/|^python-|^go-http|^okhttp");
   ("tablet", "iPad|Tablet|Android(?!.*Mobile)"); ("mobile", "Mobile|iPhone|iPod")].

Definition first_ (patterns : list (string * string)) (agent : string) : option string :=
  fst <$> find (fun p => test (snd p) agent) patterns.

Definition classify (agent : option string) : option string * option string * option string :=
  match agent with
  | None | Some "" => (None, None, None)
  | Some a => (first_ BROWSERS a, first_ SYSTEMS a, Some (default "desktop" (first_ DEVICES a)))
  end.

(** [check], of one event: what it is refused for, or the event *)
Definition check_event (v : value) : result string Event :=
  match v with
  | VObject fields =>
      match filter (fun p => fst p ∉ ["id"; "name"; "time"; "payload"]) fields with
      | (key, _) :: _ => Throw ("An event has no '" +:+ key +:+ "'")
      | [] =>
          i ← match own fields "id" with Some (VString s) => if fits_text s then Ok s else Throw "`id` is a string of 1 to 64 characters" | _ => Throw "`id` is a string of 1 to 64 characters" end;
          n ← match own fields "name" with
              | Some (VString s) => if (String.length s <=? 64)%nat && encounter_name s then Ok s else Throw "`name` is lowercase letters, digits and underscores from a letter, at most 64 characters"
              | _ => Throw "`name` is lowercase letters, digits and underscores from a letter, at most 64 characters"
              end;
          t ← match own fields "time" with
              | Some (VNumber t) => if 0 <=? t then Ok t else Throw "`time` is when it happened, in milliseconds by the client's clock"
              | _ => Throw "`time` is when it happened, in milliseconds by the client's clock"
              end;
          p ← match own fields "payload" with
              | None | Some VUndefined => Ok []
              | Some (VObject p) => Ok p
              | _ => Throw "`payload` is an object"
              end;
          Ok (mkEvent i n t p)
      end
  | _ => Throw "An event is an object"
  end.

Fixpoint check_events (sent : Z) (index : nat) (vs : list value) : result refusal (list Event) :=
  match vs with
  | [] => Ok []
  | v :: vs =>
      e ← match check_event v with Ok e => Ok e | Throw problem => Throw (INVALID problem (Some index)) end;
      refuse_when (sent <? e_time e) (INVALID "An event happens before the batch that carries it is sent" (Some index)) ;;
      refuse_when (MAX_PAYLOAD <? size (VObject (e_payload e))) (OVERSIZED index) ;;
      es ← check_events sent (S index) vs;
      Ok (e :: es)
  end.

Definition optional (key : string) (v : option value) : result refusal (option string) :=
  match v with
  | None | Some VUndefined | Some VNull => Ok None
  | Some (VString s) => if fits_text s then Ok (Some s) else Throw (INVALID ("`" +:+ key +:+ "` is a string of 1 to 64 characters") None)
  | _ => Throw (INVALID ("`" +:+ key +:+ "` is a string of 1 to 64 characters") None)
  end.

(** the digits of a form *)
Definition numeral (s : string) : option Z :=
  let cs := chars s in
  if (1 <=? length cs)%nat && (length cs <=? 15)%nat && forallb digit cs
  then Some (fold_left (fun n c => n * 10 + (Z.of_nat (nat_of_ascii c) - 48)) cs 0) else None.

Definition stated (v : option value) : result refusal Z :=
  let refused := INVALID "`sent` is when the client sent the batch, in milliseconds by its clock" None in
  match match v with Some (VString s) => numeral s | Some (VNumber n) => Some n | _ => None end with
  | Some n => if 0 <=? n then Ok n else Throw refused
  | None => Throw refused
  end.

Definition parse (input : value) (identified : bool) : result refusal Batch :=
  match input with
  | VObject fields =>
      match filter (fun p => fst p ∉ KEYS) fields with
      | (key, _) :: _ => Throw (INVALID ("The body has no '" +:+ key +:+ "'") None)
      | [] =>
          refuse_when (negb identified && match own fields "identity" with None | Some VUndefined => false | _ => true end)
            (INVALID "The body names no identity: a client that has one sends it in the path" None) ;;
          v ← optional "visitor" (own fields "visitor");
          s ← optional "session" (own fields "session");
          n ← stated (own fields "sent");
          given ← match own fields "events" with
                  | Some (VString t) => match parse_json t with Some v => Ok v | None => Throw (INVALID "`events` is not JSON" None) end
                  | v => Ok (default VUndefined v)
                  end;
          match given with
          | VArray vs =>
              refuse_when (MAX_EVENTS <? length vs)%nat (INVALID "A request carries at most 100 events" None) ;;
              es ← check_events n 0 vs;
              Ok (mkBatch n v s es)
          | _ => Throw (INVALID "`events` is an array of events" None)
          end
      end
  | _ => Throw (INVALID "The body is `{ sent, visitor?, session?, events }`" None)
  end.

(** [write]: the encounters of the task that is given to the relay *)
Definition write (received : Z) (how : Address) (input : value) (identity : option string) : result refusal (list Encounter) :=
  b ← parse input (match identity with Some _ => true | None => false end);
  let fields := object input in
  let agent := text_ (own fields "agent") in
  let '(browser, os, device) := classify agent in
  Ok ((fun e => mkEncounter (e_id e) (e_name e) (received - (sent b - e_time e)) received (visitor b) (session b) identity
    (keep (own fields "ip") how) (text_ (own fields "country")) (text_ (own fields "origin")) agent browser os device (e_payload e)) <$> events b).
End client.

(** ** What the broker is handed ([Publisher.ts]) *)

Definition DAY : Z := 86400000.
Definition FOREVER : string := "2106-01-01 00:00:00".

(** the moments a [Date] holds *)
Definition MAX_DATE : Z := 8640000000000000.

Fixpoint replace_first (a : ascii) (by_ : string) (s : string) : string :=
  match s with
  | EmptyString => ""
  | String c s => if Ascii.eqb c a then by_ +:+ s else String c (replace_first a by_ s)
  end.

Section messages.
(** [toISOString] of a moment there is *)
Context (iso : Z -> string).

Definition timestamp (ms : Z) : result thrown string :=
  if Z.abs ms <=? MAX_DATE then Ok (replace_first "Z" "" (replace_first "T" " " (iso ms))) else Throw (Failed "Invalid time value").

Definition expires (from : Z) (retention : option Z) : result thrown string :=
  match retention with
  | None => Ok FOREVER
  | Some days => (fun t => String.substring 0 19 t) <$> timestamp (from + days * DAY)
  end.

(** [message]: of what a row says, its times as the store reads them *)
Definition message (row : Fields) (time : Z) (received : option Z) (scope : string) (until : option string) : result thrown Fields :=
  t ← timestamp time;
  r ← match received with Some ms => Some <$> timestamp ms | None => Ok None end;
  let body := assign "time" (VString t) (assign_all [("scope", VString scope)] row) in
  let body := match r with Some r => assign "received" (VString r) body | None => body end in
  Ok (match until with Some u => assign "expires" (VString u) body | None => body end).

Definition nullable (s : option string) : value := match s with Some s => VString s | None => VNull end.

Definition encounter_fields (c : Encounter) : Fields :=
  [("id", VString (c_id c)); ("name", VString (c_name c)); ("time", VNumber (c_time c)); ("received", VNumber (c_received c));
   ("visitor", nullable (c_visitor c)); ("session", nullable (c_session c)); ("identity", nullable (c_identity c)); ("ip", nullable (c_ip c));
   ("country", nullable (c_country c)); ("origin", nullable (c_origin c)); ("agent", nullable (c_agent c)); ("browser", nullable (c_browser c));
   ("os", nullable (c_os c)); ("device", nullable (c_device c)); ("payload", VObject (c_payload c))].

Definition row_fields (r : Row) : Fields :=
  [("id", VString (id_ r)); ("label", VString (label_ r)); ("component", VString (component_ r)); ("time", VNumber (time_ r));
   ("entity", nullable (entity_ r)); ("version", default VNull (version_ r)); ("identity", nullable (identity_ r)); ("trace", nullable (trace_ r));
   ("payload", VObject (payload_ r))].

Definition state_fields (s : State) : Fields :=
  [("component", VString (s_component s)); ("entity", VString (s_entity s)); ("version", s_version s); ("identity", nullable (s_identity s));
   ("time", VNumber (s_time s)); ("payload", VObject (s_payload s))].

(** [route]: the table and the body of what a publication hands to the broker *)
Definition routed (scope : string) (retention : option Z) (rows : list Row) (states : list State) (encounters : list Encounter) :
    list (string * result thrown Fields) :=
  ((fun r => ("events", u ← expires (time_ r) retention; message (row_fields r) (time_ r) None scope (Some u))) <$> rows) ++
  ((fun s => ("states", message (state_fields s) (s_time s) None scope None)) <$> states) ++
  ((fun c => ("encounters", u ← expires (c_received c) retention; message (encounter_fields c) (c_time c) (Some (c_received c)) scope (Some u))) <$> encounters).

End messages.

(** a connection being made: the broker is looked for, until that is given up; then it is asked of the client *)
Inductive stage := Probing (aborted : bool) | Connecting | Made | Gone.

Record Publisher := mkPublisher {
  stopped : bool;
  io : option nat;
  opened : option nat;
  attempts : list stage;
  (** those to be closed once they are made, and those that were *)
  late : list nat;
  closed : list nat;
  (** publications that wait for a connection, and those a connection carries *)
  waiting : list (nat * nat);
  carried : list (nat * nat);
  (** publications by whether they were confirmed *)
  answered : list (nat * bool)
}.

Definition publisher : Publisher := mkPublisher false None None [] [] [] [] [] [].

Definition fail_of (k : nat) (p : Publisher) : Publisher :=
  mkPublisher (stopped p) None (opened p) (<[k := Gone]> (attempts p)) (late p) (closed p)
    (filter (fun w => snd w <> k) (waiting p)) (carried p) (answered p ++ ((fun w => (fst w, false)) <$> filter (fun w => snd w = k) (waiting p))).

Definition stop (p : Publisher) : Publisher :=
  mkPublisher true (io p) (opened p) ((fun s => match s with Probing _ => Probing true | s => s end) <$> attempts p) (late p) (closed p)
    [] (carried p) (answered p ++ ((fun w => (fst w, false)) <$> waiting p)).

Inductive step :=
| Publishes (n : nat)
(** the broker is found, or no longer looked for *)
| Found (k : nat)
| GivesUp (k : nat)
| Connects (k : nat)
| Refuses (k : nat)
(** a publication waited for long enough *)
| Away (n : nat)
| Confirms (n : nat) (ok : bool)
| Stops
| Closes
| Opens.

Definition act (e : step) (p : Publisher) : option Publisher :=
  match e with
  | Publishes n =>
      if stopped p then Some (mkPublisher true (io p) (opened p) (attempts p) (late p) (closed p) (waiting p) (carried p) (answered p ++ [(n, false)]))
      else
        match io p with
        | None =>
            let k := length (attempts p) in
            Some (mkPublisher false (Some k) (opened p) (attempts p ++ [Probing false]) (late p) (closed p) (waiting p ++ [(n, k)]) (carried p) (answered p))
        | Some k =>
            match attempts p !! k with
            | Some Made => Some (mkPublisher false (io p) (opened p) (attempts p) (late p) (closed p) (waiting p) (carried p ++ [(n, k)]) (answered p))
            | _ => Some (mkPublisher false (io p) (opened p) (attempts p) (late p) (closed p) (waiting p ++ [(n, k)]) (carried p) (answered p))
            end
        end
  | Found k =>
      match attempts p !! k with
      | Some (Probing false) => Some (mkPublisher (stopped p) (io p) (opened p) (<[k := Connecting]> (attempts p)) (late p) (closed p) (waiting p) (carried p) (answered p))
      | _ => None
      end
  | GivesUp k => match attempts p !! k with Some (Probing true) => Some (fail_of k p) | _ => None end
  | Refuses k => match attempts p !! k with Some Connecting => Some (fail_of k p) | _ => None end
  | Connects k =>
      match attempts p !! k with
      | Some Connecting =>
          Some (mkPublisher (stopped p) (io p) (Some k) (<[k := Made]> (attempts p)) (late p) (if bool_decide (k ∈ late p) then closed p ++ [k] else closed p)
            (filter (fun w => snd w <> k) (waiting p)) (carried p ++ filter (fun w => snd w = k) (waiting p)) (answered p))
      | _ => None
      end
  | Away n =>
      if bool_decide (n ∈ (waiting p).*1)
      then Some (mkPublisher (stopped p) (io p) (opened p) (attempts p) (late p) (closed p) (filter (fun w => fst w <> n) (waiting p)) (carried p) (answered p ++ [(n, false)]))
      else None
  | Confirms n ok =>
      if bool_decide (n ∈ (carried p).*1)
      then Some (mkPublisher (stopped p) (io p) (opened p) (attempts p) (late p) (closed p) (waiting p) (filter (fun w => fst w <> n) (carried p)) (answered p ++ [(n, ok)]))
      else None
  | Stops => Some (stop p)
  | Closes =>
      let p' := stop p in
      Some (mkPublisher true None None (attempts p')
        (match opened p, io p with None, Some k => late p ++ [k] | _, _ => late p end)
        (match opened p with Some k => closed p ++ [k] | None => closed p end) (waiting p') (carried p') (answered p'))
  | Opens => Some (mkPublisher false (io p) (opened p) (attempts p) (late p) (closed p) (waiting p) (carried p) (answered p))
  end.

Fixpoint acts (es : list step) (p : Publisher) : option Publisher :=
  match es with [] => Some p | e :: es => act e p ≫= acts es end.

(** ** What reads the log ([Reader.ts], [clickhouse/Provider.ts]) *)

Record View := mkView { v_name : string; v_sql : string; v_refresh : option Z; v_title : option string }.

Definition MAX_VIEWS : nat := 50.
Definition TABLES : list string := ["events"; "states"; "encounters"].
Definition LIMIT : nat := 10000%nat.

Definition blank (c : ascii) : bool := bool_decide (nat_of_ascii c ∈ [9; 10; 11; 12; 13; 32]%nat).

Fixpoint drop_while {A} (f : A -> bool) (l : list A) : list A := match l with x :: r => if f x then drop_while f r else l | [] => [] end.

Definition trim (s : list ascii) : list ascii := rev (drop_while blank (rev (drop_while blank s))).

(** [trim().replace(/;+$/, '').trim()] *)
Definition statement (sql : string) : string :=
  of_chars (trim (rev (drop_while (fun c => Ascii.eqb c ";") (rev (trim (chars sql)))))).

(** [merge]: keys of what was written and of what is declared, in order *)
Definition merge {T} (written : list (string * T)) (declared : list string) : list (string * option T) :=
  (fun k => (k, own (rev written) k)) <$> merge_sort String.le (foldl (fun ks k => add k ks) [] (written.*1 ++ declared)).

(** what is answered of a result that holds one row more than the limit at most *)
Definition cut {A} (rows : list A) : list A * bool := (take LIMIT rows, (LIMIT <? length rows)%nat).

Section reader.
(** what the store refuses a statement, or the creation of a view, with *)
Context (unreadable : string -> option string) (uncreatable : View -> option string).

(** [define] of the provider: what is there under the name is dropped, and the view created *)
Definition provide (v : View) (views : list View) : option string * list View :=
  let views := filter (fun w => v_name w <> v_name v) views in
  match uncreatable v with
  | Some message => (Some message, views)
  | None => (None, views ++ [v])
  end.

Inductive answer := Defined_ | RESERVED | REFUSED (message : string) | EXHAUSTED | NOT_FOUND.

(** [define] *)
Definition define (v : View) (views : list View) : answer * list View :=
  if bool_decide (v_name v ∈ TABLES) then (RESERVED, views)
  else
    let select := statement (v_sql v) in
    match unreadable select with
    | Some message => (REFUSED message, views)
    | None =>
        if negb (existsb (fun w => bool_decide (v_name w = v_name v)) views) && (MAX_VIEWS <=? length views)%nat then (EXHAUSTED, views)
        else
          match provide (mkView (v_name v) select (v_refresh v) (v_title v)) views with
          | (Some message, views) => (REFUSED message, views)
          | (None, views) => (Defined_, views)
          end
    end.

(** [drop] *)
Definition drop_ (name : string) (views : list View) : answer * list View :=
  if existsb (fun w => bool_decide (v_name w = name)) views then (Defined_, filter (fun w => v_name w <> name) views) else (NOT_FOUND, views).

End reader.

(** what a service consumes ([Service.ts]): each label, as what, and in which group *)
Definition GROUP : string := "chronicles.relay".

Definition consumed (events states : list (string * Contract)) : list (string * Kind * string) :=
  ((fun l => (fst l, Event_, GROUP)) <$> events) ++ ((fun l => (fst l, State_, GROUP +:+ ".states")) <$> states).

(** ** What is written is what is declared *)

Fixpoint Property_nested (P : Property -> Prop)
    (HP : forall type description enum format properties items extra,
      (forall ms, properties = Some (inr ms) -> Forall (fun m => P (snd m)) ms) -> (forall q, items = Some q -> P q) ->
      P (Property_ type description enum format properties items extra))
    (HN : forall v, P (NoSchema v)) (p : Property) : P p.
Proof.
  destruct p as [type description enum format properties items extra|v]; [|apply HN]. apply HP.
  - intros ms Hms. destruct properties as [[|l]|]; [discriminate | | discriminate]. injection Hms as <-.
    induction l as [|[name q] l IH]; constructor; [exact (Property_nested P HP HN q) | exact IH].
  - intros q Hq. destruct items as [p|]; [|discriminate]. injection Hq as <-. exact (Property_nested P HP HN p).
Defined.

(** names of an object's keys are one each *)
Fixpoint distinct (p : Property) : bool :=
  match p with
  | NoSchema _ => true
  | Property_ _ _ _ _ properties items _ =>
      match properties with
      | Some (inr ms) => bool_decide (NoDup ms.*1) && (fix each (ms : list (string * Property)) := match ms with [] => true | (_, q) :: ms => distinct q && each ms end) ms
      | _ => true
      end && match items with Some q => distinct q | None => true end
  end.

Definition distinct_all (ms : list (string * Property)) : bool := bool_decide (NoDup ms.*1) && forallb (fun m => distinct (snd m)) ms.

(** a value of a declared type, with nothing in it that is not declared *)
Fixpoint conforms (p : Property) (v : value) : bool :=
  match p with
  | NoSchema _ => bool_decide (v = VNull)
  | Property_ type _ enum _ properties items _ =>
      bool_decide (v = VNull) ||
      match type, v with
      | Some (VString "string"), VString s => enumerated enum s
      | Some (VString "integer"), VNumber _ => true
      | Some (VString "number"), (VNumber _ | VDecimal _ _) => true
      | Some (VString "boolean"), VBool _ => true
      | Some (VString "object"), VObject fields =>
          match properties with
          | Some (inr ms) =>
              bool_decide (fields.*1 ⊆ ms.*1) &&
              (fix each (ms : list (string * Property)) : bool :=
                match ms with
                | [] => true
                | (name, q) :: ms => match own fields name with Some v => conforms q v | None => true end && each ms
                end) ms
          | _ => false
          end
      | Some (VString "array"), VArray vs => match items with Some q => forallb (conforms q) vs | None => false end
      | _, _ => false
      end
  end.

Definition conforms_all (ms : list (string * Property)) (fields : Fields) : bool :=
  bool_decide (fields.*1 ⊆ ms.*1) && forallb (fun '(name, q) => match own fields name with Some v => conforms q v | None => true end) ms.

Section written.
Context (json : value -> string).

Definition checked (p : Property) : Prop := exists path described, inspect json p path described = Ok tt.

Lemma inspect_spec type description enum format properties items extra :
  checked (Property_ type description enum format properties items extra) ->
  exists t, type = Some (VString t) /\ t ∈ TYPES /\
    (t = "object" -> exists ms, properties = Some (inr ms) /\ Forall (fun m => checked (snd m)) ms) /\
    (t = "array" -> exists q, items = Some q /\ checked q).
Proof.
  intros (path & d & H). cbn [inspect] in H. apply then_Ok in H as [_ H]. apply then_Ok in H as [_ H].
  apply bind_Ok in H as (t & Ht & H). apply then_Ok in H as [_ H]. apply then_Ok in H as [_ H]. apply then_Ok in H as [Ho Ha].
  destruct type as [[]|]; try done. exists s. destruct (bool_decide (s ∈ TYPES)) eqn:Hs; [apply bool_decide_eq_true in Hs|done]. injection Ht as <-. split_and!; [done | done | |].
  - intros Heq. rewrite bool_decide_eq_true_2 in Ho by done. destruct properties as [[|ms]|]; try done. exists ms. split; [done|].
    clear -Ho. induction ms as [|[name q] ms IH]; [constructor|]. apply then_Ok in Ho as [_ Ho]. apply then_Ok in Ho as [Hq Ho].
    constructor; [by exists (path +:+ "." +:+ name), true | by apply IH].
  - intros Heq. rewrite bool_decide_eq_true_2 in Ha by done. destruct items as [q|]; [|done]. exists q. split; [done|].
    by exists (path +:+ "[]"), false.
Qed.

Lemma fit_object description enum format ms items extra path payload :
  fit (Property_ (Some (VString "object")) description enum format (Some (inr ms)) items extra) path (VObject payload) =
  VObject <$> project payload ms path.
Proof.
  cbn [fit]. rewrite bool_decide_eq_false_2 by done. f_equal. induction ms as [|[name q] ms IH]; [done|]. cbn [project]. by rewrite <- IH.
Qed.

Lemma conforms_object description enum format ms items extra fields :
  conforms (Property_ (Some (VString "object")) description enum format (Some (inr ms)) items extra) (VObject fields) = conforms_all ms fields.
Proof.
  cbn [conforms]. rewrite bool_decide_eq_false_2 by done. unfold conforms_all. cbn [orb]. f_equal.
  induction ms as [|[name q] ms IH]; [done|]. cbn [forallb]. by rewrite <- IH.
Qed.

Lemma distinct_object type description enum format ms items extra :
  distinct (Property_ type description enum format (Some (inr ms)) items extra) = true -> distinct_all ms = true.
Proof.
  cbn [distinct]. intros [H _]%andb_true_iff. unfold distinct_all. apply andb_true_iff in H as [-> H]. cbn [andb]. clear -H.
  induction ms as [|[name q] ms IH]; [done|]. cbn [forallb snd]. apply andb_true_iff in H as [-> H]. by apply IH.
Qed.

(** a list of values, each fitted *)
Fixpoint fit_each (q : Property) (path : string) (i : Z) (vs : list value) : result misfit (list value) :=
  match vs with
  | [] => Ok []
  | v :: vs => x ← fit q (path +:+ "[" +:+ pretty i +:+ "]") v; rest ← fit_each q path (i + 1) vs; Ok (x :: rest)
  end.

Lemma fit_array description enum format properties q extra path vs :
  fit (Property_ (Some (VString "array")) description enum format properties (Some q) extra) path (VArray vs) = VArray <$> fit_each q path 0 vs.
Proof.
  cbn [fit]. rewrite bool_decide_eq_false_2 by done. f_equal. generalize 0. induction vs as [|v vs IH]; intros i; [done|].
  cbn [fit_each]. by rewrite <- IH.
Qed.

Lemma project_names payload ms path p : project payload ms path = Ok p -> p.*1 ⊆ ms.*1.
Proof.
  revert p. induction ms as [|[name q] ms IH]; intros p H; cbn [project] in H; [injection H as <-; done|].
  destruct (own payload name) as [v|] eqn:E; [|specialize (IH _ H); set_solver].
  destruct v; try (specialize (IH _ H); set_solver);
    (apply bind_Ok in H as (x & _ & H); apply bind_Ok in H as (rest & Hr & [= <-]); specialize (IH _ Hr); cbn; set_solver).
Qed.

Lemma project_own payload ms path p : NoDup ms.*1 -> project payload ms path = Ok p -> forall name q, (name, q) ∈ ms ->
  match own payload name with
  | None | Some VUndefined => own p name = None
  | Some v => exists x, own p name = Some x /\ fit q (sub path name) v = Ok x
  end.
Proof.
  revert p. induction ms as [|[n r] ms IH]; intros p Hd H name q Hin; [by apply elem_of_nil in Hin|].
  cbn in Hd. apply NoDup_cons in Hd as [Hn Hd]. cbn [project] in H.
  assert (Hskip : project payload ms path = Ok p -> own payload n = None \/ own payload n = Some VUndefined ->
    match own payload name with None | Some VUndefined => own p name = None | Some v => exists x, own p name = Some x /\ fit q (sub path name) v = Ok x end).
  { intros Hp Hnone. apply elem_of_cons in Hin as [[= -> ->]|Hin]; [|by apply (IH p)].
    assert (own p n = None) by (apply own_None; intros Hp'; apply Hn; by eapply project_names).
    by destruct Hnone as [-> | ->]. }
  assert (Htake : forall v, own payload n = Some v -> v <> VUndefined ->
    (x ← fit r (sub path n) v; rest ← project payload ms path; Ok ((n, x) :: rest)) = Ok p ->
    match own payload name with None | Some VUndefined => own p name = None | Some v => exists x, own p name = Some x /\ fit q (sub path name) v = Ok x end).
  { intros v Hv Hu Hp. apply bind_Ok in Hp as (x & Hx & Hp). apply bind_Ok in Hp as (rest & Hr & [= <-]).
    apply elem_of_cons in Hin as [[= -> ->]|Hin].
    - rewrite Hv. cbn [own]. rewrite decide_True by done. destruct v; try done; by exists x.
    - assert (name <> n) by (intros ->; apply Hn, list_elem_of_fmap; by exists (n, q)).
      cbn [own]. rewrite decide_False by done. by apply IH. }
  destruct (own payload n) as [v|] eqn:E; [|by apply Hskip; [|left]].
  destruct v; try (by eapply Htake); by apply Hskip; [|right].
Qed.

Definition settled (p : Property) : Prop := checked p -> distinct p = true -> forall path v v', fit p path v = Ok v' ->
  conforms p v' = true /\ forall path', fit p path' v' = Ok v'.

Lemma conforms_defined p v : conforms p v = true -> v <> VUndefined.
Proof. intros H ->. destruct p as [[[]|]|]; cbn in H; try done; repeat (destruct s as [|[[] [] [] [] [] [] [] []] s]; try done). Qed.

Lemma project_ext p p' ms path : (forall name, name ∈ ms.*1 -> own p name = own p' name) -> project p ms path = project p' ms path.
Proof.
  intros H. induction ms as [|[name q] ms IH]; [done|]. cbn [project]. rewrite (H name) by (cbn; by left).
  rewrite IH; [done|]. intros n Hn. apply H. cbn. by right.
Qed.

Lemma project_taken payload name q ms path v x rest : own payload name = Some v -> v <> VUndefined -> fit q (sub path name) v = Ok x ->
  project payload ms path = Ok rest -> project payload ((name, q) :: ms) path = Ok ((name, x) :: rest).
Proof. intros Hv Hu Hx Hr. cbn [project]. rewrite Hv. destruct v; try done; by rewrite Hx; cbn; rewrite Hr. Qed.

Lemma project_cases payload name q ms path p : project payload ((name, q) :: ms) path = Ok p ->
  (own payload name = None \/ own payload name = Some VUndefined) /\ project payload ms path = Ok p \/
  exists v x rest, own payload name = Some v /\ v <> VUndefined /\ fit q (sub path name) v = Ok x /\ project payload ms path = Ok rest /\ p = (name, x) :: rest.
Proof.
  cbn [project]. intros H. destruct (own payload name) as [v|] eqn:E; [|left; auto].
  destruct (decide (v = VUndefined)) as [->|Hv]; [left; auto|]. right.
  assert (H' : (x ← fit q (sub path name) v; rest ← project payload ms path; Ok ((name, x) :: rest)) = Ok p) by (by destruct v).
  apply bind_Ok in H' as (x & Hx & H'). apply bind_Ok in H' as (rest & Hr & [= <-]). by exists v, x, rest.
Qed.

Lemma project_settled ms : distinct_all ms = true -> Forall (fun m => checked (snd m)) ms -> Forall (fun m => settled (snd m)) ms ->
  forall payload path p, project payload ms path = Ok p -> conforms_all ms p = true /\ forall path', project p ms path' = Ok p.
Proof.
  intros [Hd1%bool_decide_eq_true Hd2]%andb_true_iff Hc Hs payload path p H. split.
  - apply andb_true_iff. split; [apply bool_decide_eq_true; by eapply project_names|]. apply forallb_forall. intros [name q] Hin%list_elem_of_In.
    pose proof (project_own _ _ _ _ Hd1 H _ _ Hin) as Ho. rewrite forallb_forall in Hd2. rewrite Forall_forall in Hc, Hs.
    assert (Hx : forall v, (exists x, own p name = Some x /\ fit q (sub path name) v = Ok x) ->
      match own p name with Some v => conforms q v | None => true end = true).
    { intros v (x & -> & Hx). by apply (Hs _ Hin (Hc _ Hin) (Hd2 _ ltac:(by apply list_elem_of_In)) _ _ _ Hx). }
    destruct (own payload name) as [[]|]; try (by eapply Hx); by rewrite Ho.
  - intros path'. revert p H. induction ms as [|[name q] ms IH]; intros p H; [by injection H as <-|].
    cbn in Hd1. apply NoDup_cons in Hd1 as [Hn Hd1]. cbn [forallb snd] in Hd2. apply andb_true_iff in Hd2 as [Hdq Hd2].
    apply Forall_cons in Hc as [Hcq Hc]. apply Forall_cons in Hs as [Hsq Hs]. cbn [snd] in *.
    apply project_cases in H as [[_ H]|(v & x & rest & _ & _ & Hx & Hr & ->)].
    + cbn [project]. assert (own p name = None) as ->; [|by apply IH]. apply own_None. intros Hin. apply Hn. by eapply project_names.
    + destruct (Hsq Hcq Hdq _ _ _ Hx) as [H1 H2]. apply (project_taken _ _ _ _ _ x); [cbn; by rewrite decide_True | by eapply conforms_defined | done|].
      rewrite (project_ext _ rest); [by apply IH|]. intros n Hin. cbn [own]. rewrite decide_False; [done|]. by intros <-.
Qed.

Lemma fit_each_settled q : checked q -> distinct q = true -> settled q -> forall path i vs us, fit_each q path i vs = Ok us ->
  forallb (conforms q) us = true /\ forall path' j, fit_each q path' j us = Ok us.
Proof.
  intros Hc Hd Hs path i vs. revert i. induction vs as [|v vs IH]; intros i us H; cbn [fit_each] in H; [by injection H as <-|].
  apply bind_Ok in H as (x & Hx & H). apply bind_Ok in H as (rest & Hr & [= <-]). destruct (Hs Hc Hd _ _ _ Hx) as [H1 H2].
  destruct (IH _ _ Hr) as [H3 H4]. cbn [forallb]. rewrite H1, H3. split; [done|]. intros path' j. cbn [fit_each]. rewrite H2. cbn. by rewrite H4.
Qed.

Lemma fit_settled p : settled p.
Proof.
  induction p as [type description enum format properties items extra IHm IHi|u] using Property_nested; intros Hc Hd path v v' H.
  2:{ destruct Hc as (? & ? & Hc). done. }
  destruct (inspect_spec _ _ _ _ _ _ _ Hc) as (t & -> & Ht & Ho & Ha).
  destruct (decide (v = VNull)) as [->|Hv]; [injection H as <-; done|].
  destruct (decide (t = "object")) as [->|Hto].
  { destruct (Ho eq_refl) as (ms & -> & Hms). 
    assert (exists payload, v = VObject payload) as [payload ->].
    { cbn [fit] in H. rewrite bool_decide_eq_false_2 in H by done. destruct v; try done. eauto. }
    rewrite fit_object in H. destruct (project payload ms path) as [p|] eqn:E; [|done]. injection H as <-.
    destruct (project_settled ms (distinct_object _ _ _ _ _ _ _ Hd) Hms (IHm _ eq_refl) _ _ _ E) as [H1 H2].
    rewrite conforms_object. split; [done|]. intros path'. by rewrite fit_object, H2. }
  destruct (decide (t = "array")) as [->|Hta].
  { destruct (Ha eq_refl) as (q & -> & Hq). 
    assert (exists vs, v = VArray vs) as [vs ->].
    { cbn [fit] in H. rewrite bool_decide_eq_false_2 in H by done. destruct v; try done. eauto. }
    rewrite fit_array in H. destruct (fit_each q path 0 vs) as [us|] eqn:E; [|done]. injection H as <-.
    assert (Hdq : distinct q = true) by (cbn [distinct] in Hd; by apply andb_true_iff in Hd as [_ ?]).
    destruct (fit_each_settled q Hq Hdq (IHi _ eq_refl) _ _ _ _ E) as [H1 H2].
    split; [|intros path'; by rewrite fit_array, H2]. cbn [conforms]. rewrite bool_decide_eq_false_2 by done. done. }
  unfold TYPES, SCALARS in Ht. cbn [app] in Ht. rewrite !elem_of_cons, elem_of_nil in Ht.
  destruct Ht as [-> |[-> |[-> |[-> |[|[|[]]]]]]]; try done; cbn [fit] in H; rewrite bool_decide_eq_false_2 in H by done;
    destruct v; try done; try (destruct (enumerated enum s) eqn:E; [|done]); injection H as <-; cbn [conforms fit];
    rewrite ?bool_decide_eq_false_2 by done; cbn [orb]; rewrite ?E; done.
Qed.

Definition faultless (p : Property) : Prop := checked p -> forall path v, fit p path v <> Throw Fault.

Lemma project_faultless ms : Forall (fun m => checked (snd m)) ms -> Forall (fun m => faultless (snd m)) ms ->
  forall payload path, project payload ms path <> Throw Fault.
Proof.
  intros Hc Hs payload path. induction ms as [|[name q] ms IH]; [done|]. apply Forall_cons in Hc as [Hcq Hc]. apply Forall_cons in Hs as [Hsq Hs].
  specialize (IH Hc Hs). cbn [project]. destruct (own payload name) as [v|]; [|done].
  assert (H : (x ← fit q (sub path name) v; rest ← project payload ms path; Ok ((name, x) :: rest)) <> Throw Fault).
  { intros [H|(x & _ & [H|(rest & _ & [=])]%bind_Throw)]%bind_Throw; [by eapply Hsq | done]. }
  by destruct v.
Qed.

Lemma fit_each_faultless q : checked q -> faultless q -> forall path i vs, fit_each q path i vs <> Throw Fault.
Proof.
  intros Hc Hs path i vs. revert i. induction vs as [|v vs IH]; intros i; [done|]. cbn [fit_each].
  intros [H|(x & _ & [H|(rest & _ & [=])]%bind_Throw)]%bind_Throw; [by eapply Hs | by eapply IH].
Qed.

Lemma fit_faultless p : faultless p.
Proof.
  induction p as [type description enum format properties items extra IHm IHi|u] using Property_nested; intros Hc path v H.
  2:{ by destruct v. }
  destruct (inspect_spec _ _ _ _ _ _ _ Hc) as (t & -> & Ht & Ho & Ha).
  unfold TYPES, SCALARS in Ht. cbn [app] in Ht. rewrite !elem_of_cons, elem_of_nil in Ht.
  assert (Hv : v <> VNull) by (intros ->; done).
  destruct Ht as [-> |[-> |[-> |[-> |[-> |[-> |[]]]]]]]; cbn [fit] in H; rewrite bool_decide_eq_false_2 in H by done.
  1: destruct v; try done; by destruct (enumerated enum s). 1-3: by destruct v.
  - destruct (Ho eq_refl) as (ms & -> & Hms). destruct v as [| | | | | | |payload]; try done.
    pose proof (project_faultless ms Hms (IHm _ eq_refl) payload path) as Hp.
    pose proof (fit_object description enum format ms items extra path payload) as Hf. cbn [fit] in Hf. rewrite bool_decide_eq_false_2 in Hf by done.
    rewrite Hf in H. destruct (project payload ms path); [done|]. by injection H as ->.
  - destruct (Ha eq_refl) as (q & -> & Hq). destruct v as [| | | | | |vs|]; try done.
    pose proof (fit_each_faultless q Hq (IHi _ eq_refl) path 0 vs) as Hp.
    pose proof (fit_array description enum format properties q extra path vs) as Hf. cbn [fit] in Hf. rewrite bool_decide_eq_false_2 in Hf by done.
    rewrite Hf in H. destruct (fit_each q path 0 vs); [done|]. by injection H as ->.
Qed.

Lemma check_spec c where_ : check json c where_ = Ok tt -> Forall (fun m => checked (snd m)) (properties_ c).
Proof.
  unfold check. induction (properties_ c) as [|[name q] ms IH]; [constructor|]. cbn [check_all]. intros H.
  apply then_Ok in H as [_ H]. apply then_Ok in H as [_ H]. apply then_Ok in H as [Hq H]. constructor; [by eexists _, _ | by apply IH].
Qed.

End written.


(** ** What clients send *)

Section sending.
Context (is_v4 is_v6 : string -> bool) (parse_json : string -> option value) (size : value -> Z) (test : string -> string -> bool).

Lemma check_events_spec sent index vs es : check_events size sent index vs = Ok es ->
  Forall2 (fun v e => check_event v = Ok e /\ e_time e <= sent) vs es.
Proof.
  revert index es. induction vs as [|v vs IH]; intros index es H; cbn [check_events] in H; [injection H as <-; constructor|].
  apply bind_Ok in H as (e & He & H). apply then_Ok in H as [Ht%refuse_when_Ok H]. apply then_Ok in H as [_ H].
  apply bind_Ok in H as (es' & Hes & [= <-]). constructor; [|by eapply IH]. apply Z.ltb_ge in Ht. split; [|done].
  destruct (check_event v); [by injection He as ->|done].
Qed.

Lemma check_event_time v e : check_event v = Ok e -> 0 <= e_time e.
Proof.
  unfold check_event. destruct v; try done. destruct (filter _ _) as [|[]]; [|done].
  intros H. apply bind_Ok in H as (i & _ & H). apply bind_Ok in H as (n & _ & H). apply bind_Ok in H as (t & Ht & H). apply bind_Ok in H as (p & _ & [= <-]).
  cbn. destruct (own _ _) as [[]|]; try done. destruct (Z.leb_spec 0 n0); [|done]. by injection Ht as <-.
Qed.

Lemma batch_spec input identified b : parse parse_json size input identified = Ok b ->
  exists vs, (length vs <= MAX_EVENTS)%nat /\ check_events size (sent b) 0 vs = Ok (events b) /\
    (own (object input) "events" = Some (VArray vs) \/ exists t, own (object input) "events" = Some (VString t) /\ parse_json t = Some (VArray vs)) /\
    (identified = false -> own (object input) "identity" = None \/ own (object input) "identity" = Some VUndefined).
Proof.
  unfold parse. destruct input; try done. cbn [object]. destruct (filter _ _) as [|[]]; [|done]. intros H.
  apply then_Ok in H as [Hi%refuse_when_Ok H]. apply bind_Ok in H as (v & _ & H). apply bind_Ok in H as (s & _ & H).
  apply bind_Ok in H as (n & _ & H). apply bind_Ok in H as (given & Hg & H). destruct given as [| | | | | |vs|]; try done.
  apply then_Ok in H as [Hl%refuse_when_Ok H]. apply bind_Ok in H as (es & Hes & [= <-]). exists vs. apply Nat.ltb_ge in Hl.
  split_and!; [done | done | |].
  - destruct (own fields "events") as [[]|]; try done; [|left; by injection Hg as ->]. right. exists s0. split; [done|].
    destruct (parse_json s0); [by injection Hg as ->|done].
  - intros ->. cbn in Hi. destruct (own fields "identity") as [[]|]; auto; done.
Qed.

(** a batch that is accepted is at most a hundred events, each written under the client's own id and name, as of the
    identity the gateway verified; it is said to have happened when the gateway received the batch less how long before
    sending it the client says it happened, so never later, and any two events are as far apart as the client measured. *)
Theorem distances_are_kept received how input identity es :
  write is_v4 is_v6 parse_json size test received how input identity = Ok es ->
  exists vs sent, (length vs <= MAX_EVENTS)%nat /\
    (own (object input) "events" = Some (VArray vs) \/ exists t, own (object input) "events" = Some (VString t) /\ parse_json t = Some (VArray vs)) /\
    Forall2 (fun v c => exists e, check_event v = Ok e /\ c_id c = e_id e /\ c_name c = e_name e /\ c_payload c = e_payload e /\
      c_identity c = identity /\ c_received c = received /\ c_time c = received - (sent - e_time e) /\ received - sent <= c_time c <= received) vs es.
Proof.
  intros H. unfold write in H. apply bind_Ok in H as (b & Hb & H). destruct (batch_spec _ _ _ Hb) as (vs & Hl & Hes & Hg & _).
  exists vs, (sent b). split; [done|]. split; [done|]. destruct (classify test _) as [[browser os] device]. injection H as <-.
  apply Forall2_fmap_r. apply check_events_spec in Hes. eapply Forall2_impl; [exact Hes|]. intros v e [He Ht]. pose proof (check_event_time _ _ He).
  exists e. cbn. split_and!; try done; lia.
Qed.

End sending.

(** ** Views *)

(** the views of a context: at most so many, each of a name of its own, which is no table of the log *)
Record views_in_order (views : list View) : Prop := {
  few : (length views <= MAX_VIEWS)%nat;
  unique : NoDup (v_name <$> views);
  unreserved : forall v, v ∈ views -> v_name v ∉ TABLES
}.

Lemma without_shorter name (views : list View) : name ∈ v_name <$> views -> (length (filter (fun w => v_name w <> name) views) < length views)%nat.
Proof.
  induction views as [|v views IH]; [by intros ?%elem_of_nil|]. rewrite fmap_cons, elem_of_cons, filter_cons. intros H.
  destruct (decide (v_name v <> name)) as [Hn|Hn]; cbn [length].
  - destruct H as [->|H]; [done|]. specialize (IH H). lia.
  - pose proof (length_filter (fun w => v_name w <> name) views). lia.
Qed.

Lemma without_in_order name views : views_in_order views -> views_in_order (filter (fun w => v_name w <> name) views).
Proof.
  intros [H1 H2 H3]. split.
  - etrans; [apply length_filter | done].
  - eapply sublist_NoDup; [exact H2|]. apply fmap_sublist, sublist_filter.
  - intros v [_ Hv]%list_elem_of_filter. auto.
Qed.

(** whatever views are defined and dropped, and whatever the store refuses, a context has at most fifty of them, each under
    a name of its own which is no table's; one that is defined is the one of its name, holds the statement that was read, and
    every other view stays. *)
Theorem views_stay_in_order unreadable uncreatable v name views : views_in_order views ->
  views_in_order (snd (define unreadable uncreatable v views)) /\ views_in_order (snd (drop_ name views)) /\
  (fst (define unreadable uncreatable v views) = Defined_ ->
    mkView (v_name v) (statement (v_sql v)) (v_refresh v) (v_title v) ∈ snd (define unreadable uncreatable v views)) /\
  (forall w, w ∈ views -> v_name w <> v_name v -> w ∈ snd (define unreadable uncreatable v views)).
Proof.
  intros Hv. unfold define, drop_. destruct (existsb (fun w => bool_decide (v_name w = name)) views);
    (split; [|split; [by try apply without_in_order | split; [|]]]); case_bool_decide as Ht; cbn [fst snd]; try done;
    (destruct (unreadable _); cbn [fst snd]; [done|]);
    (destruct (negb _ && _) eqn:E; cbn [fst snd]; [done|]); unfold provide; cbn [v_name];
    destruct (uncreatable _); cbn [fst snd]; try done;
    try (intros w Hw Hn; try apply elem_of_app; try left; by apply list_elem_of_filter);
    try (intros _; apply elem_of_app; right; by left); try by apply without_in_order.
  all: pose proof (without_in_order (v_name v) views Hv) as [H1 H2 H3]; split;
    [| rewrite fmap_app; apply NoDup_app; split_and!; [done | intros n (w & -> & [Hn Hw]%list_elem_of_filter)%list_elem_of_fmap Hn';
         by apply list_elem_of_singleton in Hn' | apply NoDup_singleton]
     | intros w [Hw|Hw]%elem_of_app; [by apply H3 | by apply list_elem_of_singleton in Hw as ->] ];
    rewrite length_app; cbn [length]; apply andb_false_iff in E as [E%negb_false_iff%existsb_exists|E%Nat.leb_gt].
  1,3: destruct E as (w & Hw%list_elem_of_In & Hn%bool_decide_eq_true); pose proof (without_shorter (v_name v) views) as Hs;
    specialize (Hs ltac:(apply list_elem_of_fmap; by exists w)); pose proof (few _ Hv); lia.
  all: pose proof (length_filter (fun w => v_name w <> v_name v) views); lia.
Qed.

(** ** The broker *)

Lemma act_stopped e p p' : act e p = Some p' -> (stopped p = true -> waiting p = []) -> stopped p' = true -> waiting p' = [].
Proof.
  intros Ha Hw Hs. destruct e; cbn [act] in Ha.
  - destruct (stopped p) eqn:E; [injection Ha as <-; by apply Hw|]. by destruct (io p) as [k|]; [destruct (attempts p !! k) as [[]|]|]; injection Ha as <-.
  - destruct (attempts p !! k) as [[[]| | |]|]; try done. injection Ha as <-. by apply Hw.
  - destruct (attempts p !! k) as [[[]| | |]|]; try done. injection Ha as <-. cbn in *. by rewrite (Hw Hs).
  - destruct (attempts p !! k) as [[]|]; try done. injection Ha as <-. cbn in *. by rewrite (Hw Hs).
  - destruct (attempts p !! k) as [[]|]; try done. injection Ha as <-. cbn in *. by rewrite (Hw Hs).
  - case_bool_decide; [|done]. injection Ha as <-. cbn in *. by rewrite (Hw Hs).
  - case_bool_decide; [|done]. injection Ha as <-. by apply Hw.
  - by injection Ha as <-.
  - by injection Ha as <-.
  - by injection Ha as <-.
Qed.

(** once the publisher is stopped nothing waits for the broker: what did was failed, to be delivered again *)
Theorem stopped_waits_for_nothing es p : acts es publisher = Some p -> stopped p = true -> waiting p = [].
Proof.
  assert (H0 : stopped publisher = true -> waiting publisher = []) by done. revert H0. generalize publisher.
  induction es as [|e es IH]; intros q H0 H; cbn in H; [by injection H as <-|].
  destruct (act e q) as [q1|] eqn:E; [|done]. apply (IH q1); [|done]. by eapply act_stopped.
Qed.

(** ** A shop *)

Module Shop.

Definition described (type : string) : Property := Property_ (Some (VString type)) (Some (VString "what it is")) None None None None [].

Definition ordered : Contract := mkContract "An order was placed"
  [("total", described "integer");
   ("address", Property_ (Some (VString "object")) (Some (VString "where it goes")) None None (Some (inr [("country", described "string")])) None []);
   ("items", Property_ (Some (VString "array")) (Some (VString "what was bought")) None None None (Some (described "string")) [])].

Definition payload : Fields :=
  [("id", VString "o1"); ("VERSION", VNumber 2); ("items", VArray [VString "tea"; VNull]); ("total", VNumber 300);
   ("address", VObject [("street", VString "Main"); ("country", VNull)])].

Definition written : Fields :=
  [("total", VNumber 300); ("address", VObject [("country", VNull)]); ("items", VArray [VString "tea"; VNull])].


(** a batch of two events, a second apart *)
Definition batch : value :=
  VObject [("sent", VNumber 5000); ("visitor", VString "v"); ("ip", VString "10.1.2.3"); ("events", VArray
    [VObject [("id", VString "a"); ("name", VString "page_opened"); ("time", VNumber 3000)];
     VObject [("id", VString "b"); ("name", VString "page_left"); ("time", VNumber 4000); ("payload", VObject [("at", VString "/")])]])].

Definition v4 (s : string) : bool := bool_decide (s = "10.1.2.3").
Definition none {A} (_ : A) : bool := false.

Definition taken (input : value) : result refusal (list Encounter) :=
  write v4 none (fun _ => None) (fun _ => 10) (fun _ _ => false) 1000000 Truncated input None.

Lemma batch_taken : exists a b, taken batch = Ok [a; b] /\ c_time a = 998000 /\ c_time b = 999000 /\ c_ip a = Some "10.1.2.0".
Proof. eexists _, _. split; [vm_compute; reflexivity|]. done. Qed.

Lemma distances_are_kept_witness : exists a b vs sent, taken batch = Ok [a; b] /\ c_time a = 998000 /\ c_time b = 999000 /\ c_ip a = Some "10.1.2.0" /\
  (length vs <= MAX_EVENTS)%nat /\ Forall2 (fun v c => exists e, check_event v = Ok e /\ c_time c = 1000000 - (sent - e_time e)) vs [a; b].
Proof.
  destruct batch_taken as (a & b & E & Ha & Hb & Hi).
  destruct (distances_are_kept v4 none (fun _ => None) (fun _ => 10) (fun _ _ => false) 1000000 Truncated batch None [a; b] E) as (vs & sent & H1 & _ & H3).
  exists a, b, vs, sent. do 5 (split; [done|]).
  eapply Forall2_impl; [exact H3|]. intros v c (e & Hc & _ & _ & _ & _ & _ & Ht & _). by exists e.
Defined.

(** anyone may say when a batch was sent: an event of it is then past the moments there are, it is accepted, and what the relay
    makes of it throws however often the task is delivered *)
Definition ancient : value :=
  VObject [("sent", VNumber 9007199254740991); ("events", VArray [VObject [("id", VString "a"); ("name", VString "x"); ("time", VNumber 0)]])].

Theorem accepted_and_never_published iso scope : exists c, taken ancient = Ok [c] /\
  snd <$> routed iso scope None [] [] [c] = [Throw (Failed "Invalid time value")].
Proof. eexists. split; [vm_compute; reflexivity|]. done. Qed.

Definition view (sql : string) : View := mkView "daily" sql None None.

(** a definition the store refuses takes the view there was with it *)
Theorem refused_definition_loses_the_view :
  define (fun _ => None) (fun _ => Some "no such type") (view "SELECT 2") [view "SELECT 1"] = (REFUSED "no such type", []).
Proof. reflexivity. Qed.

Lemma views_stay_in_order_witness : views_in_order [view "SELECT 1"] /\
  views_in_order (snd (define (fun _ => None) (fun _ => None) (view " SELECT 2; ") [view "SELECT 1"])) /\
  snd (define (fun _ => None) (fun _ => None) (view " SELECT 2; ") [view "SELECT 1"]) = [view "SELECT 2"].
Proof.
  assert (H : views_in_order [view "SELECT 1"]).
  { split; [cbn; unfold MAX_VIEWS; lia | apply NoDup_singleton|]. intros v ->%list_elem_of_singleton. apply (bool_decide_eq_true_1 _). reflexivity. }
  split; [exact H|]. split; [|reflexivity].
  exact (proj1 (views_stay_in_order (fun _ => None) (fun _ => None) (view " SELECT 2; ") "daily" [view "SELECT 1"] H)).
Defined.

(** a publisher closes while a connection is asked for, and is opened again: as the first is refused it forgets the second,
    which a third replaces, and the second is left open as it closes *)
Theorem connection_is_left : exists p,
  acts [Publishes 1; Found 0; Closes; Opens; Publishes 2; Refuses 0; Found 1; Connects 1; Confirms 2 true; Publishes 3; Found 2; Connects 2; Confirms 3 true; Closes]
    publisher = Some p /\ attempts p = [Gone; Made; Made] /\ closed p = [2%nat] /\ io p = None /\ opened p = None.
Proof. eexists. split; [vm_compute; reflexivity|]. done. Qed.

End Shop.
