(* ===== verification/Replies.v ===== *)
(** * Replies

    [extensions/exposition/source/HTTP/] ([Server.ts], [messages.ts], [Context.ts], [exceptions.ts], [address.ts]) and
    [directives/cache/]: what a request is refused for before it is served, how what serving it makes is written, with its
    status, its type and its tag, how a stream is framed, what may be stored of a reply and by whom, and how the server ends. *)
From stdpp Require Import strings gmap.
From S2P Require Import Prelude.

Open Scope Z_scope.

(** ** Headers *)

(** names in lower case, in the order they were set *)
Notation Headers := (list (string * string)) (only parsing).

Definition append (name v : string) (hs : Headers) : Headers :=
  match own hs name with Some w => assign name (w +:+ ", " +:+ v) hs | None => assign name v hs end.

(** ** What may be stored ([cache/Control.ts], [cache/Exact.ts]) *)

Definition PUBLIC : Z := 1.
Definition PRIVATE : Z := 2.
Definition NO_CACHE : Z := 4.
Definition NO_STORE : Z := 8.

(** a character of a word, and one without its case *)
Definition is_word (c : ascii) : bool :=
  let n := nat_of_ascii c in
  ((48 <=? n) && (n <=? 57) || (65 <=? n) && (n <=? 90) || (97 <=? n) && (n <=? 122) || (n =? 95))%nat.

Definition lower (c : ascii) : ascii :=
  let n := nat_of_ascii c in if ((65 <=? n) && (n <=? 90))%nat then ascii_of_nat (n + 32) else c.

(** a text that begins with a word, whatever its case: the characters that are it, and the rest *)
Fixpoint begins (w s : list ascii) : option (list ascii * list ascii) :=
  match w, s with
  | [], s => match s with c :: _ => if is_word c then None else Some ([], s) | [] => Some ([], []) end
  | a :: w, c :: s => if Ascii.eqb (lower c) a then '(m, r) ← begins w s; Some (c :: m, r) else None
  | _ :: _, [] => None
  end.

Definition WORDS : list string := ["private"; "public"; "no-cache"; "no-store"].

Fixpoint first_word (ws : list string) (s : list ascii) : option (list ascii * list ascii) :=
  match ws with
  | [] => None
  | w :: ws => match begins (chars w) s with Some m => Some m | None => first_word ws s end
  end.

(** [value.match(/\b(private|public|no-cache|no-store)\b/gi)]: the words found; [inside] is that a character of a word is before *)
Fixpoint found (fuel : nat) (inside : bool) (s : list ascii) : list (list ascii) :=
  match fuel with
  | O => []
  | S fuel =>
      match s with
      | [] => []
      | c :: r =>
          match (if inside then None else first_word WORDS s) with
          | Some (m, r) => m :: found fuel true r
          | None => found fuel (is_word c) r
          end
      end
  end.

(** [match], which tells the case *)
Definition bit (m : list ascii) : Z :=
  let s := of_chars m in
  if bool_decide (s = "private") then PRIVATE else if bool_decide (s = "public") then PUBLIC
  else if bool_decide (s = "no-cache") then NO_CACHE else if bool_decide (s = "no-store") then NO_STORE else 0.

Definition mask (v : string) : Z := foldl (fun m w => Z.lor m (bit w)) 0 (found (S (String.length v)) false (chars v)).

Definition disabled (hs : Headers) : bool :=
  match own hs "cache-control" with None => false | Some v => Z.land (mask v) NO_STORE =? NO_STORE end.

(** a directive of the family, [exact] being one that sets what it is given *)
Record Control := mkControl { c_value : string; exact : bool }.

Definition create (name v : string) : result string Control :=
  if bool_decide (name = "control") then Ok (mkControl v false)
  else if bool_decide (name = "exact") then Ok (mkControl v true)
  else Throw ("Directive 'cache:" +:+ name +:+ "' is not implemented").

Record Resolution := mkResolution { control : string; vary : bool }.

Definition resolve (d : Control) (identified : bool) : Resolution :=
  if exact d || negb identified then mkResolution (c_value d) false
  else
    let m := mask (c_value d) in
    let v := Z.land m PRIVATE =? PRIVATE in
    if Z.land m (Z.lor PUBLIC NO_CACHE) =? PUBLIC then mkResolution ("no-cache, " +:+ c_value d) v
    else if Z.land m (Z.lor PUBLIC PRIVATE) =? 0 then mkResolution ("private, " +:+ c_value d) true
    else mkResolution (c_value d) v.

Definition set (d : Control) (identified : bool) (hs : Headers) : Headers :=
  if disabled hs then hs
  else
    let r := resolve d identified in
    let hs := assign "cache-control" (control r) hs in
    if vary r then append "vary" "authorization" hs else hs.

Definition safe (method : string) : bool := bool_decide (method = "GET") || bool_decide (method = "HEAD").

(** ** Messages ([messages.ts]) *)

(** a body: none, bytes a component encoded, a stream of parts, or a value *)
Inductive Body := Undefined | Null | Encoded (bytes type : string) | Parts | Whole (v : value).

Record Message := mkMessage {
  m_status : option Z;
  m_headers : option Headers;
  m_body : Body;
  (** what the reply is validated by: the tag the client sent, if it sent any *)
  validate : option (option string)
}.

(** [settle] *)
Definition settle (directives : list Control) (identified : bool) (method : string) (m : Message) : Message :=
  let with_ hs := mkMessage (m_status m) (Some hs) (m_body m) (validate m) in
  let hs := default [] (m_headers m) in
  match directives with
  | d :: _ => if exact d || safe method then with_ (set d identified hs) else m
  | [] =>
      if safe method && identified && negb (match m_headers m with Some hs => disabled hs | None => false end)
      then with_ (append "vary" "authorization" (assign "cache-control" "private" hs)) else m
  end.

(** [depart] *)
Definition depart (method : string) (if_none_match : option string) (m : Message) : Message :=
  if negb (safe method) then m
  else if match m_headers m with Some hs => match own hs "etag" with Some _ => true | None => false end || disabled hs | None => false end then m
  else mkMessage (m_status m) (m_headers m) (m_body m) (Some if_none_match).

(** [same]: a tag strong or weak *)
Definition same (sent tag : string) : bool := bool_decide (sent = tag) || bool_decide (sent = "W/" +:+ tag).

(** [trim] *)
Fixpoint trim_left (s : list ascii) : list ascii :=
  match s with c :: r => if bool_decide (nat_of_ascii c ∈ [9; 10; 11; 12; 13; 32]%nat) then trim_left r else s | [] => [] end.

Definition trim_ (s : string) : string := of_chars (rev (trim_left (rev (trim_left (chars s))))).

(** ** What a reply is encoded as ([Context.ts]) *)

Record Format := mkFormat { f_type : string; multipart : string; encode : value -> string }.

Definition NEGOTIATED_LIMIT : nat := 1024.

(** [negotiate]: what an [accept] was negotiated to is kept, for so many of them *)
Definition negotiate (negotiator : string -> option Format) (accept : option string) (known : gmap string (option Format)) :
    option Format * gmap string (option Format) :=
  let accept := default "" accept in
  match known !! accept with
  | Some f => (f, known)
  | None =>
      let f := negotiator accept in
      let known := if (NEGOTIATED_LIMIT <=? size known)%nat then ∅ else known in
      (f, <[accept := f]> known)
  end.

(** ** What is thrown ([exceptions.ts]) *)

(** an exception of a status, or an error with its message and, where it has one, its stack *)
Inductive thrown := Exception (status : Z) (body : Body) (headers : option Headers) | Error_ (message : string) (stack : option string).

Definition NotAcceptable : thrown := Exception 406 Undefined None.
Definition BadRequest : thrown := Exception 400 Undefined None.
Definition UnsupportedMediaType : thrown := Exception 415 Undefined None.

(** those of a status of the client's *)
Definition client_error (e : thrown) : bool := match e with Exception s _ _ => (400 <=? s) && (s <? 500) | Error_ _ _ => false end.

Definition status_of (e : thrown) : Z := match e with Exception s _ _ => s | Error_ _ _ => 500 end.

(** ** A body that is read ([Context.ts], [messages.ts]) *)

(** [read]: the header parsed into a type, and a charset where it states one *)
Definition read (parsed : string -> string * option string) (decoders : string -> option (string -> option string -> option value))
    (content_type : option string) (bytes : string) : result thrown Body :=
  match content_type with
  | None => Ok Undefined
  | Some header =>
      let '(type, charset) := parsed header in
      match decoders type with
      | None => Throw UnsupportedMediaType
      | Some decode => match decode bytes charset with Some v => Ok (Whole v) | None => Throw BadRequest end
      end
  end.

(** [body]: what is left of it where it was taken, through what the request accumulated *)
Definition body (consumed : bool) (reading : result thrown Body) (transforms : list (Body -> result thrown Body)) : result thrown Body :=
  v ← (if consumed then Ok Null else reading);
  foldl (fun v f => v ≫= f) (Ok v) transforms.

(** ** Writing a reply ([messages.ts]) *)

Record Response := mkResponse {
  code : Z;
  r_headers : Headers;
  (** what it was ended with, and the type of the frames a stream is written in, if it is in any *)
  ended : option (option string);
  streams : option (option string)
}.

Definition response : Response := mkResponse 200 [] None None.

Definition set_header (name v : string) (r : Response) : Response := mkResponse (code r) (assign name v (r_headers r)) (ended r) (streams r).
Definition set_code (n : Z) (r : Response) : Response := mkResponse n (r_headers r) (ended r) (streams r).
Definition end_ (bytes : option string) (r : Response) : Response := mkResponse (code r) (r_headers r) (Some bytes) (streams r).
Definition append_header (name v : string) (r : Response) : Response := mkResponse (code r) (append name v (r_headers r)) (ended r) (streams r).

Definition BOUNDARY : string := "cut".

Section writing.
(** the hash of bytes, the version of what answers and how long it took *)
Context (tag : string -> string) (exposition timing : string).

Definition send (m : Message) (encoder : option Format) (r : Response) : result thrown unit * Response :=
  match m_body m with
  | Undefined | Null =>
      (Ok tt, end_ None (match own (r_headers r) "content-length" with Some _ => r | None => set_header "content-length" "0" r end))
  | b =>
      match encoder with
      | None => (Throw NotAcceptable, r)
      | Some f =>
          let buf := match b with Encoded bytes _ => bytes | Whole v => encode f v | _ => "" end in
          let type := match b with Encoded _ t => t | _ => f_type f end in
          let validation := (fun sent => (tag buf, match sent with Some s => same s (tag buf) | None => false end)) <$> validate m in
          let r := match validation with Some (etag, _) => set_header "etag" etag r | None => r end in
          if match validation with Some (_, held) => held | None => false end then (Ok tt, end_ None (set_code 304 r))
          else
            (Ok tt, end_ (Some buf) (append_header "vary" "accept" (set_header "content-length" (pretty (String.length buf)) (set_header "content-type" type r))))
      end
  end.

Definition stream (m : Message) (encoder : option Format) (r : Response) : result thrown unit * Response :=
  if match m_headers m with Some hs => match own hs "content-type" with Some _ => true | None => false end | None => false end
  then (Ok tt, mkResponse (code r) (r_headers r) (ended r) (Some None))
  else
    match encoder with
    | None => (Throw NotAcceptable, r)
    | Some f =>
        let r := set_header "content-type" (multipart f +:+ "; boundary=" +:+ BOUNDARY) r in
        (Ok tt, mkResponse (code r) (r_headers r) (ended r) (Some (Some (multipart f))))
    end.

(** [write]: through what the request accumulated; nobody reads what is destroyed *)
Definition write (shape : Message -> result thrown Message) (encoder : option Format) (destroyed : bool) (m : Message) (r : Response) :
    result thrown unit * Response :=
  match shape m with
  | Throw e => (Throw e, r)
  | Ok m =>
      let r := match m_status m with Some s => set_code s r | None => r end in
      let r := set_header "exposition" exposition r in
      let r := foldl (fun r h => set_header (fst h) (snd h) r) r (default [] (m_headers m)) in
      let r := set_header "server-timing" timing r in
      if destroyed then (Ok tt, r)
      else match m_body m with Parts => stream m encoder r | _ => send m encoder r end
  end.

(** ** Serving ([Server.ts]) *)

Definition status (method : string) (m : Message) : Z :=
  match m_status m with
  | Some s => s
  | None =>
      match m_body m with
      | Null => 404
      | b =>
          if bool_decide (method = "POST") then 201
          else if match b with Undefined => negb (bool_decide (method = "HEAD")) | _ => false end then 204
          else 200
      end
  end.

Definition success shape encoder destroyed (method : string) (m : Message) (r : Response) : result thrown unit * Response :=
  write shape encoder destroyed (mkMessage (Some (status method m)) (m_headers m) (m_body m) (validate m)) r.

(** what is told of a failure *)
Definition told (debug : bool) (e : thrown) : Body :=
  if client_error e || debug then
    match e with
    | Exception _ b _ => b
    | Error_ message stack => Whole (VString (if debug then default message stack else message))
    end
  else Undefined.

Definition fail shape (encoder : option Format) destroyed (debug aborted : bool) (e : thrown) (r : Response) : Response :=
  if aborted then r
  else
    match ended r with
    | Some _ => r
    | None =>
        let m := mkMessage (Some (status_of e)) (match e with Exception _ _ hs => hs | _ => None end)
          (match encoder with None => Undefined | Some _ => told debug e end) None in
        match write shape encoder destroyed m (set_code (status_of e) r) with
        | (Ok _, r) => r
        | (Throw _, r) => match ended r with Some _ => r | None => end_ None (set_code 500 r) end
        end
    end.

(** [serve]: a failure to write the answer is answered as a failure to produce it *)
Definition serve shape encoder destroyed debug aborted (method : string) (processed : result thrown Message) (r : Response) : Response :=
  match processed with
  | Throw e => fail shape encoder destroyed debug aborted e r
  | Ok m =>
      match success shape encoder destroyed method m r with
      | (Ok _, r) => r
      | (Throw e, r) => fail shape encoder destroyed debug aborted e r
      end
  end.

End writing.

(** what is refused before anything is served: [listener] *)
Record Request := mkRequest { authority : option string; method : option string; url_valid : bool }.

Definition methods : list string := ["OPTIONS"; "GET"; "HEAD"; "POST"; "PUT"; "PATCH"; "DELETE"; "LOCK"; "UNLOCK"].

Inductive admission := Answered (r : Response) | Processed (authority_ : string).

Fixpoint span (f : ascii -> bool) (s : list ascii) : list ascii * list ascii :=
  match s with
  | c :: r => if f c then let '(a, b) := span f r in (c :: a, b) else ([], s)
  | [] => ([], [])
  end.

Definition numeric (c : ascii) : bool := (48 <=? nat_of_ascii c)%nat && (nat_of_ascii c <=? 57)%nat.
Definition within_ (lo hi : nat) (s : list ascii) : bool := (lo <=? length s)%nat && (length s <=? hi)%nat.

Definition port (s : list ascii) : bool :=
  match s with
  | [] => true
  | c :: ds => Ascii.eqb c ":" && within_ 1 5 ds && forallb numeric ds
  end.

(** [HOST]: a name with an optional port, or a bracketed literal *)
Definition valid (host : string) : bool :=
  match chars host with
  | "["%char :: s =>
      let '(inner, rest) := span (fun c => negb (Ascii.eqb c "]")) s in
      match rest with
      | _ :: p => within_ 2 45 inner && forallb (fun c => numeric c || bool_decide (c ∈ chars "abcdef:.")) inner && port p
      | [] => false
      end
  | s =>
      let '(name, p) := span (fun c => numeric c || (is_word c && Ascii.eqb (lower c) c && negb (Ascii.eqb c "_")) || Ascii.eqb c "." || Ascii.eqb c "-") s in
      within_ 1 253 name && port p
  end.

(** [resolution]: the authority a host is declared under, the hosts of [mcp] after those of the authorities *)
Definition resolution (authorities mcp : list (string * string)) : gmap string string :=
  foldl (fun m d => <[of_chars (lower <$> chars (snd d)) := fst d]> m) ∅ (authorities ++ mcp).

(** [holding] is what a gate says, if there is one, and [remaining] for how long *)
Definition listener (authorities : gmap string string) (quiesced : bool) (holding : option bool) (remaining : Z) (q : Request) : admission :=
  let r := set_header "access-control-expose-headers" "*" (set_header "access-control-allow-origin" "*" response) in
  if quiesced || bool_decide (holding = Some false) then
    let r := set_header "cache-control" "no-store" (set_code 503 r) in
    Answered (end_ None (if 0 <? remaining then set_header "retry-after" (pretty remaining) r else r))
  else
    match authority q with
    | None => Answered (end_ None (set_code 400 r))
    | Some a =>
        let host := of_chars (lower <$> chars a) in
        if negb (valid host) || negb (url_valid q) then Answered (end_ None (set_code 400 r))
        else
          match method q with
          | Some m => if bool_decide (m ∈ methods) then Processed (default host (authorities !! host)) else Answered (end_ None (set_code 501 r))
          | None => Answered (end_ None (set_code 501 r))
          end
    end.

(** ** A stream of parts ([messages.ts]) *)

Inductive chunk := Ack | Part (v : value) | Fin.

Record Framing := mkFraming { pulling : bool; stopping : bool; finished : bool; out : list chunk }.

Definition finish (f : Framing) : Framing :=
  if finished f then f else mkFraming (pulling f) (stopping f) true (out f ++ [Fin]).

Definition stop (f : Framing) : Framing :=
  let f := mkFraming (pulling f) true (finished f) (out f) in
  if pulling f then f else finish f.

Definition framing (aborted : bool) : Framing :=
  let f := mkFraming false false false [Ack] in if aborted then stop f else f.

Inductive step :=
(** the reader takes what there is *)
| Takes
(** the body has a part, has no more, or fails *)
| Yields (v : value)
| Done
| Fails
(** the signal of the request is aborted *)
| Stops.

Definition act (e : step) (f : Framing) : option Framing :=
  match e with
  | Takes => Some (if pulling f || finished f then f else mkFraming true (stopping f) (finished f) (out f))
  | Yields v =>
      if pulling f then
        let f := mkFraming false (stopping f) (finished f) (out f) in
        Some (if stopping f then finish f else mkFraming false (stopping f) (finished f) (out f ++ [Part v]))
      else None
  | Done | Fails => if pulling f then Some (finish (mkFraming false (stopping f) (finished f) (out f))) else None
  | Stops => Some (if finished f then f else stop f)
  end.

Fixpoint acts (es : list step) (f : Framing) : option Framing :=
  match es with [] => Some f | e :: es => act e f ≫= acts es end.

(** ** The client ([address.ts]) *)

(** headers of a request, their names in lower case; a list holds the last the edge appended *)
Definition address (request : Headers) (header : option string) : option string :=
  h ← header;
  v ← own request h;
  let l := trim_ (default "" (last (split ","%char v))) in
  if bool_decide (l = "") then None else Some l.

Definition country (request : Headers) (header : option string) : option string :=
  h ← header;
  v ← own request (of_chars (lower <$> chars h));
  let l := trim_ v in
  if bool_decide (l = "") then None else Some l.

(** ** What others may keep of a reply *)

Lemma land_pow m k : 0 <= k -> (Z.land m (2 ^ k) =? 2 ^ k) = Z.testbit m k.
Proof.
  intros Hk. destruct (Z.testbit m k) eqn:E.
  - apply Z.eqb_eq, Z.bits_inj'. intros n Hn. rewrite Z.land_spec, Z.pow2_bits_eqb by lia. destruct (Z.eqb_spec k n) as [->|]; [by rewrite E|].
    by rewrite andb_false_r.
  - apply Z.eqb_neq. intros H. apply (f_equal (fun x => Z.testbit x k)) in H. rewrite Z.land_spec, Z.pow2_bits_true, E in H by lia. done.
Qed.

Lemma mask_keeps k m ws : Z.testbit m k = true -> Z.testbit (foldl (fun m w => Z.lor m (bit w)) m ws) k = true.
Proof. revert m. induction ws as [|w ws IH]; intros m Hm; cbn; [done|]. apply IH. by rewrite Z.lor_spec, Hm. Qed.

(** the bit of the word a value begins with is in its mask *)
Lemma mask_first w v k : found (S (String.length (w +:+ v))) false (chars (w +:+ v)) = chars w :: found (String.length (w +:+ v)) true (chars v) ->
  Z.testbit (bit (chars w)) k = true -> Z.testbit (mask (w +:+ v)) k = true.
Proof. intros Hf Hb. unfold mask. rewrite Hf. cbn [foldl]. apply mask_keeps. by rewrite Z.lor_spec, Hb, orb_true_r. Qed.

Lemma mask_private v : Z.testbit (mask ("private, " +:+ v)) 1 = true.
Proof. apply (mask_first "private" (", " +:+ v)); [reflexivity | reflexivity]. Qed.

Lemma mask_no_cache v : Z.testbit (mask ("no-cache, " +:+ v)) 2 = true.
Proof. apply (mask_first "no-cache" (", " +:+ v)); [reflexivity | reflexivity]. Qed.

(** what a shared cache may not keep, or must ask for before it answers with it *)
Definition kept_apart (hs : Headers) : Prop :=
  exists v, own hs "cache-control" = Some v /\ (Z.testbit (mask v) 1 = true \/ Z.testbit (mask v) 2 = true \/ Z.testbit (mask v) 3 = true).

Lemma own_append name other v hs : name <> other -> own (append other v hs) name = own hs name.
Proof. intros Hn. unfold append. destruct (own hs other); rewrite own_assign; by rewrite decide_False. Qed.

Lemma disabled_kept hs : disabled hs = true -> kept_apart hs.
Proof.
  unfold disabled, kept_apart. destruct (own hs "cache-control") as [v|]; [|done]. intros H. exists v. split; [done|]. right. right.
  by rewrite (land_pow _ 3) in H.
Qed.

Lemma resolve_kept d : exact d = false -> let v := control (resolve d true) in
  Z.testbit (mask v) 1 = true \/ Z.testbit (mask v) 2 = true.
Proof.
  intros He. unfold resolve. rewrite He. cbn [orb negb].
  destruct (Z.land (mask (c_value d)) (Z.lor PUBLIC NO_CACHE) =? PUBLIC) eqn:H1; [right; apply mask_no_cache|].
  destruct (Z.land (mask (c_value d)) (Z.lor PUBLIC PRIVATE) =? 0) eqn:H2; [left; apply mask_private|]. cbn [control].
  set (m := mask (c_value d)) in *. destruct (Z.testbit m 1) eqn:E1; [by left|]. right. destruct (Z.testbit m 2) eqn:E2; [done|]. exfalso.
  assert (E0 : Z.testbit m 0 = true).
  { destruct (Z.testbit m 0) eqn:E0; [done|]. apply Z.eqb_neq in H2. destruct H2. apply Z.bits_inj'. intros n Hn.
    rewrite Z.land_spec, Z.bits_0. change (Z.lor PUBLIC PRIVATE) with 3. destruct (decide (n = 0)) as [->|]; [by rewrite E0|].
    destruct (decide (n = 1)) as [->|]; [by rewrite E1|]. rewrite (Z.bits_above_log2 3 n) by (cbn; lia). apply andb_false_r. }
  apply Z.eqb_neq in H1. apply H1. apply Z.bits_inj'. intros n Hn. rewrite Z.land_spec. change (Z.lor PUBLIC NO_CACHE) with 5. change PUBLIC with 1.
  destruct (decide (n = 0)) as [->|]; [by rewrite E0|]. destruct (decide (n = 1)) as [->|]; [by rewrite E1|].
  destruct (decide (n = 2)) as [->|]; [by rewrite E2|]. rewrite (Z.bits_above_log2 5 n), (Z.bits_above_log2 1 n) by (cbn; lia). apply andb_false_r.
Qed.

(** a reply of a safe method to a request that was identified is never one a shared cache may answer another with: it is
    private, or asked for again, or not stored, whatever the route declares short of [cache:exact] and whatever the component
    stated, and with no declaration at all. *)
Theorem identified_is_not_shared directives method m : safe method = true -> (forall d rest, directives = d :: rest -> exact d = false) ->
  exists hs, m_headers (settle directives true method m) = Some hs /\ kept_apart hs.
Proof.
  intros Hs Hd. unfold settle. destruct directives as [|d rest].
  - rewrite Hs. cbn [andb]. destruct (match m_headers m with Some hs => disabled hs | None => false end) eqn:E; cbn [negb].
    + destruct (m_headers m) as [hs|] eqn:Hm; [|done]. exists hs. split; [done | by apply disabled_kept].
    + eexists. split; [reflexivity|]. exists "private". rewrite own_append by done. rewrite own_assign, decide_True by done. auto.
  - specialize (Hd d rest eq_refl). rewrite Hd, Hs. cbn [orb]. eexists. split; [reflexivity|]. unfold set.
    destruct (disabled (default [] (m_headers m))) eqn:E; [by apply disabled_kept|].
    exists (control (resolve d true)). split.
    + destruct (vary (resolve d true)); [rewrite own_append by done|]; rewrite own_assign; by rewrite decide_True.
    + destruct (resolve_kept d Hd) as [H|H]; auto.
Qed.

(** what is said of it to the caches: whoever is asked again is told by whom the reply varies, where the words a route declares
    do not already say that it may be shared *)
Lemma private_varies directives method m : safe method = true -> (forall d rest, directives = d :: rest -> exact d = false) ->
  (forall d rest, directives = d :: rest -> Z.testbit (mask (c_value d)) 0 = false) ->
  (match m_headers m with Some hs => disabled hs | None => false end) = false ->
  exists hs v, m_headers (settle directives true method m) = Some hs /\ own hs "vary" = Some v.
Proof.
  intros Hs Hd Hp Hn. unfold settle.
  assert (Ha : forall hs, exists v, own (append "vary" "authorization" hs) "vary" = Some v).
  { intros hs. unfold append. destruct (own hs "vary"); rewrite own_assign, decide_True by done; eauto. }
  destruct directives as [|d rest].
  - rewrite Hs. cbn [andb]. rewrite Hn. cbn [negb]. destruct (Ha (assign "cache-control" "private" (default [] (m_headers m)))) as [v Hv]. eauto.
  - specialize (Hd d rest eq_refl). specialize (Hp d rest eq_refl). rewrite Hd, Hs. cbn [orb]. unfold set.
    replace (disabled (default [] (m_headers m))) with false by (by destruct (m_headers m)).
    assert (Hv : vary (resolve d true) = true).
    { unfold resolve. rewrite Hd. cbn [orb negb]. set (k := mask (c_value d)) in *.
      destruct (Z.land k (Z.lor PUBLIC NO_CACHE) =? PUBLIC) eqn:H1.
      { apply Z.eqb_eq in H1. apply (f_equal (fun x => Z.testbit x 0)) in H1. rewrite Z.land_spec, Hp in H1. done. }
      destruct (Z.land k (Z.lor PUBLIC PRIVATE) =? 0) eqn:H2; [done|]. cbn [vary]. rewrite (land_pow _ 1) by lia.
      destruct (Z.testbit k 1) eqn:E1; [done|]. apply Z.eqb_neq in H2. destruct H2. apply Z.bits_inj'. intros n Hn'.
      rewrite Z.land_spec, Z.bits_0. change (Z.lor PUBLIC PRIVATE) with 3. destruct (decide (n = 0)) as [->|]; [by rewrite Hp|].
      destruct (decide (n = 1)) as [->|]; [by rewrite E1|]. rewrite (Z.bits_above_log2 3 n) by (cbn; lia). apply andb_false_r. }
    rewrite Hv. destruct (Ha (assign "cache-control" (control (resolve d true)) (default [] (m_headers m)))) as [v Hv']. eauto.
Qed.

(** ** Answers *)

Definition answered (r : Response) : Prop := ended r <> None \/ streams r <> None.

Lemma headers_ended hs r : ended (foldl (fun r (h : string * string) => set_header (fst h) (snd h) r) r hs) = ended r
  /\ streams (foldl (fun r (h : string * string) => set_header (fst h) (snd h) r) r hs) = streams r.
Proof. revert r. induction hs as [|h hs IH]; intros r; cbn [foldl]; [done|]. destruct (IH (set_header (fst h) (snd h) r)) as [-> ->]. done. Qed.

Lemma send_answers tag m encoder r : match send tag m encoder r with (Ok _, r') => answered r' | (Throw _, r') => r' = r end.
Proof. unfold send, answered. repeat case_match; simplify_eq; try done; left; done. Qed.

Lemma stream_answers m encoder r : match stream m encoder r with (Ok _, r') => answered r' | (Throw _, r') => r' = r end.
Proof. unfold stream, answered. repeat case_match; simplify_eq; try done; right; done. Qed.

(** what is written to a response that is not destroyed answers it, and what is refused leaves it as open as it was *)
Lemma write_answers tag exposition timing shape encoder m r :
  match write tag exposition timing shape encoder false m r with
  | (Ok _, r') => answered r' | (Throw _, r') => ended r' = ended r /\ streams r' = streams r end.
Proof.
  unfold write. destruct (shape m) as [m'|e]; [|done].
  set (r1 := match m_status m' with Some s => set_code s r | None => r end).
  assert (H1 : ended r1 = ended r /\ streams r1 = streams r) by (subst r1; by destruct (m_status m')).
  pose proof (headers_ended (default [] (m_headers m')) (set_header "exposition" exposition r1)) as H2.
  set (r2 := set_header "server-timing" timing _) in *.
  assert (H3 : ended r2 = ended r /\ streams r2 = streams r) by (subst r2; cbn in *; destruct H1, H2; split; congruence).
  clearbody r2. cbn iota.
  assert (Hs : match send tag m' encoder r2 with (Ok _, r') => answered r' | (Throw _, r') => ended r' = ended r /\ streams r' = streams r end).
  { pose proof (send_answers tag m' encoder r2) as H. destruct (send tag m' encoder r2) as [[u|e] r']; [done | by subst]. }
  assert (Ht : match stream m' encoder r2 with (Ok _, r') => answered r' | (Throw _, r') => ended r' = ended r /\ streams r' = streams r end).
  { pose proof (stream_answers m' encoder r2) as H. destruct (stream m' encoder r2) as [[u|e] r']; [done | by subst]. }
  destruct (m_body m'); done.
Qed.

Lemma fail_answers tag exposition timing shape encoder debug e r :
  answered (fail tag exposition timing shape encoder false debug false e r).
Proof.
  unfold fail. destruct (ended r) eqn:E; [left; by rewrite E|].
  pose proof (write_answers tag exposition timing shape encoder
    (mkMessage (Some (status_of e)) (match e with Exception _ _ hs => hs | _ => None end) (match encoder with None => Undefined | Some _ => told debug e end) None)
    (set_code (status_of e) r)) as H.
  destruct (write _ _ _ _ _ _ _ _) as [[u|e'] r']; [done|]. destruct (ended r') eqn:E'; [left; by rewrite E' | left; done].
Qed.


(** what is not the client's to know: the answer to an error of the program has no body *)
Lemma failure_is_not_told tag exposition timing shape encoder e r :
  (forall m, m_body m = Undefined -> exists m', shape m = Ok m' /\ m_body m' = Undefined /\ m_status m' = m_status m) ->
  client_error e = false -> ended r = None ->
  let r' := fail tag exposition timing shape encoder false false false e r in ended r' = Some None /\ code r' = status_of e.
Proof.
  intros Hshape He Hr. unfold fail. rewrite Hr.
  set (m := mkMessage (Some (status_of e)) _ _ None).
  assert (Hm : m_body m = Undefined) by (subst m; cbn; destruct encoder; [|done]; unfold told; by rewrite He).
  destruct (Hshape m Hm) as (m' & Hs & Hb & Hst). unfold write. rewrite Hs, Hst, Hb. cbn [m_status m]. unfold send. rewrite Hb. cbn [end_ ended code].
  assert (Hc : forall hs r, code (foldl (fun r (h : string * string) => set_header (fst h) (snd h) r) r hs) = code r).
  { intros hs. induction hs as [|h hs IH]; intros r0; cbn [foldl]; [done|]. by rewrite IH. }
  split; [done|]. destruct (own _ "content-length"); cbn; by rewrite Hc.
Qed.

(** what was negotiated before is what would be negotiated again, and no more of it is kept than the limit *)
Lemma negotiated_again n accept k : (forall a f, k !! a = Some f -> f = n a) -> (size k <= NEGOTIATED_LIMIT)%nat ->
  let '(f, k') := negotiate n accept k in
  f = n (default "" accept) /\ (forall a f, k' !! a = Some f -> f = n a) /\ (size k' <= NEGOTIATED_LIMIT)%nat.
Proof.
  intros Hk Hs. unfold negotiate. set (a := default "" accept). destruct (k !! a) as [f|] eqn:E; [by eauto|].
  split; [done|]. destruct (NEGOTIATED_LIMIT <=? size k)%nat eqn:L; split.
  - intros b f. rewrite lookup_insert. case_decide as Hd; [intros H; injection H as <-; by rewrite Hd | by rewrite lookup_empty].
  - rewrite map_size_insert, lookup_empty, map_size_empty. unfold NEGOTIATED_LIMIT. lia.
  - intros b f. rewrite lookup_insert. case_decide as Hd; [intros H; injection H as <-; by rewrite Hd | apply Hk].
  - rewrite map_size_insert, E. apply Nat.leb_gt in L. lia.
Qed.

(** ** Frames *)

(** what a body gave until the stream was told to stop *)
Fixpoint given (es : list step) : list value :=
  match es with
  | Yields v :: es => v :: given es
  | Stops :: _ => []
  | _ :: es => given es
  | [] => []
  end.

(** the frames written are an acknowledgement, parts in their order and, where it is over, one end; what is told to stop and
    waits for no part is over, and nothing is awaited once it is over *)
Definition frames (f : Framing) (parts : list value) : Prop :=
  out f = Ack :: (Part <$> parts) ++ (if finished f then [Fin] else [])
  /\ (stopping f = true -> pulling f = false -> finished f = true) /\ (finished f = true -> pulling f = false).

Lemma frames_finish s o parts : o = Ack :: (Part <$> parts) -> frames (finish (mkFraming false s false o)) parts.
Proof. intros ->. by repeat split. Qed.

Lemma frames_over f parts es f' : frames f parts -> finished f = true -> acts es f = Some f' -> f' = f /\ given es = [].
Proof.
  intros (Ho & Hs & Hf) E. pose proof (Hf E) as Hp. revert f'. induction es as [|e es IH]; intros f' H; [by injection H as <-|].
  cbn [acts] in H. destruct e; cbn [act] in H; rewrite ?Hp, ?E in H; cbn [orb mbind option_bind] in H; try done; destruct (IH _ H); done.
Qed.

Lemma frames_act e f parts f' : frames f parts -> finished f = false -> act e f = Some f' ->
  frames f' (match e with Yields v => if stopping f then parts else parts ++ [v] | _ => parts end)
  /\ stopping f' = (stopping f || match e with Stops => true | _ => false end).
Proof.
  intros (Ho & Hs & Hf) E. rewrite E, app_nil_r in Ho.
  destruct e; cbn [act]; rewrite ?E, ?orb_false_r; destruct (pulling f) eqn:P; try done; intros H; injection H as <-.
  - repeat split; cbn; rewrite ?E, ?P; try done; by rewrite Ho, app_nil_r.
  - repeat split; cbn; rewrite ?E, ?P; try done; by rewrite Ho, app_nil_r.
  - destruct (stopping f) eqn:S; [by split; [apply frames_finish|]|]. repeat split; cbn; rewrite ?E; try done. by rewrite Ho, app_nil_r, fmap_app.
  - split; [by apply frames_finish | done].
  - split; [by apply frames_finish | done].
  - unfold stop. cbn [pulling]. rewrite P. split; [|by rewrite orb_true_r]. repeat split; cbn; rewrite ?E; try done; by rewrite Ho, app_nil_r.
  - unfold stop. cbn [pulling]. rewrite P. rewrite E. split; [by apply frames_finish | by rewrite orb_true_r].
Qed.

Lemma frames_acts es f parts f' : frames f parts -> acts es f = Some f' ->
  frames f' (parts ++ if stopping f then [] else given es).
Proof.
  revert f parts. induction es as [|e es IH]; intros f parts Hf H; cbn [acts] in H.
  { injection H as <-. destruct (stopping f); by rewrite app_nil_r. }
  destruct (finished f) eqn:E.
  { destruct (frames_over f parts (e :: es) f' Hf E H) as [-> ->]. destruct (stopping f); by rewrite app_nil_r. }
  destruct (act e f) as [f1|] eqn:A; [|done]. destruct (frames_act e f parts f1 Hf E A) as [Hf1 Hs1].
  specialize (IH f1 _ Hf1 H). rewrite Hs1 in IH.
  destruct e, (stopping f); cbn [orb given] in *; rewrite ?app_nil_r in *; try done; by rewrite <- app_assoc in IH.
Qed.

(** a stream reads as it was framed: whatever order parts, the reader, the end of the body, its failure and the stop of the
    gateway come in, what is written is one acknowledgement, the parts the body gave before the stream was told to stop, in
    their order, and then at most one end, after which nothing; and one that was told to stop with no part awaited has its end. *)
Theorem streams_are_framed aborted es f : acts es (framing aborted) = Some f ->
  out f = Ack :: (Part <$> (if aborted then [] else given es)) ++ (if finished f then [Fin] else [])
  /\ (stopping f = true -> pulling f = false -> finished f = true).
Proof.
  intros H. assert (Hf : frames (framing aborted) []) by (by destruct aborted).
  destruct (frames_acts es _ _ _ Hf H) as (Ho & Hs & _). rewrite Ho. destruct aborted; done.
Qed.

(** ** A gateway of a shop *)
Module Shop.
Definition json : Format := mkFormat "application/json" "multipart/json" (fun v => match v with VString s => s | _ => "?" end).
Definition tag (bytes : string) : string := bytes.
Definition shape (m : Message) : result thrown Message := Ok m.

(** the directives of a route that states [cache:control: public] and a request of somebody known *)
Definition public : Control := mkControl "public, max-age=60" false.
Definition product : Message := mkMessage None None (Whole (VString "tea")) None.

Lemma identified_is_not_shared_witness : exists hs, m_headers (settle [public] true "GET" product) = Some hs /\ kept_apart hs.
Proof. apply (identified_is_not_shared [public] "GET" product); [reflexivity|]. intros d rest H. injection H as <- <-. reflexivity. Defined.

Lemma public_is_asked_again : settle [public] true "GET" product
  = mkMessage None (Some [("cache-control", "no-cache, public, max-age=60")]) (Whole (VString "tea")) None.
Proof. vm_compute. reflexivity. Qed.

Definition shown : list step := [Takes; Yields (VNumber 1); Takes; Stops; Yields (VNumber 2); Takes].

Lemma streams_are_framed_witness : exists f, acts shown (framing false) = Some f
  /\ out f = Ack :: (Part <$> given shown) ++ (if finished f then [Fin] else [])
  /\ (stopping f = true -> pulling f = false -> finished f = true).
Proof. eexists. split; [vm_compute; reflexivity|]. apply (streams_are_framed false shown). vm_compute. reflexivity. Defined.

Lemma shown_out : option_map out (acts shown (framing false)) = Some [Ack; Part (VNumber 1); Fin].
Proof. vm_compute. reflexivity. Qed.

(** a reply to be stored by anybody, that no format the client accepts can carry: the refusal is written over the headers of the
    reply, and may be stored by anybody as well *)
Lemma refusal_is_kept_as_the_reply :
  let m := mkMessage None (Some [("cache-control", "public, max-age=60")]) (Whole (VString "tea")) None in
  let r := serve tag "1" "t" shape None false false false "GET" (Ok m) response in
  code r = 406 /\ own (r_headers r) "cache-control" = Some "public, max-age=60" /\ own (r_headers r) "vary" = None
  /\ own (r_headers (serve tag "1" "t" shape (Some json) false false false "GET" (Ok m) response)) "vary" = Some "accept".
Proof. vm_compute. done. Qed.

(** the header an edge names the client in, spelt as its documentation does, is not found; the one of the country is *)
Lemma address_is_looked_up_as_spelt :
  let request := [("cf-connecting-ip", "192.0.2.1"); ("cf-ipcountry", "NL")] in
  address request (Some "CF-Connecting-IP") = None /\ address request (Some "cf-connecting-ip") = Some "192.0.2.1"
  /\ country request (Some "CF-IPCountry") = Some "NL".
Proof. vm_compute. done. Qed.

(** what is declared [public] is not made private for whoever is known *)
Lemma public_is_not_private : own (default [] (m_headers (settle [mkControl "public, no-cache" false] true "GET" product))) "cache-control"
  = Some "public, no-cache".
Proof. vm_compute. reflexivity. Qed.

(** the words are found whatever their case and counted in the one *)
Lemma capitals_are_not_counted : length (found 20 false (chars "No-Store, PRIVATE")) = 2%nat /\ mask "No-Store, PRIVATE" = 0
  /\ disabled [("cache-control", "No-Store")] = false.
Proof. vm_compute. done. Qed.

(** an answer of 304 does not say it varies by what is accepted, as the one it stands for does *)
Lemma held_does_not_vary :
  let m sent := mkMessage None None (Whole (VString "tea")) (Some (Some sent)) in
  let r sent := serve tag "1" "t" shape (Some json) false false false "GET" (Ok (m sent)) response in
  (code (r "tea") = 304 /\ own (r_headers (r "tea")) "vary" = None) /\ (code (r "old") = 200 /\ own (r_headers (r "old")) "vary" = Some "accept").
Proof. vm_compute. done. Qed.

(** text of one type: the types of values there are, read by their own decoders *)
Lemma unknown_type_is_refused : read (fun h => (h, None)) (fun t => if bool_decide (t = "text/plain") then Some (fun b _ => Some (VString b)) else None)
  (Some "image/png") "x" = Throw UnsupportedMediaType.
Proof. reflexivity. Qed.

(** who asks is told nothing of an error of the program, unless the gateway debugs *)
Lemma failure_told :
  let r debug := serve tag "1" "t" shape (Some json) false debug false "GET" (Throw (Error_ "no table" None)) response in
  ended (r false) = Some None /\ ended (r true) = Some (Some "no table") /\ code (r false) = 500.
Proof. vm_compute. done. Qed.

(** what is not served is refused before anything of it is read *)
Lemma refused_first :
  let code_of a := match a with Answered r => code r | Processed _ => 0 end in
  code_of (listener ∅ true None 0 (mkRequest None None false)) = 503
  /\ code_of (listener ∅ false None 0 (mkRequest (Some "shop.io:http") (Some "GET") true)) = 400
  /\ code_of (listener ∅ false None 0 (mkRequest (Some "shop.io:80") (Some "TRACE") true)) = 501
  /\ listener (resolution [("shop", "Shop.io:80")] []) false None 0 (mkRequest (Some "SHOP.io:80") (Some "GET") true) = Processed "shop"
  /\ listener ∅ false None 0 (mkRequest (Some "[::1]") (Some "GET") true) = Processed "[::1]".
Proof. vm_compute. done. Qed.
End Shop.
