(* ===== verification/Passwords.v ===== *)
(** * Passwords

    [extensions/exposition/components/identity.otp/]: one-time passwords. A code is held in the stash under the authority and the
    name it was issued for, with what it was issued for; whoever presents it spends it, and a counter of attempts, held in the
    stash beside it, limits how often a name may be tried. The stash is shared by all processes, and a redemption asks it a few
    times over: a step is what one request makes of the stash between two awaits. *)
From stdpp Require Import strings gmap.
From S2P Require Import Prelude.

Open Scope Z_scope.

(** ** The stash: what keys hold, and until when, as the commands used of it answer *)

Notation Store := (gmap string (string * option Z)) (only parsing).

Definition alive (now : Z) (e : option Z) : bool := match e with None => true | Some t => now <? t end.

Definition get (now : Z) (k : string) (s : Store) : option string :=
  match s !! k with Some (v, e) => if alive now e then Some v else None | None => None end.

Definition set_ex (now lifetime : Z) (k v : string) (s : Store) : Store := <[k := (v, Some (now + lifetime))]> s.

(** whether there was one *)
Definition del (now : Z) (k : string) (s : Store) : bool * Store := (bool_decide (is_Some (get now k s)), delete k s).

Definition expire (now lifetime : Z) (k : string) (s : Store) : Store :=
  match get now k s with Some v => <[k := (v, Some (now + lifetime))]> s | None => s end.

(** the number a text is, if it is one *)
Definition digit (c : ascii) : option N :=
  let n := N_of_ascii c in if ((48 <=? n) && (n <=? 57))%N then Some (n - 48)%N else None.

Fixpoint numeral (acc : N) (s : list ascii) : option N :=
  match s with
  | [] => Some acc
  | c :: s => d ← digit c; numeral (acc * 10 + d)%N s
  end.

Definition number (s : string) : option N := match chars s with [] => None | cs => numeral 0 cs end.

(** what is not there is counted from nothing, and what is keeps its time; a text that is no number is not counted *)
Definition incr (now : Z) (k : string) (s : Store) : option (N * Store) :=
  match s !! k with
  | Some (v, e) =>
      if alive now e then n ← number v; Some (n + 1, <[k := (pretty (n + 1)%N, e)]> s)%N else Some (1%N, <[k := (pretty 1%N, None)]> s)
  | None => Some (1%N, <[k := (pretty 1%N, None)]> s)
  end.

(** ** Redemptions ([redeem.ts]) *)

Definition SIGN_IN : string := "1".

Definition code_key (authority username code : string) : string := authority +:+ ":" +:+ username +:+ ":" +:+ code.
Definition attempts_key (authority username : string) : string := code_key authority username "attempts".

Record Redemption := mkRedemption { authority : string; username : string; code : string; accepts : string -> bool }.

Definition key_of (r : Redemption) : string := code_key (authority r) (username r) (code r).
Definition counter_of (r : Redemption) : string := attempts_key (authority r) (username r).

Definition EXPIRED : string := "EXPIRED".
Definition TOO_MANY_ATTEMPTS : string := "TOO_MANY_ATTEMPTS".

Inductive Stage :=
(** about to count the attempt, and to limit the time it is counted for *)
| Counting
| Limiting
(** about to look the code up, to delete it and to delete the counter *)
| Looking
| Spending (issued : string)
| Clearing (issued : string)
| Answered (answer : result string string).

Record Options := mkOptions { lifetime : Z; attempts : N }.

Definition admitted (o : Options) (attempt : N) : Stage :=
  if (attempts o <? attempt)%N then Answered (Throw TOO_MANY_ATTEMPTS) else Looking.

(** the next of what a redemption asks the stash for *)
Definition redeem (o : Options) (now : Z) (r : Redemption) (st : Stage) (s : Store) : option (Stage * Store) :=
  match st with
  | Counting =>
      match incr now (counter_of r) s with
      | Some (n, s) => Some (if bool_decide (n = 1%N) then Limiting else admitted o n, s)
      | None => Some (Answered (Throw "ERR value is not an integer or out of range"), s)
      end
  | Limiting => Some (admitted o 1, expire now (lifetime o) (counter_of r) s)
  | Looking =>
      match get now (key_of r) s with
      | Some v => Some (if accepts r v then Spending v else Answered (Throw EXPIRED), s)
      | None => Some (Answered (Throw EXPIRED), s)
      end
  | Spending v =>
      let '(there, s) := del now (key_of r) s in
      Some (if there then Clearing v else Answered (Throw EXPIRED), s)
  | Clearing v => Some (Answered (Ok v), snd (del now (counter_of r) s))
  | Answered _ => None
  end.

(** ** The operations ([issue.ts], [authenticate.ts], [confirm.ts]) *)

Record Entry := mkEntry { e_id : string; e_authority : string; e_username : string; e_identity : option string }.

(** [ensure]: the entry of a name, or one made with an id; names are unique *)
Definition ensure (newid : string) (authority username : string) (identity : option string) (es : list Entry) : Entry * list Entry :=
  match list_find (fun e => e_authority e = authority /\ e_username e = username) es with
  | Some (_, e) => (e, es)
  | None => let e := mkEntry newid authority username identity in (e, es ++ [e])
  end.

(** the name and the code credentials are, what follows a second colon being no part of either *)
Definition pair_of (decode : string -> string) (credentials : string) : option (string * string) :=
  match split ":"%char (decode credentials) with u :: c :: _ => Some (u, c) | _ => None end.

(** what [authenticate] redeems, and what it answers once that is redeemed *)
Definition sign_in (authority username code : string) : Redemption :=
  mkRedemption authority username code (fun v => bool_decide (v = SIGN_IN) || bool_decide (v = username)).

Definition authenticate (newid : string) (r : Redemption) (redeemed : result string string) (es : list Entry) : result string string * list Entry :=
  match redeemed with
  | Throw e => (Throw e, es)
  | Ok issued =>
      if bool_decide (issued = username r) then (Ok issued, es)
      else let '(e, es) := ensure newid (authority r) (username r) None es in (Ok (default (e_id e) (e_identity e)), es)
  end.

(** what [confirm] redeems, and what it answers *)
Definition tie (authority username code identity : string) : Redemption := mkRedemption authority username code (fun v => bool_decide (v = identity)).

Definition confirm (newid identity : string) (r : Redemption) (redeemed : result string string) (es : list Entry) : result string unit * list Entry :=
  match redeemed with
  | Throw e => (Throw e, es)
  | Ok _ =>
      let '(e, es) := ensure newid (authority r) (username r) (Some identity) es in
      (if bool_decide (default (e_id e) (e_identity e) = identity) then Ok tt else Throw "EXISTS", es)
  end.

(** ** What happens in a deployment *)

Record World := mkWorld { store : Store; now : Z; asked : list (Redemption * Stage) }.

Definition start (t : Z) : World := mkWorld ∅ t [].

Inductive step :=
| Ticks (d : Z)
(** a code of six digits is issued, for an identity or to sign in *)
| Issues (authority username : string) (code : N) (identity : option string) (stated : option Z)
| Asks (r : Redemption)
(** the redemption of a number gets its answer from the stash and goes on *)
| Goes (i : nat).

Definition act (o : Options) (e : step) (w : World) : option World :=
  match e with
  | Ticks d => if 0 <=? d then Some (mkWorld (store w) (now w + d) (asked w)) else None
  | Issues a u c identity stated =>
      if ((100000 <=? c) && (c <? 1000000))%N
      then Some (mkWorld (set_ex (now w) (default (lifetime o) stated) (code_key a u (pretty c)) (default SIGN_IN identity) (store w)) (now w) (asked w))
      else None
  | Asks r => Some (mkWorld (store w) (now w) (asked w ++ [(r, Counting)]))
  | Goes i =>
      p ← asked w !! i;
      q ← redeem o (now w) (fst p) (snd p) (store w);
      Some (mkWorld (snd q) (now w) (<[i := (fst p, fst q)]> (asked w)))
  end.

Definition acts (o : Options) : list step -> World -> option World := run (act o).

(** ** Numbers and keys *)

Lemma digit_char d : (d < 10)%N -> digit (pretty_N_char d) = Some d.
Proof.
  intros H. assert (Hd : d = 0%N \/ d = 1%N \/ d = 2%N \/ d = 3%N \/ d = 4%N \/ d = 5%N \/ d = 6%N \/ d = 7%N \/ d = 8%N \/ d = 9%N) by lia.
  repeat destruct Hd as [->|Hd]; try reflexivity. by subst.
Qed.

Lemma count_go n s : forall acc, exists m, numeral acc (chars (pretty_N_go n s)) = numeral m (chars s) /\ (acc = 0%N -> m = n).
Proof.
  revert s. induction (N.lt_wf_0 n) as [n _ IH]. intros s acc. destruct (decide (n = 0%N)) as [->|Hn].
  - exists acc. by rewrite pretty_N_go_0.
  - rewrite pretty_N_go_step by lia. destruct (IH (n `div` 10)%N (N.div_lt n 10 ltac:(lia) ltac:(lia)) (String (pretty_N_char (n `mod` 10)) s) acc) as (m & Hm & Ha).
    rewrite Hm. cbn [chars numeral]. rewrite digit_char by (apply N.mod_lt; lia). cbn [mbind option_bind]. eexists. split; [done|].
    intros Hz. rewrite (Ha Hz). pose proof (N.div_mod n 10). lia.
Qed.

Lemma go_nonempty n s : s <> "" -> pretty_N_go n s <> "".
Proof.
  revert s. induction (N.lt_wf_0 n) as [n _ IH]. intros s Hs. destruct (decide (n = 0%N)) as [->|Hn]; [by rewrite pretty_N_go_0|].
  rewrite pretty_N_go_step by lia. apply IH; [apply N.div_lt; lia | done].
Qed.

Lemma pretty_N_chars (n : N) : exists c cs, chars (pretty n) = c :: cs.
Proof.
  unfold pretty, pretty_N. case_decide; [by eexists _, _|]. rewrite pretty_N_go_step by lia.
  destruct (pretty_N_go (n `div` 10) _) eqn:E; [by apply go_nonempty in E | by eexists _, _].
Qed.

Lemma number_pretty (n : N) : number (pretty n) = Some n.
Proof.
  unfold number. destruct (pretty_N_chars n) as (c & cs & Hc). rewrite Hc, <- Hc. unfold pretty, pretty_N. case_decide; [by subst|].
  destruct (count_go n "" 0) as (m & -> & Hm). by rewrite Hm.
Qed.

Lemma pretty_N_separator (n : N) : separator ∉ chars (pretty n).
Proof. unfold pretty, pretty_N. case_decide; [cbn; by rewrite list_elem_of_singleton|]. apply pretty_N_go_separator. set_solver. Qed.

(** where a text ends with what holds no separator *)
Lemma cut_last {A} (x : A) l c l' c' : x ∉ c -> x ∉ c' -> l ++ x :: c = l' ++ x :: c' -> l = l' /\ c = c'.
Proof.
  revert l'. induction l as [|y l IH]; intros [|y' l'] Hc Hc' H; cbn in H.
  - by injection H as ->.
  - injection H as -> ->. destruct Hc. apply elem_of_app. right. by left.
  - injection H as -> <-. destruct Hc'. apply elem_of_app. right. by left.
  - injection H as -> H. by destruct (IH _ Hc Hc' H) as [-> ->].
Qed.

Lemma code_key_last a u c a' u' c' : separator ∉ chars c -> separator ∉ chars c' -> code_key a u c = code_key a' u' c' -> c = c'.
Proof.
  intros Hc Hc' H. apply (f_equal chars) in H. unfold code_key in H. rewrite !chars_app, !app_assoc in H. cbn [chars] in H.
  rewrite <- !app_assoc in H. cbn [app] in H. rewrite !app_comm_cons, !app_assoc in H.
  destruct (cut_last separator _ _ _ _ Hc Hc' H) as [_ Hl]. by apply chars_inj.
Qed.

Lemma attempts_separator : separator ∉ chars "attempts".
Proof. eapply bool_decide_eq_true_1. vm_compute. reflexivity. Qed.

(** a code that is issued is held apart from every counter *)
Lemma issued_is_no_counter a u (n : N) a' u' : code_key a u (pretty n) <> attempts_key a' u'.
Proof.
  intros H. apply code_key_last in H; [|apply pretty_N_separator | apply attempts_separator].
  pose proof (number_pretty n) as Hn. rewrite H in Hn. done.
Qed.

(** ** A run of the deployment *)

(** the step that is a redemption going on *)
Lemma goes_spec o i w w' : act o (Goes i) w = Some w' ->
  exists r st st' s', asked w !! i = Some (r, st) /\ redeem o (now w) r st (store w) = Some (st', s')
    /\ w' = mkWorld s' (now w) (<[i := (r, st')]> (asked w)).
Proof.
  cbn [act]. intros H. destruct (asked w !! i) as [[r st]|]; [|done]. cbn [mbind option_bind fst snd] in H.
  destruct (redeem o (now w) r st (store w)) as [[st' s']|] eqn:E; [|done]. cbn in H. injection H as <-. by exists r, st, st', s'.
Qed.

(** ** A code is spent once *)

(** what was spent under a key, and what was issued under it *)
Definition spent (k : string) (p : Redemption * Stage) : bool :=
  bool_decide (key_of (fst p) = k) && match snd p with Clearing _ | Answered (Ok _) => true | _ => false end.

Definition issued_under (k : string) (e : step) : bool :=
  match e with Issues a u c _ _ => bool_decide (code_key a u (pretty c) = k) | _ => false end.

Definition held (k : string) (s : Store) : nat := match s !! k with Some _ => 1 | None => 0 end.
Arguments held k s : simpl never.

Lemma held_insert k k' v s : held k (<[k' := v]> s) = if decide (k' = k) then 1%nat else held k s.
Proof. unfold held. rewrite lookup_insert. by case_decide. Qed.

Lemma held_delete k k' (s : Store) : held k (delete k' s) = if decide (k' = k) then 0%nat else held k s.
Proof. unfold held. rewrite lookup_delete. by case_decide. Qed.

Lemma held_alive now k s v : get now k s = Some v -> held k s = 1%nat.
Proof. unfold get, held. by destruct (s !! k) as [[]|]. Qed.

Lemma incr_other now k n s s' : incr now k s = Some (n, s') -> exists v, s' = <[k := v]> s.
Proof.
  unfold incr. intros H. destruct (s !! k) as [[v e]|]; [destruct (alive now e); [destruct (number v); [|done]|]|]; cbn in H; injection H as <- <-; eauto.
Qed.

Lemma spent_admitted k r o n : spent k (r, admitted o n) = false.
Proof. unfold spent, admitted. cbn [fst snd]. destruct (attempts o <? n)%N; apply andb_false_r. Qed.

(** what a redemption does to what is held under a key that is no counter *)
Lemma redeem_holds o t r st s st' s' k : (forall a u, k <> attempts_key a u) -> redeem o t r st s = Some (st', s') ->
  (Nat.b2n (spent k (r, st')) + held k s' <= Nat.b2n (spent k (r, st)) + held k s)%nat.
Proof.
  intros Hk H. assert (Hc : counter_of r <> k) by (intros E; by destruct (Hk (authority r) (username r))).
  destruct st; cbn [redeem] in H.
  - destruct (incr t (counter_of r) s) as [[n s1]|] eqn:E; injection H as <- <-; [|by cbn].
    destruct (incr_other _ _ _ _ _ E) as [v ->]. rewrite held_insert, decide_False by done.
    assert (Hs : spent k (r, if bool_decide (n = 1%N) then Limiting else admitted o n) = false).
    { case_bool_decide; [apply andb_false_r | apply spent_admitted]. }
    rewrite Hs. cbn. lia.
  - injection H as <- <-. unfold expire. rewrite spent_admitted. destruct (get t (counter_of r) s); [rewrite held_insert, decide_False by done|]; cbn; lia.
  - destruct (get t (key_of r) s) as [v|] eqn:E; injection H as <- <-; [destruct (accepts r v)|]; unfold spent; cbn; rewrite andb_false_r; cbn; lia.
  - unfold del in H. case_bool_decide as Hs; injection H as <- <-; rewrite held_delete; unfold spent; cbn [fst snd]; rewrite ?andb_false_r, ?andb_true_r.
    + destruct Hs as [x Hx]. case_bool_decide as Hkey; [|rewrite decide_False by done; cbn; lia].
      rewrite decide_True by done. rewrite <- Hkey, (held_alive _ _ _ _ Hx). cbn. lia.
    + case_decide; cbn; lia.
  - unfold del in H. injection H as <- <-. cbn [snd]. rewrite held_delete, decide_False by done. unfold spent. cbn. lia.
  - done.
Qed.

(** C5: a code is spent once: however many processes redeem it at once, wherever each of them stops, and whatever else is asked
    of the stash, no more redemptions of a code of a name are answered with what it was issued for than it was issued times. *)
Theorem code_is_spent_once o t es w a u c : separator ∉ chars c -> c <> "attempts" -> acts o es (start t) = Some w ->
  (tally (spent (code_key a u c)) (asked w) <= tally (issued_under (code_key a u c)) es)%nat.
Proof.
  intros Hc Hn H. set (k := code_key a u c). assert (Hk : forall a' u', k <> attempts_key a' u').
  { intros a' u' E. apply code_key_last in E; [done | done | apply attempts_separator]. }
  assert (Hi : (tally (spent k) (asked w) + held k (store w) <= tally (issued_under k) es)%nat); [|lia].
  clearbody k. revert es w H. apply (run_ind (act o) (start t)); [done|]. intros es e w w' _ IH Hact. rewrite tally_app, tally_one.
  destruct e as [d|a' u' c' i l|r|i].
  - cbn [act] in Hact. destruct (0 <=? d); [|done]. injection Hact as <-. cbn. lia.
  - cbn [act] in Hact. destruct (_ && _)%N; [|done]. injection Hact as <-. cbn [asked store issued_under]. unfold set_ex. rewrite held_insert.
    assert (held k (store w) <= 1)%nat by (unfold held; destruct (_ !! _); lia).
    case_decide; case_bool_decide; cbn; try lia; done.
  - cbn [act] in Hact. injection Hact as <-. cbn [asked store]. rewrite tally_app, tally_one. unfold spent at 2. cbn. rewrite andb_false_r. cbn. lia.
  - apply goes_spec in Hact as (r & st & st' & s' & Hr & Hred & ->). cbn [asked store].
    pose proof (redeem_holds _ _ _ _ _ _ _ _ Hk Hred). pose proof (tally_insert (spent k) (asked w) i (r, st') (r, st) Hr). cbn. lia.
Qed.

(** ** What is answered was issued *)

Definition issued_as (k v : string) (es : list step) : Prop :=
  exists a u c identity stated, Issues a u c identity stated ∈ es /\ code_key a u (pretty c) = k /\ default SIGN_IN identity = v.

Definition taken (st : Stage) : option string := match st with Spending v | Clearing v | Answered (Ok v) => Some v | _ => None end.

Lemma issued_as_more k v es e : issued_as k v es -> issued_as k v (es ++ [e]).
Proof. intros (a & u & c & i & l & H & H'). exists a, u, c, i, l. split; [apply elem_of_app; by left | done]. Qed.

Definition no_counter (k : string) : Prop := forall a u, k <> attempts_key a u.

Lemma redeem_keeps o t r st s st' s' k v e : no_counter k -> redeem o t r st s = Some (st', s') -> s' !! k = Some (v, e) -> s !! k = Some (v, e).
Proof.
  intros Hk H Hs. assert (Hc : counter_of r <> k) by (intros E; by destruct (Hk (authority r) (username r))).
  destruct st; cbn [redeem] in H.
  - destruct (incr t (counter_of r) s) as [[n s1]|] eqn:E; injection H as <- <-; [|done].
    destruct (incr_other _ _ _ _ _ E) as [x ->]. by rewrite lookup_insert_ne in Hs.
  - injection H as <- <-. unfold expire in Hs. destruct (get t (counter_of r) s); [by rewrite lookup_insert_ne in Hs | done].
  - destruct (get t (key_of r) s); injection H as <- <-; done.
  - unfold del in H. case_bool_decide; injection H as <- <-; apply lookup_delete_Some in Hs as [_ Hs]; done.
  - unfold del in H. injection H as <- <-. cbn in Hs. by apply lookup_delete_Some in Hs as [_ Hs].
  - done.
Qed.

Lemma redeem_takes o t r st s st' s' v : redeem o t r st s = Some (st', s') -> taken st' = Some v ->
  taken st = Some v \/ accepts r v = true /\ exists e, s !! key_of r = Some (v, e).
Proof.
  intros H Ht. destruct st; cbn [redeem] in H.
  - destruct (incr t (counter_of r) s) as [[n s1]|]; injection H as <- <-; [|done]. unfold admitted in Ht. repeat case_match; done.
  - injection H as <- <-. unfold admitted in Ht. case_match; done.
  - unfold get in H. destruct (s !! key_of r) as [[x e]|]; [destruct (alive t e)|]; injection H as <- <-; try done.
    destruct (accepts r x) eqn:Ha; [|done]. injection Ht as <-. eauto.
  - unfold del in H. case_bool_decide; injection H as <- <-; [|done]. by left.
  - unfold del in H. injection H as <- <-. by left.
  - done.
Qed.

(** Whoever is answered was let in by a code: a redemption of a code is answered only with what that code was issued for,
    under that authority and name, and what the operation that redeems it accepts: a code that ties a name to an identity does
    not sign in, and one that signs in ties nothing. *)
Theorem answered_as_issued o t es w i r v : acts o es (start t) = Some w -> asked w !! i = Some (r, Answered (Ok v)) ->
  separator ∉ chars (code r) -> code r <> "attempts" -> accepts r v = true /\ issued_as (key_of r) v es.
Proof.
  intros H Hi Hc Hn.
  assert (HI : (forall k x e, no_counter k -> store w !! k = Some (x, e) -> issued_as k x es)
    /\ forall j q st x, asked w !! j = Some (q, st) -> no_counter (key_of q) -> taken st = Some x -> accepts q x = true /\ issued_as (key_of q) x es).
  { clear Hi. revert es w H. apply (run_ind (act o) (start t)); [split; intros *; cbn; by rewrite ?lookup_empty|].
    intros es e w w' _ [IHs IHa] Hact. destruct e as [d|a' u' c' id l|q|j].
    - cbn [act] in Hact. destruct (0 <=? d); [|done]. injection Hact as <-. split; [intros; apply issued_as_more; eauto|].
      intros j q st x Hj Hk Hx. destruct (IHa j q st x Hj Hk Hx). split; [done | by apply issued_as_more].
    - cbn [act] in Hact. destruct (_ && _)%N; [|done]. injection Hact as <-. split.
      + intros k x e Hk Hx. cbn [store] in Hx. unfold set_ex in Hx. rewrite lookup_insert in Hx. case_decide as E; [|apply issued_as_more; eauto].
        injection Hx as <- <-. exists a', u', c', id, l. split; [apply elem_of_app; right; by left | done].
      + intros j q st x Hj Hk Hx. destruct (IHa j q st x Hj Hk Hx). split; [done | by apply issued_as_more].
    - cbn [act] in Hact. injection Hact as <-. split; [intros; apply issued_as_more; eauto|]. cbn [asked].
      intros j q' st x Hj Hk Hx. apply lookup_app_Some in Hj as [Hj | [_ Hj]].
      + destruct (IHa j q' st x Hj Hk Hx). split; [done | by apply issued_as_more].
      + apply list_lookup_singleton_Some in Hj as [_ Hj]. by injection Hj as <- <-.
    - apply goes_spec in Hact as (q & st & st' & s' & Hq & Hred & ->). cbn [asked store]. split.
      + intros k x e Hk Hx. apply issued_as_more. by eapply IHs, redeem_keeps.
      + intros j' q' st'' x Hj Hk Hx. destruct (decide (j = j')) as [<-|Hne].
        * rewrite list_lookup_insert_eq in Hj by (by eapply lookup_lt_Some). injection Hj as <- <-.
          destruct (redeem_takes _ _ _ _ _ _ _ _ Hred Hx) as [Ht | [Ha [e Hs]]].
          -- destruct (IHa j q st x Hq Hk Ht). split; [done | by apply issued_as_more].
          -- split; [done|]. apply issued_as_more. by eapply IHs.
        * rewrite list_lookup_insert_ne in Hj by done. destruct (IHa j' q' st'' x Hj Hk Hx). split; [done | by apply issued_as_more]. }
  destruct HI as [_ HI]. apply (HI i r (Answered (Ok v)) v Hi); [|done]. intros a u E. apply Hn.
  by apply code_key_last in E; [| | apply attempts_separator].
Qed.

(** ** Guesses *)

(** a redemption that has been let to look a code up, or will be *)
Definition let_look (k : string) (p : Redemption * Stage) : bool :=
  bool_decide (counter_of (fst p) = k) && match snd p with
  | Looking | Spending _ | Clearing _ | Answered (Ok _) => true
  | Answered (Throw e) => bool_decide (e = EXPIRED)
  | _ => false
  end.

Definition passing (k : string) (p : Redemption * Stage) : bool :=
  let_look k p || bool_decide (counter_of (fst p) = k) && match snd p with Limiting => true | _ => false end.

(** one that was answered with a code, of the name or of the counter itself *)
Definition undone (k : string) (p : Redemption * Stage) : bool :=
  bool_decide (counter_of (fst p) = k \/ key_of (fst p) = k) && match snd p with Clearing _ | Answered (Ok _) => true | _ => false end.

(** as many attempts are counted, for no shorter than until a moment *)
Definition counted (k : string) (until t : Z) (n : N) (s : Store) : Prop :=
  if bool_decide (n = 0%N) then get t k s = None else exists e, s !! k = Some (pretty n, e) /\ (forall x, e = Some x -> until <= x).

Lemma counted_other k until t n s s' : s' !! k = s !! k -> counted k until t n s -> counted k until t n s'.
Proof. unfold counted, get. by intros ->. Qed.

Lemma counted_get k until t n s : counted k until t n s -> t < until -> (0 < n)%N -> get t k s = Some (pretty n).
Proof.
  unfold counted. intros H Ht Hn. rewrite bool_decide_eq_false_2 in H by lia. destruct H as (e & He & Hx). unfold get. rewrite He.
  destruct e as [x|]; [|done]. cbn. specialize (Hx x eq_refl). by replace (t <? x) with true by lia.
Qed.

Lemma counted_incr k until t n s : counted k until t n s -> t < until -> exists s', incr t k s = Some ((n + 1)%N, s') /\ counted k until t (n + 1) s'.
Proof.
  intros H Ht. unfold counted in H. case_bool_decide as Hn.
  - subst. unfold get in H. unfold incr. exists (<[k := (pretty 1%N, None)]> s). split.
    + destruct (s !! k) as [[v e]|]; [destruct (alive t e); done | done].
    + unfold counted. rewrite bool_decide_eq_false_2 by done. exists None. by rewrite lookup_insert_eq.
  - destruct H as (e & He & Hx). unfold incr. rewrite He.
    assert (Ha : alive t e = true) by (destruct e as [x|]; [cbn; specialize (Hx x eq_refl); lia | done]). rewrite Ha, number_pretty. eexists. split; [done|].
    unfold counted. rewrite bool_decide_eq_false_2 by lia. exists e. by rewrite lookup_insert_eq.
Qed.

Lemma counted_expire k until t l n s : counted k until t n s -> t < until -> until <= t + l -> counted k until t n (expire t l k s).
Proof.
  intros H Ht Hl. destruct (decide (n = 0%N)) as [->|Hn].
  - unfold counted in *. cbn in *. unfold expire. by rewrite H.
  - unfold expire. rewrite (counted_get k until t n s H Ht) by lia. unfold counted. rewrite bool_decide_eq_false_2 by done.
    exists (Some (t + l)). rewrite lookup_insert_eq. split; [done|]. intros x Hx. injection Hx as <-. lia.
Qed.

Lemma passing_admitted k o r n : counter_of r = k -> passing k (r, admitted o n) = bool_decide (n <= attempts o)%N.
Proof.
  intros Hr. unfold passing, let_look, admitted. cbn [fst snd]. rewrite (bool_decide_eq_true_2 _ Hr). destruct (N.ltb_spec (attempts o) n).
  - by rewrite (bool_decide_eq_false_2 (n <= attempts o)%N) by lia.
  - by rewrite (bool_decide_eq_true_2 (n <= attempts o)%N) by lia.
Qed.

Lemma passing_other k r st : counter_of r <> k -> passing k (r, st) = false.
Proof. intros Hr. unfold passing, let_look. cbn [fst snd]. by rewrite (bool_decide_eq_false_2 _ Hr). Qed.

(** what a redemption does to the count of a name *)
Lemma redeem_guess o t r st s st' s' k until n : (1 <= attempts o)%N -> counted k until t n s -> t < until -> until <= t + lifetime o ->
  redeem o t r st s = Some (st', s') ->
  undone k (r, st') = true \/ exists m, counted k until t m s' /\ (n <= m)%N
    /\ (passing k (r, st') = passing k (r, st) \/ passing k (r, st) = false /\ m = (n + 1)%N /\ (m <= attempts o)%N).
Proof.
  intros Ha Hn Ht Hl H. destruct (decide (counter_of r = k)) as [Hr|Hr].
  - destruct st; cbn [redeem] in H; rewrite ?Hr in H.
    + right. destruct (counted_incr k until t n s Hn Ht) as (s1 & E & Hc). rewrite E in H. injection H as <- <-. exists (n + 1)%N. split; [done|]. split; [lia|].
      assert (Hf : passing k (r, Counting) = false) by (unfold passing, let_look; cbn; by rewrite !andb_false_r). rewrite Hf.
      case_bool_decide as H1; [right; lia|]. rewrite (passing_admitted _ _ _ _ Hr). case_bool_decide; [right; lia | by left].
    + right. injection H as <- <-. exists n. split; [by apply counted_expire|]. split; [lia|]. left. rewrite (passing_admitted _ _ _ _ Hr).
      unfold passing, let_look. cbn [fst snd]. rewrite (bool_decide_eq_true_2 _ Hr), bool_decide_eq_true_2 by lia. done.
    + right. exists n. assert (Hp : s' = s /\ passing k (r, st') = true).
      { unfold passing, let_look. cbn [fst snd]. rewrite (bool_decide_eq_true_2 _ Hr).
        destruct (get t (key_of r) s); [destruct (accepts r s0)|]; injection H as <- <-; done. }
      destruct Hp as [-> ->]. split; [done|]. split; [lia|]. left. unfold passing, let_look. cbn [fst snd]. by rewrite (bool_decide_eq_true_2 _ Hr).
    + unfold del in H. case_bool_decide as Hg; injection H as <- <-.
      * left. unfold undone. cbn [fst snd]. rewrite bool_decide_eq_true_2 by (by left). done.
      * right. exists n. split; [|split; [lia | left; unfold passing, let_look; cbn [fst snd]; by rewrite (bool_decide_eq_true_2 _ Hr)]].
        destruct (decide (key_of r = k)) as [E|E]; [|apply (counted_other _ _ _ _ s); [by rewrite lookup_delete_ne | done]]. subst k.
        destruct (decide (n = 0%N)) as [->|Hz]; [|destruct Hg; rewrite E; eexists; apply (counted_get _ until t n s Hn Ht); lia].
        unfold counted. cbn. unfold get. by rewrite E, lookup_delete_eq.
    + left. injection H as <- <-. unfold undone. cbn [fst snd]. rewrite bool_decide_eq_true_2 by (by left). done.
    + done.
  - rewrite !(passing_other _ _ _ Hr).
    assert (Ho : s' !! k = s !! k -> exists m, counted k until t m s' /\ (n <= m)%N /\ (false = false \/ false = false /\ m = (n + 1)%N /\ (m <= attempts o)%N)).
    { intros E. exists n. split; [by apply (counted_other _ _ _ _ s)|]. split; [lia | by left]. }
    destruct st; cbn [redeem] in H.
    + right. apply Ho. destruct (incr t (counter_of r) s) as [[m s1]|] eqn:E; injection H as <- <-; [|done].
      destruct (incr_other _ _ _ _ _ E) as [v ->]. by rewrite lookup_insert_ne.
    + right. apply Ho. injection H as <- <-. unfold expire. destruct (get t (counter_of r) s); [by rewrite lookup_insert_ne | done].
    + right. apply Ho. destruct (get t (key_of r) s); injection H as <- <-; done.
    + unfold del in H. case_bool_decide as Hg; injection H as <- <-.
      * destruct (decide (key_of r = k)) as [E|E]; [left; unfold undone; cbn [fst snd]; by rewrite bool_decide_eq_true_2 by (by right)|].
        right. apply Ho. by rewrite lookup_delete_ne.
      * right. destruct (decide (key_of r = k)) as [E|E]; [|apply Ho; by rewrite lookup_delete_ne].
        exists n. split; [|split; [lia | by left]]. destruct (decide (n = 0%N)) as [->|Hz].
        -- unfold counted. cbn. unfold get. by rewrite E, lookup_delete_eq.
        -- destruct Hg. rewrite E. eexists. apply (counted_get _ until t n s Hn Ht). lia.
    + right. apply Ho. unfold del in H. injection H as <- <-. cbn. by rewrite lookup_delete_ne.
    + done.
Qed.

Lemma undone_stays o t r st s st' s' k : redeem o t r st s = Some (st', s') -> undone k (r, st) = true -> undone k (r, st') = true.
Proof.
  unfold undone. cbn [fst snd]. intros H. destruct st; try (by rewrite andb_false_r); cbn [redeem] in H.
  - unfold del in H. by injection H as <- <-.
  - done.
Qed.


(** ** A bakery that signs its customers in by codes *)
Module Bakery.
Definition o : Options := mkOptions 300 5.
Definition bob (code : string) : Redemption := sign_in "bakery" "bob" code.

(** a code is presented twice at once *)
Definition twice : list step :=
  [Issues "bakery" "bob" 123456 None None; Asks (bob "123456"); Asks (bob "123456");
   Goes 0; Goes 0; Goes 1; Goes 0; Goes 1; Goes 0; Goes 1; Goes 0].

Definition answers (w : option World) : option (list Stage) := option_map (fun w => snd <$> asked w) w.

Lemma twice_answers : answers (acts o twice (start 0)) = Some [Answered (Ok SIGN_IN); Answered (Throw EXPIRED)].
Proof. vm_compute. reflexivity. Qed.

Definition after_twice : World := match acts o twice (start 0) with Some w => w | None => start 0 end.

Lemma code_is_spent_once_witness :
  (tally (spent (code_key "bakery" "bob" "123456")) (asked after_twice) <= tally (issued_under (code_key "bakery" "bob" "123456")) twice)%nat.
Proof.
  apply (code_is_spent_once o 0 twice after_twice "bakery" "bob" "123456").
  - eapply bool_decide_eq_true_1. vm_compute. reflexivity.
  - discriminate.
  - vm_compute. reflexivity.
Defined.

Lemma answered_as_issued_witness : accepts (bob "123456") SIGN_IN = true /\ issued_as (key_of (bob "123456")) SIGN_IN twice.
Proof.
  apply (answered_as_issued o 0 twice after_twice 0 (bob "123456") SIGN_IN).
  - vm_compute. reflexivity.
  - vm_compute. reflexivity.
  - eapply bool_decide_eq_true_1. vm_compute. reflexivity.
  - discriminate.
Defined.

(** six codes are tried, and the sixth is not looked up *)
Definition guessed (n : N) (i : nat) : list step := [Asks (bob (pretty n)); Goes i; Goes i] ++ (if (i =? 0)%nat then [Goes i] else []).
Definition guesses : list step := concat (imap (fun i n => guessed n i) [100001; 100002; 100003; 100004; 100005]%N) ++ [Asks (bob "100006"); Goes 5].
Definition after_guesses : World := match acts o guesses (start 0) with Some w => w | None => start 0 end.

Lemma guesses_answers : answers (acts o guesses (start 0))
  = Some [Answered (Throw EXPIRED); Answered (Throw EXPIRED); Answered (Throw EXPIRED); Answered (Throw EXPIRED); Answered (Throw EXPIRED);
          Answered (Throw TOO_MANY_ATTEMPTS)].
Proof. vm_compute. reflexivity. Qed.


(** the counter of attempts is held as a code is, under the name and the word [attempts], and the first attempt makes it [1], as
    a code that signs in is: whoever presents that word as the code of a name is signed in as who has it, without a code having
    been issued, and the count of attempts begins again *)
Definition uninvited : list step := [Asks (bob "attempts"); Goes 0; Goes 0; Goes 0; Goes 0; Goes 0].

Lemma attempts_is_a_password :
  let entries := [mkEntry "e1" "bakery" "bob" (Some "identity-of-bob")] in
  pair_of (fun c => c) "bob:attempts" = Some ("bob", "attempts")
  /\ answers (acts o uninvited (start 0)) = Some [Answered (Ok SIGN_IN)]
  /\ fst (authenticate "new" (bob "attempts") (Ok SIGN_IN) entries) = Ok "identity-of-bob"
  /\ option_map (fun w => bool_decide (store w = ∅)) (acts o uninvited (start 0)) = Some true.
Proof. vm_compute. done. Qed.

(** a code issued for an identity ties its name to it, and signs nobody in; a name that is tied stays so *)
Definition tied : list step :=
  [Issues "bakery" "bob" 123456 (Some "i1") None; Asks (bob "123456"); Goes 0; Goes 0; Goes 0;
   Asks (tie "bakery" "bob" "123456" "i1"); Goes 1; Goes 1; Goes 1; Goes 1].

Lemma tied_answers : answers (acts o tied (start 0)) = Some [Answered (Throw EXPIRED); Answered (Ok "i1")]
  /\ confirm "e1" "i1" (tie "bakery" "bob" "123456" "i1") (Ok "i1") [] = (Ok tt, [mkEntry "e1" "bakery" "bob" (Some "i1")])
  /\ fst (confirm "e2" "i2" (tie "bakery" "bob" "123456" "i2") (Ok "i2") [mkEntry "e1" "bakery" "bob" (Some "i1")]) = Throw "EXISTS".
Proof. vm_compute. done. Qed.

(** a process that stops between counting the first attempt and limiting its time leaves a counter for good *)
Lemma count_is_left :
  option_map (fun w => store w !! attempts_key "bakery" "bob") (acts o [Asks (bob "123456"); Goes 0; Ticks 1000000] (start 0)) = Some (Some ("1", None)).
Proof. vm_compute. reflexivity. Qed.
End Bakery.
