(* ===== verification/Tokens.v ===== *)
(** * Tokens

    [extensions/exposition/components/]: [identity.tokens] (what a token carries, how it is read and who it authenticates),
    [identity.keys] (keys of tokens that were issued for one identity), [identity.roles] (what roles an identity may be granted,
    and by whom). A time is in milliseconds; a token states its times in seconds with a fraction, and a time that is no number
    is none the component writes. What encrypts, decrypts and decodes is the platform's, and the cache of keys a library's. *)
From stdpp Require Import strings gmap.
From S2P Require Import Prelude Calls.

Open Scope Z_scope.

(** ** Roles ([identity.roles]) *)

(** [role === scope || role.startsWith(scope + ':')] *)
Definition under (role scope : string) : bool := bool_decide (role = scope) || String.prefix (scope +:+ ":") role.

(** [within] of [grant.ts] *)
Definition within (role : string) (scopes : list string) : bool := existsb (under role) scopes.

Definition MANAGEMENT : string := "system:identity:roles".

Record Grantor := mkGrantor { g_id : string; g_roles : list string }.
Record Grant := mkGrant { identity : string; role : string; grantor : option Grantor }.

(** the record of a role: whose it is, what it is and who granted it *)
Record Entry := mkEntry { r_identity : string; r_role : string; r_grantor : option string }.

Definition INACCESSIBLE_SCOPE : string := "INACCESSIBLE_SCOPE".

Definition grant (input : Grant) : result string Entry :=
  match grantor input with
  | None => Ok (mkEntry (identity input) (role input) None)
  | Some g =>
      if negb (within MANAGEMENT (g_roles g)) && (negb (within (role input) (g_roles g)) || within (role input) [MANAGEMENT])
      then Throw INACCESSIBLE_SCOPE
      else Ok (mkEntry (identity input) (role input) (Some (g_id g)))
  end.

Definition LIST_LIMIT : nat := 1024.

(** [roles.list] with the criteria and the limit of [issue] *)
Definition roles_of (id : string) (es : list Entry) : list string := r_role <$> take LIST_LIMIT (filter (fun e => r_identity e = id) es).

(** [principal.ts]: the role of the system, granted where it is not yet *)
Definition SYSTEM : string := "system".

Definition granted (id : string) (es : list Entry) : bool := existsb (fun e => bool_decide (r_identity e = id /\ r_role e = SYSTEM)) es.

Definition principal (id : string) (es : list Entry) : list Entry := if granted id es then es else es ++ [mkEntry id SYSTEM None].

(** ** Keys ([identity.keys]) *)

Record Key := mkKey { k_id : string; k_identity : option string; k_key : string; k_label : string; k_expires : option Z; k_revokedAt : option Z }.

(** [create], of an id and random bytes *)
Definition create (id random identity label : string) (expires : option Z) (ks : list Key) : Key * list Key :=
  let k := mkKey id (Some identity) random label expires None in (k, ks ++ [k]).

Definition disable (now : Z) (id : string) (ks : list Key) : list Key :=
  (fun k => if bool_decide (k_id k = id)
            then mkKey (k_id k) (k_identity k) (k_key k) (k_label k) (k_expires k) (Some (default now (k_revokedAt k))) else k) <$> ks.

Definition LIMIT : nat := 1024.

(** [revoke], by which the keys of whoever is banned are disabled *)
Definition revoke (now : Z) (id : string) (ks : list Key) : list Key :=
  foldl (fun ks k => disable now (k_id k) ks) ks (take LIMIT (filter (fun k => k_identity k = Some id) ks)).

Definition key_by (id : string) (ks : list Key) : option Key := snd <$> list_find (fun k => k_id k = id) ks.

(** ** What a token carries ([encrypt.ts]) *)

Record Identity := mkIdentity { i_id : string; i_roles : list string; i_permissions : option value }.

Record EncryptInput := mkEncrypt {
  authority : string;
  who : Identity;
  lifetime : option Z;
  scopes : option (list string);
  permissions : option value;
  audience : option (list string);
  (** the id and the secret of a key that was made for it *)
  key : option (string * string)
}.

(** a key that is configured: its id, its secret, and whether it is of the form that is left behind *)
Record Configured := mkConfigured { c_id : string; c_key : string; legacy : bool }.

Definition latest (keys : list Configured) : option Configured := snd <$> list_find (fun k => legacy k = false) keys.

(** a time as a token states it, in seconds *)
Definition seconds (ms : Z) : value := if ms mod 1000 =? 0 then VNumber (ms / 1000) else VDecimal ms (-3).

Definition strings (l : list string) : value := VArray (VString <$> l).

Definition claim (i : Identity) : list (string * value) :=
  [("id", VString (i_id i)); ("roles", strings (i_roles i))] ++ match i_permissions i with Some p => [("permissions", p)] | None => [] end.

(** [within] of [encrypt.ts], its arguments the same *)
Definition accessible (scope : string) (roles : list string) : bool := existsb (under scope) roles.

Definition payload (now LIFETIME : Z) (input : EncryptInput) : result string (list (string * value)) :=
  if existsb (fun s => negb (accessible s (i_roles (who input)))) (default [] (scopes input)) then Throw INACCESSIBLE_SCOPE
  else
    let lifetime := match lifetime input with Some l => l * 1000 | None => LIFETIME * 1000 end in
    let i := mkIdentity (i_id (who input)) (default (i_roles (who input)) (scopes input))
      (match permissions input with Some p => Some p | None => i_permissions (who input) end) in
    Ok ([("identity", VObject (claim i)); ("iss", VString (authority input)); ("iat", seconds now)]
      ++ match audience input with
         | Some [a] => [("aud", VString a)]
         | Some ((_ :: _) as l) => [("aud", strings l)]
         | _ => []
         end
      ++ (if lifetime =? 0 then [] else [("exp", seconds (now + lifetime))])).

Definition header_of (kid : string) : value :=
  VObject [("alg", VString "dir"); ("enc", VString "A256GCM"); ("typ", VString "JWT"); ("kid", VString kid)].

(** [encrypt]: [seal] is what the platform makes of a header, a payload and a secret, [secret] whether that is one *)
Definition encrypt (seal : value -> value -> string -> string) (secret : string -> bool) (now LIFETIME : Z) (keys : list Configured)
    (input : EncryptInput) : result string string :=
  match latest keys with
  | None => Throw "At least one JWE key must be configured"
  | Some l =>
      p ← payload now LIFETIME input;
      let '(kid, k) := default (c_id l, c_key l) (key input) in
      if secret k then Ok (seal (header_of kid) (VObject p) k) else Throw "JWE key must be a base64url-encoded 256-bit secret"
  end.

(** ** Reading a token ([form.ts], [decrypt.ts]) *)

Inductive Form := Paseto | Jwe.

Definition segments (token : string) : nat := S (length (filter (fun c => c = "."%char) (chars token))).

Definition form (token : string) : option Form :=
  if String.prefix "v3.local." token then Some Paseto else if bool_decide (segments token = 5%nat) then Some Jwe else None.

Definition INVALID_TOKEN : string := "INVALID_TOKEN".
Definition INVALID_KEY : string := "INVALID_KEY".
Definition FORGED_KEY : string := "FORGED_KEY".
Definition REVOKED_KEY : string := "REVOKED_KEY".

Record Claims := mkClaims { iss : string; iat : Z; exp : option Z; subject : list (string * value); aud : option value }.

Record Decrypted := mkDecrypted { claims : Claims; refresh : bool; custom : bool }.

(** a number in thousandths, of which a moment holds whole ones; [null] is nothing *)
Definition thousandths (v : value) : option Z :=
  match v with
  | VNumber n => Some (n * 1000)
  | VDecimal m e => Some (if 0 <=? e + 3 then m * 10 ^ (e + 3) else Z.quot m (10 ^ (- (e + 3))))
  | VNull => Some 0
  | VBool b => Some (if b then 1000 else 0)
  | _ => None
  end.

Definition is_number (v : option value) : bool := match v with Some (VNumber _) | Some (VDecimal _ _) => true | _ => false end.
Definition is_string (v : option value) : bool := match v with Some (VString _) => true | _ => false end.

Record JWE := mkJWE { kid : string; aad : string; iv : string; ciphertext : string; tag : string }.

Definition IV : nat := 12.
Definition TAG : nat := 16.

Section reading.
(** what the platform makes of base64url: its bytes, and the value it is JSON of; what it decrypts of a secret, the bytes it was
    sealed with and those it was sealed against; and what the library opens of a token of the other form *)
Context (bytes : string -> string) (json : string -> option value)
  (decipher : string -> string -> string -> string -> string -> option value) (paseto : string -> string -> option Claims).

Definition parse (token : string) : result string JWE :=
  match split "."%char token with
  | [header; k; iv; ct; tag] =>
      if bool_decide (k = "") then
        match json header with
        | Some (VObject d) =>
            match own d "kid" with
            | Some (VString kid) =>
                if bool_decide (own d "alg" = Some (VString "dir") /\ own d "enc" = Some (VString "A256GCM") /\ own d "typ" = Some (VString "JWT")
                  /\ own d "crit" = None /\ own d "zip" = None)
                then Ok (mkJWE kid header (bytes iv) (bytes ct) (bytes tag)) else Throw INVALID_TOKEN
            | _ => Throw INVALID_TOKEN
            end
        | _ => Throw INVALID_TOKEN
        end
      else Throw INVALID_TOKEN
  | _ => Throw INVALID_TOKEN
  end.

(** a property that is stated *)
Definition stated (p : list (string * value)) (name : string) : option value :=
  match own p name with Some VUndefined | None => None | v => v end.

(** [new Date(v * 1000).toISOString()] *)
Definition moment (v : value) : result string Z := match thousandths v with Some t => Ok t | None => Throw "Invalid time value" end.

Definition late (now : Z) (v : value) : bool := match thousandths v with Some t => t <=? now | None => false end.
Definition early (now : Z) (v : value) : bool := match thousandths v with Some t => now <? t | None => false end.

Definition open (now : Z) (j : JWE) (key : string) : result string Claims :=
  if negb (bool_decide (String.length (iv j) = IV /\ String.length (tag j) = TAG)) then Throw INVALID_TOKEN
  else
    match decipher key (iv j) (aad j) (ciphertext j) (tag j) with
    | Some (VObject p) =>
        match own p "iss", own p "iat", own p "identity" with
        | Some (VString iss), Some iat, Some (VObject identity) =>
            if negb (is_number (Some iat)) then Throw INVALID_TOKEN
            else if match stated p "exp" with Some v => late now v | None => false end then Throw INVALID_TOKEN
            else if match stated p "nbf" with Some v => early now v | None => false end then Throw INVALID_TOKEN
            else
              iat ← moment iat;
              exp ← match stated p "exp" with Some v => t ← moment v; Ok (Some t) | None => Ok None end;
              Ok (mkClaims iss iat exp identity (stated p "aud"))
        | _, _, _ => Throw INVALID_TOKEN
        end
    | _ => Throw INVALID_TOKEN
    end.

(** the header of the other form *)
Definition pasetoKid (token : string) : result string string :=
  match split "."%char token with
  | _ :: _ :: _ :: footer :: _ =>
      match json footer with
      | Some (VObject d) => match own d "kid" with Some (VString kid) => Ok kid | _ => Throw INVALID_TOKEN end
      | _ => Throw INVALID_TOKEN
      end
  | _ => Throw INVALID_TOKEN
  end.

(** a key as it is used: a secret, and, where it was issued for an identity, whose it is and when it was revoked *)
Record Used := mkUsed { secret_ : string; whose : option string; revokedAt : option Z }.

Definition used (k : Key) : Used := mkUsed (k_key k) (k_identity k) (k_revokedAt k).

(** [answer] *)
Definition answer (c : Claims) (k : Used) (refresh : bool) : result string Decrypted :=
  match whose k with
  | Some i =>
      if negb (bool_decide (own (subject c) "id" = Some (VString i))) then Throw FORGED_KEY
      else if bool_decide (is_Some (revokedAt k)) then Throw REVOKED_KEY else Ok (mkDecrypted c refresh true)
  | None => if bool_decide (is_Some (revokedAt k)) then Throw REVOKED_KEY else Ok (mkDecrypted c refresh false)
  end.

(** what is remembered of the keys that were asked for, each until a moment; the cache may forget what it likes *)
Notation Cache := (gmap string (option Key * Z)) (only parsing).

Context (evict : Cache -> Cache).

Definition remembered (now : Z) (id : string) (c : Cache) : option (option Key) :=
  match c !! id with Some (k, until) => if now <? until then Some k else None | None => None end.

(** [key]: one that is configured, or else one that is kept; a name every object has is no key *)
Definition key_of (now ttl : Z) (keys : list Configured) (kept : list Key) (id : string) (left_behind : bool) (c : Cache) : result string Used * Cache :=
  match list_find (fun k => c_id k = id /\ legacy k = left_behind) (rev keys) with
  | Some (_, k) => (Ok (mkUsed (c_key k) None None), c)
  | None =>
      if bool_decide (id ∈ PROTOTYPE) then (Throw INVALID_TOKEN, c)
      else
        let c := match remembered now id c with Some _ => c | None => evict (<[id := (key_by id kept, now + ttl)]> c) end in
        (match remembered now id c with Some (Some k) => Ok (used k) | _ => Throw INVALID_KEY end, c)
  end.

Definition decrypt (now ttl : Z) (keys : list Configured) (kept : list Key) (c : Cache) (token : string) : result string Decrypted * Cache :=
  match form token with
  | Some Paseto =>
      match pasetoKid token with
      | Throw e => (Throw e, c)
      | Ok kid =>
          let '(k, c) := key_of now ttl keys kept kid true c in
          (k ← k; match paseto (secret_ k) token with Some cl => answer cl k true | None => Throw INVALID_TOKEN end, c)
      end
  | _ =>
      match parse token with
      | Throw e => (Throw e, c)
      | Ok j =>
          let '(k, c) := key_of now ttl keys kept (kid j) false c in
          (k ← k; cl ← open now j (secret_ k);
           answer cl k (negb (bool_decide (Some (kid j) = c_id <$> latest keys)) && bool_decide (whose k = None)), c)
      end
  end.

(** ** Who a token authenticates ([authenticate.ts]) *)

Record Input := mkInput { in_authority : string; credentials : string; force : bool }.

Definition UNRECOGNIZED : string := "UNRECOGNIZED".
Definition AUTHORITY_MISMATCH : string := "AUTHORITY_MISMATCH".
Definition TOKEN_REVOKED : string := "TOKEN_REVOKED".
Definition UNREFRESHABLE : string := "UNREFRESHABLE".

Record Authenticated := mkAuthenticated { as_ : list (string * value); to_refresh : bool }.

(** [list]: the audience, of which texts count *)
Definition list_ (v : value) : list string :=
  match v with VString s => [s] | VArray vs => omap (fun v => match v with VString s => Some s | _ => None end) vs | _ => [] end.

(** an exception where a token states an audience that is neither a text nor a list is left out: none is written so.
    [revocation] is when the tokens of an identity were last revoked *)
Definition authenticate (now ttl REFRESH : Z) (keys : list Configured) (kept : list Key) (revocation : value -> option Z) (c : Cache)
    (input : Input) : result string Authenticated * Cache :=
  match form (credentials input) with
  | None => (Throw UNRECOGNIZED, c)
  | Some _ =>
      let '(d, c) := decrypt now ttl keys kept c (credentials input) in
      (d ← d;
       let cl := claims d in
       if negb (bool_decide (iss cl = in_authority input)) then Throw AUTHORITY_MISMATCH
       else if force input && custom d then Throw UNREFRESHABLE
       else
         let aged := bool_decide (is_Some (exp cl)) && (iat cl + REFRESH * 1000 <? now) in
         if (aged || force input) && match revocation (default VUndefined (own (subject cl) "id")) with Some r => iat cl <? r | None => false end
         then Throw TOKEN_REVOKED
         else Ok (mkAuthenticated (match aud cl with Some a => assign "aud" (strings (list_ a)) (subject cl) | None => subject cl end)
                   (force input || aged && negb (custom d) || refresh d)), c)
  end.
End reading.

(** ** Issuing ([issue.ts]) *)

Record IssueInput := mkIssue {
  s_authority : string; s_identity : string; label : string; s_lifetime : option Z;
  s_scopes : option (list string); s_permissions : option value; s_audience : option (list string)
}.

Record Issued := mkIssued { issued_kid : string; issued_exp : option Z; token : string }.

(** a key is made, and then a token under it *)
Definition issue (seal : value -> value -> string -> string) (secret : string -> bool) (now LIFETIME : Z) (keys : list Configured)
    (id random : string) (es : list Entry) (ks : list Key) (input : IssueInput) : result string Issued * list Key :=
  let lifetime := default LIFETIME (s_lifetime input) in
  let expires := if lifetime =? 0 then None else Some (now + lifetime * 1000) in
  let '(k, ks) := create id random (s_identity input) (label input) expires ks in
  (t ← encrypt seal secret now LIFETIME keys
    (mkEncrypt (s_authority input) (mkIdentity (s_identity input) (roles_of (s_identity input) es) None) (Some lifetime) (s_scopes input)
      (s_permissions input) (s_audience input) (Some (k_id k, k_key k)));
   Ok (mkIssued (k_id k) expires t), ks).

(** ** What a delegate may grant *)

Lemma prefix_spec s t : String.prefix s t = true <-> exists r, t = s +:+ r.
Proof.
  revert t. induction s as [|c s IH]; intros t; cbn.
  - split; [by exists t | by destruct t].
  - destruct t as [|d t]; [split; [done | by intros [r ?]]|]. cbn [String.prefix]. destruct (Ascii.ascii_dec c d) as [->|Hne].
    + rewrite IH. split; intros [r H]; exists r; [by rewrite H | by injection H].
    + split; [done|]. intros [r H]. by injection H.
Qed.

Lemma under_spec a b : under a b = true <-> a = b \/ exists r, a = b +:+ ":" +:+ r.
Proof.
  unfold under. rewrite orb_true_iff, bool_decide_eq_true, prefix_spec. split; (intros [H | [r H]]; [by left|]; right; exists r).
  - by rewrite H, string_app_assoc.
  - by rewrite H, string_app_assoc.
Qed.

Lemma under_refl a : under a a = true.
Proof. apply under_spec. by left. Qed.

Lemma under_trans a b c : under a b = true -> under b c = true -> under a c = true.
Proof.
  rewrite !under_spec. intros [-> | [r ->]] [-> | [q ->]]; [by left | right; by exists q | right; by exists r|].
  right. exists (q +:+ ":" +:+ r). by rewrite !string_app_assoc.
Qed.

Lemma scopes_within r scopes : within r scopes = true <-> exists s, s ∈ scopes /\ under r s = true.
Proof. unfold within. rewrite existsb_exists. split; intros [s [Hs H]]; exists s; (split; [by apply list_elem_of_In | done]). Qed.

(** what delegates grant: whoever holds a role, or a token of some of it, grants with that, and manages no roles *)
Inductive delegated (es : list Entry) : list Entry -> Prop :=
| delegated_none : delegated es es
| delegated_one es' input g e : delegated es es' -> grantor input = Some g ->
    (forall r, r ∈ g_roles g -> exists x, x ∈ es' /\ r_identity x = g_id g /\ under r (r_role x) = true) ->
    within MANAGEMENT (g_roles g) = false -> grant input = Ok e -> delegated es (es' ++ [e]).

Lemma grant_delegate input g e : grantor input = Some g -> within MANAGEMENT (g_roles g) = false -> grant input = Ok e ->
  r_role e = role input /\ within (role input) (g_roles g) = true /\ under (role input) MANAGEMENT = false.
Proof.
  intros Hg Hm H. unfold grant in H. rewrite Hg, Hm in H. cbn [negb andb] in H.
  destruct (within (role input) (g_roles g)) eqn:E1; cbn [negb orb] in H; [|done].
  destruct (within (role input) [MANAGEMENT]) eqn:E2; [done|]. injection H as <-. cbn. repeat split.
  unfold within in E2. cbn in E2. by rewrite orb_false_r in E2.
Qed.

(** C14: delegation escalates nothing: however many roles are granted by those who may delegate and do not manage roles, each to
    whom they like, every role there is then lies within one there was before, nobody manages roles who did not, and no right
    over roles was passed on. *)
Theorem delegation_escalates_nothing es es' e : delegated es es' -> e ∈ es' ->
  (exists x, x ∈ es /\ under (r_role e) (r_role x) = true)
  /\ (e ∈ es \/ under MANAGEMENT (r_role e) = false /\ under (r_role e) MANAGEMENT = false).
Proof.
  intros H. revert e. induction H as [|es' input g x Hd IH Hg Hheld Hm Hok]; intros e He.
  - split; [exists e; split; [done | apply under_refl] | by left].
  - apply elem_of_app in He as [He|He]; [by apply IH|]. apply list_elem_of_singleton in He as ->.
    destruct (grant_delegate _ _ _ Hg Hm Hok) as (-> & Hw & Hu). apply scopes_within in Hw as (s & Hs & Hrs).
    destruct (Hheld s Hs) as (y & Hy & _ & Hsy). destruct (IH y Hy) as [(z & Hz & Hyz) _]. split.
    + exists z. split; [done|]. apply (under_trans _ s); [done|]. by apply (under_trans _ (r_role y)).
    + right. split; [|done]. destruct (under MANAGEMENT (role input)) eqn:E; [|done].
      assert (Hc : within MANAGEMENT (g_roles g) = true) by (apply scopes_within; exists s; split; [done | by apply (under_trans _ (role input))]).
      by rewrite Hc in Hm.
Qed.

(** ** A token is read as it was made *)

Lemma thousandths_seconds ms : thousandths (seconds ms) = Some ms.
Proof.
  unfold seconds. destruct (Z.eqb_spec (ms mod 1000) 0) as [H|H]; cbn [thousandths]; f_equal.
  - pose proof (Z.div_mod ms 1000). lia.
  - change (-3 + 3) with 0. cbn. lia.
Qed.

Lemma is_number_seconds ms : is_number (Some (seconds ms)) = true.
Proof. unfold seconds. by case_match. Qed.

Lemma seconds_stated ms : seconds ms <> VUndefined.
Proof. unfold seconds. by case_match. Qed.

Lemma payload_narrows now L input p : payload now L input = Ok p ->
  forall r, r ∈ default (i_roles (who input)) (scopes input) -> accessible r (i_roles (who input)) = true.
Proof.
  unfold payload. intros H r Hr. destruct (existsb _ _) eqn:E; [done|]. destruct (scopes input) as [ss|]; cbn in *.
  - destruct (accessible r (i_roles (who input))) eqn:Ha; [done|]. assert (Ht : existsb (fun s => negb (accessible s (i_roles (who input)))) ss = true).
    { apply existsb_exists. exists r. split; [by apply list_elem_of_In | by rewrite Ha]. } by rewrite Ht in E.
  - apply existsb_exists. exists r. split; [by apply list_elem_of_In | apply under_refl].
Qed.

(** a token that was sealed: five parts, the second empty, of which the platform makes what it was sealed of *)
Definition Sealed (bytes : string -> string) (json : string -> option value) (decipher : string -> string -> string -> string -> string -> option value)
    (t : string) (header p : value) (k : string) : Prop :=
  exists h iv ct tag, split "."%char t = [h; ""; iv; ct; tag] /\ form t = Some Jwe /\ json h = Some header
    /\ String.length (bytes iv) = IV /\ String.length (bytes tag) = TAG /\ decipher k (bytes iv) h (bytes ct) (bytes tag) = Some p.

(** what the audience of a token is stated as *)
Definition audience_of (l : option (list string)) : option value :=
  match l with Some [a] => Some (VString a) | Some ((_ :: _) as l) => Some (strings l) | _ => None end.

Definition lifetime_of (L : Z) (input : EncryptInput) : Z := match lifetime input with Some l => l * 1000 | None => L * 1000 end.

Lemma payload_fields now L input p : payload now L input = Ok p ->
  let i := mkIdentity (i_id (who input)) (default (i_roles (who input)) (scopes input))
    (match permissions input with Some p => Some p | None => i_permissions (who input) end) in
  own p "iss" = Some (VString (authority input)) /\ own p "iat" = Some (seconds now) /\ own p "identity" = Some (VObject (claim i))
  /\ own p "aud" = audience_of (audience input) /\ own p "nbf" = None
  /\ own p "exp" = if lifetime_of L input =? 0 then None else Some (seconds (now + lifetime_of L input)).
Proof.
  unfold payload, lifetime_of. destruct (existsb _ _); [done|]. intros H. injection H as <-. cbn [app].
  destruct (_ =? 0); destruct (audience input) as [[|a [|b l]]|]; by repeat split.
Qed.

Lemma own_id i : own (claim i) "id" = Some (VString (i_id i)).
Proof. reflexivity. Qed.

Lemma parse_sealed bytes json t h iv ct tag kid : split "."%char t = [h; ""; iv; ct; tag] -> json h = Some (header_of kid) ->
  parse bytes json t = Ok (mkJWE kid h (bytes iv) (bytes ct) (bytes tag)).
Proof. intros Hs Hj. unfold parse. rewrite Hs. rewrite bool_decide_eq_true_2 by done. by rewrite Hj. Qed.

Lemma key_latest evict now ttl keys kept c l : latest keys = Some l -> NoDup (c_id <$> keys) ->
  key_of evict now ttl keys kept (c_id l) false c = (Ok (mkUsed (c_key l) None None), c).
Proof.
  intros Hl Hnd. unfold latest in Hl. destruct (list_find (fun k => legacy k = false) keys) as [[n0 l']|] eqn:E; [|done]. injection Hl as ->.
  apply list_find_Some in E as (E1 & E2 & _).
  assert (Hin : l ∈ rev keys) by (apply list_elem_of_In; apply -> in_rev; apply list_elem_of_In; by eapply list_elem_of_lookup_2).
  unfold key_of. destruct (list_find (fun k => c_id k = c_id l /\ legacy k = false) (rev keys)) as [[n k]|] eqn:F.
  - apply list_find_Some in F as (F1 & [F2 _] & _).
    assert (Hkin : k ∈ keys) by (apply list_elem_of_In; apply in_rev; apply list_elem_of_In; by eapply list_elem_of_lookup_2).
    apply list_elem_of_lookup in Hkin as [m Hm]. pose proof (NoDup_lookup (c_id <$> keys) m n0 (c_id l) Hnd) as Hinj.
    rewrite !list_lookup_fmap, Hm, E1 in Hinj. cbn in Hinj. rewrite F2 in Hinj. specialize (Hinj eq_refl eq_refl). subst m. congruence.
  - apply list_find_None in F. rewrite Forall_forall in F. by destruct (F l Hin).
Qed.

Lemma stated_seconds (p : list (string * value)) name (e : option Z) : own p name = seconds <$> e -> stated p name = seconds <$> e.
Proof. unfold stated. intros ->. destruct e as [e|]; [|done]. cbn. pose proof (seconds_stated e). by destruct (seconds e). Qed.

Lemma open_sealed decipher later kid h iv ct tag k p iss now e identity a :
  String.length iv = IV -> String.length tag = TAG -> decipher k iv h ct tag = Some (VObject p) ->
  own p "iss" = Some (VString iss) -> own p "iat" = Some (seconds now) -> own p "identity" = Some (VObject identity) ->
  own p "nbf" = None -> own p "exp" = seconds <$> e -> stated p "aud" = a ->
  open decipher later (mkJWE kid h iv ct tag) k
  = if match e with Some e => e <=? later | None => false end then Throw INVALID_TOKEN else Ok (mkClaims iss now e identity a).
Proof.
  intros Hiv Htag Hd Hiss Hiat Hid Hnbf Hexp Ha. unfold open. cbn [Tokens.iv Tokens.tag aad ciphertext]. rewrite bool_decide_eq_true_2 by done. cbn [negb].
  rewrite Hd, Hiss, Hiat, Hid, is_number_seconds. cbn [negb]. apply stated_seconds in Hexp.
  assert (Hn : stated p "nbf" = None) by (unfold stated; by rewrite Hnbf). rewrite Hn, Hexp, Ha. unfold moment, late. rewrite thousandths_seconds.
  destruct e as [e|]; cbn [fmap option_fmap option_map]; [rewrite thousandths_seconds; destruct (e <=? later); done | done].
Qed.

Lemma audience_stated p l : own p "aud" = audience_of l -> stated p "aud" = audience_of l.
Proof. unfold stated. intros ->. by destruct l as [[|a [|b l]]|]. Qed.

(** C34: a token is read as it was made: what is encrypted for an identity under the latest of the configured keys is decrypted, at
    any moment until it expires, into the authority, the time, the audience and the identity it was made of, with the scopes that
    were asked for in place of the roles, each within one of them; it is not to be re-issued, and after it has expired it is no
    token. *)
Theorem token_is_read_as_made bytes json decipher paseto evict seal secret now L keys input t l ttl kept c later :
  encrypt seal secret now L keys input = Ok t -> latest keys = Some l -> NoDup (c_id <$> keys) -> key input = None ->
  (forall p, payload now L input = Ok p -> Sealed bytes json decipher t (header_of (c_id l)) (VObject p) (c_key l)) ->
  let i := mkIdentity (i_id (who input)) (default (i_roles (who input)) (scopes input))
    (match permissions input with Some p => Some p | None => i_permissions (who input) end) in
  let expires := if lifetime_of L input =? 0 then None else Some (now + lifetime_of L input) in
  fst (decrypt bytes json decipher paseto evict later ttl keys kept c t)
    = (if match expires with Some e => e <=? later | None => false end then Throw INVALID_TOKEN
       else Ok (mkDecrypted (mkClaims (authority input) now expires (claim i) (audience_of (audience input))) false false))
  /\ forall r, r ∈ i_roles i -> accessible r (i_roles (who input)) = true.
Proof.
  intros He Hl Hnd Hk Hs i expires. unfold encrypt in He. rewrite Hl in He.
  destruct (payload now L input) as [p|] eqn:Hp; [|done]. destruct (Hs p eq_refl) as (h & iv & ct & tag & Hsplit & Hform & Hj & Hiv & Htag & Hd).
  split; [|by apply (payload_narrows now L input p)].
  destruct (payload_fields _ _ _ _ Hp) as (Hiss & Hiat & Hid & Haud & Hnbf & Hexp).
  assert (He' : own p "exp" = seconds <$> expires) by (rewrite Hexp; unfold expires; by destruct (lifetime_of L input =? 0)).
  unfold decrypt. rewrite Hform, (parse_sealed _ _ _ _ _ _ _ _ Hsplit Hj). cbn [kid]. rewrite (key_latest _ _ _ _ _ _ _ Hl Hnd). cbn [mbind result_bind fst secret_].
  rewrite (open_sealed _ _ _ _ _ _ _ _ _ _ _ expires _ _ Hiv Htag Hd Hiss Hiat Hid Hnbf He' (audience_stated _ _ Haud)).
  destruct (match expires with Some e => e <=? later | None => false end); [done|]. unfold answer. cbn [whose revokedAt]. rewrite Hl. cbn [fmap option_fmap option_map].
  cbn [kid]. rewrite (bool_decide_eq_true_2 (Some (c_id l) = Some (c_id l))) by done. done.
Qed.

(** ** Who is taken for whom *)

Lemma open_opens decipher now j k c : open decipher now j k = Ok c ->
  exists p, decipher k (iv j) (aad j) (ciphertext j) (tag j) = Some (VObject p) /\ own p "iss" = Some (VString (iss c))
    /\ own p "identity" = Some (VObject (subject c)) /\ (forall e, exp c = Some e -> now < e).
Proof.
  unfold open. intros H. destruct (negb _); [done|]. destruct (decipher _ _ _ _ _) as [[]|]; try done.
  destruct (own fields "iss") as [[]|] eqn:E1; try done. destruct (own fields "iat") as [ia|] eqn:E2; [|done].
  destruct (own fields "identity") as [[]|] eqn:E3; try done. destruct (negb (is_number (Some ia))); [done|].
  destruct (match stated fields "exp" with Some v => late now v | None => false end) eqn:E4; [done|].
  destruct (match stated fields "nbf" with Some v => early now v | None => false end); [done|].
  unfold moment in H. destruct (thousandths ia); [|done]. cbn [mbind result_bind] in H. exists fields. split; [done|].
  destruct (stated fields "exp") as [v|].
  - unfold late in E4. destruct (thousandths v) as [e|]; [|done]. cbn in H. injection H as <-. cbn. repeat split; try done.
    intros e' He. injection He as <-. lia.
  - cbn in H. injection H as <-. by repeat split.
Qed.

(** what answers of the claims of a token leaves them, and holds a key that was issued to whom it was issued for *)
Lemma answer_keeps c k r d : answer c k r = Ok d -> claims d = c /\ refresh d = r /\ custom d = bool_decide (is_Some (whose k))
  /\ revokedAt k = None /\ (forall i, whose k = Some i -> own (subject c) "id" = Some (VString i)).
Proof.
  unfold answer. intros H. destruct (whose k) as [i|].
  - destruct (bool_decide (own (subject c) "id" = Some (VString i))) eqn:E; [|done]. cbn in H. apply bool_decide_eq_true in E.
    case_bool_decide as Hr; [done|]. injection H as <-. cbn. apply eq_None_not_Some in Hr. repeat split; try done. intros i' Hi. by injection Hi as <-.
  - case_bool_decide as Hr; [done|]. injection H as <-. apply eq_None_not_Some in Hr. by repeat split.
Qed.


(** ** Keys of whoever is banned *)

Definition revoked (ks : list Key) (id : string) : Prop := forall k, k ∈ ks -> k_id k = id -> k_revokedAt k <> None.

Lemma disable_id now id ks : k_id <$> disable now id ks = k_id <$> ks.
Proof. unfold disable. rewrite <- list_fmap_compose. apply list_fmap_ext. intros i k _. cbn. by case_bool_decide. Qed.

Lemma disable_identity now id ks : k_identity <$> disable now id ks = k_identity <$> ks.
Proof. unfold disable. rewrite <- list_fmap_compose. apply list_fmap_ext. intros i k _. cbn. by case_bool_decide. Qed.

Lemma disable_revokes now id ks : revoked (disable now id ks) id.
Proof. intros k Hk Hid. unfold disable in Hk. apply list_elem_of_fmap in Hk as (k0 & -> & _). by case_bool_decide. Qed.

Lemma disable_stays now id ks id' : revoked ks id' -> revoked (disable now id ks) id'.
Proof.
  intros H k Hk Hid. unfold disable in Hk. apply list_elem_of_fmap in Hk as (k0 & -> & Hk0). case_bool_decide; [done|]. by apply (H k0 Hk0).
Qed.

Lemma revoke_all now l : forall ks id, (id ∈ k_id <$> l \/ revoked ks id) -> revoked (foldl (fun ks k => disable now (k_id k) ks) ks l) id.
Proof.
  induction l as [|k l IH]; intros ks id [H|H]; cbn; [by apply not_elem_of_nil in H | done | |].
  - cbn in H. apply elem_of_cons in H as [->|H]; apply IH; [right; apply disable_revokes | by left].
  - apply IH. right. by apply disable_stays.
Qed.

Lemma revoke_ids now l ks : (fun k => (k_id k, k_identity k)) <$> foldl (fun ks k => disable now (k_id k) ks) ks l = (fun k => (k_id k, k_identity k)) <$> ks.
Proof.
  revert ks. induction l as [|k l IH]; intros ks; cbn; [done|]. rewrite IH. unfold disable. rewrite <- list_fmap_compose.
  apply list_fmap_ext. intros i x _. cbn. by case_bool_decide.
Qed.

(** of whoever has no more keys than are read, all keys are disabled *)
Lemma banned_keys_are_disabled now id ks : (length (filter (fun k => k_identity k = Some id) ks) <= LIMIT)%nat ->
  forall k, k ∈ revoke now id ks -> k_identity k = Some id -> k_revokedAt k <> None.
Proof.
  intros Hl k Hk Hid. unfold revoke in Hk. rewrite take_ge in Hk by done. set (l := filter _ ks) in *.
  apply (revoke_all now l ks (k_id k)); [|done|done]. left.
  assert (Hin : (k_id k, k_identity k) ∈ (fun k => (k_id k, k_identity k)) <$> ks) by (rewrite <- (revoke_ids now l); by apply (list_elem_of_fmap_2 (fun k => (k_id k, k_identity k)))).
  apply list_elem_of_fmap in Hin as (k0 & Heq & Hk0). injection Heq as Hki Hkd. apply list_elem_of_fmap. exists k0. split; [done|].
  apply list_elem_of_filter. split; [congruence | done].
Qed.

(** ** A shop *)
Module Shop.
(** alice may delegate what she has; bob is granted a part of it *)
Definition entries : list Entry := [mkEntry "alice" "app" None].
Definition alice : Grantor := mkGrantor "alice" ["app"; "app:stock"].
Definition to_bob : Grant := mkGrant "bob" "app:orders" (Some alice).

Lemma delegation_escalates_nothing_witness :
  (exists x, x ∈ entries /\ under "app:orders" (r_role x) = true)
  /\ (mkEntry "bob" "app:orders" (Some "alice") ∈ entries \/ under MANAGEMENT "app:orders" = false /\ under "app:orders" MANAGEMENT = false).
Proof.
  apply (delegation_escalates_nothing entries (entries ++ [mkEntry "bob" "app:orders" (Some "alice")]) (mkEntry "bob" "app:orders" (Some "alice"))).
  - apply (delegated_one entries entries to_bob alice); [apply delegated_none | reflexivity | | reflexivity | reflexivity].
    intros r Hr. exists (mkEntry "alice" "app" None). split; [by left|]. split; [reflexivity|].
    apply elem_of_cons in Hr as [->|Hr]; [reflexivity|]. apply list_elem_of_singleton in Hr as ->. reflexivity.
  - apply elem_of_app. right. by left.
Defined.

Lemma delegates_refused :
  grant (mkGrant "bob" "admin" (Some alice)) = Throw INACCESSIBLE_SCOPE
  /\ grant (mkGrant "bob" "system:identity:roles:delegation" (Some (mkGrantor "carol" ["system:identity:roles:delegation"]))) = Throw INACCESSIBLE_SCOPE
  /\ grant (mkGrant "bob" "admin" (Some (mkGrantor "root" ["system"]))) = Ok (mkEntry "bob" "admin" (Some "root")).
Proof. vm_compute. done. Qed.

(** one token, and what a platform makes of it *)
Definition keys : list Configured := [mkConfigured "key0" "secret0" false; mkConfigured "old" "secret1" true].
Definition input : EncryptInput := mkEncrypt "shop" (mkIdentity "bob" ["app"; "user"] None) (Some 60) (Some ["app:orders"]) None (Some ["https://shop/.mcp"]) None.
Definition t : string := "h..iv.ct.tag".
Definition claims_ : value := VObject (match payload 5000 100 input with Ok p => p | Throw _ => [] end).
Definition bytes (s : string) : string := if bool_decide (s = "iv") then "123456789012" else if bool_decide (s = "tag") then "1234567890123456" else s.
Definition json (s : string) : option value :=
  if bool_decide (s = "h") then Some (header_of "key0") else if bool_decide (s = "f") then Some (VObject [("kid", VString "k1")]) else None.
Definition decipher (k iv h ct tag : string) : option value := if bool_decide (k = "secret0" /\ h = "h" /\ ct = "ct") then Some claims_ else None.
Definition paseto (k token : string) : option Claims :=
  if bool_decide (k = "old-secret") then Some (mkClaims "shop" 0 None [("id", VString "bob"); ("roles", strings ["app:orders"])] None) else None.
Definition evict (c : gmap string (option Key * Z)) : gmap string (option Key * Z) := c.
Definition sealed (h p : value) (k : string) : string := t.

Lemma token_is_read_as_made_witness :
  fst (decrypt bytes json decipher paseto evict 6000 600 keys [] ∅ t)
    = Ok (mkDecrypted (mkClaims "shop" 5000 (Some 65000) (claim (mkIdentity "bob" ["app:orders"] None)) (Some (VString "https://shop/.mcp"))) false false)
  /\ forall r, r ∈ ["app:orders"] -> accessible r ["app"; "user"] = true.
Proof.
  apply (token_is_read_as_made bytes json decipher paseto evict sealed (fun _ => true) 5000 100 keys input t (mkConfigured "key0" "secret0" false) 600 [] ∅ 6000).
  - vm_compute. reflexivity.
  - reflexivity.
  - eapply bool_decide_eq_true_1. vm_compute. reflexivity.
  - reflexivity.
  - intros p Hp. exists "h", "iv", "ct", "tag". repeat split; try (vm_compute; reflexivity).
    replace (decipher (c_key (mkConfigured "key0" "secret0" false)) (bytes "iv") "h" (bytes "ct") (bytes "tag")) with (Some claims_) by (vm_compute; reflexivity).
    unfold claims_. by rewrite Hp.
Defined.

Definition presented : Input := mkInput "shop" t false.


(** a token of the form that is left behind, under a key issued for one identity, is to be re-issued: the token that takes its
    place is under no such key, and carries the roles of the identity rather than the scopes of the token *)
Lemma legacy_custom_is_reissued :
  let k1 := mkKey "k1" (Some "bob") "old-secret" "backup" None None in
  fst (authenticate bytes json decipher paseto evict 6000 600 10 keys [k1] (fun _ => None) ∅ (mkInput "shop" "v3.local.x.f" false))
    = Ok (mkAuthenticated [("id", VString "bob"); ("roles", strings ["app:orders"])] true)
  /\ fst (authenticate bytes json decipher paseto evict 6000 600 10 keys [k1] (fun _ => None) ∅ (mkInput "shop" "v3.local.x.f" true)) = Throw UNREFRESHABLE.
Proof. vm_compute. done. Qed.

(** a token that is refused leaves the key it was to be issued under *)
Lemma refused_issue_leaves_key :
  let input := mkIssue "shop" "bob" "laptop" None (Some ["admin"]) None None in
  issue sealed (fun _ => true) 5000 100 keys "k2" "random" [mkEntry "bob" "app" None] [] input
    = (Throw INACCESSIBLE_SCOPE, [mkKey "k2" (Some "bob") "random" "laptop" (Some 105000) None]).
Proof. vm_compute. reflexivity. Qed.

(** whoever has more keys than are read at once keeps one of them when banned *)
Definition many : list Key := (fun n => mkKey (pretty n) (Some "bob") "s" "l" None None) <$> seq 0 1025.

Lemma keys_past_the_limit_stay :
  option_map k_revokedAt (key_by "1023" (revoke 5000 "bob" many)) = Some (Some 5000) /\ option_map k_revokedAt (key_by "1024" (revoke 5000 "bob" many)) = Some None.
Proof. vm_compute. done. Qed.

Lemma ids_are_no_keys : fst (key_of evict 0 600 keys [] "constructor" false ∅) = Throw INVALID_TOKEN
  /\ fst (key_of evict 0 600 keys [] "k9" false ∅) = Throw INVALID_KEY /\ form "a.b.c" = None.
Proof. vm_compute. done. Qed.
End Shop.
