(* ===== verification/Grants.v ===== *)
(** * Grants

    [extensions/exposition/components/]: [identity.clients] (what a client is, and where it may receive a code) and
    [identity.grants] (codes a user lets a client have, the tokens they are redeemed for, and the taking back of both). A code is
    held in the stash for seconds and redeemed by whoever holds the verifier of its challenge; what a request asks of others
    between two awaits is a step. URLs are parsed by the platform, which is an argument, as its hashes are. *)
From stdpp Require Import strings gmap.
From S2P Require Import Prelude Tokens.

Open Scope Z_scope.

(** ** Clients ([redirect.ts], [cimd.ts], [describe.ts], [register.ts]) *)

Record Url := mkUrl { protocol : string; hostname : string; pathname : string; search : string; hash : string; href : string; origin : string }.

Record Client := mkClient { client_id : string; about : list (string * value); redirect_uris : list string }.

(** a registration: what it says, in the order it is told apart by *)
Record Metadata := mkMetadata { client_name : option string; client_uri : option string; logo_uri : option string; m_scope : option string; m_uris : list string }.

Record Registered := mkRegistered { e_id : string; e_authority : string; e_metadata : Metadata; e_expires : Z }.

Definition UNKNOWN_CLIENT : string := "UNKNOWN_CLIENT".
Definition LOOPBACK : list string := ["127.0.0.1"; "[::1]"; "localhost"].

Section clients.
Context (url : string -> option Url).

Definition loopback (registered redirect : string) : bool :=
  match url registered, url redirect with
  | Some a, Some b =>
      bool_decide (protocol a = "http:" /\ protocol b = "http:" /\ hostname a ∈ LOOPBACK /\ hostname a = hostname b
        /\ pathname a = pathname b /\ search a = search b)
  | _, _ => false
  end.

Definition permits (registered : list string) (redirect : string) : bool :=
  existsb (fun uri => bool_decide (uri = redirect) || loopback uri redirect) registered.

(** [trusted]: an https URL of an origin that is named *)
Definition trusted (id : string) (trust : list string) : bool :=
  match url id with
  | Some u => bool_decide (protocol u = "https:") && existsb (fun o => match url o with Some o => bool_decide (origin o = origin u) | None => false end) trust
  | None => false
  end.

(** the texts of a list, if it holds nothing else *)
Fixpoint texts (vs : list value) : option (list string) :=
  match vs with
  | [] => Some []
  | VString s :: vs => l ← texts vs; Some (s :: l)
  | _ => None
  end.

(** [validate], of a document that names itself *)
Definition validate (id : string) (document : value) : result string Client :=
  match document with
  | VObject d =>
      if bool_decide (own d "client_id" = Some (VString id)) then
        match own d "redirect_uris" with
        | Some (VArray ((_ :: _) as us)) =>
            match texts us with
            | Some uris => Ok (mkClient id (omap (fun n => v ← own d n; Some (n, v)) ["client_name"; "client_uri"; "logo_uri"]) uris)
            | None => Throw UNKNOWN_CLIENT
            end
        | _ => Throw UNKNOWN_CLIENT
        end
      else Throw UNKNOWN_CLIENT
  | _ => Throw UNKNOWN_CLIENT
  end.

(** what answers a document, if anything does in time: whether it is found, and its text *)
Context (document : string -> option (bool * string)) (json : string -> option value).

Definition fetch (size : nat) (id : string) : result string Client :=
  match document id with
  | Some (true, text) =>
      if (size <? String.length text)%nat then Throw UNKNOWN_CLIENT
      else match json text with Some v => validate id v | None => Throw UNKNOWN_CLIENT end
  | _ => Throw UNKNOWN_CLIENT
  end.

(** [read]: what is known of a document until a moment, its absence included, is not fetched again *)
Definition read (trust : list string) (size : nat) (lifetime now : Z) (id : string) (held : gmap string (option Client * Z)) :
    result string Client * gmap string (option Client * Z) :=
  if trusted id trust then
    match held !! id with
    | Some (c, until) =>
        if now <? until then (match c with Some c => Ok c | None => Throw UNKNOWN_CLIENT end, held)
        else let c := fetch size id in (c, <[id := (match c with Ok c => Some c | Throw _ => None end, now + lifetime)]> held)
    | None => let c := fetch size id in (c, <[id := (match c with Ok c => Some c | Throw _ => None end, now + lifetime)]> held)
    end
  else (Throw UNKNOWN_CLIENT, held).

Definition text_of (name : string) (o : option string) : list (string * value) := match o with Some s => [(name, VString s)] | None => [] end.

Definition client_of (e : Registered) : Client :=
  let m := e_metadata e in
  mkClient (e_id e) (text_of "client_name" (client_name m) ++ text_of "client_uri" (client_uri m) ++ text_of "logo_uri" (logo_uri m)) (m_uris m).

Definition registered (authority id : string) (es : gmap string Registered) : result string Client :=
  match es !! id with
  | Some e => if bool_decide (e_authority e = authority) then Ok (client_of e) else Throw UNKNOWN_CLIENT
  | None => Throw UNKNOWN_CLIENT
  end.

(** [describe]: a client, and whether it may receive a code where it is asked about *)
Definition describe (trust : list string) (size : nat) (lifetime now : Z) (es : gmap string Registered) (authority id : string)
    (redirect : option string) (held : gmap string (option Client * Z)) : result string (Client * option bool) * gmap string (option Client * Z) :=
  let '(c, held) := if String.prefix "https://" id then read trust size lifetime now id held else (registered authority id es, held) in
  (c ← c; Ok (c, permits (redirect_uris c) <$> redirect), held).

(** [normalize]: absolute, of no fragment, and https or a loopback address *)
Definition normalize (value : string) : result string string :=
  match url value with
  | None => Throw ("`" +:+ value +:+ "` is not an absolute URI")
  | Some u =>
      if negb (bool_decide (hash u = "")) then Throw ("`" +:+ value +:+ "` carries a fragment")
      else if bool_decide (protocol u = "https:") then Ok (href u)
      else if bool_decide (protocol u = "http:" /\ hostname u ∈ LOOPBACK) then Ok (href u)
      else Throw ("`" +:+ value +:+ "` is neither https nor a loopback address")
  end.

Fixpoint normalized (uris : list string) : result string (list string) :=
  match uris with
  | [] => Ok []
  | u :: uris => v ← normalize u; vs ← normalized uris; Ok (v :: vs)
  end.

(** [register]: [identify] is the hash of an authority and metadata; [method] what the client would authenticate itself by *)
Definition register (identify : string -> Metadata -> string) (now ttl : Z) (authority : string) (method : option string) (m : Metadata)
    (es : gmap string Registered) : result (string * string) Client * gmap string Registered :=
  if match method with Some s => negb (bool_decide (s = "none")) | None => false end
  then (Throw ("invalid_client_metadata", "Only public clients are supported: token_endpoint_auth_method must be `none`"), es)
  else
      match normalized (m_uris m) with
      | Throw e => (Throw ("invalid_redirect_uri", e), es)
      | Ok uris =>
          let m := mkMetadata (client_name m) (client_uri m) (logo_uri m) (m_scope m) uris in
          let e := mkRegistered (identify authority m) authority m (now + ttl * 1000) in
          (Ok (client_of e), <[e_id e := e]> es)
      end.
End clients.

(** ** Grants ([code.ts], [authorize.ts], [exchange.ts], [revoke.ts], [list.ts]) *)

Record Code := mkCode { identity : string; client : string; redirect : string; challenge : string; scope : list string; resource : list string }.

Record Grant_ := mkGrant_ {
  g_authority : string; g_identity : string; g_client : string; g_scope : list string; g_resource : list string;
  g_kid : option string; g_revokedAt : option Z
}.

(** what allows a client ([authorize]), and what redeems a code ([exchange]) *)
Record Allowing := mkAllowing {
  a_authority : string; a_identity : string; a_client : string; a_redirect : string; a_challenge : string; a_method : string;
  a_scope : option (list string); a_resource : option (list string)
}.

Record Redeeming := mkRedeeming {
  r_authority : string; grant_type : string; r_code : option string; code_verifier : option string; redirect_uri : option string; r_client : option string
}.

Record Token := mkToken { access_token : string; expires_in : option Z; t_scope : option string }.

Inductive Stage :=
(** about to spend the code, to have a token issued for it, and to record the key of that *)
| Spending
| Issuing (c : Code)
| Recording (c : Code) (issued : Issued)
| Answered (c : option Code) (answer : result (string * string) Token).

Record World := mkWorld {
  codes : gmap string (Code * Z); grants : gmap string Grant_; keys_ : list Key; now : Z; asked : list (Redeeming * Stage)
}.

Definition start (t : Z) : World := mkWorld ∅ ∅ [] t [].

Record Options := mkOptions { lifetime : Z; token_lifetime : Z }.

Section grants.
(** the hashes: of a code and its authority, of what a grant is addressed by, and of a verifier; and how a token is issued *)
Context (key : string -> string -> string) (identify : string -> string -> string -> string) (digest : string -> string)
  (issue : Z -> string -> string -> list Key -> IssueInput -> result string Issued * list Key).

(** what [identity.clients] says of a client and where it may receive a code, if it knows it *)
Context (describe : string -> string -> string -> option bool).

Definition S256 : string := "S256".
Definition AUTHORIZATION_CODE : string := "authorization_code".
Definition LABEL : nat := 64.

Definition invalid {A} (error description : string) : result (string * string) A := Throw (error, description).

(** [transit]: what is stated of a grant is assigned, and the rest of it stays *)
Definition transit (id : string) (authority identity client : string) (scope resource : list string) (kid : option string)
    (gs : gmap string Grant_) : gmap string Grant_ :=
  let g := gs !! id in
  <[id := mkGrant_ authority identity client scope resource (match kid with Some k => Some k | None => g ≫= g_kid end) (g ≫= g_revokedAt)]> gs.

Definition code_of (a : Allowing) : Code :=
  mkCode (a_identity a) (a_client a) (a_redirect a) (a_challenge a) (default [] (a_scope a)) (default [] (a_resource a)).

(** what is refused before anything is written *)
Definition refused (a : Allowing) : option (string * string) :=
  if negb (bool_decide (a_method a = S256)) then Some ("invalid_request", "Only the S256 code challenge method is supported")
  else
    match describe (a_authority a) (a_client a) (a_redirect a) with
    | None => Some ("invalid_client", "No such client")
    | Some false => Some ("invalid_request", "The redirect is not one this client may receive a code at")
    | Some true => None
    end.

(** [authorize]: [value] is random *)
Definition authorize (o : Options) (a : Allowing) (value : string) (w : World) : result (string * string) (string * Z) * World :=
  match refused a with
  | Some e => (Throw e, w)
  | None =>
      (Ok (value, lifetime o),
       mkWorld (<[key (a_authority a) value := (code_of a, now w + lifetime o * 1000)]> (codes w))
         (transit (identify (a_authority a) (a_identity a) (a_client a)) (a_authority a) (a_identity a) (a_client a)
           (default [] (a_scope a)) (default [] (a_resource a)) None (grants w))
         (keys_ w) (now w) (asked w))
  end.

(** [spend]: there is nothing under the key any more *)
Definition spend (k : string) (w : World) : option Code * gmap string (Code * Z) :=
  (match codes w !! k with Some (c, until) => if now w <? until then Some c else None | None => None end, delete k (codes w)).

Definition verifies (challenge verifier : string) : bool := bool_decide (digest verifier = challenge).

Definition redeemable (c : Code) (q : Redeeming) (verifier : string) : bool :=
  verifies (challenge c) verifier
  && match redirect_uri q with Some r => bool_decide (r = redirect c) | None => true end
  && match r_client q with Some i => bool_decide (i = client c) | None => true end.

Definition issue_input (o : Options) (q : Redeeming) (c : Code) : IssueInput :=
  mkIssue (r_authority q) (identity c) (of_chars (take LABEL (chars (client c)))) (Some (token_lifetime o))
    (match scope c with [] => None | l => Some l end) None (match resource c with [] => None | l => Some l end).

(** the next of what an [exchange] asks of others, with an id and random bytes where a key is made *)
Definition exchange (o : Options) (id random : string) (q : Redeeming) (st : Stage) (w : World) :
    option (Stage * gmap string (Code * Z) * gmap string Grant_ * list Key) :=
  match st with
  | Spending =>
      if negb (bool_decide (grant_type q = AUTHORIZATION_CODE))
      then Some (Answered None (invalid "unsupported_grant_type" "Only the authorization code grant is supported"), codes w, grants w, keys_ w)
      else
        match r_code q, code_verifier q with
        | Some value, Some verifier =>
            let '(c, cs) := spend (key (r_authority q) value) w in
            match c with
            | Some c =>
                if redeemable c q verifier then Some (Issuing c, cs, grants w, keys_ w)
                else Some (Answered None (invalid "invalid_grant" "The authorization code is not redeemable"), cs, grants w, keys_ w)
            | None => Some (Answered None (invalid "invalid_grant" "The authorization code is not redeemable"), cs, grants w, keys_ w)
            end
        | _, _ => Some (Answered None (invalid "invalid_request" "A code and a code verifier are required"), codes w, grants w, keys_ w)
        end
  | Issuing c =>
      let '(r, ks) := issue (now w) id random (keys_ w) (issue_input o q c) in
      Some (match r with
            | Ok i => Recording c i
            | Throw _ => Answered None (invalid "invalid_scope" "The requested scope is not one the identity holds")
            end, codes w, grants w, ks)
  | Recording c i =>
      Some (Answered (Some c) (Ok (mkToken (token i) ((fun e => (e - now w) / 1000) <$> issued_exp i)
              (match scope c with [] => None | l => Some (join " " l) end))), codes w,
        transit (identify (r_authority q) (identity c) (client c)) (r_authority q) (identity c) (client c) (scope c) (resource c) (Some (issued_kid i)) (grants w),
        keys_ w)
  | Answered _ _ => None
  end.

(** [revoke]: what is another's is not found *)
Definition revoke_grant (authority identity id : string) (w : World) : result string unit * World :=
  match grants w !! id with
  | Some g =>
      if bool_decide (g_authority g = authority /\ g_identity g = identity) then
        (Ok tt, mkWorld (codes w)
          (<[id := mkGrant_ (g_authority g) (g_identity g) (g_client g) (g_scope g) (g_resource g) (g_kid g) (Some (now w))]> (grants w))
          (match g_kid g with Some k => disable (now w) k (keys_ w) | None => keys_ w end) (now w) (asked w))
      else (Throw "NOT_FOUND", w)
  | None => (Throw "NOT_FOUND", w)
  end.

Definition LIST : nat := 256.

Definition listed (authority identity : string) (w : World) : list Grant_ :=
  take LIST $ filter (fun g => g_authority g = authority /\ g_identity g = identity) (snd <$> map_to_list (grants w)).

Inductive step :=
| Ticks (d : Z)
| Allows (a : Allowing) (value : string)
| Asks (q : Redeeming)
| Goes (i : nat) (id random : string)
| Revokes (authority identity id : string).

Definition act (o : Options) (e : step) (w : World) : option World :=
  match e with
  | Ticks d => if 0 <=? d then Some (mkWorld (codes w) (grants w) (keys_ w) (now w + d) (asked w)) else None
  | Allows a value => Some (snd (authorize o a value w))
  | Asks q => Some (mkWorld (codes w) (grants w) (keys_ w) (now w) (asked w ++ [(q, Spending)]))
  | Goes i id random =>
      p ← asked w !! i;
      r ← exchange o id random (fst p) (snd p) w;
      let '(st, cs, gs, ks) := r in
      Some (mkWorld cs gs ks (now w) (<[i := (fst p, st)]> (asked w)))
  | Revokes authority identity id => Some (snd (revoke_grant authority identity id w))
  end.

Definition acts (o : Options) : list step -> World -> option World := run (act o).
End grants.

(** ** Codes and the tokens they are redeemed for *)

Section redeemed.
Context (key : string -> string -> string) (identify : string -> string -> string -> string) (digest : string -> string)
  (issue : Z -> string -> string -> list Key -> IssueInput -> result string Issued * list Key) (describe : string -> string -> string -> option bool).
Context (o : Options).

Notation acts := (acts key identify digest issue describe o).
Notation act := (act key identify digest issue describe o).

(** the code a redemption has in hand *)
Definition in_hand (st : Stage) : option Code :=
  match st with Issuing c | Recording c _ => Some c | Answered c _ => c | Spending => None end.

(** whether it has spent what is held under a key, and is to be answered with a token or was *)
Definition redeemed (k : string) (p : Redeeming * Stage) : bool :=
  bool_decide (option_map (key (r_authority (fst p))) (r_code (fst p)) = Some k) && bool_decide (is_Some (in_hand (snd p))).

(** whether a code was made that is held under a key *)
Definition allowed (k : string) (e : step) : bool :=
  match e with Allows a value => bool_decide (refused describe a = None /\ key (a_authority a) value = k) | _ => false end.

Definition held (k : string) (w : World) : nat := match codes w !! k with Some _ => 1 | None => 0 end.

(** what a step of a redemption does to the codes, and to the code it has in hand *)
Lemma exchange_spec id random q st w st' cs gs ks : exchange key identify digest issue o id random q st w = Some (st', cs, gs, ks) ->
  (cs = codes w /\ (in_hand st' = in_hand st \/ in_hand st' = None))
  \/ exists value verifier, r_code q = Some value /\ code_verifier q = Some verifier /\ cs = delete (key (r_authority q) value) (codes w)
      /\ (in_hand st' = None \/ in_hand st = None /\ exists c e, codes w !! key (r_authority q) value = Some (c, e) /\ now w < e
            /\ redeemable digest c q verifier = true /\ in_hand st' = Some c).
Proof.
  intros H. destruct st as [|c|c i|c a]; cbn [exchange] in H.
  - destruct (negb _); [injection H as <- <- _ _; left; auto|].
    destruct (r_code q) as [value|] eqn:Ev; [|injection H as <- <- _ _; left; auto].
    destruct (code_verifier q) as [verifier|] eqn:Ec; [|injection H as <- <- _ _; left; auto].
    right. exists value, verifier. split; [done|]. split; [done|]. unfold spend in H. cbn iota beta in H.
    destruct (codes w !! key (r_authority q) value) as [[c e]|] eqn:E; [|injection H as <- <- _ _; auto].
    destruct (Z.ltb_spec (now w) e); [|injection H as <- <- _ _; auto].
    destruct (redeemable digest c q verifier) eqn:Er; injection H as <- <- _ _; [|auto]. split; [done|]. right. split; [done|]. exists c, e. auto.
  - left. destruct (issue _ _ _ _ _) as [r ks']. injection H as <- <- _ _. split; [done|]. destruct r; cbn; auto.
  - left. injection H as <- <- _ _. auto.
  - done.
Qed.

Lemma exchange_goes i id random w w' : act (Goes i id random) w = Some w' -> exists q st st' cs gs ks, asked w !! i = Some (q, st)
  /\ exchange key identify digest issue o id random q st w = Some (st', cs, gs, ks) /\ w' = mkWorld cs gs ks (now w) (<[i := (q, st')]> (asked w)).
Proof.
  unfold act. intros H. destruct (asked w !! i) as [[q st]|]; [|done]. cbn [mbind option_bind fst snd] in H.
  destruct (exchange key identify digest issue o id random q st w) as [[[[st' cs] gs] ks]|] eqn:E; [|done]. cbn in H. injection H as <-.
  by exists q, st, st', cs, gs, ks.
Qed.

(** C19: a code is redeemed once: however many requests present it at once, and wherever each of them stops, no more of them are
    answered with a token, or will be, than codes were made under what it is held by. *)
Theorem code_is_redeemed_once t es w k : acts es (start t) = Some w ->
  (tally (redeemed k) (asked w) <= tally (allowed k) es)%nat.
Proof.
  intros H. assert (Hi : (tally (redeemed k) (asked w) + held k w <= tally (allowed k) es)%nat); [|lia].
  revert es w H. apply (run_ind act (start t)); [done|]. intros es e w w' _ IH Hact. rewrite tally_app, tally_one.
  destruct e as [d|a value|q|i id random|au idn id].
  - unfold act in Hact. destruct (0 <=? d); [|done]. injection Hact as <-. unfold held in *. cbn. lia.
  - unfold act, authorize in Hact. cbn [allowed]. destruct (refused describe a) as [r|] eqn:E; injection Hact as <-; cbn [snd].
    + rewrite bool_decide_eq_false_2 by (by intros [? _]). cbn. lia.
    + unfold held in *. cbn [codes asked]. rewrite lookup_insert. case_decide as Hk.
      * rewrite bool_decide_eq_true_2 by done. destruct (codes w !! k); cbn; lia.
      * rewrite bool_decide_eq_false_2 by (by intros [_ ?]). destruct (codes w !! k); cbn; lia.
  - unfold act in Hact. injection Hact as <-. cbn [asked]. rewrite tally_app, tally_one. unfold redeemed at 2. cbn. rewrite andb_false_r. unfold held in *. cbn. lia.
  - apply exchange_goes in Hact as (q & st & st' & cs & gs & ks & Hq & He & ->). cbn [asked allowed Nat.b2n].
    pose proof (tally_insert (redeemed k) (asked w) i (q, st') (q, st) Hq) as Ht. unfold held in *. cbn [codes].
    apply exchange_spec in He as [[-> Hin] | (value & verifier & Hv & Hc & -> & Hin)].
    + unfold redeemed in Ht at 2 4. cbn [fst snd] in Ht. destruct Hin as [Hin|Hin]; rewrite Hin in Ht; [lia|].
      rewrite (bool_decide_eq_false_2 (is_Some None)), andb_false_r in Ht by (by intros [? ?]). destruct (_ && _) in Ht; cbn in Ht; lia.
    + rewrite lookup_delete. unfold redeemed in Ht at 2 4. cbn [fst snd] in Ht. rewrite Hv in Ht. cbn [option_map] in Ht.
      destruct Hin as [Hin | (Hn & c & e & Hl & _ & _ & Hin)]; rewrite Hin in Ht; [|rewrite Hn in Ht].
      * rewrite (bool_decide_eq_false_2 (is_Some None)), andb_false_r in Ht by (by intros [? ?]).
        destruct (decide (key (r_authority q) value = k)); cbn in Ht; lia.
      * rewrite (bool_decide_eq_false_2 (is_Some None)), andb_false_r in Ht by (by intros [? ?]).
        rewrite (bool_decide_eq_true_2 (is_Some (Some c))), andb_true_r in Ht by eauto.
        destruct (decide (key (r_authority q) value = k)) as [Hk|Hk]; [subst k; rewrite Hl in *; rewrite bool_decide_eq_true_2 in Ht by done; cbn in *; lia|].
        rewrite bool_decide_eq_false_2 in Ht by (intros E; by injection E). cbn in Ht. lia.
  - unfold act, revoke_grant in Hact. injection Hact as <-. cbn [allowed Nat.b2n].
    destruct (grants w !! id) as [g|]; [case_bool_decide|]; unfold held in *; cbn; lia.
Qed.
(** that a code was made of what a user allowed *)
Definition made (es : list step) (k : string) (c : Code) : Prop :=
  exists a value, Allows a value ∈ es /\ refused describe a = None /\ key (a_authority a) value = k /\ c = code_of a.

Lemma made_more es e k c : made es k c -> made (es ++ [e]) k c.
Proof. intros (a & v & H & H'). exists a, v. split; [apply elem_of_app; by left | done]. Qed.

(** that it is in hand for a reason *)
Definition presented (es : list step) (q : Redeeming) (c : Code) : Prop :=
  exists value verifier, r_code q = Some value /\ code_verifier q = Some verifier /\ made es (key (r_authority q) value) c
    /\ redeemable digest c q verifier = true.

Lemma presented_more es e q c : presented es q c -> presented (es ++ [e]) q c.
Proof. intros (v & x & H & H' & Hm & Hr). exists v, x. repeat split; try done. by apply made_more. Qed.

End redeemed.

(** ** Where a client may receive a code *)

(** what is permitted is registered, or is of this machine as what is registered is, on any port *)
Lemma permitted_is_registered url uris r : permits url uris r = true ->
  r ∈ uris \/ exists uri a b, uri ∈ uris /\ url uri = Some a /\ url r = Some b /\ hostname b = hostname a /\ hostname a ∈ LOOPBACK /\ pathname b = pathname a.
Proof.
  unfold permits. rewrite existsb_exists. intros (uri & Hin & H). apply list_elem_of_In in Hin. apply orb_true_iff in H as [H|H].
  - apply bool_decide_eq_true in H as ->. by left.
  - right. unfold loopback in H. destruct (url uri) as [a|] eqn:Ea; [|done]. destruct (url r) as [b|] eqn:Eb; [|done].
    apply bool_decide_eq_true in H as (_ & _ & Hl & Hh & Hp & _). by exists uri, a, b.
Qed.

(** nothing is fetched of an origin that is not named *)
Lemma untrusted_is_not_read url document document' json json' trust size lifetime now id held : trusted url id trust = false ->
  read url document json trust size lifetime now id held = read url document' json' trust size lifetime now id held.
Proof. unfold read. by intros ->. Qed.

(** ** A shop that lets a client act for its customers *)
Module Shop.
Definition key (authority value : string) : string := authority +:+ "/" +:+ value.
Definition identify (authority identity client : string) : string := authority +:+ "/" +:+ identity +:+ "/" +:+ client.
Definition digest (verifier : string) : string := "sha256-" +:+ verifier.
Definition issue (now : Z) (id random : string) (ks : list Key) (input : IssueInput) : result string Issued * list Key :=
  Tokens.issue Tokens.Shop.sealed (fun _ => true) now 100 Tokens.Shop.keys id random [Tokens.mkEntry "bob" "app" None] ks input.
Definition describe (authority client redirect : string) : option bool :=
  if bool_decide (client = "c1") then Some (bool_decide (redirect = "https://client/cb")) else None.
Definition o : Options := mkOptions 60 3600.

Definition bob : Allowing := mkAllowing "shop" "bob" "c1" "https://client/cb" "sha256-secret" "S256" (Some ["app:orders"]) None.
Definition q (value : string) : Redeeming := mkRedeeming "shop" "authorization_code" (Some value) (Some "secret") (Some "https://client/cb") (Some "c1").

Notation acts_ := (acts key identify digest issue describe o) (only parsing).
Definition shown (w : option World) : option (list Stage) := option_map (fun w => snd <$> asked w) w.

(** a code is presented twice at once *)
Definition twice : list step := [Allows bob "v1"; Asks (q "v1"); Asks (q "v1"); Goes 0 "" ""; Goes 1 "" ""; Goes 0 "k1" "r"; Goes 0 "" ""].
Definition after_twice : World := match acts_ twice (start 0) with Some w => w | None => start 0 end.

Lemma twice_shown : shown (acts_ twice (start 0))
  = Some [Answered (Some (code_of bob)) (Ok (mkToken "h..iv.ct.tag" (Some 3600) (Some "app:orders")));
          Answered None (Throw ("invalid_grant", "The authorization code is not redeemable"))].
Proof. vm_compute. reflexivity. Qed.

Lemma code_is_redeemed_once_witness : (tally (redeemed key "shop/v1") (asked after_twice) <= tally (allowed key describe "shop/v1") twice)%nat.
Proof. apply (code_is_redeemed_once key identify digest issue describe o 0 twice after_twice "shop/v1"). vm_compute. reflexivity. Defined.


Definition redeems (i : nat) (value kid : string) : list step := [Allows bob value; Asks (q value); Goes i "" ""; Goes i kid "r"; Goes i "" ""].

(** a user who allows a client again holds one grant and has given two tokens: taking the grant back disables the key of the later,
    and the token that was issued before is good until it expires; the grant that was taken back is listed as the others are, and
    stays taken back when the client is allowed once more *)
Lemma earlier_token_outlives_grant :
  let w := acts_ (redeems 0 "v1" "k1" ++ redeems 1 "v2" "k2" ++ [Ticks 5; Revokes "shop" "bob" (identify "shop" "bob" "c1")]) (start 0) in
  option_map (fun w => (fun k => (k_id k, k_revokedAt k)) <$> keys_ w) w = Some [("k1", None); ("k2", Some 5)]
  /\ option_map (fun w => g_revokedAt <$> listed "shop" "bob" w) w = Some [Some 5]
  /\ option_map (fun w => g_revokedAt <$> listed "shop" "bob" w)
       (acts_ (redeems 0 "v1" "k1" ++ [Ticks 5; Revokes "shop" "bob" (identify "shop" "bob" "c1")] ++ redeems 1 "v2" "k2") (start 0)) = Some [Some 5].
Proof. vm_compute. done. Qed.

(** a grant that is taken back before its code is redeemed leaves the code *)
Lemma code_outlives_grant :
  shown (acts_ [Allows bob "v1"; Revokes "shop" "bob" (identify "shop" "bob" "c1"); Asks (q "v1"); Goes 0 "" ""; Goes 0 "k1" "r"; Goes 0 "" ""] (start 0))
    = Some [Answered (Some (code_of bob)) (Ok (mkToken "h..iv.ct.tag" (Some 3600) (Some "app:orders")))].
Proof. vm_compute. reflexivity. Qed.

(** the address that was sent to have a code need not be sent again to redeem it *)
Lemma redirect_may_be_left_out :
  shown (acts_ [Allows bob "v1"; Asks (mkRedeeming "shop" "authorization_code" (Some "v1") (Some "secret") None None); Goes 0 "" ""] (start 0))
    = Some [Issuing (code_of bob)].
Proof. vm_compute. reflexivity. Qed.

(** a wrong verifier spends the code *)
Lemma wrong_verifier_spends :
  let wrong := mkRedeeming "shop" "authorization_code" (Some "v1") (Some "guess") None None in
  shown (acts_ [Allows bob "v1"; Asks wrong; Goes 0 "" ""; Asks (q "v1"); Goes 1 "" ""] (start 0))
    = Some [Answered None (Throw ("invalid_grant", "The authorization code is not redeemable"));
            Answered None (Throw ("invalid_grant", "The authorization code is not redeemable"))].
Proof. vm_compute. reflexivity. Qed.

(** a platform that reads two addresses *)
Definition url (s : string) : option Url :=
  if bool_decide (s ∈ ["https://client.io"; "https://client.io/"]) then Some (mkUrl "https:" "client.io" "/" "" "" "https://client.io/" "https://client.io")
  else if bool_decide (s ∈ ["http://localhost/cb"; "http://localhost:5173/cb"]) then Some (mkUrl "http:" "localhost" "/cb" "" "" s s) else None.

(** what is registered is kept as the platform writes it, and what is asked for is compared as it was sent: the very address a
    client registered, of an origin without a path, is one it may not receive a code at *)
Lemma registered_redirect_is_refused :
  let m := mkMetadata (Some "Client") None None None ["https://client.io"; "http://localhost/cb"] in
  let '(c, es) := register url (fun _ _ => "c2") 0 60 "shop" None m ∅ in
  c = Ok (mkClient "c2" [("client_name", VString "Client")] ["https://client.io/"; "http://localhost/cb"])
  /\ (fun d => option_map snd (match fst d with Ok x => Some x | Throw _ => None end))
       (Grants.describe url (fun _ => None) (fun _ => None) [] 100 60 0 es "shop" "c2" (Some "https://client.io") ∅) = Some (Some false)
  /\ (fun d => option_map snd (match fst d with Ok x => Some x | Throw _ => None end))
       (Grants.describe url (fun _ => None) (fun _ => None) [] 100 60 0 es "shop" "c2" (Some "http://localhost:5173/cb") ∅) = Some (Some true).
Proof. vm_compute. done. Qed.
End Shop.
