(* ===== verification/Octets.v ===== *)
(** * Octets

    Bodies that are stored: [extensions/storages/source/] ([Scanner.ts], [Storage.ts], [providers/FileSystem.ts]), the component
    [exposition.octets] and [extensions/exposition/source/directives/octets/]: how a body is told by its first bytes, what of it
    is refused, where it is put, and the workflow that follows. What is acceptable, addresses and paths are resolved by the
    platform and libraries, which are arguments. *)
From stdpp Require Import strings gmap.
From S2P Require Import Prelude.

Open Scope Z_scope.

(** ** Bytes ([bytes.ts]) *)

Definition lower (c : ascii) : ascii :=
  let n := nat_of_ascii c in if ((65 <=? n) && (n <=? 90))%nat then ascii_of_nat (n + 32) else c.

Definition digit (c : ascii) : option Z :=
  let n := Z.of_nat (nat_of_ascii c) in if (48 <=? n) && (n <=? 57) then Some (n - 48) else None.

(** the digits a text begins with: the number they are, how many they are, and the rest *)
Fixpoint digits (acc : Z) (k : nat) (s : list ascii) : Z * nat * list ascii :=
  match s with
  | c :: r => match digit c with Some d => digits (acc * 10 + d) (S k) r | None => (acc, k, s) end
  | [] => (acc, k, [])
  end.

Definition POWERS : list (ascii * Z) := [("k"%char, 1); ("m"%char, 2); ("g"%char, 3); ("t"%char, 4)].

(** [toBytes]: a number of bytes, as a whole number and how many of its digits are after the point *)
Definition toBytes (input : string) : option (Z * nat) :=
  let '(whole, k, r) := digits 0 0 (chars input) in
  match k with
  | O => None
  | _ =>
      let '(m, f, r) := match r with
        | "."%char :: r' => let '(m, f, r'') := digits whole 0 r' in match f with O => (whole, O, r) | _ => (m, f, r'') end
        | _ => (whole, O, r)
        end in
      let '(power, r) := match r with
        | c :: r' => match list_find (fun p => fst p = lower c) POWERS with Some (_, (_, p)) => (p, r') | None => (0, r) end
        | [] => (0, [])
        end in
      let '(i, r) := match r with c :: r' => if bool_decide (lower c = "i"%char /\ power <> 0) then (true, r') else (false, r) | [] => (false, []) end in
      match r with
      | [] => Some (m * (if i then 1024 else 1000) ^ power, f)
      | [u] => if bool_decide (lower u = "b"%char) then Some (m * (if i || bool_decide (u = "b"%char) then 1024 else 1000) ^ power, f) else None
      | _ => None
      end
  end.

(** whether a size is past a limit *)
Definition past (size : nat) (limit : Z * nat) : bool := fst limit <? Z.of_nat size * 10 ^ Z.of_nat (snd limit).

(** ** What a body is ([Scanner.ts]) *)

(** hexadecimal digits; one that is not told is any *)
Notation Pattern := (list (option ascii)) (only parsing).

Record Signature := mkSignature { hex : list (option ascii); off : nat; s_type : string }.

Definition pattern_of (s : string) : list (option ascii) :=
  omap (fun c => if bool_decide (c = " "%char) then None else Some (if bool_decide (c = "?"%char) then None else Some c)) (chars s).

Definition SIGNATURES : list Signature :=
  [mkSignature (pattern_of "ff d8 ff e0") 0 "image/jpeg";
   mkSignature (pattern_of "ff d8 ff e1") 0 "image/jpeg";
   mkSignature (pattern_of "ff d8 ff e2") 0 "image/jpeg";
   mkSignature (pattern_of "ff d8 ff ee") 0 "image/jpeg";
   mkSignature (pattern_of "ff d8 ff db") 0 "image/jpeg";
   mkSignature (pattern_of "89 50 4e 47") 0 "image/png";
   mkSignature (pattern_of "47 49 46 38") 0 "image/gif";
   mkSignature (pattern_of "52 49 46 46 ?? ?? ?? ?? 57 45 42 50") 0 "image/webp";
   mkSignature (pattern_of "4a 58 4c 20 0d 0a 87 0a") 8 "image/jxl";
   mkSignature (pattern_of "66 74 79 70 68 65 69 63") 8 "image/heic";
   mkSignature (pattern_of "66 74 79 70 61 76 69 66") 8 "image/avif";
   mkSignature (pattern_of "52 49 46 46 ?? ?? ?? ?? 41 56 49 20") 0 "video/avi";
   mkSignature (pattern_of "52 49 46 46 ?? ?? ?? ?? 57 41 56 45") 0 "audio/wav"].

Definition HEADER_SIZE : nat := Nat.div2 (foldl (fun m s => Nat.max m (off s + length (hex s))) 0%nat SIGNATURES).

Definition KNOWN_TYPES : list string := s_type <$> SIGNATURES.

Definition nibble (n : N) : ascii := ascii_of_N (if (n <? 10)%N then 48 + n else 87 + n).
Definition hex_of (bytes : list N) : list ascii := flat_map (fun b => [nibble (b / 16); nibble (b mod 16)]) bytes.

Fixpoint fits (p : list (option ascii)) (s : list ascii) : bool :=
  match p, s with
  | [], [] => true
  | None :: p, _ :: s => fits p s
  | Some c :: p, d :: s => Ascii.eqb c d && fits p s
  | _, _ => false
  end.

Definition signed (header : list ascii) (s : Signature) : bool := fits (hex s) (take (length (hex s)) (drop (off s) header)).

Definition NOT_ACCEPTABLE : string := "NOT_ACCEPTABLE".
Definition TYPE_MISMATCH : string := "TYPE_MISMATCH".
Definition LIMIT_EXCEEDED : string := "LIMIT_EXCEEDED".
Definition OCTET_STREAM : string := "application/octet-stream".

Record ScanOptions := mkScan { claim : option string; accept : option string; limit : option (Z * nat) }.

Record Scanner := mkScanner {
  size : nat; type : string; error : option string; hashed : list N; position : nat; completed : bool; chunks : list N
}.

Definition scanner : Scanner := mkScanner 0 OCTET_STREAM None [] 0 false [].

Section scanning.
(** whether a type is one of those a header accepts *)
Context (acceptable : string -> string -> bool) (o : ScanOptions).

Definition interrupt (e : string) (s : Scanner) : Scanner := mkScanner (size s) (type s) (Some e) (hashed s) (position s) true (chunks s).

Definition match_ (t : string) (s : Scanner) : Scanner :=
  match accept o with Some a => if acceptable a t then s else interrupt NOT_ACCEPTABLE s | None => s end.

Definition verify (signature : option Signature) (s : Scanner) : Scanner :=
  match claim o with
  | None => s
  | Some c =>
      if bool_decide (c = OCTET_STREAM) then s
      else if match signature with None => bool_decide (c ∈ KNOWN_TYPES) | Some g => negb (bool_decide (c = s_type g)) end
      then interrupt TYPE_MISMATCH s else s
  end.

Definition complete (s : Scanner) : Scanner :=
  let header := hex_of (chunks s) in
  let signature := List.find (signed header) SIGNATURES in
  let s := match (match signature with Some g => Some (s_type g) | None => claim o end) with
    | Some t => let s := match_ t s in mkScanner (size s) t (error s) (hashed s) (position s) (completed s) (chunks s)
    | None => s
    end in
  let s := verify signature s in
  mkScanner (size s) (type s) (error s) (hashed s) (position s) true (chunks s).

(** [process] *)
Definition process (s : Scanner) (buffer : list N) : Scanner :=
  let s := mkScanner (size s + length buffer) (type s) (error s) (hashed s ++ buffer) (position s) (completed s) (chunks s) in
  if completed s then s
  else
    let buffer := if (HEADER_SIZE <? position s + length buffer)%nat then take (HEADER_SIZE - position s) buffer else buffer in
    let s := mkScanner (size s) (type s) (error s) (hashed s) (position s + length buffer) (completed s) (chunks s ++ buffer) in
    let s := if (position s =? HEADER_SIZE)%nat then complete s else s in
    match limit o with Some l => if past (size s) l then interrupt LIMIT_EXCEEDED s else s | None => s end.

Definition flush (s : Scanner) : Scanner := if completed s then s else complete s.

(** a body that arrives in chunks, until it is refused *)
Fixpoint transform (s : Scanner) (body : list (list N)) : Scanner :=
  match body with
  | [] => match error s with Some _ => s | None => flush s end
  | b :: body => match error s with Some _ => s | None => transform (process s b) body end
  end.

Definition scan (body : list (list N)) : Scanner := transform scanner body.

(** what comes of a body: its type, its size and the bytes its checksum is of, unless it is refused *)
Definition outcome (s : Scanner) : result string (string * nat * list N) :=
  match error s with Some e => Throw e | None => Ok (type s, size s, hashed s) end.
End scanning.

(** ** A body is judged by how it begins, however it arrives *)

#[local] Opaque SIGNATURES KNOWN_TYPES.

Section judged.
Context (acceptable : string -> string -> bool) (o : ScanOptions).

(** what a body that begins so is: its type, and what it is refused for *)
Definition judge (header : list N) : string * option string :=
  let s := complete acceptable o (mkScanner 0 OCTET_STREAM None [] 0 false header) in (type s, error s).

Lemma complete_judges s : error s = None -> type s = OCTET_STREAM ->
  let c := complete acceptable o s in
  type c = fst (judge (chunks s)) /\ error c = snd (judge (chunks s)) /\ size c = size s /\ hashed c = hashed s /\ completed c = true.
Proof.
  intros He Ht. unfold judge, complete. cbn [chunks]. set (g := List.find _ _). clearbody g.
  unfold match_, verify. destruct g as [g|]; destruct (claim o) as [c|]; destruct (accept o) as [a|];
    try destruct (acceptable a _); try destruct (bool_decide (c = OCTET_STREAM)); try destruct (negb (bool_decide (c = s_type g)));
    try destruct (bool_decide (c ∈ KNOWN_TYPES)); cbn; rewrite ?He, ?Ht; repeat split.
Qed.

(** a scanner that has read a body and has not been interrupted *)
Definition reading (s : Scanner) (body : list N) : Prop :=
  hashed s = body /\ size s = length body
  /\ if (HEADER_SIZE <=? length body)%nat
     then completed s = true /\ type s = fst (judge (take HEADER_SIZE body)) /\ error s = snd (judge (take HEADER_SIZE body))
     else completed s = false /\ type s = OCTET_STREAM /\ error s = None /\ chunks s = body /\ position s = length body.

Lemma reading_process s body b : limit o = None -> reading s body -> error s = None -> reading (process acceptable o s b) (body ++ b).
Proof.
  intros Hl (Hh & Hz & Hc) He. unfold process. rewrite Hl. cbn [completed]. unfold reading. rewrite !length_app.
  destruct (Nat.leb_spec HEADER_SIZE (length body)) as [Hle|Hlt].
  - destruct Hc as (Hc & Ht & Hr). rewrite Hc. cbn [size type error hashed position completed chunks]. rewrite Hh, Hz. do 2 (split; [done|]).
    rewrite (proj2 (Nat.leb_le _ _)) by lia. rewrite take_app_le by lia. exact (conj eq_refl (conj Ht Hr)).
  - destruct Hc as (Hc & Ht & Hr & Hk & Hp). rewrite Hc. cbn [position chunks size type error hashed completed].
    set (b' := if (HEADER_SIZE <? position s + length b)%nat then take (HEADER_SIZE - position s) b else b).
    assert (Hb' : chunks s ++ b' = take HEADER_SIZE (body ++ b) /\ (position s + length b' = Nat.min HEADER_SIZE (length body + length b))%nat).
    { unfold b'. rewrite Hk, Hp. destruct (Nat.ltb_spec HEADER_SIZE (length body + length b)).
      - rewrite length_take, take_app_ge by lia. split; [done | lia].
      - rewrite take_ge by (rewrite length_app; lia). split; [done | lia]. }
    destruct Hb' as [Hb1 Hb2]. rewrite Hb2, Hb1.
    destruct (Nat.leb_spec HEADER_SIZE (length body + length b)) as [Hge|Hls].
    + rewrite Nat.min_l by lia. rewrite Nat.eqb_refl.
      destruct (complete_judges (mkScanner (size s + length b) (type s) (error s) (hashed s ++ b) HEADER_SIZE false (take HEADER_SIZE (body ++ b))) Hr Ht)
        as (H1 & H2 & H3 & H4 & H5). cbn [size hashed chunks] in *. split; [by rewrite H4, Hh|]. split; [by rewrite H3, Hz|]. exact (conj H5 (conj H1 H2)).
    + rewrite Nat.min_r by lia. rewrite (proj2 (Nat.eqb_neq _ _)) by lia. cbn [size hashed chunks completed type error position].
      rewrite Hz, Hh. rewrite take_ge by (rewrite length_app; lia). by repeat split.
Qed.

(** C35: a body is what it begins with, however it arrives: whatever chunks it is cut into, a body without a limit is refused for
    the reason its first bytes are refused for, and is otherwise of the type they tell, with its whole size and its whole
    checksum; a body that is shorter than a signature is judged as it is. *)
Theorem scanning_is_of_the_body body : limit o = None ->
  outcome (scan acceptable o body)
  = match judge (take HEADER_SIZE (concat body)) with
    | (_, Some e) => Throw e
    | (t, None) => Ok (t, length (concat body), concat body)
    end.
Proof.
  intros Hl. unfold scan. assert (Hg : forall body s read, reading s read ->
    outcome (transform acceptable o s body)
    = match judge (take HEADER_SIZE (read ++ concat body)) with (_, Some e) => Throw e | (t, None) => Ok (t, length (read ++ concat body), read ++ concat body) end).
  { clear body. induction body as [|b body IH]; intros s read Hr; cbn [transform concat].
    - rewrite app_nil_r. destruct Hr as (Hh & Hz & Hc). destruct (Nat.leb_spec HEADER_SIZE (length read)) as [Hle|Hlt].
      + destruct Hc as (Hc & Ht & He). destruct (judge (take HEADER_SIZE read)) as [t [e|]]; cbn in *; unfold outcome; rewrite He; [by rewrite He|].
        unfold flush. rewrite Hc, He, Ht, Hz, Hh. done.
      + destruct Hc as (Hc & Ht & He & Hk & Hp). rewrite He. unfold flush. rewrite Hc. rewrite take_ge by lia.
        destruct (complete_judges s He Ht) as (H1 & H2 & H3 & H4 & _). unfold outcome. rewrite H1, H2, H3, H4, Hk, Hh, Hz.
        by destruct (judge read) as [t [e|]].
    - destruct (error s) as [e|] eqn:He.
      + destruct Hr as (Hh & Hz & Hc). destruct (Nat.leb_spec HEADER_SIZE (length read)) as [Hle|Hlt]; [|destruct Hc as (_ & _ & Hn & _); congruence].
        destruct Hc as (Hc & Ht & Hj). rewrite take_app_le by lia. destruct (judge (take HEADER_SIZE read)) as [t j]. cbn in Hj. rewrite <- Hj. unfold outcome. by rewrite He.
      + rewrite (IH _ (read ++ b)) by (by apply reading_process). by rewrite app_assoc. }
  apply (Hg body scanner []). repeat split.
Qed.
End judged.

#[local] Transparent SIGNATURES KNOWN_TYPES.

(** ** Where bodies are kept ([Storage.ts], [providers/FileSystem.ts]) *)

Record Metadata := mkMetadata { m_id : string; m_size : nat; m_type : string; m_checksum : list N; created : Z; attributes : list (string * string) }.

(** what is under a location: the bytes, and what is said of them *)
Record Files := mkFiles { blobs : gmap string (list N); metas : gmap string Metadata }.

Definition NOT_FOUND : string := "NOT_FOUND".

Record PutOptions := mkPut { p_id : option string; origin : option string; p_attributes : list (string * string); scan_ : ScanOptions }.

Section storage.
Context (acceptable : string -> string -> bool) (join : string -> string -> string).

(** [put]: a file is written as its body arrives; of one that is refused, as much is written as has been passed on, and nothing
    is said of it. The checksum is of the bytes it is computed of *)
Definition put (now : Z) (random : string) (passed : nat) (path : string) (body : list (list N)) (o : PutOptions) (f : Files) :
    result string Metadata * Files :=
  let id := default random (p_id o) in
  let location := join path id in
  match outcome (scan acceptable (scan_ o) body) with
  | Throw e => (Throw e, mkFiles (<[location := take passed (concat body)]> (blobs f)) (metas f))
  | Ok (t, n, bytes) =>
      let m := mkMetadata id n t bytes now (match origin o with Some u => assign "origin" u (p_attributes o) | None => p_attributes o end) in
      (Ok m, mkFiles (<[location := bytes]> (blobs f)) (<[location := m]> (metas f)))
  end.

Definition head (location : string) (f : Files) : result string Metadata :=
  match metas f !! location with Some m => Ok m | None => Throw NOT_FOUND end.

Definition get (location : string) (f : Files) : result string (list N * Metadata) :=
  m ← head location f; Ok (default [] (blobs f !! location), m).

Definition delete_ (location : string) (f : Files) : Files := mkFiles (delete location (blobs f)) (delete location (metas f)).

(** [move] *)
Definition move (from to : string) (f : Files) : result string unit * Files :=
  match blobs f !! from, metas f !! from with
  | Some b, Some m => (Ok tt, mkFiles (<[to := b]> (delete from (blobs f))) (<[to := m]> (delete from (metas f))))
  | _, _ => (Throw NOT_FOUND, f)
  end.

(** ** What a request stores ([operations/put.js] of [exposition.octets]) *)

Definition is_id (c : ascii) : bool :=
  let n := nat_of_ascii c in
  ((48 <=? n) && (n <=? 57) || (65 <=? n) && (n <=? 90) || (97 <=? n) && (n <=? 122) || (n =? 95) || (n =? 45))%nat.

Definition valid_id (id : string) : bool := forallb is_id (chars id) && (1 <=? String.length id)%nat && (String.length id <=? 32)%nat.

Definition INVALID_ID : string := "INVALID_ID".
Definition LOCATION_LENGTH : string := "LOCATION_LENGTH".
Definition LOCATION_UNTRUSTED : string := "LOCATION_UNTRUSTED".
Definition LOCATION_UNAVAILABLE : string := "LOCATION_UNAVAILABLE".

Inductive Permission := Origin (o : string) | Matching (test : string -> bool).

Context (origin_of : string -> option string) (download : string -> option (list (list N))) (trim : string -> string).

Definition trusted (reference : string) (trust : option (list Permission)) : bool :=
  match trust with
  | None => false
  | Some ps =>
      match origin_of reference with
      | Some u => existsb (fun p => match p with Origin o => bool_decide (u = o) | Matching test => test u end) ps
      | None => false
      end
  end.

(** the parts of a pair: what is before the first [=], and what is after it *)
Fixpoint cut (s : list ascii) : list ascii * option (list ascii) :=
  match s with
  | [] => ([], None)
  | c :: r => if Ascii.eqb c "=" then ([], Some r) else let '(a, b) := cut r in (c :: a, b)
  end.

Definition parseAttributes (values : option string) : list (string * string) :=
  match values with
  | None => []
  | Some v => foldl (fun attributes pair => let '(k, x) := cut (chars pair) in
      assign (trim (of_chars k)) (match x with Some x => trim (of_chars x) | None => "true" end) attributes) [] (split ","%char v)
  end.

Record StoreRequest := mkStore {
  content_id : option string; content_type : option string; content_attributes : option string; content_location : option string;
  content_length : option Z; s_body : list (list N); s_accept : option string; s_limit : option (Z * nat); s_trust : option (list Permission)
}.

(** the body that is stored, and where it is from *)
Definition sourced (r : StoreRequest) : result string (list (list N) * option string) :=
  match content_location r with
  | None => Ok (s_body r, None)
  | Some reference =>
      if negb (bool_decide (content_length r = Some 0)) then Throw LOCATION_LENGTH
      else if negb (trusted reference (s_trust r)) then Throw LOCATION_UNTRUSTED
      else match download reference with Some b => Ok (b, Some reference) | None => Throw LOCATION_UNAVAILABLE end
  end.

(** [path] is the request path and the location of the directive, resolved *)
Definition store (now : Z) (random : string) (passed : nat) (path : string) (r : StoreRequest) (f : Files) : result string Metadata * Files :=
  if match content_id r with Some id => negb (valid_id id) | None => false end then (Throw INVALID_ID, f)
  else
    match sourced r with
    | Throw e => (Throw e, f)
    | Ok (body, reference) =>
        put now random passed path body
          (mkPut (content_id r) reference (parseAttributes (content_attributes r)) (mkScan (content_type r) (s_accept r) (s_limit r))) f
    end.
End storage.

(** ** Directives ([octets/]) *)

(** what a method states: a storage, or an action on a file or on a directory *)
Inductive Action := Put | Get (meta : bool) | Delete (workflow : bool) | Workflow.
Inductive Directive := Context_ (storage : string) | Does (a : Action).

Definition targeted (a : Action) : bool := match a with Put => false | _ => true end.

Inductive failure := NotFound (message : option string) | Forbidden (message : string) | UnsupportedMediaType | BadRequest (message : option string)
  | RequestEntityTooLarge | Misstated (message : string) | Coded (code : string).

Fixpoint stated (ds : list Directive) (storage : option string) (action : option Action) : result failure (option string * option Action) :=
  match ds with
  | [] => Ok (storage, action)
  | Context_ s :: ds => stated ds (match storage with Some _ => storage | None => Some s end) action
  | Does a :: ds => match action with None => stated ds storage (Some a) | Some _ => Throw (Misstated "Octets action is ambiguous") end
  end.

(** [precall]: the action a request is for, if one is stated *)
Definition precall (ds : list Directive) (url : string) : result failure (option (string * Action)) :=
  x ← stated ds None None;
  match x with
  | (_, None) => Ok None
  | (None, Some _) => Throw (Misstated "Octets context is not defined")
  | (Some storage, Some a) =>
      let file := negb (bool_decide (last (chars url) = Some "/"%char)) in
      if Bool.eqb file (targeted a) then Ok (Some (storage, a))
      else Throw (NotFound (Some ("Trailing slash is " +:+ (if targeted a then "redundant" else "required"))))
  end.

(** [throw] of [Put.ts] *)
Definition throw (code : string) : failure :=
  if bool_decide (code = NOT_ACCEPTABLE) then UnsupportedMediaType
  else if bool_decide (code = TYPE_MISMATCH) then BadRequest None
  else if bool_decide (code = LIMIT_EXCEEDED) then RequestEntityTooLarge
  else if bool_decide (code = LOCATION_UNTRUSTED) then Forbidden code
  else if bool_decide (code = LOCATION_LENGTH) then BadRequest (Some code)
  else if bool_decide (code = LOCATION_UNAVAILABLE) then NotFound (Some code)
  else if bool_decide (code = INVALID_ID) then BadRequest (Some code)
  else Coded code.

(** what is answered of a file: a status alone, what is said of it, or its bytes *)
Inductive Output := Status (n : Z) | Meta (m : Metadata) | Bytes (m : Metadata) (bytes : option (list N)).

(** [apply] of [Get.ts] *)
Definition read (meta : bool) (entry : bool) (if_none_match : option string) (method : string) (location : string) (f : Files) : result failure Output :=
  if entry then
    if meta then match head location f with Ok m => Ok (Meta m) | Throw _ => Throw (NotFound None) end else Throw (Forbidden "Metadata is not accessible")
  else
    match if_none_match with
    | Some _ => Ok (Status 304)
    | None =>
        match (if bool_decide (method = "GET") then x ← get location f; Ok (Bytes (snd x) (Some (fst x))) else m ← head location f; Ok (Bytes m None)) with
        | Ok x => Ok x
        | Throw _ => Throw (NotFound None)
        end
    end.

(** ** Workflows ([workflows/Execution.ts]) *)

(** a unit is steps that are called at once, by name, with what each calls *)
Notation Unit_ := (list (string * string)) (only parsing).

Inductive Status_ := Completed | Exception.

Record Report := mkReport { step : string; status : option Status_; output : option value; r_error : option value }.

(** what a call answers: a stream, a value, an error that is answered, or an exception *)
Inductive Result := Streams | Value (v : option value) | Error (v : value) | Throws.

Inductive Phase := Calling | Streaming.

Record Execution := mkExecution {
  ahead : list (list (string * string));
  running : list (string * Phase);
  steps : list (string * value);
  out : list Report;
  interrupted : bool; destroyed : bool; ended : bool;
  (** the steps that were called, in their order *)
  called : list (string * string)
}.

(** the next unit, or the end *)
Fixpoint run_units (us : list (list (string * string))) (e : Execution) : Execution :=
  match us with
  | [] => mkExecution [] [] (steps e) (out e) (interrupted e) (destroyed e) (ended e || negb (destroyed e)) (called e)
  | [] :: us =>
      if interrupted e then mkExecution us [] (steps e) (out e) true (destroyed e) (ended e || negb (destroyed e)) (called e) else run_units us e
  | u :: us => mkExecution us ((fun p => (fst p, Calling)) <$> u) (steps e) (out e) (interrupted e) (destroyed e) (ended e) (called e ++ u)
  end.

(** once no step of a unit is running: an interrupted execution ends, and another goes on *)
Definition settle (e : Execution) : Execution :=
  match running e with
  | [] => if interrupted e then mkExecution (ahead e) [] (steps e) (out e) true (destroyed e) (ended e || negb (destroyed e)) (called e)
          else run_units (ahead e) e
  | _ => e
  end.

Definition start (units : list (list (string * string))) : Execution := run_units units (mkExecution [] [] [] [] false false false []).

Definition report (s : string) (r : Result) (completed : bool) (e : Execution) : Execution :=
  if destroyed e then e
  else
    let st := if completed then Some Completed else None in
    match r with
    | Error v => mkExecution (ahead e) (running e) (steps e) (out e ++ [mkReport s st None (Some v)]) true (destroyed e) (ended e) (called e)
    | Value (Some v) =>
        mkExecution (ahead e) (running e) (assign s v (steps e)) (out e ++ [mkReport s st (Some v) None]) (interrupted e) (destroyed e) (ended e) (called e)
    | _ => mkExecution (ahead e) (running e) (steps e) (out e ++ [mkReport s st None None]) (interrupted e) (destroyed e) (ended e) (called e)
    end.

Definition exception (s : string) (e : Execution) : Execution :=
  if destroyed e then e
  else mkExecution (ahead e) (running e) (steps e) (out e ++ [mkReport s (Some Exception) None None]) true (destroyed e) (ended e) (called e).

Definition with_running (r : list (string * Phase)) (e : Execution) : Execution :=
  mkExecution (ahead e) r (steps e) (out e) (interrupted e) (destroyed e) (ended e) (called e).

Inductive event :=
(** the call of a step answers *)
| Answers (i : nat) (r : Result)
(** the stream a step answered has a part, which may be an error; it ends, or it fails *)
| Part (i : nat) (r : Result)
| Ends (i : nat)
| Fails (i : nat)
(** nobody reads the reports any more *)
| Destroyed.

Definition act (x : event) (e : Execution) : option Execution :=
  match x with
  | Answers i r =>
      match running e !! i with
      | Some (s, Calling) =>
          let gone := with_running (take i (running e) ++ drop (S i) (running e)) e in
          Some (match r with
                | Streams => with_running (<[i := (s, Streaming)]> (running e)) e
                | Throws => settle (exception s gone)
                | r => settle (report s r true gone)
                end)
      | _ => None
      end
  | Part i r =>
      match running e !! i, r with
      | Some (s, Streaming), (Value _ | Error _) => Some (report s r false e)
      | _, _ => None
      end
  | Ends i =>
      match running e !! i with
      | Some (s, Streaming) => Some (settle (report s (Value None) true (with_running (take i (running e) ++ drop (S i) (running e)) e)))
      | _ => None
      end
  | Fails i =>
      match running e !! i with
      | Some (s, Streaming) => Some (settle (exception s (with_running (take i (running e) ++ drop (S i) (running e)) e)))
      | _ => None
      end
  | Destroyed => Some (mkExecution (ahead e) (running e) (steps e) (out e) true true (ended e) (called e))
  end.

(** what tells [Delete.ts] that the file stays *)
Definition failed (r : Report) : bool := bool_decide (is_Some (r_error r)) || match status r with Some Exception => true | _ => false end.

(** [execute] of [Delete.ts]: the file is deleted once the reports have ended, if none of them failed *)
Definition deleted (e : Execution) : bool := ended e && negb (existsb failed (out e)).

(** what a deletion answers, and the storage then, where no workflow is stated *)
Definition remove (location : string) (f : Files) : Output * Files := (Status 204, delete_ location f).

(** ** What is deleted was gone through *)

Definition done_ (l : list Report) (s : string) : Prop := exists r, r ∈ l /\ step r = s /\ status r = Some Completed /\ r_error r = None.

Lemma done_more l l' s : done_ l s -> done_ (l ++ l') s.
Proof. intros (r & Hr & H). exists r. split; [apply elem_of_app; by left | done]. Qed.

Lemma failed_app l l' : existsb failed (l ++ l') = existsb failed l || existsb failed l'.
Proof. apply existsb_app. Qed.

(** an execution nobody interrupted: what was called of its units is running or done *)
Definition live (units : list (list (string * string))) (e : Execution) : Prop :=
  interrupted e = false /\ destroyed e = false /\ existsb failed (out e) = false
  /\ exists before, units = before ++ ahead e /\ called e = concat before
  /\ (forall p, p ∈ concat before -> fst p ∈ fst <$> running e \/ done_ (out e) (fst p))
  /\ (ended e = true -> running e = [] /\ ahead e = []) /\ (running e = [] -> ended e = true).

(** one that was: something failed, or nobody reads it *)
Definition cut_short (e : Execution) : Prop := interrupted e = true /\ (destroyed e = true \/ existsb failed (out e) = true).

Lemma run_units_live units us e before : interrupted e = false -> destroyed e = false -> existsb failed (out e) = false -> ended e = false ->
  units = before ++ us -> called e = concat before -> (forall p, p ∈ concat before -> done_ (out e) (fst p)) -> live units (run_units us e).
Proof.
  intros Hi Hd Hf He. revert before. induction us as [|[|p u] us IH]; intros before Hu Hc Hdone; cbn [run_units].
  - split; [done|]. split; [done|]. split; [done|]. exists before. cbn [ahead running called out ended]. rewrite He, Hd.
    split; [done|]. split; [done|]. split; [intros p Hp; right; auto|]. by split.
  - rewrite Hi. apply (IH (before ++ [[]])); [by rewrite <- app_assoc | |]; rewrite concat_app; cbn; by rewrite ?app_nil_r.
  - split; [done|]. split; [done|]. split; [done|]. exists (before ++ [p :: u]). cbn [ahead called running out ended].
    split; [by rewrite <- app_assoc|]. split; [rewrite concat_app; cbn; by rewrite app_nil_r, Hc|]. split; [|split; [by rewrite He | done]].
    intros q Hq. rewrite concat_app in Hq. apply elem_of_app in Hq as [Hq|Hq]; [right; auto|]. left. cbn [concat] in Hq. rewrite app_nil_r in Hq.
    rewrite <- list_fmap_compose. apply list_elem_of_fmap. by exists q.
Qed.

(** a step that ran is taken out of what runs *)
Lemma without_running (r : list (string * Phase)) i s ph t : r !! i = Some (s, ph) -> t ∈ fst <$> r -> t = s \/ t ∈ fst <$> (take i r ++ drop (S i) r).
Proof.
  intros Hi Ht. rewrite <- (take_drop_middle r i (s, ph) Hi) in Ht. rewrite fmap_app, fmap_cons in Ht. rewrite fmap_app.
  apply elem_of_app in Ht as [Ht|Ht]; [right; apply elem_of_app; by left|]. apply elem_of_cons in Ht as [->|Ht]; [by left | right; apply elem_of_app; by right].
Qed.

(** a step that reported it completed, and no longer runs *)
Lemma settle_live units e i s ph rep : live units e -> running e !! i = Some (s, ph) -> step rep = s -> status rep = Some Completed -> r_error rep = None ->
  forall e', running e' = take i (running e) ++ drop (S i) (running e) -> out e' = out e ++ [rep] -> interrupted e' = false -> destroyed e' = false ->
  ended e' = ended e -> ahead e' = ahead e -> called e' = called e -> live units (settle e').
Proof.
  intros (Hi & Hd & Hf & before & Hu & Hc & Hall & Hend & Hrun) Hs Hrs Hst Hre e' Er Eo Ei Ed Ee Ea Ec.
  assert (Hrep : failed rep = false) by (unfold failed; by rewrite Hre, Hst).
  assert (Hf' : existsb failed (out e') = false) by (rewrite Eo, failed_app, Hf; cbn; by rewrite Hrep).
  assert (Hne : ended e = false) by (destruct (ended e); [destruct Hend as [Hr _]; [done|]; by rewrite Hr in Hs | done]).
  assert (Hdone : done_ (out e') s) by (rewrite Eo; exists rep; split; [apply elem_of_app; right; by left | done]).
  assert (Hstep : forall p, p ∈ concat before -> fst p ∈ fst <$> running e' \/ done_ (out e') (fst p)).
  { intros p Hp. destruct (Hall p Hp) as [Hr|Hr]; [|right; rewrite Eo; by apply done_more].
    destruct (without_running _ _ _ _ _ Hs Hr) as [->|Hr']; [by right | left; by rewrite Er]. }
  unfold settle. destruct (running e') as [|x rs] eqn:Erun.
  - rewrite Ei. apply (run_units_live units (ahead e') e' before); try done; [by rewrite Ee | by rewrite Ea | by rewrite Ec|].
    intros p Hp. destruct (Hstep p Hp) as [Hn|Hr]; [by apply not_elem_of_nil in Hn | done].
  - split; [done|]. split; [done|]. split; [done|]. exists before. rewrite Ea, Ec, Ee, Erun, Hne. repeat split; try done.
Qed.

Lemma settle_cut e : cut_short e -> cut_short (settle e) /\ out (settle e) = out e.
Proof. intros (Hi & H). unfold settle. destruct (running e); [|done]. rewrite Hi. by repeat split. Qed.

Lemma report_cut s r c e : cut_short e -> cut_short (report s r c e) /\ exists l, out (report s r c e) = out e ++ l.
Proof.
  intros (Hi & H). unfold report. destruct (destroyed e) eqn:Hd; [split; [by split; [|left] | exists []; by rewrite app_nil_r]|].
  destruct H as [H|H]; [congruence|]. destruct r as [|[v|]|v|]; (split; [split; [done|]; right; cbn [out]; by rewrite failed_app, H | by eexists]).
Qed.

Lemma exception_cut s e : (destroyed e = true -> interrupted e = true) -> cut_short (exception s e) /\ exists l, out (exception s e) = out e ++ l.
Proof.
  intros H. unfold exception. destruct (destroyed e) eqn:Hd; [split; [by split; [apply H | left] | exists []; by rewrite app_nil_r]|].
  split; [split; [done|]; right; cbn [out]; rewrite failed_app; cbn; by rewrite orb_true_r | by eexists].
Qed.

Lemma run_units_out us e : out (run_units us e) = out e.
Proof. induction us as [|[|p u] us IH]; cbn [run_units]; [done | by destruct (interrupted e) | done]. Qed.

Lemma settle_out e : out (settle e) = out e.
Proof. unfold settle. destruct (running e); [|done]. destruct (interrupted e); [done | apply run_units_out]. Qed.

(** what a report and an exception are, where somebody reads them *)
Lemma report_out s r c e : destroyed e = false -> exists rep, out (report s r c e) = out e ++ [rep] /\ step rep = s
  /\ status rep = (if c then Some Completed else None) /\ r_error rep = match r with Error v => Some v | _ => None end.
Proof. intros Hd. unfold report. rewrite Hd. destruct r as [|[v|]|v|]; by eexists. Qed.

(** an execution that goes on, reported or not *)
Lemma live_report units s r e : live units e -> match r with Error _ => False | _ => True end -> live units (report s r false e).
Proof.
  intros (Hi & Hd & Hf & before & Hu & Hc & Hall & Hend) Hr. destruct (report_out s r false e Hd) as (rep & Ho & _ & Hst & He).
  assert (Hrep : failed rep = false) by (unfold failed; rewrite Hst, He; by destruct r).
  unfold live. rewrite Ho, failed_app, Hf. cbn [existsb]. rewrite Hrep.
  assert (Hk : let w := report s r false e in interrupted w = false /\ destroyed w = false /\ ahead w = ahead e /\ called w = called e /\ running w = running e /\ ended w = ended e)
    by (unfold report; rewrite Hd; destruct r as [|[v|]|v|]; done).
  destruct Hk as (-> & -> & -> & -> & -> & ->). repeat split; try done. exists before. repeat split; try apply Hend; try done.
  intros p Hp. destruct (Hall p Hp); [by left | right; by apply done_more].
Qed.

(** a step that completes *)
Lemma live_completes units e i s ph r : live units e -> running e !! i = Some (s, ph) -> match r with Error _ => False | _ => True end ->
  live units (settle (report s r true (with_running (take i (running e) ++ drop (S i) (running e)) e))).
Proof.
  intros H E Hr. pose proof H as (Hi & Hd & Hf & _). set (gone := with_running _ e).
  destruct (report_out s r true gone Hd) as (rep & Ho & Hrs & Hst & He).
  assert (Hk : let w := report s r true gone in interrupted w = false /\ destroyed w = false /\ ahead w = ahead e /\ called w = called e
    /\ running w = take i (running e) ++ drop (S i) (running e) /\ ended w = ended e)
    by (unfold report, gone; cbn [destroyed with_running]; rewrite Hd; destruct r as [|[v|]|v|]; done).
  destruct Hk as (H1 & H2 & H3 & H4 & H5 & H6). apply (settle_live units e i s ph rep); try done. rewrite He. by destruct r.
Qed.

(** one that answers a stream *)
Lemma live_streams units e i s : live units e -> running e !! i = Some (s, Calling) -> live units (with_running (<[i := (s, Streaming)]> (running e)) e).
Proof.
  intros (Hi & Hd & Hf & before & Hu & Hc & Hall & Hend & Hrun) E. do 3 (split; [done|]). exists before. cbn [ahead called running out ended with_running].
  split; [done|]. split; [done|]. split; [|split].
  - intros p Hp. destruct (Hall p Hp) as [Hr|Hr]; [left | by right]. rewrite list_fmap_insert. cbn. rewrite list_insert_id; [done|]. by rewrite list_lookup_fmap, E.
  - intros He. destruct (Hend He) as [Hr _]. by rewrite Hr in E.
  - intros Hr. apply (f_equal length) in Hr. rewrite length_insert in Hr. apply lookup_lt_Some in E. cbn in Hr. lia.
Qed.

Lemma cut_error s v c e : (destroyed e = true -> interrupted e = true) -> cut_short (report s (Error v) c e).
Proof.
  intros H. unfold report. destruct (destroyed e) eqn:Hd; [split; [by apply H | by left]|]. split; [done|]. right. cbn [out]. rewrite failed_app. cbn. by rewrite orb_true_r.
Qed.

(** what a step gives is a report more, or it is none *)
Lemma act_out x e e' : act x e = Some e' -> exists l, out e' = out e ++ l.
Proof.
  assert (Hr : forall s r c w, out w = out e -> exists l, out (report s r c w) = out e ++ l).
  { intros s r c w Hw. unfold report. destruct (destroyed w); [exists []; by rewrite app_nil_r|]. destruct r as [|[v|]|v|]; cbn [out]; rewrite Hw; by eexists. }
  assert (Hx : forall s w, out w = out e -> exists l, out (exception s w) = out e ++ l).
  { intros s w Hw. unfold exception. destruct (destroyed w); [exists []; by rewrite app_nil_r|]. cbn [out]. rewrite Hw. by eexists. }
  destruct x as [i r|i r|i|i|]; cbn [act]; repeat case_match; intros Hact; simplify_eq; rewrite ?settle_out; try (by apply Hr); try (by apply Hx); exists []; by rewrite app_nil_r.
Qed.

(** an execution is live, or something cut it short *)
Lemma act_live units x e e' : live units e \/ cut_short e -> act x e = Some e' -> live units e' \/ cut_short e'.
Proof.
  intros H Ha. assert (Hdi : destroyed e = true -> interrupted e = true) by (destruct H as [(_ & Hd & _)|(Hi & _)]; [by rewrite Hd | done]).
  assert (Hcut : cut_short e -> forall r, cut_short (with_running r e)) by done.
  destruct x as [i r|i r|i|i|]; cbn [act] in Ha.
  - destruct (running e !! i) as [[s [|]]|] eqn:E; [|done|done]. destruct r as [|v|v|]; injection Ha as <-.
    + destruct H as [H|H]; [left; by apply live_streams | by right].
    + destruct H as [H|H]; [left; by apply (live_completes _ _ _ _ _ (Value v) H E) | right; by apply settle_cut, report_cut].
    + right. by apply settle_cut, cut_error.
    + right. by apply settle_cut, exception_cut.
  - destruct (running e !! i) as [[s [|]]|] eqn:E; [done| |done]. destruct r as [|v|v|]; [done| | |done]; injection Ha as <-.
    + destruct H as [H|H]; [left; by apply live_report | right; by apply report_cut].
    + right. by apply cut_error.
  - destruct (running e !! i) as [[s [|]]|] eqn:E; [done| |done]. injection Ha as <-.
    destruct H as [H|H]; [left; by apply (live_completes _ _ _ _ _ (Value None) H E) | right; by apply settle_cut, report_cut].
  - destruct (running e !! i) as [[s [|]]|] eqn:E; [done| |done]. injection Ha as <-. right. by apply settle_cut, exception_cut.
  - injection Ha as <-. right. split; [done | by left].
Qed.

Lemma run_units_ends us e : ended (run_units us e) = true -> ended e = true \/ destroyed (run_units us e) = false.
Proof.
  induction us as [|[|p u] us IH]; cbn [run_units]; [|destruct (interrupted e); [|done]|by left]; cbn [ended destroyed];
    (intros [H|H]%orb_true_iff; [by left | right; by apply negb_true_iff]).
Qed.

Lemma settle_ends e : ended (settle e) = true -> ended e = true \/ destroyed (settle e) = false.
Proof.
  unfold settle. destruct (running e); [|by left]. destruct (interrupted e); [|apply run_units_ends]. cbn [ended destroyed].
  intros [H|H]%orb_true_iff; [by left | right; by apply negb_true_iff].
Qed.

Lemma act_ends x e e' : act x e = Some e' -> ended e' = true -> ended e = true \/ destroyed e' = false.
Proof.
  assert (Hr : forall s r c w, ended (report s r c w) = ended w) by (intros; unfold report; destruct (destroyed w); [done|]; destruct r as [|[v|]|v|]; done).
  assert (Hx : forall s w, ended (exception s w) = ended w) by (intros; unfold exception; by destruct (destroyed w)).
  destruct x as [i r|i r|i|i|]; cbn [act]; repeat case_match; intros Hact; simplify_eq; intros He;
    first [apply settle_ends in He as [He|He]; [left | by right] | left]; rewrite ?Hr, ?Hx in He; done.
Qed.

Lemma start_live units : live units (start units).
Proof. apply (run_units_live units units _ []); try done. intros p Hp. by apply not_elem_of_nil in Hp. Qed.

(** C36: a file is deleted once it was gone through: whatever order the steps of a workflow answer, stream, end and fail in, and
    whenever its reader leaves, a deletion that follows the workflow takes the file only if every step of every unit reported
    that it completed, and none an error or an exception. *)
Theorem deleted_after_all units es e u p : run act es (start units) = Some e -> deleted e = true -> u ∈ units -> p ∈ u ->
  done_ (out e) (fst p).
Proof.
  intros H Hd Hu Hp. assert (HI : (live units e \/ cut_short e)
    /\ (ended e = true -> existsb failed (out e) = true \/ forall u p, u ∈ units -> p ∈ u -> done_ (out e) (fst p))).
  { clear Hd. assert (Hall : forall w, live units w -> ended w = true -> forall u p, u ∈ units -> p ∈ u -> done_ (out w) (fst p)).
    { intros w (_ & _ & _ & before & Hun & _ & Hall & Hend & _) He u' p' Hu' Hp'. destruct (Hend He) as [Hr Ha]. rewrite Ha, app_nil_r in Hun.
      destruct (Hall p') as [Hn|Hdone]; [|by rewrite Hr in Hn; apply not_elem_of_nil in Hn | done].
      apply list_elem_of_In, in_concat. exists u'. split; apply list_elem_of_In; by rewrite <- ?Hun. }
    revert es e H. apply (run_ind act (start units)); [split; [left; apply start_live | right; apply Hall; [apply start_live | done]]|].
    intros es x w w' _ [HL HE] Ha. pose proof (act_live units x w w' HL Ha) as HL'. split; [done|]. intros He'.
    destruct (act_ends x w w' Ha He') as [He|Hnd].
    - destruct (act_out x w w' Ha) as [l ->]. rewrite failed_app. destruct (HE He) as [->|Hd]; [by left | right; intros; by apply done_more, (Hd u0 p0)].
    - destruct HL' as [HL'|[_ [Hdes|Hf]]]; [right; by apply Hall | congruence | by left]. }
  destruct HI as [_ HI]. unfold deleted in Hd. apply andb_true_iff in Hd as [He Hf]. destruct (HI He) as [Hx|Hall]; [by rewrite Hx in Hf | by apply (Hall u p)].
Qed.

(** ** A gallery *)
Module Gallery.
Definition any (_ _ : string) : bool := true.
Definition join (a b : string) : string := a +:+ "/" +:+ b.
Definition png : list N := [137; 80; 78; 71; 13; 10; 26; 10; 0; 0; 0; 13; 1; 2; 3; 4]%N.
Definition plain : ScanOptions := mkScan None None None.
Definition claimed (t : string) : ScanOptions := mkScan (Some t) None None.

Lemma scanning_is_of_the_body_witness : outcome (scan any plain [[137; 80]; [78; 71; 13; 10; 26; 10; 0; 0]; [0; 13; 1; 2; 3; 4]]%N)
  = match judge any plain (take HEADER_SIZE png) with (_, Some e) => Throw e | (t, None) => Ok (t, length png, png) end.
Proof. apply (scanning_is_of_the_body any plain [[137; 80]; [78; 71; 13; 10; 26; 10; 0; 0]; [0; 13; 1; 2; 3; 4]]%N). reflexivity. Defined.

Lemma told : outcome (scan any plain [png]) = Ok ("image/png", 16%nat, png)
  /\ outcome (scan any (claimed "image/jpeg") [png]) = Throw TYPE_MISMATCH
  /\ outcome (scan any (claimed "image/png") [[1; 2; 3]%N]) = Throw TYPE_MISMATCH
  /\ outcome (scan any (claimed "text/plain") [[1; 2; 3]%N]) = Ok ("text/plain", 3%nat, [1; 2; 3]%N).
Proof. vm_compute. done. Qed.

(** a limit is asked of a body until its first bytes are read: a body past its limit is refused in one chunk, and stored in two *)
Lemma limit_is_asked_of_the_beginning :
  let o := mkScan None None (Some (14, 0%nat)) in
  outcome (scan any o [png]) = Throw LIMIT_EXCEEDED
  /\ outcome (scan any o [take 12 png; drop 12 png]) = Ok ("image/png", 16%nat, png)
  /\ outcome (scan any o [take 12 png; repeat 0%N 1000]) = Ok ("image/png", 1012%nat, take 12 png ++ repeat 0%N 1000).
Proof. vm_compute. done. Qed.

Definition r (id : string) (type : string) (body : list (list N)) : StoreRequest :=
  mkStore (Some id) (Some type) None None None body None None None.
Definition store_ := store any join (fun _ => None) (fun _ => None) (fun s => s).

(** a body that is refused, under the id of a file there is, has been written over it: the file is answered as it was described,
    and is what was passed on of the body that was refused *)
Lemma refused_put_spoils_file :
  let f := snd (store_ 1 "" 0 "/images" (r "a" "image/png" [png]) (mkFiles ∅ ∅)) in
  let f' := snd (store_ 2 "" 0 "/images" (r "a" "image/jpeg" [png]) f) in
  fst (store_ 2 "" 0 "/images" (r "a" "image/jpeg" [png]) f) = Throw TYPE_MISMATCH
  /\ option_map fst (match get "/images/a" f with Ok x => Some x | Throw _ => None end) = Some png
  /\ match get "/images/a" f' with Ok (bytes, m) => bytes = [] /\ m_size m = 16%nat | Throw _ => False end.
Proof. vm_compute. done. Qed.

(** what is asked with a tag is not modified, whatever the tag, and whether or not there is a file *)
Lemma any_tag_is_held : read false false (Some "other") "GET" "/images/none" (mkFiles ∅ ∅) = Ok (Status 304).
Proof. reflexivity. Qed.

(** an id may be of 32 characters, and one past them is refused *)
Lemma ids : valid_id "a-long_id-of-32-characters-00001" = true /\ valid_id "a-long_id-of-33-characters-000001" = false /\ valid_id "a b" = false.
Proof. vm_compute. done. Qed.

Lemma bytes : toBytes "1kb" = Some (1024, 0%nat) /\ toBytes "1kB" = Some (1000, 0%nat) /\ toBytes "1.5MiB" = Some (15 * 1024 ^ 2, 1%nat)
  /\ toBytes "64MiB" = Some (64 * 1024 ^ 2, 0%nat) /\ toBytes "1i" = None /\ past 1025 (1024, 0%nat) = true.
Proof. vm_compute. done. Qed.

(** a workflow of two units, the second of which waits for the first *)
Definition units : list (list (string * string)) := [[("resize", "images.resize"); ("analyze", "images.analyze")]; [("index", "images.index")]].
Definition went : list event := [Answers 1 Streams; Answers 0 (Value None); Part 0 (Value (Some (VNumber 1))); Ends 0; Answers 0 (Value None)].
Definition after_went : Execution := match run act went (start units) with Some e => e | None => start units end.

Lemma deleted_after_all_witness : done_ (out after_went) "analyze".
Proof.
  apply (deleted_after_all units went after_went [("resize", "images.resize"); ("analyze", "images.analyze")] ("analyze", "images.analyze")).
  - vm_compute. reflexivity.
  - vm_compute. reflexivity.
  - by left.
  - right. by left.
Defined.

(** a step that answers an error leaves the file, and the unit after it uncalled *)
Lemma error_leaves_file :
  let e := run act [Answers 0 (Error (VString "BAD")); Answers 0 (Value None)] (start units) in
  option_map deleted e = Some false /\ option_map (fun e => fst <$> called e) e = Some ["resize"; "analyze"] /\ option_map ended e = Some true.
Proof. vm_compute. done. Qed.

Lemma refused_to_directories : precall [Context_ "images"; Does (Get false)] "/images/" = Throw (NotFound (Some "Trailing slash is redundant"))
  /\ precall [Context_ "images"; Does Put] "/images/" = Ok (Some ("images", Put)) /\ throw TYPE_MISMATCH = BadRequest None.
Proof. vm_compute. done. Qed.
End Gallery.
