(* ===== verification/Inputs.v ===== *)
(** * Inputs

    [extensions/exposition/source/directives/map/] and [require/]: what a request must carry, and what of a request, of its route and
    of its client is put in the input of the operation it calls, whatever its body says. The negotiation of languages and types,
    and what the federation reads of a token, are arguments. *)
From stdpp Require Import strings gmap.
From S2P Require Import Prelude Octets.

Open Scope Z_scope.

Record Parameter_ := mkParameter { p_name : string; p_value : string }.

Record Context := mkContext {
  authority : string;
  ip : option string;
  country : option string;
  (** the headers of the request, their names in lower case *)
  headers : list (string * string);
  buffer : string;
  (** what a token says, where the request has one that is read *)
  claims : string -> option (list (string * value))
}.

(** ** What a method requires ([require/]) *)

Inductive failure := BadRequest (message : string) | UnsupportedMediaType | RequestEntityTooLarge (message : string) | NotAcceptable | Misstated (message : string).

Fixpoint require_headers (names : list string) (c : Context) : result failure unit :=
  match names with
  | [] => Ok tt
  | n :: names => match own (headers c) n with None => Throw (BadRequest ("Header required: " +:+ n)) | Some _ => require_headers names c end
  end.

(** ** What is mapped ([map/]) *)

Record StreamOptions := mkStream { property : string; s_accept : option (list string); produces : option (list string); limit : option string }.

Inductive Mapping :=
| Authority (property : string)
| IP (property : string)
| Country (property : string)
| Buffer (property : string)
| Stream (o : StreamOptions)
| HeadersOf (map : list (string * string))
| Languages (languages : list string)
| Language (property : string)
| Segments (map : list (string * string))
| Instance (parameter : string)
| Claims (map : list (string * string)).

Definition LIMIT : string := "64MiB".

(** the properties a mapping fills *)
Definition names (m : Mapping) : list string :=
  match m with
  | Authority p | IP p | Country p | Buffer p | Language p => [p]
  | Stream o => [property o]
  | HeadersOf map | Segments map | Claims map => fst <$> map
  | Languages _ | Instance _ => []
  end.

(** a reply is told to vary by what the request was read for, and in what language it is *)
Inductive Transform := Vary (header : string) | ContentLanguage (language : string).

(** what a mapping gives: properties, of which those without a value are taken out, the parameters that are left, the instance,
    what is done to the reply, and what type is answered *)
Record Given := mkGiven {
  properties : list (string * option value);
  parameters : list Parameter_;
  instance : option string;
  transforms : list Transform;
  answers : option string
}.

Section mappings.
(** the first of languages, and of types, a header accepts; the number a header states *)
Context (language : option string -> list string -> option string) (media : option string -> list string -> option string)
  (number : string -> option Z).

Definition find_parameter (name : string) (ps : list Parameter_) : option (nat * Parameter_) := list_find (fun p => p_name p = name) ps.

Definition without (i : nat) (ps : list Parameter_) : list Parameter_ := take i ps ++ drop (S i) ps.

Definition MISSING (name : string) : failure := Misstated ("Route parameter '" +:+ name +:+ "' is missing").

(** [properties] of [Segments.ts] *)
Fixpoint segments (map : list (string * string)) (ps : list Parameter_) : result failure (list (string * option value) * list Parameter_) :=
  match map with
  | [] => Ok ([], ps)
  | (property, parameter) :: map =>
      let '(cut, name) := match parameter with String "~" s => (true, s) | _ => (false, parameter) end in
      match find_parameter name ps with
      | None => Throw (MISSING name)
      | Some (i, p) =>
          x ← segments map (if cut then without i ps else ps);
          Ok ((property, Some (VString (p_value p))) :: fst x, snd x)
      end
  end.

(** [acceptable] of [Stream.ts] *)
Definition acceptable (type : option string) (accept : list string) : bool :=
  match type with
  | None => false
  | Some t =>
      let m := hd "" (split ";"%char t) in
      let g := hd "" (split "/"%char m) in
      existsb (fun one => bool_decide (one = m) || bool_decide (one = g +:+ "/*") || bool_decide (one = "*/*")) accept
  end.

(** what a client states it is sending is past a limit *)
Definition stated_past (c : Context) (l : string) : bool :=
  match own (headers c) "content-length" ≫= number, toBytes l with Some n, Some b => fst b <? n * 10 ^ Z.of_nat (snd b) | _, _ => false end.

Definition languages_of (ds : list Mapping) : option (list string) :=
  match omap (fun m => match m with Languages l => Some l | _ => None end) ds with l :: _ => Some l | [] => None end.

(** one property, and nothing else *)
Definition only (p : string) (v : value) (ps : list Parameter_) : Given := mkGiven [(p, Some v)] ps None [] None.

Definition text (t : option string) : value := match t with Some t => VString t | None => VNull end.

(** [properties] of [Authority.ts] *)
Definition of_authority (c : Context) (p : string) (ps : list Parameter_) : Given := only p (VString (authority c)) ps.

(** [properties] of [Client.ts], over what it reads *)
Definition of_client (read : Context -> option string) (c : Context) (p : string) (ps : list Parameter_) : Given := only p (text (read c)) ps.

(** [properties] of [Buffer.ts] *)
Definition of_buffer (c : Context) (p : string) (ps : list Parameter_) : Given := only p (VString (buffer c)) ps.

(** [resolve] of [Stream.ts] *)
Definition resolve_type (c : Context) (produces : option (list string)) : result failure (option string) :=
  match produces with
  | None => Ok None
  | Some types => match media (own (headers c) "accept") types with Some t => Ok (Some t) | None => Throw NotAcceptable end
  end.

(** [properties] of [Stream.ts] *)
Definition of_stream (c : Context) (o : StreamOptions) (ps : list Parameter_) : result failure Given :=
  let type := own (headers c) "content-type" in
  let l := default LIMIT (limit o) in
  if match s_accept o with Some a => negb (acceptable type a) | None => false end then Throw UnsupportedMediaType
  else if stated_past c l then Throw (RequestEntityTooLarge ("Size limit is " +:+ l))
  else
    accept ← resolve_type c (produces o);
    let v := VObject [("type", text type); ("accept", text accept); ("stream", VString (buffer c))] in
    Ok (mkGiven [(property o, Some v)] ps None [] accept).

(** [properties] of [Headers.ts]: a header a cache keys replies by is read and not varied on *)
Definition KEYED : list string := ["host"].

Definition of_headers (c : Context) (map : list (string * string)) (ps : list Parameter_) : Given :=
  mkGiven ((fun p => (fst p, VString <$> own (headers c) (snd p))) <$> map) ps None (Vary <$> filter (fun h => h ∉ KEYED) (snd <$> map)) None.

(** [properties] of [Language.ts] *)
Definition of_language (c : Context) (ds : list Mapping) (p : string) (ps : list Parameter_) : result failure Given :=
  match languages_of ds with
  | None => Throw (Misstated "Supported languages are not defined, add `map:languages` directive")
  | Some ls =>
      let l := default (hd "" ls) (language (own (headers c) "accept-language") ls) in
      Ok (mkGiven [(p, Some (VString l))] ps None [ContentLanguage l; Vary "accept-language"] None)
  end.

(** [properties] of [Instance.ts] *)
Definition of_instance (name : string) (ps : list Parameter_) : result failure Given :=
  match find_parameter name ps with
  | None => Throw (MISSING name)
  | Some (i, p) => Ok (mkGiven [] (without i ps) (Some (p_value p)) [] None)
  end.

(** what a token of the request says ([claims] of [Claims.ts]) *)
Definition claimed (c : Context) (authentication : string) : option (list (string * value)) :=
  match split " "%char authentication with
  | scheme :: credentials :: _ => if bool_decide (scheme = "Bearer") then claims c credentials else None
  | _ => None
  end.

(** [properties] of [Claims.ts] *)
Definition of_claims (c : Context) (map : list (string * string)) (ps : list Parameter_) : Given :=
  let stated := match own (headers c) "authorization" ≫= claimed c with
    | Some cl => omap (fun p => match own cl (snd p) with None | Some VUndefined => None | Some v => Some (fst p, Some v) end) map
    | None => []
    end in
  mkGiven stated ps None [] None.

Definition give (c : Context) (ds : list Mapping) (m : Mapping) (ps : list Parameter_) : result failure Given :=
  match m with
  | Authority p => Ok (of_authority c p ps)
  | IP p => Ok (of_client ip c p ps)
  | Country p => Ok (of_client country c p ps)
  | Buffer p => Ok (of_buffer c p ps)
  | Stream o => of_stream c o ps
  | HeadersOf map => Ok (of_headers c map ps)
  | Languages _ => Ok (mkGiven [] ps None [] None)
  | Language p => of_language c ds p ps
  | Segments map => x ← segments map ps; Ok (mkGiven (fst x) (snd x) None [] None)
  | Instance name => of_instance name ps
  | Claims map => Ok (of_claims c map ps)
  end.

Definition is_instance (m : Mapping) : bool := match m with Instance _ | Languages _ => true | _ => false end.

(** all of them, one after another: what is given later is put over what was given before *)
Fixpoint give_all (c : Context) (all ds : list Mapping) (g : Given) : result failure Given :=
  match ds with
  | [] => Ok g
  | m :: ds =>
      h ← give c all m (parameters g);
      give_all c all ds (mkGiven (assign_all (properties g) (properties h)) (parameters h)
        (match instance h with Some i => Some i | None => instance g end) (transforms g ++ transforms h)
        (match answers h with Some a => Some a | None => answers g end))
  end.

(** the input a body becomes: what has no value is taken out of it *)
Definition remove (name : string) (fields : list (string * value)) : list (string * value) := filter (fun p => fst p <> name) fields.

Definition put_one (input : list (string * value)) (p : string * option value) : list (string * value) :=
  match snd p with Some v => assign (fst p) v input | None => remove (fst p) input end.

(** a body of an array gets properties the arrays of [value] do not have: it is not an input here *)
Definition fill (ps : list (string * option value)) (body : value) : option value :=
  match body with
  | VObject fields => Some (VObject (foldl put_one fields ps))
  | VArray _ => None
  | _ => Some (VObject (foldl put_one [] ps))
  end.

(** [precall]: what is put in the input, unless nothing is to be *)
Definition precall (c : Context) (ds : list Mapping) (ps : list Parameter_) : result failure (Given * (value -> option value)) :=
  g ← give_all c ds ds (mkGiven [] ps None [] None);
  Ok (g, if forallb is_instance ds then Some else fill (properties g)).
End mappings.

(** [bounded]: what is passed on of a body, and whether it outgrew what the route takes *)
Fixpoint bounded {A} (limit : Z * nat) (size : nat) (chunks : list (list A)) : list (list A) * bool :=
  match chunks with
  | [] => ([], false)
  | chunk :: chunks =>
      let size := (size + length chunk)%nat in
      if past size limit then ([], true)
      else let x := bounded limit size chunks in (chunk :: fst x, snd x)
  end.

Lemma past_le n m l : (n <= m)%nat -> past n l = true -> past m l = true.
Proof. unfold past. rewrite !Z.ltb_lt. intros Hn H. eapply Z.lt_le_trans; [exact H|]. apply Z.mul_le_mono_nonneg_r; [apply Z.pow_nonneg|]; lia. Qed.

(** ** What is mapped is not the body's to say *)

Lemma own_remove name key fields : own (remove name fields) key = if decide (name = key) then None else own fields key.
Proof.
  unfold remove. induction fields as [|[k v] fields IH]; [by case_decide|]. rewrite filter_cons. cbn [fst].
  destruct (decide (k <> name)) as [Hk|Hk]; cbn [own]; rewrite IH; destruct (decide (name = key)), (decide (k = key)); try done; subst; try done.
Qed.

Lemma own_put_one input p key : own (put_one input p) key = if decide (fst p = key) then snd p else own input key.
Proof. destruct p as [k [v|]]; cbn [put_one fst snd]; unfold put_one; cbn [fst snd]; [apply own_assign | apply own_remove]. Qed.

Lemma own_put_all ps key : NoDup (fst <$> ps) ->
  forall input, own (foldl put_one input ps) key = match own ps key with Some v => v | None => own input key end.
Proof.
  induction ps as [|[k v] ps IH]; intros Hn input; [done|]. rewrite fmap_cons, NoDup_cons in Hn. destruct Hn as [Hk Hn].
  cbn [foldl own]. rewrite IH, own_put_one by done. cbn [fst snd]. destruct (decide (k = key)) as [->|Hne]; [|done].
  cbn [fst] in Hk. by apply own_None in Hk as ->.
Qed.

Lemma assigned_keys {A} (given : list (string * A)) key : forall fields,
  key ∈ fst <$> fields \/ key ∈ fst <$> given -> key ∈ fst <$> assign_all fields given.
Proof.
  unfold assign_all. induction given as [|[k v] given IH]; intros fields; [set_solver|]. rewrite fmap_cons, elem_of_cons. cbn [foldl].
  intros H. apply IH. rewrite assign_keys. case_decide; set_solver.
Qed.

Lemma segments_names map ps x : segments map ps = Ok x -> fst <$> fst x = fst <$> map.
Proof.
  revert ps x. induction map as [|[k p] map IH]; intros ps x; [by intros [= <-]|]. cbn [segments].
  destruct (match p with String "~" s => _ | _ => _ end) as [cut name]. destruct (find_parameter name ps) as [[i q]|]; [|done].
  intros (y & Hy & H)%bind_Ok. injection H as <-. cbn [fst]. rewrite !fmap_cons. f_equal. by eapply IH.
Qed.

Section said.
Context (language : option string -> list string -> option string) (media : option string -> list string -> option string)
  (number : string -> option Z).

(** a mapping of claims fills the properties a token has values for *)
Definition certain (m : Mapping) : bool := match m with Claims _ => false | _ => true end.

Lemma give_names c all m ps h : give language media number c all m ps = Ok h -> certain m = true -> fst <$> properties h = names m.
Proof.
  destruct m as [p|p|p|p|o|map|ls|p|map|n|map]; cbn [give names]; intros H Hc; try done; try (by injection H as <-);
    unfold of_stream, of_language, of_instance in H.
  - destruct (match s_accept o with Some a => _ | None => _ end); [done|]. destruct (stated_past _ _ _); [done|].
    apply bind_Ok in H as (a & _ & H). by injection H as <-.
  - injection H as <-. unfold of_headers. cbn [properties]. rewrite <- list_fmap_compose. by apply list_fmap_ext.
  - destruct (languages_of all); [|done]. by injection H as <-.
  - apply bind_Ok in H as (x & Hx & H). injection H as <-. by apply segments_names in Hx.
  - destruct (find_parameter n ps) as [[i q]|]; [|done]. by injection H as <-.
Qed.

Lemma give_all_keys c all ds : forall g g', give_all language media number c all ds g = Ok g' -> NoDup (fst <$> properties g) ->
  NoDup (fst <$> properties g') /\ (forall key, key ∈ fst <$> properties g -> key ∈ fst <$> properties g')
  /\ (forall m key, m ∈ ds -> certain m = true -> key ∈ names m -> key ∈ fst <$> properties g').
Proof.
  induction ds as [|m ds IH]; intros g g'; cbn [give_all]; [intros [= <-] Hn; split_and!; [done | done | set_solver]|].
  intros (h & Hh & H)%bind_Ok Hn. specialize (IH _ _ H (assign_all_names _ _ Hn)) as (Hn' & Hg & Hm). cbn [properties] in *.
  split_and!; [done | intros key Hk; apply Hg, assigned_keys; by left|].
  intros m' key [->|Hm']%elem_of_cons Hc Hk; [|by eapply Hm]. apply Hg, assigned_keys. right. by rewrite (give_names _ _ _ _ _ Hh Hc).
Qed.

End said.

(** a body that is handed over as a stream is passed on whole, in its chunks, while it is within what the route takes, and what is
    passed on is never more than that *)
Lemma bounded_spec {A} limit (chunks : list (list A)) : forall size, past size limit = false ->
  let x := bounded limit size chunks in
  past (size + length (concat (fst x))) limit = false
  /\ snd x = past (size + length (concat chunks)) limit
  /\ (snd x = false -> fst x = chunks).
Proof.
  induction chunks as [|chunk chunks IH]; intros size Hs; [cbn; rewrite Nat.add_0_r; by split_and!|]. cbn [bounded concat].
  destruct (past (size + length chunk) limit) eqn:Hp; cbn [fst snd concat].
  - split_and!; [by rewrite Nat.add_0_r | | done]. symmetry. eapply past_le; [|exact Hp]. rewrite length_app. lia.
  - specialize (IH _ Hp) as (H1 & H2 & H3). rewrite !length_app, !Nat.add_assoc. split_and!; [done | done|]. intros H. by rewrite (H3 H).
Qed.

(** ** A shop *)
Module Shop.
Definition first_of (h : option string) (l : list string) : option string := hd_error (filter (fun x => h = Some x) l).
Definition number (s : string) : option Z := if bool_decide (s = "70000000") then Some 70000000 else None.
Definition decoded (token : string) : option (list (string * value)) :=
  if bool_decide (token = "read") then Some [("email", VString "a@toa.io")] else None.
Definition c (hs : list (string * string)) : Context := mkContext "toa.io" (Some "10.0.0.1") None hs "raw" decoded.
Definition ds : list Mapping := [Languages ["en"; "fr"]; Authority "host"; Country "country"; HeadersOf [("token", "x-token")]; Language "lang"; Segments [("id", "~id")]; Instance "process"].
Definition ps : list Parameter_ := [mkParameter "id" "1"; mkParameter "process" "p"; mkParameter "kept" "k"].
Definition body : value := VObject [("token", VString "forged"); ("country", VString "AQ"); ("name", VString "n")].
Definition told := precall first_of first_of number (c [("accept-language", "fr")]) ds ps.
Definition given_ : Given := match told with Ok (g, _) => g | Throw _ => mkGiven [] [] None [] None end.

Lemma filled : match told with
  | Ok (g, f) => f body = Some (VObject [("country", VNull); ("name", VString "n"); ("host", VString "toa.io"); ("lang", VString "fr"); ("id", VString "1")])
      /\ parameters g = [mkParameter "kept" "k"] /\ instance g = Some "p"
      /\ transforms g = [Vary "x-token"; ContentLanguage "fr"; Vary "accept-language"]
  | Throw _ => False end.
Proof. vm_compute. done. Qed.


(** a claim a token does not have, or that there is no token for, is the body's to say *)
Lemma absent_claim_is_said :
  let ds := [Claims [("address", "email"); ("verified", "email_verified")]] in
  let body := VObject [("verified", VBool true)] in
  let f hs := match precall first_of first_of number (c hs) ds [] with Ok (_, f) => f body | Throw _ => None end in
  f [("authorization", "Bearer read")] = Some (VObject [("verified", VBool true); ("address", VString "a@toa.io")])
  /\ f [] = Some body /\ f [("authorization", "Bearer other")] = Some body.
Proof. vm_compute. done. Qed.

Lemma streamed :
  let o := mkStream "source" (Some ["image/*"]) (Some ["image/webp"]) None in
  let given hs := match give first_of first_of number (c hs) [] (Stream o) [] with Ok g => Ok (answers g) | Throw e => Throw e end in
  given [("content-type", "image/png; q=1"); ("accept", "image/webp")] = Ok (Some "image/webp")
  /\ given [("content-type", "text/plain")] = Throw UnsupportedMediaType
  /\ given [("content-type", "image/png"); ("content-length", "70000000")] = Throw (RequestEntityTooLarge "Size limit is 64MiB")
  /\ given [("content-type", "image/png"); ("accept", "image/png")] = Throw NotAcceptable
  /\ bounded (4, 0%nat) 0 [[1; 2]; [3; 4]; [5]]%nat = ([[1; 2]; [3; 4]]%nat, true).
Proof. vm_compute. done. Qed.

Lemma required : require_headers ["x-token"; "x-other"] (c [("x-token", "t")]) = Throw (BadRequest "Header required: x-other")
  /\ require_headers ["x-token"] (c [("x-token", "t")]) = Ok tt.
Proof. vm_compute. done. Qed.
End Shop.
