(* ===== verification/Serving.v ===== *)
(** * Serving

    [extensions/exposition/source/Gateway.ts] from where a request comes in to what answers it, with [exceptions.ts],
    [Interception.ts], and what [RTD/Node.ts] and [RTD/Method.ts] explain of a route. The tree is matched by [Routing], the stages are
    those of [Directives], methods those [Branches] builds, and what is answered and thrown those of [Replies]; the endpoints served
    beside the tree are arguments. A request is awaited at its stages, and the tree may have changed where it is looked at again. *)
From S2P Require Import Prelude Restrictions Replies Routing Directives Branches.

Open Scope Z_scope.

(** ** What is thrown ([exceptions.ts]) *)

(** what an operation, or a directive, throws: an answer of its own, or an exception, of the core where it has a code *)
Inductive raised := Answer (e : thrown) | Failure (code : option Z) (message : string).

Definition badRequest (code : Z) : bool := ((200 <=? code) && (code <? 210)) || (code =? 221).

Definition http (status : Z) : thrown := Exception status Undefined None.
Definition said (status : Z) (message : string) : thrown := Exception status (Replies.Whole (VString message)) None.

Definition CORE_EXCEPTIONS : list (Z * Z) :=
  [(302, 404); (303, 412); (308, 410); (306, 409); (304, 409); (213, 409); (403, 404); (404, 504); (407, 503)].

Definition status_for (code : Z) : option Z := snd <$> List.find (fun p => fst p =? code) CORE_EXCEPTIONS.

Definition rethrow (e : raised) : thrown :=
  match e with
  | Answer e => e
  | Failure None message => Error_ message None
  | Failure (Some code) message =>
      if badRequest code then said 400 message
      else match status_for code with Some status => http status | None => Error_ message None end
  end.

(** what reaches the server as it was thrown *)
Definition raw (e : raised) : thrown := match e with Answer e => e | Failure _ message => Error_ message None end.

(** ** Where a route is forwarded to *)

(** a character of a path is a character of the text; others are written as they are escaped *)
Definition percent (n : Z) : list ascii :=
  let digit (d : Z) := ascii_of_nat (Z.to_nat (if d <? 10 then 48 + d else 55 + d)) in
  ["%"%char; digit (n / 16); digit (n mod 16)].

Definition written (code : Z) : list ascii :=
  if code <? 256 then [ascii_of_nat (Z.to_nat code)]
  else if code <? 2048 then percent (192 + code / 64) ++ percent (128 + code mod 64)
  else if code <? 65536 then percent (224 + code / 4096) ++ percent (128 + code / 64 mod 64) ++ percent (128 + code mod 64)
  else percent (240 + code / 262144) ++ percent (128 + code / 4096 mod 64) ++ percent (128 + code / 64 mod 64) ++ percent (128 + code mod 64).

Definition value_of (name : string) (ps : list parameter) : option text := snd <$> List.find (fun p => bool_decide (fst p = name)) ps.

(** characters up to the next [/] *)
Fixpoint upto (cs : list ascii) : list ascii * list ascii :=
  match cs with
  | "/"%char :: _ | [] => ([], cs)
  | c :: cs => let x := upto cs in (c :: fst x, snd x)
  end.

(** [forward.replace(/\/:([^/]+)/g, …)]; every step takes a character, which the length of the path is enough for *)
Fixpoint destination (fuel : nat) (ps : list parameter) (cs : list ascii) : result thrown (list ascii) :=
  match fuel, cs with
  | O, _ | _, [] => Ok cs
  | Datatypes.S fuel, "/"%char :: ":"%char :: rest =>
      let x := upto rest in
      match fst x with
      | [] => more ← destination fuel ps (":"%char :: rest); Ok ("/"%char :: more)
      | name =>
          match value_of (of_chars name) ps with
          | None => Throw (Error_ ("Forwarded parameter " +:+ quoted (of_chars name) +:+ " not found") None)
          | Some v => more ← destination fuel ps (snd x); Ok ("/"%char :: flat_map written v ++ more)
          end
      end
  | Datatypes.S fuel, c :: cs => more ← destination fuel ps cs; Ok (c :: more)
  end.

Definition RPC : string := "/.rpc".
Definition MCP : string := "/.mcp".
Definition DISCOVERY : string := "/.discovery".
Definition PING_COOLDOWN : Z := 5000.

(** [guarded]: what a resource carries of what its methods are guarded by *)
Definition FLAGS : list string := ["authenticated"; "private"; "protected"; "system"].

Definition guarded (methods : list (string * fields)) : fields :=
  foldl (fun described m => foldl (fun described flag =>
    if bool_decide (own (snd m) flag = Some (VBool true)) then assign flag (VBool true) described else described) described FLAGS) [] methods.

Section gateway.
(** a directive, what a request carries of directives and of its reply, and an endpoint *)
Context {D C Endpoint : Type}.

Notation set := (set_ D C (list parameter) Message fields raised).
Notation family := (family D C (list parameter) Message fields raised).
Notation method := (built (Endpoint := Endpoint) (D := D) (S := C) (P := list parameter) (O := Message) (I := fields) (E := raised)).

Record Request := mkRequest {
  verb_ : string;
  host : string;
  pathname : string;
  (** whether it presents a credential *)
  authorization : bool
}.

(** what is done of a request, in its order: the directives a credential is read by, those a call is guarded by, and the call *)
Inductive deed :=
| Reads (method : option (list set))
| Guards (sets : list set) (ps : list parameter)
| Calls (e : Endpoint) (ps : list parameter)
| Settles (sets : list set)
| Departs.

(** a request as it is served, and the pings of the gateway *)
Record State := mkState { carried : C; measured : option string; lastPing : Z; pings : list Z; done : list deed }.

Definition M (A : Type) : Type := State -> result thrown A * State.

#[export] Instance M_ret : MRet M := fun A a s => (Ok a, s).

#[export] Instance M_bind : MBind M := fun A B f m s => match m s with (Ok a, s) => f a s | (Throw e, s) => (Throw e, s) end.

Definition throw {A} (e : thrown) : M A := fun s => (Throw e, s).
Definition lift {A} (r : result thrown A) : M A := fun s => (r, s).

Definition does (d : deed) : M unit := fun s => (Ok tt, mkState (carried s) (measured s) (lastPing s) (pings s) (done s ++ [d])).

(** what is run of directives and endpoints, and how what it throws is thrown on *)
Definition within {A} (as_ : raised -> thrown) (f : C -> result raised A * C) : M A := fun s =>
  let x := f (carried s) in
  (match fst x with Ok a => Ok a | Throw e => Throw (as_ e) end, mkState (snd x) (measured s) (lastPing s) (pings s) (done s)).

Definition measure (route : string) : M unit := fun s => (Ok tt, mkState (carried s) (Some route) (lastPing s) (pings s) (done s)).

(** the tree, and the time, where they are looked at *)
Record View := mkView { trunk_ : node method; now_ : Z }.

Context (F : factory D C (list parameter) Message fields raised).
(** an endpoint that is called, and what it says of itself; whether a reply can be encoded; and what a resource is told to say of itself *)
Context (call_ : Endpoint -> list parameter -> C -> result raised Message * C) (told_ : Endpoint -> list parameter -> C -> result raised fields * C)
  (encodes answered : C -> bool) (resource : list set -> fields).

(** [methodOf] *)
Definition methodOf (n : node method) (verb : string) : option method :=
  match own (methods n) verb with
  | Some m => Some m
  | None => if bool_decide (verb = "HEAD") then own (methods n) "GET" else None
  end.

(** [find] *)
Definition find (v : View) (r : Request) : M (option (match_ method)) :=
  match tree_match (now_ v) (trunk_ v) (pathname r) with
  | None => mret None
  | Some m =>
      measure (route_ m) ≫= fun _ =>
      match forward (at_ m) with
      | None => mret (Some m)
      | Some path =>
          to ← lift (destination (String.length path) (parameters m) (chars path));
          match tree_match (now_ v) (trunk_ v) (of_chars to) with
          | None => throw (Error_ "Forwarded route not found" None)
          | Some f => measure (route_ f) ≫= fun _ => mret (Some f)
          end
      end
  end.

(** [reping] *)
Definition reping (now : Z) : M unit := fun s =>
  if now - lastPing s <? PING_COOLDOWN then (Ok tt, s) else (Ok tt, mkState (carried s) (measured s) now (pings s ++ [now]) (done s)).

(** [match] *)
Definition match_route (v : View) (r : Request) : M (match_ method) :=
  found ← find v r;
  match found with
  | Some m => mret m
  | None => reping (now_ v) ≫= fun _ => throw (said 404 "Route not found")
  end.

(** [call] *)
Definition call (m : method) (r : Request) (ps : list parameter) : M Message := fun s =>
  if negb (bool_decide (last (chars (pathname r)) = Some "/"%char)) then (Throw (said 404 "Trailing slash is required"), s)
  else if negb (encodes (carried s)) && negb (answered (carried s)) then (Throw NotAcceptable, s)
  else match reaches m with
  | None => (Throw (http 405), s)
  | Some e => (does (Calls e ps) ≫= fun _ => within rethrow (call_ e ps)) s
  end.

(** [explain] of [Method.ts]: what a method says of itself, or nothing where its directives refuse the caller *)
Definition explain_method (ps : list parameter) (m : method) : C -> result raised (option fields) * C := fun c =>
  match admits (guards m) c with
  | (Throw e, c) => (Throw e, c)
  | (Ok false, c) => (Ok None, c)
  | (Ok true, c) =>
      match (match reaches m with None => (Ok [], c) | Some e => told_ e ps c end) with
      | (Throw e, c) => (Throw e, c)
      | (Ok i, c) => (Ok (order <$> describe (guards m) i), c)
      end
  end.

Fixpoint explain_each (ps : list parameter) (ms : list (string * method)) : C -> result raised (list (string * fields)) * C := fun c =>
  match ms with
  | [] => (Ok [], c)
  | (verb, m) :: ms =>
      match explain_method ps m c with
      | (Throw e, c) => (Throw e, c)
      | (Ok i, c) =>
          match explain_each ps ms c with
          | (Throw e, c) => (Throw e, c)
          | (Ok rest, c) => (Ok (match i with Some i => (verb, i) :: rest | None => rest end), c)
          end
      end
  end.

(** [explain] of [Gateway.ts], over that of [Node.ts] *)
Definition explain (n : node method) (ps : list parameter) : M Message :=
  explained ← within raw (explain_each ps (methods n));
  let stated := match methods n with [] => [] | (_, m) :: _ => resource (guards m) end in
  let described := assign_all stated (guarded explained) in
  match explained, methods n with
  | [], _ :: _ => throw (http 403)
  | _, _ =>
      let body := VObject (assign_all described ((fun p => (fst p, VObject (snd p))) <$> explained)) in
      mret (mkMessage None (Some [("allow", join ", " (fst <$> explained))]) (Replies.Whole body) None)
  end.

(** a call of a method of a route, through the directives of the method *)
Definition through (b : method) (r : Request) (ps : list parameter) : M Message :=
  does (Guards (guards b) ps) ≫= fun _ =>
  interruption ← within rethrow (Directives.precall (fun message => Failure None message) (guards b) ps None);
  response ← (match interruption with Some o => mret o | None => call b r ps end);
  does (Settles (guards b)) ≫= fun _ =>
  within rethrow (Directives.settle (guards b) response) ≫= fun _ =>
  mret response.

(** [route]: one call *)
Definition route (v : View) (r : Request) (found : option (match_ method)) : M Message :=
  m ← (match found with Some m => mret m | None => match_route v r end);
  if bool_decide (verb_ r = "OPTIONS") then explain (at_ m) (parameters m)
  else match methodOf (at_ m) (verb_ r) with
  | None => throw (http 405)
  | Some b => through b r (parameters m)
  end.

(** ** Requests *)

Definition act : Type := M Message.

(** what is served beside the tree, where it is *)
Record Beside := mkBeside {
  dispatcher : option act;
  (** the hosts a model is given, and what answers it *)
  mcp : option ((string -> bool) * act);
  explorer : act;
  (** where a browser is sent that asks for the trunk *)
  looking : C -> option Message
}.

Context (beside : Beside).

Definition hosted (h : string) : bool := match mcp beside with Some (hosts, _) => hosts h | None => false end.
Definition has {A} (o : option A) : bool := match o with Some _ => true | None => false end.

(** [plain] *)
Definition plain (r : Request) : bool :=
  negb (hosted (host r)) && negb (has (dispatcher beside) && bool_decide (pathname r = RPC))
  && negb (has (mcp beside) && bool_decide (pathname r = MCP))
  && negb (bool_decide (pathname r = DISCOVERY)) && negb (bool_decide (pathname r = DISCOVERY +:+ "/")).

(** [serves] *)
Definition serves (v : View) (r : Request) : bool :=
  match tree_match (now_ v) (trunk_ v) "/" with Some m => has (own (methods (at_ m)) (verb_ r)) | None => false end.

(** what is served beside the tree answers, where a request is to it *)
Definition pinned (r : Request) : option act :=
  if hosted (host r) then
    if bool_decide (pathname r = "/") then snd <$> mcp beside else Some (throw (said 404 "Route not found"))
  else match (if bool_decide (pathname r = RPC) then dispatcher beside else None) with
  | Some dispatch => Some dispatch
  | None =>
      match (if bool_decide (pathname r = MCP) then snd <$> mcp beside else None) with
      | Some model => Some model
      | None => if bool_decide (pathname r = DISCOVERY) || bool_decide (pathname r = DISCOVERY +:+ "/") then Some (explorer beside) else None
      end
  end.

(** [endpoint] *)
Definition endpoint_ (v : View) (r : Request) (found : option (match_ method)) : M Message := fun s =>
  match pinned r with
  | Some answer => answer s
  | None =>
      match (if bool_decide (pathname r = "/") && negb (serves v r) then looking beside (carried s) else None) with
      | Some page => (Ok page, s)
      | None => route v r found s
      end
  end.

(** [intercept] of [Interception.ts] *)
Fixpoint intercept (those : list (C -> result thrown (option Message) * C)) : C -> result thrown (option Message) * C := fun c =>
  match those with
  | [] => (Ok None, c)
  | i :: those => match i c with (Ok None, c) => intercept those c | x => x end
  end.

(** [process]: the tree as it is where the credential is read, and as it is where the request is routed *)
Definition process (those : list (C -> result thrown (option Message) * C)) (before after : View) (r : Request) : M Message :=
  interception ← within raw (fun c => let x := intercept those c in (match fst x with Ok o => Ok o | Throw e => Throw (Answer e) end, snd x));
  match interception with
  | Some m => mret m
  | None =>
      found ← (if authorization r && plain r then find before r else mret None);
      let declared := m ← found; guards <$> methodOf (at_ m) (verb_ r) in
      does (Reads declared) ≫= fun _ =>
      within rethrow (preflight (stages F) declared) ≫= fun _ =>
      response ← endpoint_ after r found;
      does Departs ≫= fun _ =>
      within rethrow (depart (stages F) response) ≫= fun _ =>
      mret response
  end.

(** ** What is called of a request *)

Lemma plain_pinned r : plain r = true <-> pinned r = None.
Proof.
  unfold plain, pinned, hosted, has. destruct (dispatcher beside) as [d|], (mcp beside) as [[hosts model]|]; cbn;
    try destruct (hosts (host r)); repeat case_bool_decide; cbn; naive_solver.
Qed.

Lemma find_done v r s : done (snd (find v r s)) = done s.
Proof.
  unfold find. destruct (tree_match (now_ v) (trunk_ v) (pathname r)) as [m|]; [|done].
  unfold mbind, M_bind. cbn. destruct (forward (at_ m)) as [path|]; [|done].
  unfold lift. destruct (destination _ _ _) as [to|e]; [|done]. by destruct (tree_match _ _ (of_chars to)).
Qed.

Lemma find_any v r s s' : fst (find v r s) = fst (find v r s').
Proof.
  unfold find. destruct (tree_match (now_ v) (trunk_ v) (pathname r)) as [m|]; [|done].
  unfold mbind, M_bind. cbn. destruct (forward (at_ m)) as [path|]; [|done].
  unfold lift. destruct (destination _ _ _) as [to|e]; [|done]. by destruct (tree_match _ _ (of_chars to)).
Qed.

(** where a request is served, as a tree is looked at *)
Definition reached (v : View) (r : Request) (m : option (match_ method)) : Prop := forall s, fst (find v r s) = Ok m.

Lemma find_reached v r s m s' : find v r s = (Ok m, s') -> reached v r m /\ done s' = done s.
Proof. intros H. split; [intros t; rewrite (find_any v r t s), H; done | rewrite <- (find_done v r s), H; done]. Qed.

(** what a step leaves of what was done *)
Lemma match_route_done v r s x s' : match_route v r s = (x, s') ->
  done s' = done s /\ (forall m, x = Ok m -> reached v r (Some m)).
Proof.
  unfold match_route, mbind, M_bind. destruct (find v r s) as [[o|e] t] eqn:Hf.
  - apply find_reached in Hf as [Hr Hd]. destruct o as [m|].
    + intros [= <- <-]. split; [done|]. by intros m' [= <-].
    + unfold reping. destruct (now_ v - lastPing t <? PING_COOLDOWN); intros [= <- <-]; by split.
  - intros [= <- <-]. split; [|done]. by rewrite <- (find_done v r s), Hf.
Qed.

Lemma within_done {A} as_ (f : C -> result raised A * C) s x s' : within as_ f s = (x, s') ->
  done s' = done s /\ (forall a, x = Ok a -> exists c c', f c = (Ok a, c')).
Proof.
  unfold within. intros [= <- <-]. split; [done|]. intros a Ha. exists (carried s), (snd (f (carried s))).
  destruct (f (carried s)) as [[b|e] c]; cbn in *; congruence.
Qed.

Lemma call_done b r ps s x s' : call b r ps s = (x, s') ->
  done s' = done s \/
  exists e, reaches b = Some e /\ last (chars (pathname r)) = Some "/"%char /\ done s' = done s ++ [Calls e ps].
Proof.
  unfold call. destruct (bool_decide _) eqn:Hl; cbn [negb]; [|intros [= <- <-]; by left].
  apply bool_decide_eq_true in Hl. destruct (negb _ && negb _); [intros [= <- <-]; by left|].
  destruct (reaches b) as [e|] eqn:He; [|intros [= <- <-]; by left].
  unfold mbind, M_bind. cbn. intros H. apply within_done in H as [H _]. right. exists e. by rewrite H.
Qed.

Lemma explain_done n ps s : done (snd (explain n ps s)) = done s.
Proof.
  unfold explain, mbind, M_bind. destruct (within raw _ s) as [[l|e] t] eqn:H; apply within_done in H as [H _]; [|done].
  by destruct l, (methods n).
Qed.

(** what is done of a call: guarded, made, and settled *)
Definition called (b : method) (ps : list parameter) (r : Request) (l : list deed) : Prop :=
  forall e q, Calls e q ∈ l -> q = ps /\ reaches b = Some e /\ last (chars (pathname r)) = Some "/"%char
    /\ (exists c c', Directives.precall (fun message => Failure None message) (guards b) ps None c = (Ok None, c'))
    /\ (l = [Guards (guards b) ps; Calls e ps] \/ l = [Guards (guards b) ps; Calls e ps; Settles (guards b)]).

Lemma bind_served {A B} (m : M A) (f : A -> M B) s x s' : (m ≫= f) s = (x, s') ->
  (exists a t, m s = (Ok a, t) /\ f a t = (x, s')) \/ (exists e, m s = (Throw e, s') /\ x = Throw e).
Proof. unfold mbind, M_bind. destruct (m s) as [[a|e] t]; [left; by exists a, t | intros [= <- <-]; right; by exists e]. Qed.

Lemma does_done d s x s' : does d s = (x, s') -> done s' = done s ++ [d].
Proof. by intros [= <- <-]. Qed.

Lemma through_done b r ps s x s' : through b r ps s = (x, s') -> exists l, done s' = done s ++ l /\ called b ps r l.
Proof.
  unfold through. intros [(u & t1 & H1 & H)|(e & [=] & _)]%bind_served. apply does_done in H1.
  assert (called b ps r [Guards (guards b) ps]) as Hno by (intros e q; set_solver).
  assert (called b ps r [Guards (guards b) ps; Settles (guards b)]) as Hno' by (intros e q; set_solver).
  apply bind_served in H as [(o & t2 & H2 & H)|(e & H2 & _)]; apply within_done in H2 as [H2 Ho];
    [|exists [Guards (guards b) ps]; split; [congruence | done]].
  specialize (Ho o eq_refl). apply bind_served in H as [(m & t3 & H3 & H)|(e & H3 & _)].
  - assert (done s' = done t3 ++ [Settles (guards b)]) as Hs.
    { apply bind_served in H as [(u' & t4 & H4%does_done & H)|(e & [=] & _)].
      apply bind_served in H as [(u'' & t5 & [H5 _]%within_done & [= _ <-])|(e & [H5 _]%within_done & _)]; congruence. }
    destruct o as [o|].
    + injection H3 as _ <-. exists [Guards (guards b) ps; Settles (guards b)]. split; [|done]. by rewrite Hs, H2, H1, <- app_assoc.
    + apply call_done in H3 as [H3|(e & He & Hl & H3)].
      * exists [Guards (guards b) ps; Settles (guards b)]. split; [|done]. by rewrite Hs, H3, H2, H1, <- app_assoc.
      * exists [Guards (guards b) ps; Calls e ps; Settles (guards b)]. split; [by rewrite Hs, H3, H2, H1, <- !app_assoc|].
        intros e' q Hin. assert (e' = e /\ q = ps) as [-> ->] by set_solver. split_and!; auto.
  - destruct o as [o|]; [done|]. apply call_done in H3 as [H3|(e' & He & Hl & H3)].
    + exists [Guards (guards b) ps]. split; [by rewrite H3, H2, H1 | done].
    + exists [Guards (guards b) ps; Calls e' ps]. split; [by rewrite H3, H2, H1, <- app_assoc|].
      intros e'' q Hin. assert (e'' = e' /\ q = ps) as [-> ->] by set_solver. split_and!; auto.
Qed.

Lemma nothing_called (l : list deed) : (forall e q, Calls e q ∉ l) -> forall b ps r, called b ps r l.
Proof. intros H b ps r e q Hin. by destruct (H e q). Qed.

Lemma route_done v r found s x s' : route v r found s = (x, s') ->
  exists l, done s' = done s ++ l /\
    forall e q, Calls e q ∈ l -> exists m b,
      (found = Some m \/ found = None /\ reached v r (Some m)) /\ methodOf (at_ m) (verb_ r) = Some b /\ called b (parameters m) r l.
Proof.
  unfold route. intros [(m & t & Hm & H)|(e & Hm & _)]%bind_served.
  - assert (done t = done s /\ (found = Some m \/ found = None /\ reached v r (Some m))) as [Hd Hf].
    { destruct found as [m'|]; [injection Hm as <- <-; split; [done | by left]|].
      apply match_route_done in Hm as [H1 H2]. split; [done|]. right. auto. }
    assert (forall y, y = s' -> done y = done s -> exists l, done s' = done s ++ l /\ forall e q, Calls e q ∈ l -> exists m b,
      (found = Some m \/ found = None /\ reached v r (Some m)) /\ methodOf (at_ m) (verb_ r) = Some b /\ called b (parameters m) r l) as Hnone.
    { intros y -> Hy. exists []. rewrite app_nil_r. split; [done|]. intros e q Hin. by apply elem_of_nil in Hin. }
    case_bool_decide; [eapply Hnone; [done|]; rewrite <- Hd, <- (explain_done (at_ m) (parameters m) t), H; done|].
    destruct (methodOf (at_ m) (verb_ r)) as [b|] eqn:Hb; [|injection H as _ <-; by eapply Hnone].
    apply through_done in H as (l & Hl & Hc). exists l. split; [congruence|]. intros e q _. by exists m, b.
  - exists []. rewrite app_nil_r. split; [|intros e' q Hin; by apply elem_of_nil in Hin].
    destruct found as [m'|]; [done|]. by apply match_route_done in Hm as [H1 _].
Qed.

Lemma endpoint_done v r found s x s' : pinned r = None -> endpoint_ v r found s = (x, s') ->
  exists l, done s' = done s ++ l /\
    forall e q, Calls e q ∈ l -> exists m b,
      (found = Some m \/ found = None /\ reached v r (Some m)) /\ methodOf (at_ m) (verb_ r) = Some b /\ called b (parameters m) r l.
Proof.
  unfold endpoint_. intros ->. destruct (if bool_decide _ && _ then _ else None) as [page|]; [|apply route_done].
  intros [= _ <-]. exists []. rewrite app_nil_r. split; [done|]. by intros ? ? ?%elem_of_nil.
Qed.

Lemma not_in_nil {A} (d : A) l : d ∈ l -> l = [] -> False.
Proof. intros H ->. by apply elem_of_nil in H. Qed.


(** ** Pings: of the routes that are not found, no more than one in a while is asked of the tenants *)

Definition spaced : list Z -> Prop := consecutive (fun a b => PING_COOLDOWN <= b - a).

Lemma repings_spaced ts s : pings s = [] ->
  spaced (pings (foldl (fun s t => snd (reping t s)) s ts)).
Proof.
  assert (forall s, spaced (pings s) /\ (forall a, last (pings s) = Some a -> a = lastPing s) ->
    spaced (pings (foldl (fun s t => snd (reping t s)) s ts))) as H.
  { induction ts as [|t ts IH]; intros s' [Hs Hl]; [done|]. cbn [foldl]. apply IH. unfold reping.
    destruct (Z.ltb_spec (t - lastPing s') PING_COOLDOWN); [done|]. cbn. split.
    - apply consecutive_snoc; [done|]. by intros a ->%Hl.
    - intros a. rewrite last_snoc. by intros [= <-]. }
  intros Hn. apply H. rewrite Hn. split; [intros i a b Ha; by rewrite lookup_nil in Ha | done].
Qed.
End gateway.

(** ** A kiosk *)
Module Kiosk.
Definition keep (name : string) (_ : value) (_ : string) : result raised string := Ok name.

(** a family that lets a call through once a request has a credential that was read *)
Definition auth : family string (list string) (list parameter) Message fields raised :=
  mkFamily "auth" true None keep None
    (Some (fun _ _ c => if bool_decide ("identity" ∈ c) then (Ok None, c) else (Throw (Answer (http 401)), c)))
    (Some (fun _ c => (Ok (bool_decide ("identity" ∈ c)), c))) None None
    (Some (fun declared c => (Ok tt, match declared with Some ds => ds ++ c | None => "identity" :: c end))) None.

Definition F := factory_of [auth].
Notation method := (built (Endpoint := string) (D := string) (S := list string) (P := list parameter) (O := Message) (I := fields) (E := raised)).
Definition get : method := mkBuilt (Some "pots.observe") [mkSet auth ["identity"]].
Definition pot : node method := Routing.make 2 [] [("GET", get)] true None None.
Definition cup : node method := Routing.make 3 [] [] true (Some "/pots/:id") None.
Definition trunk : node method := Routing.make 1 [Route (segments "/pots/:id") pot; Route (segments "/cups/:id") cup] [] true None None.
Definition beside : Beside (C := list string) (Endpoint := string) (D := string) :=
  mkBeside None None (throw (http 405)) (fun _ => None).

Definition reply (e : string) (ps : list parameter) (c : list string) : result raised Message * list string :=
  (Ok (mkMessage None None (Replies.Whole (VString e)) None), c).
Definition start : State (C := list string) (Endpoint := string) (D := string) := mkState [] None 0 [] [].
Definition v := mkView trunk 0.
Definition asked (path : string) : Request := mkRequest "HEAD" "toa.io" path true.
Definition served (before after : View) (r : Request) :=
  process F reply (fun _ _ c => (Ok [], c)) (fun _ => true) (fun _ => false) (fun _ => []) beside [] before after r start.
Definition empty : View (C := list string) (Endpoint := string) (D := string) := mkView (Routing.make 1 [] [] true None None) 0.


Lemma answers : fst (served v v (asked "/pots/a/")) = Ok (mkMessage None None (Replies.Whole (VString "pots.observe")) None)
  /\ fst (served v v (asked "/cups/a/")) = Ok (mkMessage None None (Replies.Whole (VString "pots.observe")) None)
  /\ measured (snd (served v v (asked "/cups/a/"))) = Some "/pots/:id"
  /\ fst (served v v (asked "/pots/a")) = Throw (said 404 "Trailing slash is required")
  /\ fst (served v v (asked "/saucers/")) = Throw (said 404 "Route not found").
Proof. vm_compute. done. Qed.

(** a value is put into the path it is forwarded to as it was decoded: what it holds of a path is read as a path, and it is decoded
    twice *)
Lemma forwarded_is_decoded_twice :
  fst (served v v (asked "/pots/a%2Fb/")) = Ok (mkMessage None None (Replies.Whole (VString "pots.observe")) None)
  /\ fst (served v v (asked "/cups/a%2Fb/")) = Throw (Error_ "Forwarded route not found" None)
  /\ option_map (parameters (M := method)) (tree_match 0 trunk "/pots/%2541/") = Some [("id", codes "%41")]
  /\ match fst (find v (asked "/cups/%2541/") start) with Ok (Some m) => parameters m = [("id", codes "A")] | _ => False end.
Proof. vm_compute. done. Qed.

(** what is read of a credential before a route is there is not as the route declares *)
Lemma read_before_it_is_merged : head (done (snd (served empty v (asked "/pots/a/")))) = Some (Reads None)
  /\ is_ok (fst (served empty v (asked "/pots/a/"))) = true.
Proof. vm_compute. done. Qed.

(** what is thrown of the core *)
Lemma statuses : rethrow (Failure (Some 302) "") = http 404 /\ rethrow (Failure (Some 205) "no") = said 400 "no"
  /\ rethrow (Failure (Some 221) "no") = said 400 "no" /\ rethrow (Failure (Some 213) "") = http 409 /\ rethrow (Failure (Some 407) "") = http 503
  /\ rethrow (Failure (Some 300) "broken") = Error_ "broken" None /\ rethrow (Answer (http 418)) = http 418.
Proof. vm_compute. done. Qed.
End Kiosk.
