(* ===== verification/Announcements.v ===== *)
(** * Announcements

    [extensions/exposition/source/Tenant.ts], [Announcements.ts], and the discovery of [Gateway.ts]: a tenant announces the routes of its
    component over and over, less often the longer it runs, and answers the gateways that ask; a gateway that starts asks, and waits
    until the branches that come have been quiet for a while. What a gateway makes of an announcement is [Gateway.expose]. *)
From Stdlib Require Import QArith Qround Lqa.
From S2P Require Import Prelude Routing Directives Branches Gateway.

Open Scope Z_scope.

(** ** Tenants ([Tenant.ts]) *)

Definition EXPOSE_MIN : Z := 5000.

(** [Math.round(BRANCH_TTL / 2.1)] *)
Definition EXPOSE_MAX : Z := Qfloor (inject_Z BRANCH_TTL / (21 # 10) + (1 # 2))%Q.

Definition EXPOSE_TAU : Z := 900000.

Section tenant.
(** [Math.exp] of minus so many parts of [EXPOSE_TAU] *)
Context (decay : Z -> Q).

(** [exposeInterval] *)
Definition exposeInterval (uptime : Z) : Z :=
  Qfloor (inject_Z EXPOSE_MAX - inject_Z (EXPOSE_MAX - EXPOSE_MIN) * decay uptime + (1 # 2))%Q.

(** a tenant hands an announcement over, or waits to make the next; or it is through with announcing *)
Inductive phase := Handing (since : Z) | Sleeping (due : Z) | Through.

Record Tenant := mkTenant {
  started : Z;
  stopped : bool;
  phase_ : phase;
  clock : Z;
  (** when it announced on its own, and when because it was asked *)
  sent : list Z;
  answered : list Z
}.

(** [open]: it is asked from now on, and announces at once *)
Definition opened (now : Z) : Tenant := mkTenant now false (Handing now) now [now] [].

Inductive happening :=
(** an announcement is handed over; the wait is over; a gateway asks; the tenant is closed *)
| Handed
| Wakes
| Asks
| Closes.

(** how late a timer may be, and how long an announcement may be handed over for *)
Context (lag : Z).

Definition deadline (t : Tenant) : option Z :=
  match phase_ t with Handing since => Some (since + lag) | Sleeping due => Some (due + lag) | Through => None end.

(** [expose], [announce] and [close], at a time *)
Definition act (x : Z * happening) (t : Tenant) : option Tenant :=
  let '(now, h) := x in
  if (now <? clock t) || match deadline t with Some d => d <? now | None => false end then None
  else match h, phase_ t with
  | Handed, Handing _ =>
      let next := if stopped t then Through else Sleeping (now + exposeInterval (now - started t)) in
      Some (mkTenant (started t) (stopped t) next now (sent t) (answered t))
  | Wakes, Sleeping due =>
      if now <? due then None
      else if stopped t then Some (mkTenant (started t) true Through now (sent t) (answered t))
      else Some (mkTenant (started t) false (Handing now) now (sent t ++ [now]) (answered t))
  | Asks, p => Some (mkTenant (started t) (stopped t) p now (sent t) (if stopped t then answered t else answered t ++ [now]))
  | Closes, p => Some (mkTenant (started t) true p now (sent t) (answered t))
  | _, _ => None
  end.
End tenant.

(** ** What tenants of a process announce through ([Announcements.ts]) *)

Section announcements.
Context {A : Type} `{EqDecision A}.

Definition register (announce : A) (tenants : list A) : list A := if decide (announce ∈ tenants) then tenants else tenants ++ [announce].
Definition withdraw (announce : A) (tenants : list A) : list A := filter (fun x => x <> announce) tenants.

(** who announces when a gateway asks: every tenant there is, in the order they came *)
Definition announce (tenants : list A) : list A := tenants.

Lemma withdrawn_is_silent a l : a ∉ announce (withdraw a l) /\ (forall b, b <> a -> b ∈ l -> b ∈ announce (withdraw a l)).
Proof. unfold announce, withdraw. split; [|intros b]; rewrite list_elem_of_filter; naive_solver. Qed.
End announcements.

(** ** Discovery ([Gateway.ts]) *)

Definition SETTLE_TIMEOUT : Z := 30000.
Definition SETTLE_POLL : Z := 50.
Definition KNOCK_DELAYS : list Z := [0; 500; 1000; 1500].

(** [knock]: the times a gateway asks at as it starts, until it is stopped; each ask takes what it takes *)
Fixpoint knocks (now : Z) (delays : list (Z * Z)) (stopped : Z -> bool) : list Z :=
  match delays with
  | [] => []
  | (delay, takes) :: delays =>
      if stopped now then []
      else
        let at_ := now + delay in
        (if stopped at_ then [] else [at_]) ++ knocks (at_ + takes) delays stopped
  end.

Section settling.
(** the last merge and the widest gap between merges, as they are at a time; and when a sleep ends that was asked for at a time *)
Context (merged : Z -> Z * Z) (woken : Z -> Z).

Definition quiet_ (widest : Z) : Z := Z.min (Z.max (widest * SETTLE_QUIET_FACTOR) SETTLE_QUIET_MIN) SETTLE_QUIET_MAX.

Fixpoint polling (fuel : nat) (deadline now : Z) : option Z :=
  if now - fst (merged now) <? quiet_ (snd (merged now)) then
    if deadline <=? now then Some now
    else match fuel with O => None | S fuel => polling fuel deadline (woken now) end
  else Some now.

(** [settled]: from a start, and from when the first branch came or the time was out *)
Definition settled (fuel : nat) (start first : Z) : option Z :=
  if fst (merged first) =? 0 then Some first else polling fuel (start + SETTLE_TIMEOUT) first.
End settling.

(** ** How often a tenant announces *)

Lemma EXPOSE_MAX_eq : EXPOSE_MAX = 857143.
Proof. reflexivity. Qed.

Lemma interval_bounds decay u : (0 <= decay u)%Q -> (decay u <= 1)%Q -> EXPOSE_MIN <= exposeInterval decay u <= EXPOSE_MAX.
Proof.
  unfold exposeInterval. rewrite EXPOSE_MAX_eq. change (857143 - EXPOSE_MIN) with 852143. set (d := decay u). intros H0 H1. split.
  - rewrite <- (Qfloor_Z EXPOSE_MIN). change EXPOSE_MIN with 5000. apply Qfloor_resp_le. unfold inject_Z. lra.
  - change 857143 with (Qfloor (inject_Z 857143 + (1 # 2))%Q) at 2. apply Qfloor_resp_le. unfold inject_Z. lra.
Qed.

Section rhythm.
Context (decay : Z -> Q) (decays : forall u, 0 <= u -> (0 <= decay u)%Q /\ (decay u <= 1)%Q).
Context (lag : Z) (Hlag : 0 <= lag).

Definition WIDEST : Z := EXPOSE_MAX + 2 * lag.
Definition apart (a b : Z) : Prop := EXPOSE_MIN <= b - a <= WIDEST.

(** a tenant that runs: it announced as it started, and each time after no sooner and no later than it means to *)
Record running (t : Tenant) : Prop := {
  run_started : started t <= clock t;
  run_first : head (sent t) = Some (started t);
  run_apart : consecutive apart (sent t);
  run_phase : stopped t = false -> exists s, last (sent t) = Some s /\ match phase_ t with
    | Handing since => since = s /\ s <= clock t <= s + lag
    | Sleeping due => s + EXPOSE_MIN <= due <= s + lag + EXPOSE_MAX /\ clock t <= due + lag
    | Through => False
    end
}.

Lemma opened_running now : running (opened now).
Proof.
  split; cbn; [done | done | by intros [|i] a b | ]. intros _. exists now. split; [done|]. lia.
Qed.

Lemma act_running x t t' : act decay lag x t = Some t' -> running t -> running t'.
Proof.
  destruct x as [now h]. unfold act. intros H [Hs Hf Ha Hp]. destruct (Z.ltb_spec now (clock t)) as [|Hc]; [done|].
  destruct (match deadline lag t with Some d => d <? now | None => false end) eqn:Hd; [done|]. cbn [orb] in H. unfold deadline in Hd.
  destruct h, (phase_ t) as [since|due|] eqn:Hph; try done; try (injection H as <-); cbn [started stopped phase_ clock sent answered] in *.
  - split; cbn [started stopped phase_ clock sent answered]; [lia | done | done|]. intros Hst. destruct (Hp Hst) as (s & Hl & -> & Hcl). exists s. split; [done|]. rewrite Hst.
    destruct (decays (now - started t)) as [H0 H1]; [lia|]. pose proof (interval_bounds decay _ H0 H1). unfold EXPOSE_MIN in *. lia.
  - destruct (Z.ltb_spec now due); [done|]. destruct (stopped t) eqn:Hst; injection H as <-; split; cbn [started stopped phase_ clock sent answered]; try done; try lia.
    + rewrite head_app, Hf. done.
    + apply consecutive_snoc; [done|]. destruct (Hp eq_refl) as (s & Hl & Hdue & _). intros a. rewrite Hl. intros [= <-]. unfold apart, WIDEST. lia.
    + intros _. exists now. rewrite last_snoc. split; [done|]. lia.
  - split; cbn [started stopped phase_ clock sent answered]; [lia | done | done|]. intros Hst. destruct (Hp Hst) as (s & Hl & -> & Hcl). exists s. split; [done|]. lia.
  - split; cbn [started stopped phase_ clock sent answered]; [lia | done | done|]. intros Hst. destruct (Hp Hst) as (s & Hl & Hdue & _). exists s. split; [done|]. lia.
  - split; cbn [started stopped phase_ clock sent answered]; [lia | done | done|]. intros Hst. by destruct (Hp Hst) as (s & Hl & ?).
  - by split; cbn [started stopped phase_ clock sent answered]; [lia | done | done|].
  - by split; cbn [started stopped phase_ clock sent answered]; [lia | done | done|].
  - by split; cbn [started stopped phase_ clock sent answered]; [lia | done | done|].
Qed.

Lemma run_running es now t : run (act decay lag) es (opened now) = Some t -> running t.
Proof. revert es t. apply (run_ind _ _ (fun _ t => running t)); [apply opened_running | intros ???? _ Hr Ha; by eapply act_running]. Qed.

(** ** What of its announcements arrives *)

(** the last of times that is not after one *)
Lemma latest_before (l : list Z) s0 u : head l = Some s0 -> s0 <= u ->
  exists n s, l !! n = Some s /\ s <= u /\ (forall s', l !! S n = Some s' -> u < s').
Proof.
  revert s0. induction l as [|s l IH]; [done|]. intros s0 [= ->] Hu. destruct l as [|s' l].
  - by exists 0%nat, s0.
  - destruct (Z.lt_ge_cases u s') as [Hlt|Hge]; [exists 0%nat, s0; split; [done|]; split; [done|]; by intros ? [= <-]|].
    destruct (IH s' eq_refl Hge) as (n & s & Hn & Hs & Hnext). by exists (S n), s.
Qed.

Context (latency : Z) (Hlatency : 0 <= latency < EXPOSE_MIN) (in_time : 4 * lag + latency < BRANCH_TTL - 2 * EXPOSE_MAX).

(** one of every two announcements that follow one another arrives, in no more than the latency, if it is due before a time *)
Definition one_of_two (arrived : Z -> Prop) (sent : list Z) (until : Z) : Prop :=
  consecutive (fun s s' => s' + latency < until -> exists a, arrived a /\ s <= a <= s' + latency) sent.

Lemma heard arrived t t0 u : running t -> stopped t = false -> started t <= t0 -> one_of_two arrived (sent t) (clock t) ->
  t0 <= u <= clock t -> exists a, (a = t0 \/ arrived a /\ a < u) /\ u < a + BRANCH_TTL.
Proof.
  pose proof EXPOSE_MAX_eq. intros [Hs Hf Ha Hp] Hst Ht0 Htwo Hu. destruct (latest_before _ _ u Hf ltac:(lia)) as (n & s & Hn & Hsu & Hnext).
  assert (u <= s + WIDEST) as Hw.
  { destruct (sent t !! S n) as [s'|] eqn:Hs'; [specialize (Hnext s' eq_refl); specialize (Ha n s s' Hn Hs'); unfold apart in Ha; lia|].
    destruct (Hp Hst) as (l & Hl & Hph). rewrite last_lookup in Hl. assert (pred (length (sent t)) = n) as He.
    { apply lookup_lt_Some in Hn. apply lookup_ge_None in Hs'. lia. }
    rewrite He, Hn in Hl. injection Hl as ->. unfold WIDEST. destruct (phase_ t); [lia | lia | done]. }
  unfold WIDEST in *. destruct n as [|n].
  { assert (s = started t) as -> by (rewrite <- head_lookup in Hn; congruence). exists t0. split; [by left|]. lia. }
  assert (exists r, sent t !! n = Some r) as [r Hr] by (apply lookup_lt_is_Some_2; apply lookup_lt_Some in Hn; lia).
  pose proof (Ha n r s Hr Hn) as Hrs. unfold apart, WIDEST in Hrs. destruct (Z.lt_ge_cases (s + latency) u) as [Hlt|Hge].
  { destruct (Htwo n r s Hr Hn ltac:(lia)) as (a & Harr & Hra). exists a. split; [right; split; [done | lia] | lia]. }
  destruct n as [|n].
  { assert (r = started t) as -> by (rewrite <- head_lookup in Hr; congruence). exists t0. split; [by left|]. lia. }
  assert (exists q, sent t !! n = Some q) as [q Hq] by (apply lookup_lt_is_Some_2; apply lookup_lt_Some in Hr; lia).
  pose proof (Ha n q r Hq Hr) as Hqr. unfold apart, WIDEST in Hqr. destruct (Htwo n q r Hq Hr ltac:(lia)) as (a & Harr & Hqa).
  exists a. split; [right; split; [done | lia] | lia].
Qed.
End rhythm.

(** ** What a gateway serves of a tenant *)

Section served.
Context {Mapping Endpoint D S P O I E : Type}.
Context (error : string -> E) (endpoint : Mapping -> string -> result E Endpoint) (F : factory D S P O I E).
Notation branch := (Branch (Mapping := Mapping)).
Notation start_ := (start error endpoint F).
Notation expose_ := (expose error endpoint F).
Notation announced_ := (announced error endpoint F).

(** an announcement of what is exposed *)
Definition again (l : string) (x : Exposed) (b : branch) : Prop :=
  label b = l /\ exposed_version x = version b /\ exposed_routes x = routes_ b.

(** announcements in the order they arrive, after a moment *)
Fixpoint in_order (last : Z) (evs : list (Z * branch)) : Prop :=
  match evs with [] => True | (now, _) :: evs => last <= now /\ in_order now evs end.

Lemma in_order_after evs : forall last now b, in_order last evs -> (now, b) ∈ evs -> last <= now.
Proof.
  induction evs as [|[t c] evs IH]; intros last now b; [by intros _ ?%elem_of_nil|].
  intros [Hle Ho] [[= -> ->]|Hin]%elem_of_cons; [done|]. specialize (IH t now b Ho Hin). lia.
Qed.

Lemma heard_timely l x until evs : forall last, in_order last evs -> last <= until ->
  (forall now b, (now, b) ∈ evs -> now <= until /\ (label b = l -> again l x b \/ timestamp b < exposed_timestamp x)) ->
  (forall u, last <= u <= until -> exists a, (a = last \/ (exists b, (a, b) ∈ evs /\ again l x b) /\ a < u) /\ u < a + BRANCH_TTL) ->
  timely l x last evs /\ until < latest l x last evs + BRANCH_TTL.
Proof.
  induction evs as [|[now b] evs IH]; intros last Ho Hu Hevs Hheard; cbn [timely latest].
  { split; [done|]. destruct (Hheard until ltac:(lia)) as (a & [->|[(b & Hb & _) _]] & Ha); [done|]. by apply elem_of_nil in Hb. }
  destruct Ho as [Hle Ho]. destruct (Hevs now b ltac:(by left)) as [Hnow Hold].
  assert (forall now' b', (now', b') ∈ evs -> now' <= until /\ (label b' = l -> again l x b' \/ timestamp b' < exposed_timestamp x)) as Hevs'
    by (intros now' b' Hin; apply Hevs; by right).
  destruct (decide (label b = l /\ exposed_version x = version b /\ exposed_routes x = routes_ b)) as [Hag|Hno].
  - destruct (IH now Ho ltac:(lia) Hevs') as [Ht Hl].
    + intros u Hlu. destruct (Hheard u ltac:(lia)) as (a & [->|[(b' & Hb' & Hag') Ha]] & Hau).
      * exists now. split; [by left | lia].
      * apply elem_of_cons in Hb' as [[= -> ->]|Hb']; [exists now; split; [by left | lia]|].
        exists a. split; [right; split; [by exists b' | done] | done].
    + split; [|done]. split; [done|]. destruct Hag as (Hlb & Hv). by rewrite decide_True, decide_True by done.
  - destruct (IH last) as [Ht Hl]; [| done | done | |].
    + destruct evs as [|[n c] evs]; [done|]. cbn in *. destruct Ho. split; [lia | done].
    + intros u Hlu. destruct (Hheard u Hlu) as (a & [->|[(b' & Hb' & Hag') Ha]] & Hau); [exists last; split; [by left | done]|].
      apply elem_of_cons in Hb' as [[= -> ->]|Hb']; [done|]. exists a. split; [right; split; [by exists b' | done] | done].
    + split; [|done]. split; [done|]. destruct (decide (label b = l)) as [Hlb|]; [|done].
      rewrite decide_False by naive_solver. destruct (Hold Hlb) as [Hag|Hts]; [by destruct Hno|]. split; [done|]. split; [|done].
      destruct (Hheard now ltac:(lia)) as (a & [->|[(b' & Hb' & Hag') Ha]] & Hau); [done|].
      apply elem_of_cons in Hb' as [[= -> ->]|Hb']; [done|]. pose proof (in_order_after _ _ _ _ Ho Hb'). lia.
Qed.

(** C39: while a tenant runs, what a gateway exposes of it stays exposed and does not expire, though every other of its announcements is
    lost, whatever tenants of the component that started before it and those of other components announce, as long as timers and
    messages are late by less than a part of what an announcement lasts for. *)
Theorem one_loss_is_survived decay lag latency es s0 t now0 root g0 before t0 b x evs :
  (forall u, 0 <= u -> (0 <= decay u)%Q /\ (decay u <= 1)%Q) ->
  0 <= lag -> 0 <= latency < EXPOSE_MIN -> 4 * lag + latency < BRANCH_TTL - 2 * EXPOSE_MAX ->
  run (act decay lag) es (opened s0) = Some t -> stopped t = false ->
  start_ now0 root = Ok g0 ->
  let g := expose_ t0 b (announced_ before g0) in
  branches g !! label b = Some x -> exposed_version x = version b -> exposed_routes x = routes_ b ->
  s0 <= t0 <= clock t -> in_order t0 evs ->
  (forall now c, (now, c) ∈ evs -> now <= clock t /\ (label c = label b -> again (label b) x c \/ timestamp c < exposed_timestamp x)) ->
  one_of_two latency (fun a => exists c, (a, c) ∈ evs /\ again (label b) x c) (sent t) (clock t) ->
  branches (announced_ evs g) !! label b = Some x
  /\ forall i, i ∈ landed x -> match expiration_of (announced_ evs g) i with Some e => clock t < e | None => True end.
Proof.
  intros Hd Hlag Hlat Hin Hrun Hst Hs g Hx Hv Hr Ht0 Ho Hevs Htwo.
  pose proof (run_running decay Hd lag Hlag es s0 t Hrun) as Ht.
  assert (started t = s0) as Hs0.
  { revert Hrun. apply (run_ind _ _ (fun _ t => started t = s0)); [done|]. intros es' [n h] w w' _ Hw Ha. unfold act in Ha.
    destruct (_ || _); [done|]. destruct h, (phase_ w); try done; try (by injection Ha as <-).
    destruct (n <? _); [done|]. by destruct (stopped w); injection Ha as <-. }
  destruct (heard_timely (label b) x (clock t) evs t0 Ho ltac:(lia) Hevs) as [Htimely Hlatest].
  { intros u Hu. apply (heard lag Hlag latency Hlat Hin _ t t0 u Ht Hst ltac:(lia) Htwo Hu). }
  destruct (exposed_kept error endpoint F now0 root g0 before t0 b x Hs Hx Hv Hr) as [Hsound Hkept].
  destruct (timely_kept error endpoint F (label b) x t0 evs g Hsound Hx Hkept Htimely) as [Hb Hk]. split; [done|].
  intros i Hi. specialize (Hk i Hi). unfold not_before in Hk. fold g. destruct (expiration_of _ i); [|done]. lia.
Qed.
End served.

(** ** A gateway that starts *)

Definition FUEL : nat := Z.to_nat (SETTLE_TIMEOUT / SETTLE_POLL).

Section starting.
Context (merged : Z -> Z * Z) (woken : Z -> Z) (lag : Z) (Hlag : 0 <= lag).
Context (sleeps : forall t, t + SETTLE_POLL <= woken t <= t + SETTLE_POLL + lag).

(** nothing was merged for as long as it takes *)
Definition quiet_at (t : Z) : Prop := quiet_ (snd (merged t)) <= t - fst (merged t).

Lemma polling_ends deadline fuel : forall now, deadline - now <= SETTLE_POLL * Z.of_nat fuel ->
  exists ended, polling merged woken fuel deadline now = Some ended /\ now <= ended <= Z.max now (deadline + SETTLE_POLL + lag)
    /\ (ended < deadline -> quiet_at ended).
Proof.
  unfold quiet_at. pose proof (eq_refl : SETTLE_POLL = 50) as Hp. induction fuel as [|fuel IH]; intros now Hf; cbn [polling];
    destruct (Z.ltb_spec (now - fst (merged now)) (quiet_ (snd (merged now)))); try (exists now; split; [done|]; lia);
    destruct (Z.leb_spec deadline now); try (exists now; split; [done|]; lia); try lia.
  specialize (sleeps now). destruct (IH (woken now) ltac:(lia)) as (ended & He & Hb & Hq). exists ended. split; [done|]. split; [lia | done].
Qed.

End starting.

(** ** A rollout *)
Module Dock.
Definition even_ (_ : Z) : Q := 1.
Definition hs : list (Z * happening) := [(10, Handed); (5010, Wakes); (5020, Handed); (7000, Asks); (10020, Wakes); (10030, Handed); (15030, Wakes)].
Definition t : Tenant := match run (act even_ 100) hs (opened 0) with Some t => t | None => opened 0 end.

Lemma announced_at : sent t = [0; 5010; 10020; 15030] /\ answered t = [7000] /\ clock t = 15030.
Proof. vm_compute. done. Qed.

(** the second arrives, the third is lost; and an earlier tenant of the component is turned down *)
Definition tenant (v : string) (started : Z) : Branch (Mapping := string) := Rollout.tenant v started.
Definition heard_ : list (Z * Branch (Mapping := string)) := [(4000, tenant "1" (-100)); (5500, tenant "2" 0); (12000, tenant "1" (-100))].
Definition before : list (Z * Branch (Mapping := string)) := [(10, tenant "1" (-100))].
Definition g := expose Datatypes.id Site.endpoint Site.closed 50 (tenant "2" 0) (announced Datatypes.id Site.endpoint Site.closed before Rollout.g0).
Definition x : Exposed := match branches g !! "default.pots" with Some x => x | None => mkExposed "" "" 0 [] end.

Lemma one_loss_is_survived_witness :
  branches (announced Datatypes.id Site.endpoint Site.closed heard_ g) !! label (tenant "2" 0) = Some x
  /\ forall i, i ∈ landed x ->
    match expiration_of (announced Datatypes.id Site.endpoint Site.closed heard_ g) i with Some e => clock t < e | None => True end.
Proof.
  apply (one_loss_is_survived Datatypes.id Site.endpoint Site.closed even_ 100 1000 hs 0 t 0 (SNode None false None [] [] [])
    Rollout.g0 before 50 (tenant "2" 0) x heard_); try reflexivity.
  - intros u _. split; discriminate.
  - discriminate.
  - split; [discriminate | reflexivity].
  - split; discriminate.
  - repeat split; discriminate.
  - intros now c [[= -> ->]|[[= -> ->]|[[= -> ->]|[]%elem_of_nil]%elem_of_cons]%elem_of_cons]%elem_of_cons; (split; [discriminate|]); intros _;
      [right; reflexivity | left; by repeat split | right; reflexivity].
  - rewrite (proj1 announced_at), (proj2 (proj2 announced_at)). intros [|[|[|[|i]]]] a b; cbn; intros [= <-] [= <-] Hl; try lia;
      (exists 5500; split; [exists (tenant "2" 0); split; [right; left | by repeat split] | lia]).
Defined.

(** branches that come every second keep a gateway waiting until its time is out, and one that comes alone for half a second *)
Definition coming (t : Z) : Z * Z := (if t <? 1000 then 0 else t - t mod 1000, if t <? 1000 then 0 else 1000).
Definition alone (t : Z) : Z * Z := (if t <? 1000 then 0 else 1000, 0).


Lemma waited : settled coming (fun t => t + 50) FUEL 500 1000 = Some 30500 /\ settled alone (fun t => t + 50) FUEL 500 1000 = Some 1500
  /\ knocks 0 [(0, 10); (500, 10); (1000, 10); (1500, 10)] (fun t => 2000 <=? t) = [0; 510; 1520].
Proof. vm_compute. done. Qed.

Lemma intervals : exposeInterval (fun _ => 1%Q) 0 = EXPOSE_MIN /\ exposeInterval (fun _ => 0%Q) 0 = EXPOSE_MAX.
Proof. vm_compute. done. Qed.

(** a tenant that is closed is through once what it hands over is, and answers nobody *)
Lemma closed_is_silent : option_map (fun t => (sent t, answered t, phase_ t))
  (run (act even_ 100) [(10, Handed); (20, Closes); (30, Asks); (5010, Wakes)] (opened 0)) = Some ([0], [], Through).
Proof. vm_compute. done. Qed.
End Dock.
